(* ===== verification/_CoqProject ===== *)
-Q . S2P
Prelude.v
MachineInt.v
Worker.v
BitReverse.v
Decoder.v
Field.v
FieldExt.v
FieldTraits.v
Powers.v
Ntt.v
Fft.v
Fri.v
Deep.v
FriChain.v
StatusRegisters.v
Config.v
Memory.v
NonDeterminism.v
Mmu.v
Blake2s.v
Hasher.v
Transcript.v
Challenges.v
FullStatement.v
MerkleTree.v
LeafInclusion.v
Skeleton.v
Flattener.v
CircuitVerifier.v
Acceptance.v
QueryStatement.v
CircuitStatement.v
Layouts.v
Delegations.v
DelegationSpec.v
Cycle.v
StateNew.v
State.v
Invariants.v
SafetyNew.v
Isa.v
IsaRefinement.v
Equivalence.v
Traps.v
Simulator.v
