(* ===== verification/Prelude.v ===== *)
(** * Verification of the ZKsync Airbender RISC-V core

    Airbender proves the execution of RISC-V programs.  A program runs on a
    RISC-V simulator that also records what a STARK prover needs; heavy
    computations leave the instruction set through delegation CSRs (Blake2s
    rounds, 256-bit arithmetic); the proofs are over the Mersenne31 field and
    hash with Blake2s.  This development models that core.

    ** The parts and the files that model them

    - [Prelude.v]: the effect monad ([comp]: a state, an early trap, a panic),
      a Hoare triple for it, tactics, the [airbender] hint database.
    - [MachineInt.v]: Rust's fixed-width integers as [Z], wrap-around written
      out, with the [bits] tactic.
    - [Decoder.v]: [risc_v_simulator/src/utils], [cycle/opcode_formats],
      [cycle/decoder_utils.rs]; and the manual's encodings (module [Encode]).
    - [Field.v]: [field/src] base field: [ops.rs], [base.rs], [field.rs] and
      the batch inversion of [lib.rs].
    - [StatusRegisters.v], [Config.v]: trap causes, mstatus, satp, modes and
      flags; the [MachineConfig] trait and its five instances.
    - [Memory.v]: [abstractions/memory.rs], [abstractions/mod.rs],
      [cycle/utils.rs] and the events of [abstractions/tracer.rs].
    - [NonDeterminism.v]: [abstractions/non_determinism.rs] and the guest's
      [QuasiUART] of [riscv_common/src/lib.rs].
    - [Mmu.v]: [mmu/mod.rs].
    - [Blake2s.v]: [blake2s_u32/src], native and delegated builds, and RFC 7693.
    - [Delegations.v], [DelegationSpec.v]: [delegations/*.rs] in both versions.
    - [Cycle.v], [StateNew.v], [State.v]: the state both simulators share, the
      unrolled simulator (module [V2], [cycle/state_new.rs]) and the first one
      (module [V1], [cycle/state.rs]).
    - [Invariants.v], [SafetyNew.v]: well-formed machines and their
      preservation.
    - [Isa.v], [IsaRefinement.v]: RV32IM as the manual defines it, and that the
      unrolled simulator implements it.
    - [Equivalence.v], [Traps.v], [Simulator.v]: the two simulators agree; trap
      entry is precise; the run loop of [sim/mod.rs] and the setups.
    - [FieldExt.v]: [field/src/complex.rs] and [field/src/quartic.rs], the
      quadratic and quartic extensions, with the two-adic generators.
    - [Worker.v]: [worker/src/lib.rs], how work is cut into chunks for threads.
    - [BitReverse.v]: the bit-reversal enumerations of [fft/src/utils.rs].
    - [FieldTraits.v]: the traits [FieldExtension] and [TwoAdicField] and field
      comparison as classes with laws, and the three fields as their instances.
    - [Powers.v], [Ntt.v], [Fft.v]: [fft/src/field_utils.rs], the column-major
      [fft/src/column_major/naive.rs] and the twiddle factors of
      [fft/src/row_major/precomputes.rs]; definitions and the butterfly
      argument are in [Ntt.v], the theorems in [Fft.v].
    - [Fri.v]: [verifier_common/src/fri_folding.rs] and the FRI part of a query
      in [verifier/src/lib.rs]; [Deep.v]: [verifier/src/utils.rs], the DEEP
      consistency check.
    - [Hasher.v]: the hasher interface ([DelegatedBlake2sState]) that the
      transcript and the Merkle verifiers are written against, its three builds
      as instances, and the streaming argument over it.
    - [Transcript.v]: [transcript/src]: commitments, draws, proof of work, the
      buffering transcript.
    - [MerkleTree.v]: [prover/src/merkle_trees]: leaf hashing, layers, caps,
      proofs.
    - [LeafInclusion.v]: [prover/src/definitions/leaf_inclusion_verifier].
    - [Challenges.v]: [prover/src/definitions/mod.rs], [hash_like_holder.rs] and
      the structures of [verifier_common/src/lib.rs]; [FullStatement.v]:
      [full_statement_verifier/src/lib.rs], with the circuits' verifiers as
      parameters of the kind [circuit_verifier_ok].
    - [Skeleton.v]: the constants, structures and filling loops of
      [verifier/src/concrete] and [verifier/src/skeleton.rs] (modules [Size],
      [Skeleton], [Query]); a structure is its array of words, and what is read
      is described by parsers.  [Flattener.v]: the structures of a proof and
      [verifier_common/src/proof_flattener.rs].
    - [CircuitVerifier.v]: [verify_with_configuration] of
      [verifier/src/lib.rs] and [verifier_common/src/structs.rs];
      [Acceptance.v]: its transcript, its query indexes and its divisors;
      [FriChain.v], [QueryStatement.v]: what a FRI query and a whole query
      establish; [CircuitStatement.v]: what an accepted proof establishes, and
      that the verifier is a [circuit_verifier_ok].
    - [Layouts.v]: what these constants read of the generated
      [circuit_layout.rs] of the seven circuits and of the template, and the
      types of the layouts in [cs/src/definitions].

    ** How the code is rendered

    A Rust struct is a record, an enum an inductive type, a trait a class, its
    implementations instances.  [&mut self] is state passing in [comp]; leaving
    the ['cycle_block] with a trap is the outcome [Trapped], which keeps the
    state reached; a panic is [Panic] with a message; [unreachable_unchecked]
    and [unwrap_unchecked] are [Panic UB], so that "no undefined behaviour" is
    a theorem.  Words are [Z] in range, with every truncation explicit; the
    model is of the release profile (no debug assertions, wrapping arithmetic)
    with the default features and [cycle_marker].  A tracer only receives
    values and is the list of events it was given.  The oracle, the memory, the
    MMU and the CSR processors are type classes with laws
    ([LawfulMemory], [LawfulSource], [LawfulMMU], [LawfulProcessor]); the
    implementations in the repository are proved to satisfy them, and the
    theorems about the simulators hold for any lawful one.  The [ruint] crate is
    the class [U256Ops] with its documented behaviour as [U256Laws].

    ** What the theorems show

    - The unrolled simulator executes RV32IM as the manual says, instruction by
      instruction and over runs ([IsaRefinement.v]); it never reaches undefined
      behaviour and keeps its machine well formed ([SafetyNew.v]); a halted
      program stays halted.
    - The two simulators agree cycle by cycle and run by run in the provers'
      configurations ([Equivalence.v], [Simulator.v]); a trap in the first
      changes nothing but the trap state ([Traps.v]).
    - The 256-bit delegation computes integer arithmetic; the delegated Blake2s
      compression is the native one, which is RFC 7693.
    - Memory is an array of bytes for every legal access width; decoded
      immediates are the manual's; the UART protocol delivers messages in order.
    - The base field operations are those of the field of integers modulo
      2^31 - 1, inversion, square roots, powers and batch inversion included.
    - The extensions are fields ([i^2 = -1], then a square root of the
      non-square [2 + i]); the table of generators has elements of exact order
      [2^k] ([FieldExt.v]).
    - The transcript's seeds are hashes of everything committed; the proof of
      work it searches is the one it verifies ([Transcript.v]).  Work is
      partitioned without loss ([Worker.v]) and every bit reversal, serial or
      parallel under any interleaving, is the same permutation
      ([BitReverse.v]).
    - What the prover commits to in a Merkle tree the verifier accepts, both
      verifiers agree, and an opening is binding up to an explicit collision
      ([LeafInclusion.v]).
    - The FFT computes the values of a polynomial on a coset and the inverse FFT
      its coefficients, for every size the field supports ([Fft.v]).
    - A FRI step is interpolation over the points of a leaf, and a query against
      the folds of a polynomial passes; both builds of the DEEP check compute the
      combination of quotients they stand for ([Fri.v], [Deep.v]).
    - The verifier of a full statement accepts exactly the statements that hold:
      circuits that form one execution under challenges that commit to all of
      it, with balanced memory and delegation arguments ([FullStatement.v]).
    - The verifier of a circuit reads back what the flattener writes
      ([Flattener.v]); it accepts exactly the proofs that pass every check at the
      challenges of their own transcript; an accepted query is a chain of
      interpolants from the DEEP quotient to the last polynomial; and it is a
      verifier the full statement can be verified with ([CircuitStatement.v]).
      Its structures are aligned ([Skeleton.v]), and the constants it is compiled
      with agree, for every trace length of the folding table and for the layout
      of every circuit ([Layouts.v]).

    ** Bounds

    Loops over a fixed number of iterations recurse on that number.  [pow_loop]
    has fuel 32, the width of its exponent, and [field_pow_correct] shows that
    to be enough.  [run_loop] and [run_cycles] recurse on the number of cycles
    the caller asks for.  Nothing else needs fuel.
    The iterators over chunks have as fuel the number of chunks, the
    absorption loop of the buffering transcript the number of words, and the
    theorems show that they end before it.  The serial proof-of-work search is
    a recursion that halves its range of [2^64 - 2] nonces.  The rounds of the
    FFT ([ct_rounds], [gs_rounds]) have as fuel the logarithm of the size, the
    fused power ([pow_with_fma_loop]) the width of its exponent.  The loops that
    fill the verifier's structures recurse on the distance to their bound.

    ** What is not modelled

    The profiler and the callbacks of [Simulator::run] (they only observe); the
    opcode statistics; SIMD, assembly and [use_division] variants of the field;
    the vectorised Blake2s; generated quotients, constraints and witnesses; the GPU
    prover; code generators, tools and examples.
    The evaluation of a circuit's quotient is generated code and an argument of
    the circuit's verifier ([evaluate_quotient]), and the theorems hold for any
    layout with consistent sizes; [Layouts.v] has the layouts there are.  The
    assembly of the fused multiply-add is its value.  The Poseidon2 leaf
    verifier, which is behind a feature, is not modelled.  Of the prover only the
    parts above; the constraint system and the prover's stages are not, nor the
    row-major FFT kernels over AVX-512 rows and the LDE tables.
*)

From stdpp Require Import base list gmap strings.
From Stdlib Require Import ZArith Lia Btauto.

#[global] Open Scope Z_scope.

(** ** Effects

    The simulators are imperative Rust: they thread a mutable machine, leave
    the cycle block early with a trap ([break 'cycle_block]) and panic.  A
    computation is a function from the state to one of these three outcomes;
    a trap keeps the state reached so far, a panic does not return. *)
Inductive outcome (E S A : Type) : Type :=
| Ok (a : A) (s : S)
| Trapped (e : E) (s : S)
| Panic (msg : string).
Arguments Ok {E S A} a s.
Arguments Trapped {E S A} e s.
Arguments Panic {E S A} msg.

Definition comp (E S A : Type) : Type := S -> outcome E S A.

Section Monad.
Context {E S : Type}.

Definition ret {A} (a : A) : comp E S A := fun s => Ok a s.

Definition bind {A B} (m : comp E S A) (k : A -> comp E S B) : comp E S B :=
  fun s => match m s with
           | Ok a s' => k a s'
           | Trapped e s' => Trapped e s'
           | Panic msg => Panic msg
           end.

(** [break 'cycle_block] after [trap = e] *)
Definition trap_with {A} (e : E) : comp E S A := fun s => Trapped e s.

(** [panic!], a failed [assert!], [unreachable!] *)
Definition panic {A} (msg : string) : comp E S A := fun _ => Panic msg.

Definition assert_or_panic (b : bool) (msg : string) : comp E S unit :=
  if b then ret tt else panic msg.

(** Run a computation on a part of a larger state. *)
Definition zoom {T A} (get : T -> S) (put : S -> T -> T) (c : comp E S A) : comp E T A :=
  fun t => match c (get t) with
           | Ok a s => Ok a (put s t)
           | Trapped e s => Trapped e (put s t)
           | Panic msg => Panic msg
           end.

Definition gets {A} (f : S -> A) : comp E S A := fun s => Ok (f s) s.
Definition modify (f : S -> S) : comp E S unit := fun s => Ok tt (f s).
End Monad.

Declare Scope comp_scope.
Delimit Scope comp_scope with comp.
Notation "'let!' x ':=' m 'in' k" := (bind m (fun x => k))
  (at level 200, x pattern, m at level 100, k at level 200, right associativity) : comp_scope.
Notation "m ';;!' k" := (bind m (fun _ => k))
  (at level 199, right associativity) : comp_scope.
#[global] Open Scope comp_scope.

(** The outcome completed normally / the value and state it produced. *)
Definition completes {E S A} (o : outcome E S A) (a : A) (s : S) : Prop := o = Ok a s.

(** A computation never reaches one of the [unreachable_unchecked] hints. *)
Definition UB : string := "undefined behaviour".

Lemma bind_ok {E S A B} (m : comp E S A) (k : A -> comp E S B) s b s' :
  bind m k s = Ok b s' -> exists a s1, m s = Ok a s1 /\ k a s1 = Ok b s'.
Proof. unfold bind; destruct (m s); intros; try discriminate; eauto. Qed.

Lemma bind_ret_l {E S A B} (a : A) (k : A -> comp E S B) s :
  bind (ret a) k s = k a s.
Proof. reflexivity. Qed.

Lemma bind_step {E S A B} (m : comp E S A) (k : A -> comp E S B) s a s' :
  m s = Ok a s' -> bind m k s = k a s'.
Proof. unfold bind. intros ->. reflexivity. Qed.

Lemma bind_assoc {E S A B C} (m : comp E S A) (f : A -> comp E S B) (g : B -> comp E S C) s :
  bind (bind m f) g s = bind m (fun x => bind (f x) g) s.
Proof. unfold bind; destruct (m s); reflexivity. Qed.

Lemma bind_ext {E S A B} (m : comp E S A) (k k' : A -> comp E S B) s :
  (forall a s', k a s' = k' a s') -> bind m k s = bind m k' s.
Proof. intros Hk. unfold bind. destruct (m s); auto. Qed.

Lemma assert_ok {E S} b msg (s : S) u s' :
  assert_or_panic (E:=E) b msg s = Ok u s' -> b = true /\ s' = s.
Proof. destruct b; intros H; inversion H; auto. Qed.

Lemma zoom_ok {E S T A} (get : T -> S) put (c : comp E S A) t a t' :
  zoom get put c t = Ok a t' -> exists s, c (get t) = Ok a s /\ t' = put s t.
Proof. unfold zoom. destruct (c (get t)); intros H; inversion H; eauto. Qed.

(** Peel the binds off a hypothesis [m s = Ok a s']. *)
Ltac inv_ok :=
  repeat match goal with
  | H : bind _ _ _ = Ok _ _ |- _ =>
      apply bind_ok in H; destruct H as (? & ? & ? & ?)
  | H : ret _ _ = Ok _ _ |- _ => unfold ret in H; simplify_eq
  | H : gets _ _ = Ok _ _ |- _ => unfold gets in H; simplify_eq
  | H : modify _ _ = Ok _ _ |- _ => unfold modify in H; simplify_eq
  | H : panic _ _ = Ok _ _ |- _ => discriminate H
  | H : trap_with _ _ = Ok _ _ |- _ => discriminate H
  | H : Ok _ _ = Ok _ _ |- _ => inversion H; clear H; subst
  | H : Trapped _ _ = Ok _ _ |- _ => discriminate H
  | H : Panic _ = Ok _ _ |- _ => discriminate H
  | H : assert_or_panic _ _ _ = Ok _ _ |- _ =>
      apply assert_ok in H; destruct H as [? ->]
  end.

(** ** Triples

    From a state satisfying [P], the computation ends in [Q], or traps in [R],
    or panics for a reason other than undefined behaviour. *)
Definition triple {E S A} (P : S -> Prop) (c : comp E S A) (Q : A -> S -> Prop)
    (R : E -> S -> Prop) : Prop :=
  forall s, P s -> match c s with
                   | Ok a s' => Q a s'
                   | Trapped e s' => R e s'
                   | Panic msg => msg <> UB
                   end.

Section Triple.
Context {E S : Type}.
Implicit Types (P : S -> Prop) (R : E -> S -> Prop).

Lemma triple_bind {A B} P (Q : A -> S -> Prop) (T : B -> S -> Prop) R (m : comp E S A) k :
  triple P m Q R -> (forall a, triple (Q a) (k a) T R) -> triple P (bind m k) T R.
Proof.
  intros Hm Hk s Hs. specialize (Hm s Hs). unfold bind.
  destruct (m s) as [a s'| |]; auto. apply Hk. exact Hm.
Qed.

Lemma triple_ret {A} P (Q : A -> S -> Prop) R a : (forall s, P s -> Q a s) -> triple P (ret a) Q R.
Proof. intros HQ s Hs. cbn. auto. Qed.

Lemma triple_gets {A} P (Q : A -> S -> Prop) R f :
  (forall s, P s -> Q (f s) s) -> triple P (gets f) Q R.
Proof. intros HQ s Hs. cbn. auto. Qed.

Lemma triple_modify P (Q : unit -> S -> Prop) R f :
  (forall s, P s -> Q tt (f s)) -> triple P (modify f) Q R.
Proof. intros HQ s Hs. cbn. auto. Qed.

Lemma triple_panic {A} P (Q : A -> S -> Prop) R msg : msg <> UB -> triple P (panic msg) Q R.
Proof. intros Hm s Hs. exact Hm. Qed.

Lemma triple_trap {A} P (Q : A -> S -> Prop) R e :
  (forall s, P s -> R e s) -> triple P (trap_with e) Q R.
Proof. intros HR s Hs. cbn. auto. Qed.

Lemma triple_assert P (Q : unit -> S -> Prop) R b msg :
  msg <> UB -> (forall s, b = true -> P s -> Q tt s) -> triple P (assert_or_panic b msg) Q R.
Proof. intros Hm HQ s Hs. destruct b; cbn; auto. Qed.

Lemma triple_conseq {A} P P' (Q Q' : A -> S -> Prop) R R' c :
  triple P c Q R -> (forall s, P' s -> P s) -> (forall a s, Q a s -> Q' a s) ->
  (forall e s, R e s -> R' e s) -> triple P' c Q' R'.
Proof.
  intros Hc HP HQ HR s Hs. specialize (Hc s (HP s Hs)). destruct (c s); auto.
Qed.

Lemma triple_pre {A} P P' (Q : A -> S -> Prop) R c :
  (forall s, P' s -> P s) -> triple P c Q R -> triple P' c Q R.
Proof. intros HP Hc s Hs. apply Hc. auto. Qed.

Lemma triple_no_trap {A} P (Q : A -> S -> Prop) R c :
  triple P c Q (fun _ _ => False) -> triple P c Q R.
Proof. intros Hc. eapply triple_conseq; [exact Hc | auto.. | easy]. Qed.

Lemma triple_pure {A} (phi : Prop) P (Q : A -> S -> Prop) R c :
  (phi -> triple P c Q R) -> triple (fun s => phi /\ P s) c Q R.
Proof. intros Hc s [Hp Hs]. apply Hc; auto. Qed.

Lemma triple_assert_then {A} P (Q : A -> S -> Prop) R b msg k :
  msg <> UB -> (b = true -> triple P k Q R) -> triple P (assert_or_panic b msg ;;! k) Q R.
Proof. intros Hm Hk s Hs. destruct b; cbn; [apply Hk; auto | auto]. Qed.

Lemma triple_gets_then {A B} P (Q : B -> S -> Prop) R (f : S -> A) k :
  (forall a, triple (fun s => f s = a /\ P s) (k a) Q R) -> triple P (bind (gets f) k) Q R.
Proof. intros Hk s Hs. apply Hk. auto. Qed.

(** A step that only keeps the invariant. *)
Lemma triple_seq {A B} P (Q : B -> S -> Prop) R (m : comp E S A) k :
  triple P m (fun _ => P) R -> (forall a, triple P (k a) Q R) -> triple P (bind m k) Q R.
Proof. intros Hm Hk. eapply triple_bind; [exact Hm | exact Hk]. Qed.

Lemma triple_zoom {T A} (get : T -> S) put P (Q : A -> S -> Prop) R (P' : T -> Prop)
    (Q' : A -> T -> Prop) (R' : E -> T -> Prop)
    (c : comp E S A) :
  triple P c Q R ->
  (forall t, P' t -> P (get t)) ->
  (forall t a s, P' t -> Q a s -> Q' a (put s t)) ->
  (forall t e s, P' t -> R e s -> R' e (put s t)) ->
  triple P' (zoom get put c) Q' R'.
Proof.
  intros Hc HP HQ HR t Ht. specialize (Hc (get t) (HP t Ht)). unfold zoom.
  destruct (c (get t)); auto.
Qed.
End Triple.

(** ** Booleans and case analysis *)

Ltac bool_hyps :=
  repeat match goal with
  | H : (_ && _)%bool = true |- _ => apply andb_prop in H; destruct H
  | H : (_ || _)%bool = false |- _ => apply orb_false_elim in H; destruct H
  | H : negb _ = true |- _ => apply negb_true_iff in H
  | H : negb _ = false |- _ => apply negb_false_iff in H
  | H : (_ =? _) = true |- _ => apply Z.eqb_eq in H
  | H : (_ =? _) = false |- _ => apply Z.eqb_neq in H
  | H : (_ <? _) = true |- _ => apply Z.ltb_lt in H
  | H : (_ <? _) = false |- _ => apply Z.ltb_ge in H
  | H : (_ <=? _) = true |- _ => apply Z.leb_le in H
  | H : (_ <=? _) = false |- _ => apply Z.leb_gt in H
  end.

(** Split on the first [if] of the goal or of a hypothesis. *)
Ltac case_if :=
  match goal with
  | |- context [if ?b then _ else _] => let E := fresh "Hif" in destruct b eqn:E
  | H : context [if ?b then _ else _] |- _ => let E := fresh "Hif" in destruct b eqn:E
  end.

(** ** Lists of words *)

(** Array read [a[i]] with a Rust index check already discharged: the model
    reads the zero word out of range, and every use is guarded by a length. *)
Definition nthZ (l : list Z) (i : Z) : Z := nth (Z.to_nat i) l 0.

(** [i in 0..n] as integers. *)
Fixpoint rangeZ (lo : Z) (n : nat) : list Z :=
  match n with O => [] | S k => lo :: rangeZ (lo + 1) k end.

Lemma rangeZ_spec n : forall lo i, In i (rangeZ lo n) <-> lo <= i < lo + Z.of_nat n.
Proof.
  induction n as [|n IH]; intros lo i; cbn [rangeZ In].
  - lia.
  - rewrite IH. lia.
Qed.

Lemma length_rangeZ n lo : length (rangeZ lo n) = n.
Proof. revert lo; induction n; cbn; congruence. Qed.

Lemma nth_insert_eq (l : list Z) i v d :
  (i < length l)%nat -> nth i (<[i:=v]> l) d = v.
Proof.
  revert i; induction l as [|x l IH]; intros [|i]; cbn; intros; try lia; auto.
  apply IH; lia.
Qed.

Lemma nth_insert_ne (l : list Z) i j v d :
  i <> j -> nth j (<[i:=v]> l) d = nth j l d.
Proof.
  revert i j; induction l as [|x l IH]; intros [|i] [|j]; cbn; intros; try congruence; auto.
Qed.

Lemma Forall_insert_list {A} (P : A -> Prop) (l : list A) i v :
  Forall P l -> P v -> Forall P (<[i:=v]> l).
Proof.
  revert i; induction l as [|x l IH]; intros [|i] Hl Hv; cbn; auto.
  - inversion Hl; auto.
  - inversion Hl; subst. constructor; auto.
Qed.

Lemma Forall_nth_default {A} (P : A -> Prop) (l : list A) i d :
  Forall P l -> P d -> P (nth i l d).
Proof.
  intros Hl Hd. destruct (nth_in_or_default i l d) as [Hin | ->]; auto.
  rewrite List.Forall_forall in Hl. auto.
Qed.

Create HintDb airbender.
#[export] Hint Resolve Forall_insert_list : airbender.
