(* ===== verification/MachineInt.v ===== *)
(** * Machine integers

    Rust's fixed-width unsigned integers as [Z], with the wrap-around of the
    release profile written out: [u32]/[u64] truncate, [to_i32]/[to_i64] read
    a word as two's complement, and the [wrapping_*], shift, rotate and
    bitwise operations are defined from them.  The second half holds the bit
    lemmas and the [bits] tactic, which proves an equation between 32-bit
    words one bit at a time. *)
From stdpp Require Import base list.
From Stdlib Require Import ZArith Lia Btauto.
From S2P Require Import Prelude.

Definition is_u32 (x : Z) : Prop := 0 <= x < 2 ^ 32.
Definition is_u64 (x : Z) : Prop := 0 <= x < 2 ^ 64.
Definition is_u32b (x : Z) : bool := (0 <=? x) && (x <? 2 ^ 32).

#[export] Instance is_u32_dec x : Decision (is_u32 x).
Proof. unfold is_u32. apply _. Defined.

(** [as u32], [as u64], [as u8] *)
Definition u32 (x : Z) : Z := x mod 2 ^ 32.
Definition u64 (x : Z) : Z := x mod 2 ^ 64.
Definition u8 (x : Z) : Z := x mod 2 ^ 8.
Definition u16 (x : Z) : Z := x mod 2 ^ 16.

(** [as i32], [as i64]: the two's complement reading of a word *)
Definition to_i32 (x : Z) : Z := if x <? 2 ^ 31 then x else x - 2 ^ 32.
Definition to_i64 (x : Z) : Z := if x <? 2 ^ 63 then x else x - 2 ^ 64.

Definition wadd (a b : Z) : Z := u32 (a + b).
Definition wsub (a b : Z) : Z := u32 (a - b).
Definition wmul (a b : Z) : Z := u32 (a * b).
Definition not32 (a : Z) : Z := u32 (Z.lnot a).
Definition shl32 (a k : Z) : Z := u32 (Z.shiftl a k).
Definition shr32 (a k : Z) : Z := Z.shiftr a k.
Definition rotl32 (a k : Z) : Z := Z.lor (shl32 a (k mod 32)) (Z.shiftr a (32 - k mod 32)).
Definition rotr32 (a k : Z) : Z := Z.lor (Z.shiftr a (k mod 32)) (shl32 a (32 - k mod 32)).

(** [b as u32] for a boolean *)
Definition b2z (b : bool) : Z := if b then 1 else 0.

(** [count_ones], [trailing_zeros] and [is_power_of_two] of a word *)
Definition count_ones (x : Z) : Z :=
  fold_right (fun i acc => b2z (Z.testbit x i) + acc) 0 (rangeZ 0 32).
Definition is_power_of_two (x : Z) : bool := count_ones x =? 1.
Fixpoint trailing_zeros_from (x i : Z) (fuel : nat) : Z :=
  match fuel with
  | O => 0
  | S f => if Z.testbit x i then 0 else 1 + trailing_zeros_from x (i + 1) f
  end.
Definition trailing_zeros (x : Z) : Z := trailing_zeros_from x 0 32.

(** [u32::to_le_bytes] and [u32::from_le_bytes] *)
Definition to_le_bytes (x : Z) : list Z :=
  [x mod 256; (x / 2 ^ 8) mod 256; (x / 2 ^ 16) mod 256; (x / 2 ^ 24) mod 256].
Definition from_le_bytes (b : list Z) : Z :=
  nthZ b 0 + nthZ b 1 * 2 ^ 8 + nthZ b 2 * 2 ^ 16 + nthZ b 3 * 2 ^ 24.

(** ** Ranges *)

Lemma u32_range x : is_u32 (u32 x).
Proof. unfold is_u32, u32. apply Z.mod_pos_bound. lia. Qed.

Lemma u32_small x : is_u32 x -> u32 x = x.
Proof. apply Z.mod_small. Qed.

Lemma u64_range x : is_u64 (u64 x).
Proof. unfold is_u64, u64. apply Z.mod_pos_bound. lia. Qed.

Lemma u64_small x : is_u64 x -> u64 x = x.
Proof. apply Z.mod_small. Qed.

Lemma wadd_range a b : is_u32 (wadd a b). Proof. apply u32_range. Qed.
Lemma wsub_range a b : is_u32 (wsub a b). Proof. apply u32_range. Qed.
Lemma wmul_range a b : is_u32 (wmul a b). Proof. apply u32_range. Qed.
Lemma not32_range a : is_u32 (not32 a). Proof. apply u32_range. Qed.
Lemma shl32_range a k : is_u32 (shl32 a k). Proof. apply u32_range. Qed.

Lemma b2z_range b : is_u32 (b2z b).
Proof. destruct b; cbn; unfold is_u32; lia. Qed.

Lemma shr32_range a k : 0 <= k -> is_u32 a -> is_u32 (Z.shiftr a k).
Proof.
  unfold is_u32; intros Hk Ha. rewrite Z.shiftr_div_pow2 by lia.
  pose proof (Z.pow_pos_nonneg 2 k). split.
  - apply Z.div_pos; lia.
  - apply Z.le_lt_trans with a; [apply Z.div_le_upper_bound; nia | lia].
Qed.

Lemma bitop_bound n a :
  0 <= n -> (forall i, n <= i -> Z.testbit a i = false) -> 0 <= a -> a < 2 ^ n.
Proof.
  intros Hn Hb Ha. destruct (Z.eq_dec a 0) as [-> | Hz].
  - apply Z.pow_pos_nonneg; lia.
  - apply Z.log2_lt_pow2; [lia|]. destruct (Z.lt_ge_cases (Z.log2 a) n); auto.
    pose proof (Z.bit_log2 a ltac:(lia)) as Hbl. rewrite Hb in Hbl by auto. discriminate.
Qed.

Lemma testbit_high n a i : 0 <= a < 2 ^ n -> n <= i -> Z.testbit a i = false.
Proof.
  intros Ha Hi. destruct (Z.lt_ge_cases n 0).
  - rewrite Z.pow_neg_r in Ha by lia. lia.
  - rewrite <- (Z.mod_small a (2 ^ n)) by lia. apply Z.mod_pow2_bits_high. lia.
Qed.

Lemma land_range n a b : 0 <= n -> 0 <= a < 2 ^ n -> 0 <= b -> 0 <= Z.land a b < 2 ^ n.
Proof.
  intros Hn Ha Hb. assert (0 <= Z.land a b) by (apply Z.land_nonneg; lia).
  split; auto. apply bitop_bound; auto. intros i Hi.
  rewrite Z.land_spec, (testbit_high n a i) by auto. reflexivity.
Qed.

Lemma lor_range n a b : 0 <= n -> 0 <= a < 2 ^ n -> 0 <= b < 2 ^ n -> 0 <= Z.lor a b < 2 ^ n.
Proof.
  intros Hn Ha Hb. assert (0 <= Z.lor a b) by (apply Z.lor_nonneg; lia).
  split; auto. apply bitop_bound; auto. intros i Hi.
  rewrite Z.lor_spec, (testbit_high n a i), (testbit_high n b i) by auto. reflexivity.
Qed.

Lemma lxor_range n a b : 0 <= n -> 0 <= a < 2 ^ n -> 0 <= b < 2 ^ n -> 0 <= Z.lxor a b < 2 ^ n.
Proof.
  intros Hn Ha Hb. assert (0 <= Z.lxor a b) by (apply Z.lxor_nonneg; lia).
  split; auto. apply bitop_bound; auto. intros i Hi.
  rewrite Z.lxor_spec, (testbit_high n a i), (testbit_high n b i) by auto. reflexivity.
Qed.

Lemma land_u32 a b : is_u32 a -> 0 <= b -> is_u32 (Z.land a b).
Proof. intros; apply land_range; auto; lia. Qed.
Lemma land_u32_r a b : 0 <= a -> is_u32 b -> is_u32 (Z.land a b).
Proof. intros; rewrite Z.land_comm; apply land_range; auto; lia. Qed.
Lemma lor_u32 a b : is_u32 a -> is_u32 b -> is_u32 (Z.lor a b).
Proof. intros; apply lor_range; auto; lia. Qed.
Lemma lxor_u32 a b : is_u32 a -> is_u32 b -> is_u32 (Z.lxor a b).
Proof. intros; apply lxor_range; auto; lia. Qed.

Lemma rotr32_range a k : is_u32 a -> is_u32 (rotr32 a k).
Proof.
  intros. apply lor_u32; [apply shr32_range; auto|apply shl32_range].
  apply Z.mod_pos_bound; lia.
Qed.

Lemma rotl32_range a k : is_u32 a -> is_u32 (rotl32 a k).
Proof.
  intros. apply lor_u32; [apply shl32_range|apply shr32_range; auto].
  pose proof (Z.mod_pos_bound k 32); lia.
Qed.

#[export] Hint Resolve u32_range u64_range wadd_range wsub_range wmul_range not32_range
  shl32_range b2z_range lor_u32 lxor_u32 rotr32_range rotl32_range : airbender.

(** ** Signed readings *)

Lemma to_i32_range x : is_u32 x -> - 2 ^ 31 <= to_i32 x < 2 ^ 31.
Proof. unfold is_u32, to_i32. case_if; bool_hyps; lia. Qed.

Lemma u32_to_i32 x : is_u32 x -> u32 (to_i32 x) = x.
Proof.
  unfold is_u32, to_i32, u32; intros. case_if; bool_hyps.
  - apply Z.mod_small; lia.
  - rewrite <- (Z.mod_small x (2 ^ 32)) at 2 by lia.
    replace (x - 2 ^ 32) with (x + (-1) * 2 ^ 32) by lia. apply Z.mod_add. lia.
Qed.

Lemma to_i32_u32 x : - 2 ^ 31 <= x < 2 ^ 31 -> to_i32 (u32 x) = x.
Proof.
  intros Hx. unfold to_i32, u32. destruct (Z.lt_ge_cases x 0).
  - replace (x mod 2 ^ 32) with (x + 2 ^ 32).
    + case_if; bool_hyps; lia.
    + replace x with ((x + 2 ^ 32) + (-1) * 2 ^ 32) at 2 by lia.
      rewrite Z.mod_add by lia. rewrite Z.mod_small; lia.
  - rewrite Z.mod_small by lia. case_if; bool_hyps; lia.
Qed.

Lemma to_i32_inj a b : is_u32 a -> is_u32 b -> to_i32 a = to_i32 b -> a = b.
Proof. intros Ha Hb H. rewrite <- (u32_to_i32 a), <- (u32_to_i32 b) by auto. congruence. Qed.

(** ** Modular arithmetic on words *)

Lemma u32_add_l a b : u32 (u32 a + b) = u32 (a + b).
Proof. unfold u32. apply Z.add_mod_idemp_l. lia. Qed.
Lemma u32_add_r a b : u32 (a + u32 b) = u32 (a + b).
Proof. unfold u32. apply Z.add_mod_idemp_r. lia. Qed.
Lemma u32_sub_l a b : u32 (u32 a - b) = u32 (a - b).
Proof. unfold u32. apply Zminus_mod_idemp_l. Qed.
Lemma u32_sub_r a b : u32 (a - u32 b) = u32 (a - b).
Proof. unfold u32. apply Zminus_mod_idemp_r. Qed.
Lemma u32_mul_l a b : u32 (u32 a * b) = u32 (a * b).
Proof. unfold u32. apply Z.mul_mod_idemp_l. lia. Qed.
Lemma u32_mul_r a b : u32 (a * u32 b) = u32 (a * b).
Proof. unfold u32. apply Z.mul_mod_idemp_r. lia. Qed.

Create HintDb u32_push.
#[export] Hint Rewrite u32_add_l u32_add_r u32_sub_l u32_sub_r u32_mul_l u32_mul_r : u32_push.

(** Push every inner truncation out of a wrapping expression. *)
Ltac wrap_simpl := unfold wadd, wsub, wmul in *; autorewrite with u32_push.

Lemma wadd_wsub_cancel a k : is_u32 a -> wadd (wsub a k) k = a.
Proof. intros. wrap_simpl. replace (a - k + k) with a by lia. apply u32_small; auto. Qed.

Lemma wsub_wadd_cancel a k : is_u32 a -> wsub (wadd a k) k = a.
Proof. intros. wrap_simpl. replace (a + k - k) with a by lia. apply u32_small; auto. Qed.

Lemma wadd_wsub_swap a b k : wadd (wsub a k) b = wsub (wadd a b) k.
Proof. wrap_simpl. f_equal. lia. Qed.

Lemma wadd_comm a b : wadd a b = wadd b a.
Proof. unfold wadd. f_equal. lia. Qed.

(** ** Bitwise reasoning *)

Lemma land_ones_mod a n : 0 <= n -> Z.land a (2 ^ n - 1) = a mod 2 ^ n.
Proof. intros. now rewrite <- Z.land_ones, Z.ones_equiv, Z.sub_1_r by lia. Qed.

Lemma land_3 a : Z.land a 3 = a mod 4.
Proof. exact (land_ones_mod a 2 ltac:(lia)). Qed.

Lemma testbit_u32 x i : 0 <= i -> Z.testbit (u32 x) i = if i <? 32 then Z.testbit x i else false.
Proof.
  intros Hi. unfold u32. case_if; bool_hyps.
  - apply Z.mod_pow2_bits_low; lia.
  - apply Z.mod_pow2_bits_high; lia.
Qed.

Lemma testbit_lnot x i : 0 <= i -> Z.testbit (Z.lnot x) i = negb (Z.testbit x i).
Proof. apply Z.lnot_spec. Qed.

(** Two words are equal when their 32 bits are. *)
Lemma word_eq a b :
  is_u32 a -> is_u32 b ->
  Forall (fun i => Z.testbit a i = Z.testbit b i) (rangeZ 0 32) -> a = b.
Proof.
  intros Ha Hb H. apply Z.bits_inj'. intros i Hi.
  destruct (Z.lt_ge_cases i 32).
  - rewrite List.Forall_forall in H. apply H, rangeZ_spec. lia.
  - rewrite !(testbit_high 32) by auto. reflexivity.
Qed.

Ltac is_Zcst t :=
  lazymatch t with
  | Z0 => idtac | Zpos ?p => is_poscst p | Zneg ?p => is_poscst p
  | _ => fail "not a constant"
  end
with is_poscst p :=
  lazymatch p with
  | xH => idtac | xO ?q => is_poscst q | xI ?q => is_poscst q
  | _ => fail "not a constant"
  end.

(** Evaluate a [Z.testbit] whose arguments are numerals, and the numeral
    arithmetic of its index. *)
Ltac testbit_step :=
  match goal with
  | |- context [Z.testbit ?c ?k] =>
      is_Zcst c; is_Zcst k;
      let b := eval vm_compute in (Z.testbit c k) in
      change (Z.testbit c k) with b
  | |- context [Z.testbit ?x ?k] =>
      first [is_Zcst k; fail 1 |
      let k' := eval vm_compute in k in
      is_Zcst k'; progress change (Z.testbit x k) with (Z.testbit x k')]
  | |- context [Z.testbit ?x (Zneg ?p)] => rewrite (Z.testbit_neg_r x (Zneg p)) by lia
  | |- context [?i <? ?j] => is_Zcst i; is_Zcst j;
      let b := eval vm_compute in (i <? j) in change (i <? j) with b; cbv iota
  end.

Ltac testbits :=
  repeat (first
    [ rewrite Z.lor_spec | rewrite Z.land_spec | rewrite Z.lxor_spec
    | rewrite Z.shiftl_spec by lia | rewrite Z.shiftr_spec by lia
    | rewrite testbit_lnot by lia | rewrite testbit_u32 by lia
    | testbit_step ]);
  cbn [andb orb xorb negb].

Ltac bits :=
  apply word_eq; [| | cbn [rangeZ Z.add Pos.add Pos.succ]; repeat constructor;
                      testbits; try reflexivity; try btauto].
