(* ===== verification/Worker.v ===== *)
(** * Splitting work among threads

    [worker/src/lib.rs]: the geometry that splits a range of jobs into
    contiguous chunks, one per thread, and the iterators that cut a slice along
    it.  Sizes are [usize] (64 bits) as integers, the products written out
    modulo [2^64]; a failed [assert!], a division by zero and an out-of-range
    split are [None].

    Running the chunks on a thread pool is left to [rayon]: every closure gets
    its own chunk, so what matters here is that the chunks partition the
    work. *)
From stdpp Require Import base list strings.
From Stdlib Require Import ZArith Lia.
From S2P Require Import Prelude MachineInt.

Record WorkerGeometry : Type := { num_chunks : Z; ordinary_chunk_size : Z; remainder : Z }.

Definition get_chunk_size (g : WorkerGeometry) (chunk_idx : Z) : option Z :=
  if chunk_idx <? num_chunks g then
    Some (if remainder g =? 0 then ordinary_chunk_size g
          else if chunk_idx =? num_chunks g - 1 then remainder g else ordinary_chunk_size g)
  else None.

Definition get_chunk_start_pos (g : WorkerGeometry) (chunk_idx : Z) : option Z :=
  if chunk_idx <? num_chunks g then Some (u64 (ordinary_chunk_size g * chunk_idx)) else None.

(** [usize::is_power_of_two], [usize::next_power_of_two] *)
Definition usize_is_power_of_two (x : Z) : bool := (0 <? x) && (x =? 2 ^ Z.log2 x).
Definition next_power_of_two (x : Z) : Z := u64 (2 ^ Z.log2_up x).

(** The geometry before the last chunk is evened out. *)
Definition base_geometry (num_chunks work_size : Z) : option WorkerGeometry :=
  let ordinary_chunk_size := work_size / num_chunks in
  let remainder := work_size mod num_chunks in
  if remainder =? 0 then
    Some {| num_chunks := num_chunks; ordinary_chunk_size := ordinary_chunk_size; remainder := remainder |}
  else if 1 <? num_chunks then
    let ordinary_chunk_size :=
      if negb (usize_is_power_of_two ordinary_chunk_size) &&
         (next_power_of_two ordinary_chunk_size - ordinary_chunk_size <? 32)
      then next_power_of_two ordinary_chunk_size else ordinary_chunk_size in
    let main_part := u64 ((num_chunks - 1) * ordinary_chunk_size) in
    if main_part <? work_size then
      Some {| num_chunks := num_chunks; ordinary_chunk_size := ordinary_chunk_size;
              remainder := work_size - main_part |}
    else
      let ordinary_chunk_size :=
        if negb (work_size mod (num_chunks - 1) =? 0) then work_size / (num_chunks - 1)
        else work_size / num_chunks in
      let main_part := u64 ((num_chunks - 1) * ordinary_chunk_size) in
      if main_part <? work_size then
        Some {| num_chunks := num_chunks; ordinary_chunk_size := ordinary_chunk_size;
                remainder := work_size - main_part |}
      else None
  else None.

Definition get_geometry_for_num_cores (num_cores work_size : Z) : option WorkerGeometry :=
  let n := Z.min num_cores work_size in
  if n =? 0 then None
  else match base_geometry n work_size with
       | None => None
       | Some result =>
           if (ordinary_chunk_size result <? remainder result) && (num_cores - 1 <? remainder result) then
             let remainder' := remainder result - (num_cores - 1) in
             let ordinary' := ordinary_chunk_size result + 1 in
             if remainder' <? ordinary' then
               Some {| num_chunks := num_chunks result; ordinary_chunk_size := ordinary'; remainder := remainder' |}
             else None
           else Some result
       end.

(** ** Iterators over a slice *)
Section Iterators.
Context {T : Type}.

(** [slice.split_at(mid)] *)
Definition split_at (mid : Z) (v : list T) : option (list T * list T) :=
  if mid <=? Z.of_nat (length v) then Some (take (Z.to_nat mid) v, drop (Z.to_nat mid) v) else None.

(** [GeometryAwareChunks] and [GeometryAwareChunksMut]: calling [next] until it
    returns [None]; [fuel] bounds the calls. *)
Fixpoint chunks_from (fuel : nat) (g : WorkerGeometry) (scale cur_idx : Z) (v : list T) : option (list (list T)) :=
  match v, fuel with
  | [], _ => Some []
  | _, O => None
  | _, S fuel' =>
      match get_chunk_size g cur_idx with
      | None => None
      | Some size =>
          match split_at (size * scale) v with
          | None => None
          | Some (fst, snd) => option_map (cons fst) (chunks_from fuel' g scale (cur_idx + 1) snd)
          end
      end
  end.

Definition chunks_for_geometry_with_scale (g : WorkerGeometry) (scale : Z) (v : list T) : option (list (list T)) :=
  chunks_from (Z.to_nat (num_chunks g)) g scale 0 v.

(** [ChunkExt]: a chunk and the element after it *)
Record ChunkExt : Type := { chunk : list T; next : T }.

Fixpoint windows_from (fuel : nat) (first_elem : T) (g : WorkerGeometry) (scale cur_idx : Z) (v : list T)
    : option (list ChunkExt) :=
  match v, fuel with
  | [], _ => Some []
  | _, O => None
  | _, S fuel' =>
      match get_chunk_size g cur_idx with
      | None => None
      | Some size =>
          match split_at (size * scale) v with
          | None => None
          | Some (fst, snd) =>
              let next := match snd with [] => first_elem | e :: _ => e end in
              option_map (cons {| chunk := fst; next := next |})
                (windows_from fuel' first_elem g scale (cur_idx + 1) snd)
          end
      end
  end.

(** [chunks_for_geometry_windows]; the slice must not be empty *)
Definition chunks_for_geometry_windows (g : WorkerGeometry) (v : list T) : option (list ChunkExt) :=
  match v with
  | [] => None
  | first_elem :: _ => windows_from (Z.to_nat (num_chunks g)) first_elem g 1 0 v
  end.

(** [GeometryAwareChunksRev]: the index starts at the length of the slice *)
Fixpoint rev_from (fuel : nat) (g : WorkerGeometry) (scale cur_idx : Z) (v : list T) : option (list (list T)) :=
  match v, fuel with
  | [], _ => Some []
  | _, O => None
  | _, S fuel' =>
      match get_chunk_size g cur_idx with
      | None => None
      | Some size =>
          match split_at (Z.of_nat (length v) - size * scale) v with
          | None => None
          | Some (fst, snd) => option_map (cons snd) (rev_from fuel' g scale (cur_idx + 1) fst)
          end
      end
  end.

Definition chunks_for_geometry_rev (g : WorkerGeometry) (v : list T) : option (list (list T)) :=
  match v with
  | [] => None
  | _ => rev_from (Z.to_nat (num_chunks g)) g 1 (Z.of_nat (length v) - 1) v
  end.
End Iterators.
Arguments ChunkExt T : clear implicits.

(** ** The chunks partition the work *)

(** ** Parallel loops *)

(** [&v[chunk_start * scale..(chunk_start + chunk_size) * scale]] *)
Definition thread_slice {T} (g : WorkerGeometry) (scale : Z) (v : list T) (thread_idx : Z) : list T :=
  match get_chunk_start_pos g thread_idx, get_chunk_size g thread_idx with
  | Some chunk_start, Some chunk_size =>
      take (Z.to_nat (chunk_size * scale)) (drop (Z.to_nat (chunk_start * scale)) v)
  | _, _ => []
  end.

(** [worker.scope(work_size, ...)]: what the threads write, in the order of their chunks. *)
Definition scope {T} (num_cores work_size : Z) (body : WorkerGeometry -> Z -> list T) : option (list T) :=
  match get_geometry_for_num_cores num_cores work_size with
  | None => None
  | Some g => Some (flat_map (body g) (rangeZ 0 (Z.to_nat (num_chunks g))))
  end.

(** What a client needs of a geometry. *)
Definition partitions (g : WorkerGeometry) (work_size : Z) : Prop :=
  0 < num_chunks g /\ 0 < ordinary_chunk_size g /\ 0 <= remainder g /\
  if remainder g =? 0 then num_chunks g * ordinary_chunk_size g = work_size
  else (num_chunks g - 1) * ordinary_chunk_size g + remainder g = work_size.

Lemma next_power_of_two_small x : 0 < x < 2 ^ 63 -> exists j, 0 <= j <= 63 /\ next_power_of_two x = 2 ^ j /\ x <= 2 ^ j.
Proof.
  intros Hx. unfold next_power_of_two.
  assert (x <= 2 ^ Z.log2_up x).
  { destruct (Z.eq_dec x 1) as [->|]; [cbn; lia|]. apply Z.log2_up_spec. lia. }
  assert (Z.log2_up x <= 63) by (apply Z.log2_up_le_pow2; lia).
  assert (2 ^ Z.log2_up x <= 2 ^ 63) by (apply Z.pow_le_mono_r; lia).
  exists (Z.log2_up x). pose proof (Z.log2_up_nonneg x).
  rewrite u64_small; unfold is_u64; lia.
Qed.

(** Rounding a chunk up to a power of two does not overflow the main part. *)
Lemma rounded_main_part n q j w : 0 < n -> 0 < q -> n * q <= w -> w < 2 ^ 64 -> w < 2 ^ 58 \/ n <= 2 ^ 29 ->
  0 <= j <= 63 -> q <= 2 ^ j < q + 32 -> (n - 1) * 2 ^ j < 2 ^ 64.
Proof.
  intros Hn Hq Hw Hu [H58|H29] Hj Hp; [nia|].
  destruct (Z.le_gt_cases (31 * n) (2 ^ j)) as [Hl|Hg]; [|nia].
  assert (n * 2 ^ j < 2 ^ 64 + 2 ^ j) by nia.
  replace (2 ^ 64) with (2 ^ (64 - j) * 2 ^ j) in * by (rewrite <- Z.pow_add_r by lia; f_equal; lia).
  nia.
Qed.

Lemma base_geometry_partitions n w : 0 < n <= w -> w < 2 ^ 64 -> w < 2 ^ 58 \/ n <= 2 ^ 29 -> exists g,
  base_geometry n w = Some g /\ num_chunks g = n /\ partitions g w /\
  (remainder g <= ordinary_chunk_size g + w mod n \/ remainder g < n).
Proof.
  intros Hn Hw Hcores. unfold base_geometry.
  pose proof (Z.div_mod w n ltac:(lia)) as Hdm. pose proof (Z.mod_pos_bound w n ltac:(lia)) as Hm.
  assert (Hq : 0 < w / n) by (apply Z.div_str_pos; lia).
  set (q := w / n) in *. set (r := w mod n) in *.
  destruct (Z.eqb_spec r 0) as [Hr|Hr].
  { eexists. split; [reflexivity|]. split; [reflexivity|]. unfold partitions; cbn.
    rewrite Hr. cbn. split; [lia|]. lia. }
  assert (Hn1 : 1 < n).
  { destruct (Z.eq_dec n 1) as [E|]; [|lia]. exfalso. apply Hr. subst r. rewrite E. apply Z.mod_1_r. }
  replace (1 <? n) with true by (symmetry; apply Z.ltb_lt; lia).
  match goal with |- context [u64 ((n - 1) * ?e)] => set (o := e) end.
  assert (Ho : q <= o /\ (n - 1) * o < 2 ^ 64).
  { subst o. destruct (negb _); cbn [andb]; [|nia]. destruct (Z.ltb_spec (next_power_of_two q - q) 32); [|nia].
    destruct (next_power_of_two_small q ltac:(nia)) as (j & Hj & E & Hle). rewrite E in *.
    split; [exact Hle|]. apply (rounded_main_part n q j w); (assumption || nia). }
  rewrite (u64_small ((n - 1) * o)) by (unfold is_u64; nia).
  destruct (Z.ltb_spec ((n - 1) * o) w) as [Hmain|Hmain].
  { eexists. split; [reflexivity|]. split; [reflexivity|]. unfold partitions; cbn.
    destruct (Z.eqb_spec (w - (n - 1) * o) 0); [lia|]. split; [nia|]. nia. }
  pose proof (Z.div_mod w (n - 1) ltac:(lia)) as Hdm1. pose proof (Z.mod_pos_bound w (n - 1) ltac:(lia)) as Hm1.
  set (o2 := if negb (w mod (n - 1) =? 0) then w / (n - 1) else q).
  assert (Ho2 : 0 < o2 /\ (n - 1) * o2 < w /\ (w - (n - 1) * o2 <= o2 + r \/ w - (n - 1) * o2 < n)).
  { subst o2. destruct (Z.eqb_spec (w mod (n - 1)) 0); cbn [negb].
    - nia.
    - assert (0 < w / (n - 1)) by (apply Z.div_str_pos; lia). nia. }
  rewrite (u64_small ((n - 1) * o2)) by (unfold is_u64; nia).
  replace ((n - 1) * o2 <? w) with true by (symmetry; apply Z.ltb_lt; lia).
  eexists. split; [reflexivity|]. split; [reflexivity|]. unfold partitions; cbn.
  destruct (Z.eqb_spec (w - (n - 1) * o2) 0); [lia|]. split; [lia|]. lia.
Qed.

Lemma usize_geometry_exists num_cores w : 0 < num_cores -> 0 < w < 2 ^ 64 -> w < 2 ^ 58 \/ num_cores <= 2 ^ 29 -> exists g,
  get_geometry_for_num_cores num_cores w = Some g /\ partitions g w /\ num_chunks g = Z.min num_cores w.
Proof.
  intros Hc Hw Hcores. unfold get_geometry_for_num_cores. set (n := Z.min num_cores w).
  replace (n =? 0) with false by (symmetry; apply Z.eqb_neq; lia).
  destruct (base_geometry_partitions n w ltac:(lia) ltac:(lia) ltac:(lia)) as (g & E & Hn & (Hpos & Ho & Hr & Hsum) & Hlast).
  rewrite E. pose proof (Z.mod_pos_bound w n ltac:(lia)) as Hm.
  destruct (Z.ltb_spec (ordinary_chunk_size g) (remainder g)) as [H1|H1]; cbn [andb].
  2:{ exists g. split; [reflexivity|]. split; [exact (conj Hpos (conj Ho (conj Hr Hsum))) | exact Hn]. }
  destruct (Z.ltb_spec (num_cores - 1) (remainder g)) as [H2|H2].
  2:{ exists g. split; [reflexivity|]. split; [exact (conj Hpos (conj Ho (conj Hr Hsum))) | exact Hn]. }
  assert (Hnc : n = num_cores).
  { destruct (Z.eq_dec n w) as [Enw|]; [|lia]. rewrite Enw, Z.mod_same in Hlast by lia. lia. }
  replace (remainder g - (num_cores - 1) <? ordinary_chunk_size g + 1) with true by (symmetry; apply Z.ltb_lt; lia).
  eexists. split; [reflexivity|]. split; [|exact Hn]. unfold partitions. cbn.
  destruct (Z.eqb_spec (remainder g) 0) as [|_]; [lia|].
  destruct (Z.eqb_spec (remainder g - (num_cores - 1)) 0); [lia|]. split; [lia|]. rewrite <- Hsum. nia.
Qed.

Lemma geometry_exists num_cores w : 0 < num_cores -> 0 < w < 2 ^ 58 -> exists g,
  get_geometry_for_num_cores num_cores w = Some g /\ partitions g w /\ num_chunks g = Z.min num_cores w.
Proof. intros Hc Hw. apply usize_geometry_exists; lia. Qed.

(** Where chunk [i] starts, the end for [i] past the last. *)
Definition chunk_start (g : WorkerGeometry) (work_size i : Z) : Z :=
  if i <? num_chunks g then ordinary_chunk_size g * i else work_size.

Lemma chunk_advances g w i : partitions g w -> 0 <= i < num_chunks g -> exists size,
  get_chunk_size g i = Some size /\ 0 < size /\ chunk_start g w i + size = chunk_start g w (i + 1) /\
  chunk_start g w (i + 1) <= w.
Proof.
  intros (Hn & Ho & Hr & Hsum) Hi. unfold get_chunk_size, chunk_start.
  destruct (Z.ltb_spec i (num_chunks g)); [|lia]. eexists. split; [reflexivity|].
  destruct (Z.eqb_spec (remainder g) 0), (Z.eqb_spec i (num_chunks g - 1)),
    (Z.ltb_spec (i + 1) (num_chunks g)); nia.
Qed.

Lemma chunk_start_pos g w i : partitions g w -> w < 2 ^ 64 -> 0 <= i < num_chunks g ->
  get_chunk_start_pos g i = Some (chunk_start g w i).
Proof.
  intros Hg Hw Hi. destruct (chunk_advances g w i Hg Hi) as (size & _ & Hp & Hadv & Hle).
  destruct Hg as (_ & Ho & _). unfold get_chunk_start_pos, chunk_start in *.
  destruct (Z.ltb_spec i (num_chunks g)); [|lia]. rewrite u64_small; [reflexivity | unfold is_u64; nia].
Qed.

(** Every chunk has its size, times the scale. *)
Definition sized_chunks {T} (g : WorkerGeometry) (scale i : Z) (cs : list (list T)) : Prop :=
  forall k c, cs !! k = Some c -> exists size, get_chunk_size g (i + Z.of_nat k) = Some size /\
    Z.of_nat (length c) = size * scale.

Section Cut.
Context {T : Type} (g : WorkerGeometry) (w scale : Z).
Hypotheses (Hg : partitions g w) (Hscale : 0 < scale).
Notation n := (num_chunks g).

(** One call of [next]: the slice is not empty, the chunk is in range. *)
Lemma cut_chunk i (v : list T) : 0 <= i < n -> Z.of_nat (length v) = (w - chunk_start g w i) * scale ->
  v <> [] /\ exists size, get_chunk_size g i = Some size /\
    split_at (size * scale) v = Some (take (Z.to_nat (size * scale)) v, drop (Z.to_nat (size * scale)) v) /\
    Z.of_nat (length (take (Z.to_nat (size * scale)) v)) = size * scale /\
    Z.of_nat (length (drop (Z.to_nat (size * scale)) v)) = (w - chunk_start g w (i + 1)) * scale.
Proof using Hg Hscale.
  intros Hi Hl. destruct (chunk_advances g w i Hg Hi) as (size & Es & Hpos & Hadv & Hle).
  split; [intros ->; cbn in Hl; nia|]. exists size. split; [exact Es|]. unfold split_at.
  replace (size * scale <=? Z.of_nat (length v)) with true by (symmetry; apply Z.leb_le; nia).
  split; [reflexivity|]. rewrite length_take, length_drop. nia.
Qed.

Lemma chunks_from_ok fuel : forall i (v : list T), 0 <= i <= n -> n - i <= Z.of_nat fuel ->
  Z.of_nat (length v) = (w - chunk_start g w i) * scale -> exists cs,
  chunks_from fuel g scale i v = Some cs /\ concat cs = v /\ Z.of_nat (length cs) = n - i /\ sized_chunks g scale i cs.
Proof using Hg Hscale.
  induction fuel as [|fuel IH]; intros i v Hi Hfuel Hl.
  - assert (Hin : i = n) by lia. unfold chunk_start in Hl. rewrite Hin, Z.ltb_irrefl in Hl.
    destruct v; [|cbn [length] in Hl; lia]. exists []. split; [reflexivity|]. split; [reflexivity|].
    split; [cbn; lia|]. intros k c Hk. discriminate.
  - destruct (Z.eq_dec i n) as [Hin|Hin].
    + unfold chunk_start in Hl. rewrite Hin, Z.ltb_irrefl in Hl. destruct v; [|cbn [length] in Hl; lia].
      exists []. split; [reflexivity|]. split; [reflexivity|]. split; [cbn; lia|]. intros k c Hk. discriminate.
    + destruct (cut_chunk i v ltac:(lia) Hl) as (Hne & size & Es & Esp & Hl1 & Hl2).
      destruct v as [|x v]; [congruence|]. cbn [chunks_from]. rewrite Es, Esp.
      set (c := take _ (x :: v)) in *. set (rest := drop _ (x :: v)) in *.
      destruct (IH (i + 1) rest ltac:(lia) ltac:(lia) Hl2) as (cs & E & Hc & Hlen & Hsz).
      exists (c :: cs). rewrite E. split; [reflexivity|]. split; [cbn; rewrite Hc; apply take_drop|].
      split; [cbn [length]; lia|]. intros [|k] c' Hk.
      * injection Hk as <-. exists size. rewrite Z.add_0_r. auto.
      * destruct (Hsz k c' Hk) as (size' & ? & ?). exists size'.
        replace (i + Z.of_nat (S k)) with (i + 1 + Z.of_nat k) by lia. auto.
Qed.

Lemma windows_from_ok fuel first : forall i (v : list T), 0 <= i <= n -> n - i <= Z.of_nat fuel ->
  Z.of_nat (length v) = (w - chunk_start g w i) * scale -> exists ws cs,
  windows_from fuel first g scale i v = Some ws /\ chunks_from fuel g scale i v = Some cs /\
  map chunk ws = cs /\ map next ws = map (fun k => nth k (drop 1 (map (hd first) cs)) first) (seq 0 (length cs)).
Proof using Hg Hscale.
  induction fuel as [|fuel IH]; intros i v Hi Hfuel Hl.
  - assert (Hin : i = n) by lia. unfold chunk_start in Hl. rewrite Hin, Z.ltb_irrefl in Hl.
    destruct v; [|cbn [length] in Hl; lia]. exists [], []. auto.
  - destruct (Z.eq_dec i n) as [Hin|Hin].
    + unfold chunk_start in Hl. rewrite Hin, Z.ltb_irrefl in Hl. destruct v; [|cbn [length] in Hl; lia].
      exists [], []. auto.
    + destruct (cut_chunk i v ltac:(lia) Hl) as (Hne & size & Es & Esp & Hl1 & Hl2).
      destruct v as [|x v]; [congruence|]. cbn [chunks_from windows_from]. rewrite Es, Esp.
      set (c := take _ (x :: v)) in *. set (rest := drop _ (x :: v)) in *.
      destruct (IH (i + 1) rest ltac:(lia) ltac:(lia) Hl2) as (ws & cs & E & Ec & Hm & Hnx).
      rewrite E, Ec. eexists _, _. split; [reflexivity|]. split; [reflexivity|]. split; [cbn; now rewrite Hm|].
      cbn [map next length seq drop]. f_equal.
      * destruct rest as [|e rest'] eqn:Er.
        -- destruct fuel; cbn in Ec; injection Ec as <-; reflexivity.
        -- destruct (chunks_from_ok fuel (i + 1) (e :: rest') ltac:(lia) ltac:(lia) Hl2) as (cs' & Ec' & Hcat & _ & Hsz).
           rewrite Ec in Ec'. injection Ec' as <-. destruct cs as [|c1 cs]; [discriminate|].
           destruct (Hsz 0%nat c1 eq_refl) as (sz & Hsz1 & Hlen).
           destruct (chunk_advances g w (i + 1) Hg) as (sz' & Esz & Hpos & _).
           { unfold get_chunk_size in Hsz1. destruct (Z.ltb_spec (i + 1 + Z.of_nat 0) n); [lia | discriminate]. }
           rewrite Z.add_0_r in Hsz1. rewrite Hsz1 in Esz. injection Esz as ->.
           destruct c1 as [|a c1]; [cbn in Hlen; nia|]. cbn in Hcat. injection Hcat as -> _. reflexivity.
      * rewrite Hnx, <- seq_shift, map_map. apply map_ext_in. intros k Hk. cbn [drop map nth].
        destruct cs as [|c1 cs]; [destruct Hk|]. cbn [map drop nth]. reflexivity.
Qed.
End Cut.

(** C32: For every number of cores and every amount of work below [2^64] (on
    more than [2^29] cores, below [2^58]; there the rounding of a chunk to a power
    of two could overflow): without cores or without work the division panics;
    otherwise the geometry exists (none of its assertions fails), no thread is
    without work, the chunks are contiguous from 0 to the end, and cutting a
    slice of that many elements along it - at any scale - gives back the slice in
    order, one chunk per thread. *)
Theorem geometry_partitions_work (num_cores work_size : Z) :
  0 <= num_cores -> 0 <= work_size < 2 ^ 64 -> work_size < 2 ^ 58 \/ num_cores <= 2 ^ 29 ->
  if (num_cores =? 0) || (work_size =? 0) then get_geometry_for_num_cores num_cores work_size = None
  else exists g, get_geometry_for_num_cores num_cores work_size = Some g /\
    num_chunks g = Z.min num_cores work_size /\
    (forall i, 0 <= i < num_chunks g -> exists start size,
       get_chunk_start_pos g i = Some start /\ get_chunk_size g i = Some size /\ 0 < size /\
       (i = 0 -> start = 0) /\ (i + 1 = num_chunks g -> start + size = work_size) /\
       (i + 1 < num_chunks g -> get_chunk_start_pos g (i + 1) = Some (start + size))) /\
    forall T scale (v : list T), 0 < scale -> Z.of_nat (length v) = work_size * scale -> exists cs,
      chunks_for_geometry_with_scale g scale v = Some cs /\ concat cs = v /\
      Z.of_nat (length cs) = num_chunks g /\ sized_chunks g scale 0 cs.
Proof.
  intros Hc Hw Hcores. destruct (Z.eqb_spec num_cores 0) as [->|Hc0]; cbn [orb].
  { unfold get_geometry_for_num_cores. rewrite Z.min_l by lia. reflexivity. }
  destruct (Z.eqb_spec work_size 0) as [->|Hw0].
  { unfold get_geometry_for_num_cores. rewrite Z.min_r by lia. reflexivity. }
  destruct (usize_geometry_exists num_cores work_size) as (g & E & Hg & Hn); [lia | lia | exact Hcores|].
  assert (Hpos : 0 < num_chunks g) by apply Hg.
  exists g. split; [exact E|]. split; [exact Hn|]. split.
  - pose proof (fun i => chunk_start_pos g work_size i Hg ltac:(lia)) as Hstart.
    intros i Hi. destruct (chunk_advances g work_size i Hg Hi) as (size & Es & Hp & Hadv & _).
    exists (chunk_start g work_size i), size. split; [apply Hstart; lia|]. split; [exact Es|]. split; [exact Hp|].
    unfold chunk_start in *. destruct (Z.ltb_spec i (num_chunks g)); [|lia].
    split; [intros ->; lia|]. split.
    + intros Hlast. rewrite Hlast, Z.ltb_irrefl in Hadv. exact Hadv.
    + intros Hnext. rewrite (Hstart (i + 1)) by lia. unfold chunk_start. rewrite Hadv. reflexivity.
  - intros T scale v Hs Hl.
    destruct (chunks_from_ok g work_size scale Hg Hs (Z.to_nat (num_chunks g)) 0 v) as (cs & Ecs & Hcat & Hlen & Hsz);
      [lia | lia | |].
    { unfold chunk_start. replace (0 <? num_chunks g) with true by (symmetry; apply Z.ltb_lt; lia). lia. }
    exists cs. split; [exact Ecs|]. split; [exact Hcat|]. split; [lia | exact Hsz].
Qed.

(** The split of 16 jobs on 3 cores, and [scope(usize::MAX, ..)] on 16 cores *)
Lemma geometry_partitions_work_witness :
  (exists g cs, get_geometry_for_num_cores 3 16 = Some g /\
    chunks_for_geometry_with_scale g 2 (rangeZ 0 32) = Some cs /\ concat cs = rangeZ 0 32 /\
    cs = [rangeZ 0 12; rangeZ 12 12; rangeZ 24 8]) /\
  (exists g, get_geometry_for_num_cores 16 (2 ^ 64 - 1) = Some g /\ num_chunks g = 16).
Proof.
  split.
  - destruct (geometry_partitions_work 3 16 ltac:(lia) ltac:(lia) ltac:(lia)) as (g & E & _ & _ & Hcut).
    destruct (Hcut Z 2 (rangeZ 0 32) ltac:(lia) eq_refl) as (cs & Ec & Hcat & _).
    exists g, cs. split; [exact E|]. split; [exact Ec|]. split; [exact Hcat|].
    vm_compute in E. injection E as <-. vm_compute in Ec. injection Ec as <-. reflexivity.
  - destruct (geometry_partitions_work 16 (2 ^ 64 - 1) ltac:(lia) ltac:(lia) ltac:(lia)) as (g & E & Hn & _).
    exists g. split; [exact E | exact Hn].
Defined.

(** The windows of [chunks_for_geometry_windows] are the chunks, each with the
    first element of the following one, cyclically. *)
Lemma windows_are_chunks {T} (num_cores work_size : Z) (first : T) (v : list T) :
  0 < num_cores -> 0 < work_size < 2 ^ 58 -> Z.of_nat (S (length v)) = work_size ->
  exists g ws cs, get_geometry_for_num_cores num_cores work_size = Some g /\
    chunks_for_geometry_windows g (first :: v) = Some ws /\
    chunks_for_geometry_with_scale g 1 (first :: v) = Some cs /\ map chunk ws = cs /\
    map next ws = map (fun k => nth k (drop 1 (map (hd first) cs)) first) (seq 0 (length cs)).
Proof.
  intros Hc Hw Hl. destruct (geometry_exists num_cores work_size Hc Hw) as (g & E & Hg & Hn).
  assert (Hpos : 0 < num_chunks g) by apply Hg.
  destruct (windows_from_ok g work_size 1 Hg ltac:(lia) (Z.to_nat (num_chunks g)) first 0 (first :: v))
    as (ws & cs & Ew & Ec & Hm & Hx); [lia | lia | |].
  { unfold chunk_start. replace (0 <? num_chunks g) with true by (symmetry; apply Z.ltb_lt; lia). cbn [length]. lia. }
  exists g, ws, cs. auto.
Qed.

(** The reverse iterator asks for the chunk numbered by the length of the
    slice, which exists only if there are as many chunks as elements. *)
Lemma reverse_chunks_panic {T} (num_cores work_size : Z) (first : T) (v : list T) g :
  0 < num_cores < work_size -> work_size < 2 ^ 58 -> Z.of_nat (S (length v)) = work_size ->
  get_geometry_for_num_cores num_cores work_size = Some g -> chunks_for_geometry_rev g (first :: v) = None.
Proof.
  intros Hc Hw Hl E. destruct (geometry_exists num_cores work_size) as (g' & E' & Hg & Hn); [lia | lia|].
  rewrite E in E'. injection E' as <-. unfold chunks_for_geometry_rev.
  destruct (Z.to_nat (num_chunks g)); [reflexivity|]. cbn [rev_from]. unfold get_chunk_size.
  replace (_ <? num_chunks g) with false; [reflexivity|]. symmetry. apply Z.ltb_ge. cbn [length]. lia.
Qed.

(** ** Threads together cover the trace *)

Lemma take_drop_app {A} a b c (l : list A) : (a <= b)%nat -> (b <= c)%nat ->
  take (b - a) (drop a l) ++ take (c - b) (drop b l) = take (c - a) (drop a l).
Proof.
  intros H1 H2. replace (c - a)%nat with ((b - a) + (c - b))%nat by lia.
  rewrite <- take_take_drop. rewrite drop_drop. do 3 f_equal. lia.
Qed.

Lemma thread_slices_concat {A} g w scale (v : list A) : partitions g w -> w < 2 ^ 58 -> 0 < scale ->
  Z.of_nat (length v) = w * scale ->
  concat (map (thread_slice g scale v) (rangeZ 0 (Z.to_nat (num_chunks g)))) = v.
Proof.
  intros Hg Hw Hs Hl. assert (Hn : 0 < num_chunks g) by apply Hg.
  set (st i := Z.to_nat (chunk_start g w i * scale)).
  assert (G : forall m i, 0 <= i -> i + Z.of_nat m <= num_chunks g ->
    (st i <= st (i + Z.of_nat m)%Z)%nat /\
    concat (map (thread_slice g scale v) (rangeZ i m)) = take (st (i + Z.of_nat m)%Z - st i) (drop (st i) v)).
  { induction m as [|m IH]; intros i Hi Hm; cbn [rangeZ map concat].
    - rewrite Z.add_0_r, Nat.sub_diag. split; [lia | reflexivity].
    - destruct (chunk_advances g w i Hg ltac:(lia)) as (size & Es & Hp & Hadv & _).
      assert (H0 : 0 <= chunk_start g w i).
      { destruct Hg as (_ & Ho & _). unfold chunk_start. destruct (Z.ltb_spec i (num_chunks g)); nia. }
      destruct (IH (i + 1) ltac:(lia) ltac:(lia)) as [Hle E].
      replace (i + 1 + Z.of_nat m) with (i + Z.of_nat (S m)) in * by lia.
      assert (Hst : (st i <= st (i + 1)%Z)%nat) by (unfold st; nia). split; [lia|].
      rewrite E, <- (take_drop_app (st i) (st (i + 1)%Z)) by lia. f_equal.
      unfold thread_slice. rewrite Es, (chunk_start_pos g w i Hg ltac:(lia) ltac:(lia)). fold (st i). f_equal.
      unfold st. nia. }
  destruct (G (Z.to_nat (num_chunks g)) 0 ltac:(lia) ltac:(lia)) as [_ E]. rewrite E.
  unfold st, chunk_start. rewrite Z2Nat.id, Z.add_0_l, Z.ltb_irrefl by lia.
  replace (0 <? num_chunks g) with true by (symmetry; apply Z.ltb_lt; lia).
  rewrite Z.mul_0_r, Z.mul_0_l. cbn [Z.to_nat drop]. apply take_ge. lia.
Qed.

Lemma in_take {A} n (l : list A) x : In x (take n l) -> In x l.
Proof. intros Hin. rewrite <- (take_drop n l). apply in_or_app. auto. Qed.
Lemma in_drop {A} n (l : list A) x : In x (drop n l) -> In x l.
Proof. intros Hin. rewrite <- (take_drop n l). apply in_or_app. auto. Qed.

(** A parallel loop whose threads each produce what corresponds to their slice
    produces what corresponds to the whole. *)
Lemma scope_related {A B} (R : B -> A -> Prop) num_cores w scale (v : list A) (body : WorkerGeometry -> Z -> list B) :
  0 < num_cores -> 0 < w < 2 ^ 58 -> 0 < scale -> Z.of_nat (length v) = w * scale ->
  (forall g i, partitions g w -> 0 <= i < num_chunks g -> Forall2 R (body g i) (thread_slice g scale v i)) ->
  exists out, scope num_cores w body = Some out /\ Forall2 R out v.
Proof.
  intros Hc Hw Hs Hl Hb. unfold scope. destruct (geometry_exists num_cores w Hc Hw) as (g & E & Hg & _).
  rewrite E. eexists. split; [reflexivity|]. rewrite flat_map_concat_map.
  replace v with (concat (map (thread_slice g scale v) (rangeZ 0 (Z.to_nat (num_chunks g))))) at 1
    by (apply (thread_slices_concat g w scale v Hg ltac:(lia) Hs Hl)).
  assert (G : Forall (fun i => Forall2 R (body g i) (thread_slice g scale v i)) (rangeZ 0 (Z.to_nat (num_chunks g)))).
  { apply List.Forall_forall. intros i Hi. apply rangeZ_spec in Hi. apply Hb; [exact Hg | lia]. }
  induction G as [|i l Hi G IH]; cbn [map concat]; [constructor|]. apply Forall2_app; assumption.
Qed.

Lemma thread_slice_incl {A} g scale (v : list A) i : incl (thread_slice g scale v i) v.
Proof.
  unfold thread_slice. intros x.
  destruct (get_chunk_start_pos g i); [|intros []]. destruct (get_chunk_size g i); [|intros []].
  intros Hin. eapply in_drop, in_take, Hin.
Qed.

(** A parallel loop that maps its slice is a map over the whole. *)
Lemma scope_map {A B} num_cores w scale (v : list A) (f : list A -> list B) (body : A -> B) :
  0 < num_cores -> 0 < w < 2 ^ 58 -> 0 < scale -> Z.of_nat (length v) = w * scale ->
  (forall slice, incl slice v -> f slice = map body slice) ->
  scope num_cores w (fun g thread_idx => f (thread_slice g scale v thread_idx)) = Some (map body v).
Proof.
  intros Hc Hw Hs Hl Hf.
  destruct (scope_related (fun b a => b = body a) num_cores w scale v
              (fun g thread_idx => f (thread_slice g scale v thread_idx)) Hc Hw Hs Hl) as (out & E & R).
  { intros g i _ _. rewrite Hf by apply thread_slice_incl. generalize (thread_slice g scale v i).
    intros l. induction l; cbn [map]; constructor; auto. }
  rewrite E. f_equal. clear -R. induction R; cbn [map]; congruence.
Qed.
