(* ===== verification/BitReverse.v ===== *)
(** * Bit reversal of an array

    [fft/src/utils.rs]: the in-place permutation that FFTs and Merkle trees are
    enumerated by, in its four implementations (two lookup tables, a double
    loop with byte-wise reversal, a plain loop) and the parallel ones.  A loop
    is the list of index pairs it visits, in order, and a visit swaps the pair
    when it is increasing; a parallel loop is any schedule of the visits of its
    threads.  [None] is a panic or an out-of-range [swap_unchecked]. *)
From stdpp Require Import base list strings sorting.
From Stdlib Require Import ZArith Lia.
From S2P Require Import Prelude MachineInt Worker.

(** ** Reversing the bits of a number *)

(** The low [n] bits of [x] in reverse order. *)
Fixpoint bitrev (n : nat) (x : Z) : Z :=
  match n with
  | O => 0
  | S n' => 2 ^ Z.of_nat n' * (x mod 2) + bitrev n' (x / 2)
  end.

(** [u64::reverse_bits] *)
Definition reverse_bits64 (x : Z) : Z := bitrev 64 x.

(** The compile-time loops that fill the tables. *)
Definition lookup_table (log_2_size : Z) : list Z :=
  map (fun i => u8 (Z.shiftr (reverse_bits64 i) (64 - log_2_size))) (rangeZ 0 (Z.to_nat (2 ^ log_2_size))).

Definition TINY_BITREVERSE_LOOKUP_TABLE_LOG_2_SIZE : Z := 3.
Definition SMALL_BITREVERSE_LOOKUP_TABLE_LOG_2_SIZE : Z := 6.
Definition MEDIUM_BITREVERSE_LOOKUP_TABLE_LOG_2_SIZE : Z := 8.
Definition TINY_BITREVERSE_LOOKUP_TABLE : list Z := lookup_table TINY_BITREVERSE_LOOKUP_TABLE_LOG_2_SIZE.
Definition SMALL_BITREVERSE_LOOKUP_TABLE : list Z := lookup_table SMALL_BITREVERSE_LOOKUP_TABLE_LOG_2_SIZE.
Definition MEDIUM_BITREVERSE_LOOKUP_TABLE : list Z := lookup_table MEDIUM_BITREVERSE_LOOKUP_TABLE_LOG_2_SIZE.

(** [usize::trailing_zeros] *)
Definition usize_trailing_zeros (x : Z) : Z := trailing_zeros_from x 0 64.

(** [x.swap_bytes().to_le_bytes()] *)
Definition swapped_bytes (x : Z) : list Z := rev (to_le_bytes x).

Definition bitreverse_index (index num_bits : Z) : Z := reverse_bits64 (u64 (Z.shiftl index (64 - num_bits))).

(** ** Visits *)
Section Visits.
Context {T : Type}.

Definition swap_unchecked (a b : Z) (l : list T) : option (list T) :=
  match l !! Z.to_nat a, l !! Z.to_nat b with
  | Some x, Some y => Some (<[Z.to_nat a := y]> (<[Z.to_nat b := x]> l))
  | _, _ => None
  end.

(** [if a < b { swap_unchecked(a, b) }] *)
Definition visit (acc : option (list T)) (ab : Z * Z) : option (list T) :=
  match acc with
  | None => None
  | Some l => if ab.1 <? ab.2 then swap_unchecked ab.1 ab.2 l else Some l
  end.

Definition visit_all (visits : list (Z * Z)) (input : list T) : option (list T) :=
  fold_left visit visits (Some input).

(** [input.len()] *)
Definition len (input : list T) : Z := Z.of_nat (length input).

(** The loop of [bitreverse_enumeration_inplace_via_*_lookup]. *)
Definition lookup_visits (table : list Z) (log_2_size n : Z) : list (Z * Z) :=
  let shift_to_cleanup := log_2_size - usize_trailing_zeros n in
  map (fun i => (i, Z.shiftr (nthZ table i) shift_to_cleanup)) (rangeZ 0 (Z.to_nat n)).

Definition bitreverse_enumeration_inplace_via_small_lookup (input : list T) : option (list T) :=
  if usize_is_power_of_two (len input) && (len input <=? Z.of_nat (length SMALL_BITREVERSE_LOOKUP_TABLE)) then
    visit_all (lookup_visits SMALL_BITREVERSE_LOOKUP_TABLE SMALL_BITREVERSE_LOOKUP_TABLE_LOG_2_SIZE (len input)) input
  else None.

Definition bitreverse_enumeration_inplace_via_medium_lookup (input : list T) : option (list T) :=
  if usize_is_power_of_two (len input) && (len input <=? Z.of_nat (length MEDIUM_BITREVERSE_LOOKUP_TABLE)) then
    visit_all (lookup_visits MEDIUM_BITREVERSE_LOOKUP_TABLE MEDIUM_BITREVERSE_LOOKUP_TABLE_LOG_2_SIZE (len input)) input
  else None.

(** [bytes[0] = 0; bytes[k] = MEDIUM[bytes[k]]] and the shift *)
Definition reversed_low_bytes (i shift : Z) : Z :=
  let bytes := swapped_bytes i in
  Z.shiftr (from_le_bytes [0; nthZ MEDIUM_BITREVERSE_LOOKUP_TABLE (nthZ bytes 1);
                           nthZ MEDIUM_BITREVERSE_LOOKUP_TABLE (nthZ bytes 2);
                           nthZ MEDIUM_BITREVERSE_LOOKUP_TABLE (nthZ bytes 3)]) shift.

(** The inner loop of the optimised version, for one [i]: pairs [(dst, src)]. *)
Definition optimized_row (common_part_log_n i : Z) : list (Z * Z) :=
  let reversed_i := reversed_low_bytes i (32 - common_part_log_n) in
  map (fun j => (Z.lor i (Z.shiftl j common_part_log_n),
                 Z.lor (nthZ TINY_BITREVERSE_LOOKUP_TABLE j)
                       (Z.shiftl reversed_i TINY_BITREVERSE_LOOKUP_TABLE_LOG_2_SIZE)))
      (rangeZ 0 (length TINY_BITREVERSE_LOOKUP_TABLE)).

Definition optimized_visits (common_part_log_n : Z) (indexes : list Z) : list (Z * Z) :=
  flat_map (optimized_row common_part_log_n) indexes.

Definition optimized_bitreverse_enumeration_inplace (input : list T) : option (list T) :=
  if usize_is_power_of_two (len input) && (Z.of_nat (length MEDIUM_BITREVERSE_LOOKUP_TABLE) <? len input)
     && (len input <=? 2 ^ 27) then
    let common_part_log_n := usize_trailing_zeros (len input) - TINY_BITREVERSE_LOOKUP_TABLE_LOG_2_SIZE in
    let work_size := shl32 1 common_part_log_n in
    visit_all (optimized_visits common_part_log_n (rangeZ 0 (Z.to_nat work_size))) input
  else None.

Definition reversed_bytes (i shift : Z) : Z :=
  Z.shiftr (from_le_bytes (map (nthZ MEDIUM_BITREVERSE_LOOKUP_TABLE) (swapped_bytes (u32 i)))) shift.

(** The guard of the simple version is [reversed_i < i]. *)
Definition simple_visits (log_n : Z) (indexes : list Z) : list (Z * Z) :=
  map (fun i => (reversed_bytes i (32 - log_n), i)) indexes.

Definition simple_bitreverse_enumeration_inplace (input : list T) : option (list T) :=
  if usize_is_power_of_two (len input) && (Z.of_nat (length MEDIUM_BITREVERSE_LOOKUP_TABLE) <? len input)
     && (len input <=? 2 ^ 31) then
    visit_all (simple_visits (usize_trailing_zeros (len input)) (rangeZ 0 (Z.to_nat (len input)))) input
  else None.

Definition bitreverse_enumeration_inplace (input : list T) : option (list T) :=
  if len input =? 0 then Some input
  else if usize_is_power_of_two (len input) then
    if len input <=? Z.of_nat (length SMALL_BITREVERSE_LOOKUP_TABLE) then
      bitreverse_enumeration_inplace_via_small_lookup input
    else if len input <=? Z.of_nat (length MEDIUM_BITREVERSE_LOOKUP_TABLE) then
      bitreverse_enumeration_inplace_via_medium_lookup input
    else if len input <=? 2 ^ 27 then optimized_bitreverse_enumeration_inplace input
    else simple_bitreverse_enumeration_inplace input
  else None.

(** ** The parallel versions

    [chunk_range] of every thread; [schedule] orders the visits of all
    threads. *)
Definition thread_range (g : WorkerGeometry) (chunk_idx : Z) : list Z :=
  match get_chunk_start_pos g chunk_idx, get_chunk_size g chunk_idx with
  | Some chunk_start, Some size => rangeZ chunk_start (Z.to_nat size)
  | _, _ => []
  end.

Definition thread_ranges (g : WorkerGeometry) : list (list Z) :=
  map (thread_range g) (rangeZ 0 (Z.to_nat (num_chunks g))).

Definition parallel_optimized_bitreverse_enumeration_inplace (num_cores : Z)
    (schedule : list (list (Z * Z)) -> list (Z * Z)) (input : list T) : option (list T) :=
  if usize_is_power_of_two (len input) && (Z.of_nat (length TINY_BITREVERSE_LOOKUP_TABLE) <? len input)
     && (len input <=? 2 ^ 27) then
    let common_part_log_n := usize_trailing_zeros (len input) - TINY_BITREVERSE_LOOKUP_TABLE_LOG_2_SIZE in
    let work_size := shl32 1 common_part_log_n in
    match get_geometry_for_num_cores num_cores work_size with
    | None => None
    | Some g => visit_all (schedule (map (optimized_visits common_part_log_n) (thread_ranges g))) input
    end
  else None.

Definition parallel_simple_bitreverse_enumeration_inplace (num_cores : Z)
    (schedule : list (list (Z * Z)) -> list (Z * Z)) (input : list T) : option (list T) :=
  if usize_is_power_of_two (len input) && (Z.of_nat (length MEDIUM_BITREVERSE_LOOKUP_TABLE) <? len input)
     && (len input <=? 2 ^ 31) then
    match get_geometry_for_num_cores num_cores (len input) with
    | None => None
    | Some g => visit_all (schedule (map (simple_visits (usize_trailing_zeros (len input))) (thread_ranges g))) input
    end
  else None.

Definition parallel_bitreverse_enumeration_inplace (num_cores : Z)
    (schedule : list (list (Z * Z)) -> list (Z * Z)) (input : list T) : option (list T) :=
  if len input =? 0 then Some input
  else if usize_is_power_of_two (len input) then
    if len input <=? Z.of_nat (length SMALL_BITREVERSE_LOOKUP_TABLE) then
      bitreverse_enumeration_inplace_via_small_lookup input
    else if len input <=? Z.of_nat (length MEDIUM_BITREVERSE_LOOKUP_TABLE) then
      bitreverse_enumeration_inplace_via_medium_lookup input
    else if len input <=? 2 ^ 27 then parallel_optimized_bitreverse_enumeration_inplace num_cores schedule input
    else parallel_simple_bitreverse_enumeration_inplace num_cores schedule input
  else None.
End Visits.

(** ** Facts about [bitrev] *)

Lemma bitrev_bound n : forall x, 0 <= bitrev n x < 2 ^ Z.of_nat n.
Proof.
  induction n as [|n IH]; intros x; cbn [bitrev]; [cbn; lia|].
  specialize (IH (x / 2)). pose proof (Z.mod_pos_bound x 2 ltac:(lia)).
  rewrite Nat2Z.inj_succ, Z.pow_succ_r by lia. nia.
Qed.

Lemma bitrev_0 n : bitrev n 0 = 0.
Proof. induction n as [|n IH]; cbn [bitrev]; [reflexivity|]. rewrite Z.mod_0_l, Z.div_0_l, IH by lia. lia. Qed.

Lemma bitrev_split a b : forall x,
  bitrev (a + b) x = bitrev a x * 2 ^ Z.of_nat b + bitrev b (x / 2 ^ Z.of_nat a).
Proof.
  induction a as [|a IH]; intros x; cbn [Nat.add bitrev].
  - rewrite Z.div_1_r. lia.
  - rewrite IH, Nat2Z.inj_add, Z.pow_add_r by lia.
    rewrite Nat2Z.inj_succ, Z.pow_succ_r, Z.div_div by lia. lia.
Qed.

Lemma bitrev_mod n : forall x m, Z.of_nat n <= m -> bitrev n (x mod 2 ^ m) = bitrev n x.
Proof.
  induction n as [|n IH]; intros x m Hm; cbn [bitrev]; [reflexivity|].
  replace m with (Z.succ (m - 1)) by lia. rewrite Z.pow_succ_r by lia.
  rewrite Z.rem_mul_r by (try apply Z.pow_nonzero; lia).
  replace ((x mod 2 + 2 * ((x / 2) mod 2 ^ (m - 1))) mod 2) with (x mod 2).
  2:{ rewrite Z.mul_comm, Z.mod_add, Z.mod_mod by lia. reflexivity. }
  replace ((x mod 2 + 2 * ((x / 2) mod 2 ^ (m - 1))) / 2) with ((x / 2) mod 2 ^ (m - 1)).
  2:{ rewrite (Z.mul_comm 2), Z.div_add by lia. rewrite (Z.div_small (x mod 2)); [lia|]. apply Z.mod_pos_bound. lia. }
  rewrite IH by lia. reflexivity.
Qed.

Lemma bitrev_involutive n : forall x, 0 <= x < 2 ^ Z.of_nat n -> bitrev n (bitrev n x) = x.
Proof.
  induction n as [|n IH]; intros x Hx; [cbn in *; lia|].
  rewrite Nat2Z.inj_succ, Z.pow_succ_r in Hx by lia.
  pose proof (bitrev_bound n (x / 2)) as Hb. pose proof (Z.mod_pos_bound x 2 ltac:(lia)) as Hm.
  pose proof (Z.div_mod x 2 ltac:(lia)) as Hdm.
  assert (Hq : 0 <= x / 2 < 2 ^ Z.of_nat n) by (split; [apply Z.div_pos; lia | apply Z.div_lt_upper_bound; lia]).
  change (bitrev (S n) x) with (2 ^ Z.of_nat n * (x mod 2) + bitrev n (x / 2)).
  replace (S n) with (n + 1)%nat by lia. rewrite bitrev_split. cbn [bitrev].
  rewrite <- (bitrev_mod n _ (Z.of_nat n)) by lia.
  rewrite (Z.add_comm (2 ^ Z.of_nat n * _)), (Z.mul_comm (2 ^ Z.of_nat n)).
  rewrite Z.mod_add, Z.div_add, (Z.mod_small (bitrev n _)), (Z.div_small (bitrev n _)) by lia.
  rewrite IH by exact Hq. change (2 ^ Z.of_nat 1) with 2. change (2 ^ Z.of_nat 0) with 1.
  rewrite Z.mod_small by lia. lia.
Qed.

(** Reversing more bits than the number has, then dropping the zeros. *)
Lemma bitrev_shiftr n m x : (m <= n)%nat -> 0 <= x < 2 ^ Z.of_nat m ->
  Z.shiftr (bitrev n x) (Z.of_nat n - Z.of_nat m) = bitrev m x.
Proof.
  intros Hm Hx. rewrite Z.shiftr_div_pow2 by lia.
  replace n with (m + (n - m))%nat at 1 by lia. rewrite bitrev_split, (Z.div_small x), bitrev_0 by lia.
  replace (Z.of_nat n - Z.of_nat m) with (Z.of_nat (n - m)) by lia.
  rewrite Z.add_0_r. apply Z.div_mul, Z.pow_nonzero; lia.
Qed.

(** ** Visiting every pair once reverses the array *)

Section Swaps.
Context {T : Type} (k : nat).
Notation r := (bitrev k).
Notation n := (2 ^ Z.of_nat k).
Implicit Types (l : list T).

Definition at_index l (i : Z) : option T := l !! Z.to_nat i.

(** A visit of an index and its reversal. *)
Definition reversal_pair (ab : Z * Z) : Prop := 0 <= ab.1 < n /\ ab.2 = r ab.1.

(** The swaps a list of visits performs: of the pair, the smaller index acts. *)
Definition touched (visits : list (Z * Z)) (i : Z) : Prop :=
  (In i (map fst visits) /\ i < r i) \/ (In (r i) (map fst visits) /\ r i < i).

Lemma swap_at a b l : 0 <= a < len l -> 0 <= b < len l -> a <> b -> exists l',
  swap_unchecked a b l = Some l' /\ len l' = len l /\
  forall i, 0 <= i -> at_index l' i = if i =? a then at_index l b else if i =? b then at_index l a else at_index l i.
Proof using.
  unfold len, at_index. intros Ha Hb Hne. unfold swap_unchecked.
  destruct (lookup_lt_is_Some_2 l (Z.to_nat a) ltac:(lia)) as [x Ex].
  destruct (lookup_lt_is_Some_2 l (Z.to_nat b) ltac:(lia)) as [y Ey]. rewrite Ex, Ey.
  eexists. split; [reflexivity|]. rewrite !length_insert. split; [reflexivity|]. intros i Hi.
  destruct (Z.eqb_spec i a) as [->|Hia].
  - rewrite list_lookup_insert_eq; [reflexivity|]. rewrite length_insert. lia.
  - rewrite list_lookup_insert_ne by lia. destruct (Z.eqb_spec i b) as [->|Hib].
    + rewrite list_lookup_insert_eq; [reflexivity | lia].
    + rewrite list_lookup_insert_ne by lia. reflexivity.
Qed.

Lemma visit_all_at visits : forall l, len l = n -> Forall reversal_pair visits -> NoDup (map fst visits) ->
  exists l', visit_all visits l = Some l' /\ len l' = n /\
    forall i, 0 <= i < n ->
      (touched visits i -> at_index l' i = at_index l (r i)) /\
      (~ touched visits i -> at_index l' i = at_index l i).
Proof using.
  induction visits as [|[a b] visits IH]; intros l Hl Hp Hnd.
  { exists l. split; [reflexivity|]. split; [exact Hl|]. intros i Hi. split; [|auto].
    intros [[[] _]|[[] _]]. }
  inversion Hp as [|? ? [Ha Eb] Hp']; subst. cbn [fst snd] in Ha, Eb. subst b.
  cbn [map fst] in Hnd. apply NoDup_cons in Hnd. destruct Hnd as [Hnin Hnd].
  assert (Hnin' : ~ In a (map fst visits)) by (intros Hin; apply Hnin, list_elem_of_In, Hin).
  pose proof (bitrev_bound k a) as Hra. pose proof (bitrev_involutive k a Ha) as Hinv.
  change (visit_all ((a, r a) :: visits) l) with (fold_left visit visits (visit (Some l) (a, r a))).
  cbn [visit fst snd]. destruct (Z.ltb_spec a (r a)) as [Hlt|Hge].
  - destruct (swap_at a (r a) l ltac:(lia) ltac:(lia) ltac:(lia)) as (l1 & E1 & Hl1 & Hat). rewrite E1.
    destruct (IH l1 ltac:(lia) Hp' Hnd) as (l' & E & Hl' & Hi'). exists l'. split; [exact E|]. split; [exact Hl'|].
    intros i Hi. destruct (Hi' i Hi) as [Ht Hn]. pose proof (bitrev_bound k i) as Hri.
    pose proof (bitrev_involutive k i Hi) as Hii.
    destruct (Z.eq_dec i a) as [->|Hia]; [|destruct (Z.eq_dec i (r a)) as [->|Hira]].
    + split; [|intros Hnt; exfalso; apply Hnt; left; cbn; auto]. intros _.
      rewrite Hn; [rewrite Hat, Z.eqb_refl by lia; reflexivity|].
      intros [[Hin _]|[Hin Hlt']]; [auto | lia].
    + split; [|intros Hnt; exfalso; apply Hnt; right; rewrite Hinv; cbn; auto]. intros _. rewrite Hinv.
      rewrite Hn; [rewrite Hat by lia; destruct (Z.eqb_spec (r a) a); [lia|]; rewrite Z.eqb_refl; reflexivity|].
      unfold touched. rewrite Hinv. intros [[_ Hlt']|[Hin _]]; [lia | auto].
    + assert (Hrne : r i <> a /\ r i <> r a).
      { split; intros Eq; [apply Hira; rewrite <- Eq; auto | apply Hia; rewrite <- Hii, Eq; exact Hinv]. }
      assert (Hiff : touched ((a, r a) :: visits) i <-> touched visits i).
      { unfold touched. cbn [map fst In]. intuition congruence. }
      rewrite !Hiff. split; [intros Htc; rewrite Ht by exact Htc | intros Htc; rewrite Hn by exact Htc];
        rewrite Hat by lia;
        repeat match goal with |- context [?x =? ?y] => destruct (Z.eqb_spec x y); [lia|] end; reflexivity.
  - destruct (IH l Hl Hp' Hnd) as (l' & E & Hl' & Hi'). exists l'. split; [exact E|]. split; [exact Hl'|].
    intros i Hi. assert (Hiff : touched ((a, r a) :: visits) i <-> touched visits i).
    { unfold touched. cbn [map fst In]. split; [|intuition auto]. intros [[[->|?] ?]|[[E'|?] ?]]; auto; try lia.
      pose proof (bitrev_involutive k i Hi). rewrite <- E' in *. lia. }
    rewrite Hiff. apply Hi'; exact Hi.
Qed.

(** The visits of a complete pass. *)
Definition complete (visits : list (Z * Z)) : Prop :=
  Forall reversal_pair visits /\ NoDup (map fst visits) /\ forall i, 0 <= i < n -> In i (map fst visits).

Lemma complete_permutation visits visits' : complete visits -> Permutation visits visits' -> complete visits'.
Proof using.
  intros (Hp & Hnd & Hall) Hperm. pose proof (Permutation_map fst Hperm) as Hf. split; [|split].
  - rewrite <- Hperm. exact Hp.
  - rewrite <- Hf. exact Hnd.
  - intros i Hi. eapply Permutation_in; [exact Hf | auto].
Qed.

Lemma complete_reverses visits l : len l = n -> complete visits -> exists l',
  visit_all visits l = Some l' /\ len l' = n /\ forall i, 0 <= i < n -> at_index l' i = at_index l (r i).
Proof using.
  intros Hl (Hp & Hnd & Hall). destruct (visit_all_at visits l Hl Hp Hnd) as (l' & E & Hl' & Hat).
  exists l'. split; [exact E|]. split; [exact Hl'|]. intros i Hi. destruct (Hat i Hi) as [Ht Hn].
  pose proof (bitrev_bound k i) as Hri.
  destruct (Z.lt_trichotomy i (r i)) as [H1|[H1|H1]].
  - apply Ht. left. auto.
  - rewrite <- H1. apply Hn. intros [[_ ?]|[_ ?]]; lia.
  - apply Ht. right. auto.
Qed.
End Swaps.

(** ** The loops visit complete passes *)

Lemma trailing_zeros_pow2 k : (k < 64)%nat -> usize_trailing_zeros (2 ^ Z.of_nat k) = Z.of_nat k.
Proof. intros Hk. do 64 (destruct k as [|k]; [reflexivity|]). lia. Qed.

Lemma power_of_two_pow2 k : usize_is_power_of_two (2 ^ Z.of_nat k) = true.
Proof.
  unfold usize_is_power_of_two. rewrite Z.log2_pow2, Z.eqb_refl by lia.
  assert (0 < 2 ^ Z.of_nat k) by (apply Z.pow_pos_nonneg; lia).
  destruct (Z.ltb_spec 0 (2 ^ Z.of_nat k)); [reflexivity | lia].
Qed.

Lemma nthZ_map_rangeZ f m i : 0 <= i < Z.of_nat m -> nthZ (map f (rangeZ 0 m)) i = f i.
Proof.
  intros Hi. unfold nthZ.
  assert (G : forall m lo j, (j < m)%nat -> nth j (map f (rangeZ lo m)) 0 = f (lo + Z.of_nat j)).
  { clear. induction m as [|m IH]; intros lo [|j] Hj; cbn [rangeZ map nth]; try lia.
    - f_equal. lia.
    - rewrite IH by lia. f_equal. lia. }
  rewrite G by lia. f_equal. lia.
Qed.

Lemma lookup_table_entry L i : (L <= 8)%nat -> 0 <= i < 2 ^ Z.of_nat L ->
  nthZ (lookup_table (Z.of_nat L)) i = bitrev L i.
Proof.
  intros HL Hi. unfold lookup_table. rewrite nthZ_map_rangeZ by (rewrite Z2Nat.id; lia).
  unfold reverse_bits64. change 64 with (Z.of_nat 64). rewrite bitrev_shiftr by (auto; lia).
  pose proof (bitrev_bound L i). assert (2 ^ Z.of_nat L <= 2 ^ 8) by (apply Z.pow_le_mono_r; lia).
  unfold u8. apply Z.mod_small. lia.
Qed.

Lemma medium_entry b : nthZ MEDIUM_BITREVERSE_LOOKUP_TABLE (b mod 256) = bitrev 8 b.
Proof.
  unfold MEDIUM_BITREVERSE_LOOKUP_TABLE, MEDIUM_BITREVERSE_LOOKUP_TABLE_LOG_2_SIZE.
  change 8 with (Z.of_nat 8) at 1. rewrite lookup_table_entry; [|lia|].
  - change 256 with (2 ^ 8). apply bitrev_mod. lia.
  - change (2 ^ Z.of_nat 8) with 256. apply Z.mod_pos_bound. lia.
Qed.

Lemma bytewise_bitrev i :
  from_le_bytes (map (nthZ MEDIUM_BITREVERSE_LOOKUP_TABLE) (swapped_bytes i)) = bitrev 32 i.
Proof.
  change (swapped_bytes i) with [(i / 2 ^ 24) mod 256; (i / 2 ^ 16) mod 256; (i / 2 ^ 8) mod 256; i mod 256].
  cbn [map]. rewrite !medium_entry. set (m := bitrev 8).
  change (from_le_bytes _) with (m (i / 2 ^ 24) + m (i / 2 ^ 16) * 2 ^ 8 + m (i / 2 ^ 8) * 2 ^ 16 + m i * 2 ^ 24).
  change 32%nat with (8 + (8 + (8 + 8)))%nat. rewrite !bitrev_split. fold m. rewrite !Z.div_div by lia.
  change (2 ^ Z.of_nat 8) with (2 ^ 8). change (2 ^ 8 * (2 ^ 8)) with (2 ^ 16). change (2 ^ 16 * 2 ^ 8) with (2 ^ 24).
  change (2 ^ Z.of_nat (8 + (8 + 8))) with (2 ^ 24). change (2 ^ Z.of_nat (8 + 8)) with (2 ^ 16). lia.
Qed.

Lemma reversed_bytes_ok k i : (k <= 32)%nat -> 0 <= i < 2 ^ Z.of_nat k ->
  reversed_bytes i (32 - Z.of_nat k) = bitrev k i.
Proof.
  intros Hk Hi. unfold reversed_bytes.
  assert (2 ^ Z.of_nat k <= 2 ^ 32) by (apply Z.pow_le_mono_r; lia).
  rewrite u32_small by (unfold is_u32; lia). rewrite bytewise_bitrev.
  change 32 with (Z.of_nat 32). apply bitrev_shiftr; auto.
Qed.

Lemma reversed_low_bytes_ok k i : (k <= 24)%nat -> 0 <= i < 2 ^ Z.of_nat k ->
  reversed_low_bytes i (32 - Z.of_nat k) = bitrev k i.
Proof.
  intros Hk Hi. rewrite <- reversed_bytes_ok by (auto; lia). unfold reversed_bytes, reversed_low_bytes.
  assert (2 ^ Z.of_nat k <= 2 ^ 24) by (apply Z.pow_le_mono_r; lia).
  rewrite u32_small by (unfold is_u32; lia).
  change (swapped_bytes i) with [(i / 2 ^ 24) mod 256; (i / 2 ^ 16) mod 256; (i / 2 ^ 8) mod 256; i mod 256].
  cbn [map]. change (nthZ [?a; ?b; ?c; ?d] 1) with b. change (nthZ [?a; ?b; ?c; ?d] 2) with c.
  change (nthZ [?a; ?b; ?c; ?d] 3) with d.
  rewrite (Z.div_small i (2 ^ 24)) by lia. reflexivity.
Qed.

Lemma rangeZ_nodup m : forall lo, List.NoDup (rangeZ lo m).
Proof.
  induction m as [|m IH]; intros lo; cbn [rangeZ]; constructor; [|apply IH].
  rewrite rangeZ_spec. lia.
Qed.

(** A list of reversal pairs that reaches all [2^k] indices in [2^k] visits. *)
Lemma complete_by_count k visits : Forall (reversal_pair k) visits ->
  (forall i, 0 <= i < 2 ^ Z.of_nat k -> In i (map fst visits)) ->
  length visits = Z.to_nat (2 ^ Z.of_nat k) -> complete k visits.
Proof.
  intros Hp Hall Hlen. split; [exact Hp|]. split; [|exact Hall].
  apply NoDup_ListNoDup. apply List.NoDup_incl_NoDup with (l := rangeZ 0 (Z.to_nat (2 ^ Z.of_nat k))).
  - apply rangeZ_nodup.
  - rewrite length_map, length_rangeZ. lia.
  - intros i Hi. apply rangeZ_spec in Hi. apply Hall. lia.
Qed.

Section Passes.
Context (k : nat).
Notation n := (2 ^ Z.of_nat k).

Let in_range i : In i (rangeZ 0 (Z.to_nat n)) <-> 0 <= i < n.
Proof. rewrite rangeZ_spec. assert (0 < n) by (apply Z.pow_pos_nonneg; lia). lia. Qed.

Lemma lookup_complete L : (k <= L <= 8)%nat -> complete k (lookup_visits (lookup_table (Z.of_nat L)) (Z.of_nat L) n).
Proof using.
  intros HL. unfold lookup_visits. rewrite trailing_zeros_pow2 by lia. apply complete_by_count.
  - apply Forall_map, List.Forall_forall. intros i Hi. apply in_range in Hi. split; [exact Hi|]. cbn.
    assert (n <= 2 ^ Z.of_nat L) by (apply Z.pow_le_mono_r; lia).
    rewrite lookup_table_entry by lia. apply bitrev_shiftr; [lia | exact Hi].
  - intros i Hi. rewrite map_map. cbn. rewrite map_id. apply in_range, Hi.
  - rewrite length_map, length_rangeZ. reflexivity.
Qed.

Lemma simple_complete : (k <= 32)%nat -> complete k (simple_visits (Z.of_nat k) (rangeZ 0 (Z.to_nat n))).
Proof using.
  intros Hk. unfold simple_visits. apply complete_by_count.
  - apply Forall_map, List.Forall_forall. intros i Hi. apply in_range in Hi. cbn.
    rewrite reversed_bytes_ok by auto. split; cbn; [apply bitrev_bound|]. symmetry. apply bitrev_involutive, Hi.
  - intros i Hi. rewrite map_map. cbn. apply in_map_iff. exists (bitrev k i). pose proof (bitrev_bound k i) as Hb.
    split; [|apply in_range, Hb]. rewrite reversed_bytes_ok by auto. apply bitrev_involutive, Hi.
  - rewrite length_map, length_rangeZ. reflexivity.
Qed.

Lemma lor_shiftl_add a b c : 0 <= c -> 0 <= a < 2 ^ c -> 0 <= b -> Z.lor a (Z.shiftl b c) = a + b * 2 ^ c.
Proof using.
  intros Hc Ha Hb. rewrite Z.shiftl_mul_pow2 by lia.
  assert (Hland : Z.land a (b * 2 ^ c) = 0).
  { apply Z.bits_inj'. intros m Hm. rewrite Z.land_spec, Z.bits_0. destruct (Z.lt_ge_cases m c).
    - rewrite Z.mul_pow2_bits_low by lia. apply andb_false_r.
    - rewrite (testbit_high c a m) by lia. reflexivity. }
  rewrite Z.add_nocarry_lxor, Z.lxor_lor by exact Hland. reflexivity.
Qed.

Lemma optimized_visit c i j : k = (c + 3)%nat -> (c <= 24)%nat -> 0 <= i < 2 ^ Z.of_nat c -> 0 <= j < 8 ->
  (Z.lor i (Z.shiftl j (Z.of_nat c)),
   Z.lor (nthZ TINY_BITREVERSE_LOOKUP_TABLE j)
     (Z.shiftl (reversed_low_bytes i (32 - Z.of_nat c)) TINY_BITREVERSE_LOOKUP_TABLE_LOG_2_SIZE)) =
  (i + j * 2 ^ Z.of_nat c, bitrev k (i + j * 2 ^ Z.of_nat c)).
Proof using.
  intros Hk Hc Hi Hj. unfold TINY_BITREVERSE_LOOKUP_TABLE, TINY_BITREVERSE_LOOKUP_TABLE_LOG_2_SIZE.
  rewrite reversed_low_bytes_ok by auto. change 3 with (Z.of_nat 3) at 1. rewrite lookup_table_entry by (try lia; exact Hj).
  pose proof (bitrev_bound 3 j) as H3. pose proof (bitrev_bound c i) as Hbc.
  rewrite !lor_shiftl_add by lia. f_equal. rewrite Hk, bitrev_split.
  rewrite <- (bitrev_mod c (i + j * 2 ^ Z.of_nat c) (Z.of_nat c)) by lia.
  rewrite Z.mod_add, Z.div_add, (Z.mod_small i), (Z.div_small i) by lia.
  change (2 ^ Z.of_nat 3) with (2 ^ 3). rewrite Z.add_0_l. lia.
Qed.

Lemma optimized_complete c : k = (c + 3)%nat -> (c <= 24)%nat ->
  complete k (optimized_visits (Z.of_nat c) (rangeZ 0 (Z.to_nat (2 ^ Z.of_nat c)))).
Proof using.
  intros Hk Hc. assert (Hn : n = 8 * 2 ^ Z.of_nat c) by (rewrite Hk, Nat2Z.inj_add, Z.pow_add_r by lia; lia).
  assert (Hpos : 0 < 2 ^ Z.of_nat c) by (apply Z.pow_pos_nonneg; lia).
  assert (Hrow : forall i, 0 <= i < 2 ^ Z.of_nat c -> optimized_row (Z.of_nat c) i =
            map (fun j => (i + j * 2 ^ Z.of_nat c, bitrev k (i + j * 2 ^ Z.of_nat c))) (rangeZ 0 8)).
  { intros i Hi. unfold optimized_row. change (length TINY_BITREVERSE_LOOKUP_TABLE) with 8%nat.
    apply map_ext_in. intros j Hj. apply rangeZ_spec in Hj. apply optimized_visit; auto. }
  apply complete_by_count.
  - apply List.Forall_forall. intros ab Hin. apply in_flat_map in Hin. destruct Hin as (i & Hi & Hin).
    apply rangeZ_spec in Hi. rewrite Hrow in Hin by lia. apply in_map_iff in Hin.
    destruct Hin as (j & <- & Hj). apply rangeZ_spec in Hj. split; cbn; [nia | reflexivity].
  - intros x Hx. pose proof (Z.div_mod x (2 ^ Z.of_nat c) ltac:(lia)) as Hdm.
    pose proof (Z.mod_pos_bound x (2 ^ Z.of_nat c) Hpos) as Hm.
    assert (Hq : 0 <= x / 2 ^ Z.of_nat c < 8) by (split; [apply Z.div_pos | apply Z.div_lt_upper_bound]; lia).
    apply in_map_iff. exists (x, bitrev k x). split; [reflexivity|]. apply in_flat_map.
    exists (x mod 2 ^ Z.of_nat c). split; [apply rangeZ_spec; lia|]. rewrite Hrow by lia.
    apply in_map_iff. exists (x / 2 ^ Z.of_nat c).
    replace (x mod 2 ^ Z.of_nat c + x / 2 ^ Z.of_nat c * 2 ^ Z.of_nat c) with x by lia.
    split; [reflexivity | apply rangeZ_spec; lia].
  - unfold optimized_visits. rewrite (flat_map_constant_length (c := 8%nat)).
    + rewrite length_rangeZ. lia.
    + intros i Hi. unfold optimized_row. rewrite length_map, length_rangeZ. reflexivity.
Qed.
End Passes.

(** ** Threads *)

Lemma rangeZ_app a b lo : rangeZ lo (a + b) = rangeZ lo a ++ rangeZ (lo + Z.of_nat a) b.
Proof.
  revert lo. induction a as [|a IH]; intros lo; cbn [rangeZ Nat.add app].
  - f_equal. lia.
  - rewrite IH. do 2 f_equal. f_equal. lia.
Qed.

Lemma thread_ranges_concat g w : partitions g w -> w < 2 ^ 58 -> concat (thread_ranges g) = rangeZ 0 (Z.to_nat w).
Proof.
  intros Hg Hw. unfold thread_ranges. assert (Hn : 0 < num_chunks g) by apply Hg.
  assert (G : forall m i, 0 <= i -> i + Z.of_nat m <= num_chunks g ->
    chunk_start g w i <= chunk_start g w (i + Z.of_nat m) /\
    concat (map (thread_range g) (rangeZ i m)) =
      rangeZ (chunk_start g w i) (Z.to_nat (chunk_start g w (i + Z.of_nat m) - chunk_start g w i))).
  { induction m as [|m IH]; intros i Hi Hm; cbn [rangeZ map concat].
    - rewrite Z.add_0_r, Z.sub_diag. split; [lia | reflexivity].
    - destruct (chunk_advances g w i Hg ltac:(lia)) as (size & Es & Hp & Hadv & _).
      destruct (IH (i + 1) ltac:(lia) ltac:(lia)) as [Hle E].
      replace (i + 1 + Z.of_nat m) with (i + Z.of_nat (S m)) in * by lia. split; [lia|].
      rewrite E. unfold thread_range. rewrite Es, (chunk_start_pos g w i Hg ltac:(lia) ltac:(lia)).
      replace (Z.to_nat (chunk_start g w (i + Z.of_nat (S m)) - chunk_start g w i))
        with (Z.to_nat size + Z.to_nat (chunk_start g w (i + Z.of_nat (S m)) - chunk_start g w (i + 1)))%nat by lia.
      rewrite rangeZ_app. do 2 f_equal. lia. }
  destruct (G (Z.to_nat (num_chunks g)) 0 ltac:(lia) ltac:(lia)) as [_ E]. rewrite E.
  unfold chunk_start. rewrite Z2Nat.id, Z.add_0_l, Z.ltb_irrefl by lia.
  replace (0 <? num_chunks g) with true by (symmetry; apply Z.ltb_lt; lia). rewrite Z.mul_0_r, Z.sub_0_r. reflexivity.
Qed.

Lemma optimized_concat c ls : concat (map (optimized_visits c) ls) = optimized_visits c (concat ls).
Proof.
  unfold optimized_visits. induction ls as [|l ls IH]; [reflexivity|].
  cbn [map concat]. rewrite IH, flat_map_app. reflexivity.
Qed.

Lemma simple_concat c ls : concat (map (simple_visits c) ls) = simple_visits c (concat ls).
Proof. unfold simple_visits. symmetry. apply concat_map. Qed.

(** ** Main theorem *)

(** [l'] is [l] enumerated in bit-reversed order. *)
Definition bit_reversed {T} (k : nat) (l l' : list T) : Prop :=
  length l' = length l /\ forall i, 0 <= i < 2 ^ Z.of_nat k -> at_index l' i = at_index l (bitrev k i).

(** A schedule runs every visit of every thread once, in any interleaving. *)
Definition fair (schedule : list (list (Z * Z)) -> list (Z * Z)) : Prop :=
  forall threads, Permutation (concat threads) (schedule threads).

Lemma complete_bit_reversed {T} k visits (l : list T) : len l = 2 ^ Z.of_nat k -> complete k visits ->
  exists l', visit_all visits l = Some l' /\ bit_reversed k l l'.
Proof.
  intros Hl Hc. destruct (complete_reverses k visits l Hl Hc) as (l' & E & Hl' & Hat).
  exists l'. split; [exact E|]. split; [unfold len in *; lia | exact Hat].
Qed.

(** Resolve the assertions on the length [2^k]. *)
Ltac pow2_tests :=
  repeat match goal with
  | |- context [?a <? ?b] => destruct (Z.ltb_spec a b); try lia
  | |- context [?a <=? ?b] => destruct (Z.leb_spec a b); try lia
  end; cbn [andb].

Section Main.
Context {T : Type} (k : nat) (l : list T).
Hypotheses (Hl : len l = 2 ^ Z.of_nat k) (Hk : (k <= 31)%nat).

Lemma large_exponent m : 2 ^ Z.of_nat m < len l -> (m < k)%nat.
Proof using Hl Hk. rewrite Hl. intros H. apply Z.pow_lt_mono_r_iff in H; lia. Qed.
Lemma small_exponent m : len l <= 2 ^ Z.of_nat m -> (k <= m)%nat.
Proof using Hl Hk. rewrite Hl. intros H. apply Z.pow_le_mono_r_iff in H; lia. Qed.

Lemma small_lookup_ok : len l <= 64 -> exists l',
  bitreverse_enumeration_inplace_via_small_lookup l = Some l' /\ bit_reversed k l l'.
Proof.
  intros Hs. unfold bitreverse_enumeration_inplace_via_small_lookup.
  change (Z.of_nat (length SMALL_BITREVERSE_LOOKUP_TABLE)) with 64.
  apply (small_exponent 6) in Hs as Hk6. rewrite Hl in *. rewrite power_of_two_pow2. pow2_tests.
  apply complete_bit_reversed; [exact Hl|]. apply (lookup_complete k 6). lia.
Qed.

Lemma medium_lookup_ok : len l <= 256 -> exists l',
  bitreverse_enumeration_inplace_via_medium_lookup l = Some l' /\ bit_reversed k l l'.
Proof.
  intros Hs. unfold bitreverse_enumeration_inplace_via_medium_lookup.
  change (Z.of_nat (length MEDIUM_BITREVERSE_LOOKUP_TABLE)) with 256.
  apply (small_exponent 8) in Hs as Hk8. rewrite Hl in *. rewrite power_of_two_pow2. pow2_tests.
  apply complete_bit_reversed; [exact Hl|]. apply (lookup_complete k 8). lia.
Qed.

Lemma work_size_ok : (3 <= k)%nat -> shl32 1 (Z.of_nat k - 3) = 2 ^ Z.of_nat (k - 3).
Proof using Hk.
  intros H3. unfold shl32. rewrite Z.shiftl_1_l. replace (Z.of_nat k - 3) with (Z.of_nat (k - 3)) by lia.
  apply u32_small. unfold is_u32. split; [apply Z.pow_nonneg; lia | apply Z.pow_lt_mono_r; lia].
Qed.

Lemma optimized_ok : 256 < len l <= 2 ^ 27 -> exists l',
  optimized_bitreverse_enumeration_inplace l = Some l' /\ bit_reversed k l l'.
Proof.
  intros [Hs Hb]. unfold optimized_bitreverse_enumeration_inplace.
  change (Z.of_nat (length MEDIUM_BITREVERSE_LOOKUP_TABLE)) with 256.
  apply (large_exponent 8) in Hs as Hk8. apply (small_exponent 27) in Hb as Hk27.
  rewrite Hl in *. rewrite power_of_two_pow2, trailing_zeros_pow2 by lia. pow2_tests.
  change TINY_BITREVERSE_LOOKUP_TABLE_LOG_2_SIZE with 3. rewrite work_size_ok by lia.
  replace (Z.of_nat k - 3) with (Z.of_nat (k - 3)) by lia.
  apply complete_bit_reversed; [exact Hl|]. apply (optimized_complete k (k - 3)); lia.
Qed.

Lemma simple_ok : 256 < len l -> exists l',
  simple_bitreverse_enumeration_inplace l = Some l' /\ bit_reversed k l l'.
Proof.
  intros Hs. unfold simple_bitreverse_enumeration_inplace.
  change (Z.of_nat (length MEDIUM_BITREVERSE_LOOKUP_TABLE)) with 256.
  assert (Hb : 2 ^ Z.of_nat k <= 2 ^ 31) by (apply Z.pow_le_mono_r; lia).
  rewrite Hl in *. rewrite power_of_two_pow2, trailing_zeros_pow2 by lia. pow2_tests.
  apply complete_bit_reversed; [exact Hl|]. apply simple_complete. lia.
Qed.

Lemma bitreverse_ok : exists l', bitreverse_enumeration_inplace l = Some l' /\ bit_reversed k l l'.
Proof.
  unfold bitreverse_enumeration_inplace.
  replace (len l =? 0) with false by (symmetry; apply Z.eqb_neq; rewrite Hl; apply Z.pow_nonzero; lia).
  replace (usize_is_power_of_two (len l)) with true by (rewrite Hl; symmetry; apply power_of_two_pow2).
  change (Z.of_nat (length SMALL_BITREVERSE_LOOKUP_TABLE)) with 64.
  change (Z.of_nat (length MEDIUM_BITREVERSE_LOOKUP_TABLE)) with 256.
  repeat match goal with |- context [?a <=? ?b] => destruct (Z.leb_spec a b) end.
  - apply small_lookup_ok. lia.
  - apply medium_lookup_ok. lia.
  - apply optimized_ok. lia.
  - apply simple_ok. lia.
Qed.

Section Parallel.
Context (num_cores : Z) (schedule : list (list (Z * Z)) -> list (Z * Z)).
Hypotheses (Hcores : 0 < num_cores) (Hfair : fair schedule).

Lemma parallel_optimized_ok : 256 < len l <= 2 ^ 27 -> exists l',
  parallel_optimized_bitreverse_enumeration_inplace num_cores schedule l = Some l' /\ bit_reversed k l l'.
Proof.
  intros [Hs Hb]. unfold parallel_optimized_bitreverse_enumeration_inplace.
  change (Z.of_nat (length TINY_BITREVERSE_LOOKUP_TABLE)) with 8.
  apply (large_exponent 8) in Hs as Hk8. apply (small_exponent 27) in Hb as Hk27.
  rewrite Hl in *. rewrite power_of_two_pow2, trailing_zeros_pow2 by lia. pow2_tests.
  change TINY_BITREVERSE_LOOKUP_TABLE_LOG_2_SIZE with 3. rewrite work_size_ok by lia.
  replace (Z.of_nat k - 3) with (Z.of_nat (k - 3)) by lia.
  assert (Hw : 0 < 2 ^ Z.of_nat (k - 3) < 2 ^ 58)
    by (split; [apply Z.pow_pos_nonneg; lia | apply Z.pow_lt_mono_r; lia]).
  destruct (geometry_exists num_cores _ Hcores Hw) as (g & E & Hg & _). rewrite E.
  apply complete_bit_reversed; [exact Hl|]. eapply complete_permutation; [|apply Hfair].
  rewrite optimized_concat, (thread_ranges_concat g _ Hg) by lia. apply (optimized_complete k (k - 3)); lia.
Qed.

Lemma parallel_simple_ok : 256 < len l -> exists l',
  parallel_simple_bitreverse_enumeration_inplace num_cores schedule l = Some l' /\ bit_reversed k l l'.
Proof.
  intros Hs. unfold parallel_simple_bitreverse_enumeration_inplace.
  change (Z.of_nat (length MEDIUM_BITREVERSE_LOOKUP_TABLE)) with 256.
  assert (Hb : 2 ^ Z.of_nat k <= 2 ^ 31) by (apply Z.pow_le_mono_r; lia).
  rewrite Hl in *. rewrite power_of_two_pow2, trailing_zeros_pow2 by lia. pow2_tests.
  destruct (geometry_exists num_cores (2 ^ Z.of_nat k) Hcores) as (g & E & Hg & _);
    [split; [apply Z.pow_pos_nonneg; lia | lia]|]. rewrite E.
  apply complete_bit_reversed; [exact Hl|]. eapply complete_permutation; [|apply Hfair].
  rewrite simple_concat, (thread_ranges_concat g _ Hg) by lia. apply simple_complete. lia.
Qed.

Lemma parallel_bitreverse_ok : exists l',
  parallel_bitreverse_enumeration_inplace num_cores schedule l = Some l' /\ bit_reversed k l l'.
Proof.
  unfold parallel_bitreverse_enumeration_inplace.
  replace (len l =? 0) with false by (symmetry; apply Z.eqb_neq; rewrite Hl; apply Z.pow_nonzero; lia).
  replace (usize_is_power_of_two (len l)) with true by (rewrite Hl; symmetry; apply power_of_two_pow2).
  change (Z.of_nat (length SMALL_BITREVERSE_LOOKUP_TABLE)) with 64.
  change (Z.of_nat (length MEDIUM_BITREVERSE_LOOKUP_TABLE)) with 256.
  repeat match goal with |- context [?a <=? ?b] => destruct (Z.leb_spec a b) end.
  - apply small_lookup_ok. lia.
  - apply medium_lookup_ok. lia.
  - apply parallel_optimized_ok. lia.
  - apply parallel_simple_ok. lia.
Qed.
End Parallel.
End Main.

Lemma bit_reversed_unique {T} k (l l1 l2 : list T) : len l = 2 ^ Z.of_nat k ->
  bit_reversed k l l1 -> bit_reversed k l l2 -> l1 = l2.
Proof.
  intros Hl [Hl1 H1] [Hl2 H2]. apply list_eq. intros i. unfold len in Hl.
  destruct (Nat.lt_ge_cases i (length l)) as [Hi|Hi].
  - specialize (H1 (Z.of_nat i) ltac:(lia)). specialize (H2 (Z.of_nat i) ltac:(lia)).
    unfold at_index in *. rewrite Nat2Z.id in *. congruence.
  - rewrite !lookup_ge_None_2 by lia. reflexivity.
Qed.

Lemma bit_reversed_sym {T} k (l l' : list T) : bit_reversed k l l' -> bit_reversed k l' l.
Proof.
  intros [Hl H]. split; [auto|]. intros i Hi. pose proof (bitrev_bound k i).
  rewrite H by lia. rewrite bitrev_involutive by exact Hi. reflexivity.
Qed.

(** C31: On any array of [2^k] elements, up to [2^31], every one of the four
    implementations behind [bitreverse_enumeration_inplace] enumerates it in
    bit-reversed order; doing it twice restores the array; and the parallel
    version gives the same array for any number of cores and any interleaving
    of the swaps of its threads. *)
Theorem bitreverse_correct {T} (k : nat) (l : list T) (num_cores : Z)
    (schedule : list (list (Z * Z)) -> list (Z * Z)) :
  Z.of_nat (length l) = 2 ^ Z.of_nat k -> (k <= 31)%nat -> 0 < num_cores -> fair schedule ->
  exists l', bitreverse_enumeration_inplace l = Some l' /\ bit_reversed k l l' /\
    bitreverse_enumeration_inplace l' = Some l /\
    parallel_bitreverse_enumeration_inplace num_cores schedule l = Some l'.
Proof.
  intros Hl Hk Hc Hf. destruct (bitreverse_ok k l Hl Hk) as (l' & E & Hr).
  assert (Hl' : len l' = 2 ^ Z.of_nat k) by (unfold len; destruct Hr as [-> _]; exact Hl).
  destruct (bitreverse_ok k l' Hl' Hk) as (l2 & E2 & Hr2).
  destruct (parallel_bitreverse_ok k l Hl Hk num_cores schedule Hc Hf) as (l3 & E3 & Hr3).
  exists l'. split; [exact E|]. split; [exact Hr|].
  rewrite E2, E3. split; f_equal.
  - exact (bit_reversed_unique k l' l2 l Hl' Hr2 (bit_reversed_sym k l l' Hr)).
  - exact (bit_reversed_unique k l l3 l' Hl Hr3 Hr).
Qed.

Lemma concat_is_fair : fair (@concat (Z * Z)).
Proof. intros threads. reflexivity. Qed.

Lemma bitreverse_correct_witness :
  exists l', bitreverse_enumeration_inplace (rangeZ 0 8) = Some l' /\ l' = [0; 4; 2; 6; 1; 5; 3; 7] /\
    bitreverse_enumeration_inplace l' = Some (rangeZ 0 8).
Proof.
  destruct (bitreverse_correct 3 (rangeZ 0 8) 3 (@concat (Z * Z)) eq_refl ltac:(lia) ltac:(lia) concat_is_fair)
    as (l' & E & _ & Eb & _).
  exists l'. split; [exact E|]. split; [|exact Eb]. vm_compute in E. injection E as <-. reflexivity.
Defined.
