(* ===== verification/Decoder.v ===== *)
(** * Instruction word decoding

    [src/risc_v_simulator/src/utils/mod.rs] (bit fields and sign extension),
    [cycle/opcode_formats/*.rs] (the R/I/S/B/U/J immediates used by both
    simulators) and [cycle/decoder_utils.rs] (the byte-sized field accessors
    of the unrolled simulator).  The theorems state the arithmetic meaning of
    every accessor and that the immediates of the RISC-V manual's encodings
    are recovered. *)
From stdpp Require Import base list.
From Stdlib Require Import ZArith Lia Btauto.
From S2P Require Import Prelude MachineInt.

(** ** utils/mod.rs *)

Definition set_bit (dst bit : Z) : Z := Z.lor dst (shl32 1 bit).
Definition set_bits_to_value (dst bit_offset value : Z) : Z := Z.lor dst (shl32 value bit_offset).
Definition clear_bit (dst bit : Z) : Z := Z.land dst (not32 (shl32 1 bit)).
Definition test_bit (src bit : Z) : bool := negb (Z.land src (shl32 1 bit) =? 0).
Definition get_bit_right_aligned (src bit : Z) : Z := Z.land (Z.shiftr src bit) 1.
Definition get_bit_unaligned (src bit : Z) : Z := Z.land src (shl32 1 bit).

Definition sign_extend (dst total_bits : Z) : Z :=
  if negb (Z.land dst (shl32 1 (total_bits - 1)) =? 0)
  then Z.lor dst (not32 (wsub (shl32 1 total_bits) 1))
  else dst.

Definition field_mask (from_bit num_bits : Z) : Z := shl32 (wsub (shl32 1 num_bits) 1) from_bit.

Definition get_bits_and_align_right (src from_bit num_bits : Z) : Z :=
  Z.shiftr (Z.land src (field_mask from_bit num_bits)) from_bit.
Definition clear_bits (dst from_bit num_bits : Z) : Z :=
  Z.land dst (not32 (field_mask from_bit num_bits)).
Definition get_bits_and_shift_right (src from_bit num_bits shift : Z) : Z :=
  Z.shiftr (Z.land src (field_mask from_bit num_bits)) shift.
Definition get_bits_and_shift_left (src from_bit num_bits shift : Z) : Z :=
  shl32 (Z.land src (field_mask from_bit num_bits)) shift.

Definition sign_extend_16 (src : Z) : Z := sign_extend (Z.land src 0x0000ffff) 16.
Definition sign_extend_8 (src : Z) : Z := sign_extend (Z.land src 0x000000ff) 8.
Definition zero_extend_16 (src : Z) : Z := Z.land src 0x0000ffff.
Definition zero_extend_8 (src : Z) : Z := Z.land src 0x000000ff.

Definition get_formal_rs1 (src : Z) : Z := get_bits_and_align_right src 15 5.
Definition get_formal_rs2 (src : Z) : Z := get_bits_and_align_right src 20 5.

(** ** opcode_formats *)

Definition get_opcode (src : Z) : Z := Z.land src 0x7f.
Definition get_rd (src : Z) : Z := Z.land (Z.shiftr src 7) 0x1f.

Module RTypeOpcode.
Definition rs1 (src : Z) : Z := get_bits_and_align_right src 15 5.
Definition rs2 (src : Z) : Z := get_bits_and_align_right src 20 5.
Definition funct3 (src : Z) : Z := get_bits_and_align_right src 12 3.
Definition funct7 (src : Z) : Z := get_bits_and_align_right src 25 7.
End RTypeOpcode.

Module ITypeOpcode.
Definition rs1 (src : Z) : Z := get_bits_and_align_right src 15 5.
Definition funct3 (src : Z) : Z := get_bits_and_align_right src 12 3.
Definition imm (src : Z) : Z := get_bits_and_align_right src 20 12.
End ITypeOpcode.

Module STypeOpcode.
Definition rs1 (src : Z) : Z := get_bits_and_align_right src 15 5.
Definition rs2 (src : Z) : Z := get_bits_and_align_right src 20 5.
Definition funct3 (src : Z) : Z := get_bits_and_align_right src 12 3.
Definition imm (src : Z) : Z :=
  Z.lor (get_bits_and_align_right src 7 5) (get_bits_and_shift_right src 25 7 (25 - 5)).
End STypeOpcode.

Module BTypeOpcode.
Definition rs1 (src : Z) : Z := get_bits_and_align_right src 15 5.
Definition rs2 (src : Z) : Z := get_bits_and_align_right src 20 5.
Definition funct3 (src : Z) : Z := get_bits_and_align_right src 12 3.
Definition imm (src : Z) : Z :=
  Z.lor (Z.lor (Z.lor (get_bits_and_shift_right src 8 4 (8 - 1))
                      (get_bits_and_shift_right src 25 6 (25 - 5)))
               (get_bits_and_shift_left src 7 1 (11 - 7)))
        (get_bits_and_shift_right src 31 1 (31 - 12)).
End BTypeOpcode.

Module UTypeOpcode.
Definition imm (src : Z) : Z := get_bits_and_shift_right src 12 20 0.
End UTypeOpcode.

Module JTypeOpcode.
Definition imm (src : Z) : Z :=
  Z.lor (Z.lor (Z.lor (get_bits_and_shift_right src 21 10 (21 - 1))
                      (get_bits_and_shift_right src 20 1 (20 - 11)))
               (get_bits_and_shift_right src 12 8 0))
        (get_bits_and_shift_right src 31 1 (31 - 20)).
End JTypeOpcode.

(** ** decoder_utils.rs *)

Definition OP_IMM_SUBMASK : Z := 0x13.
Definition OP_SUBMASK : Z := 0x33.
Definition OPCODE_LUI : Z := 0x37.
Definition OPCODE_AUIPC : Z := 0x17.
Definition OPCODE_JAL : Z := 0x6f.
Definition OPCODE_JALR : Z := 0x67.
Definition OPCODE_BRANCH : Z := 0x63.
Definition OPCODE_LOAD : Z := 0x03.
Definition OPCODE_STORE : Z := 0x23.
Definition OPCODE_SYSTEM : Z := 0x73.

Definition SUB_FUNCT7 : Z := 0x20.
Definition SLL_FUNCT7 : Z := 0.
Definition SRL_FUNCT7 : Z := 0.
Definition SRA_FUNCT7 : Z := 0x20.
Definition ROT_FUNCT7 : Z := 0x30.
Definition M_EXT_FUNCT7 : Z := 1.

Definition funct3_bits (src : Z) : Z := u8 (Z.land (Z.shiftr src 12) 7).
Definition funct7_bits (src : Z) : Z := u8 (Z.land (Z.shiftr src 25) 0x7f).
Definition get_opcode_bits (src : Z) : Z := u8 (Z.land src 0x7f).
Definition get_rd_bits (src : Z) : Z := u8 (Z.land (Z.shiftr src 7) 0x1f).
Definition get_formal_rs1_bits (src : Z) : Z := u8 (Z.land (Z.shiftr src 15) 0x1f).
Definition get_formal_rs2_bits (src : Z) : Z := u8 (Z.land (Z.shiftr src 20) 0x1f).

Definition formally_parse_rs1_rs2_rd_props_for_tracer (opcode : Z) : Z * Z * Z :=
  let rd := get_rd_bits opcode in
  let formal_rs1 := get_formal_rs1_bits opcode in
  let formal_rs2 := get_formal_rs2_bits opcode in
  let op := get_opcode_bits opcode in
  let rd := if op =? OPCODE_BRANCH then 0 else rd in
  (formal_rs1, formal_rs2, rd).

(** ** Meaning of the bit fields *)

Lemma field_mask_spec from n :
  0 <= from -> 0 <= n -> from + n <= 32 -> field_mask from n = Z.shiftl (Z.ones n) from.
Proof.
  intros Hf Hn Hs. unfold field_mask, shl32, wsub. rewrite u32_sub_l.
  rewrite Z.shiftl_1_l.
  assert (Hn' : 0 < 2 ^ n) by (apply Z.pow_pos_nonneg; lia).
  assert (Hfp : 0 < 2 ^ from) by (apply Z.pow_pos_nonneg; lia).
  assert (Hp : 2 ^ from * 2 ^ n <= 2 ^ 32)
    by (rewrite <- Z.pow_add_r by lia; apply Z.pow_le_mono_r; lia).
  assert (2 ^ n <= 2 ^ 32) by (apply Z.pow_le_mono_r; lia).
  rewrite Z.ones_equiv, <- Z.sub_1_r.
  rewrite (u32_small (2 ^ n - 1)) by (unfold is_u32; lia).
  rewrite u32_small; [reflexivity|].
  unfold is_u32. rewrite Z.shiftl_mul_pow2 by lia. nia.
Qed.

Lemma land_field_mask src from n :
  0 <= from -> 0 <= n -> from + n <= 32 ->
  Z.land src (field_mask from n) = Z.shiftl (Z.land (Z.shiftr src from) (Z.ones n)) from.
Proof.
  intros Hf Hn Hs. rewrite field_mask_spec by lia.
  apply Z.bits_inj'. intros i Hi.
  rewrite Z.land_spec, !Z.shiftl_spec by lia.
  destruct (Z.lt_ge_cases i from).
  - rewrite !(Z.testbit_neg_r _ (i - from)) by lia. btauto.
  - rewrite Z.land_spec, Z.shiftr_spec by lia.
    replace (i - from + from) with i by lia. reflexivity.
Qed.

(** [get_bits_and_align_right] is the bit slice of the manual. *)
Lemma get_bits_and_align_right_spec src from n :
  0 <= from -> 0 <= n -> from + n <= 32 ->
  get_bits_and_align_right src from n = (src / 2 ^ from) mod 2 ^ n.
Proof.
  intros Hf Hn Hs. unfold get_bits_and_align_right.
  rewrite land_field_mask by lia.
  rewrite Z.shiftr_shiftl_l, Z.sub_diag, Z.shiftl_0_r by lia.
  rewrite Z.land_ones, Z.shiftr_div_pow2 by lia. reflexivity.
Qed.

Lemma get_bits_and_align_right_range src from n :
  0 <= from -> 0 <= n -> from + n <= 32 ->
  0 <= get_bits_and_align_right src from n < 2 ^ n.
Proof.
  intros. rewrite get_bits_and_align_right_spec by lia.
  apply Z.mod_pos_bound, Z.pow_pos_nonneg; lia.
Qed.

Lemma land_mask_mod x k m : 0 <= k -> m = 2 ^ k - 1 -> Z.land x m = x mod 2 ^ k.
Proof. intros Hk ->. apply land_ones_mod. auto. Qed.

(** The byte-sized accessors of [decoder_utils.rs] agree with the word-sized
    ones of [opcode_formats]. *)
Lemma u8_small x : 0 <= x < 256 -> u8 x = x.
Proof. apply Z.mod_small. Qed.

Lemma u8_land x m k : 0 <= k <= 8 -> m = 2 ^ k - 1 -> u8 (Z.land x m) = x mod 2 ^ k.
Proof.
  intros Hk Hm. rewrite (land_mask_mod x k m) by (lia || auto).
  pose proof (Z.mod_pos_bound x (2 ^ k) ltac:(apply Z.pow_pos_nonneg; lia)).
  assert (2 ^ k <= 2 ^ 8) by (apply Z.pow_le_mono_r; lia).
  apply u8_small. lia.
Qed.

Ltac field_agree k :=
  intros; rewrite ?get_bits_and_align_right_spec by lia;
  rewrite ?(u8_land _ _ k), ?(land_mask_mod _ k) by (lia || reflexivity);
  rewrite ?Z.shiftr_div_pow2 by lia; reflexivity.

Lemma funct3_bits_spec src : funct3_bits src = (src / 2 ^ 12) mod 2 ^ 3.
Proof. unfold funct3_bits. field_agree 3. Qed.
Lemma funct7_bits_spec src : funct7_bits src = (src / 2 ^ 25) mod 2 ^ 7.
Proof. unfold funct7_bits. field_agree 7. Qed.
Lemma get_opcode_bits_spec src : get_opcode_bits src = src mod 2 ^ 7.
Proof. unfold get_opcode_bits. field_agree 7. Qed.
Lemma get_rd_bits_spec src : get_rd_bits src = (src / 2 ^ 7) mod 2 ^ 5.
Proof. unfold get_rd_bits. field_agree 5. Qed.
Lemma get_formal_rs1_bits_spec src : get_formal_rs1_bits src = (src / 2 ^ 15) mod 2 ^ 5.
Proof. unfold get_formal_rs1_bits. field_agree 5. Qed.
Lemma get_formal_rs2_bits_spec src : get_formal_rs2_bits src = (src / 2 ^ 20) mod 2 ^ 5.
Proof. unfold get_formal_rs2_bits. field_agree 5. Qed.

Lemma funct3_agree src : RTypeOpcode.funct3 src = funct3_bits src.
Proof. rewrite funct3_bits_spec. unfold RTypeOpcode.funct3. field_agree 3. Qed.
Lemma funct7_agree src : RTypeOpcode.funct7 src = funct7_bits src.
Proof. rewrite funct7_bits_spec. unfold RTypeOpcode.funct7. field_agree 7. Qed.
Lemma opcode_agree src : Z.land src 0x7f = get_opcode_bits src.
Proof. rewrite get_opcode_bits_spec. field_agree 7. Qed.
Lemma rd_agree src : get_rd src = get_rd_bits src.
Proof. rewrite get_rd_bits_spec. unfold get_rd. field_agree 5. Qed.
Lemma rs1_agree src : get_formal_rs1 src = get_formal_rs1_bits src.
Proof. rewrite get_formal_rs1_bits_spec. unfold get_formal_rs1. field_agree 5. Qed.
Lemma rs2_agree src : get_formal_rs2 src = get_formal_rs2_bits src.
Proof. rewrite get_formal_rs2_bits_spec. unfold get_formal_rs2. field_agree 5. Qed.

Lemma mod_range x k : 0 <= k -> 0 <= x mod 2 ^ k < 2 ^ k.
Proof. intros. apply Z.mod_pos_bound, Z.pow_pos_nonneg; lia. Qed.

Lemma funct3_bits_range src : 0 <= funct3_bits src < 8.
Proof. rewrite funct3_bits_spec. apply mod_range; lia. Qed.
Lemma funct7_bits_range src : 0 <= funct7_bits src < 128.
Proof. rewrite funct7_bits_spec. apply mod_range; lia. Qed.
Lemma get_opcode_bits_range src : 0 <= get_opcode_bits src < 128.
Proof. rewrite get_opcode_bits_spec. apply mod_range; lia. Qed.
Lemma get_rd_bits_range src : 0 <= get_rd_bits src < 32.
Proof. rewrite get_rd_bits_spec. apply mod_range; lia. Qed.
Lemma get_formal_rs1_bits_range src : 0 <= get_formal_rs1_bits src < 32.
Proof. rewrite get_formal_rs1_bits_spec. apply mod_range; lia. Qed.
Lemma get_formal_rs2_bits_range src : 0 <= get_formal_rs2_bits src < 32.
Proof. rewrite get_formal_rs2_bits_spec. apply mod_range; lia. Qed.

(** ** Sign extension *)

Lemma lor_add_disjoint a b k :
  0 <= k -> 0 <= a < 2 ^ k -> 0 <= b -> Z.lor a (b * 2 ^ k) = a + b * 2 ^ k.
Proof.
  intros Hk Ha Hb. rewrite <- Z.lxor_lor, <- Z.add_nocarry_lxor; [reflexivity| |];
    rewrite <- Z.shiftl_mul_pow2 by lia; apply Z.bits_inj'; intros i Hi;
    rewrite Z.land_spec, Z.bits_0, Z.shiftl_spec by lia;
    (destruct (Z.lt_ge_cases i k);
     [ rewrite (Z.testbit_neg_r _ (i - k)) by lia; btauto
     | rewrite (testbit_high k a i) by lia; reflexivity ]).
Qed.

Lemma not32_spec x : is_u32 x -> not32 x = 2 ^ 32 - 1 - x.
Proof.
  intros Hx. unfold not32, u32, is_u32 in *. rewrite Z.lnot_eq_pred_opp.
  replace (- x - 1) with ((2 ^ 32 - 1 - x) + (-1) * 2 ^ 32) by lia.
  rewrite Z.mod_add by lia. apply Z.mod_small. lia.
Qed.

Lemma land_pow2_eq0 x k : 0 <= k -> (Z.land x (2 ^ k) =? 0) = negb (Z.testbit x k).
Proof.
  intros Hk. destruct (Z.eqb_spec (Z.land x (2 ^ k)) 0) as [E | E];
    destruct (Z.testbit x k) eqn:T; auto; exfalso.
  - apply (f_equal (fun z => Z.testbit z k)) in E.
    rewrite Z.land_spec, T, Z.pow2_bits_true, Z.bits_0 in E by lia. discriminate.
  - apply E. apply Z.bits_inj'. intros i Hi. rewrite Z.land_spec, Z.bits_0.
    destruct (Z.eq_dec i k) as [-> | Hne].
    + rewrite T. reflexivity.
    + rewrite Z.pow2_bits_false by lia. btauto.
Qed.

Lemma testbit_top x k : 0 < k -> 0 <= x < 2 ^ k -> Z.testbit x (k - 1) = (2 ^ (k - 1) <=? x).
Proof.
  intros Hk Hx.
  assert (E : 2 ^ k = 2 * 2 ^ (k - 1))
    by (rewrite <- Z.pow_succ_r by lia; f_equal; lia).
  assert (0 < 2 ^ (k - 1)) by (apply Z.pow_pos_nonneg; lia).
  destruct (Z.leb_spec (2 ^ (k - 1)) x).
  - apply Z.testbit_true; [lia|].
    replace (x / 2 ^ (k - 1)) with 1; [reflexivity|].
    apply Z.div_unique with (x - 2 ^ (k - 1)); lia.
  - apply Z.testbit_false; [lia|]. rewrite Z.div_small by lia. reflexivity.
Qed.

(** [sign_extend] turns a [k]-bit two's complement field into a word. *)
Lemma sign_extend_spec x k :
  0 < k <= 31 -> 0 <= x < 2 ^ k ->
  sign_extend x k = u32 (if x <? 2 ^ (k - 1) then x else x - 2 ^ k).
Proof.
  intros Hk Hx. unfold sign_extend, shl32 at 1.
  assert (Hb : forall j, 0 <= j <= 31 -> u32 (Z.shiftl 1 j) = 2 ^ j).
  { intros j Hj. rewrite Z.shiftl_1_l. apply u32_small. unfold is_u32.
    pose proof (Z.pow_pos_nonneg 2 j). pose proof (Z.pow_lt_mono_r 2 j 32). lia. }
  rewrite Hb, land_pow2_eq0, negb_involutive, testbit_top by lia.
  assert (Hk2 : 0 < 2 ^ k) by (apply Z.pow_pos_nonneg; lia).
  assert (Hk3 : 2 ^ k < 2 ^ 32) by (apply Z.pow_lt_mono_r; lia).
  destruct (Z.leb_spec (2 ^ (k - 1)) x); destruct (Z.ltb_spec x (2 ^ (k - 1))); try lia.
  - unfold wsub, shl32. rewrite Hb by lia.
    rewrite (u32_small (2 ^ k - 1)) by (unfold is_u32; lia).
    rewrite not32_spec by (unfold is_u32; lia).
    replace (2 ^ 32 - 1 - (2 ^ k - 1)) with ((2 ^ (32 - k) - 1) * 2 ^ k).
    + rewrite lor_add_disjoint.
      * rewrite Z.mul_sub_distr_r, <- Z.pow_add_r by lia.
        replace (32 - k + k) with 32 by lia. unfold u32.
        replace (x + (2 ^ 32 - 1 * 2 ^ k)) with ((x - 2 ^ k) + 1 * 2 ^ 32) by lia.
        rewrite <- (Z.mod_add (x - 2 ^ k) 1) by lia.
        symmetry. apply Z.mod_small. lia.
      * lia.
      * lia.
      * pose proof (Z.pow_pos_nonneg 2 (32 - k)). lia.
    + rewrite Z.mul_sub_distr_r, <- Z.pow_add_r by lia.
      replace (32 - k + k) with 32 by lia. lia.
  - symmetry. apply u32_small. unfold is_u32. lia.
Qed.

(** Truncating a signed value to a field and sign-extending it gives the
    value's word. *)
Lemma sign_extend_mod v k :
  0 < k <= 31 -> - 2 ^ (k - 1) <= v < 2 ^ (k - 1) ->
  sign_extend (v mod 2 ^ k) k = u32 v.
Proof.
  intros Hk Hv.
  assert (E : 2 ^ k = 2 * 2 ^ (k - 1)) by (rewrite <- Z.pow_succ_r by lia; f_equal; lia).
  rewrite sign_extend_spec by (lia || apply mod_range; lia).
  destruct (Z.lt_ge_cases v 0).
  - replace (v mod 2 ^ k) with (v + 2 ^ k).
    + destruct (Z.ltb_spec (v + 2 ^ k) (2 ^ (k - 1))); [lia|]. f_equal. lia.
    + apply Z.mod_unique with (-1); lia.
  - rewrite Z.mod_small by lia. destruct (Z.ltb_spec v (2 ^ (k - 1))); [reflexivity|lia].
Qed.

Lemma sign_extend_range x k : 0 < k <= 31 -> 0 <= x < 2 ^ k -> is_u32 (sign_extend x k).
Proof. intros. rewrite sign_extend_spec by auto. apply u32_range. Qed.

(** ** Immediates as sums of fields *)

Lemma get_bits_and_shift_right_spec src from n shift :
  0 <= shift <= from -> 0 <= n -> from + n <= 32 ->
  get_bits_and_shift_right src from n shift = ((src / 2 ^ from) mod 2 ^ n) * 2 ^ (from - shift).
Proof.
  intros Hf Hn Hs. unfold get_bits_and_shift_right. rewrite land_field_mask by lia.
  rewrite Z.shiftr_shiftl_l, Z.shiftl_mul_pow2 by lia.
  rewrite Z.land_ones, Z.shiftr_div_pow2 by lia. reflexivity.
Qed.

Lemma get_bits_and_shift_left_spec src from n shift :
  0 <= from -> 0 <= shift -> 0 <= n -> from + n + shift <= 32 ->
  get_bits_and_shift_left src from n shift = ((src / 2 ^ from) mod 2 ^ n) * 2 ^ (from + shift).
Proof.
  intros Hf Hsh Hn Hs. unfold get_bits_and_shift_left. rewrite land_field_mask by lia.
  unfold shl32. rewrite Z.shiftl_shiftl, Z.shiftl_mul_pow2 by lia.
  rewrite Z.land_ones, Z.shiftr_div_pow2 by lia.
  apply u32_small. unfold is_u32. pose proof (mod_range (src / 2 ^ from) n Hn).
  assert (0 < 2 ^ (from + shift)) by (apply Z.pow_pos_nonneg; lia).
  assert (2 ^ n * 2 ^ (from + shift) <= 2 ^ 32)
    by (rewrite <- Z.pow_add_r by lia; apply Z.pow_le_mono_r; lia).
  nia.
Qed.

Lemma BTypeOpcode_imm_spec src :
  BTypeOpcode.imm src =
    ((src / 2 ^ 8) mod 2 ^ 4) * 2 + ((src / 2 ^ 25) mod 2 ^ 6) * 2 ^ 5
    + ((src / 2 ^ 7) mod 2 ^ 1) * 2 ^ 11 + ((src / 2 ^ 31) mod 2 ^ 1) * 2 ^ 12.
Proof.
  unfold BTypeOpcode.imm.
  rewrite !get_bits_and_shift_right_spec, get_bits_and_shift_left_spec by lia.
  pose proof (mod_range (src / 2 ^ 8) 4 ltac:(lia)).
  pose proof (mod_range (src / 2 ^ 25) 6 ltac:(lia)).
  pose proof (mod_range (src / 2 ^ 7) 1 ltac:(lia)).
  pose proof (mod_range (src / 2 ^ 31) 1 ltac:(lia)).
  change (8 - (8 - 1)) with 1. change (25 - (25 - 5)) with 5.
  change (7 + (11 - 7)) with 11. change (31 - (31 - 12)) with 12.
  rewrite (lor_add_disjoint _ _ 5), (lor_add_disjoint _ _ 11), (lor_add_disjoint _ _ 12) by lia.
  lia.
Qed.

Lemma JTypeOpcode_imm_spec src :
  JTypeOpcode.imm src =
    ((src / 2 ^ 21) mod 2 ^ 10) * 2 + ((src / 2 ^ 20) mod 2 ^ 1) * 2 ^ 11
    + ((src / 2 ^ 12) mod 2 ^ 8) * 2 ^ 12 + ((src / 2 ^ 31) mod 2 ^ 1) * 2 ^ 20.
Proof.
  unfold JTypeOpcode.imm.
  rewrite !get_bits_and_shift_right_spec by lia.
  pose proof (mod_range (src / 2 ^ 21) 10 ltac:(lia)).
  pose proof (mod_range (src / 2 ^ 20) 1 ltac:(lia)).
  pose proof (mod_range (src / 2 ^ 12) 8 ltac:(lia)).
  pose proof (mod_range (src / 2 ^ 31) 1 ltac:(lia)).
  change (21 - (21 - 1)) with 1. change (20 - (20 - 11)) with 11.
  change (12 - 0) with 12. change (31 - (31 - 20)) with 20.
  rewrite (lor_add_disjoint _ _ 11), (lor_add_disjoint _ _ 12), (lor_add_disjoint _ _ 20) by lia.
  lia.
Qed.

Lemma STypeOpcode_imm_spec src :
  STypeOpcode.imm src = (src / 2 ^ 7) mod 2 ^ 5 + ((src / 2 ^ 25) mod 2 ^ 7) * 2 ^ 5.
Proof.
  unfold STypeOpcode.imm.
  rewrite get_bits_and_shift_right_spec, get_bits_and_align_right_spec by lia.
  pose proof (mod_range (src / 2 ^ 7) 5 ltac:(lia)).
  pose proof (mod_range (src / 2 ^ 25) 7 ltac:(lia)).
  change (25 - (25 - 5)) with 5. rewrite (lor_add_disjoint _ _ 5) by lia. reflexivity.
Qed.

Lemma UTypeOpcode_imm_spec src :
  UTypeOpcode.imm src = ((src / 2 ^ 12) mod 2 ^ 20) * 2 ^ 12.
Proof. unfold UTypeOpcode.imm. apply get_bits_and_shift_right_spec; lia. Qed.

Lemma ITypeOpcode_imm_spec src : ITypeOpcode.imm src = (src / 2 ^ 20) mod 2 ^ 12.
Proof. unfold ITypeOpcode.imm. apply get_bits_and_align_right_spec; lia. Qed.

(** ** The encodings of the RISC-V manual

    An instruction word written as the sum of its shifted fields, per format;
    [imm] is the signed immediate. *)
Module Encode.
Definition r_type (op rd f3 rs1 rs2 f7 : Z) : Z :=
  op + rd * 2 ^ 7 + f3 * 2 ^ 12 + rs1 * 2 ^ 15 + rs2 * 2 ^ 20 + f7 * 2 ^ 25.
Definition i_type (op rd f3 rs1 imm : Z) : Z :=
  op + rd * 2 ^ 7 + f3 * 2 ^ 12 + rs1 * 2 ^ 15 + (imm mod 2 ^ 12) * 2 ^ 20.
Definition s_type (op f3 rs1 rs2 imm : Z) : Z :=
  op + (imm mod 2 ^ 5) * 2 ^ 7 + f3 * 2 ^ 12 + rs1 * 2 ^ 15 + rs2 * 2 ^ 20
  + ((imm / 2 ^ 5) mod 2 ^ 7) * 2 ^ 25.
Definition b_type (op f3 rs1 rs2 imm : Z) : Z :=
  op + ((imm / 2 ^ 11) mod 2 ^ 1) * 2 ^ 7 + ((imm / 2) mod 2 ^ 4) * 2 ^ 8
  + f3 * 2 ^ 12 + rs1 * 2 ^ 15 + rs2 * 2 ^ 20
  + ((imm / 2 ^ 5) mod 2 ^ 6) * 2 ^ 25 + ((imm / 2 ^ 12) mod 2 ^ 1) * 2 ^ 31.
Definition u_type (op rd imm : Z) : Z :=
  op + rd * 2 ^ 7 + ((imm / 2 ^ 12) mod 2 ^ 20) * 2 ^ 12.
Definition j_type (op rd imm : Z) : Z :=
  op + rd * 2 ^ 7 + ((imm / 2 ^ 12) mod 2 ^ 8) * 2 ^ 12 + ((imm / 2 ^ 11) mod 2 ^ 1) * 2 ^ 20
  + ((imm / 2) mod 2 ^ 10) * 2 ^ 21 + ((imm / 2 ^ 20) mod 2 ^ 1) * 2 ^ 31.
End Encode.

(** Reading one field of a positional sum. *)
Lemma slice_eq src lo f hi from n :
  0 <= from -> 0 <= n -> 0 <= lo < 2 ^ from -> 0 <= f < 2 ^ n ->
  src = lo + 2 ^ from * (f + 2 ^ n * hi) -> (src / 2 ^ from) mod 2 ^ n = f.
Proof.
  intros Hf Hn Hlo Hff ->.
  assert (0 < 2 ^ from) by (apply Z.pow_pos_nonneg; lia).
  rewrite (Z.add_comm lo), (Z.mul_comm (2 ^ from)), Z.div_add_l by lia.
  rewrite (Z.div_small lo) by lia. rewrite Z.add_0_r, (Z.mul_comm (2 ^ n)).
  rewrite Z.mod_add by (pose proof (Z.pow_pos_nonneg 2 n); lia). apply Z.mod_small. auto.
Qed.

(** A signed immediate is the sum of the pieces the B format scatters. *)
Lemma b_pieces v :
  v mod 2 = 0 ->
  ((v / 2) mod 2 ^ 4) * 2 + ((v / 2 ^ 5) mod 2 ^ 6) * 2 ^ 5
  + ((v / 2 ^ 11) mod 2 ^ 1) * 2 ^ 11 + ((v / 2 ^ 12) mod 2 ^ 1) * 2 ^ 12 = v mod 2 ^ 13.
Proof. intros. Z.div_mod_to_equations. lia. Qed.

Lemma j_pieces v :
  v mod 2 = 0 ->
  ((v / 2) mod 2 ^ 10) * 2 + ((v / 2 ^ 11) mod 2 ^ 1) * 2 ^ 11
  + ((v / 2 ^ 12) mod 2 ^ 8) * 2 ^ 12 + ((v / 2 ^ 20) mod 2 ^ 1) * 2 ^ 20 = v mod 2 ^ 21.
Proof. intros. Z.div_mod_to_equations. lia. Qed.

Lemma s_pieces v : v mod 2 ^ 5 + ((v / 2 ^ 5) mod 2 ^ 7) * 2 ^ 5 = v mod 2 ^ 12.
Proof. Z.div_mod_to_equations. lia. Qed.

(** Evaluate a bit field of an encoded word. *)
Ltac encoded_field :=
  repeat match goal with
  | |- context [?v mod ?m] =>
      lazymatch v with
      | context [Z.div (Z.add _ _) _] => fail
      | context [Z.add _ _] => fail
      | _ => let x := fresh "x" in let E := fresh "Ex" in
             assert (E : 0 <= v mod m < m) by (apply Z.mod_pos_bound; reflexivity);
             set (x := v mod m) in *; clearbody x
      end
  end;
  Z.div_mod_to_equations; lia.

Section Roundtrip.
Context (op rd f3 rs1 rs2 f7 imm : Z).
Hypothesis Hop : 0 <= op < 128.
Hypothesis Hrd : 0 <= rd < 32.
Hypothesis Hf3 : 0 <= f3 < 8.
Hypothesis Hrs1 : 0 <= rs1 < 32.
Hypothesis Hrs2 : 0 <= rs2 < 32.
Hypothesis Hf7 : 0 <= f7 < 128.

Lemma b_type_imm :
  - 2 ^ 12 <= imm < 2 ^ 12 -> imm mod 2 = 0 ->
  sign_extend (BTypeOpcode.imm (Encode.b_type op f3 rs1 rs2 imm)) 13 = u32 imm.
Proof. clear Hrd Hf7.
  intros Hi He. rewrite BTypeOpcode_imm_spec. unfold Encode.b_type.
  rewrite <- (sign_extend_mod imm 13), <- (b_pieces imm) by (auto; lia).
  f_equal. f_equal; [f_equal; [f_equal|]|]; f_equal; encoded_field.
Qed.

Lemma j_type_imm :
  - 2 ^ 20 <= imm < 2 ^ 20 -> imm mod 2 = 0 ->
  sign_extend (JTypeOpcode.imm (Encode.j_type op rd imm)) 21 = u32 imm.
Proof. clear Hf3 Hrs1 Hrs2 Hf7.
  intros Hi He. rewrite JTypeOpcode_imm_spec. unfold Encode.j_type.
  rewrite <- (sign_extend_mod imm 21), <- (j_pieces imm) by (auto; lia).
  f_equal. f_equal; [f_equal; [f_equal|]|]; f_equal; encoded_field.
Qed.

Lemma s_type_imm :
  - 2 ^ 11 <= imm < 2 ^ 11 ->
  sign_extend (STypeOpcode.imm (Encode.s_type op f3 rs1 rs2 imm)) 12 = u32 imm.
Proof. clear Hrd Hf7.
  intros Hi. rewrite STypeOpcode_imm_spec. unfold Encode.s_type.
  rewrite <- (sign_extend_mod imm 12), <- (s_pieces imm) by (auto; lia).
  f_equal. f_equal; [|f_equal]; encoded_field.
Qed.

Lemma i_type_imm_raw :
  ITypeOpcode.imm (Encode.i_type op rd f3 rs1 imm) = imm mod 2 ^ 12.
Proof. clear Hrs2 Hf7. rewrite ITypeOpcode_imm_spec. unfold Encode.i_type. encoded_field. Qed.

Lemma i_type_imm :
  - 2 ^ 11 <= imm < 2 ^ 11 ->
  sign_extend (ITypeOpcode.imm (Encode.i_type op rd f3 rs1 imm)) 12 = u32 imm.
Proof. clear Hrs2 Hf7. intros. rewrite i_type_imm_raw. apply sign_extend_mod; lia. Qed.

Lemma u_type_imm :
  0 <= imm < 2 ^ 32 -> imm mod 2 ^ 12 = 0 ->
  UTypeOpcode.imm (Encode.u_type op rd imm) = imm.
Proof. clear Hf3 Hrs1 Hrs2 Hf7.
  intros Hi He. rewrite UTypeOpcode_imm_spec. unfold Encode.u_type.
  rewrite <- (Z.mod_small imm (2 ^ 32)) at 2 by lia.
  transitivity ((imm / 2 ^ 12) mod 2 ^ 20 * 2 ^ 12).
  - f_equal. encoded_field.
  - Z.div_mod_to_equations. lia.
Qed.

Lemma r_type_fields :
  let w := Encode.r_type op rd f3 rs1 rs2 f7 in
  get_opcode_bits w = op /\ get_rd_bits w = rd /\ funct3_bits w = f3 /\
  get_formal_rs1_bits w = rs1 /\ get_formal_rs2_bits w = rs2 /\ funct7_bits w = f7.
Proof.
  cbv zeta. rewrite get_opcode_bits_spec, get_rd_bits_spec, funct3_bits_spec,
    get_formal_rs1_bits_spec, get_formal_rs2_bits_spec, funct7_bits_spec.
  unfold Encode.r_type. repeat split; encoded_field.
Qed.

Lemma i_type_fields :
  let w := Encode.i_type op rd f3 rs1 imm in
  get_opcode_bits w = op /\ get_rd_bits w = rd /\ funct3_bits w = f3 /\
  get_formal_rs1_bits w = rs1.
Proof. clear Hrs2 Hf7.
  cbv zeta. rewrite get_opcode_bits_spec, get_rd_bits_spec, funct3_bits_spec,
    get_formal_rs1_bits_spec.
  unfold Encode.i_type. repeat split; encoded_field.
Qed.

Lemma s_type_fields :
  let w := Encode.s_type op f3 rs1 rs2 imm in
  get_opcode_bits w = op /\ funct3_bits w = f3 /\
  get_formal_rs1_bits w = rs1 /\ get_formal_rs2_bits w = rs2.
Proof. clear Hrd Hf7.
  cbv zeta. rewrite get_opcode_bits_spec, funct3_bits_spec,
    get_formal_rs1_bits_spec, get_formal_rs2_bits_spec.
  unfold Encode.s_type. repeat split; encoded_field.
Qed.

Lemma b_type_fields :
  let w := Encode.b_type op f3 rs1 rs2 imm in
  get_opcode_bits w = op /\ funct3_bits w = f3 /\
  get_formal_rs1_bits w = rs1 /\ get_formal_rs2_bits w = rs2.
Proof. clear Hrd Hf7.
  cbv zeta. rewrite get_opcode_bits_spec, funct3_bits_spec,
    get_formal_rs1_bits_spec, get_formal_rs2_bits_spec.
  unfold Encode.b_type. repeat split; encoded_field.
Qed.

Lemma u_type_fields :
  let w := Encode.u_type op rd imm in get_opcode_bits w = op /\ get_rd_bits w = rd.
Proof. clear Hf3 Hrs1 Hrs2 Hf7.
  cbv zeta. rewrite get_opcode_bits_spec, get_rd_bits_spec.
  unfold Encode.u_type. repeat split; encoded_field.
Qed.

Lemma j_type_fields :
  let w := Encode.j_type op rd imm in get_opcode_bits w = op /\ get_rd_bits w = rd.
Proof. clear Hf3 Hrs1 Hrs2 Hf7.
  cbv zeta. rewrite get_opcode_bits_spec, get_rd_bits_spec.
  unfold Encode.j_type. repeat split; encoded_field.
Qed.
End Roundtrip.

(** ** Main theorem *)

(** Every immediate of the five formats survives encoding and decoding: the
    decoder reassembles the scattered bits and sign-extends them to the
    two's-complement word of the signed immediate, whatever the other fields. *)
Theorem immediates_roundtrip op rd f3 rs1 rs2 imm :
  0 <= op < 128 -> 0 <= rd < 32 -> 0 <= f3 < 8 -> 0 <= rs1 < 32 -> 0 <= rs2 < 32 ->
  (- 2 ^ 12 <= imm < 2 ^ 12 -> imm mod 2 = 0 ->
     sign_extend (BTypeOpcode.imm (Encode.b_type op f3 rs1 rs2 imm)) 13 = u32 imm) /\
  (- 2 ^ 20 <= imm < 2 ^ 20 -> imm mod 2 = 0 ->
     sign_extend (JTypeOpcode.imm (Encode.j_type op rd imm)) 21 = u32 imm) /\
  (- 2 ^ 11 <= imm < 2 ^ 11 ->
     sign_extend (STypeOpcode.imm (Encode.s_type op f3 rs1 rs2 imm)) 12 = u32 imm /\
     sign_extend (ITypeOpcode.imm (Encode.i_type op rd f3 rs1 imm)) 12 = u32 imm) /\
  (0 <= imm < 2 ^ 32 -> imm mod 2 ^ 12 = 0 ->
     UTypeOpcode.imm (Encode.u_type op rd imm) = imm).
Proof.
  intros Hop Hrd Hf3 Hrs1 Hrs2. split_and!; auto using b_type_imm, j_type_imm, u_type_imm.
  intros Hi. auto using s_type_imm, i_type_imm.
Qed.

Lemma immediates_roundtrip_witness :
  sign_extend (BTypeOpcode.imm (Encode.b_type 0x63 1 2 3 (-8))) 13 = 2 ^ 32 - 8 /\
  sign_extend (ITypeOpcode.imm (Encode.i_type 0x13 31 1 2 (-8))) 12 = 2 ^ 32 - 8 /\
  UTypeOpcode.imm (Encode.u_type 0x37 31 0x12345000) = 0x12345000.
Proof.
  destruct (immediates_roundtrip 0x63 0 1 2 3 (-8)) as (Hb & _); try lia.
  destruct (immediates_roundtrip 0x13 31 1 2 0 (-8)) as (_ & _ & Hi & _); try lia.
  destruct (immediates_roundtrip 0x37 31 0 0 0 0x12345000) as (_ & _ & _ & Hu); try lia.
  split; [rewrite Hb; [reflexivity | lia | reflexivity]|].
  split; [destruct Hi as [_ Hi]; [lia|]; rewrite Hi; reflexivity|].
  apply Hu; [lia | reflexivity].
Defined.
