(* ===== verification/Field.v ===== *)
(** * The Mersenne31 field

    [src/field/src/ops.rs] (modular arithmetic on words), [base.rs] (the
    field element), [field.rs] (the [Field] trait and its default methods) and
    the batch inversion of [lib.rs], for the default features; module [Rv]
    holds the [_ct] versions that a RISC-V build evaluates.

    A field element is its [u32]; the representation is not canonical, zero is
    0 or the modulus.  The abstract field is the standard library's [Zmod], and
    [fval] the element a representation stands for.  [FieldOps] is the trait,
    [LawfulField] what an implementation of it promises; the generic
    algorithms are proved against that interface. *)
From stdpp Require Import base list strings.
From Stdlib Require Import ZArith Lia Zmod.
From S2P Require Import Prelude MachineInt Decoder.

(** ** ops.rs *)

Definition ORDER : Z := 2 ^ 31 - 1.
Definition MSBITMASK : Z := 2 ^ 31.

Definition add_mod (a b : Z) : Z :=
  let sum := wadd a b in
  let msb := Z.land sum (shl32 1 31) in
  let sum := Z.lxor sum msb in
  wadd sum (b2z (negb (msb =? 0))).

Definition sub_mod (a b : Z) : Z :=
  let sum := wsub a b in
  let msb := Z.land sum (shl32 1 31) in
  let sum := Z.lxor sum msb in
  wsub sum (b2z (negb (msb =? 0))).

Definition mul_mod (a b : Z) : Z :=
  let product := u64 (a * b) in
  let product_low := Z.land (u32 product) (shl32 1 31 - 1) in
  let product_high := u32 (Z.shiftr product 31) in
  add_mod product_low product_high.

Definition fma_mod (a b c : Z) : Z :=
  let product := u64 (a * b + c) in
  let product_low := Z.land (u32 product) (shl32 1 31 - 1) in
  let product_high := u32 (Z.shiftr product 31) in
  add_mod product_low product_high.

(** ** base.rs *)

Definition to_reduced_u32 (x : Z) : Z := if x =? ORDER then 0 else x.

Definition from_nonreduced_u32 (c : Z) : Z :=
  let c := if ORDER <=? c then c - ORDER else c in
  let c := if ORDER <=? c then c - ORDER else c in
  c.

Definition mul_2exp_u64 (x exp : Z) : Z :=
  let exp := u8 (exp mod 31) in
  let left := Z.land (shl32 x exp) (shl32 1 31 - 1) in
  let right := Z.shiftr x (31 - exp) in
  Z.lor left right.

Definition div_2exp_u64 (x exp : Z) : Z :=
  let exp := u8 (exp mod 31) in
  let left := Z.shiftr x exp in
  let right := Z.land (shl32 x (31 - exp)) (shl32 1 31 - 1) in
  Z.lor left right.

Definition from_negative_u64_with_reduction (x : Z) : Z :=
  let x_low := Z.land (u32 x) (shl32 1 31 - 1) in
  let x_high := Z.land (u32 (Z.shiftr x 31)) (shl32 1 31 - 1) in
  let x_sign := u32 (Z.shiftr x 63) in
  let res_wrapped := wadd x_low x_high in
  let res_wrapped := wsub res_wrapped x_sign in
  let msb := Z.land res_wrapped (shl32 1 31) in
  let sum := Z.lxor res_wrapped msb in
  let res := wadd sum (b2z (negb (msb =? 0))) in
  if ORDER <=? res then res - ORDER else res.

Definition from_u62 (x : Z) : Z :=
  let product_low := Z.land (u32 x) (shl32 1 31 - 1) in
  let product_high := u32 (Z.shiftr x 31) in
  add_mod product_low product_high.

Definition eq_impl (a b : Z) : bool := to_reduced_u32 a =? to_reduced_u32 b.
Definition is_zero_impl (x : Z) : bool := (x =? 0) || (x =? ORDER).
Definition is_one_impl (x : Z) : bool := x =? 1.
Definition square_impl (x : Z) : Z := mul_mod x x.
Definition negate_impl (x : Z) : Z := wsub ORDER x.

Definition double_impl (x : Z) : Z :=
  let sum := shl32 x 1 in
  let msb := Z.land sum MSBITMASK in
  let sum := Z.lxor sum msb in
  wadd sum (b2z (negb (msb =? 0))).

Definition mul_by_non_residue_impl (x : Z) : Z := negate_impl x.

Fixpoint exp_power_of_2_impl (x : Z) (power_log : nat) : Z :=
  match power_log with
  | O => x
  | S n => exp_power_of_2_impl (square_impl x) n
  end.

Definition inverse_impl (x : Z) : option Z :=
  if is_zero_impl x then None
  else
    let p101 := mul_mod (exp_power_of_2_impl x 2) x in
    let p1111 := mul_mod (square_impl p101) p101 in
    let p8 := mul_mod (exp_power_of_2_impl p1111 4) p1111 in
    let p111111110000 := exp_power_of_2_impl p8 4 in
    let p12 := mul_mod p111111110000 p1111 in
    let p16 := mul_mod (exp_power_of_2_impl p111111110000 4) p8 in
    let p28 := mul_mod (exp_power_of_2_impl p16 12) p12 in
    Some (mul_mod (exp_power_of_2_impl p28 3) p101).

Definition sqrt_impl (x : Z) : option Z :=
  let candidate := exp_power_of_2_impl x 29 in
  let t := square_impl candidate in
  if eq_impl t x then Some candidate else None.

(** The [PrimeField] conversions. *)
Definition as_u64 (x : Z) : Z := x.
Definition from_u64_unchecked (value : Z) : Z := u32 value.
Definition from_u64 (value : Z) : option Z :=
  if ORDER <=? u32 value then None else Some (u32 value).
Definition from_u64_with_reduction (value : Z) : Z := u32 (value mod ORDER).
Definition as_u64_reduced (x : Z) : Z := to_reduced_u32 x.
Definition as_boolean (x : Z) : bool := x =? 1.
Definition from_boolean (flag : bool) : Z := b2z flag.

(** ** The Field trait *)

Class FieldOps (F : Type) : Type := {
  ZERO : F;
  ONE : F;
  is_zero : F -> bool;
  is_one : F -> bool;
  inverse : F -> option F;
  add_assign : F -> F -> F;
  sub_assign : F -> F -> F;
  mul_assign : F -> F -> F;
  square : F -> F;
  negate : F -> F;
  double : F -> F;
}.

Definition Mersenne31Field : Type := Z.

#[export] Instance Mersenne31_ops : FieldOps Mersenne31Field := {
  ZERO := 0;
  ONE := 1;
  is_zero := is_zero_impl;
  is_one := is_one_impl;
  inverse := inverse_impl;
  add_assign := add_mod;
  sub_assign := sub_mod;
  mul_assign := mul_mod;
  square := square_impl;
  negate := negate_impl;
  double := double_impl;
}.

Section Defaults.
Context {F : Type} `{FieldOps F}.

(** [while exp > 0]: 32 iterations exhaust a [u32] exponent. *)
Fixpoint pow_loop (fuel : nat) (base result : F) (exp : Z) : F :=
  match fuel with
  | O => result
  | S fuel =>
      if 0 <? exp then
        let result := if exp mod 2 =? 1 then mul_assign result base else result in
        pow_loop fuel (square base) result (Z.shiftr exp 1)
      else result
  end.

Definition pow (x : F) (exp : Z) : F := pow_loop 32 x ONE exp.

Fixpoint exp_power_of_2 (x : F) (power_log : nat) : F :=
  match power_log with O => x | S n => exp_power_of_2 (square x) n end.

Definition fused_mul_add_assign (self a b : F) : F := add_assign (mul_assign self a) b.
Definition add_assign_product (self a b : F) : F := add_assign self (mul_assign a b).

(** ** lib.rs: batch_inverse_checked *)

(** The forward pass: the prefix products written to [tmp_buffer] after its
    first element, the final accumulator and the zero flag. *)
Fixpoint batch_forward (input : list F) (accumulator : F) (zero_encountered : bool)
    : list F * F * bool :=
  match input with
  | [] => ([], accumulator, zero_encountered)
  | el :: rest =>
      let '(acc', z') := if is_zero el then (accumulator, true)
                         else (mul_assign accumulator el, zero_encountered) in
      let '(outs, acc, z) := batch_forward rest acc' z' in
      (accumulator :: outs, acc, z)
  end.

(** The backward pass over the reversed buffers. *)
Fixpoint batch_backward (pairs : list (F * F)) (grand_inverse : F) : list F :=
  match pairs with
  | [] => []
  | (tmp, original) :: rest =>
      if is_zero original then original :: batch_backward rest grand_inverse
      else mul_assign tmp grand_inverse :: batch_backward rest (mul_assign grand_inverse original)
  end.

(** The new contents of [input] and the result; [None] is the failed
    [expect] (the buffers have equal lengths). *)
Definition batch_inverse_checked (input : list F) : option (list F * bool) :=
  match input with
  | [] => Some ([], true)
  | x :: rest =>
      let '(z0, acc0) := if is_zero x then (true, ONE) else (false, x) in
      let '(outs, accumulator, zero_encountered) := batch_forward rest acc0 z0 in
      match inverse accumulator with
      | None => None
      | Some grand_inverse =>
          let pairs := rev (combine (ONE :: outs) input) in
          Some (rev (batch_backward pairs grand_inverse), negb zero_encountered)
      end
  end.
End Defaults.

(** ** RISC-V builds *)
Module Rv.
Definition reduce_with_division_ct (value : Z) : Z := value mod ORDER.
Definition add_mod_ct (a b : Z) : Z := reduce_with_division_ct (wadd a b).
Definition sub_mod_ct (a b : Z) : Z := reduce_with_division_ct (wsub (wadd ORDER a) b).
Definition mul_mod_ct (a b : Z) : Z :=
  let product := u64 (a * b) in
  let product_low := Z.land (u32 product) (shl32 1 31 - 1) in
  let product_high := u32 (Z.shiftr product 31) in
  reduce_with_division_ct (wadd product_low product_high).
Definition fma_mod (a b c : Z) : Z := add_mod_ct c (mul_mod_ct a b).
End Rv.

(** ** Arithmetic modulo the order *)

Definition repr (x : Z) : Prop := 0 <= x <= ORDER.

Lemma msb_split s : is_u32 s ->
  Z.land s (shl32 1 31) = (if 2 ^ 31 <=? s then 2 ^ 31 else 0) /\
  Z.lxor s (Z.land s (shl32 1 31)) = (if 2 ^ 31 <=? s then s - 2 ^ 31 else s).
Proof.
  intros Hs. change (shl32 1 31) with (2 ^ 31). unfold is_u32 in Hs.
  pose proof (testbit_top s 32 ltac:(lia) Hs) as Ht. change (32 - 1) with 31 in Ht.
  pose proof (land_pow2_eq0 s 31 ltac:(lia)) as Hz. rewrite Ht in Hz.
  destruct (Z.leb_spec (2 ^ 31) s) as [Hle | Hlt]; cbn [negb] in Hz; bool_hyps.
  - assert (E : Z.land s (2 ^ 31) = 2 ^ 31).
    { apply Z.bits_inj'. intros i Hi. rewrite Z.land_spec. destruct (Z.eq_dec i 31) as [-> | Hne].
      - rewrite Ht. reflexivity.
      - rewrite Z.pow2_bits_false by lia. apply andb_false_r. }
    rewrite E. split; [reflexivity|].
    replace s with ((s - 2 ^ 31) + 1 * 2 ^ 31) at 1 by lia.
    rewrite <- lor_add_disjoint by lia.
    rewrite Z.mul_1_l. apply Z.bits_inj'. intros i Hi. rewrite Z.lxor_spec, Z.lor_spec.
    destruct (Z.eq_dec i 31) as [-> | Hne].
    + rewrite Z.pow2_bits_true by lia. rewrite (testbit_high 31) by lia. reflexivity.
    + rewrite Z.pow2_bits_false by lia. rewrite orb_false_r, xorb_false_r. reflexivity.
  - rewrite Hz, Z.lxor_0_r. split; reflexivity.
Qed.

Lemma add_mod_spec a b : repr a -> repr b ->
  add_mod a b = if 2 ^ 31 <=? a + b then a + b - ORDER else a + b.
Proof.
  unfold repr, ORDER. intros Ha Hb. unfold add_mod.
  assert (E : wadd a b = a + b) by (apply u32_small; unfold is_u32; lia).
  rewrite E. destruct (msb_split (a + b)) as [H1 H2]; [unfold is_u32; lia|]. rewrite H1 in *.
  destruct (Z.leb_spec (2 ^ 31) (a + b)); rewrite H2;
    change (b2z (negb (2 ^ 31 =? 0))) with 1; change (b2z (negb (0 =? 0))) with 0; unfold wadd;
    rewrite u32_small by (unfold is_u32; lia); lia.
Qed.

Lemma sub_mod_spec a b : repr a -> repr b ->
  sub_mod a b = if a <? b then a - b + ORDER else a - b.
Proof.
  unfold repr, ORDER. intros Ha Hb. unfold sub_mod.
  assert (E : wsub a b = if a <? b then a - b + 2 ^ 32 else a - b).
  { unfold wsub, u32. destruct (Z.ltb_spec a b).
    - symmetry. apply Z.mod_unique with (-1); lia.
    - apply Z.mod_small. lia. }
  assert (Hr : is_u32 (wsub a b)) by apply wsub_range.
  destruct (msb_split _ Hr) as [H1 H2]. rewrite H1 in *. rewrite E in *.
  destruct (Z.ltb_spec a b).
  - destruct (Z.leb_spec (2 ^ 31) (a - b + 2 ^ 32)); [|lia]. rewrite H2.
    change (b2z (negb (2 ^ 31 =? 0))) with 1; change (b2z (negb (0 =? 0))) with 0. unfold wsub. rewrite u32_small by (unfold is_u32; lia). lia.
  - destruct (Z.leb_spec (2 ^ 31) (a - b)); [lia|]. rewrite H2.
    change (b2z (negb (2 ^ 31 =? 0))) with 1; change (b2z (negb (0 =? 0))) with 0. unfold wsub. rewrite u32_small by (unfold is_u32; lia). lia.
Qed.

(** Splitting a 62-bit product into 31-bit halves. *)
Lemma fold_halves x : 0 <= x < 2 ^ 62 ->
  let lo := Z.land (u32 (u64 x)) (shl32 1 31 - 1) in
  let hi := u32 (Z.shiftr (u64 x) 31) in
  lo = x mod 2 ^ 31 /\ hi = x / 2 ^ 31 /\ repr lo /\ repr hi.
Proof.
  intros Hx lo hi.
  assert (Hlo : lo = x mod 2 ^ 31).
  { subst lo. rewrite (land_mask_mod _ 31) by (lia || reflexivity).
    rewrite u64_small by (unfold is_u64; lia). unfold u32.
    Z.div_mod_to_equations. lia. }
  assert (Hhi : hi = x / 2 ^ 31).
  { subst hi. rewrite u64_small by (unfold is_u64; lia). rewrite Z.shiftr_div_pow2 by lia.
    apply u32_small. unfold is_u32. Z.div_mod_to_equations. lia. }
  rewrite Hlo, Hhi. unfold repr, ORDER. split_and!; auto; Z.div_mod_to_equations; lia.
Qed.

Notation Fp := (Zmod ORDER).
Definition fval (x : Z) : Fp := Zmod.of_Z ORDER x.

Lemma fval_eq x y k : x = y + k * ORDER -> fval x = fval y.
Proof. intros ->. apply Zmod.of_Z_inj. apply Z.mod_add. unfold ORDER. lia. Qed.

Lemma add_mod_ok a b : repr a -> repr b ->
  repr (add_mod a b) /\ fval (add_mod a b) = Zmod.add (fval a) (fval b).
Proof.
  intros Ha Hb. rewrite add_mod_spec by auto. unfold fval. rewrite <- Zmod.of_Z_add.
  unfold repr, ORDER in *. destruct (Z.leb_spec (2 ^ 31) (a + b)); (split; [lia|]); [|reflexivity].
  apply (fval_eq _ _ (-1)). unfold ORDER. lia.
Qed.

Lemma sub_mod_ok a b : repr a -> repr b ->
  repr (sub_mod a b) /\ fval (sub_mod a b) = Zmod.sub (fval a) (fval b).
Proof.
  intros Ha Hb. rewrite sub_mod_spec by auto. unfold fval. rewrite <- Zmod.of_Z_sub.
  unfold repr, ORDER in *. destruct (Z.ltb_spec a b); (split; [lia|]); [|reflexivity].
  apply (fval_eq _ _ 1). unfold ORDER. lia.
Qed.

Lemma fold_ok x : 0 <= x < 2 ^ 62 ->
  let r := add_mod (Z.land (u32 (u64 x)) (shl32 1 31 - 1)) (u32 (Z.shiftr (u64 x) 31)) in
  repr r /\ fval r = fval x.
Proof.
  intros Hx r. destruct (fold_halves x Hx) as (E1 & E2 & R1 & R2).
  destruct (add_mod_ok _ _ R1 R2) as [Hr Hv]. subst r. split; [exact Hr|].
  rewrite Hv. unfold fval. rewrite <- Zmod.of_Z_add, E1, E2. symmetry.
  apply (fval_eq _ _ (x / 2 ^ 31)). unfold ORDER. Z.div_mod_to_equations. lia.
Qed.

Lemma mul_mod_ok a b : repr a -> repr b ->
  repr (mul_mod a b) /\ fval (mul_mod a b) = Zmod.mul (fval a) (fval b).
Proof.
  intros Ha Hb. unfold fval. rewrite <- Zmod.of_Z_mul. apply fold_ok.
  unfold repr, ORDER in *. nia.
Qed.

Lemma fma_mod_ok a b c : repr a -> repr b -> repr c ->
  repr (fma_mod a b c) /\ fval (fma_mod a b c) = Zmod.add (Zmod.mul (fval a) (fval b)) (fval c).
Proof.
  intros Ha Hb Hc. unfold fval. rewrite <- Zmod.of_Z_mul, <- Zmod.of_Z_add. apply fold_ok.
  unfold repr, ORDER in *. nia.
Qed.

Lemma negate_ok a : repr a -> repr (negate_impl a) /\ fval (negate_impl a) = Zmod.opp (fval a).
Proof.
  intros Ha. unfold fval. rewrite <- Zmod.of_Z_opp. unfold negate_impl, wsub, repr, ORDER in *.
  rewrite u32_small by (unfold is_u32; lia). split; [lia|]. apply (fval_eq _ _ 1). unfold ORDER. lia.
Qed.

Lemma double_is_add a : repr a -> double_impl a = add_mod a a.
Proof.
  intros Ha. unfold double_impl, add_mod, shl32, wadd at 2 3 4. rewrite Z.shiftl_mul_pow2 by lia.
  replace (a * 2 ^ 1) with (a + a) by lia. reflexivity.
Qed.

Lemma square_ok a : repr a -> repr (square_impl a) /\ fval (square_impl a) = Zmod.mul (fval a) (fval a).
Proof. intros. apply mul_mod_ok; auto. Qed.

Lemma to_reduced_spec x : repr x -> to_reduced_u32 x = x mod ORDER.
Proof.
  unfold repr, to_reduced_u32. intros Hx. destruct (Z.eqb_spec x ORDER) as [-> | Hne].
  - rewrite Z.mod_same by (unfold ORDER; lia). reflexivity.
  - symmetry. apply Z.mod_small. lia.
Qed.

Lemma to_reduced_val x : repr x -> to_reduced_u32 x = Zmod.to_Z (fval x).
Proof. intros. rewrite to_reduced_spec by auto. symmetry. apply Zmod.to_Z_of_Z. Qed.

Lemma eq_impl_iff a b : repr a -> repr b -> eq_impl a b = true <-> fval a = fval b.
Proof.
  intros Ha Hb. unfold eq_impl. rewrite !to_reduced_spec, Z.eqb_eq by auto.
  unfold fval. symmetry. apply Zmod.of_Z_inj.
Qed.

Lemma is_zero_iff a : repr a -> is_zero_impl a = true <-> fval a = Zmod.zero.
Proof.
  intros Ha. unfold is_zero_impl, fval, Zmod.zero. rewrite Zmod.of_Z_inj, orb_true_iff, !Z.eqb_eq.
  rewrite <- to_reduced_spec by auto. unfold to_reduced_u32. rewrite Z.mod_0_l by (unfold ORDER; lia).
  destruct (Z.eqb_spec a ORDER); intuition lia.
Qed.

Lemma from_nonreduced_spec c : is_u32 c -> from_nonreduced_u32 c = c mod ORDER.
Proof.
  unfold is_u32, from_nonreduced_u32, ORDER. intros Hc.
  destruct (Z.leb_spec (2 ^ 31 - 1) c).
  - destruct (Z.leb_spec (2 ^ 31 - 1) (c - (2 ^ 31 - 1))).
    + apply Z.mod_unique with 2; lia.
    + apply Z.mod_unique with 1; lia.
  - destruct (Z.leb_spec (2 ^ 31 - 1) c); [lia|]. symmetry. apply Z.mod_small. lia.
Qed.

(** ** The order is prime *)

Fixpoint no_odd_divisor (fuel : nat) (p d : Z) : bool :=
  match fuel with O => true | S f => negb (p mod d =? 0) && no_odd_divisor f p (d + 2) end.

Lemma no_odd_divisor_spec p fuel : forall d, no_odd_divisor fuel p d = true ->
  forall i, 0 <= i < Z.of_nat fuel -> p mod (d + 2 * i) <> 0.
Proof.
  induction fuel as [|f IH]; intros d Hd i Hi; [lia|].
  cbn [no_odd_divisor] in Hd. bool_hyps. destruct (Z.eq_dec i 0) as [-> | Hne].
  - rewrite Z.add_0_r. auto.
  - replace (d + 2 * i) with (d + 2 + 2 * (i - 1)) by lia. apply IH; [auto|lia].
Qed.

Lemma trial_division : no_odd_divisor (Z.to_nat 23170) ORDER 3 = true.
Proof. vm_compute. reflexivity. Qed.

Lemma no_small_divisor n : 1 < n < 46343 -> n < ORDER -> ~ (n | ORDER).
Proof.
  intros Hn _ Hd. apply Z.mod_divide in Hd; [|lia].
  destruct (Z.Even_or_Odd n) as [[k ->] | [k ->]].
  - assert (E : ORDER mod 2 = 0).
    { apply Z.mod_divide; [lia|]. apply Z.mod_divide in Hd; [|lia].
      eapply Z.divide_trans; [|exact Hd]. exists k. lia. }
    vm_compute in E. discriminate.
  - apply (no_odd_divisor_spec _ _ _ trial_division (k - 1)).
    + rewrite Z2Nat.id by lia. lia.
    + replace (3 + 2 * (k - 1)) with (2 * k + 1) by lia. exact Hd.
Qed.

Lemma ORDER_prime : Z.prime ORDER.
Proof.
  split; [unfold ORDER; lia|]. intros n Hn Hd. destruct (Z.lt_ge_cases n 46343).
  - apply (no_small_divisor n); auto; lia.
  - destruct Hd as [q Hq]. apply (no_small_divisor q).
    + unfold ORDER in *. split; nia.
    + unfold ORDER in *. nia.
    + exists n. lia.
Qed.

(** ** Powers, inverses and square roots *)

(** [y] represents the [e]-th power of what [x] represents. *)
Definition power_of (x e y : Z) : Prop := repr y /\ fval y = Zmod.pow (fval x) e.

Lemma power_of_self x : repr x -> power_of x 1 x.
Proof. intros. split; [assumption|]. rewrite Zmod.pow_1_r. reflexivity. Qed.

Lemma power_of_mul x a b y z : 0 <= a -> 0 <= b ->
  power_of x a y -> power_of x b z -> power_of x (a + b) (mul_mod y z).
Proof.
  intros Ha Hb [Ry Vy] [Rz Vz]. destruct (mul_mod_ok y z Ry Rz) as [Rm Vm]. split; auto.
  rewrite Vm, Vy, Vz, Zmod.pow_add_r_nonneg by auto. reflexivity.
Qed.

Lemma power_of_squares x n : forall a y, 0 <= a ->
  power_of x a y -> power_of x (a * 2 ^ Z.of_nat n) (exp_power_of_2_impl y n).
Proof.
  induction n as [|n IH]; intros a y Ha Hy; cbn [exp_power_of_2_impl].
  - rewrite Z.mul_1_r. exact Hy.
  - replace (a * 2 ^ Z.of_nat (S n)) with ((a + a) * 2 ^ Z.of_nat n).
    + apply IH; [lia|]. apply power_of_mul; auto.
    + rewrite Nat2Z.inj_succ, Z.pow_succ_r by lia. lia.
Qed.

(** The addition chain of [inverse_impl] reaches the exponent p - 2. *)
Lemma inverse_chain x : repr x -> is_zero_impl x = false ->
  exists y, inverse_impl x = Some y /\ power_of x (ORDER - 2) y.
Proof.
  intros Hx Hz. unfold inverse_impl. rewrite Hz. cbv zeta. eexists. split; [reflexivity|].
  pose proof (power_of_self x Hx) as P1.
  assert (Sq : forall n a b y, 0 <= a -> b = a * 2 ^ Z.of_nat n ->
    power_of x a y -> power_of x b (exp_power_of_2_impl y n))
    by (intros; subst; apply power_of_squares; auto).
  assert (Mu : forall a b c y z, 0 <= a -> 0 <= b -> c = a + b ->
    power_of x a y -> power_of x b z -> power_of x c (mul_mod y z))
    by (intros; subst; apply power_of_mul; auto).
  assert (P5 : power_of x 5 (mul_mod (exp_power_of_2_impl x 2) x))
    by (apply (Mu 4 1); [..|apply (Sq 2%nat 1)|]; auto; lia).
  set (p101 := mul_mod (exp_power_of_2_impl x 2) x) in *.
  assert (P15 : power_of x 15 (mul_mod (square_impl p101) p101))
    by (apply (Mu 10 5); [..|apply (Mu 5 5)|]; auto; lia).
  set (p1111 := mul_mod (square_impl p101) p101) in *.
  assert (P8 : power_of x 255 (mul_mod (exp_power_of_2_impl p1111 4) p1111))
    by (apply (Mu 240 15); [..|apply (Sq 4%nat 15)|]; auto; lia).
  set (p8 := mul_mod (exp_power_of_2_impl p1111 4) p1111) in *.
  assert (P84 : power_of x 4080 (exp_power_of_2_impl p8 4)) by (apply (Sq 4%nat 255); auto; lia).
  set (p84 := exp_power_of_2_impl p8 4) in *.
  assert (P12 : power_of x 4095 (mul_mod p84 p1111)) by (apply (Mu 4080 15); auto; lia).
  assert (P16 : power_of x 65535 (mul_mod (exp_power_of_2_impl p84 4) p8))
    by (apply (Mu 65280 255); [..|apply (Sq 4%nat 4080)|]; auto; lia).
  set (p16 := mul_mod (exp_power_of_2_impl p84 4) p8) in *.
  assert (P28 : power_of x 268435455 (mul_mod (exp_power_of_2_impl p16 12) (mul_mod p84 p1111)))
    by (apply (Mu 268431360 4095); [..|apply (Sq 12%nat 65535)|]; auto; lia).
  apply (Mu 2147483640 5); [lia|lia|reflexivity|apply (Sq 3%nat 268435455); auto; lia|exact P5].
Qed.

Lemma fermat_fval x : fval x <> Zmod.zero -> Zmod.pow (fval x) (ORDER - 1) = Zmod.one.
Proof. intros Hx. exact (Zmod.fermat_nz (fval x) Hx ORDER_prime). Qed.

Lemma inverse_ok x : repr x ->
  match inverse_impl x with
  | Some y => repr y /\ Zmod.mul (fval x) (fval y) = Zmod.one
  | None => fval x = Zmod.zero
  end.
Proof.
  intros Hx. destruct (is_zero_impl x) eqn:Hz.
  - unfold inverse_impl. rewrite Hz. apply is_zero_iff; auto.
  - destruct (inverse_chain x Hx Hz) as (y & Hy & Ry & Vy). rewrite Hy. split; auto.
    rewrite Vy, <- Zmod.pow_succ_nonneg_r by (unfold ORDER; lia). apply fermat_fval.
    intros E. apply is_zero_iff in E; auto. congruence.
Qed.

#[local] Opaque exp_power_of_2_impl eq_impl square_impl.

Lemma sqrt_inv x :
  sqrt_impl x = if eq_impl (square_impl (exp_power_of_2_impl x 29)) x
                then Some (exp_power_of_2_impl x 29) else None.
Proof. reflexivity. Qed.

Lemma sqrt_candidate x : repr x -> power_of x (2 ^ 29) (exp_power_of_2_impl x 29).
Proof. intros Hx. exact (power_of_squares x 29 1 x ltac:(lia) (power_of_self x Hx)). Qed.

Lemma sqrt_sound x y : repr x -> sqrt_impl x = Some y -> repr y /\ Zmod.mul (fval y) (fval y) = fval x.
Proof.
  intros Hx. rewrite sqrt_inv. destruct (sqrt_candidate x Hx) as [Rc _].
  destruct (eq_impl _ x) eqn:He; [|discriminate]. intros [= <-].
  destruct (square_ok _ Rc) as [Rs Vs]. split; [exact Rc|]. rewrite <- Vs.
  apply eq_impl_iff; assumption.
Qed.

(** Every square has its root found: p is 3 modulo 4. *)
Lemma sqrt_complete x (b : Fp) : repr x -> fval x = Zmod.mul b b -> exists y, sqrt_impl x = Some y.
Proof.
  intros Hx Hb. rewrite sqrt_inv. destruct (sqrt_candidate x Hx) as [Rc Vc].
  destruct (square_ok _ Rc) as [Rs Vs].
  assert (He : eq_impl (square_impl (exp_power_of_2_impl x 29)) x = true).
  { apply eq_impl_iff; [assumption..|]. rewrite Vs, Vc, Hb.
    rewrite <- Zmod.pow_add_r_nonneg, Zmod.pow_mul_l_nonneg, <- Zmod.pow_add_r_nonneg by lia.
    replace (2 ^ 29 + 2 ^ 29 + (2 ^ 29 + 2 ^ 29)) with (Z.succ ORDER) by reflexivity.
    rewrite Zmod.pow_succ_nonneg_r by (unfold ORDER; lia). rewrite (Zmod.fermat b ORDER_prime).
    reflexivity. }
  rewrite He. eauto.
Qed.

#[local] Transparent exp_power_of_2_impl eq_impl square_impl.

(** ** What an implementation of the trait promises *)

Class LawfulField (F : Type) `{FieldOps F} : Type := {
  fv : Type;
  vzero : fv; vone : fv;
  vadd : fv -> fv -> fv; vmul : fv -> fv -> fv; vsub : fv -> fv -> fv; vopp : fv -> fv;
  fv_ring : ring_theory vzero vone vadd vmul vsub vopp eq;
  fv_integral a b : vmul a b = vzero -> a = vzero \/ b = vzero;
  fv_nontrivial : vone <> vzero;
  fwf : F -> Prop;
  fabs : F -> fv;
  ZERO_ok : fwf ZERO /\ fabs ZERO = vzero;
  ONE_ok : fwf ONE /\ fabs ONE = vone;
  is_zero_ok a : fwf a -> is_zero a = true <-> fabs a = vzero;
  add_ok a b : fwf a -> fwf b -> fwf (add_assign a b) /\ fabs (add_assign a b) = vadd (fabs a) (fabs b);
  sub_ok a b : fwf a -> fwf b -> fwf (sub_assign a b) /\ fabs (sub_assign a b) = vsub (fabs a) (fabs b);
  mul_ok a b : fwf a -> fwf b -> fwf (mul_assign a b) /\ fabs (mul_assign a b) = vmul (fabs a) (fabs b);
  square_ok' a : fwf a -> fwf (square a) /\ fabs (square a) = vmul (fabs a) (fabs a);
  negate_ok' a : fwf a -> fwf (negate a) /\ fabs (negate a) = vopp (fabs a);
  double_ok a : fwf a -> fwf (double a) /\ fabs (double a) = vadd (fabs a) (fabs a);
  inverse_ok' a : fwf a ->
    match inverse a with
    | Some b => fwf b /\ vmul (fabs a) (fabs b) = vone
    | None => fabs a = vzero
    end;
}.

Lemma Fp_integral (a b : Fp) : Zmod.mul a b = Zmod.zero -> a = Zmod.zero \/ b = Zmod.zero.
Proof. intros E. apply (Zmod.mul_0_iff_prime ORDER_prime). exact E. Qed.

Lemma Fp_nontrivial : (Zmod.one : Fp) <> Zmod.zero.
Proof. apply Zmod.one_neq_zero. unfold ORDER. lia. Qed.

Lemma double_impl_ok a : repr a -> repr (double_impl a) /\ fval (double_impl a) = Zmod.add (fval a) (fval a).
Proof. intros Ha. rewrite double_is_add by auto. apply add_mod_ok; auto. Qed.

Lemma zero_ok : repr 0 /\ fval 0 = Zmod.zero.
Proof. split; [unfold repr, ORDER; lia|reflexivity]. Qed.
Lemma one_ok : repr 1 /\ fval 1 = Zmod.one.
Proof. split; [unfold repr, ORDER; lia|reflexivity]. Qed.

#[export] Instance Mersenne31_lawful : LawfulField Mersenne31Field := {|
  fv := Fp; vzero := Zmod.zero; vone := Zmod.one;
  vadd := Zmod.add; vmul := Zmod.mul; vsub := Zmod.sub; vopp := Zmod.opp;
  fv_ring := Zmod.ring_theory ORDER;
  fv_integral := Fp_integral; fv_nontrivial := Fp_nontrivial;
  fwf := repr; fabs := fval;
  ZERO_ok := zero_ok; ONE_ok := one_ok;
  is_zero_ok := is_zero_iff; add_ok := add_mod_ok; sub_ok := sub_mod_ok; mul_ok := mul_mod_ok;
  square_ok' := square_ok; negate_ok' := negate_ok; double_ok := double_impl_ok;
  inverse_ok' := inverse_ok;
|}.

(** ** The generic algorithms *)
Section Generic.
Context {F : Type} `{LawfulField F}.
Add Ring fv_as_ring : fv_ring.

Fixpoint vpow (x : fv) (n : nat) : fv := match n with O => vone | S n => vmul x (vpow x n) end.

Lemma vpow_add x a b : vpow x (a + b) = vmul (vpow x a) (vpow x b).
Proof. induction a as [|a IH]; cbn; [ring|]. rewrite IH. ring. Qed.

Lemma vpow_square x n : vpow (vmul x x) n = vpow x (2 * n).
Proof.
  induction n as [|n IH]; [reflexivity|]. replace (2 * S n)%nat with (S (S (2 * n))) by lia.
  cbn [vpow]. rewrite IH. ring.
Qed.

Lemma pow_loop_ok fuel : forall base result e,
  fwf base -> fwf result -> (0 <= e < 2 ^ Z.of_nat fuel)%Z ->
  fwf (pow_loop fuel base result e) /\
  fabs (pow_loop fuel base result e) = vmul (fabs result) (vpow (fabs base) (Z.to_nat e)).
Proof.
  induction fuel as [|fuel IH]; intros base result e Hb Hr He; cbn [pow_loop].
  - split; auto. replace e with 0%Z by (cbn in He; lia). change (Z.to_nat 0) with 0%nat. cbn [vpow]. ring.
  - rewrite Nat2Z.inj_succ, Z.pow_succ_r in He by lia. destruct (Z.ltb_spec 0 e).
    2: { split; auto. replace e with 0%Z by lia. change (Z.to_nat 0) with 0%nat. cbn [vpow]. ring. }
    destruct (square_ok' base Hb) as [Wb Vb]. destruct (mul_ok result base Hr Hb) as [Wr Vr].
    rewrite Z.shiftr_div_pow2, Z.pow_1_r by lia.
    assert (Hd : (0 <= e / 2 < 2 ^ Z.of_nat fuel)%Z)
      by (split; [apply Z.div_pos; lia | apply Z.div_lt_upper_bound; lia]).
    assert (Hh : Z.to_nat e = (Z.to_nat (e mod 2) + 2 * Z.to_nat (e / 2))%nat).
    { pose proof (Z.div_mod e 2). pose proof (Z.mod_pos_bound e 2). lia. }
    assert (Hw : fwf (if (e mod 2 =? 1)%Z then mul_assign result base else result))
      by (destruct (e mod 2 =? 1)%Z; auto).
    destruct (IH (square base) _ (e / 2)%Z Wb Hw Hd) as [W V]. split; [exact W|].
    rewrite V, Vb, vpow_square, Hh. destruct (Z.eqb_spec (e mod 2) 1) as [E | E].
    + rewrite Vr, E. change (Z.to_nat 1) with 1%nat. rewrite vpow_add. cbn [vpow]. ring.
    + replace (e mod 2)%Z with 0%Z by (pose proof (Z.mod_pos_bound e 2); lia). reflexivity.
Qed.

(** The product of the nonzero elements is never zero; one step of the
    backward pass. *)
Definition inverted (x y : F) : Prop :=
  if is_zero x then y = x else fwf y /\ vmul (fabs x) (fabs y) = vone.

Fixpoint residual (pairs : list (F * F)) (g : F) : F :=
  match pairs with
  | [] => g
  | (_, original) :: rest =>
      if is_zero original then residual rest g else residual rest (mul_assign g original)
  end.

Lemma batch_backward_app l1 l2 g :
  batch_backward (l1 ++ l2) g = batch_backward l1 g ++ batch_backward l2 (residual l1 g).
Proof.
  revert g; induction l1 as [|[t o] l1 IH]; intros g; [reflexivity|]. cbn.
  destruct (is_zero o); rewrite IH; reflexivity.
Qed.

Lemma residual_app l1 l2 g : residual (l1 ++ l2) g = residual l2 (residual l1 g).
Proof.
  revert g; induction l1 as [|[t o] l1 IH]; intros g; [reflexivity|]. cbn.
  destruct (is_zero o); apply IH.
Qed.

(** One element: [t] is the product before it, [a] the product with it. *)
Lemma backward_step t x a g : fwf t -> fwf x -> fwf g ->
  (if is_zero x then fabs a = fabs t else fabs a = vmul (fabs t) (fabs x)) ->
  vmul (fabs a) (fabs g) = vone ->
  exists y, batch_backward [(t, x)] g = [y] /\ inverted x y /\
    fwf (residual [(t, x)] g) /\ vmul (fabs t) (fabs (residual [(t, x)] g)) = vone.
Proof.
  intros Ht Hx Hg Ha Hag. cbn. unfold inverted. destruct (is_zero x); rewrite Ha in Hag.
  - eexists. split_and!; auto.
  - destruct (mul_ok t g Ht Hg) as [W1 V1]. destruct (mul_ok g x Hg Hx) as [W2 V2].
    eexists. split; [reflexivity|]. rewrite V1, V2. split_and!; auto; rewrite <- Hag; ring.
Qed.

Lemma batch_forward_backward rest : Forall fwf rest -> forall a z g outs a' z',
  fwf a -> batch_forward rest a z = (outs, a', z') -> fwf g -> vmul (fabs a') (fabs g) = vone ->
  let pairs := rev (combine outs rest) in
  Forall2 inverted rest (rev (batch_backward pairs g)) /\
  fwf (residual pairs g) /\ vmul (fabs a) (fabs (residual pairs g)) = vone.
Proof.
  induction 1 as [|x rest Hx Hrest IH]; intros a z g outs a' z' Ha Hf Hg Hag; cbn in Hf.
  - inversion Hf; subst. cbn. auto.
  - destruct (mul_ok a x Ha Hx) as [Wm Vm].
    set (acc := if is_zero x then a else mul_assign a x).
    assert (Hacc : fwf acc) by (subst acc; destruct (is_zero x); auto).
    assert (Vacc : if is_zero x then fabs acc = fabs a else fabs acc = vmul (fabs a) (fabs x))
      by (subst acc; destruct (is_zero x); auto).
    destruct (batch_forward rest acc (if is_zero x then true else z)) as [[outs1 a1] z1] eqn:Hf1.
    assert (Hout : outs = a :: outs1 /\ a' = a1)
      by (subst acc; destruct (is_zero x); rewrite Hf1 in Hf; inversion Hf; auto).
    destruct Hout as [-> ->].
    destruct (IH acc _ g _ _ _ Hacc Hf1 Hg Hag) as (I1 & I2 & I3). cbn [combine rev].
    destruct (backward_step a x acc _ Ha Hx I2 Vacc I3) as (y & B1 & B2 & B3 & B4).
    rewrite batch_backward_app, B1, residual_app, rev_app_distr. cbn [rev app]. auto.
Qed.

Lemma batch_forward_acc rest : Forall fwf rest -> forall a z outs a' z',
  fwf a -> fabs a <> vzero -> batch_forward rest a z = (outs, a', z') ->
  fwf a' /\ fabs a' <> vzero /\ length outs = length rest /\ z' = z || existsb is_zero rest.
Proof.
  induction 1 as [|x rest Hx Hrest IH]; intros a z outs a' z' Ha Hn Hf; cbn in Hf.
  - inversion Hf; subst. rewrite orb_false_r. auto.
  - destruct (mul_ok a x Ha Hx) as [Wm Vm]. cbn [existsb]. destruct (is_zero x) eqn:Hz.
    + destruct (batch_forward rest a true) as [[o1 a1] z1] eqn:Hf1. inversion Hf; subst.
      destruct (IH _ _ _ _ _ Ha Hn Hf1) as (I1 & I2 & I3 & ->). cbn. rewrite orb_true_r. auto.
    + destruct (batch_forward rest (mul_assign a x) z) as [[o1 a1] z1] eqn:Hf1. inversion Hf; subst.
      assert (Hn' : fabs (mul_assign a x) <> vzero).
      { rewrite Vm. intros E. apply fv_integral in E. destruct E as [E | E]; [auto|].
        apply is_zero_ok in E; auto. congruence. }
      destruct (IH _ _ _ _ _ Wm Hn' Hf1) as (I1 & I2 & I3 & ->). cbn. auto.
Qed.

Lemma batch_inverse_ok input : Forall fwf input ->
  exists outs, batch_inverse_checked input = Some (outs, negb (existsb is_zero input)) /\
    Forall2 inverted input outs.
Proof.
  intros Hin. destruct input as [|x rest]; [exists []; cbn; auto|].
  inversion Hin as [|? ? Hx Hrest]; subst. destruct ONE_ok as [W1 V1].
  unfold batch_inverse_checked. set (acc0 := if is_zero x then ONE else x).
  assert (Hw : fwf acc0) by (subst acc0; destruct (is_zero x); auto).
  assert (Hn : fabs acc0 <> vzero).
  { subst acc0. destruct (is_zero x) eqn:Hz; [rewrite V1; apply fv_nontrivial|].
    intros E. apply is_zero_ok in E; auto. congruence. }
  assert (Hv : if is_zero x then fabs acc0 = fabs ONE else fabs acc0 = vmul (fabs ONE) (fabs x))
    by (subst acc0; destruct (is_zero x); rewrite ?V1; auto; ring).
  replace (if is_zero x then (true, ONE) else (false, x)) with (is_zero x, acc0)
    by (subst acc0; destruct (is_zero x); reflexivity).
  destruct (batch_forward rest acc0 (is_zero x)) as [[outs a] z] eqn:Hf.
  destruct (batch_forward_acc rest Hrest _ _ _ _ _ Hw Hn Hf) as (Wa & Na & Hl & ->).
  pose proof (inverse_ok' a Wa) as Hi. destruct (inverse a) as [g|]; [|congruence].
  destruct Hi as [Wg Vg].
  destruct (batch_forward_backward rest Hrest _ _ _ _ _ _ Hw Hf Wg Vg) as (B1 & B2 & B3).
  destruct (backward_step ONE x acc0 _ W1 Hx B2 Hv B3) as (y & C1 & C2 & _).
  eexists. split; [reflexivity|]. cbn [combine rev].
  rewrite batch_backward_app, C1, rev_app_distr. cbn [rev app]. auto.
Qed.
End Generic.

(** ** Rotations, conversions and the RISC-V versions *)

Lemma u8_mod_31 e : u8 (e mod 31) = e mod 31.
Proof. apply Z.mod_small. pose proof (Z.mod_pos_bound e 31). lia. Qed.

(** A left rotation of 31 bits splits the word at [k]. *)
Lemma rot31_split x k : repr x -> 0 <= k <= 31 ->
  Z.lor (Z.land (shl32 x k) (shl32 1 31 - 1)) (Z.shiftr x (31 - k)) =
    (x mod 2 ^ (31 - k)) * 2 ^ k + x / 2 ^ (31 - k).
Proof.
  unfold repr, ORDER. intros Hx Hk. rewrite (land_mask_mod _ 31) by (lia || reflexivity).
  rewrite Z.shiftr_div_pow2 by lia. unfold shl32, u32. rewrite Z.shiftl_mul_pow2 by lia.
  assert (Hp : 2 ^ 31 = 2 ^ (31 - k) * 2 ^ k) by (rewrite <- Z.pow_add_r by lia; f_equal; lia).
  assert (0 < 2 ^ k) by (apply Z.pow_pos_nonneg; lia).
  assert (0 < 2 ^ (31 - k)) by (apply Z.pow_pos_nonneg; lia).
  replace ((x * 2 ^ k) mod 2 ^ 32 mod 2 ^ 31) with ((x mod 2 ^ (31 - k)) * 2 ^ k).
  - rewrite Z.lor_comm, lor_add_disjoint; [lia|lia| |].
    + split; [apply Z.div_pos; lia|]. apply Z.div_lt_upper_bound; lia.
    + apply Z.mod_pos_bound. lia.
  - rewrite <- Z.mul_mod_distr_r, <- Hp by lia.
    change (2 ^ 32) with (2 ^ 31 * 2). rewrite Z.rem_mul_r by lia.
    rewrite (Z.mul_comm (2 ^ 31)), Z.mod_add, Z.mod_mod by lia. reflexivity.
Qed.

Lemma rot31_ok x k : repr x -> 0 <= k <= 31 ->
  let r := (x mod 2 ^ (31 - k)) * 2 ^ k + x / 2 ^ (31 - k) in
  repr r /\ (r - x * 2 ^ k) mod ORDER = 0.
Proof.
  intros Hx Hk r. unfold repr in *.
  assert (Hp : 2 ^ (31 - k) * 2 ^ k = ORDER + 1)
    by (rewrite <- Z.pow_add_r by lia; replace (31 - k + k) with 31 by lia; reflexivity).
  assert (0 < 2 ^ k) by (apply Z.pow_pos_nonneg; lia).
  assert (0 < 2 ^ (31 - k)) by (apply Z.pow_pos_nonneg; lia).
  pose proof (Z.div_mod x (2 ^ (31 - k)) ltac:(lia)) as Hd.
  pose proof (Z.mod_pos_bound x (2 ^ (31 - k)) ltac:(lia)) as Hm.
  assert (0 <= x / 2 ^ (31 - k) < 2 ^ k)
    by (split; [apply Z.div_pos; lia | apply Z.div_lt_upper_bound; nia]).
  split; [subst r; nia|].
  apply Z.mod_divide; [unfold ORDER; lia|]. exists (- (x / 2 ^ (31 - k))). subst r. nia.
Qed.

Lemma mul_2exp_ok x e : repr x ->
  repr (mul_2exp_u64 x e) /\ (mul_2exp_u64 x e - x * 2 ^ (e mod 31)) mod ORDER = 0.
Proof.
  intros Hx. unfold mul_2exp_u64. rewrite u8_mod_31.
  pose proof (Z.mod_pos_bound e 31 ltac:(lia)). rewrite rot31_split by (auto; lia).
  apply rot31_ok; auto; lia.
Qed.

Lemma div_2exp_ok x e : repr x ->
  repr (div_2exp_u64 x e) /\ (div_2exp_u64 x e * 2 ^ (e mod 31) - x) mod ORDER = 0.
Proof.
  intros Hx. unfold div_2exp_u64. rewrite u8_mod_31.
  pose proof (Z.mod_pos_bound e 31 ltac:(lia)) as Hk.
  set (k := e mod 31) in *. rewrite Z.lor_comm.
  replace (Z.shiftr x k) with (Z.shiftr x (31 - (31 - k))) by (f_equal; lia).
  rewrite rot31_split by (auto; lia). destruct (rot31_ok x (31 - k) Hx ltac:(lia)) as [R M].
  split; [exact R|]. cbv zeta in M. set (r := x mod _ * _ + _) in *.
  apply Z.mod_divide in M; [|unfold ORDER; lia]. destruct M as [q M].
  apply Z.mod_divide; [unfold ORDER; lia|].
  assert (Hp : 2 ^ (31 - k) * 2 ^ k = ORDER + 1)
    by (rewrite <- Z.pow_add_r by lia; replace (31 - k + k) with 31 by lia; reflexivity).
  exists (q * 2 ^ k + x). nia.
Qed.

Lemma land31_mod x : Z.land (u32 x) (shl32 1 31 - 1) = x mod 2 ^ 31.
Proof.
  rewrite (land_mask_mod _ 31) by (lia || reflexivity). unfold u32.
  change (2 ^ 32) with (2 ^ 31 * 2). rewrite Z.rem_mul_r by lia.
  rewrite Z.mul_comm, Z.mod_add, Z.mod_mod by lia. reflexivity.
Qed.

Lemma fold_msb s : 0 <= s <= 2 ^ 32 - 2 ->
  wadd (Z.lxor s (Z.land s (shl32 1 31))) (b2z (negb (Z.land s (shl32 1 31) =? 0))) =
    if 2 ^ 31 <=? s then s - ORDER else s.
Proof.
  intros Hs. destruct (msb_split s) as [H1 H2]; [unfold is_u32; lia|]. rewrite H1 in *.
  unfold ORDER. destruct (Z.leb_spec (2 ^ 31) s); rewrite H2;
    change (b2z (negb (2 ^ 31 =? 0))) with 1; change (b2z (negb (0 =? 0))) with 0; unfold wadd;
    rewrite u32_small by (unfold is_u32; lia); lia.
Qed.

Lemma from_negative_ok s : - 2 ^ 62 < s < 2 ^ 62 ->
  from_negative_u64_with_reduction (u64 s) = s mod ORDER.
Proof.
  intros Hs. unfold from_negative_u64_with_reduction.
  rewrite !land31_mod, !Z.shiftr_div_pow2 by lia.
  assert (Hx : u64 s = if s <? 0 then s + 2 ^ 64 else s).
  { unfold u64. destruct (Z.ltb_spec s 0); [symmetry; apply Z.mod_unique with (-1); lia|].
    apply Z.mod_small; lia. }
  set (x := u64 s) in *. set (lo := x mod 2 ^ 31). set (hi := (x / 2 ^ 31) mod 2 ^ 31).
  assert (Hlo : 0 <= lo < 2 ^ 31) by (apply Z.mod_pos_bound; lia).
  assert (Hhi : 0 <= hi < 2 ^ 31) by (apply Z.mod_pos_bound; lia).
  assert (Hsg : u32 (x / 2 ^ 63) = if s <? 0 then 1 else 0).
  { rewrite Hx. destruct (Z.ltb_spec s 0).
    - replace ((s + 2 ^ 64) / 2 ^ 63) with 1 by (apply Z.div_unique with (s + 2 ^ 63); lia). reflexivity.
    - rewrite Z.div_small by lia. reflexivity. }
  rewrite Hsg.
  assert (Hsum : exists q, lo + hi - (if s <? 0 then 1 else 0) = s + q * ORDER /\
                           0 <= lo + hi - (if s <? 0 then 1 else 0) <= 2 ^ 32 - 2).
  { subst lo hi. unfold ORDER. destruct (Z.ltb_spec s 0).
    - exists (- ((x / 2 ^ 31) mod 2 ^ 31) + (2 ^ 31 + 1)). split; Z.div_mod_to_equations; lia.
    - exists (- ((x / 2 ^ 31) mod 2 ^ 31)). split; Z.div_mod_to_equations; lia. }
  destruct Hsum as (q & Eq & Hr).
  assert (Ew : wsub (wadd lo hi) (if s <? 0 then 1 else 0) = lo + hi - (if s <? 0 then 1 else 0))
    by (unfold wsub, wadd; rewrite u32_sub_l; apply u32_small; unfold is_u32; lia).
  rewrite Ew, fold_msb by exact Hr. rewrite Eq in *. unfold ORDER in *.
  destruct (Z.leb_spec (2 ^ 31) (s + q * (2 ^ 31 - 1))).
  - destruct (Z.leb_spec (2 ^ 31 - 1) (s + q * (2 ^ 31 - 1) - (2 ^ 31 - 1))).
    + apply Z.mod_unique with (2 - q); lia.
    + apply Z.mod_unique with (1 - q); lia.
  - destruct (Z.leb_spec (2 ^ 31 - 1) (s + q * (2 ^ 31 - 1))).
    + apply Z.mod_unique with (1 - q); lia.
    + apply Z.mod_unique with (- q); lia.
Qed.

Lemma from_u62_ok x : 0 <= x < 2 ^ 62 -> repr (from_u62 x) /\ fval (from_u62 x) = fval x.
Proof.
  intros Hx. pose proof (fold_ok x Hx) as H. rewrite u64_small in H by (unfold is_u64; lia). exact H.
Qed.

Definition canonical (x : Z) : Prop := 0 <= x < ORDER.

Lemma canonical_repr x : canonical x -> repr x.
Proof. unfold canonical, repr. lia. Qed.

Lemma to_reduced_add a b : repr a -> repr b -> to_reduced_u32 (add_mod a b) = (a + b) mod ORDER.
Proof.
  intros Ha Hb. destruct (add_mod_ok a b Ha Hb) as [R V]. rewrite to_reduced_val, V by auto.
  unfold fval. rewrite <- Zmod.of_Z_add. apply Zmod.to_Z_of_Z.
Qed.
Lemma to_reduced_sub a b : repr a -> repr b -> to_reduced_u32 (sub_mod a b) = (a - b) mod ORDER.
Proof.
  intros Ha Hb. destruct (sub_mod_ok a b Ha Hb) as [R V]. rewrite to_reduced_val, V by auto.
  unfold fval. rewrite <- Zmod.of_Z_sub. apply Zmod.to_Z_of_Z.
Qed.
Lemma to_reduced_mul a b : repr a -> repr b -> to_reduced_u32 (mul_mod a b) = (a * b) mod ORDER.
Proof.
  intros Ha Hb. destruct (mul_mod_ok a b Ha Hb) as [R V]. rewrite to_reduced_val, V by auto.
  unfold fval. rewrite <- Zmod.of_Z_mul. apply Zmod.to_Z_of_Z.
Qed.

Lemma to_reduced_fma a b c : repr a -> repr b -> repr c ->
  to_reduced_u32 (fma_mod a b c) = (a * b + c) mod ORDER.
Proof.
  intros Ha Hb Hc. destruct (fma_mod_ok a b c Ha Hb Hc) as [R V]. rewrite to_reduced_val, V by auto.
  unfold fval. rewrite <- Zmod.of_Z_mul, <- Zmod.of_Z_add. apply Zmod.to_Z_of_Z.
Qed.
Lemma to_reduced_negate a : repr a -> to_reduced_u32 (negate_impl a) = (- a) mod ORDER.
Proof.
  intros Ha. destruct (negate_ok a Ha) as [R V]. rewrite to_reduced_val, V by auto.
  unfold fval. rewrite <- Zmod.of_Z_opp. apply Zmod.to_Z_of_Z.
Qed.
Lemma to_reduced_double a : repr a -> to_reduced_u32 (double_impl a) = (2 * a) mod ORDER.
Proof. intros Ha. rewrite double_is_add, to_reduced_add by auto. f_equal. lia. Qed.

Lemma rv_add_spec a b : canonical a -> canonical b -> Rv.add_mod_ct a b = (a + b) mod ORDER.
Proof.
  unfold canonical, ORDER. intros. unfold Rv.add_mod_ct, Rv.reduce_with_division_ct, wadd.
  rewrite u32_small by (unfold is_u32; lia). reflexivity.
Qed.
Lemma rv_sub_spec a b : canonical a -> canonical b -> Rv.sub_mod_ct a b = (a - b) mod ORDER.
Proof.
  unfold canonical. intros Ha Hb. unfold Rv.sub_mod_ct, Rv.reduce_with_division_ct, wadd, wsub.
  rewrite u32_sub_l, u32_small by (unfold is_u32, ORDER in *; lia).
  replace (ORDER + a - b) with (a - b + 1 * ORDER) by lia. apply Z.mod_add. unfold ORDER. lia.
Qed.
Lemma rv_mul_spec a b : canonical a -> canonical b -> Rv.mul_mod_ct a b = (a * b) mod ORDER.
Proof.
  intros Ha Hb. assert (Hp : 0 <= a * b < 2 ^ 62) by (unfold canonical, ORDER in *; nia).
  unfold Rv.mul_mod_ct, Rv.reduce_with_division_ct.
  destruct (fold_halves (a * b) Hp) as (E1 & E2 & R1 & R2). rewrite E1, E2 in *.
  unfold wadd. rewrite u32_small by (unfold is_u32, repr, ORDER in *; lia).
  rewrite <- (Z.mod_add _ (a * b / 2 ^ 31)) by (unfold ORDER; lia). f_equal.
  unfold ORDER. Z.div_mod_to_equations. lia.
Qed.

(** ** Theorems *)

(** C36: On representations in [0, p] (zero having two), addition, subtraction,
    multiplication, fused multiply-add, negation and doubling stay in that
    range - no operation overflows its word - and represent the exact result
    modulo p = 2^31 - 1. *)
Theorem mersenne31_arithmetic a b c : repr a -> repr b -> repr c ->
  (repr (add_mod a b) /\ to_reduced_u32 (add_mod a b) = (a + b) mod ORDER) /\
  (repr (sub_mod a b) /\ to_reduced_u32 (sub_mod a b) = (a - b) mod ORDER) /\
  (repr (mul_mod a b) /\ to_reduced_u32 (mul_mod a b) = (a * b) mod ORDER) /\
  (repr (fma_mod a b c) /\ to_reduced_u32 (fma_mod a b c) = (a * b + c) mod ORDER) /\
  (repr (negate_impl a) /\ to_reduced_u32 (negate_impl a) = (- a) mod ORDER) /\
  (repr (double_impl a) /\ to_reduced_u32 (double_impl a) = (2 * a) mod ORDER).
Proof.
  intros Ha Hb Hc.
  split; [|split; [|split; [|split; [|split]]]]; split; auto using to_reduced_add, to_reduced_sub,
    to_reduced_mul, to_reduced_fma, to_reduced_negate, to_reduced_double;
    [apply add_mod_ok | apply sub_mod_ok | apply mul_mod_ok | apply fma_mod_ok | apply negate_ok
    | apply double_impl_ok]; auto.
Qed.

Lemma mersenne31_arithmetic_witness :
  to_reduced_u32 (mul_mod ORDER 5) = (ORDER * 5) mod ORDER /\
  to_reduced_u32 (add_mod ORDER ORDER) = (ORDER + ORDER) mod ORDER.
Proof.
  split; [apply (mersenne31_arithmetic ORDER 5 0) | apply (mersenne31_arithmetic ORDER ORDER 0)];
    unfold repr, ORDER; lia.
Defined.

(** The addition chain of [inverse] computes the multiplicative inverse of
    every nonzero element and answers [None] exactly for zero, in either of
    its representations. *)
Theorem mersenne31_inverse x : repr x ->
  match inverse_impl x with
  | Some y => repr y /\ (x * y) mod ORDER = 1 /\ x mod ORDER <> 0
  | None => x mod ORDER = 0
  end.
Proof.
  intros Hx. pose proof (inverse_ok x Hx) as H. destruct (inverse_impl x) as [y|].
  - destruct H as [Ry Vy]. unfold fval in Vy. rewrite <- Zmod.of_Z_mul in Vy.
    apply Zmod.of_Z_inj in Vy. rewrite (Z.mod_small 1) in Vy by (unfold ORDER; lia).
    split_and!; auto. intros E. rewrite <- Z.mul_mod_idemp_l, E in Vy by (unfold ORDER; lia). discriminate.
  - unfold fval, Zmod.zero in H. apply Zmod.of_Z_inj in H. exact H.
Qed.

Lemma mersenne31_inverse_witness :
  exists y, inverse_impl 3 = Some y /\ (3 * y) mod ORDER = 1.
Proof.
  pose proof (mersenne31_inverse 3 ltac:(unfold repr, ORDER; lia)) as H.
  destruct (inverse_impl 3) as [y|]; [|discriminate H].
  exists y. split; [reflexivity|]. apply H.
Defined.

(** [sqrt] returns a square root whenever one exists and [None] only for
    non-squares. *)
Theorem mersenne31_sqrt x : repr x ->
  match sqrt_impl x with
  | Some y => repr y /\ (y * y) mod ORDER = x mod ORDER
  | None => forall b, (b * b) mod ORDER <> x mod ORDER
  end.
Proof.
  intros Hx. destruct (sqrt_impl x) as [y|] eqn:Hs.
  - destruct (sqrt_sound x y Hx Hs) as [Ry Vy]. split; [exact Ry|].
    unfold fval in Vy. rewrite <- Zmod.of_Z_mul in Vy. apply Zmod.of_Z_inj. exact Vy.
  - intros b Hb. destruct (sqrt_complete x (fval b) Hx) as [y Hy]; [|congruence].
    unfold fval. rewrite <- Zmod.of_Z_mul. apply Zmod.of_Z_inj. symmetry. exact Hb.
Qed.

Lemma mersenne31_sqrt_witness :
  exists y, sqrt_impl 4 = Some y /\ (y * y) mod ORDER = 4 mod ORDER.
Proof.
  pose proof (mersenne31_sqrt 4 ltac:(unfold repr, ORDER; lia)) as H.
  destruct (sqrt_impl 4) as [y|] eqn:E.
  - exists y. split; [reflexivity|]. apply H.
  - exfalso. apply (H 2). reflexivity.
Defined.

(** Montgomery batch inversion over any lawful field: every nonzero entry
    is replaced by its inverse, every zero entry is left as it is, the result
    flag says whether the input was free of zeros, and the single inversion
    never fails. *)
Theorem batch_inverse_correct {F} `{LawfulField F} (input : list F) :
  Forall fwf input ->
  exists outs, batch_inverse_checked input = Some (outs, negb (existsb is_zero input)) /\
    Forall2 (fun x y => if is_zero x then y = x else fwf y /\ vmul (fabs x) (fabs y) = vone) input outs.
Proof. apply batch_inverse_ok. Qed.

Lemma batch_inverse_correct_witness :
  exists outs, batch_inverse_checked (F:=Mersenne31Field) [2; 0; 7] = Some (outs, false) /\
    length outs = 3%nat.
Proof.
  destruct (batch_inverse_correct (F:=Mersenne31Field) [2; 0; 7]) as (outs & H1 & H2).
  - repeat constructor; unfold ORDER; lia.
  - exists outs. split; [exact H1|]. symmetry. apply (Forall2_length _ _ _ H2).
Defined.

(** [pow] computes powers in any lawful field, for every [u32] exponent. *)
Theorem field_pow_correct {F} `{LawfulField F} (x : F) e :
  fwf x -> is_u32 e -> fwf (pow x e) /\ fabs (pow x e) = vpow (fabs x) (Z.to_nat e).
Proof.
  intros Hx He. destruct ONE_ok as [W1 V1].
  destruct (pow_loop_ok 32 x ONE e Hx W1 He) as [W V]. split; [exact W|].
  unfold pow. rewrite V, V1. apply (Rmul_1_l fv_ring).
Qed.

Lemma field_pow_correct_witness :
  fabs (pow (F:=Mersenne31Field) 3 5) = vpow (fabs (F:=Mersenne31Field) 3) 5.
Proof. apply (field_pow_correct (F:=Mersenne31Field) 3 5); [change (repr 3); unfold repr, ORDER; lia | unfold is_u32; lia]. Defined.

(** Multiplying and dividing by powers of two is a rotation of the 31-bit
    representation. *)
Theorem mersenne31_rotations x e : repr x ->
  repr (mul_2exp_u64 x e) /\ (mul_2exp_u64 x e - x * 2 ^ (e mod 31)) mod ORDER = 0 /\
  repr (div_2exp_u64 x e) /\ (div_2exp_u64 x e * 2 ^ (e mod 31) - x) mod ORDER = 0.
Proof.
  intros Hx. destruct (mul_2exp_ok x e Hx) as [R1 V1]. destruct (div_2exp_ok x e Hx) as [R2 V2]. auto.
Qed.

Lemma mersenne31_rotations_witness : (mul_2exp_u64 (2 ^ 30) 33 - 2 ^ 30 * 2 ^ 2) mod ORDER = 0.
Proof. apply (mersenne31_rotations (2 ^ 30) 33). unfold repr, ORDER; lia. Defined.

(** [from_negative_u64_with_reduction] reads its word as two's complement
    and returns the canonical residue, for every value strictly between
    - 2^62 and 2^62. *)
Theorem from_negative_u64_correct s : - 2 ^ 62 < s < 2 ^ 62 ->
  from_negative_u64_with_reduction (u64 s) = s mod ORDER.
Proof. apply from_negative_ok. Qed.

Lemma from_negative_u64_correct_witness :
  from_negative_u64_with_reduction (u64 (-1)) = (-1) mod ORDER.
Proof. apply (from_negative_u64_correct (-1)). lia. Defined.

(** On canonical representations the division-based operations of the
    RISC-V build return exactly the reduced result of the native ones. *)
Theorem riscv_field_ops_agree a b c : canonical a -> canonical b -> canonical c ->
  Rv.add_mod_ct a b = to_reduced_u32 (add_mod a b) /\
  Rv.sub_mod_ct a b = to_reduced_u32 (sub_mod a b) /\
  Rv.mul_mod_ct a b = to_reduced_u32 (mul_mod a b) /\
  Rv.fma_mod a b c = to_reduced_u32 (fma_mod a b c).
Proof.
  intros Ha Hb Hc. pose proof (canonical_repr a Ha). pose proof (canonical_repr b Hb).
  pose proof (canonical_repr c Hc).
  rewrite rv_add_spec, rv_sub_spec, rv_mul_spec, to_reduced_add, to_reduced_sub, to_reduced_mul by auto.
  split_and!; auto.
  assert (Hm : canonical (Rv.mul_mod_ct a b))
    by (rewrite rv_mul_spec by auto; apply Z.mod_pos_bound; unfold ORDER; lia).
  unfold Rv.fma_mod. rewrite rv_add_spec, rv_mul_spec by auto.
  rewrite to_reduced_fma by auto. rewrite Z.add_mod_idemp_r by (unfold ORDER; lia). f_equal. lia.
Qed.

Lemma riscv_field_ops_agree_witness : Rv.sub_mod_ct 3 5 = to_reduced_u32 (sub_mod 3 5).
Proof. apply (riscv_field_ops_agree 3 5 0); unfold canonical, ORDER; lia. Defined.
