(* ===== verification/FieldExt.v ===== *)
(** * The extension fields

    [src/field/src/complex.rs] (module [Complex]: [Mersenne31Complex], pairs
    [c0 + c1 i] with [i^2 = -1]) and [src/field/src/quartic.rs] (module
    [Quartic]: [Mersenne31Quartic], pairs over the former with the square root
    of [2 + i]), for the default features; [Complex.Schoolbook] holds the
    versions of a RISC-V build with [modular_ops].

    The first section is the algebra of a quadratic extension of an integral
    domain by a non-residue; the two fields are instances of [LawfulField], so
    the generic algorithms of [Field.v] apply to them. *)
From stdpp Require Import base list strings.
From Stdlib Require Import ZArith Lia Zmod Ring.
From S2P Require Import Prelude MachineInt Decoder Field.

(** ** Quadratic extensions *)
Section Quadratic.
Context {R : Type} {zero one : R} {add mul sub : R -> R -> R} {opp : R -> R}.
Context (Rth : ring_theory zero one add mul sub opp eq) (beta : R).
Add Ring base_ring : Rth.

Definition qzero : R * R := (zero, zero).
Definition qone : R * R := (one, zero).
Definition qadd (x y : R * R) : R * R := (add x.1 y.1, add x.2 y.2).
Definition qsub (x y : R * R) : R * R := (sub x.1 y.1, sub x.2 y.2).
Definition qopp (x : R * R) : R * R := (opp x.1, opp x.2).
Definition qmul (x y : R * R) : R * R :=
  (add (mul x.1 y.1) (mul beta (mul x.2 y.2)), add (mul x.1 y.2) (mul x.2 y.1)).
Definition qnorm (x : R * R) : R := sub (mul x.1 x.1) (mul beta (mul x.2 x.2)).

Ltac quadratic :=
  intros; repeat match goal with x : (R * R)%type |- _ => destruct x end;
  unfold qadd, qsub, qopp, qmul, qzero, qone; cbn [fst snd];
  first [f_equal; ring | ring].

Lemma quadratic_ring : ring_theory qzero qone qadd qmul qsub qopp eq.
Proof. constructor; quadratic. Qed.

Lemma qnorm_mul x y : qnorm (qmul x y) = mul (qnorm x) (qnorm y).
Proof. destruct x, y. unfold qnorm, qmul. cbn [fst snd]. ring. Qed.

(** [x] times its conjugate is its norm. *)
Lemma qconj_mul a b : qmul (a, b) (a, opp b) = (qnorm (a, b), zero).
Proof. unfold qnorm. quadratic. Qed.

Section NonResidue.
Context (integral : forall a b, mul a b = zero -> a = zero \/ b = zero)
  (nonresidue : forall a b, mul a a = mul beta (mul b b) -> a = zero /\ b = zero).

Lemma qnorm_zero x : qnorm x = zero -> x = qzero.
Proof.
  destruct x as [a b]. unfold qnorm. cbn [fst snd]. intros E.
  destruct (nonresidue a b) as [-> ->]; [|reflexivity].
  transitivity (add (sub (mul a a) (mul beta (mul b b))) (mul beta (mul b b))); [ring|].
  rewrite E. ring.
Qed.

Lemma quadratic_integral x y : qmul x y = qzero -> x = qzero \/ y = qzero.
Proof.
  intros E. assert (Hn : mul (qnorm x) (qnorm y) = zero).
  { rewrite <- qnorm_mul, E. unfold qnorm, qzero. cbn [fst snd]. ring. }
  destruct (integral _ _ Hn); [left | right]; apply qnorm_zero; assumption.
Qed.
End NonResidue.
End Quadratic.

Lemma ring_mul_0_l {R : Type} {zero one : R} {add mul sub opp}
  (Rth : ring_theory zero one add mul sub opp eq) x : mul zero x = zero.
Proof. apply (ARmul_0_l (Rth_ARth (Eqsth R) (Eq_ext add mul opp) Rth)). Qed.

(** ** Representations *)
Section Represents.
Context {F : Type} `{LawfulField F}.

Definition reps (x : F) (v : fv) : Prop := fwf x /\ fabs x = v.

Lemma reps_self x : fwf x -> reps x (fabs x).
Proof. split; auto. Qed.
Lemma reps_zero : reps ZERO vzero.
Proof. apply ZERO_ok. Qed.
Lemma reps_one : reps ONE vone.
Proof. apply ONE_ok. Qed.
Lemma reps_add x y v w : reps x v -> reps y w -> reps (add_assign x y) (vadd v w).
Proof. intros [Hx <-] [Hy <-]. apply add_ok; auto. Qed.
Lemma reps_sub x y v w : reps x v -> reps y w -> reps (sub_assign x y) (vsub v w).
Proof. intros [Hx <-] [Hy <-]. apply sub_ok; auto. Qed.
Lemma reps_mul x y v w : reps x v -> reps y w -> reps (mul_assign x y) (vmul v w).
Proof. intros [Hx <-] [Hy <-]. apply mul_ok; auto. Qed.
Lemma reps_square x v : reps x v -> reps (square x) (vmul v v).
Proof. intros [Hx <-]. apply square_ok'; auto. Qed.
Lemma reps_negate x v : reps x v -> reps (negate x) (vopp v).
Proof. intros [Hx <-]. apply negate_ok'; auto. Qed.
Lemma reps_double x v : reps x v -> reps (double x) (vadd v v).
Proof. intros [Hx <-]. apply double_ok; auto. Qed.
End Represents.

Create HintDb field_reps.
#[export] Hint Resolve reps_self reps_zero reps_one reps_add reps_sub reps_mul reps_square reps_negate
  reps_double : field_reps.

(** Compute the value of a program over field operations, then compare it with
    the specification. *)
Ltac field_value :=
  lazymatch goal with
  | |- reps _ _ => eapply eq_rect; [solve [eauto 20 with field_reps] | ]
  end.

(** ** complex.rs *)
Module Complex.
Record Mersenne31Complex : Type := { c0 : Mersenne31Field; c1 : Mersenne31Field }.

Definition conjugate (self : Mersenne31Complex) : Mersenne31Complex :=
  {| c0 := c0 self; c1 := negate (c1 self) |}.

Definition div_2exp_u64 (self : Mersenne31Complex) (exp : Z) : Mersenne31Complex :=
  {| c0 := Field.div_2exp_u64 (c0 self) exp; c1 := Field.div_2exp_u64 (c1 self) exp |}.

Definition is_zero_impl (self : Mersenne31Complex) : bool := is_zero (c0 self) && is_zero (c1 self).
Definition is_one_impl (self : Mersenne31Complex) : bool := is_one (c0 self) && is_zero (c1 self).

Definition add_assign_impl (self other : Mersenne31Complex) : Mersenne31Complex :=
  {| c0 := add_assign (c0 self) (c0 other); c1 := add_assign (c1 self) (c1 other) |}.

Definition sub_assign_impl (self other : Mersenne31Complex) : Mersenne31Complex :=
  {| c0 := sub_assign (c0 self) (c0 other); c1 := sub_assign (c1 self) (c1 other) |}.

Definition mul_assign_impl (self other : Mersenne31Complex) : Mersenne31Complex :=
  let v0 := mul_assign (c0 self) (c0 other) in
  let v1 := mul_assign (c1 self) (c1 other) in
  let self_c1 := add_assign (c1 self) (c0 self) in
  let t0 := add_assign (c0 other) (c1 other) in
  let self_c1 := mul_assign self_c1 t0 in
  let self_c1 := sub_assign self_c1 v0 in
  let self_c1 := sub_assign self_c1 v1 in
  let self_c0 := sub_assign v0 v1 in
  {| c0 := self_c0; c1 := self_c1 |}.

Definition square_impl (self : Mersenne31Complex) : Mersenne31Complex :=
  let v0 := sub_assign (c0 self) (c1 self) in
  let v3 := add_assign (c0 self) (c1 self) in
  let v2 := mul_assign (c0 self) (c1 self) in
  let v0 := mul_assign v0 v3 in
  let v0 := add_assign v0 v2 in
  {| c0 := sub_assign v0 v2; c1 := double v2 |}.

Definition negate_impl (self : Mersenne31Complex) : Mersenne31Complex :=
  {| c0 := negate (c0 self); c1 := negate (c1 self) |}.

Definition double_impl (self : Mersenne31Complex) : Mersenne31Complex :=
  {| c0 := double (c0 self); c1 := double (c1 self) |}.

Definition inverse_impl (self : Mersenne31Complex) : option Mersenne31Complex :=
  let v0 := square (c0 self) in
  let v1 := square (c1 self) in
  let v1_by_nonresidue := mul_by_non_residue_impl v1 in
  let v0 := sub_assign v0 v1_by_nonresidue in
  match inverse v0 with
  | Some inversed =>
      let c0' := mul_assign (c0 self) inversed in
      let c1' := negate (mul_assign (c1 self) inversed) in
      Some {| c0 := c0'; c1 := c1' |}
  | None => None
  end.

Definition eq (self other : Mersenne31Complex) : bool :=
  eq_impl (c0 self) (c0 other) && eq_impl (c1 self) (c1 other).

#[global] Instance complex_ops : FieldOps Mersenne31Complex := {
  ZERO := {| c0 := ZERO; c1 := ZERO |};
  ONE := {| c0 := ONE; c1 := ZERO |};
  is_zero := is_zero_impl;
  is_one := is_one_impl;
  inverse := inverse_impl;
  add_assign := add_assign_impl;
  sub_assign := sub_assign_impl;
  mul_assign := mul_assign_impl;
  square := square_impl;
  negate := negate_impl;
  double := double_impl;
}.

(** [mul_by_two], [div_by_two] *)
Definition mul_by_two (self : Mersenne31Complex) : Mersenne31Complex :=
  {| c0 := mul_2exp_u64 (c0 self) 1; c1 := mul_2exp_u64 (c1 self) 1 |}.
Definition div_by_two (self : Mersenne31Complex) : Mersenne31Complex :=
  {| c0 := Field.div_2exp_u64 (c0 self) 1; c1 := Field.div_2exp_u64 (c1 self) 1 |}.

(** [BaseField]: 2 + i is the non-residue of the next extension. *)
Definition QUADRATIC_NON_RESIDUE : Mersenne31Complex := {| c0 := 2; c1 := 1 |}.

Definition mul_by_non_residue (elem : Mersenne31Complex) : Mersenne31Complex :=
  let '(a, b) := (c0 elem, c1 elem) in
  let real := sub_assign (double a) b in
  let imag := add_assign (double b) a in
  {| c0 := real; c1 := imag |}.

(** [FieldExtension<Mersenne31Field>] *)
Definition mul_assign_by_base (self : Mersenne31Complex) (elem : Mersenne31Field) : Mersenne31Complex :=
  {| c0 := mul_assign (c0 self) elem; c1 := mul_assign (c1 self) elem |}.
Definition add_assign_base (self : Mersenne31Complex) (elem : Mersenne31Field) : Mersenne31Complex :=
  {| c0 := add_assign (c0 self) elem; c1 := c1 self |}.
Definition sub_assign_base (self : Mersenne31Complex) (elem : Mersenne31Field) : Mersenne31Complex :=
  {| c0 := sub_assign (c0 self) elem; c1 := c1 self |}.
Definition from_base (elem : Mersenne31Field) : Mersenne31Complex := {| c0 := elem; c1 := ZERO |}.
Definition into_coeffs_in_base (self : Mersenne31Complex) : list Mersenne31Field := [c0 self; c1 self].
Definition from_coeffs_in_base (coeffs : list Mersenne31Field) : option Mersenne31Complex :=
  match coeffs with a :: b :: _ => Some {| c0 := a; c1 := b |} | _ => None end.

(** The generators of the subgroups of order a power of two: [squares n x] is
    [x], its square, ... *)
Definition TWO_ADIC_GENERATOR : Mersenne31Complex := {| c0 := 311014874; c1 := 1584694829 |}.

Fixpoint squares (n : nat) (current : Mersenne31Complex) : list Mersenne31Complex :=
  match n with O => [current] | S n => current :: squares n (square_impl current) end.

Definition TWO_ADICITY_GENERATORS : list Mersenne31Complex := rev (squares 31 TWO_ADIC_GENERATOR).

Definition TWO_ADICITY_GENERATORS_INVERSED : list (option Mersenne31Complex) :=
  map inverse_impl TWO_ADICITY_GENERATORS.

(** The RISC-V build with [modular_ops] multiplies by the schoolbook. *)
Module Schoolbook.
Definition mul_assign_impl (self other : Mersenne31Complex) : Mersenne31Complex :=
  let v0 := mul_assign (c0 self) (c0 other) in
  let v1 := mul_assign (c1 self) (c1 other) in
  let v01 := mul_assign (c0 self) (c1 other) in
  let v10 := mul_assign (c1 self) (c0 other) in
  {| c0 := sub_assign v0 v1; c1 := add_assign v01 v10 |}.

Definition square_impl (self : Mersenne31Complex) : Mersenne31Complex :=
  let v0 := mul_assign (c0 self) (c0 self) in
  let v1 := mul_assign (c1 self) (c1 self) in
  let cross := mul_assign (c0 self) (c1 self) in
  {| c0 := sub_assign v0 v1; c1 := double cross |}.
End Schoolbook.
End Complex.

(** ** quartic.rs *)
Module Quartic.
Import Complex (Mersenne31Complex, mul_by_non_residue).

Record Mersenne31Quartic : Type := { c0 : Mersenne31Complex; c1 : Mersenne31Complex }.

Definition from_array_of_base (els : list Mersenne31Field) : option Mersenne31Quartic :=
  match els with
  | [a; b; c; d] => Some {| c0 := {| Complex.c0 := a; Complex.c1 := b |};
                            c1 := {| Complex.c0 := c; Complex.c1 := d |} |}
  | _ => None
  end.

Definition q_add_assign (self other : Mersenne31Quartic) : Mersenne31Quartic :=
  {| c0 := add_assign (c0 self) (c0 other); c1 := add_assign (c1 self) (c1 other) |}.

Definition q_sub_assign (self other : Mersenne31Quartic) : Mersenne31Quartic :=
  {| c0 := sub_assign (c0 self) (c0 other); c1 := sub_assign (c1 self) (c1 other) |}.

Definition q_mul_assign (self other : Mersenne31Quartic) : Mersenne31Quartic :=
  let v0 := mul_assign (c0 self) (c0 other) in
  let v1 := mul_assign (c1 self) (c1 other) in
  let t := c0 self in
  let self_c1 := add_assign (c1 self) t in
  let t0 := add_assign (c0 other) (c1 other) in
  let self_c1 := mul_assign self_c1 t0 in
  let self_c1 := sub_assign self_c1 v0 in
  let self_c1 := sub_assign self_c1 v1 in
  let v1 := mul_by_non_residue v1 in
  {| c0 := add_assign v0 v1; c1 := self_c1 |}.

Definition q_square (self : Mersenne31Quartic) : Mersenne31Quartic :=
  let v0 := sub_assign (c0 self) (c1 self) in
  let t0 := mul_by_non_residue (c1 self) in
  let v3 := sub_assign (c0 self) t0 in
  let v2 := mul_assign (c0 self) (c1 self) in
  let v0 := mul_assign v0 v3 in
  let v0 := add_assign v0 v2 in
  {| c0 := add_assign v0 (mul_by_non_residue v2); c1 := double v2 |}.

Definition q_negate (self : Mersenne31Quartic) : Mersenne31Quartic :=
  {| c0 := negate (c0 self); c1 := negate (c1 self) |}.

Definition q_double (self : Mersenne31Quartic) : Mersenne31Quartic :=
  {| c0 := double (c0 self); c1 := double (c1 self) |}.

Definition q_inverse (self : Mersenne31Quartic) : option Mersenne31Quartic :=
  let v0 := square (c0 self) in
  let v1 := square (c1 self) in
  let v0 := sub_assign v0 (mul_by_non_residue v1) in
  match inverse v0 with
  | Some inversed =>
      Some {| c0 := mul_assign (c0 self) inversed; c1 := negate (mul_assign (c1 self) inversed) |}
  | None => None
  end.

#[global] Instance quartic_ops : FieldOps Mersenne31Quartic := {
  ZERO := {| c0 := ZERO; c1 := ZERO |};
  ONE := {| c0 := ONE; c1 := ZERO |};
  is_zero x := is_zero (c0 x) && is_zero (c1 x);
  is_one x := is_one (c0 x) && is_zero (c1 x);
  inverse := q_inverse;
  add_assign := q_add_assign;
  sub_assign := q_sub_assign;
  mul_assign := q_mul_assign;
  square := q_square;
  negate := q_negate;
  double := q_double;
}.

(** [FieldExtension<Mersenne31Complex>] and [FieldExtension<Mersenne31Field>] *)
Definition mul_assign_by_complex (self : Mersenne31Quartic) (elem : Mersenne31Complex) : Mersenne31Quartic :=
  {| c0 := mul_assign (c0 self) elem; c1 := mul_assign (c1 self) elem |}.
Definition mul_assign_by_base (self : Mersenne31Quartic) (elem : Mersenne31Field) : Mersenne31Quartic :=
  {| c0 := Complex.mul_assign_by_base (c0 self) elem; c1 := Complex.mul_assign_by_base (c1 self) elem |}.
Definition add_assign_base (self : Mersenne31Quartic) (elem : Mersenne31Field) : Mersenne31Quartic :=
  {| c0 := Complex.add_assign_base (c0 self) elem; c1 := c1 self |}.
Definition sub_assign_base (self : Mersenne31Quartic) (elem : Mersenne31Field) : Mersenne31Quartic :=
  {| c0 := Complex.sub_assign_base (c0 self) elem; c1 := c1 self |}.
Definition from_base (elem : Mersenne31Field) : Mersenne31Quartic :=
  {| c0 := Complex.from_base elem; c1 := ZERO |}.
Definition into_coeffs_in_base (self : Mersenne31Quartic) : list Mersenne31Field :=
  Complex.into_coeffs_in_base (c0 self) ++ Complex.into_coeffs_in_base (c1 self).

Definition fma_implementation (dst a b : Mersenne31Quartic) : Mersenne31Quartic :=
  add_assign (mul_assign dst a) b.
End Quartic.

(** ** Mersenne31Complex is a field *)

Add Ring m31_ring : (fv_ring (F := Mersenne31Field)).

Notation fp := (fv (F := Mersenne31Field)).

(** A non-square is a non-residue in the homogeneous form. *)
Lemma nonsquare_nonresidue x : repr x -> sqrt_impl x = None ->
  forall a b : fp, vmul a a = vmul (fval x : fp) (vmul b b) -> a = vzero /\ b = vzero.
Proof.
  intros Hx Hs a b E. destruct (Zmod.eqb_spec b Zmod.zero) as [-> | Hb].
  - split; [|reflexivity]. change (Zmod.zero : Fp) with (vzero : fp) in E.
    assert (E0 : vmul a a = vzero) by (rewrite E; ring). destruct (fv_integral a a E0); assumption.
  - exfalso. assert (Hinv : exists i : fp, vmul i b = vone)
      by (exists (Zmod.inv b); exact (Zmod.mul_inv_same_l_prime b ORDER_prime Hb)).
    destruct Hinv as [i Hi].
    destruct (sqrt_complete x (vmul a i) Hx) as [y Hy]; [|congruence].
    assert (Hroot : forall u : fp, vmul a a = vmul u (vmul b b) -> u = vmul (vmul a i) (vmul a i)).
    { intros u Eu. transitivity (vmul (vmul u (vmul b b)) (vmul i i)); [|rewrite <- Eu; ring].
      transitivity (vmul u (vmul (vmul i b) (vmul i b))); [rewrite Hi; ring | ring]. }
    exact (Hroot (fval x) E).
Qed.

Lemma minus_one_nonresidue (a b : fp) : vmul a a = vmul (vopp vone) (vmul b b) -> a = vzero /\ b = vzero.
Proof.
  change (vopp vone) with (Zmod.opp (fval 1)). unfold fval. rewrite <- Zmod.of_Z_opp.
  change (Zmod.of_Z ORDER (- (1))) with (fval (-1)). rewrite <- (fval_eq (ORDER - 1) (-1) 1) by lia.
  apply nonsquare_nonresidue; [unfold repr, ORDER; lia | vm_compute; reflexivity].
Qed.

Section ComplexField.
Import Complex.
Implicit Types x y : Mersenne31Complex.

Definition cbeta : fp := vopp vone.
Definition cwf x : Prop := fwf (c0 x) /\ fwf (c1 x).
Definition cabs x : fp * fp := (fabs (c0 x), fabs (c1 x)).

Lemma complex_value x u v : reps (c0 x) u -> reps (c1 x) v -> cwf x /\ cabs x = (u, v).
Proof. intros [W0 V0] [W1 V1]. unfold cwf, cabs. rewrite V0, V1. auto. Qed.

Lemma cwf_reps x : cwf x -> reps (c0 x) (cabs x).1 /\ reps (c1 x) (cabs x).2.
Proof. intros [W0 W1]. split; split; auto. Qed.

(** The value of each component, then the two ring identities. *)
Ltac complex_op x :=
  repeat match goal with H : cwf _ |- _ => apply cwf_reps in H; destruct H as [? ?] end;
  let V := fresh "V" in
  eassert (V : cwf x /\ cabs x = _) by (apply complex_value;
    cbn [c0 c1 add_assign_impl sub_assign_impl mul_assign_impl square_impl negate_impl double_impl
         Schoolbook.mul_assign_impl Schoolbook.square_impl]; eauto 20 with field_reps);
  destruct V as [? ->]; split; [assumption|].

Lemma complex_add_ok x y : cwf x -> cwf y ->
  cwf (add_assign_impl x y) /\ cabs (add_assign_impl x y) = qadd (add := vadd) (cabs x) (cabs y).
Proof. intros Hx Hy. complex_op (add_assign_impl x y). reflexivity. Qed.

Lemma complex_sub_ok x y : cwf x -> cwf y ->
  cwf (sub_assign_impl x y) /\ cabs (sub_assign_impl x y) = qsub (sub := vsub) (cabs x) (cabs y).
Proof. intros Hx Hy. complex_op (sub_assign_impl x y). reflexivity. Qed.

Notation cmul := (qmul (add := vadd) (mul := vmul) cbeta).
Notation cadd := (qadd (add := vadd)).

Lemma complex_mul_ok x y : cwf x -> cwf y ->
  cwf (mul_assign_impl x y) /\ cabs (mul_assign_impl x y) = cmul (cabs x) (cabs y).
Proof.
  intros Hx Hy. complex_op (mul_assign_impl x y). unfold qmul, cbeta. f_equal; ring.
Qed.

Lemma complex_square_ok x : cwf x ->
  cwf (square_impl x) /\ cabs (square_impl x) = cmul (cabs x) (cabs x).
Proof. intros Hx. complex_op (square_impl x). unfold qmul, cbeta. f_equal; ring. Qed.

Lemma complex_schoolbook_mul_ok x y : cwf x -> cwf y ->
  cwf (Schoolbook.mul_assign_impl x y) /\ cabs (Schoolbook.mul_assign_impl x y) = cmul (cabs x) (cabs y).
Proof. intros Hx Hy. complex_op (Schoolbook.mul_assign_impl x y). unfold qmul, cbeta. f_equal; ring. Qed.

Lemma complex_schoolbook_square_ok x : cwf x ->
  cwf (Schoolbook.square_impl x) /\ cabs (Schoolbook.square_impl x) = cmul (cabs x) (cabs x).
Proof. intros Hx. complex_op (Schoolbook.square_impl x). unfold qmul, cbeta. f_equal; ring. Qed.

Lemma complex_negate_ok x : cwf x ->
  cwf (negate_impl x) /\ cabs (negate_impl x) = qopp (opp := vopp) (cabs x).
Proof. intros Hx. complex_op (negate_impl x). reflexivity. Qed.

Lemma complex_double_ok x : cwf x -> cwf (double_impl x) /\ cabs (double_impl x) = cadd (cabs x) (cabs x).
Proof. intros Hx. complex_op (double_impl x). reflexivity. Qed.

Lemma complex_is_zero_ok x : cwf x -> is_zero_impl x = true <-> cabs x = qzero (zero := vzero).
Proof.
  intros [W0 W1]. unfold is_zero_impl, cabs, qzero. rewrite andb_true_iff, !is_zero_ok by auto.
  split; [intros [-> ->]; reflexivity | intros E; split; [exact (f_equal fst E) | exact (f_equal snd E)]].
Qed.

Lemma complex_inverse_ok x : cwf x ->
  match inverse_impl x with
  | Some y => cwf y /\ cmul (cabs x) (cabs y) = qone (zero := vzero) (one := vone)
  | None => cabs x = qzero (zero := vzero)
  end.
Proof.
  intros Hx. unfold inverse_impl.
  set (n := sub_assign _ _). assert (Hn : reps n (qnorm (sub := vsub) (mul := vmul) cbeta (cabs x))).
  { apply cwf_reps in Hx. destruct Hx as [R0 R1]. subst n. change mul_by_non_residue_impl with (negate (F := Mersenne31Field)).
    eassert (Hv : reps (sub_assign (square (c0 x)) (negate (square (c1 x)))) _) by eauto with field_reps.
    replace (qnorm cbeta (cabs x)) with
      (vsub (vmul (cabs x).1 (cabs x).1) (vopp (vmul (cabs x).2 (cabs x).2))); [exact Hv|].
    unfold qnorm, cbeta. ring. }
  destruct Hn as [Wn Vn]. pose proof (inverse_ok' n Wn) as Hi. destruct (inverse n) as [i|].
  - destruct Hi as [Wi Ei]. apply cwf_reps in Hx. destruct Hx as [R0 R1].
    pose proof (reps_self i Wi) as Ri.
    eassert (V : cwf {| c0 := mul_assign (c0 x) i; c1 := negate (mul_assign (c1 x) i) |} /\ cabs _ = _)
      by (apply complex_value; cbn [c0 c1]; eauto with field_reps).
    destruct V as [W ->]. split; [exact W|]. rewrite Vn in Ei. unfold qnorm in Ei.
    unfold qmul, qone, cbeta in *. cbn [fst snd]. f_equal; [|ring]. etransitivity; [|exact Ei]. ring.
  - apply (qnorm_zero (fv_ring (F := Mersenne31Field)) cbeta minus_one_nonresidue). rewrite <- Vn. exact Hi.
Qed.

Lemma complex_zero_ok : cwf ZERO /\ cabs ZERO = qzero (zero := vzero).
Proof. apply complex_value; apply reps_zero. Qed.
Lemma complex_one_ok : cwf ONE /\ cabs ONE = qone (zero := vzero) (one := vone).
Proof. apply complex_value; [apply reps_one | apply reps_zero]. Qed.
Lemma complex_nontrivial : qone (R := fp) (zero := vzero) (one := vone) <> qzero (zero := vzero).
Proof. intros E. apply (fv_nontrivial (F := Mersenne31Field)). exact (f_equal fst E). Qed.
End ComplexField.

#[export] Instance Complex_lawful : LawfulField Complex.Mersenne31Complex := {|
  fv := fp * fp; vzero := qzero (zero := vzero); vone := qone (zero := vzero) (one := vone);
  vadd := qadd (add := vadd); vmul := qmul (add := vadd) (mul := vmul) cbeta;
  vsub := qsub (sub := vsub); vopp := qopp (opp := vopp);
  fv_ring := quadratic_ring (fv_ring (F := Mersenne31Field)) cbeta;
  fv_integral := quadratic_integral (fv_ring (F := Mersenne31Field)) cbeta
                   (fv_integral (F := Mersenne31Field)) minus_one_nonresidue;
  fv_nontrivial := complex_nontrivial;
  fwf := cwf; fabs := cabs;
  ZERO_ok := complex_zero_ok; ONE_ok := complex_one_ok;
  is_zero_ok := complex_is_zero_ok; add_ok := complex_add_ok; sub_ok := complex_sub_ok;
  mul_ok := complex_mul_ok; square_ok' := complex_square_ok; negate_ok' := complex_negate_ok;
  double_ok := complex_double_ok; inverse_ok' := complex_inverse_ok;
|}.

(** ** Mersenne31Quartic is a field *)

Notation fp2 := (fv (F := Complex.Mersenne31Complex)).
Add Ring complex_ring : (fv_ring (F := Complex.Mersenne31Complex)).

Definition qbeta : fp2 := fabs Complex.QUADRATIC_NON_RESIDUE.

Lemma reps_base x : repr x -> reps (F := Mersenne31Field) x (fval x : fp).
Proof. split; auto. Qed.

Lemma non_residue_value : qbeta = ((vadd vone vone, vone) : fp * fp).
Proof. reflexivity. Qed.

Lemma mul_by_non_residue_ok x v : reps x v -> reps (Complex.mul_by_non_residue x) (vmul qbeta v).
Proof.
  intros [Hx <-]. change (cwf x) in Hx. apply cwf_reps in Hx. destruct Hx as [R0 R1].
  unfold Complex.mul_by_non_residue.
  eassert (V : cwf {| Complex.c0 := sub_assign (double (Complex.c0 x)) (Complex.c1 x);
                      Complex.c1 := add_assign (double (Complex.c1 x)) (Complex.c0 x) |} /\ cabs _ = _)
    by (apply complex_value; cbn [Complex.c0 Complex.c1]; eauto with field_reps).
  destruct V as [W V]. split; [exact W|]. change (fabs (F := Complex.Mersenne31Complex)) with cabs.
  rewrite V, non_residue_value. change (vmul (F := Complex.Mersenne31Complex)) with
    (qmul (add := vadd (F := Mersenne31Field)) (mul := vmul) cbeta).
  unfold qmul, cbeta. cbn [fst snd]. f_equal; ring.
Qed.

#[export] Hint Resolve mul_by_non_residue_ok : field_reps.

(** 2 + i is not a square: its norm 5 is not one. *)
Lemma two_plus_i_nonresidue (a b : fp2) : vmul a a = vmul qbeta (vmul b b) -> a = vzero /\ b = vzero.
Proof.
  intros E. set (N := qnorm (sub := vsub (F := Mersenne31Field)) (mul := vmul) cbeta).
  pose proof (qnorm_mul (fv_ring (F := Mersenne31Field)) cbeta) as HN.
  assert (E5 : vmul (F := Mersenne31Field) (N a) (N a) =
    vmul (F := Mersenne31Field) (fval 5) (vmul (F := Mersenne31Field) (N b) (N b))).
  { pose proof (f_equal N E) as En. unfold N in *.
    change (vmul (F := Complex.Mersenne31Complex)) with
      (qmul (add := vadd (F := Mersenne31Field)) (mul := vmul) cbeta) in En.
    rewrite !HN in En. rewrite En. f_equal. }
  destruct (nonsquare_nonresidue 5 ltac:(unfold repr, ORDER; lia) ltac:(vm_compute; reflexivity) _ _ E5)
    as [Na Nb].
  split; apply (qnorm_zero (fv_ring (F := Mersenne31Field)) cbeta minus_one_nonresidue); assumption.
Qed.

Section QuarticField.
Import Quartic.
Implicit Types x y : Mersenne31Quartic.

Definition qwf x : Prop := fwf (c0 x) /\ fwf (c1 x).
Definition qabs x : fp2 * fp2 := (fabs (c0 x), fabs (c1 x)).

Lemma quartic_value x u v : reps (c0 x) u -> reps (c1 x) v -> qwf x /\ qabs x = (u, v).
Proof. intros [W0 V0] [W1 V1]. unfold qwf, qabs. rewrite V0, V1. auto. Qed.

Lemma qwf_reps x : qwf x -> reps (c0 x) (qabs x).1 /\ reps (c1 x) (qabs x).2.
Proof. intros [W0 W1]. split; split; auto. Qed.

Ltac quartic_op x :=
  repeat match goal with H : qwf _ |- _ => apply qwf_reps in H; destruct H as [? ?] end;
  let V := fresh "V" in
  eassert (V : qwf x /\ qabs x = _) by (apply quartic_value;
    cbn [c0 c1 q_add_assign q_sub_assign q_mul_assign q_square q_negate q_double]; eauto 20 with field_reps);
  destruct V as [? ->]; split; [assumption|].

Notation q4mul := (qmul (add := vadd) (mul := vmul) qbeta).

Lemma quartic_add_ok x y : qwf x -> qwf y ->
  qwf (q_add_assign x y) /\ qabs (q_add_assign x y) = qadd (add := vadd) (qabs x) (qabs y).
Proof. intros Hx Hy. quartic_op (q_add_assign x y). reflexivity. Qed.

Lemma quartic_sub_ok x y : qwf x -> qwf y ->
  qwf (q_sub_assign x y) /\ qabs (q_sub_assign x y) = qsub (sub := vsub) (qabs x) (qabs y).
Proof. intros Hx Hy. quartic_op (q_sub_assign x y). reflexivity. Qed.

Lemma quartic_mul_ok x y : qwf x -> qwf y ->
  qwf (q_mul_assign x y) /\ qabs (q_mul_assign x y) = q4mul (qabs x) (qabs y).
Proof. intros Hx Hy. quartic_op (q_mul_assign x y). unfold qmul. f_equal; ring. Qed.

Lemma quartic_square_ok x : qwf x -> qwf (q_square x) /\ qabs (q_square x) = q4mul (qabs x) (qabs x).
Proof. intros Hx. quartic_op (q_square x). unfold qmul. f_equal; ring. Qed.

Lemma quartic_negate_ok x : qwf x -> qwf (q_negate x) /\ qabs (q_negate x) = qopp (opp := vopp) (qabs x).
Proof. intros Hx. quartic_op (q_negate x). reflexivity. Qed.

Lemma quartic_double_ok x : qwf x -> qwf (q_double x) /\ qabs (q_double x) = qadd (add := vadd) (qabs x) (qabs x).
Proof. intros Hx. quartic_op (q_double x). reflexivity. Qed.

Lemma quartic_is_zero_ok x : qwf x -> is_zero x = true <-> qabs x = qzero (zero := vzero).
Proof.
  intros [W0 W1]. change (is_zero x) with (is_zero (c0 x) && is_zero (c1 x)).
  unfold qabs, qzero. rewrite andb_true_iff, !is_zero_ok by auto.
  split; [intros [-> ->]; reflexivity | intros E; split; [exact (f_equal fst E) | exact (f_equal snd E)]].
Qed.

Lemma quartic_inverse_ok x : qwf x ->
  match q_inverse x with
  | Some y => qwf y /\ q4mul (qabs x) (qabs y) = qone (zero := vzero) (one := vone)
  | None => qabs x = qzero (zero := vzero)
  end.
Proof.
  intros Hx. unfold q_inverse.
  set (n := sub_assign _ _). assert (Hn : reps n (qnorm (sub := vsub) (mul := vmul) qbeta (qabs x))).
  { apply qwf_reps in Hx. destruct Hx as [R0 R1]. subst n. unfold qnorm. eauto with field_reps. }
  destruct Hn as [Wn Vn]. pose proof (inverse_ok' n Wn) as Hi. destruct (inverse n) as [i|].
  - destruct Hi as [Wi Ei]. apply qwf_reps in Hx. destruct Hx as [R0 R1].
    pose proof (reps_self i Wi) as Ri.
    eassert (V : qwf {| c0 := mul_assign (c0 x) i; c1 := negate (mul_assign (c1 x) i) |} /\ qabs _ = _)
      by (apply quartic_value; cbn [c0 c1]; eauto with field_reps).
    destruct V as [W ->]. split; [exact W|]. rewrite Vn in Ei. unfold qnorm in Ei.
    unfold qmul, qone. cbn [fst snd]. f_equal; [|ring]. etransitivity; [|exact Ei]. ring.
  - apply (qnorm_zero (fv_ring (F := Complex.Mersenne31Complex)) qbeta two_plus_i_nonresidue).
    rewrite <- Vn. exact Hi.
Qed.

Lemma quartic_zero_ok : qwf ZERO /\ qabs ZERO = qzero (zero := vzero).
Proof. apply quartic_value; apply reps_zero. Qed.
Lemma quartic_one_ok : qwf ONE /\ qabs ONE = qone (zero := vzero) (one := vone).
Proof. apply quartic_value; [apply reps_one | apply reps_zero]. Qed.
Lemma quartic_nontrivial : qone (R := fp2) (zero := vzero) (one := vone) <> qzero (zero := vzero).
Proof. intros E. apply (fv_nontrivial (F := Complex.Mersenne31Complex)). exact (f_equal fst E). Qed.
End QuarticField.

#[export] Instance Quartic_lawful : LawfulField Quartic.Mersenne31Quartic := {|
  fv := fp2 * fp2; vzero := qzero (zero := vzero); vone := qone (zero := vzero) (one := vone);
  vadd := qadd (add := vadd); vmul := qmul (add := vadd) (mul := vmul) qbeta;
  vsub := qsub (sub := vsub); vopp := qopp (opp := vopp);
  fv_ring := quadratic_ring (fv_ring (F := Complex.Mersenne31Complex)) qbeta;
  fv_integral := quadratic_integral (fv_ring (F := Complex.Mersenne31Complex)) qbeta
                   (fv_integral (F := Complex.Mersenne31Complex)) two_plus_i_nonresidue;
  fv_nontrivial := quartic_nontrivial;
  fwf := qwf; fabs := qabs;
  ZERO_ok := quartic_zero_ok; ONE_ok := quartic_one_ok;
  is_zero_ok := quartic_is_zero_ok; add_ok := quartic_add_ok; sub_ok := quartic_sub_ok;
  mul_ok := quartic_mul_ok; square_ok' := quartic_square_ok; negate_ok' := quartic_negate_ok;
  double_ok := quartic_double_ok; inverse_ok' := quartic_inverse_ok;
|}.

(** ** The two-adic generators *)
Section TwoAdic.
Import Complex.

Lemma squares_lookup n : forall x j, (j <= n)%nat ->
  squares n x !! j = Some (exp_power_of_2 x j).
Proof.
  induction n as [|n IH]; intros x [|j] Hj; try reflexivity; [lia|]. cbn. apply IH. lia.
Qed.

Lemma squares_length n : forall x, length (squares n x) = S n.
Proof. induction n as [|n IH]; intros x; cbn; [reflexivity | rewrite IH; reflexivity]. Qed.

Lemma exp_power_of_2_ok {F} `{LawfulField F} j : forall x : F, fwf x ->
  reps (exp_power_of_2 x j) (vpow (fabs x) (2 ^ j)).
Proof.
  induction j as [|j IH]; intros x Hx; cbn [exp_power_of_2].
  - split; [exact Hx|]. cbn. symmetry. rewrite (Rmul_comm fv_ring). apply (Rmul_1_l fv_ring).
  - destruct (square_ok' x Hx) as [Ws Vs]. destruct (IH _ Ws) as [W V]. split; [exact W|].
    rewrite V, Vs, vpow_square. reflexivity.
Qed.

Lemma generator_lookup k : (k <= 31)%nat ->
  TWO_ADICITY_GENERATORS !! k = Some (exp_power_of_2 TWO_ADIC_GENERATOR (31 - k)).
Proof.
  intros Hk. unfold TWO_ADICITY_GENERATORS. rewrite rev_alt. fold (reverse (squares 31 TWO_ADIC_GENERATOR)).
  rewrite reverse_lookup by (rewrite squares_length; lia). rewrite squares_length.
  rewrite squares_lookup by lia. reflexivity.
Qed.

Lemma vpow_mul {F} `{LawfulField F} (x : fv) a b : vpow x (a * b) = vpow (vpow x a) b.
Proof.
  induction b as [|b IH]; [rewrite Nat.mul_0_r; reflexivity|].
  rewrite Nat.mul_succ_r, Nat.add_comm, vpow_add, IH. reflexivity.
Qed.

Lemma vpow_one {F} `{LawfulField F} n : vpow (vone : fv) n = vone.
Proof. induction n as [|n IH]; [reflexivity|]. cbn. rewrite IH. apply (Rmul_1_l fv_ring). Qed.
End TwoAdic.

(** ** Main theorems *)

(** [Mersenne31Complex] is the field of pairs [a + b i] with [i^2 = -1]: the
    Karatsuba product, the square and the schoolbook versions compute it on any
    representations, and [inverse] fails exactly on zero. *)
Theorem complex_field_correct (x y : Complex.Mersenne31Complex) :
  cwf x -> cwf y ->
  let '((a, b), (c, d)) := (cabs x, cabs y) in
  (cwf (Complex.mul_assign_impl x y) /\
     cabs (Complex.mul_assign_impl x y) = (vsub (vmul a c) (vmul b d), vadd (vmul a d) (vmul b c))) /\
  cabs (Complex.square_impl x) = cabs (Complex.mul_assign_impl x x) /\
  cabs (Complex.Schoolbook.mul_assign_impl x y) = cabs (Complex.mul_assign_impl x y) /\
  cabs (Complex.Schoolbook.square_impl x) = cabs (Complex.mul_assign_impl x x) /\
  match Complex.inverse_impl x with
  | Some z => cwf z /\ cabs (Complex.mul_assign_impl x z) = (vone, vzero)
  | None => a = vzero /\ b = vzero
  end.
Proof.
  intros Hx Hy. destruct (complex_mul_ok x y Hx Hy) as [Wm Vm].
  destruct (complex_mul_ok x x Hx Hx) as [_ Vxx]. destruct (complex_square_ok x Hx) as [_ Vs].
  destruct (complex_schoolbook_mul_ok x y Hx Hy) as [_ Vsm].
  destruct (complex_schoolbook_square_ok x Hx) as [_ Vss].
  pose proof (complex_inverse_ok x Hx) as Hi.
  rewrite Vs, Vsm, Vss, Vm, Vxx. unfold cabs in *. cbv beta iota. split_and!; auto.
  - unfold qmul, cbeta. cbn [fst snd]. f_equal; ring.
  - destruct (Complex.inverse_impl x) as [z|].
    + destruct Hi as [Wz Ez]. split; [exact Wz|]. destruct (complex_mul_ok x z Hx Wz) as [_ Vz].
      unfold cabs in Vz. rewrite Vz. exact Ez.
    + split; [exact (f_equal fst Hi) | exact (f_equal snd Hi)].
Qed.

Lemma complex_field_correct_witness :
  match Complex.inverse_impl Complex.QUADRATIC_NON_RESIDUE with
  | Some z => cabs (Complex.mul_assign_impl Complex.QUADRATIC_NON_RESIDUE z) = (vone, vzero)
  | None => False
  end.
Proof.
  assert (W : cwf Complex.QUADRATIC_NON_RESIDUE)
    by (split; change repr with repr; unfold fwf, repr; cbn; unfold repr, ORDER; lia).
  pose proof (complex_field_correct Complex.QUADRATIC_NON_RESIDUE Complex.QUADRATIC_NON_RESIDUE W W) as Hc.
  unfold cabs at 1 2 in Hc. cbv beta iota in Hc. destruct Hc as (_ & _ & _ & _ & Hi).
  destruct (Complex.inverse_impl Complex.QUADRATIC_NON_RESIDUE) as [z|] eqn:E.
  - exact (proj2 Hi).
  - vm_compute in E. discriminate E.
Defined.

(** C37: [Mersenne31Quartic], in which challenges and evaluations live, is the
    field of pairs [a + b u] over [Mersenne31Complex] with [u^2 = 2 + i]: 2 + i
    is not a square there, the product and the square compute the field
    product on any representations, and [inverse] fails exactly on zero. *)
Theorem quartic_field_correct (x y : Quartic.Mersenne31Quartic) :
  qwf x -> qwf y ->
  let '((a, b), (c, d)) := (qabs x, qabs y) in
  (forall z : fp2, vmul z z <> qbeta) /\
  (qwf (mul_assign x y) /\
     qabs (mul_assign x y) = (vadd (vmul a c) (vmul qbeta (vmul b d)), vadd (vmul a d) (vmul b c))) /\
  qabs (square x) = qabs (mul_assign x x) /\
  match inverse x with
  | Some z => qwf z /\ qabs (mul_assign x z) = (vone, vzero)
  | None => a = vzero /\ b = vzero
  end.
Proof.
  intros Hx Hy. destruct (quartic_mul_ok x y Hx Hy) as [Wm Vm].
  destruct (quartic_mul_ok x x Hx Hx) as [_ Vxx]. destruct (quartic_square_ok x Hx) as [_ Vs].
  pose proof (quartic_inverse_ok x Hx) as Hi.
  unfold qabs at 1 2. cbv beta iota. split_and!.
  - intros z E. destruct (two_plus_i_nonresidue z vone) as [_ E1]; [rewrite E; ring|].
    exact (fv_nontrivial (F := Complex.Mersenne31Complex) E1).
  - exact Wm.
  - etransitivity; [exact Vm|]. reflexivity.
  - etransitivity; [exact Vs|]. symmetry. exact Vxx.
  - change (inverse x) with (Quartic.q_inverse x). destruct (Quartic.q_inverse x) as [z|].
    + destruct Hi as [Wz Ez]. split; [exact Wz|]. destruct (quartic_mul_ok x z Hx Wz) as [_ Vz].
      etransitivity; [exact Vz | exact Ez].
    + split; [exact (f_equal fst Hi) | exact (f_equal snd Hi)].
Qed.

Definition quartic_sample : Quartic.Mersenne31Quartic :=
  {| Quartic.c0 := Complex.QUADRATIC_NON_RESIDUE; Quartic.c1 := Complex.TWO_ADIC_GENERATOR |}.

Lemma quartic_field_correct_witness :
  match inverse quartic_sample with
  | Some z => qabs (mul_assign quartic_sample z) = (vone, vzero)
  | None => False
  end.
Proof.
  assert (W : qwf quartic_sample)
    by (split; split; change (repr 2) || unfold quartic_sample; cbn; unfold repr, ORDER; lia).
  pose proof (quartic_field_correct quartic_sample quartic_sample W W) as Hq.
  unfold qabs at 1 2 in Hq. cbv beta iota in Hq. destruct Hq as (_ & _ & _ & Hi).
  destruct (inverse quartic_sample) as [z|] eqn:E.
  - exact (proj2 Hi).
  - vm_compute in E. discriminate E.
Defined.

Section GeneratorOrder.
Import Complex.

Lemma generator_wf : fwf TWO_ADIC_GENERATOR.
Proof. split; cbn; unfold repr, ORDER; lia. Qed.

(** The last squares of the chain: 1, and -1 just before it. *)
Lemma generator_top : vpow (fabs TWO_ADIC_GENERATOR) (2 ^ 31) = vone.
Proof.
  destruct (exp_power_of_2_ok (F := Mersenne31Complex) 31 TWO_ADIC_GENERATOR generator_wf) as [_ <-].
  change (cabs (exp_power_of_2 TWO_ADIC_GENERATOR 31) = cabs (ONE : Mersenne31Complex)).
  unfold cabs. f_equal; apply eq_impl_iff; try (vm_compute; split; congruence); vm_compute; reflexivity.
Qed.

Lemma generator_half : vpow (fabs TWO_ADIC_GENERATOR) (2 ^ 30) <> vone.
Proof.
  destruct (exp_power_of_2_ok (F := Mersenne31Complex) 30 TWO_ADIC_GENERATOR generator_wf) as [_ <-].
  change (cabs (exp_power_of_2 TWO_ADIC_GENERATOR 30) <> cabs (ONE : Mersenne31Complex)).
  intros E. apply (f_equal fst) in E. unfold cabs in E. cbn [fst] in E.
  apply eq_impl_iff in E; [vm_compute in E; discriminate E | vm_compute; split; congruence ..].
Qed.

#[local] Opaque Nat.pow exp_power_of_2 inverse_impl.

Lemma generator_power k j : (k <= 31)%nat ->
  vpow (fabs (exp_power_of_2 TWO_ADIC_GENERATOR (31 - k))) (2 ^ j) =
  vpow (fabs TWO_ADIC_GENERATOR) (2 ^ (31 - k + j)).
Proof.
  intros Hk. destruct (exp_power_of_2_ok (31 - k) TWO_ADIC_GENERATOR generator_wf) as [_ ->].
  rewrite <- vpow_mul, <- Nat.pow_add_r. reflexivity.
Qed.

(** A power that is one stays one when squared on. *)
Lemma vpow_climb {F} `{LawfulField F} (v : fv) i j : (i <= j)%nat ->
  vpow v (2 ^ i) = vone -> vpow v (2 ^ j) = vone.
Proof.
  intros Hij E. replace j with (i + (j - i))%nat by lia.
  rewrite Nat.pow_add_r, vpow_mul, E. apply vpow_one.
Qed.

Lemma inverse_in_table k g h : TWO_ADICITY_GENERATORS !! k = Some g -> inverse_impl g = Some h ->
  TWO_ADICITY_GENERATORS_INVERSED !! k = Some (Some h).
Proof.
  unfold TWO_ADICITY_GENERATORS_INVERSED. generalize TWO_ADICITY_GENERATORS. intros l Hg Hh.
  rewrite list_lookup_fmap, Hg. exact (f_equal Some Hh).
Qed.

Lemma generator_table k : (k <= 31)%nat ->
  exists g h, TWO_ADICITY_GENERATORS !! k = Some g /\
    TWO_ADICITY_GENERATORS_INVERSED !! k = Some (Some h) /\ cwf g /\ cwf h /\
    vpow (fabs g) (2 ^ k) = vone /\ (forall j, (j < k)%nat -> vpow (fabs g) (2 ^ j) <> vone) /\
    vmul (fabs g) (fabs h) = vone.
Proof.
  intros Hk. pose proof (generator_lookup k Hk) as Hg.
  set (g := exp_power_of_2 TWO_ADIC_GENERATOR (31 - k)) in *.
  destruct (exp_power_of_2_ok (31 - k) TWO_ADIC_GENERATOR generator_wf) as [Wg _]. fold g in Wg.
  assert (Htop : vpow (fabs g) (2 ^ k) = vone).
  { subst g. rewrite generator_power by exact Hk. replace (31 - k + k)%nat with 31%nat by lia. apply generator_top. }
  pose proof (inverse_ok' g Wg) as Hi. destruct (inverse g) as [h|] eqn:Eh.
  - destruct Hi as [Wh Eq]. exists g, h. split; [exact Hg|]. split.
    { apply (inverse_in_table k g h Hg Eh). }
    split; [exact Wg|]. split; [exact Wh|]. split; [exact Htop|]. split; [|exact Eq].
    intros j Hj E. apply generator_half. apply (vpow_climb _ (31 - k + j)); [lia|].
    rewrite <- generator_power by exact Hk. exact E.
  - exfalso. rewrite Hi in Htop. apply (fv_nontrivial (F := Mersenne31Complex)). rewrite <- Htop.
    assert (Hpos : exists n, (2 ^ k)%nat = S n) by (exists (pred (2 ^ k)); pose proof (Nat.pow_nonzero 2 k); lia).
    destruct Hpos as [n ->]. cbn [vpow]. apply (ring_mul_0_l (fv_ring (F := Mersenne31Complex))).
Qed.

(** For every [k] up to 31, [TWO_ADICITY_GENERATORS[k]] generates a
    multiplicative group of exactly [2^k] elements of [Mersenne31Complex] (the
    domains of the FFTs), and the table of inverses holds its inverse. *)
Theorem two_adic_generators_order k : (k <= 31)%nat ->
  exists g h, TWO_ADICITY_GENERATORS !! k = Some g /\
    TWO_ADICITY_GENERATORS_INVERSED !! k = Some (Some h) /\ cwf g /\ cwf h /\
    vpow (fabs g) (2 ^ k) = vone /\ (forall j, (j < k)%nat -> vpow (fabs g) (2 ^ j) <> vone) /\
    vmul (fabs g) (fabs h) = vone.
Proof. exact (generator_table k). Qed.

Lemma two_adic_generators_order_witness :
  exists g, TWO_ADICITY_GENERATORS !! 3%nat = Some g /\ vpow (fabs g) (2 ^ 3) = vone /\
    vpow (fabs g) (2 ^ 2) <> vone.
Proof.
  destruct (two_adic_generators_order 3 ltac:(lia)) as (g & h & Hg & _ & _ & _ & Ht & Hl & _).
  exists g. split; [exact Hg|]. split; [exact Ht|]. apply Hl. lia.
Defined.
End GeneratorOrder.
