(* ===== verification/FieldTraits.v ===== *)
(** * The remaining traits over fields

    [field/src/field.rs]: equality ([PartialEq], which [Field] requires), the
    trait [FieldExtension] with the implementations the FFT, the FRI folding and
    the verifier use, and [TwoAdicField].  Each trait is a class and what its
    implementations promise is a class of laws; the generic algorithms of the
    later files are proved against the laws. *)
From stdpp Require Import base list strings.
From Stdlib Require Import ZArith Lia.
From S2P Require Import Prelude MachineInt Field FieldExt.

(** ** PartialEq *)
Class FieldEq (F : Type) : Type := { feq : F -> F -> bool }.

Class LawfulEq (F : Type) `{LawfulField F} `{!FieldEq F} : Prop := {
  feq_ok : forall a b : F, fwf a -> fwf b -> feq a b = true <-> fabs a = fabs b;
}.

#[export] Instance Mersenne31_eq : FieldEq Mersenne31Field := { feq := Field.eq_impl }.
#[export] Instance Complex_eq : FieldEq Complex.Mersenne31Complex := { feq := Complex.eq }.

Definition quartic_eq (self other : Quartic.Mersenne31Quartic) : bool :=
  Complex.eq (Quartic.c0 self) (Quartic.c0 other) && Complex.eq (Quartic.c1 self) (Quartic.c1 other).
#[export] Instance Quartic_eq : FieldEq Quartic.Mersenne31Quartic := { feq := quartic_eq }.

#[export] Instance Mersenne31_lawful_eq : LawfulEq Mersenne31Field.
Proof. constructor. intros a b Ha Hb. cbn. apply eq_impl_iff; assumption. Qed.

#[export] Instance Complex_lawful_eq : LawfulEq Complex.Mersenne31Complex.
Proof.
  constructor. intros a b [A0 A1] [B0 B1]. cbn. unfold Complex.eq, cabs. rewrite andb_true_iff.
  rewrite !eq_impl_iff by assumption. cbn.
  split; [intros [-> ->]; reflexivity | intros E; split; [exact (f_equal fst E) | exact (f_equal snd E)]].
Qed.

#[export] Instance Quartic_lawful_eq : LawfulEq Quartic.Mersenne31Quartic.
Proof.
  constructor. intros a b [A0 A1] [B0 B1]. cbn [feq Quartic_eq]. unfold quartic_eq. rewrite andb_true_iff.
  change Complex.eq with (feq (F := Complex.Mersenne31Complex)). rewrite (feq_ok (F := Complex.Mersenne31Complex) (Quartic.c0 a)), (feq_ok (F := Complex.Mersenne31Complex) (Quartic.c1 a))
    by assumption.
  change (fabs (F := Quartic.Mersenne31Quartic)) with qabs. unfold qabs.
  split; [intros [-> ->]; reflexivity | intros E; split; [exact (f_equal fst E) | exact (f_equal snd E)]].
Qed.

(** ** FieldExtension *)
Class FieldExtension (F E : Type) : Type := {
  mul_assign_by_base : E -> F -> E;
  add_assign_base : E -> F -> E;
  sub_assign_base : E -> F -> E;
  from_base : F -> E;
}.

Class LawfulExtension (F E : Type) `{LawfulField F} `{LawfulField E} `{!FieldExtension F E} : Type := {
  embed : fv (F := F) -> fv (F := E);
  embed_one : embed vone = vone;
  embed_mul : forall x y, embed (vmul x y) = vmul (embed x) (embed y);
  embed_add : forall x y, embed (vadd x y) = vadd (embed x) (embed y);
  mul_by_base_ok : forall (e : E) (f : F), fwf e -> fwf f ->
    fwf (mul_assign_by_base e f) /\ fabs (mul_assign_by_base e f) = vmul (fabs e) (embed (fabs f));
  add_base_ok : forall (e : E) (f : F), fwf e -> fwf f ->
    fwf (add_assign_base e f) /\ fabs (add_assign_base e f) = vadd (fabs e) (embed (fabs f));
  sub_base_ok : forall (e : E) (f : F), fwf e -> fwf f ->
    fwf (sub_assign_base e f) /\ fabs (sub_assign_base e f) = vsub (fabs e) (embed (fabs f));
  from_base_ok : forall f : F, fwf f -> fwf (from_base (E := E) f) /\ fabs (from_base (E := E) f) = embed (fabs f);
}.
Arguments embed F E {_ _ _ _ _ _}.

(** [impl<F: Field> FieldExtension<F> for F] *)
#[export] Instance Self_extension {F} `{FieldOps F} : FieldExtension F F := {
  mul_assign_by_base := mul_assign;
  add_assign_base := add_assign;
  sub_assign_base := sub_assign;
  from_base f := f;
}.

#[export] Instance Self_lawful_extension {F} `{LawfulField F} : LawfulExtension F F.
Proof.
  refine {| embed := fun x => x |}; try reflexivity.
  - intros e f He Hf. apply mul_ok; assumption.
  - intros e f He Hf. apply add_ok; assumption.
  - intros e f He Hf. apply sub_ok; assumption.
  - intros f Hf. auto.
Defined.

#[export] Instance Complex_extension : FieldExtension Mersenne31Field Complex.Mersenne31Complex := {
  mul_assign_by_base := Complex.mul_assign_by_base;
  add_assign_base := Complex.add_assign_base;
  sub_assign_base := Complex.sub_assign_base;
  from_base := Complex.from_base;
}.

#[export] Instance Quartic_over_complex : FieldExtension Complex.Mersenne31Complex Quartic.Mersenne31Quartic := {
  mul_assign_by_base := Quartic.mul_assign_by_complex;
  add_assign_base self elem := {| Quartic.c0 := add_assign_base (Quartic.c0 self) elem; Quartic.c1 := Quartic.c1 self |};
  sub_assign_base self elem := {| Quartic.c0 := sub_assign_base (Quartic.c0 self) elem; Quartic.c1 := Quartic.c1 self |};
  from_base f := {| Quartic.c0 := f; Quartic.c1 := ZERO |};
}.

#[export] Instance Quartic_over_base : FieldExtension Mersenne31Field Quartic.Mersenne31Quartic := {
  mul_assign_by_base := Quartic.mul_assign_by_base;
  add_assign_base := Quartic.add_assign_base;
  sub_assign_base := Quartic.sub_assign_base;
  from_base := Quartic.from_base;
}.

Definition complex_embed (x : fp) : fp2 := (x, vzero).

#[export] Instance Complex_lawful_extension : LawfulExtension Mersenne31Field Complex.Mersenne31Complex.
Proof.
  refine (Build_LawfulExtension _ _ _ _ _ _ _ complex_embed _ _ _ _ _ _ _); unfold complex_embed.
  - reflexivity.
  - intros x y. change (vmul (F := Complex.Mersenne31Complex)) with (qmul (add := vadd (F := Mersenne31Field)) (mul := vmul) cbeta).
    unfold qmul, cbeta. cbn [fst snd]. f_equal; ring.
  - intros x y. change (vadd (F := Complex.Mersenne31Complex)) with (qadd (add := vadd (F := Mersenne31Field))).
    unfold qadd. cbn [fst snd]. f_equal; ring.
  - intros e f He Hf. change (cwf e) in He. apply cwf_reps in He. destruct He as [R0 R1].
    pose proof (reps_self f Hf) as Rf.
    eassert (V : cwf (Complex.mul_assign_by_base e f) /\ cabs _ = _)
      by (apply complex_value; cbn [Complex.mul_assign_by_base Complex.c0 Complex.c1]; eauto with field_reps).
    destruct V as [W V]. split; [exact W|]. etransitivity; [exact V|].
    change (vmul (F := Complex.Mersenne31Complex)) with (qmul (add := vadd (F := Mersenne31Field)) (mul := vmul) cbeta).
    change (fabs (F := Complex.Mersenne31Complex)) with cabs. unfold qmul, cbeta. cbn [fst snd]. f_equal; ring.
  - intros e f He Hf. change (cwf e) in He. apply cwf_reps in He. destruct He as [R0 R1].
    pose proof (reps_self f Hf) as Rf.
    eassert (V : cwf (Complex.add_assign_base e f) /\ cabs _ = _)
      by (apply complex_value; cbn [Complex.add_assign_base Complex.c0 Complex.c1]; eauto with field_reps).
    destruct V as [W V]. split; [exact W|]. etransitivity; [exact V|].
    change (vadd (F := Complex.Mersenne31Complex)) with (qadd (add := vadd (F := Mersenne31Field))).
    change (fabs (F := Complex.Mersenne31Complex)) with cabs. unfold qadd, cabs. cbn [fst snd]. f_equal; ring.
  - intros e f He Hf. change (cwf e) in He. apply cwf_reps in He. destruct He as [R0 R1].
    pose proof (reps_self f Hf) as Rf.
    eassert (V : cwf (Complex.sub_assign_base e f) /\ cabs _ = _)
      by (apply complex_value; cbn [Complex.sub_assign_base Complex.c0 Complex.c1]; eauto with field_reps).
    destruct V as [W V]. split; [exact W|]. etransitivity; [exact V|].
    change (vsub (F := Complex.Mersenne31Complex)) with (qsub (sub := vsub (F := Mersenne31Field))).
    change (fabs (F := Complex.Mersenne31Complex)) with cabs. unfold qsub, cabs. cbn [fst snd]. f_equal; ring.
  - intros f Hf. apply complex_value; [split; auto | apply reps_zero].
Defined.

Add Ring complex_traits_ring : (fv_ring (F := Complex.Mersenne31Complex)).

Definition quartic_embed (x : fp2) : fv (F := Quartic.Mersenne31Quartic) := (x, vzero).

(** Adding to the low coefficient adds an embedded element. *)
Lemma quartic_low_add (e : Quartic.Mersenne31Quartic) z v : fwf e -> reps z (vadd (fabs (Quartic.c0 e)) v) ->
  reps {| Quartic.c0 := z; Quartic.c1 := Quartic.c1 e |} (vadd (fabs e) (quartic_embed v)).
Proof.
  intros [W0 W1] Hz. apply (quartic_value {| Quartic.c0 := z; Quartic.c1 := Quartic.c1 e |}); [exact Hz|]. split; [exact W1|].
  cbn [Quartic.c1 quartic_embed snd]. change (fabs e) with (qabs e). unfold qabs. cbn [snd]. ring.
Qed.

Lemma quartic_low_sub (e : Quartic.Mersenne31Quartic) z v : fwf e -> reps z (vsub (fabs (Quartic.c0 e)) v) ->
  reps {| Quartic.c0 := z; Quartic.c1 := Quartic.c1 e |} (vsub (fabs e) (quartic_embed v)).
Proof.
  intros [W0 W1] Hz. apply (quartic_value {| Quartic.c0 := z; Quartic.c1 := Quartic.c1 e |}); [exact Hz|]. split; [exact W1|].
  cbn [Quartic.c1 quartic_embed snd]. change (fabs e) with (qabs e). unfold qabs. cbn [snd]. ring.
Qed.

#[export] Instance Quartic_over_complex_lawful : LawfulExtension Complex.Mersenne31Complex Quartic.Mersenne31Quartic.
Proof.
  refine (Build_LawfulExtension _ _ _ _ _ _ _ quartic_embed _ _ _ _ _ _ _); unfold quartic_embed.
  - reflexivity.
  - intros x y. change (vmul (F := Quartic.Mersenne31Quartic)) with
      (qmul (add := vadd (F := Complex.Mersenne31Complex)) (mul := vmul) qbeta).
    unfold qmul. cbn [fst snd]. f_equal; ring.
  - intros x y. change (vadd (F := Quartic.Mersenne31Quartic)) with (qadd (add := vadd (F := Complex.Mersenne31Complex))).
    unfold qadd. cbn [fst snd]. f_equal; ring.
  - intros e f He Hf. change (qwf e) in He. apply qwf_reps in He. destruct He as [R0 R1].
    pose proof (reps_self f Hf) as Rf.
    eassert (V : qwf (Quartic.mul_assign_by_complex e f) /\ qabs _ = _)
      by (apply quartic_value; cbn [Quartic.mul_assign_by_complex Quartic.c0 Quartic.c1]; eauto with field_reps).
    destruct V as [W V]. split; [exact W|]. etransitivity; [exact V|].
    change (vmul (F := Quartic.Mersenne31Quartic)) with
      (qmul (add := vadd (F := Complex.Mersenne31Complex)) (mul := vmul) qbeta).
    change (fabs (F := Quartic.Mersenne31Quartic)) with qabs. unfold qmul. cbn [fst snd]. f_equal; ring.
  - intros e f He Hf. apply quartic_low_add; [exact He|]. destruct He. apply add_ok; assumption.
  - intros e f He Hf. apply quartic_low_sub; [exact He|]. destruct He. apply sub_ok; assumption.
  - intros f Hf. apply quartic_value; [split; auto | apply reps_zero].
Defined.

#[export] Instance Quartic_over_base_lawful : LawfulExtension Mersenne31Field Quartic.Mersenne31Quartic.
Proof.
  pose (over_base := mul_by_base_ok (F := Mersenne31Field) (E := Complex.Mersenne31Complex)).
  refine (Build_LawfulExtension _ _ _ _ _ _ _ (fun x => quartic_embed (complex_embed x)) _ _ _ _ _ _ _).
  - reflexivity.
  - intros x y. pose proof (embed_mul (F := Mersenne31Field) (E := Complex.Mersenne31Complex) x y) as E.
    change (embed Mersenne31Field Complex.Mersenne31Complex) with complex_embed in E. rewrite E.
    exact (embed_mul (F := Complex.Mersenne31Complex) (E := Quartic.Mersenne31Quartic) (complex_embed x) (complex_embed y)).
  - intros x y. pose proof (embed_add (F := Mersenne31Field) (E := Complex.Mersenne31Complex) x y) as E.
    change (embed Mersenne31Field Complex.Mersenne31Complex) with complex_embed in E. rewrite E.
    exact (embed_add (F := Complex.Mersenne31Complex) (E := Quartic.Mersenne31Quartic) (complex_embed x) (complex_embed y)).
  - intros e f [W0 W1] Hf. destruct (over_base (Quartic.c0 e) f W0 Hf) as [U0 V0].
    destruct (over_base (Quartic.c1 e) f W1 Hf) as [U1 V1].
    destruct (quartic_value (Quartic.mul_assign_by_base e f) _ _ (conj U0 V0) (conj U1 V1)) as [W V].
    split; [exact W|]. etransitivity; [exact V|].
    change (vmul (F := Quartic.Mersenne31Quartic)) with
      (qmul (add := vadd (F := Complex.Mersenne31Complex)) (mul := vmul) qbeta).
    change (fabs (F := Quartic.Mersenne31Quartic)) with qabs. unfold qmul, qabs, quartic_embed. cbn [fst snd].
    change (embed Mersenne31Field Complex.Mersenne31Complex) with complex_embed. f_equal; ring.
  - intros e f He Hf. apply quartic_low_add; [exact He|]. destruct He as [W0 _].
    exact (add_base_ok (F := Mersenne31Field) (Quartic.c0 e) f W0 Hf).
  - intros e f He Hf. apply quartic_low_sub; [exact He|]. destruct He as [W0 _].
    exact (sub_base_ok (F := Mersenne31Field) (Quartic.c0 e) f W0 Hf).
  - intros f Hf. destruct (from_base_ok (F := Mersenne31Field) (E := Complex.Mersenne31Complex) f Hf) as [U V].
    apply quartic_value; [split; [exact U | exact V] | apply reps_zero].
Defined.

Section Embedding.
Context {F E : Type} `{LawfulExtension F E}.

Lemma embed_pow x n : embed F E (vpow x n) = vpow (embed F E x) n.
Proof. induction n as [|n IH]; cbn [vpow]; [apply embed_one|]. rewrite embed_mul, IH. reflexivity. Qed.
End Embedding.

(** ** TwoAdicField *)
Class TwoAdicField (F : Type) : Type := {
  TWO_ADICITY : nat;
  two_adic_generator : F;
}.
Arguments TWO_ADICITY F {_}.

Class LawfulTwoAdic (F : Type) `{LawfulField F} `{!TwoAdicField F} : Prop := {
  adicity_bounds : (0 < TWO_ADICITY F <= 31)%nat;
  two_adic_generator_wf : fwf (two_adic_generator (F := F));
  two_adic_generator_order : vpow (fabs (two_adic_generator (F := F))) (2 ^ TWO_ADICITY F) = vone;
  two_adic_generator_half : vpow (fabs (two_adic_generator (F := F))) (2 ^ (TWO_ADICITY F - 1)) <> vone;
}.

#[export] Instance Complex_two_adic : TwoAdicField Complex.Mersenne31Complex := {
  TWO_ADICITY := 31;
  two_adic_generator := Complex.TWO_ADIC_GENERATOR;
}.

#[local] Opaque Nat.pow.
#[export] Instance Complex_lawful_two_adic : LawfulTwoAdic Complex.Mersenne31Complex.
Proof.
  constructor.
  - cbn. lia.
  - exact generator_wf.
  - exact generator_top.
  - exact generator_half.
Qed.
