(* ===== verification/Powers.v ===== *)
(** * Powers and domains

    [fft/src/field_utils.rs]: sequences of powers, computed serially and by
    threads, the generators of the evaluation domains, and the batch inversions.
    Generic over the field; [None] is a panic (a failed assertion, an index out
    of bounds). *)
From stdpp Require Import base list strings.
From Stdlib Require Import ZArith Lia.
From S2P Require Import Prelude MachineInt Worker BitReverse Field FieldExt FieldTraits.

#[local] Opaque Nat.pow.

Section Definitions.
Context {F E : Type} `{FieldOps F} `{!FieldEq F} `{!FieldExtension F E}.

(** The loop of [distribute_powers_serial]: [shift] runs through the powers. *)
Fixpoint distribute_powers_serial (input : list E) (shift element_step : F) : list E :=
  match input with
  | [] => []
  | x :: rest => mul_assign_by_base x shift :: distribute_powers_serial rest (mul_assign shift element_step) element_step
  end.

(** [for _ in 1..size { current.mul_assign(&base); storage.push(current) }] *)
Fixpoint push_powers (n : nat) (current base : F) : list F :=
  match n with
  | O => []
  | S n' => let current := mul_assign current base in current :: push_powers n' current base
  end.

Definition materialize_powers_serial_impl (base : F) (size : nat) (start_with_one : bool) : list F :=
  if (size =? 0)%nat then []
  else let current := if start_with_one then ONE else base in current :: push_powers (size - 1) current base.

Definition materialize_powers_serial_starting_with_one (base : F) (size : nat) : list F :=
  materialize_powers_serial_impl base size true.
Definition materialize_powers_serial_starting_with_elem (base : F) (size : nat) : list F :=
  materialize_powers_serial_impl base size false.

(** What a thread writes: [el.write(current); current.mul_assign(&step)]. *)
Fixpoint fill_powers (n : nat) (current step : F) : list F :=
  match n with O => [] | S n' => current :: fill_powers n' (mul_assign current step) step end.

(** The chunk of thread [chunk_idx], [first] being multiplied in when given. *)
Definition powers_chunk (first : option F) (step : F) (g : WorkerGeometry) (chunk_idx : Z) : list F :=
  match get_chunk_start_pos g chunk_idx, get_chunk_size g chunk_idx with
  | Some start, Some size =>
      let current := pow step (u32 start) in
      let current := match first with Some first_element => mul_assign current first_element | None => current end in
      fill_powers (Z.to_nat size) current step
  | _, _ => []
  end.

Definition materialize_powers_parallel (num_cores : Z) (first_element step : F) (size : Z) : option (list F) :=
  if size =? 0 then Some []
  else if usize_is_power_of_two size then scope num_cores size (powers_chunk (Some first_element) step)
  else None.

Definition materialize_powers_parallel_starting_with_one (num_cores : Z) (base : F) (size : Z) : option (list F) :=
  if size =? 0 then Some []
  else if usize_is_power_of_two size then scope num_cores size (powers_chunk None base)
  else None.

Context `{!TwoAdicField F}.

(** [for _ in 0..n { assert_ne!(t, F::ONE); t.square() }] *)
Fixpoint squares_not_one (n : nat) (t : F) : bool :=
  match n with O => true | S n' => negb (feq t ONE) && squares_not_one n' (square t) end.

(** [for _ in 0..n { omega.square(); if size != 1 { assert_ne!(omega, F::ONE) } }] *)
Fixpoint square_down (n : nat) (size : Z) (omega : F) : option F :=
  match n with
  | O => Some omega
  | S n' =>
      let omega := square omega in
      if (size =? 1) || negb (feq omega ONE) then square_down n' size omega else None
  end.

Definition domain_generator_for_size (size : Z) : option F :=
  let omega := two_adic_generator in
  if feq (exp_power_of_2 omega (TWO_ADICITY F)) ONE && squares_not_one (TWO_ADICITY F - 1) omega then
    match square_down (TWO_ADICITY F - Z.to_nat (usize_trailing_zeros size)) size omega with
    | Some omega => if feq (pow omega (u32 size)) ONE then Some omega else None
    | None => None
    end
  else None.
End Definitions.

(** ** Powers *)
Lemma Forall2_map_r {A B C} (R : A -> B -> Prop) (f : C -> B) l l' :
  Forall2 R l (map f l') <-> Forall2 (fun x y => R x (f y)) l l'.
Proof.
  split; revert l; induction l' as [|y l' IH]; intros l Hl; inversion Hl; subst; constructor; auto.
Qed.

Section Powers.
Context {F : Type} `{LawfulField F}.
Add Ring powers_ring : fv_ring.

Lemma reps_pow x e : fwf x -> is_u32 e -> reps (pow x e) (vpow (fabs x) (Z.to_nat e)).
Proof.
  intros Hx He. destruct ONE_ok as [W1 V1]. destruct (pow_loop_ok 32 x ONE e Hx W1 He) as [W V].
  split; [exact W|]. unfold pow. rewrite V, V1. ring.
Qed.

(** [first], [first * step], ... *)
Definition geometric (first step : fv) (n : nat) : list fv :=
  map (fun i => vmul first (vpow step i)) (seq 0 n).

Lemma geometric_succ first step n : geometric first step (S n) = first :: geometric (vmul first step) step n.
Proof.
  unfold geometric. cbn [seq map]. f_equal; [cbn [vpow]; ring|].
  rewrite <- seq_shift, map_map. apply map_ext. intros i. cbn [vpow]. ring.
Qed.

Lemma fill_powers_ok n : forall c step v w, reps c v -> reps step w ->
  Forall2 reps (fill_powers n c step) (geometric v w n).
Proof.
  induction n as [|n IH]; intros c step v w Hc Hs; cbn [fill_powers]; [constructor|].
  rewrite geometric_succ. constructor; [exact Hc|]. apply IH; [apply reps_mul; assumption | exact Hs].
Qed.

Lemma fill_is_push n : forall c step, fill_powers (S n) c step = c :: push_powers n c step.
Proof.
  induction n as [|n IH]; intros c step; [reflexivity|].
  cbn [push_powers]. cbv zeta. rewrite <- IH. reflexivity.
Qed.

Lemma materialize_serial_ok base v size one : reps base v ->
  Forall2 reps (materialize_powers_serial_impl base size one) (geometric (if one then vone else v) v size).
Proof.
  intros Hb. unfold materialize_powers_serial_impl. destruct size as [|n]; [constructor|].
  cbn [Nat.eqb]. replace (S n - 1)%nat with n by lia. cbv zeta. rewrite <- fill_is_push.
  apply fill_powers_ok; [destruct one; [apply reps_one | exact Hb] | exact Hb].
Qed.

Lemma take_rangeZ lo n m : (m <= n)%nat -> take m (rangeZ lo n) = rangeZ lo m.
Proof.
  revert lo n. induction m as [|m IH]; intros lo n Hm; [reflexivity|]. destruct n as [|n]; [lia|].
  cbn [rangeZ take]. rewrite IH by lia. reflexivity.
Qed.

Lemma drop_rangeZ lo n m : (m <= n)%nat -> drop m (rangeZ lo n) = rangeZ (lo + Z.of_nat m) (n - m).
Proof.
  revert lo n. induction m as [|m IH]; intros lo n Hm.
  - rewrite Nat.sub_0_r, Z.add_0_r. reflexivity.
  - destruct n as [|n]; [lia|]. cbn [rangeZ drop]. rewrite IH by lia. f_equal; lia.
Qed.

Lemma geometric_indices first step lo n : (0 <= lo)%Z ->
  geometric (vmul first (vpow step (Z.to_nat lo))) step n =
  map (fun i => vmul first (vpow step (Z.to_nat i))) (rangeZ lo n).
Proof.
  revert lo. induction n as [|n IH]; intros lo Hlo; [reflexivity|]. rewrite geometric_succ. cbn [rangeZ map].
  f_equal. rewrite <- IH by lia. f_equal. replace (Z.to_nat (lo + 1)) with (S (Z.to_nat lo)) by lia. cbn [vpow]. ring.
Qed.

Lemma powers_chunk_ok first step v w size g i :
  match first with Some f => reps f v | None => v = vone end -> reps step w ->
  (size <= 2 ^ 31)%Z -> partitions g size -> (0 <= i < num_chunks g)%Z ->
  Forall2 (fun x j => reps x (vmul v (vpow w (Z.to_nat j)))) (powers_chunk first step g i)
          (thread_slice g 1 (rangeZ 0 (Z.to_nat size)) i).
Proof.
  intros Hf Hs Hsize Hg Hi. destruct (chunk_advances g size i Hg Hi) as (n & En & Hn & Hadv & Hle).
  unfold powers_chunk, thread_slice. rewrite (chunk_start_pos g size i Hg ltac:(lia) Hi), En, !Z.mul_1_r.
  assert (Hnn : (0 <= chunk_start g size i)%Z).
  { destruct Hg as (_ & Ho & _). unfold chunk_start. destruct (Z.ltb_spec i (num_chunks g)); nia. }
  set (start := chunk_start g size i) in *. rewrite u32_small by (unfold is_u32; lia).
  rewrite drop_rangeZ, take_rangeZ by lia. rewrite Z.add_0_l, Z2Nat.id by lia.
  destruct Hs as [Ws Vs]. assert (Hp : reps (pow step start) (vpow w (Z.to_nat start)))
    by (rewrite <- Vs; apply reps_pow; [exact Ws | unfold is_u32; lia]).
  set (current := match first with Some f => _ | None => _ end).
  assert (Hc : reps current (vmul v (vpow w (Z.to_nat start)))).
  { subst current. destruct first as [f|].
    - replace (vmul v _) with (vmul (vpow w (Z.to_nat start)) v) by ring. apply reps_mul; assumption.
    - subst v. replace (vmul vone _) with (vpow w (Z.to_nat start)) by ring. exact Hp. }
  pose proof (fill_powers_ok (Z.to_nat n) current step _ w Hc (conj Ws Vs)) as Hfill.
  rewrite geometric_indices in Hfill by exact Hnn. exact (proj1 (Forall2_map_r _ _ _ _) Hfill).
Qed.

Lemma geometric_range first step n :
  geometric first step n = map (fun i => vmul first (vpow step (Z.to_nat i))) (rangeZ 0 n).
Proof.
  rewrite <- (geometric_indices first step 0 n) by lia. f_equal. change (Z.to_nat 0) with 0%nat. cbn [vpow]. ring.
Qed.

Lemma scope_powers_ok num_cores first step v w k :
  match first with Some f => reps f v | None => v = vone end -> reps step w -> (0 < num_cores)%Z -> (k <= 31)%nat ->
  exists out, scope num_cores (2 ^ Z.of_nat k) (powers_chunk first step) = Some out /\
    Forall2 reps out (geometric v w (2 ^ k)).
Proof.
  intros Hf Hs Hc Hk.
  assert (Hp : (0 < 2 ^ Z.of_nat k <= 2 ^ 31)%Z) by (split; [apply Z.pow_pos_nonneg | apply Z.pow_le_mono_r]; lia).
  destruct (scope_related (fun x j => reps x (vmul v (vpow w (Z.to_nat j)))) num_cores (2 ^ Z.of_nat k) 1
              (rangeZ 0 (Z.to_nat (2 ^ Z.of_nat k))) (powers_chunk first step)) as (out & E & R);
    [exact Hc | lia | lia | rewrite length_rangeZ; lia | |].
  { intros g i Hg Hi. apply powers_chunk_ok; auto; lia. }
  exists out. split; [exact E|]. rewrite geometric_range. replace (2 ^ k)%nat with (Z.to_nat (2 ^ Z.of_nat k))
    by (rewrite Z2Nat.inj_pow, Nat2Z.id by lia; reflexivity).
  apply Forall2_map_r. exact R.
Qed.

Lemma materialize_parallel_ok num_cores first step v w k :
  reps first v -> reps step w -> (0 < num_cores)%Z -> (k <= 31)%nat -> exists out,
  materialize_powers_parallel num_cores first step (2 ^ Z.of_nat k) = Some out /\
  Forall2 reps out (geometric v w (2 ^ k)).
Proof.
  intros Hf Hs Hc Hk. unfold materialize_powers_parallel.
  destruct (Z.eqb_spec (2 ^ Z.of_nat k) 0) as [E|_]; [pose proof (Z.pow_pos_nonneg 2 (Z.of_nat k)); lia|].
  rewrite power_of_two_pow2. apply scope_powers_ok; assumption.
Qed.

Lemma materialize_parallel_one_ok num_cores base w k : reps base w -> (0 < num_cores)%Z -> (k <= 31)%nat -> exists out,
  materialize_powers_parallel_starting_with_one num_cores base (2 ^ Z.of_nat k) = Some out /\
  Forall2 reps out (geometric vone w (2 ^ k)).
Proof.
  intros Hs Hc Hk. unfold materialize_powers_parallel_starting_with_one.
  destruct (Z.eqb_spec (2 ^ Z.of_nat k) 0) as [E|_]; [pose proof (Z.pow_pos_nonneg 2 (Z.of_nat k)); lia|].
  rewrite power_of_two_pow2. apply scope_powers_ok; auto.
Qed.
End Powers.

(** ** The domains *)
Section Domain.
Context {F : Type} `{LawfulTwoAdic F} `{!FieldEq F} `{!LawfulEq F}.
Notation T := (TWO_ADICITY F).
Notation gen := (two_adic_generator (F := F)).
Add Ring domain_ring : (fv_ring (F := F)).

Lemma generator_not_one j : (j < T)%nat -> vpow (fabs gen) (2 ^ j) <> vone.
Proof.
  intros Hj E. apply two_adic_generator_half. apply (vpow_climb _ j); [lia | exact E].
Qed.

Lemma feq_one x v : reps x v -> feq x ONE = true <-> v = vone.
Proof. intros [W V]. destruct ONE_ok as [W1 V1]. rewrite feq_ok by assumption. rewrite V, V1. reflexivity. Qed.

Lemma feq_one_false x v : reps x v -> v <> vone -> feq x ONE = false.
Proof. intros Hx Hv. apply not_true_is_false. intros E. apply Hv. apply (feq_one x v Hx). exact E. Qed.

Lemma squares_not_one_ok n : forall t : F, fwf t -> (forall j, (j < n)%nat -> vpow (fabs t) (2 ^ j) <> vone) ->
  squares_not_one n t = true.
Proof.
  induction n as [|n IH]; intros t Ht Hn; cbn [squares_not_one]; [reflexivity|].
  destruct (square_ok' t Ht) as [Ws Vs]. rewrite (feq_one_false t (fabs t)); [cbn [negb andb] | split; auto |].
  - apply IH; [exact Ws|]. intros j Hj. rewrite Vs, vpow_square.
    rewrite <- Nat.pow_succ_r'. apply Hn. lia.
  - specialize (Hn 0%nat ltac:(lia)). intros E. apply Hn. change (2 ^ 0)%nat with 1%nat. cbn [vpow].
    rewrite E. apply (Rmul_1_l fv_ring).
Qed.

Lemma square_down_ok n size : forall omega : F, fwf omega ->
  (forall j, (1 <= j <= n)%nat -> size = 1%Z \/ vpow (fabs omega) (2 ^ j) <> vone) ->
  square_down n size omega = Some (exp_power_of_2 omega n).
Proof.
  induction n as [|n IH]; intros omega Ho Hn; cbn [square_down exp_power_of_2]; [reflexivity|].
  destruct (square_ok' omega Ho) as [Ws Vs].
  assert (Hok : (size =? 1)%Z || negb (feq (square omega) ONE) = true).
  { destruct (Hn 1%nat ltac:(lia)) as [-> | Hne]; [reflexivity|].
    rewrite (feq_one_false _ _ (conj Ws Vs)); [apply orb_true_r|].
    intros E. apply Hne. change (2 ^ 1)%nat with 2%nat. cbn [vpow].
    transitivity (vmul (fabs omega) (fabs omega)); [ring | exact E]. }
  rewrite Hok. apply IH; [exact Ws|]. intros j Hj. destruct (Hn (S j) ltac:(lia)) as [-> | Hne]; [left; reflexivity|].
  right. rewrite Vs, vpow_square. rewrite Nat.pow_succ_r' in Hne. exact Hne.
Qed.

(** An element whose powers are [1] at [2^k] and not before. *)
Definition order_pow2 (x : fv) (k : nat) : Prop :=
  vpow x (2 ^ k) = vone /\ forall j, (j < k)%nat -> vpow x (2 ^ j) <> vone.

Lemma domain_generator_ok k : (k <= T)%nat -> exists omega : F,
  domain_generator_for_size (2 ^ Z.of_nat k) = Some omega /\ fwf omega /\ order_pow2 (fabs omega) k.
Proof.
  intros Hk. pose proof (adicity_bounds (F := F)) as HT. pose proof two_adic_generator_wf as Wg.
  destruct (exp_power_of_2_ok T gen Wg) as [WT VT]. destruct (exp_power_of_2_ok (T - k) gen Wg) as [W V].
  assert (Hpow : forall j, vpow (fabs (exp_power_of_2 gen (T - k))) (2 ^ j) = vpow (fabs gen) (2 ^ (T - k + j))).
  { intros j. rewrite V, <- vpow_mul, <- Nat.pow_add_r. reflexivity. }
  assert (Hord : order_pow2 (fabs (exp_power_of_2 gen (T - k))) k).
  { split; [|intros j Hj]; rewrite Hpow.
    - replace (T - k + k)%nat with T by lia. apply two_adic_generator_order.
    - apply generator_not_one. lia. }
  exists (exp_power_of_2 gen (T - k)). split; [|auto]. unfold domain_generator_for_size.
  rewrite (proj2 (feq_one _ _ (conj WT VT)) two_adic_generator_order).
  rewrite squares_not_one_ok by (auto; intros j Hj; apply generator_not_one; lia). cbn [andb].
  rewrite trailing_zeros_pow2, Nat2Z.id by lia. rewrite square_down_ok; [|exact Wg|].
  - assert (Hu : is_u32 (2 ^ Z.of_nat k)).
    { unfold is_u32. split; [apply Z.pow_nonneg; lia | apply Z.pow_lt_mono_r; lia]. }
    rewrite u32_small by exact Hu. destruct (reps_pow _ _ W Hu) as [Wp Vp].
    rewrite (proj2 (feq_one _ _ (conj Wp Vp))); [reflexivity|].
    rewrite Z2Nat.inj_pow, Nat2Z.id by lia. apply Hord.
  - intros j Hj. destruct k as [|k]; [left; reflexivity|]. right. apply generator_not_one. lia.
Qed.

(** The half-way power is [-1]. *)
Lemma order_pow2_half (x : fv) k : order_pow2 x (S k) -> vpow x (2 ^ k) = vopp vone.
Proof.
  intros [E Hn]. set (y := vpow x (2 ^ k)).
  assert (Hy : vmul y y = vone).
  { subst y. rewrite <- vpow_add. replace (2 ^ k + 2 ^ k)%nat with (2 ^ S k)%nat by (rewrite Nat.pow_succ_r'; lia). exact E. }
  assert (Hp : vmul (vsub y vone) (vadd y vone) = vzero).
  { transitivity (vsub (vmul y y) vone); [ring | rewrite Hy; ring]. }
  destruct (fv_integral _ _ Hp) as [Z1|Z1].
  - exfalso. apply (Hn k); [lia|]. fold y. transitivity (vadd (vsub y vone) vone); [ring | rewrite Z1; ring].
  - transitivity (vsub (vadd y vone) vone); [ring | rewrite Z1; ring].
Qed.
End Domain.
