(* ===== verification/Ntt.v ===== *)
(** * Number-theoretic transforms

    [fft/src/column_major/naive.rs] and the twiddle factors of
    [fft/src/row_major/precomputes.rs]: the decimation-in-time transform in its
    plain and its cache-friendly order, the decimation-in-frequency transform,
    and the FFTs and inverse FFTs built from them.  Elements live in a field [E]
    and twiddle factors in a field [F] that [E] extends.  [None] is a panic: an
    index out of bounds or a failed [expect]. *)
From stdpp Require Import base list strings.
From Stdlib Require Import ZArith Lia.
From S2P Require Import Prelude MachineInt Worker BitReverse Field FieldExt FieldTraits Powers.

#[local] Opaque Nat.pow.

(** [while i < start + count { body; i += 1 }] *)
Fixpoint for_range {A} (body : nat -> A -> option A) (start count : nat) (a : A) : option A :=
  match count with
  | O => Some a
  | S c => a' ← body start a; for_range body (S start) c a'
  end.

Section Definitions.
Context {F E : Type} `{FieldOps F} `{FieldOps E} `{!FieldEq F} `{!FieldExtension F E}.

(** ** Butterflies *)

(** The special case [omega = 1]. *)
Definition plain_butterfly (distance j : nat) (a : list E) : option (list E) :=
  u ← a !! j; v ← a !! (j + distance)%nat;
  let a := <[(j + distance)%nat := sub_assign u v]> a in
  w ← a !! j; Some (<[j := add_assign w v]> a).

(** Decimation in time: multiply, then add and subtract. *)
Definition ct_butterfly (s : F) (distance j : nat) (a : list E) : option (list E) :=
  u ← a !! j; v ← a !! (j + distance)%nat;
  let v := mul_assign_by_base v s in
  let a := <[(j + distance)%nat := sub_assign u v]> a in
  w ← a !! j; Some (<[j := add_assign w v]> a).

(** Decimation in frequency: add and subtract, then multiply. *)
Definition gs_butterfly (s : F) (distance j : nat) (a : list E) : option (list E) :=
  u ← a !! j; v ← a !! (j + distance)%nat;
  let tmp := mul_assign_by_base (sub_assign u v) s in
  let a := <[(j + distance)%nat := tmp]> a in
  w ← a !! j; Some (<[j := add_assign w v]> a).

(** One group: the twiddle factor, then the pairs from [idx_1] on. *)
Definition group (butterfly : F -> nat -> nat -> list E -> option (list E)) (omegas_bit_reversed : list F)
    (twiddle_idx idx_1 pairs_per_group distance : nat) (a : list E) : option (list E) :=
  s ← omegas_bit_reversed !! twiddle_idx;
  for_range (butterfly s distance) idx_1 pairs_per_group a.

Definition round (butterfly : F -> nat -> nat -> list E -> option (list E)) (omegas_bit_reversed : list F)
    (num_groups pairs_per_group distance : nat) (a : list E) : option (list E) :=
  for_range (fun k => group butterfly omegas_bit_reversed k (k * pairs_per_group * 2) pairs_per_group distance)
    0 num_groups a.

(** ** The transforms *)

(** [while num_groups < n]; the groups double, so [n] turns are enough. *)
Fixpoint ct_rounds (fuel n : nat) (omegas : list F) (pairs_per_group num_groups distance : nat) (a : list E)
    : option (list E) :=
  if (num_groups <? n)%nat then
    match fuel with
    | O => None
    | S fuel' =>
        a' ← round ct_butterfly omegas num_groups pairs_per_group distance a;
        ct_rounds fuel' n omegas (pairs_per_group / 2) (num_groups * 2) (distance / 2) a'
    end
  else Some a.

Definition serial_ct_ntt_natural_to_bitreversed (a : list E) (omegas_bit_reversed : list F) : option (list E) :=
  let n := length a in
  if (n =? 1)%nat then Some a
  else
    a' ← for_range (plain_butterfly (n / 2)) 0 (n / 2) a;
    ct_rounds n n omegas_bit_reversed (n / 2 / 2) 2 (n / 2 / 2) a'.

(** [while num_groups > 1], with the group size and distance it ends with. *)
Fixpoint gs_rounds (fuel : nat) (omegas : list F) (pairs_per_group num_groups distance : nat) (a : list E)
    : option (list E * nat * nat) :=
  if (1 <? num_groups)%nat then
    match fuel with
    | O => None
    | S fuel' =>
        a' ← round gs_butterfly omegas num_groups pairs_per_group distance a;
        gs_rounds fuel' omegas (pairs_per_group * 2) (num_groups / 2) (distance * 2) a'
    end
  else Some (a, pairs_per_group, distance).

Definition serial_ct_ntt_bitreversed_to_natural (a : list E) (omegas_bit_reversed : list F) : option (list E) :=
  let n := length a in
  if (n =? 1)%nat then Some a
  else
    '(a', pairs_per_group, distance) ← gs_rounds n omegas_bit_reversed 1 (n / 2) 1 a;
    for_range (plain_butterfly distance) 0 pairs_per_group a'.

Definition CACHE_SIZE_LOG : nat := 20.
Definition WORD_SIZE_LOG : nat := 3.
Definition CACHE_BUNCH_LOG : nat := CACHE_SIZE_LOG - WORD_SIZE_LOG.

(** The rounds over the whole array. *)
Fixpoint outer_rounds (count : nat) (omegas : list F) (pairs_per_group num_groups distance : nat) (a : list E)
    : option (list E * nat * nat * nat) :=
  match count with
  | O => Some (a, pairs_per_group, num_groups, distance)
  | S count' =>
      a' ← round ct_butterfly omegas num_groups pairs_per_group distance a;
      outer_rounds count' omegas (pairs_per_group / 2) (num_groups * 2) (distance / 2) a'
  end.

(** The remaining rounds over one bunch that fits the cache. *)
Fixpoint bunch_rounds (count : nat) (omegas : list F) (cache_bunch pairs_per_group : nat)
    (pairs_in_cache num_groups_in_cache distance_in_cache : nat) (a : list E) : option (list E) :=
  match count with
  | O => Some a
  | S count' =>
      a' ← for_range (fun k => group ct_butterfly omegas (cache_bunch * num_groups_in_cache + k)
                               (cache_bunch * pairs_per_group * 2 + k * pairs_in_cache * 2)
                               pairs_in_cache distance_in_cache) 0 num_groups_in_cache a;
      bunch_rounds count' omegas cache_bunch pairs_per_group
        (pairs_in_cache / 2) (num_groups_in_cache * 2) (distance_in_cache / 2) a'
  end.

Definition cache_friendly_ntt_natural_to_bitreversed (a : list E) (log_n : nat) (omegas_bit_reversed : list F)
    : option (list E) :=
  let n := length a in
  if (n =? 1)%nat then Some a
  else
    let cache_friendly_round := (log_n - CACHE_BUNCH_LOG)%nat in
    a ← for_range (plain_butterfly (n / 2)) 0 (n / 2) a;
    '(a, pairs_per_group, num_groups, distance) ←
      outer_rounds (cache_friendly_round - 1) omegas_bit_reversed (n / 2 / 2) 2 (n / 2 / 2) a;
    let round := Nat.max 1 cache_friendly_round in
    for_range (fun cache_bunch =>
                 bunch_rounds (log_n - round) omegas_bit_reversed cache_bunch pairs_per_group
                   pairs_per_group 1 distance) 0 num_groups a.

(** ** FFTs *)
Definition distribute_unless_one (input : list E) (coset_initial coset_step : F) : list E :=
  if negb (feq coset_initial ONE) || negb (feq coset_step ONE)
  then distribute_powers_serial input coset_initial coset_step else input.

Definition log_len (input : list E) : nat := Z.to_nat (usize_trailing_zeros (Z.of_nat (length input))).

Definition fft_natural_to_bitreversed (input : list E) (coset_initial coset_step : F) (twiddles : list F)
    : option (list E) :=
  let input := distribute_unless_one input coset_initial coset_step in
  cache_friendly_ntt_natural_to_bitreversed input (log_len input) twiddles.

Definition fft_natural_to_natural (input : list E) (coset_initial coset_step : F) (twiddles : list F)
    : option (list E) :=
  let input := distribute_unless_one input coset_initial coset_step in
  input ← cache_friendly_ntt_natural_to_bitreversed input (log_len input) twiddles;
  bitreverse_enumeration_inplace input.

Definition partial_ifft_natural_to_natural (input : list E) (coset : F) (twiddles : list F) : option (list E) :=
  input ← serial_ct_ntt_natural_to_bitreversed input twiddles;
  input ← bitreverse_enumeration_inplace input;
  if negb (feq coset ONE) then
    coset ← inverse coset;
    Some (distribute_powers_serial input ONE coset)
  else Some input.

Context `{!FieldExtension Mersenne31Field E}.

Definition ifft_natural_to_natural (input : list E) (coset : F) (twiddles : list F) : option (list E) :=
  input ← partial_ifft_natural_to_natural input coset twiddles;
  if (1 <? length input)%nat then
    n_inv ← inverse (Field.from_u64_with_reduction (Z.of_nat (length input)) : Mersenne31Field);
    Some (map (fun x => mul_assign_by_base x n_inv) input)
  else Some input.
End Definitions.

(** ** Twiddle factors *)
Section Twiddles.
Context {F : Type} `{FieldOps F} `{!FieldEq F} `{!TwoAdicField F}.

Definition twiddle_generator (inversed : bool) (fft_size : Z) : option F :=
  omega ← domain_generator_for_size fft_size;
  if inversed then inverse omega else Some omega.

Definition precompute_twiddles_for_fft (num_cores : Z) (inversed : bool) (fft_size : Z) : option (list F) :=
  omega ← twiddle_generator inversed fft_size;
  powers ← materialize_powers_parallel_starting_with_one num_cores omega (fft_size / 2);
  bitreverse_enumeration_inplace powers.

Definition precompute_all_twiddles_for_fft_serial (inversed : bool) (fft_size : Z) : option (list F) :=
  omega ← twiddle_generator inversed fft_size;
  if feq (pow omega (u32 fft_size)) ONE then
    bitreverse_enumeration_inplace
      (materialize_powers_serial_starting_with_one omega (Z.to_nat (fft_size / 2)))
  else None.
End Twiddles.

(** ** Finite sums *)
Section Sums.
Context {E : Type} `{LawfulField E}.
Add Ring sums_ring : (fv_ring (F := E)).
Implicit Types f g : nat -> fv (F := E).

(** [f 0 + ... + f (n - 1)] *)
Fixpoint vsum (n : nat) (f : nat -> fv (F := E)) : fv :=
  match n with O => vzero | S n' => vadd (vsum n' f) (f n') end.

Lemma vsum_ext n f g : (forall i, (i < n)%nat -> f i = g i) -> vsum n f = vsum n g.
Proof. intros Hfg. induction n as [|n IH]; cbn [vsum]; [reflexivity|]. rewrite IH, Hfg by auto with lia. reflexivity. Qed.

Lemma vsum_app m n f : vsum (m + n) f = vadd (vsum m f) (vsum n (fun i => f (m + i)%nat)).
Proof.
  induction n as [|n IH]; [rewrite Nat.add_0_r; cbn; ring|].
  rewrite Nat.add_succ_r. cbn [vsum]. rewrite IH. ring.
Qed.

Lemma vsum_add n f g : vsum n (fun i => vadd (f i) (g i)) = vadd (vsum n f) (vsum n g).
Proof. induction n as [|n IH]; cbn [vsum]; [ring|]. rewrite IH. ring. Qed.

Lemma vsum_scale n c f : vsum n (fun i => vmul c (f i)) = vmul c (vsum n f).
Proof. induction n as [|n IH]; cbn [vsum]; [ring|]. rewrite IH. ring. Qed.

Lemma vsum_zero n f : (forall i, (i < n)%nat -> f i = vzero) -> vsum n f = vzero.
Proof. intros Hf. induction n as [|n IH]; cbn [vsum]; [reflexivity|]. rewrite IH, Hf by auto with lia. ring. Qed.

Lemma vsum_swap m n (f : nat -> nat -> fv (F := E)) :
  vsum m (fun i => vsum n (fun j => f i j)) = vsum n (fun j => vsum m (fun i => f i j)).
Proof.
  induction m as [|m IH]; cbn [vsum].
  - symmetry. apply vsum_zero. reflexivity.
  - rewrite IH, <- vsum_add. reflexivity.
Qed.

(** A sum with a single term that is not zero. *)
Lemma vsum_single n k f : (k < n)%nat -> (forall i, (i < n)%nat -> i <> k -> f i = vzero) -> vsum n f = f k.
Proof.
  intros Hk Hf. replace n with (k + S (n - k - 1))%nat by lia. rewrite vsum_app.
  rewrite (vsum_zero k) by (intros i Hi; apply Hf; lia).
  replace (S (n - k - 1)) with (1 + (n - k - 1))%nat by lia. rewrite vsum_app. cbn [vsum].
  rewrite (vsum_zero (n - k - 1)) by (intros i Hi; apply Hf; lia). rewrite !Nat.add_0_r. ring.
Qed.

(** [n] as an element of the field *)
Definition vnat (n : nat) : fv (F := E) := vsum n (fun _ => vone).

Lemma vsum_const n c : vsum n (fun _ => c) = vmul (vnat n) c.
Proof. unfold vnat. induction n as [|n IH]; cbn [vsum]; [ring|]. rewrite IH. ring. Qed.

(** The sum of a geometric series of a root of unity other than one is zero. *)
Lemma vsum_geometric n x : vpow x n = vone -> x <> vone -> vsum n (vpow x) = vzero.
Proof.
  intros Hx Hne. assert (G : vmul (vsub x vone) (vsum n (vpow x)) = vsub (vpow x n) vone).
  { clear Hx. induction n as [|n IH]; cbn [vsum vpow]; [ring|].
    transitivity (vadd (vmul (vsub x vone) (vsum n (vpow x))) (vmul (vsub x vone) (vpow x n))); [ring|].
    rewrite IH. ring. }
  rewrite Hx in G. destruct (fv_integral (vsub x vone) (vsum n (vpow x))) as [Z1|Z1].
  - rewrite G. ring.
  - exfalso. apply Hne. transitivity (vadd (vsub x vone) vone); [ring | rewrite Z1; ring].
  - exact Z1.
Qed.
End Sums.

Lemma for_range_ok {A} (body : nat -> A -> option A) (P : nat -> A -> Prop) count : forall start a,
  (forall i a, (start <= i < start + count)%nat -> P i a -> exists a', body i a = Some a' /\ P (S i) a') ->
  P start a -> exists a', for_range body start count a = Some a' /\ P (start + count)%nat a'.
Proof.
  induction count as [|c IH]; intros start a Hb Hp; cbn [for_range].
  - exists a. rewrite Nat.add_0_r. auto.
  - destruct (Hb start a ltac:(lia) Hp) as (a1 & E1 & P1). rewrite E1. cbn [mbind option_bind].
    destruct (IH (S start) a1) as (a2 & E2 & P2); [intros i a' Hi; apply Hb; lia | exact P1|].
    exists a2. split; [exact E2|]. replace (start + S c)%nat with (S start + c)%nat by lia. exact P2.
Qed.

(** ** Bit-reversed exponents *)

Definition rev_bits (k j : nat) : nat := Z.to_nat (bitrev k (Z.of_nat j)).

Lemma pow2_Z k : Z.of_nat (2 ^ k) = (2 ^ Z.of_nat k)%Z.
Proof. rewrite Nat2Z.inj_pow. reflexivity. Qed.

Lemma rev_bits_Z k j : Z.of_nat (rev_bits k j) = bitrev k (Z.of_nat j).
Proof. unfold rev_bits. pose proof (bitrev_bound k (Z.of_nat j)). lia. Qed.

Lemma rev_bits_bound k j : (rev_bits k j < 2 ^ k)%nat.
Proof. pose proof (bitrev_bound k (Z.of_nat j)). apply Nat2Z.inj_lt. rewrite rev_bits_Z, pow2_Z. lia. Qed.

Lemma rev_bits_involutive k j : (j < 2 ^ k)%nat -> rev_bits k (rev_bits k j) = j.
Proof.
  intros Hj. apply Nat2Z.inj. rewrite !rev_bits_Z. apply bitrev_involutive. rewrite <- pow2_Z. lia.
Qed.

Lemma rev_bits_app a b i k : (i < 2 ^ a)%nat ->
  rev_bits (a + b) (k * 2 ^ a + i) = (rev_bits a i * 2 ^ b + rev_bits b k)%nat.
Proof.
  intros Hi. apply Nat2Z.inj. rewrite Nat2Z.inj_add, Nat2Z.inj_mul, !rev_bits_Z, bitrev_split, pow2_Z.
  assert (Hp : (0 < 2 ^ Z.of_nat a)%Z) by (apply Z.pow_pos_nonneg; lia).
  assert (Hi' : (0 <= Z.of_nat i < 2 ^ Z.of_nat a)%Z) by (rewrite <- pow2_Z; lia).
  rewrite Nat2Z.inj_add, Nat2Z.inj_mul, pow2_Z. f_equal; [f_equal|].
  - rewrite <- (bitrev_mod a _ (Z.of_nat a)) by lia. f_equal.
    rewrite Z.add_comm, Z.mod_add, Z.mod_small by lia. reflexivity.
  - f_equal. rewrite Z.div_add_l, Z.div_small by lia. lia.
Qed.

Lemma rev_bits_low a b k : (k < 2 ^ a)%nat -> rev_bits (a + b) k = (rev_bits a k * 2 ^ b)%nat.
Proof.
  intros Hk. pose proof (rev_bits_app a b k 0 Hk) as E. rewrite Nat.mul_0_l, Nat.add_0_l in E. rewrite E.
  unfold rev_bits at 2. rewrite bitrev_0. lia.
Qed.

(** ** The arrays as functions *)
Section Arrays.
Context {E : Type} `{LawfulField E}.
Add Ring arrays_ring : (fv_ring (F := E)).
Implicit Types f g : nat -> fv (F := E).

(** The array of length [n] stands for [f]. *)
Definition holds (n : nat) (a : list E) f : Prop :=
  length a = n /\ forall i, (i < n)%nat -> exists x, a !! i = Some x /\ reps x (f i).

Lemma holds_ext n a f g : (forall i, (i < n)%nat -> f i = g i) -> holds n a f -> holds n a g.
Proof. intros Hfg [Hl Hf]. split; [exact Hl|]. intros i Hi. rewrite <- Hfg by exact Hi. auto. Qed.

Lemma holds_insert n a f j x v : holds n a f -> (j < n)%nat -> reps x v ->
  holds n (<[j := x]> a) (fun i => if (i =? j)%nat then v else f i).
Proof.
  intros [Hl Hf] Hj Hx. split; [rewrite length_insert; exact Hl|]. intros i Hi.
  destruct (Nat.eqb_spec i j) as [->|Hne].
  - exists x. rewrite list_lookup_insert_eq by lia. auto.
  - destruct (Hf i Hi) as (y & Ey & Ry). exists y. rewrite list_lookup_insert_ne by auto. auto.
Qed.

(** A butterfly: what it leaves at [j] and at [j + d]. *)
Definition crossed (lo hi : fv -> fv -> fv) (d j : nat) f (i : nat) : fv (F := E) :=
  if (i =? j)%nat then lo (f j) (f (j + d)%nat)
  else if (i =? j + d)%nat then hi (f j) (f (j + d)%nat) else f i.

Definition acts (n : nat) (b : nat -> nat -> list E -> option (list E)) (lo hi : fv -> fv -> fv) : Prop :=
  forall d j a f, holds n a f -> (0 < d)%nat -> (j + d < n)%nat -> exists a',
    b d j a = Some a' /\ holds n a' (crossed lo hi d j f).

(** The pairs from [idx] up to [m], at distance [d]. *)
Definition crossed_to (lo hi : fv -> fv -> fv) (d idx m : nat) f (i : nat) : fv (F := E) :=
  if (idx <=? i)%nat && (i <? m)%nat then lo (f i) (f (i + d)%nat)
  else if (idx + d <=? i)%nat && (i <? m + d)%nat then hi (f (i - d)%nat) (f i) else f i.

Ltac nat_cases := repeat (cbn [andb]; match goal with
  | |- context [(?x =? ?y)%nat] => destruct (Nat.eqb_spec x y)
  | |- context [(?x <=? ?y)%nat] => destruct (Nat.leb_spec x y)
  | |- context [(?x <? ?y)%nat] => destruct (Nat.ltb_spec x y)
  end; try (exfalso; lia)); cbn [andb].

Lemma group_crossed n b lo hi d idx a f : acts n b lo hi -> holds n a f -> (0 < d)%nat -> (idx + 2 * d <= n)%nat ->
  exists a', for_range (b d) idx d a = Some a' /\ holds n a' (crossed_to lo hi d idx (idx + d) f).
Proof.
  intros Hb Hh Hd Hn. apply (for_range_ok (b d) (fun m a => holds n a (crossed_to lo hi d idx m f))).
  - intros j a0 Hj Hj0. destruct (Hb d j a0 _ Hj0 Hd ltac:(lia)) as (a' & E' & Hh'). exists a'. split; [exact E'|].
    revert Hh'. apply holds_ext. intros i Hi. clear - Hj Hd. unfold crossed, crossed_to.
    nat_cases; subst; rewrite ?Nat.add_sub; try reflexivity.
  - revert Hh. apply holds_ext. intros i Hi. clear - Hd. unfold crossed_to. nat_cases; reflexivity.
Qed.
End Arrays.

Section Butterflies.
Context {F E : Type} `{LawfulExtension F E}.

Notation value := (fv (F := E)).
Implicit Types u v : value.

(** A program of reads and two writes is a butterfly. *)
Lemma two_writes n lo hi (b : nat -> nat -> list E -> option (list E)) :
  (forall d j a x y, a !! j = Some x -> a !! (j + d)%nat = Some y -> (0 < d)%nat -> fwf x -> fwf y ->
     exists x' y', b d j a = Some (<[j := x']> (<[(j + d)%nat := y']> a)) /\
       reps x' (lo (fabs x) (fabs y)) /\ reps y' (hi (fabs x) (fabs y))) ->
  acts n b lo hi.
Proof.
  intros Hb d j a f Hh Hd Hn. destruct (proj2 Hh j ltac:(lia)) as (x & Ex & Wx & Vx).
  destruct (proj2 Hh (j + d)%nat ltac:(lia)) as (y & Ey & Wy & Vy).
  destruct (Hb d j a x y Ex Ey Hd Wx Wy) as (x' & y' & E' & Rx & Ry). rewrite E'. eexists. split; [reflexivity|].
  rewrite Vx, Vy in Rx, Ry.
  pose proof (holds_insert n _ _ (j + d) y' _ Hh ltac:(lia) Ry) as Hy1.
  pose proof (holds_insert n _ _ j x' _ Hy1 ltac:(lia) Rx) as Hx1. exact Hx1.
Qed.

Ltac read_pair Ex Ey :=
  rewrite Ex; cbn [mbind option_bind]; rewrite Ey; cbn [mbind option_bind];
  rewrite list_lookup_insert_ne by lia; rewrite Ex; cbn [mbind option_bind].

Lemma plain_acts n : acts n (plain_butterfly (E := E)) vadd vsub.
Proof.
  apply two_writes. intros d j a x y Ex Ey Hd Wx Wy. unfold plain_butterfly. read_pair Ex Ey.
  eexists _, _. split; [reflexivity|]. split; [apply add_ok | apply sub_ok]; assumption.
Qed.

Lemma ct_acts n (s : F) : fwf s ->
  acts n (ct_butterfly s) (fun u v => vadd u (vmul v (embed F E (fabs s)))) (fun u v => vsub u (vmul v (embed F E (fabs s)))).
Proof.
  intros Ws. apply two_writes. intros d j a x y Ex Ey Hd Wx Wy. unfold ct_butterfly. read_pair Ex Ey.
  destruct (mul_by_base_ok y s Wy Ws) as [Wm Vm]. eexists _, _. split; [reflexivity|].
  split; [apply reps_add | apply reps_sub]; split; auto.
Qed.

Lemma gs_acts n (s : F) : fwf s ->
  acts n (gs_butterfly s) vadd (fun u v => vmul (vsub u v) (embed F E (fabs s))).
Proof.
  intros Ws. apply two_writes. intros d j a x y Ex Ey Hd Wx Wy. unfold gs_butterfly. read_pair Ex Ey.
  destruct (sub_ok x y Wx Wy) as [Wd Vd]. destruct (mul_by_base_ok (sub_assign x y) s Wd Ws) as [Wm Vm].
  eexists _, _. split; [reflexivity|]. split; [apply add_ok; assumption|]. split; [exact Wm|]. rewrite Vm, Vd. reflexivity.
Qed.
End Butterflies.

(** ** Roots of unity in bit-reversed order *)
Section Roots.
Context {E : Type} `{LawfulField E}.
Add Ring roots_ring : (fv_ring (F := E)).
Notation value := (fv (F := E)).

(** A root of unity of order [2^K]: the last square before [1] is [-1]. *)
Definition unity_root (K : nat) (w : value) : Prop :=
  vpow w (2 ^ K) = vone /\ ((0 < K)%nat -> vpow w (2 ^ (K - 1)) = vopp vone).

Context (K : nat) (w : value) (Hw : unity_root K w).

Definition root (j : nat) : value := vpow w (rev_bits K j).
Definition twiddle (k : nat) : value := vpow w (rev_bits (K - 1) k).

Lemma vpow_period a b : vpow w (a * 2 ^ K + b) = vpow w b.
Proof. rewrite vpow_add, Nat.mul_comm, vpow_mul, (proj1 Hw), vpow_one. ring. Qed.

(** Half of a block has the twiddle factor as common power, the other half its
    opposite. *)
Lemma root_pow t k i : (t < K)%nat -> (k < 2 ^ (K - t - 1))%nat -> (i < 2 ^ S t)%nat ->
  vpow (root (k * 2 ^ S t + i)) (2 ^ t) = if (i <? 2 ^ t)%nat then twiddle k else vopp (twiddle k).
Proof.
  intros Ht Hk Hi. unfold root, twiddle. rewrite <- vpow_mul.
  replace K with (S t + (K - t - 1))%nat at 1 by lia. rewrite rev_bits_app by exact Hi.
  assert (Ek : rev_bits (K - 1) k = (rev_bits (K - t - 1) k * 2 ^ t)%nat).
  { replace (K - 1)%nat with (K - t - 1 + t)%nat at 1 by lia. apply rev_bits_low. exact Hk. }
  pose proof (Nat.pow_nonzero 2 t ltac:(lia)) as Hp. rewrite Nat.pow_succ_r' in Hi.
  set (b := (i / 2 ^ t)%nat). set (r := rev_bits t (i mod 2 ^ t)).
  assert (Ei : rev_bits (S t) i = (r * 2 + b)%nat).
  { replace (S t) with (t + 1)%nat by lia.
    replace i with (b * 2 ^ t + i mod 2 ^ t)%nat at 1 by (subst b; rewrite Nat.mul_comm; symmetry; apply Nat.div_mod_eq).
    rewrite rev_bits_app by (apply Nat.mod_upper_bound; exact Hp). fold r. f_equal.
    assert (Hb : (b < 2)%nat) by (apply Nat.Div0.div_lt_upper_bound; lia).
    destruct b as [|[|b]]; [reflexivity | reflexivity | lia]. }
  rewrite Ei. assert (E2 : (2 ^ (K - t - 1) * 2 ^ t = 2 ^ (K - 1))%nat) by (rewrite <- Nat.pow_add_r; f_equal; lia).
  assert (EK : (2 * 2 ^ (K - 1) = 2 ^ K)%nat) by (rewrite <- Nat.pow_succ_r'; f_equal; lia).
  replace (((r * 2 + b) * 2 ^ (K - t - 1) + rev_bits (K - t - 1) k) * 2 ^ t)%nat
    with (r * 2 ^ K + (b * 2 ^ (K - 1) + rev_bits (K - 1) k))%nat by nia.
  rewrite vpow_period. destruct (Nat.ltb_spec i (2 ^ t)) as [Hlt|Hge].
  - replace b with 0%nat by (symmetry; apply Nat.div_small; exact Hlt). reflexivity.
  - replace b with 1%nat; [|apply (Nat.div_unique _ _ 1 (i - 2 ^ t)); lia].
    rewrite Nat.mul_1_l, vpow_add, (proj2 Hw) by lia. ring.
Qed.

Lemma twiddle_zero : twiddle 0 = vone.
Proof. unfold twiddle, rev_bits. rewrite bitrev_0. reflexivity. Qed.
End Roots.

(** ** Splitting and merging blocks *)
Section Blocks.
Context {E : Type} `{LawfulField E}.
Add Ring blocks_ring : (fv_ring (F := E)).
Notation value := (fv (F := E)).
Context (K : nat) (w : value) (Hw : unity_root K w) (A : nat -> value).
Notation root := (root K w).
Notation twiddle := (twiddle K w).
Implicit Types f g : nat -> value.

(** The polynomial with coefficients [A] at the [j]-th root. *)
Definition evaluation (j : nat) : value := vsum (2 ^ K) (fun i => vmul (A i) (vpow (root j) i)).

(** Block [k] of size [2^t] holds a remainder of the polynomial that still has
    the right values at the block's roots. *)
Definition reduced (t : nat) f (k : nat) : Prop := forall i, (i < 2 ^ t)%nat ->
  vsum (2 ^ t) (fun l => vmul (f (k * 2 ^ t + l)%nat) (vpow (root (k * 2 ^ t + i)) l)) = evaluation (k * 2 ^ t + i).

(** Block [k] holds the sums over its part of [A]. *)
Definition merged (t : nat) f (k : nat) : Prop := forall i, (i < 2 ^ t)%nat ->
  f (k * 2 ^ t + i)%nat = vsum (2 ^ t) (fun l => vmul (A (k * 2 ^ t + l)%nat) (vpow (root (k * 2 ^ t + l)) i)).

Definition same_block (t k : nat) f g : Prop := forall i, (i < 2 ^ t)%nat -> f (k * 2 ^ t + i)%nat = g (k * 2 ^ t + i)%nat.

Lemma reduced_ext t f g k : same_block t k f g -> reduced t f k -> reduced t g k.
Proof.
  intros Hfg Hf i Hi. rewrite <- Hf by exact Hi. apply vsum_ext. intros l Hl. rewrite Hfg by exact Hl. reflexivity.
Qed.

Lemma merged_ext t f g k : same_block t k f g -> merged t f k -> merged t g k.
Proof. intros Hfg Hf i Hi. rewrite <- Hfg by exact Hi. apply Hf. exact Hi. Qed.

Definition ct_lo (s u v : value) : value := vadd u (vmul v s).
Definition ct_hi (s u v : value) : value := vsub u (vmul v s).
Definition gs_lo (u v : value) : value := vadd u v.
Definition gs_hi (s u v : value) : value := vmul (vsub u v) s.

Lemma half_sum f t base x : vsum (2 ^ S t) (fun l => vmul (f (base + l)%nat) (vpow x l)) =
  vadd (vsum (2 ^ t) (fun l => vmul (f (base + l)%nat) (vpow x l)))
       (vmul (vpow x (2 ^ t)) (vsum (2 ^ t) (fun l => vmul (f (base + 2 ^ t + l)%nat) (vpow x l)))).
Proof.
  rewrite Nat.pow_succ_r'. replace (2 * 2 ^ t)%nat with (2 ^ t + 2 ^ t)%nat by lia. rewrite vsum_app. f_equal.
  rewrite <- vsum_scale. apply vsum_ext. intros l _. rewrite vpow_add, Nat.add_assoc. ring.
Qed.

(** The values a split block gets. *)
Lemma crossed_halves lo hi t k f l : (l < 2 ^ t)%nat ->
  let g := crossed_to lo hi (2 ^ t) (k * 2 ^ S t) (k * 2 ^ S t + 2 ^ t) f in
  g (k * 2 ^ S t + l)%nat = lo (f (k * 2 ^ S t + l)%nat) (f (k * 2 ^ S t + 2 ^ t + l)%nat) /\
  g (k * 2 ^ S t + 2 ^ t + l)%nat = hi (f (k * 2 ^ S t + l)%nat) (f (k * 2 ^ S t + 2 ^ t + l)%nat).
Proof.
  intros Hl g. subst g. unfold crossed_to. set (B := (k * 2 ^ S t)%nat). set (D := (2 ^ t)%nat) in *.
  replace (B <=? B + l)%nat with true by (symmetry; apply Nat.leb_le; lia).
  replace (B + l <? B + D)%nat with true by (symmetry; apply Nat.ltb_lt; lia).
  replace (B + D + l <? B + D)%nat with false by (symmetry; apply Nat.ltb_ge; lia). rewrite andb_false_r.
  replace (B + D <=? B + D + l)%nat with true by (symmetry; apply Nat.leb_le; lia).
  replace (B + D + l <? B + D + D)%nat with true by (symmetry; apply Nat.ltb_lt; lia). cbn [andb].
  split; f_equal; f_equal; lia.
Qed.

Lemma crossed_elsewhere lo hi t k f i : (i < k * 2 ^ S t)%nat \/ (k * 2 ^ S t + 2 ^ S t <= i)%nat ->
  crossed_to lo hi (2 ^ t) (k * 2 ^ S t) (k * 2 ^ S t + 2 ^ t) f i = f i.
Proof.
  intros Hi. unfold crossed_to. rewrite (Nat.pow_succ_r' 2 t) in *.
  destruct (Nat.leb_spec (k * (2 * 2 ^ t)) i), (Nat.ltb_spec i (k * (2 * 2 ^ t) + 2 ^ t)); cbn [andb]; try lia;
  destruct (Nat.leb_spec (k * (2 * 2 ^ t) + 2 ^ t) i), (Nat.ltb_spec i (k * (2 * 2 ^ t) + 2 ^ t + 2 ^ t)); cbn [andb]; try lia;
  reflexivity.
Qed.

Lemma split_reduced t k f : (t < K)%nat -> (k < 2 ^ (K - t - 1))%nat -> reduced (S t) f k ->
  let g := crossed_to (ct_lo (twiddle k)) (ct_hi (twiddle k)) (2 ^ t) (k * 2 ^ S t) (k * 2 ^ S t + 2 ^ t) f in
  reduced t g (2 * k) /\ reduced t g (2 * k + 1).
Proof.
  intros Ht Hk Hf g. pose proof (crossed_halves (ct_lo (twiddle k)) (ct_hi (twiddle k)) t k f) as Hg. fold g in Hg.
  assert (E0 : (2 * k * 2 ^ t = k * 2 ^ S t)%nat) by (rewrite Nat.pow_succ_r'; lia).
  assert (E1 : ((2 * k + 1) * 2 ^ t = k * 2 ^ S t + 2 ^ t)%nat) by (rewrite Nat.pow_succ_r'; lia).
  assert (Hs : (2 ^ S t = 2 ^ t + 2 ^ t)%nat) by (rewrite Nat.pow_succ_r'; lia).
  split; intros i Hi; rewrite ?E0, ?E1.
  - rewrite <- Hf by lia. rewrite half_sum, (root_pow K w Hw) by lia.
    replace (i <? 2 ^ t)%nat with true by (symmetry; apply Nat.ltb_lt; exact Hi).
    rewrite <- vsum_scale, <- vsum_add. apply vsum_ext. intros l Hl. rewrite (proj1 (Hg l Hl)). unfold ct_lo. ring.
  - rewrite <- Nat.add_assoc. rewrite <- Hf by lia. rewrite half_sum, (root_pow K w Hw) by lia.
    replace (2 ^ t + i <? 2 ^ t)%nat with false by (symmetry; apply Nat.ltb_ge; lia).
    rewrite <- vsum_scale, <- vsum_add. apply vsum_ext. intros l Hl. rewrite (proj2 (Hg l Hl)). unfold ct_hi. ring.
Qed.

Lemma merge_blocks t k f : (t < K)%nat -> (k < 2 ^ (K - t - 1))%nat -> merged t f (2 * k) -> merged t f (2 * k + 1) ->
  merged (S t) (crossed_to gs_lo (gs_hi (twiddle k)) (2 ^ t) (k * 2 ^ S t) (k * 2 ^ S t + 2 ^ t) f) k.
Proof.
  intros Ht Hk F0 F1. set (g := crossed_to _ _ _ _ _ f).
  pose proof (crossed_halves gs_lo (gs_hi (twiddle k)) t k f) as Hg. fold g in Hg.
  assert (E0 : (2 * k * 2 ^ t = k * 2 ^ S t)%nat) by (rewrite Nat.pow_succ_r'; lia).
  assert (E1 : ((2 * k + 1) * 2 ^ t = k * 2 ^ S t + 2 ^ t)%nat) by (rewrite Nat.pow_succ_r'; lia).
  assert (Hs : (2 ^ S t = 2 ^ t + 2 ^ t)%nat) by (rewrite Nat.pow_succ_r'; lia).
  unfold merged in F0, F1. rewrite E0 in F0. rewrite E1 in F1.
  intros i Hi. set (B := (k * 2 ^ S t)%nat) in *. rewrite Hs, vsum_app.
  assert (Hroot : forall l, (l < 2 ^ S t)%nat -> vpow (root (B + l)) (2 ^ t) =
            if (l <? 2 ^ t)%nat then twiddle k else vopp (twiddle k)) by (intros l Hl; apply root_pow; auto).
  destruct (Nat.lt_ge_cases i (2 ^ t)) as [Hlt|Hge].
  - rewrite (proj1 (Hg i Hlt)). unfold gs_lo. rewrite F0, F1 by exact Hlt. f_equal.
    apply vsum_ext. intros l Hl. rewrite Nat.add_assoc. reflexivity.
  - set (i' := (i - 2 ^ t)%nat). replace i with (2 ^ t + i')%nat by lia. rewrite Nat.add_assoc.
    rewrite (proj2 (Hg i' ltac:(lia))). unfold gs_hi. rewrite F0, F1 by lia.
    rewrite (vsum_ext _ (fun l => vmul (A (B + l)%nat) (vpow (root (B + l)) (2 ^ t + i')))
              (fun l => vmul (twiddle k) (vmul (A (B + l)%nat) (vpow (root (B + l)) i')))).
    2:{ intros l Hl. rewrite vpow_add, Hroot by lia.
        replace (l <? 2 ^ t)%nat with true by (symmetry; apply Nat.ltb_lt; exact Hl). ring. }
    rewrite (vsum_ext _ (fun l => vmul (A (B + (2 ^ t + l))%nat) (vpow (root (B + (2 ^ t + l))) (2 ^ t + i')))
              (fun l => vmul (vopp (twiddle k)) (vmul (A (B + 2 ^ t + l)%nat) (vpow (root (B + 2 ^ t + l)) i')))).
    2:{ intros l Hl. rewrite vpow_add, Hroot by lia. rewrite Nat.add_assoc.
        replace (2 ^ t + l <? 2 ^ t)%nat with false by (symmetry; apply Nat.ltb_ge; lia). ring. }
    rewrite !vsum_scale. ring.
Qed.
End Blocks.

(** ** Rounds *)
Section Rounds.
Context {F E : Type} `{LawfulExtension F E}.
Notation value := (fv (F := E)).
Context (K : nat) (w : value) (Hw : unity_root K w) (A : nat -> value) (omegas : list F).

(** The array of twiddle factors. *)
Definition twiddles_ok : Prop := forall k, (0 < K)%nat -> (k < 2 ^ (K - 1))%nat -> exists s,
  omegas !! k = Some s /\ fwf s /\ embed F E (fabs s) = twiddle K w k.

Context (Htw : twiddles_ok).
Notation N := (2 ^ K)%nat.
Notation reduced := (reduced K w A).
Notation merged := (merged K w A).
Implicit Types f g : nat -> value.

(** Only block [k] of size [2^(t+1)] changes. *)
Definition local_change (t k : nat) f g : Prop := forall i,
  (i < k * 2 ^ S t)%nat \/ (k * 2 ^ S t + 2 ^ S t <= i)%nat -> g i = f i.

Lemma pow2_split a b : (b <= a)%nat -> (2 ^ a = 2 ^ (a - b) * 2 ^ b)%nat.
Proof. intros Hb. rewrite <- Nat.pow_add_r. f_equal. lia. Qed.

Lemma block_inside t k : (t <= K)%nat -> (k < 2 ^ (K - t))%nat -> (k * 2 ^ t + 2 ^ t <= N)%nat.
Proof. intros Ht Hk. rewrite (pow2_split K t Ht). nia. Qed.

Lemma group_found butterfly lo hi t k a f :
  (forall s, fwf s -> embed F E (fabs s) = twiddle K w k -> acts N (butterfly s) lo hi) ->
  holds N a f -> (t < K)%nat -> (k < 2 ^ (K - t - 1))%nat -> exists a',
  group butterfly omegas k (k * 2 ^ S t) (2 ^ t) (2 ^ t) a = Some a' /\
  holds N a' (crossed_to lo hi (2 ^ t) (k * 2 ^ S t) (k * 2 ^ S t + 2 ^ t) f).
Proof.
  intros Hb Hh Ht Hk.
  assert (Hk1 : (k < 2 ^ (K - 1))%nat).
  { apply (Nat.lt_le_trans _ _ _ Hk). apply Nat.pow_le_mono_r; lia. }
  destruct (Htw k ltac:(lia) Hk1) as (s & Es & Ws & Vs). unfold group. rewrite Es. cbn [mbind option_bind].
  pose proof (block_inside (S t) k ltac:(lia) ltac:(replace (K - S t)%nat with (K - t - 1)%nat by lia; exact Hk)) as Hin.
  pose proof (Nat.pow_nonzero 2 t ltac:(lia)) as Hp.
  apply group_crossed; [apply Hb; assumption | exact Hh | lia|]. rewrite Nat.pow_succ_r' in *. lia.
Qed.

Lemma ct_acts_twiddle k s : fwf s -> embed F E (fabs s) = twiddle K w k ->
  acts N (ct_butterfly s) (ct_lo (twiddle K w k)) (ct_hi (twiddle K w k)).
Proof. intros Ws <-. exact (ct_acts N s Ws). Qed.

Lemma gs_acts_twiddle k s : fwf s -> embed F E (fabs s) = twiddle K w k ->
  acts N (gs_butterfly s) gs_lo (gs_hi (twiddle K w k)).
Proof. intros Ws <-. exact (gs_acts N s Ws). Qed.

Lemma ct_group_ok t k a f : holds N a f -> (t < K)%nat -> (k < 2 ^ (K - t - 1))%nat -> reduced (S t) f k ->
  exists a' g, group ct_butterfly omegas k (k * 2 ^ S t) (2 ^ t) (2 ^ t) a = Some a' /\ holds N a' g /\
    reduced t g (2 * k) /\ reduced t g (2 * k + 1) /\ local_change t k f g.
Proof.
  intros Hh Ht Hk Hr. destruct (group_found _ _ _ t k a f (ct_acts_twiddle k) Hh Ht Hk) as (a' & Ea & Ha).
  destruct (split_reduced K w Hw A t k f Ht Hk Hr) as [R0 R1].
  eexists a', _. split; [exact Ea|]. split; [exact Ha|]. split; [exact R0|]. split; [exact R1|].
  intros i Hi. apply crossed_elsewhere. exact Hi.
Qed.

Lemma gs_group_ok t k a f : holds N a f -> (t < K)%nat -> (k < 2 ^ (K - t - 1))%nat ->
  merged t f (2 * k) -> merged t f (2 * k + 1) ->
  exists a' g, group gs_butterfly omegas k (k * 2 ^ S t) (2 ^ t) (2 ^ t) a = Some a' /\ holds N a' g /\
    merged (S t) g k /\ local_change t k f g.
Proof.
  intros Hh Ht Hk M0 M1. destruct (group_found _ _ _ t k a f (gs_acts_twiddle k) Hh Ht Hk) as (a' & Ea & Ha).
  eexists a', _. split; [exact Ea|]. split; [exact Ha|].
  split; [apply (merge_blocks K w Hw A t k f Ht Hk M0 M1)|]. intros i Hi. apply crossed_elsewhere. exact Hi.
Qed.

(** A change in block [k] leaves the other blocks alone. *)
Lemma other_block t k k' f g : local_change t k f g -> k' <> k -> same_block (S t) k' f g.
Proof. intros Hl Hne i Hi. symmetry. apply Hl. destruct (Nat.lt_ge_cases k' k); [left | right]; nia. Qed.

Lemma other_half t k k' f g : local_change t k f g -> k' <> (2 * k)%nat -> k' <> (2 * k + 1)%nat -> same_block t k' f g.
Proof.
  intros Hl Hn0 Hn1 i Hi. symmetry. apply Hl. rewrite Nat.pow_succ_r'. destruct (Nat.lt_ge_cases k' (2 * k)); [left | right]; nia.
Qed.

(** All blocks of size [2^t] are reduced. *)
Definition level (t : nat) f : Prop := forall k, (k < 2 ^ (K - t))%nat -> reduced t f k.
Definition merged_level (t : nat) f : Prop := forall k, (k < 2 ^ (K - t))%nat -> merged t f k.

Lemma ct_range_ok t first count a f (idx tw : nat -> nat) : (t < K)%nat ->
  (first + count <= 2 ^ (K - t - 1))%nat ->
  (forall k, (k < count)%nat -> tw k = (first + k)%nat /\ idx k = ((first + k) * 2 ^ S t)%nat) ->
  holds N a f -> (forall k, (first <= k < first + count)%nat -> reduced (S t) f k) ->
  exists a' g, for_range (fun k => group ct_butterfly omegas (tw k) (idx k) (2 ^ t) (2 ^ t)) 0 count a = Some a' /\
    holds N a' g /\ (forall k, (2 * first <= k < 2 * (first + count))%nat -> reduced t g k) /\
    (forall i, (i < first * 2 ^ S t)%nat \/ ((first + count) * 2 ^ S t <= i)%nat -> g i = f i).
Proof.
  intros Ht Hc Hidx Hh Hr.
  destruct (for_range_ok (fun k => group ct_butterfly omegas (tw k) (idx k) (2 ^ t) (2 ^ t))
    (fun m a => exists g, holds N a g /\ (forall k, (2 * first <= k < 2 * (first + m))%nat -> reduced t g k) /\
       (forall k, (first + m <= k < first + count)%nat -> reduced (S t) g k) /\
       (forall i, (i < first * 2 ^ S t)%nat \/ ((first + count) * 2 ^ S t <= i)%nat -> g i = f i)) count 0 a)
    as (a' & E' & g & Hg & R & _ & Hout).
  - intros m a0 Hm (g & Hg & R0 & R1 & Hout). destruct (Hidx m ltac:(lia)) as [-> ->].
    destruct (ct_group_ok t (first + m) a0 g Hg Ht ltac:(lia) (R1 (first + m)%nat ltac:(lia)))
      as (a' & g' & E' & Hg' & S0 & S1 & Hl).
    exists a'. split; [exact E'|]. exists g'. split; [exact Hg'|]. split; [|split].
    + intros k Hk. destruct (Nat.eq_dec k (2 * (first + m))) as [->|N0]; [exact S0|].
      destruct (Nat.eq_dec k (2 * (first + m) + 1)) as [->|N1]; [exact S1|].
      apply (reduced_ext K w A t g); [apply (other_half t (first + m)); auto | apply R0; lia].
    + intros k Hk. apply (reduced_ext K w A (S t) g); [apply (other_block t (first + m)); [exact Hl | lia] | apply R1; lia].
    + intros i Hi. rewrite Hl, Hout by (destruct Hi; [left | right]; nia). reflexivity.
  - exists f. split; [exact Hh|]. split; [intros k Hk; lia|]. split; [intros k Hk; apply Hr; lia | auto].
  - exists a', g. auto.
Qed.

Lemma ct_round_ok t a f : (t < K)%nat -> holds N a f -> level (S t) f -> exists a' g,
  round ct_butterfly omegas (2 ^ (K - S t)) (2 ^ t) (2 ^ t) a = Some a' /\ holds N a' g /\ level t g.
Proof.
  intros Ht Hh Hl. destruct (ct_range_ok t 0 (2 ^ (K - S t)) a f (fun k => (k * 2 ^ t * 2)%nat) (fun k => k))
    as (a' & g & E' & Hg & R & _).
  - exact Ht.
  - replace (K - t - 1)%nat with (K - S t)%nat by lia. lia.
  - intros k Hk. rewrite Nat.pow_succ_r'. lia.
  - exact Hh.
  - intros k Hk. apply Hl. lia.
  - exists a', g. split; [exact E'|]. split; [exact Hg|]. intros k Hk. apply R.
    replace (K - t)%nat with (S (K - S t)) in Hk by lia. rewrite Nat.pow_succ_r' in Hk. lia.
Qed.

Lemma half_pow2 t : (2 ^ S t / 2 = 2 ^ t)%nat.
Proof. rewrite Nat.pow_succ_r', Nat.mul_comm. apply Nat.div_mul. lia. Qed.

(** The first round, without twiddle factors. *)
Lemma first_round_ok a : (0 < K)%nat -> holds N a A -> exists a' g,
  for_range (plain_butterfly (N / 2)) 0 (N / 2) a = Some a' /\ holds N a' g /\ level (K - 1) g.
Proof.
  intros HK Hh. replace (N / 2)%nat with (2 ^ (K - 1))%nat by (rewrite <- half_pow2; do 2 f_equal; lia).
  pose proof (Nat.pow_nonzero 2 (K - 1) ltac:(lia)) as Hp.
  assert (HN : (N = 2 * 2 ^ (K - 1))%nat) by (rewrite <- Nat.pow_succ_r'; f_equal; lia).
  destruct (group_crossed N _ _ _ (2 ^ (K - 1)) 0 a A (plain_acts N) Hh ltac:(lia) ltac:(lia)) as (a' & Ea & Ha).
  exists a'. set (g := crossed_to (ct_lo (twiddle K w 0)) (ct_hi (twiddle K w 0)) (2 ^ (K - 1)) (0 * 2 ^ S (K - 1))
                         (0 * 2 ^ S (K - 1) + 2 ^ (K - 1)) A).
  exists g. split; [exact Ea|]. split.
  - revert Ha. apply holds_ext. intros i Hi. subst g. rewrite Nat.mul_0_l, Nat.add_0_l. unfold crossed_to.
    rewrite twiddle_zero. unfold ct_lo, ct_hi.
    assert (H1v : forall v : value, vmul v vone = v) by (intros v; rewrite (Rmul_comm fv_ring); apply (Rmul_1_l fv_ring)).
    rewrite !H1v. reflexivity.
  - destruct (split_reduced K w Hw A (K - 1) 0 A) as [R0 R1]; [lia | apply Nat.neq_0_lt_0, Nat.pow_nonzero; lia | |].
    { intros i Hi. rewrite Nat.mul_0_l, Nat.add_0_l. unfold evaluation.
      replace (S (K - 1)) with K by lia. reflexivity. }
    intros k Hk. replace (K - (K - 1))%nat with 1%nat in Hk by lia. change (2 ^ 1)%nat with 2%nat in Hk.
    destruct k as [|[|k]]; [exact R0 | exact R1 | lia].
Qed.

Lemma ct_rounds_ok t : forall fuel a f, (t <= fuel)%nat -> (t <= K)%nat -> holds N a f -> level t f -> exists a' g,
  ct_rounds fuel N omegas (2 ^ t / 2) (2 ^ (K - t)) (2 ^ t / 2) a = Some a' /\ holds N a' g /\ level 0 g.
Proof.
  induction t as [|t IH]; intros fuel a f Hf Ht Hh Hl.
  - exists a, f. rewrite Nat.sub_0_r. destruct fuel; cbn [ct_rounds]; rewrite Nat.ltb_irrefl; auto.
  - rewrite half_pow2. destruct (ct_round_ok t a f ltac:(lia) Hh Hl) as (a1 & g1 & E1 & Hh1 & L1).
    destruct fuel as [|fuel]; [lia|]. cbn [ct_rounds].
    replace (2 ^ (K - S t) <? N)%nat with true by (symmetry; apply Nat.ltb_lt, Nat.pow_lt_mono_r; lia).
    rewrite E1. cbn [mbind option_bind].
    replace (2 ^ (K - S t) * 2)%nat with (2 ^ (K - t))%nat
      by (replace (K - t)%nat with (S (K - S t)) by lia; rewrite Nat.pow_succ_r'; lia).
    apply (IH fuel a1 g1); auto; lia.
Qed.

(** The result: position [j] holds the value at the [j]-th root. *)
Definition transformed (a : list E) : Prop := holds N a (evaluation K w A).

Lemma level_0 a g : holds N a g -> level 0 g -> transformed a.
Proof.
  intros Hh Hl. revert Hh. apply holds_ext. intros j Hj.
  specialize (Hl j ltac:(rewrite Nat.sub_0_r; exact Hj) 0%nat ltac:(change (2 ^ 0)%nat with 1%nat; lia)).
  change (2 ^ 0)%nat with 1%nat in Hl. rewrite Nat.mul_1_r, Nat.add_0_r in Hl. rewrite <- Hl.
  cbn [vsum vpow]. rewrite Nat.add_0_r, (Radd_0_l fv_ring), (Rmul_comm fv_ring). symmetry. apply (Rmul_1_l fv_ring).
Qed.

Lemma single_transformed a : K = 0%nat -> holds N a A -> transformed a.
Proof.
  intros HK. apply holds_ext. intros i Hi. unfold evaluation.
  assert (EN : N = 1%nat) by (rewrite HK; reflexivity). rewrite EN in Hi |- *.
  replace i with 0%nat by lia. cbn [vsum vpow].
  rewrite (Radd_0_l fv_ring), (Rmul_comm fv_ring). symmetry. apply (Rmul_1_l fv_ring).
Qed.

Lemma holds_length a f : holds N a f -> length a = N.
Proof. intros [Hl _]. exact Hl. Qed.

Lemma size_case : (K = 0 /\ (N =? 1)%nat = true)%nat \/ ((0 < K)%nat /\ (N =? 1)%nat = false).
Proof.
  destruct (Nat.eq_dec K 0) as [HK|HK].
  - left. split; [exact HK|]. rewrite HK. reflexivity.
  - right. split; [lia|]. apply Nat.eqb_neq. pose proof (Nat.pow_gt_lin_r 2 K ltac:(lia)). lia.
Qed.

Lemma serial_ct_ok a : holds N a A -> exists a', serial_ct_ntt_natural_to_bitreversed a omegas = Some a' /\ transformed a'.
Proof.
  intros Hh. unfold serial_ct_ntt_natural_to_bitreversed. rewrite (holds_length a A Hh).
  destruct size_case as [[HK ->]|[HK ->]]; [exists a; auto using single_transformed|].
  destruct (first_round_ok a HK Hh) as (a1 & g1 & E1 & Hh1 & L1). rewrite E1. cbn [mbind option_bind].
  destruct (ct_rounds_ok (K - 1) N a1 g1) as (a2 & g2 & E2 & Hh2 & L2); [|lia|exact Hh1|exact L1|].
  { pose proof (Nat.pow_gt_lin_r 2 K ltac:(lia)). lia. }
  exists a2. split; [|exact (level_0 a2 g2 Hh2 L2)].
  replace (K - (K - 1))%nat with 1%nat in E2 by lia. change (2 ^ 1)%nat with 2%nat in E2.
  replace (N / 2)%nat with (2 ^ (K - 1))%nat by (rewrite <- half_pow2; do 2 f_equal; lia). exact E2.
Qed.

Lemma outer_rounds_ok count : forall t a f, (count <= t)%nat -> (t <= K)%nat -> holds N a f -> level t f -> exists a' g,
  outer_rounds count omegas (2 ^ t / 2) (2 ^ (K - t)) (2 ^ t / 2) a =
    Some (a', 2 ^ (t - count) / 2, 2 ^ (K - (t - count)), 2 ^ (t - count) / 2)%nat /\
  holds N a' g /\ level (t - count) g.
Proof.
  induction count as [|c IH]; intros t a f Hc Ht Hh Hl; cbn [outer_rounds].
  - rewrite Nat.sub_0_r. exists a, f. auto.
  - destruct t as [|t]; [lia|]. rewrite half_pow2.
    destruct (ct_round_ok t a f ltac:(lia) Hh Hl) as (a1 & g1 & E1 & Hh1 & L1). rewrite E1. cbn [mbind option_bind].
    replace (2 ^ (K - S t) * 2)%nat with (2 ^ (K - t))%nat
      by (replace (K - t)%nat with (S (K - S t)) by lia; rewrite Nat.pow_succ_r'; lia).
    replace (S t - S c)%nat with (t - c)%nat by lia. apply (IH t a1 g1); auto; lia.
Qed.

(** The rounds of one bunch: block [c] of size [2^T]. *)
Lemma bunch_rounds_ok T c t : forall a f, (t <= T)%nat -> (T <= K)%nat -> (c < 2 ^ (K - T))%nat -> holds N a f ->
  (forall k, (c * 2 ^ (T - t) <= k < (c + 1) * 2 ^ (T - t))%nat -> reduced t f k) -> exists a' g,
  bunch_rounds t omegas c (2 ^ T / 2) (2 ^ t / 2) (2 ^ (T - t)) (2 ^ t / 2) a = Some a' /\ holds N a' g /\
  (forall k, (c * 2 ^ T <= k < (c + 1) * 2 ^ T)%nat -> reduced 0 g k) /\
  (forall i, (i < c * 2 ^ T)%nat \/ ((c + 1) * 2 ^ T <= i)%nat -> g i = f i).
Proof.
  induction t as [|t IH]; intros a f Ht HT Hc Hh Hr; cbn [bunch_rounds].
  - exists a, f. rewrite Nat.sub_0_r in Hr. auto.
  - rewrite half_pow2. set (G := (2 ^ (T - S t))%nat) in *.
    assert (HG : (2 ^ T = G * 2 ^ S t)%nat) by (apply pow2_split; lia).
    assert (HGK : (2 ^ (K - T) * G = 2 ^ (K - t - 1))%nat) by (subst G; rewrite <- Nat.pow_add_r; f_equal; lia).
    destruct (ct_range_ok t (c * G) G a f (fun k => c * (2 ^ T / 2) * 2 + k * 2 ^ t * 2)%nat (fun k => c * G + k)%nat)
      as (a1 & g1 & E1 & Hh1 & R1 & O1); [lia | nia | | exact Hh | |].
    { intros k Hk. split; [reflexivity|]. destruct T as [|T']; [lia|]. rewrite half_pow2.
      rewrite (Nat.pow_succ_r' 2 T'), (Nat.pow_succ_r' 2 t) in *. nia. }
    { intros k Hk. apply Hr. lia. }
    rewrite E1. cbn [mbind option_bind].
    assert (HG2 : (2 ^ (T - t) = G * 2)%nat) by (subst G; rewrite Nat.mul_comm, <- Nat.pow_succ_r'; f_equal; lia).
    destruct (IH a1 g1) as (a2 & g2 & E2 & Hh2 & R2 & O2); [lia | exact HT | exact Hc | exact Hh1 | |].
    { intros k Hk. apply R1. rewrite HG2 in Hk. lia. }
    rewrite HG2 in E2. exists a2, g2. split; [exact E2|]. split; [exact Hh2|]. split; [exact R2|].
    intros i Hi. rewrite O2, O1 by (rewrite ?HG in *; destruct Hi; [left | right]; nia). reflexivity.
Qed.

Lemma cache_friendly_ok a : holds N a A -> exists a',
  cache_friendly_ntt_natural_to_bitreversed a K omegas = Some a' /\ transformed a'.
Proof.
  intros Hh. unfold cache_friendly_ntt_natural_to_bitreversed. rewrite (holds_length a A Hh).
  destruct size_case as [[HK ->]|[HK ->]]; [exists a; auto using single_transformed|].
  destruct (first_round_ok a HK Hh) as (a1 & g1 & E1 & Hh1 & L1). rewrite E1. cbn [mbind option_bind].
  set (cfr := (K - CACHE_BUNCH_LOG)%nat). set (T := (K - Nat.max 1 cfr)%nat).
  destruct (outer_rounds_ok (cfr - 1) (K - 1) a1 g1) as (a2 & g2 & E2 & Hh2 & L2); [lia | lia | exact Hh1 | exact L1|].
  replace (K - (K - 1))%nat with 1%nat in E2 by lia. change (2 ^ 1)%nat with 2%nat in E2.
  replace (K - 1 - (cfr - 1))%nat with T in * by lia.
  replace (N / 2)%nat with (2 ^ (K - 1))%nat by (rewrite <- half_pow2; do 2 f_equal; lia).
  rewrite E2. cbn [mbind option_bind].
  destruct (for_range_ok (fun c => bunch_rounds T omegas c (2 ^ T / 2) (2 ^ T / 2) 1 (2 ^ T / 2))
    (fun m a => exists g, holds N a g /\ (forall k, (k < m * 2 ^ T)%nat -> reduced 0 g k) /\
       (forall k, (m <= k < 2 ^ (K - T))%nat -> reduced T g k)) (2 ^ (K - T)) 0 a2)
    as (a3 & E3 & g3 & H3' & R3 & _).
  - intros c b Hc (g & Hg & R0 & RT).
    destruct (bunch_rounds_ok T c T b g) as (b' & g' & Eb & Hg' & R' & O'); [lia | lia | lia | exact Hg | |].
    { rewrite Nat.sub_diag. change (2 ^ 0)%nat with 1%nat. intros k Hk. apply RT. lia. }
    rewrite Nat.sub_diag in Eb. change (2 ^ 0)%nat with 1%nat in Eb. exists b'. split; [exact Eb|].
    exists g'. split; [exact Hg'|]. split.
    + intros k Hk. destruct (Nat.lt_ge_cases k (c * 2 ^ T)) as [Hlt|Hge]; [|apply R'; lia].
      apply (reduced_ext K w A 0 g); [|apply R0; exact Hlt]. intros i Hi. change (2 ^ 0)%nat with 1%nat in *.
      symmetry. apply O'. lia.
    + intros k Hk. apply (reduced_ext K w A T g); [|apply RT; lia]. intros i Hi. symmetry. apply O'. right. nia.
  - exists g2. split; [exact Hh2|]. split; [intros k Hk; lia|]. intros k Hk. apply L2. lia.
  - exists a3. split; [exact E3|]. apply (level_0 a3 g3 H3'). intros k Hk. apply R3.
    rewrite Nat.sub_0_r in Hk. rewrite (pow2_split K T) in Hk by lia. lia.
Qed.

(** The transform from bit-reversed order: position [i] holds the sum of the
    [A l] times the [i]-th powers of their roots. *)
Definition gathered (i : nat) : value := vsum N (fun l => vmul (A l) (vpow (root K w l) i)).

Lemma gs_round_ok t a f : (t < K)%nat -> holds N a f -> merged_level t f -> exists a' g,
  round gs_butterfly omegas (2 ^ (K - S t)) (2 ^ t) (2 ^ t) a = Some a' /\ holds N a' g /\ merged_level (S t) g.
Proof.
  intros Ht Hh Hm. unfold round.
  assert (HKt : (2 ^ (K - t) = 2 * 2 ^ (K - S t))%nat) by (rewrite <- Nat.pow_succ_r'; f_equal; lia).
  destruct (for_range_ok (fun k => group gs_butterfly omegas k (k * 2 ^ t * 2) (2 ^ t) (2 ^ t))
    (fun m a => exists g, holds N a g /\ (forall k, (k < m)%nat -> merged (S t) g k) /\
       (forall k, (2 * m <= k < 2 ^ (K - t))%nat -> merged t g k)) (2 ^ (K - S t)) 0 a)
    as (a' & E' & g & Hg & R & _).
  - intros m a0 Hm0 (g & Hg & R0 & R1).
    destruct (gs_group_ok t m a0 g Hg Ht) as (a' & g' & E' & Hg' & M & Hl);
      [replace (K - t - 1)%nat with (K - S t)%nat by lia; lia | apply R1; lia | apply R1; lia|].
    exists a'. split; [replace (m * 2 ^ t * 2)%nat with (m * 2 ^ S t)%nat by (rewrite Nat.pow_succ_r'; lia); exact E'|].
    exists g'. split; [exact Hg'|]. split.
    + intros k Hk. destruct (Nat.eq_dec k m) as [->|Hne]; [exact M|].
      apply (merged_ext K w A (S t) g); [apply (other_block t m); auto | apply R0; lia].
    + intros k Hk. apply (merged_ext K w A t g); [apply (other_half t m); [exact Hl | lia | lia] | apply R1; lia].
  - exists f. split; [exact Hh|]. split; [intros k Hk; lia | intros k Hk; apply Hm; lia].
  - exists a', g. auto.
Qed.

Lemma gs_rounds_ok d : forall t fuel a f, (d + t = K - 1)%nat -> (0 < K)%nat -> (d <= fuel)%nat -> holds N a f ->
  merged_level t f -> exists a' g,
  gs_rounds fuel omegas (2 ^ t) (2 ^ d) (2 ^ t) a = Some (a', 2 ^ (K - 1), 2 ^ (K - 1))%nat /\ holds N a' g /\
  merged_level (K - 1) g.
Proof.
  induction d as [|d IH]; intros t fuel a f Ht HK Hf Hh Hm.
  - cbn [Nat.add] in Ht. subst t. exists a, f. destruct fuel; auto.
  - destruct fuel as [|fuel]; [lia|]. cbn [gs_rounds].
    replace (1 <? 2 ^ S d)%nat with true
      by (symmetry; apply Nat.ltb_lt; pose proof (Nat.pow_gt_lin_r 2 (S d) ltac:(lia)); lia).
    destruct (gs_round_ok t a f ltac:(lia) Hh Hm) as (a1 & g1 & E1 & Hh1 & M1).
    replace (K - S t)%nat with (S d) in E1 by lia. rewrite E1. cbn [mbind option_bind].
    rewrite half_pow2. replace (2 ^ t * 2)%nat with (2 ^ S t)%nat by (rewrite Nat.pow_succ_r'; lia).
    apply (IH (S t) fuel a1 g1); auto; lia.
Qed.

Lemma bitreversed_to_natural_ok a : holds N a A -> exists a',
  serial_ct_ntt_bitreversed_to_natural a omegas = Some a' /\ holds N a' gathered.
Proof.
  intros Hh. unfold serial_ct_ntt_bitreversed_to_natural. rewrite (holds_length a A Hh).
  assert (H1v : forall v : value, vmul v vone = v) by (intros v; rewrite (Rmul_comm fv_ring); apply (Rmul_1_l fv_ring)).
  destruct size_case as [[HK ->]|[HK ->]].
  { exists a. split; [reflexivity|]. revert Hh. apply holds_ext. intros i Hi. unfold gathered.
    assert (EN : N = 1%nat) by (rewrite HK; reflexivity). rewrite EN in Hi |- *. replace i with 0%nat by lia.
    cbn [vsum vpow]. rewrite (Radd_0_l fv_ring), H1v. reflexivity. }
  assert (EN2 : (N / 2 = 2 ^ (K - 1))%nat) by (rewrite <- (half_pow2 (K - 1)); do 2 f_equal; lia).
  assert (EN : (N = 2 * 2 ^ (K - 1))%nat) by (rewrite <- Nat.pow_succ_r'; f_equal; lia).
  pose proof (Nat.pow_gt_lin_r 2 K ltac:(lia)) as Hlin. pose proof (Nat.pow_nonzero 2 (K - 1) ltac:(lia)) as Hp.
  destruct (gs_rounds_ok (K - 1) 0 N a A) as (a1 & g1 & E1 & Hh1 & M1); [lia | exact HK | lia | exact Hh | |].
  { intros k Hk i Hi. change (2 ^ 0)%nat with 1%nat in *. replace i with 0%nat by lia.
    cbn [vsum vpow]. rewrite (Radd_0_l fv_ring), H1v, !Nat.add_0_r. reflexivity. }
  change (2 ^ 0)%nat with 1%nat in E1. rewrite EN2, E1. cbn [mbind option_bind].
  destruct (group_crossed N _ _ _ (2 ^ (K - 1)) 0 a1 g1 (plain_acts N) Hh1 ltac:(lia) ltac:(lia)) as (a2 & E2 & Hh2).
  exists a2. split; [exact E2|].
  pose proof (merge_blocks K w Hw A (K - 1) 0 g1 ltac:(lia) ltac:(apply Nat.neq_0_lt_0, Nat.pow_nonzero; lia)) as Hmerge.
  assert (HKp : (2 ^ (K - (K - 1)) = 2)%nat) by (replace (K - (K - 1))%nat with 1%nat by lia; reflexivity).
  specialize (Hmerge (M1 0%nat ltac:(rewrite HKp; lia)) (M1 1%nat ltac:(rewrite HKp; lia))). revert Hh2. apply holds_ext. intros i Hi.
  specialize (Hmerge i). replace (S (K - 1)) with K in Hmerge by lia. specialize (Hmerge Hi).
  etransitivity; [|exact Hmerge]. unfold crossed_to, gs_lo, gs_hi. rewrite twiddle_zero, !H1v. reflexivity.
Qed.
End Rounds.

(** ** Orders *)
Section Order.
Context {E : Type} `{LawfulField E}.
Add Ring order_ring : (fv_ring (F := E)).

Lemma odd_part d : (0 < d)%nat -> exists a m, d = (2 ^ a * (2 * m + 1))%nat.
Proof.
  induction d as [d IH] using lt_wf_ind. intros Hd. destruct (Nat.Even_or_Odd d) as [[q Hq]|[q Hq]].
  - destruct (IH q ltac:(lia) ltac:(lia)) as (a & m & E'). exists (S a), m. rewrite Nat.pow_succ_r'. lia.
  - exists 0%nat, q. change (2 ^ 0)%nat with 1%nat. lia.
Qed.

(** No smaller power is one. *)
Lemma order_exact (x : fv) K d : order_pow2 x K -> (0 < d < 2 ^ K)%nat -> vpow x d <> vone.
Proof.
  intros Ho Hd E'. destruct (odd_part d ltac:(lia)) as (a & m & ->).
  assert (Ha : (a < K)%nat).
  { apply (Nat.pow_lt_mono_r_iff 2); [lia|]. nia. }
  destruct K as [|K]; [lia|]. pose proof (order_pow2_half x K Ho) as Hh.
  assert (Hp : vpow x (2 ^ a * (2 * m + 1) * 2 ^ (K - a)) = vone) by (rewrite vpow_mul, E'; apply vpow_one).
  replace (2 ^ a * (2 * m + 1) * 2 ^ (K - a))%nat with (2 ^ S K * m + 2 ^ K)%nat in Hp.
  2:{ replace K with (a + (K - a))%nat at 1 2 by lia. rewrite Nat.pow_succ_r', !Nat.pow_add_r. lia. }
  rewrite vpow_add, vpow_mul, (proj1 Ho), vpow_one in Hp.
  apply (proj2 Ho K ltac:(lia)). rewrite <- Hp. ring.
Qed.

Lemma order_unity x K : order_pow2 x K -> unity_root K x.
Proof.
  intros Ho. split; [apply Ho|]. intros HK. apply order_pow2_half. replace (S (K - 1)) with K by lia. exact Ho.
Qed.

Lemma inverse_pow x y n : vmul x y = vone -> vmul (vpow x n) (vpow y n) = vone.
Proof.
  intros Hxy. induction n as [|n IH]; cbn [vpow]; [ring|].
  transitivity (vmul (vmul x y) (vmul (vpow x n) (vpow y n))); [ring | rewrite Hxy, IH; ring].
Qed.

Lemma order_inverse x y K : vmul x y = vone -> order_pow2 x K -> order_pow2 y K.
Proof.
  intros Hxy [Hx Hn]. split.
  - pose proof (inverse_pow x y (2 ^ K) Hxy) as Hp. rewrite Hx in Hp. rewrite <- Hp. ring.
  - intros j Hj E'. apply (Hn j Hj). pose proof (inverse_pow x y (2 ^ j) Hxy) as Hp. rewrite E' in Hp.
    rewrite <- Hp. ring.
Qed.

(** The columns of the transform are orthogonal. *)
Lemma orthogonal x y K i l : vmul x y = vone -> order_pow2 x K -> (i < 2 ^ K)%nat -> (l < 2 ^ K)%nat ->
  vsum (2 ^ K) (fun j => vmul (vpow (vpow x j) i) (vpow (vpow y j) l)) = if (i =? l)%nat then vnat (2 ^ K) else vzero.
Proof.
  intros Hxy Ho Hi Hl. set (z := vmul (vpow x i) (vpow y l)).
  assert (Hz : forall n, vpow z n = vmul (vpow (vpow x i) n) (vpow (vpow y l) n)).
  { intros n. subst z. induction n as [|n IH]; cbn [vpow]; [ring|]. rewrite IH. ring. }
  rewrite (vsum_ext _ _ (vpow z)).
  2:{ intros j _. rewrite Hz, <- !vpow_mul. do 2 f_equal; lia. }
  destruct (Nat.eqb_spec i l) as [->|Hne].
  - rewrite (vsum_ext _ _ (fun _ => vone)); [reflexivity|]. intros j _. unfold z. rewrite inverse_pow by exact Hxy.
    apply vpow_one.
  - pose proof (order_inverse x y K Hxy Ho) as Hoy. apply vsum_geometric.
    + rewrite Hz, <- !vpow_mul, !(Nat.mul_comm _ (2 ^ K)), !vpow_mul, (proj1 Ho), (proj1 Hoy), !vpow_one. ring.
    + intros E'. destruct (Nat.lt_ge_cases i l) as [Hlt|Hge].
      * apply (order_exact y K (l - i) Hoy); [lia|].
        transitivity (vmul (vmul (vpow x i) (vpow y i)) (vpow y (l - i))); [rewrite inverse_pow by exact Hxy; ring|].
        rewrite <- E'. unfold z. replace l with (i + (l - i))%nat at 2 by lia. rewrite vpow_add. ring.
      * apply (order_exact x K (i - l) Ho); [lia|].
        transitivity (vmul (vmul (vpow x l) (vpow y l)) (vpow x (i - l))); [rewrite inverse_pow by exact Hxy; ring|].
        rewrite <- E'. unfold z. replace i with (l + (i - l))%nat at 2 by lia. rewrite vpow_add. ring.
Qed.
End Order.
