(* ===== verification/Fft.v ===== *)
(** * Fast Fourier transforms

    The correctness of the FFTs and inverse FFTs of [fft/src/column_major/naive.rs]
    with the twiddle factors of [fft/src/row_major/precomputes.rs]: they evaluate
    and interpolate polynomials on the cosets of the domains of roots of unity. *)
From stdpp Require Import base list strings.
From Stdlib Require Import ZArith Zmod Lia.
From S2P Require Import Prelude MachineInt Worker BitReverse Field FieldExt FieldTraits Powers Ntt.

#[local] Opaque Nat.pow.

(** ** Polynomials *)
Section Polynomials.
Context {E : Type} `{LawfulField E}.
Add Ring poly_ring : (fv_ring (F := E)).

(** The polynomial whose coefficients are the elements of [l], at [x], by
    Horner's rule. *)
Definition poly_value (l : list E) (x : fv) : fv := foldr (fun c acc => vadd (fabs c) (vmul x acc)) vzero l.

Definition coefficient (l : list E) (i : nat) : fv := match l !! i with Some c => fabs c | None => vzero end.

Lemma vsum_shift n (f : nat -> fv (F := E)) : vsum (S n) f = vadd (f 0%nat) (vsum n (fun i => f (S i))).
Proof. replace (S n) with (1 + n)%nat by lia. rewrite vsum_app. cbn [vsum]. ring_simplify. reflexivity. Qed.

Lemma poly_value_sum l x : poly_value l x = vsum (length l) (fun i => vmul (coefficient l i) (vpow x i)).
Proof.
  induction l as [|c l IH]; [reflexivity|]. cbn [poly_value foldr length]. fold (poly_value l x).
  rewrite vsum_shift, IH, <- vsum_scale. change (coefficient (c :: l) 0) with (fabs c).
  change (vpow x 0) with (vone : fv (F := E)).
  rewrite (vsum_ext _ _ (fun i => vmul (coefficient (c :: l) (S i)) (vpow x (S i)))); [ring|].
  intros i _. cbn [vpow]. change (coefficient (c :: l) (S i)) with (coefficient l i). ring.
Qed.

Lemma holds_coefficient l : Forall fwf l -> holds (length l) l (coefficient l).
Proof.
  intros Hl. split; [reflexivity|]. intros i Hi. destruct (lookup_lt_is_Some_2 l i Hi) as [x Ex].
  exists x. split; [exact Ex|]. unfold coefficient. rewrite Ex. apply reps_self.
  exact (Forall_lookup_1 _ _ _ _ Hl Ex).
Qed.

Lemma vpow_prod (x y : fv) n : vpow (vmul x y) n = vmul (vpow x n) (vpow y n).
Proof. induction n as [|n IH]; cbn [vpow]; [ring|]. rewrite IH. ring. Qed.

(** Re-indexing by the bit-reversal does not change a sum. *)
Lemma holds_bit_reversed K a a' f : holds (2 ^ K) a f -> bit_reversed K a a' ->
  holds (2 ^ K) a' (fun i => f (rev_bits K i)).
Proof.
  intros [Hl Hf] [Hl' Hr]. split; [congruence|]. intros i Hi.
  destruct (Hf (rev_bits K i) (rev_bits_bound K i)) as (x & Ex & Rx). exists x. split; [|exact Rx].
  specialize (Hr (Z.of_nat i)). unfold at_index in Hr. rewrite Nat2Z.id in Hr. unfold rev_bits in Ex.
  rewrite <- Ex. apply Hr. rewrite <- pow2_Z. lia.
Qed.

Lemma holds_bitreverse K a f : (K <= 31)%nat -> holds (2 ^ K) a f -> exists a',
  bitreverse_enumeration_inplace a = Some a' /\ holds (2 ^ K) a' (fun i => f (rev_bits K i)).
Proof.
  intros HK Ha. destruct (bitreverse_ok K a) as (a' & E' & R); [unfold len; rewrite (proj1 Ha), pow2_Z; lia | exact HK|].
  exists a'. split; [exact E'|]. exact (holds_bit_reversed K a a' f Ha R).
Qed.

Lemma reps_unique (x : E) u v : reps x u -> reps x v -> u = v.
Proof. intros [_ <-] [_ <-]. reflexivity. Qed.
End Polynomials.

(** ** Scaling by powers *)
Section Distribute.
Context {F E : Type} `{LawfulExtension F E} `{!FieldEq F} `{!LawfulEq F}.
Add Ring distribute_ring : (fv_ring (F := E)).
Add Ring distribute_base_ring : (fv_ring (F := F)).

Lemma distribute_holds (step : F) w : reps step w -> forall (input : list E) n f shift v, holds n input f -> reps shift v ->
  holds n (distribute_powers_serial input shift step) (fun i => vmul (f i) (embed F E (vmul v (vpow w i)))).
Proof.
  intros Hs. induction input as [|x input IH]; intros n f shift v [Hl Hf] Hv.
  - split; [exact Hl|]. intros i Hi. cbn in Hl. lia.
  - destruct n as [|n]; [discriminate|]. injection Hl as Hl. cbn [distribute_powers_serial].
    destruct (Hf 0%nat ltac:(lia)) as (x0 & [= <-] & Wx & Vx).
    destruct (IH n (fun i => f (S i)) (mul_assign shift step) (vmul v w)) as [Hl' Hf'].
    + split; [exact Hl|]. intros i Hi. exact (Hf (S i) ltac:(lia)).
    + apply reps_mul; assumption.
    + split; [cbn [length]; congruence|]. intros [|i] Hi.
      * eexists. split; [reflexivity|]. destruct Hv as [Wv Vv]. destruct (mul_by_base_ok x shift Wx Wv) as [W V].
        split; [exact W|]. rewrite V, Vx, Vv. cbn [vpow]. do 2 f_equal. ring.
      * destruct (Hf' i ltac:(lia)) as (y & Ey & Ry). exists y. split; [exact Ey|].
        replace (vmul v (vpow w (S i))) with (vmul (vmul v w) (vpow w i)) by (cbn [vpow]; ring). exact Ry.
Qed.

Lemma distribute_unless_one_holds (initial step : F) v w (input : list E) n f :
  reps initial v -> reps step w -> holds n input f ->
  holds n (distribute_unless_one input initial step) (fun i => vmul (f i) (embed F E (vmul v (vpow w i)))).
Proof.
  intros Hi Hs Hf. unfold distribute_unless_one.
  destruct (feq initial ONE) eqn:E1; [|apply distribute_holds; assumption].
  destruct (feq step ONE) eqn:E2; [|apply distribute_holds; assumption]. cbn [negb orb].
  apply (feq_one _ _ Hi) in E1. apply (feq_one _ _ Hs) in E2. subst v w.
  revert Hf. apply holds_ext. intros i _. rewrite vpow_one.
  replace (vmul vone vone) with (vone : fv (F := F)) by ring. rewrite embed_one. ring.
Qed.
End Distribute.

(** ** Twiddle factors *)
Section TwiddleFactors.
Context {F : Type} `{LawfulTwoAdic F} `{!FieldEq F} `{!LawfulEq F}.
Add Ring twiddle_factors_ring : (fv_ring (F := F)).

Lemma order_nonzero (x : fv) K : order_pow2 x K -> x <> vzero.
Proof.
  intros [Hx _] ->. apply fv_nontrivial. rewrite <- Hx.
  destruct (2 ^ K)%nat eqn:E'; [exfalso; revert E'; apply Nat.pow_nonzero; lia|]. cbn [vpow]. ring.
Qed.

Lemma inverse_nonzero (x : F) v : reps x v -> v <> vzero -> exists y u, inverse x = Some y /\ reps y u /\ vmul v u = vone.
Proof.
  intros [Wx Vx] Hv. pose proof (inverse_ok' x Wx) as Hi. destruct (inverse x) as [y|]; [|congruence].
  destruct Hi as [Wy Vy]. exists y, (fabs y). rewrite <- Vx. repeat split; auto.
Qed.

Lemma twiddle_generator_ok inversed K : (K <= TWO_ADICITY F)%nat -> exists omega g : F,
  domain_generator_for_size (2 ^ Z.of_nat K) = Some omega /\ fwf omega /\ order_pow2 (fabs omega) K /\
  twiddle_generator inversed (2 ^ Z.of_nat K) = Some g /\ fwf g /\ order_pow2 (fabs g) K /\
  if inversed then vmul (fabs omega) (fabs g) = vone else g = omega.
Proof.
  intros HK. destruct (domain_generator_ok K HK) as (omega & E1 & W1 & O1).
  unfold twiddle_generator. rewrite E1. cbn [mbind option_bind]. destruct inversed.
  - destruct (inverse_nonzero omega _ (reps_self omega W1) (order_nonzero _ K O1)) as (g & u & Eg & [Wg Vg] & Hu).
    rewrite <- Vg in Hu. exists omega, g. repeat split; auto; try apply O1; apply (order_inverse _ _ K Hu O1).
  - exists omega, omega. repeat split; auto; apply O1.
Qed.

Lemma geometric_holds (out : list F) w n : Forall2 reps out (geometric vone w n) -> holds n out (vpow w).
Proof.
  intros Hf. split.
  - rewrite (Forall2_length _ _ _ Hf). unfold geometric. rewrite length_map, length_seq. reflexivity.
  - intros i Hi. destruct (Forall2_lookup_r _ _ _ i (vmul vone (vpow w i)) Hf) as (x & Ex & Rx).
    + unfold geometric. rewrite list_lookup_fmap, lookup_seq_lt by exact Hi. reflexivity.
    + exists x. split; [exact Ex|]. replace (vpow w i) with (vmul vone (vpow w i)) by ring. exact Rx.
Qed.

(** Twiddle factors: the powers of the generator, bit-reversed. *)
Definition bitreversed_powers (K : nat) (g : F) (tw : list F) : Prop :=
  (K = 0%nat /\ tw = []) \/
  ((0 < K)%nat /\ holds (2 ^ (K - 1)) tw (fun i => vpow (fabs g) (rev_bits (K - 1) i))).

Lemma half_size K : (0 < K)%nat -> (2 ^ Z.of_nat K / 2 = 2 ^ Z.of_nat (K - 1))%Z.
Proof.
  intros HK. replace (Z.of_nat K) with (Z.of_nat (K - 1) + 1)%Z by lia. rewrite Z.pow_add_r, Z.pow_1_r by lia.
  apply Z.div_mul. lia.
Qed.

Lemma parallel_twiddles_ok num_cores inversed K (g : F) : (K <= TWO_ADICITY F)%nat -> (0 < num_cores)%Z ->
  twiddle_generator inversed (2 ^ Z.of_nat K) = Some g -> fwf g -> exists tw,
  precompute_twiddles_for_fft num_cores inversed (2 ^ Z.of_nat K) = Some tw /\ bitreversed_powers K g tw.
Proof.
  intros HK Hc Eg Wg. pose proof (adicity_bounds (F := F)) as HT. unfold precompute_twiddles_for_fft. rewrite Eg.
  cbn [mbind option_bind]. destruct (Nat.eq_dec K 0) as [->|Hn]; [exists []; split; [reflexivity | left; auto]|].
  rewrite half_size by lia.
  destruct (materialize_parallel_one_ok num_cores g (fabs g) (K - 1) (reps_self g Wg) Hc ltac:(lia)) as (out & -> & Ho).
  cbn [mbind option_bind].
  destruct (holds_bitreverse (K - 1) out _ ltac:(lia) (geometric_holds _ _ _ Ho)) as (tw & Et & Ht).
  exists tw. split; [exact Et|]. right. split; [lia | exact Ht].
Qed.

Lemma serial_twiddles_ok inversed K (g : F) : (K <= TWO_ADICITY F)%nat ->
  twiddle_generator inversed (2 ^ Z.of_nat K) = Some g -> fwf g -> order_pow2 (fabs g) K -> exists tw,
  precompute_all_twiddles_for_fft_serial inversed (2 ^ Z.of_nat K) = Some tw /\ bitreversed_powers K g tw.
Proof.
  intros HK Eg Wg Og. pose proof (adicity_bounds (F := F)) as HT. unfold precompute_all_twiddles_for_fft_serial. rewrite Eg.
  cbn [mbind option_bind].
  assert (Hu : is_u32 (2 ^ Z.of_nat K)).
  { unfold is_u32. split; [apply Z.pow_nonneg; lia | apply Z.pow_lt_mono_r; lia]. }
  rewrite u32_small by exact Hu. rewrite (proj2 (feq_one _ _ (reps_pow g _ Wg Hu))).
  2:{ rewrite Z2Nat.inj_pow, Nat2Z.id by lia. apply Og. }
  destruct (Nat.eq_dec K 0) as [->|Hn]; [exists []; split; [reflexivity | left; auto]|].
  rewrite half_size by lia. rewrite Z2Nat.inj_pow, Nat2Z.id by lia. change (Z.to_nat 2) with 2%nat.
  pose proof (materialize_serial_ok g (fabs g) (2 ^ (K - 1)) true (reps_self g Wg)) as Ho.
  destruct (holds_bitreverse (K - 1) _ _ ltac:(lia) (geometric_holds _ _ _ Ho)) as (tw & Et & Ht).
  exists tw. split; [exact Et|]. right. split; [lia | exact Ht].
Qed.
End TwiddleFactors.

(** ** Evaluation and interpolation *)
Section Interpolation.
Context {E : Type} `{LawfulField E}.
Add Ring interpolation_ring : (fv_ring (F := E)).

Lemma interpolate (x y : fv) K (B : nat -> fv) l : vmul x y = vone -> order_pow2 x K -> (l < 2 ^ K)%nat ->
  vsum (2 ^ K) (fun i => vmul (vsum (2 ^ K) (fun k => vmul (B k) (vpow (vpow x i) k))) (vpow (vpow y l) i)) =
  vmul (vnat (2 ^ K)) (B l).
Proof.
  intros Hxy Ho Hl.
  rewrite (vsum_ext _ _ (fun i => vsum (2 ^ K) (fun k => vmul (B k) (vmul (vpow (vpow x i) k) (vpow (vpow y i) l))))).
  2:{ intros i _. rewrite <- !(vpow_mul y), (Nat.mul_comm l i).
      transitivity (vmul (vpow y (i * l)) (vsum (2 ^ K) (fun k => vmul (B k) (vpow (vpow x i) k)))); [ring|].
      rewrite <- vsum_scale. apply vsum_ext. intros k _. ring. }
  rewrite vsum_swap. rewrite (vsum_single _ l); [|exact Hl|].
  - rewrite vsum_scale, (orthogonal x y K) by assumption. rewrite Nat.eqb_refl. ring.
  - intros k Hk Hne. rewrite vsum_scale, (orthogonal x y K) by assumption.
    destruct (Nat.eqb_spec k l); [contradiction|]. ring.
Qed.
End Interpolation.

Section Embedded.
Context {F E : Type} `{LawfulExtension F E}.
Add Ring embedded_ring : (fv_ring (F := E)).
Add Ring embedded_base_ring : (fv_ring (F := F)).

Lemma embed_zero : embed F E vzero = vzero.
Proof.
  set (z := embed F E vzero). assert (Ez : vadd z z = z).
  { subst z. rewrite <- embed_add. f_equal. ring. }
  transitivity (vsub (vadd z z) z); [ring | rewrite Ez; ring].
Qed.

Lemma embed_opp x : embed F E (vopp x) = vopp (embed F E x).
Proof.
  assert (Ez : vadd (embed F E (vopp x)) (embed F E x) = vzero).
  { rewrite <- embed_add, <- embed_zero. f_equal. ring. }
  transitivity (vsub (vadd (embed F E (vopp x)) (embed F E x)) (embed F E x)); [ring | rewrite Ez; ring].
Qed.

Lemma embed_vnat n : embed F E (vnat n) = vnat n.
Proof.
  unfold vnat. induction n as [|n IH]; cbn [vsum]; [apply embed_zero|]. rewrite embed_add, embed_one, IH. reflexivity.
Qed.

Lemma embed_unity x K : order_pow2 x K -> unity_root K (embed F E x).
Proof.
  intros Ho. destruct (order_unity x K Ho) as [U1 U2]. split; [rewrite <- embed_pow, U1; apply embed_one|].
  intros HK. rewrite <- embed_pow, U2 by exact HK. rewrite embed_opp, embed_one. reflexivity.
Qed.

Lemma embed_order x K : vadd vone vone <> (vzero : fv (F := E)) -> order_pow2 x K -> order_pow2 (embed F E x) K.
Proof.
  intros Hn2 Ho. destruct (embed_unity x K Ho) as [U1 U2]. split; [exact U1|]. intros j Hj E'. apply Hn2.
  pose proof (vpow_climb _ j (K - 1) ltac:(lia) E') as E1. rewrite U2 in E1 by lia.
  rewrite <- E1 at 1. ring.
Qed.

Context `{!TwoAdicField F} `{!LawfulTwoAdic F} `{!FieldEq F} `{!LawfulEq F}.

Lemma embed_twiddles K (g : F) tw : bitreversed_powers K g tw -> twiddles_ok K (embed F E (fabs g)) tw.
Proof.
  intros [[-> ->]|[_ [_ Ht]]] k Hk Hlt; [lia|]. destruct (Ht k Hlt) as (s & Es & Ws & Vs).
  exists s. split; [exact Es|]. split; [exact Ws|]. rewrite Vs. apply embed_pow.
Qed.
End Embedded.

Section Transforms.
Context {F E : Type} `{LawfulExtension F E} `{!TwoAdicField F} `{!LawfulTwoAdic F} `{!FieldEq F} `{!LawfulEq F}.
Add Ring transforms_ring : (fv_ring (F := E)).
Implicit Types (input out : list E) (g : F) (tw : list F).

(** The values of the polynomial on a coset: at [step * g^(order j)], scaled. *)
Definition coset_values (order : nat -> nat) input (initial step : F) g (j : nat) : fv :=
  vmul (embed F E (fabs initial))
       (poly_value input (vmul (embed F E (fabs step)) (vpow (embed F E (fabs g)) (order j)))).

Lemma log_len_pow2 input K : (K < 64)%nat -> length input = (2 ^ K)%nat -> log_len input = K.
Proof. intros HK Hl. unfold log_len. rewrite Hl, pow2_Z, trailing_zeros_pow2, Nat2Z.id by exact HK. reflexivity. Qed.

Lemma fft_bitreversed_ok K g tw input (initial step : F) : (K <= 31)%nat -> order_pow2 (fabs g) K -> fwf g ->
  bitreversed_powers K g tw -> length input = (2 ^ K)%nat -> Forall fwf input -> fwf initial -> fwf step ->
  exists out, fft_natural_to_bitreversed input initial step tw = Some out /\
    holds (2 ^ K) out (coset_values (rev_bits K) input initial step g).
Proof.
  intros HK Ho Wg Ht Hl Hf Wi Ws. pose proof (holds_coefficient input Hf) as Hin. rewrite Hl in Hin.
  pose proof (distribute_unless_one_holds initial step _ _ input _ _ (reps_self _ Wi) (reps_self _ Ws) Hin) as Hd.
  unfold fft_natural_to_bitreversed. rewrite (log_len_pow2 _ K) by (try exact (proj1 Hd); lia).
  destruct (cache_friendly_ok K _ (embed_unity _ _ Ho) _ tw (embed_twiddles K g tw Ht) _ Hd) as (out & Eo & Hh).
  exists out. split; [exact Eo|]. revert Hh. apply holds_ext. intros j Hj. unfold evaluation, coset_values, root.
  rewrite poly_value_sum, Hl, <- vsum_scale. apply vsum_ext. intros i _.
  rewrite embed_mul, embed_pow, vpow_prod. ring.
Qed.

Lemma fft_natural_ok K g tw input (initial step : F) : (K <= 31)%nat -> order_pow2 (fabs g) K -> fwf g ->
  bitreversed_powers K g tw -> length input = (2 ^ K)%nat -> Forall fwf input -> fwf initial -> fwf step ->
  exists out, fft_natural_to_natural input initial step tw = Some out /\
    holds (2 ^ K) out (coset_values (fun j => j) input initial step g).
Proof.
  intros HK Ho Wg Ht Hl Hf Wi Ws.
  destruct (fft_bitreversed_ok K g tw input initial step HK Ho Wg Ht Hl Hf Wi Ws) as (out & Eo & Hh).
  destruct (holds_bitreverse K out _ HK Hh) as (out' & Eo' & Hh'). exists out'. split.
  - unfold fft_natural_to_natural. change (cache_friendly_ntt_natural_to_bitreversed _ _ tw) with
      (fft_natural_to_bitreversed input initial step tw). rewrite Eo. exact Eo'.
  - revert Hh'. apply holds_ext. intros j Hj. unfold coset_values. rewrite rev_bits_involutive by exact Hj. reflexivity.
Qed.

(** C29: For every size [2^K] up to the field's two-adicity, the domain generator
    exists and has order exactly [2^K]; the forward twiddle factors are computed,
    by threads and serially, without a panic; and with either of them both FFTs
    return, for coefficients [input] and a coset given by [coset_initial] and
    [coset_step], an array that holds [coset_initial] times the values of the
    polynomial (Horner's rule) at [coset_step * omega^j], for [j] in natural
    respectively bit-reversed order. *)
Theorem fft_evaluates_on_coset K num_cores input (coset_initial coset_step : F) :
  (K <= TWO_ADICITY F)%nat -> (0 < num_cores)%Z -> length input = (2 ^ K)%nat -> Forall fwf input ->
  fwf coset_initial -> fwf coset_step ->
  exists (omega : F) tw_parallel tw_serial,
    domain_generator_for_size (2 ^ Z.of_nat K) = Some omega /\ order_pow2 (fabs omega) K /\
    precompute_twiddles_for_fft num_cores false (2 ^ Z.of_nat K) = Some tw_parallel /\
    precompute_all_twiddles_for_fft_serial false (2 ^ Z.of_nat K) = Some tw_serial /\
    forall tw, tw = tw_parallel \/ tw = tw_serial -> exists reversed natural,
      fft_natural_to_bitreversed input coset_initial coset_step tw = Some reversed /\
      holds (2 ^ K) reversed (coset_values (rev_bits K) input coset_initial coset_step omega) /\
      fft_natural_to_natural input coset_initial coset_step tw = Some natural /\
      holds (2 ^ K) natural (coset_values (fun j => j) input coset_initial coset_step omega).
Proof.
  intros HK Hc Hl Hf Wi Ws. pose proof (adicity_bounds (F := F)) as HT.
  destruct (twiddle_generator_ok false K HK) as (omega & g & Ed & Wo & Oo & Eg & Wg & Og & ->).
  destruct (parallel_twiddles_ok num_cores false K omega HK Hc Eg Wo) as (tp & Ep & Bp).
  destruct (serial_twiddles_ok false K omega HK Eg Wo Oo) as (ts & Es & Bs).
  exists omega, tp, ts. split; [exact Ed|]. split; [exact Oo|]. split; [exact Ep|]. split; [exact Es|].
  intros tw Htw. assert (Bt : bitreversed_powers K omega tw) by (destruct Htw as [->| ->]; assumption).
  destruct (fft_bitreversed_ok K omega tw input coset_initial coset_step) as (o1 & E1 & G1); auto; [lia|].
  destruct (fft_natural_ok K omega tw input coset_initial coset_step) as (o2 & E2 & G2); auto; [lia|].
  exists o1, o2. auto.
Qed.
End Transforms.

(** ** Interpolation from a coset *)
Lemma fval_vnat n : fval (Z.of_nat n) = vnat (E := Mersenne31Field) n.
Proof.
  unfold vnat. induction n as [|n IH]; [reflexivity|]. cbn [vsum]. rewrite <- IH, Nat2Z.inj_succ.
  unfold fval, Z.succ. rewrite Zmod.of_Z_add. reflexivity.
Qed.

Lemma from_u64_vnat n :
  reps (from_u64_with_reduction (Z.of_nat n) : Mersenne31Field) (vnat (E := Mersenne31Field) n).
Proof.
  assert (Hm : (0 <= Z.of_nat n mod ORDER < ORDER)%Z) by (apply Z.mod_pos_bound; unfold ORDER; lia).
  unfold from_u64_with_reduction. rewrite u32_small by (unfold is_u32, ORDER in *; lia). split.
  - cbn. unfold repr. lia.
  - rewrite <- fval_vnat. apply Zmod.of_Z_inj. apply Z.mod_mod. unfold ORDER. lia.
Qed.

Lemma power_of_two_nonzero K : (K <= 31)%nat -> vnat (E := Mersenne31Field) (2 ^ K) <> vzero.
Proof.
  intros HK E'. rewrite <- fval_vnat, pow2_Z in E'. apply Zmod.of_Z_inj in E'. rewrite Z.mod_0_l in E' by (unfold ORDER; lia).
  revert E'. do 32 (destruct K as [|K]; [vm_compute; discriminate|]). lia.
Qed.

Section Inverse.
Context {F E : Type} `{LawfulExtension F E} `{!TwoAdicField F} `{!LawfulTwoAdic F} `{!FieldEq F} `{!LawfulEq F}.
Context `{!FieldExtension Mersenne31Field E} `{!LawfulExtension Mersenne31Field E}.
Add Ring inverse_ring : (fv_ring (F := E)).
Add Ring inverse_base_ring : (fv_ring (F := F)).
Implicit Types (input out : list E) (g : F) (tw : list F).

Lemma size_inverse K : (K <= 31)%nat -> exists n_inv u,
  inverse (from_u64_with_reduction (Z.of_nat (2 ^ K)) : Mersenne31Field) = Some n_inv /\ reps n_inv u /\
  vmul (vnat (2 ^ K)) (embed Mersenne31Field E u) = vone.
Proof.
  intros HK. destruct (inverse_nonzero _ _ (from_u64_vnat (2 ^ K)) (power_of_two_nonzero K HK)) as (y & u & Ey & Ry & Hu).
  exists y, u. split; [exact Ey|]. split; [exact Ry|].
  rewrite <- (embed_vnat (F := Mersenne31Field)), <- embed_mul, Hu. apply embed_one.
Qed.

Lemma two_nonzero : vadd vone vone <> (vzero : fv (F := E)).
Proof.
  destruct (size_inverse 1 ltac:(lia)) as (y & u & _ & _ & Hu). intros E'.
  apply (fv_nontrivial (F := E)). rewrite <- Hu. change (2 ^ 1)%nat with 2%nat. unfold vnat. cbn [vsum].
  transitivity (vmul (vadd vone vone) (embed Mersenne31Field E u)); [ring | rewrite E'; ring].
Qed.

Lemma undo_coset (step : F) out n f : fwf step -> fabs step <> vzero ->
  holds n out (fun i => vmul (f i) (vpow (embed F E (fabs step)) i)) ->
  exists out', (if negb (feq step ONE) then coset ← inverse step; Some (distribute_powers_serial out ONE coset)
                else Some out) = Some out' /\ holds n out' f.
Proof.
  intros Ws Hs Ho. destruct (feq step ONE) eqn:Eq; cbn [negb].
  - apply (feq_one _ _ (reps_self step Ws)) in Eq. exists out. split; [reflexivity|]. revert Ho. apply holds_ext.
    intros i _. rewrite Eq, embed_one, vpow_one. ring.
  - destruct (inverse_nonzero step _ (reps_self step Ws) Hs) as (c & u & -> & Rc & Hu). cbn [mbind option_bind].
    eexists. split; [reflexivity|].
    pose proof (distribute_holds c u Rc out n _ ONE vone Ho (reps_one (F := F))) as Hd. revert Hd. apply holds_ext.
    intros i _. rewrite embed_mul, embed_one, embed_pow.
    assert (Hp : vmul (vpow (embed F E (fabs step)) i) (vpow (embed F E u) i) = vone).
    { apply inverse_pow. rewrite <- embed_mul, Hu. apply embed_one. }
    transitivity (vmul (f i) (vmul (vpow (embed F E (fabs step)) i) (vpow (embed F E u) i))); [ring | rewrite Hp; ring].
Qed.

Lemma ifft_ok K (omega g : F) tw (step : F) out (B : nat -> fv) : (K <= 31)%nat -> order_pow2 (fabs omega) K ->
  vmul (fabs omega) (fabs g) = vone -> bitreversed_powers K g tw -> fwf step -> fabs step <> vzero ->
  holds (2 ^ K) out (fun j => vsum (2 ^ K) (fun i =>
    vmul (B i) (vpow (vmul (embed F E (fabs step)) (vpow (embed F E (fabs omega)) j)) i))) ->
  exists out', ifft_natural_to_natural out step tw = Some out' /\ holds (2 ^ K) out' B.
Proof.
  intros HK Ho Hg Ht Ws Hs Hout. set (c := embed F E (fabs step)) in *. set (x := embed F E (fabs omega)) in *.
  set (y := embed F E (fabs g)). assert (Hxy : vmul x y = vone).
  { subst x y. rewrite <- embed_mul, Hg. apply embed_one. }
  pose proof (embed_order _ K two_nonzero Ho) as Ox. fold x in Ox.
  unfold ifft_natural_to_natural, partial_ifft_natural_to_natural.
  destruct (serial_ct_ok K y (order_unity y K (order_inverse x y K Hxy Ox)) _ tw (embed_twiddles K g tw Ht) _ Hout)
    as (a1 & -> & Ha1). cbn [mbind option_bind].
  destruct (holds_bitreverse K a1 _ HK Ha1) as (a2 & -> & Ha2). cbn [mbind option_bind].
  assert (Ha2' : holds (2 ^ K) a2 (fun l => vmul (vmul (vnat (2 ^ K)) (B l)) (vpow c l))).
  { revert Ha2. apply holds_ext. intros l Hl. unfold evaluation, root. rewrite rev_bits_involutive by exact Hl.
    transitivity (vmul (vnat (2 ^ K)) (vmul (B l) (vpow c l))); [|ring].
    rewrite <- (interpolate x y K (fun k => vmul (B k) (vpow c k)) l Hxy Ox Hl). apply vsum_ext. intros i _.
    f_equal. apply vsum_ext. intros k _. rewrite vpow_prod. ring. }
  destruct (undo_coset step a2 _ _ Ws Hs Ha2') as (a3 & -> & Ha3). cbn [mbind option_bind].
  rewrite (proj1 Ha3). destruct (size_inverse K HK) as (n_inv & u & En & [Wn Vn] & Hu).
  destruct (Nat.ltb_spec 1 (2 ^ K)) as [Hlt|Hge].
  - rewrite En. cbn [mbind option_bind]. eexists. split; [reflexivity|]. destruct Ha3 as [Hl3 Hf3].
    split; [rewrite length_map; exact Hl3|]. intros i Hi. destruct (Hf3 i Hi) as (z & Ez & Wz & Vz).
    exists (mul_assign_by_base z n_inv). split; [rewrite list_lookup_fmap, Ez; reflexivity|].
    destruct (mul_by_base_ok z n_inv Wz Wn) as [Wm Vm]. split; [exact Wm|]. rewrite Vm, Vz, Vn.
    transitivity (vmul (vmul (vnat (2 ^ K)) (embed Mersenne31Field E u)) (B i)); [ring | rewrite Hu; ring].
  - exists a3. split; [reflexivity|]. revert Ha3. apply holds_ext. intros i Hi.
    replace (2 ^ K)%nat with 1%nat by lia. unfold vnat. cbn [vsum]. ring.
Qed.

(** Two vectors hold the same field elements, the second in well-formed
    representations. *)
Definition same_elements (xs ys : list E) : Prop := Forall2 (fun x y => fwf y /\ fabs y = fabs x) xs ys.

(** C30: The inverse FFT interpolates: from the values of a polynomial on a coset
    of the domain of size [2^K], as [fft_natural_to_natural] computes them, and
    the inverse twiddle factors (computed by threads or serially),
    [ifft_natural_to_natural] returns, without a panic, the coefficients the FFT
    started from. *)
Theorem ifft_inverts_fft K num_cores input (coset : F) :
  (K <= TWO_ADICITY F)%nat -> (0 < num_cores)%Z -> length input = (2 ^ K)%nat -> Forall fwf input ->
  fwf coset -> fabs coset <> vzero ->
  exists tw inv_parallel inv_serial,
    precompute_twiddles_for_fft num_cores false (2 ^ Z.of_nat K) = Some tw /\
    precompute_twiddles_for_fft num_cores true (2 ^ Z.of_nat K) = Some inv_parallel /\
    precompute_all_twiddles_for_fft_serial true (2 ^ Z.of_nat K) = Some inv_serial /\
    forall inv, inv = inv_parallel \/ inv = inv_serial -> exists values out,
      fft_natural_to_natural input ONE coset tw = Some values /\
      ifft_natural_to_natural values coset inv = Some out /\
      same_elements input out.
Proof.
  intros HK Hc Hl Hf Wc Hc0. pose proof (adicity_bounds (F := F)) as HT.
  destruct (twiddle_generator_ok false K HK) as (omega & g & Ed & Wo & Oo & Eg & _ & _ & ->).
  destruct (twiddle_generator_ok true K HK) as (omega' & g & Ed' & _ & _ & Eg' & Wg & Og & Hg).
  rewrite Ed in Ed'. injection Ed' as <-.
  destruct (parallel_twiddles_ok num_cores false K omega HK Hc Eg Wo) as (tw & Et & Bt).
  destruct (parallel_twiddles_ok num_cores true K g HK Hc Eg' Wg) as (tp & Ep & Bp).
  destruct (serial_twiddles_ok true K g HK Eg' Wg Og) as (ts & Es & Bs).
  exists tw, tp, ts. split; [exact Et|]. split; [exact Ep|]. split; [exact Es|].
  intros inv Hinv. assert (Bi : bitreversed_powers K g inv) by (destruct Hinv as [->| ->]; assumption).
  destruct (ONE_ok (F := F)) as [W1 V1].
  destruct (fft_natural_ok K omega tw input ONE coset) as (values & Ev & Hv); auto; [lia|].
  destruct (ifft_ok K omega g inv coset values (coefficient input)) as (out & Eo & Hout);
    [lia | exact Oo | exact Hg | exact Bi | exact Wc | exact Hc0 | |].
  - revert Hv. apply holds_ext. intros j _. unfold coset_values. rewrite V1, embed_one, poly_value_sum, Hl. ring.
  - exists values, out. split; [exact Ev|]. split; [exact Eo|]. apply Forall2_same_length_lookup. destruct Hout as [Ho1 Ho2].
    split; [congruence|]. intros i x y Ex Ey. destruct (Ho2 i) as (z & Ez & Wz & Vz).
    { rewrite <- Hl. apply lookup_lt_Some in Ex. exact Ex. }
    rewrite Ey in Ez. injection Ez as <-. split; [exact Wz|]. rewrite Vz. unfold coefficient. rewrite Ex. reflexivity.
Qed.
End Inverse.

(** Four coefficients in the quartic extension, twiddle factors in the complex one. *)
Definition sample_coefficient (a b c d : Z) : Quartic.Mersenne31Quartic :=
  {| Quartic.c0 := {| Complex.c0 := a; Complex.c1 := b |}; Quartic.c1 := {| Complex.c0 := c; Complex.c1 := d |} |}.
Definition sample_input : list Quartic.Mersenne31Quartic :=
  [sample_coefficient 1 2 3 4; sample_coefficient 5 0 0 6; sample_coefficient 7 8 9 10; sample_coefficient 0 0 0 11].
Definition sample_coset : Complex.Mersenne31Complex := {| Complex.c0 := 2; Complex.c1 := 1 |}.

Lemma sample_size : (2 <= TWO_ADICITY Complex.Mersenne31Complex)%nat.
Proof. vm_compute. lia. Qed.

Lemma sample_input_wf : Forall fwf sample_input.
Proof. repeat constructor; cbn; unfold repr, ORDER; lia. Qed.

Lemma sample_coset_ok : fwf sample_coset /\ fabs sample_coset <> vzero.
Proof.
  assert (W : fwf sample_coset) by (split; cbn; unfold repr, ORDER; lia). split; [exact W|].
  intros E'. apply (is_zero_ok sample_coset W) in E'. vm_compute in E'. discriminate.
Qed.

Lemma fft_evaluates_on_coset_witness : exists tw values,
  precompute_twiddles_for_fft 3 false 4 = Some tw /\
  fft_natural_to_natural sample_input sample_coset sample_coset tw = Some values /\ length values = 4%nat.
Proof.
  destruct (fft_evaluates_on_coset (F := Complex.Mersenne31Complex) 2 3 sample_input sample_coset sample_coset sample_size eq_refl eq_refl
              sample_input_wf (proj1 sample_coset_ok) (proj1 sample_coset_ok))
    as (omega & tw & ts & _ & _ & Et & _ & Hfft).
  destruct (Hfft tw (or_introl eq_refl)) as (r & v & _ & _ & Ev & Hv & _). exists tw, v. auto.
Defined.

Lemma ifft_inverts_fft_witness : exists tw inv values out,
  precompute_twiddles_for_fft 3 false 4 = Some tw /\ precompute_all_twiddles_for_fft_serial true 4 = Some inv /\
  fft_natural_to_natural sample_input ONE sample_coset tw = Some values /\
  ifft_natural_to_natural values sample_coset inv = Some out /\
  same_elements sample_input out.
Proof.
  destruct (ifft_inverts_fft (F := Complex.Mersenne31Complex) 2 3 sample_input sample_coset sample_size eq_refl eq_refl
              sample_input_wf (proj1 sample_coset_ok) (proj2 sample_coset_ok)) as (tw & ip & inv & Et & _ & Ei & Hinv).
  destruct (Hinv inv (or_intror eq_refl)) as (values & out & Ev & Eo & Hout). exists tw, inv, values, out. auto.
Defined.
