(* ===== verification/Fri.v ===== *)
(** * FRI folding

    [verifier_common/src/fri_folding.rs] with the table of shared factors of
    [verifier/src/concrete/size_constants.rs]: one FRI step of a query.  The
    verifier checks that the value it expects is in the leaf of the next oracle
    and folds the leaf into the value it expects of the oracle after that.
    [None] is a panic or a read outside of the given slices. *)
From stdpp Require Import base list strings.
From Stdlib Require Import ZArith Lia.
From S2P Require Import Prelude MachineInt Worker BitReverse Field FieldExt FieldTraits Powers Ntt Fft.

#[local] Opaque Nat.pow.
Import Quartic (Mersenne31Quartic, fma_implementation, from_array_of_base).
Import Complex (Mersenne31Complex, TWO_ADICITY_GENERATORS_INVERSED).

(** ** Definitions *)

(** The operations of [Mersenne31Quartic] that go through the fused
    multiply-add when the target has one ([modular_ext4_ops]). *)
Section Fma.
Context (modular_ext4_ops : bool).

Definition MINUS_ONE : Mersenne31Quartic := negate ONE.

Fixpoint pow_with_fma_loop (fuel : nat) (base result : Mersenne31Quartic) (exp : Z) : Mersenne31Quartic :=
  match fuel with
  | O => result
  | S fuel' =>
      if (0 <? exp)%Z then
        let result := if (exp mod 2 =? 1)%Z then fma_implementation result base ZERO else result in
        pow_with_fma_loop fuel' (fma_implementation base base ZERO) result (Z.shiftr exp 1)
      else result
  end.

Definition pow_with_fma (self : Mersenne31Quartic) (exp : Z) : Mersenne31Quartic :=
  if modular_ext4_ops then pow_with_fma_loop 32 self ONE exp else pow self exp.

Definition add_assign_with_fma (self other : Mersenne31Quartic) : Mersenne31Quartic :=
  if modular_ext4_ops then fma_implementation self ONE other else add_assign self other.

Definition negate_self_and_add_other_with_fma (self other : Mersenne31Quartic) : Mersenne31Quartic :=
  if modular_ext4_ops then fma_implementation self MINUS_ONE other else add_assign (negate self) other.

Definition mul_assign_with_fma (self other : Mersenne31Quartic) : Mersenne31Quartic :=
  if modular_ext4_ops then fma_implementation self other ZERO else mul_assign self other.

Definition square_with_fma (self : Mersenne31Quartic) : Mersenne31Quartic :=
  if modular_ext4_ops then fma_implementation self self ZERO else square self.
End Fma.

(** What a query carries from one FRI step to the next. *)
Record FriState : Type := {
  expected_value : Mersenne31Quartic;
  evaluation_point : Mersenne31Complex;
  domain_size_log_2 : nat;
  domain_index : Z;
  tree_index : Z;
  offset_inv : Mersenne31Complex;
}.

(** Element [i] of the leaf: four base field elements. *)
Definition leaf_element (leaf : list Mersenne31Field) (i : nat) : option Mersenne31Quartic :=
  from_array_of_base (take 4 (drop (4 * i) leaf)).

(** Remap the evaluation points: in every round but the first, square the roots
    that the round uses. *)
Definition remap_roots {F} (sq : F -> F) (n round : nat) (roots : list F) : option (list F) :=
  if (round =? 0)%nat then Some roots
  else for_range (fun i roots => t ← roots !! (i * 2 ^ round)%nat; Some (<[(i * 2 ^ round)%nat := sq t]> roots))
         0 (2 ^ (n - round - 1)) roots.

Definition fold_pairs {F} (fold : F -> Mersenne31Quartic -> Mersenne31Quartic -> Mersenne31Quartic)
    (n round : nat) (roots : list F) (input : nat -> option Mersenne31Quartic) : option (list Mersenne31Quartic) :=
  mapM (fun i => root ← roots !! (i * 2 ^ round)%nat; a ← input (2 * i)%nat; b ← input (2 * i + 1)%nat;
                 Some (fold root a b)) (seq 0 (2 ^ (n - round - 1))).

(** [for round in 0..FOLDING_DEGREE_LOG2]: the input of a round is the leaf or
    the buffer the previous round wrote.  [fold] also reads the challenge of the
    round. *)
Fixpoint fold_rounds {F} (sq : F -> F)
    (fold : nat -> option (F -> Mersenne31Quartic -> Mersenne31Quartic -> Mersenne31Quartic))
    (n count round : nat) (roots : list F) (input : nat -> option Mersenne31Quartic) : option Mersenne31Quartic :=
  match count with
  | O => input 0%nat
  | S count' =>
      roots ← remap_roots sq n round roots;
      f ← fold round;
      output ← fold_pairs f n round roots input;
      fold_rounds sq fold n count' (S round) roots (fun i => output !! i)
  end.

(** The checks and the common part of both versions: [k] gets the shared bits
    and the inverse of the generator and returns the folded value.  A domain
    smaller than the folding degree makes the subtraction of their logarithms
    overflow, which is a panic here. *)
Definition fri_fold_frame (n : nat) (st : FriState) (leaf : list Mersenne31Field)
    (k : Z -> Mersenne31Complex -> option Mersenne31Quartic) : option FriState :=
  if (0 <? n)%nat && (n <=? 5)%nat && (n <=? domain_size_log_2 st)%nat then
    let in_leaf_mask := (2 ^ Z.of_nat n - 1)%Z in
    let eval_points_bits_mask := (2 ^ Z.of_nat (domain_size_log_2 st - n) - 1)%Z in
    generator_inv ← mjoin (TWO_ADICITY_GENERATORS_INVERSED !! domain_size_log_2 st);
    value_at_expected_index ← leaf_element leaf (Z.to_nat (Z.land (tree_index st) in_leaf_mask));
    if feq (expected_value st) value_at_expected_index then
      let shared_bits_in_folding := Z.land (domain_index st) eval_points_bits_mask in
      value ← k shared_bits_in_folding generator_inv;
      Some {| expected_value := value;
              evaluation_point := exp_power_of_2 (evaluation_point st) n;
              domain_size_log_2 := domain_size_log_2 st - n;
              domain_index := shared_bits_in_folding;
              tree_index := Z.shiftr (tree_index st) (Z.of_nat n);
              offset_inv := exp_power_of_2 (offset_inv st) n |}
    else None
  else None.

(** The two ways of folding a pair in [fri_fold_by_log_n]: with and without
    [PREFER_FMA && USE_SPEC_MUL_BY_BASE_VIA_MUL_BY_SELF]. *)
Definition fold_pair (modular_ext4_ops : bool) (challenge : Mersenne31Quartic) (root : Mersenne31Complex)
    (a b : Mersenne31Quartic) : Mersenne31Quartic :=
  if modular_ext4_ops then
    let folded := sub_assign a b in
    let root : Mersenne31Quartic := from_base root in
    let t := fma_implementation ZERO folded root in
    add_assign (fma_implementation a t challenge) b
  else
    let folded := sub_assign a b in
    let folded := mul_assign_by_base folded root in
    let folded := mul_assign folded challenge in
    add_assign (add_assign folded a) b.

Definition fri_fold_by_log_n (modular_ext4_ops : bool) (FOLDING_DEGREE_LOG2 : nat) (st : FriState)
    (leaf : list Mersenne31Field) (fri_folding_challenges_powers : list Mersenne31Quartic)
    (shared_factors_for_folding : list Mersenne31Complex) : option FriState :=
  fri_fold_frame FOLDING_DEGREE_LOG2 st leaf (fun shared_bits_in_folding generator_inv =>
    let evaluation_point_shared_factor := mul_assign (pow generator_inv (u32 shared_bits_in_folding)) (offset_inv st) in
    roots ← mapM (fun i => t ← shared_factors_for_folding !! i; Some (mul_assign t evaluation_point_shared_factor))
              (seq 0 (2 ^ (FOLDING_DEGREE_LOG2 - 1)));
    fold_rounds square
      (fun round => challenge ← fri_folding_challenges_powers !! round; Some (fold_pair modular_ext4_ops challenge))
      FOLDING_DEGREE_LOG2 FOLDING_DEGREE_LOG2 0 roots (leaf_element leaf)).

(** The powers of a challenge that [fri_fold_by_log_n] is given. *)
Definition folding_challenge_powers (el : Mersenne31Quartic) : list Mersenne31Quartic :=
  let squared := square el in
  let quad := square squared in
  let eigths := square quad in
  let sixteens := square eigths in
  [el; squared; quad; eigths; sixteens].

(** In the second version the roots carry the challenge. *)
Definition fold_pair_with_fma (modular_ext4_ops : bool) (root a b : Mersenne31Quartic) : Mersenne31Quartic :=
  let folded := negate_self_and_add_other_with_fma modular_ext4_ops b a in
  let t := add_assign_with_fma modular_ext4_ops b a in
  fma_implementation folded root t.

Definition fri_fold_by_log_n_with_fma (modular_ext4_ops : bool) (FOLDING_DEGREE_LOG2 : nat) (st : FriState)
    (leaf : list Mersenne31Field) (fri_folding_challenge : Mersenne31Quartic)
    (shared_factors_for_folding : list Mersenne31Complex) : option FriState :=
  if modular_ext4_ops then
    fri_fold_frame FOLDING_DEGREE_LOG2 st leaf (fun shared_bits_in_folding generator_inv =>
      let evaluation_point_shared_factor :=
        mul_assign_by_base (pow_with_fma modular_ext4_ops (from_base generator_inv) (u32 shared_bits_in_folding))
                           (offset_inv st) in
      roots ← mapM (fun i => shared_factor ← shared_factors_for_folding !! i;
                             let t := mul_assign_with_fma modular_ext4_ops evaluation_point_shared_factor (from_base shared_factor) in
                             Some (mul_assign_with_fma modular_ext4_ops t fri_folding_challenge))
                (seq 0 (2 ^ (FOLDING_DEGREE_LOG2 - 1)));
      fold_rounds (square_with_fma modular_ext4_ops) (fun _ => Some (fold_pair_with_fma modular_ext4_ops))
        FOLDING_DEGREE_LOG2 FOLDING_DEGREE_LOG2 0 roots (leaf_element leaf))
  else None.

(** [SHARED_FACTORS_FOR_FOLDING]: the powers of the inverse of the 32nd root of
    unity in bit-reversed order. *)
Definition MAX_FRI_FOLDING_ROOTS : nat := 16.

Definition shared_factors_loop : nat -> Mersenne31Complex * list Mersenne31Complex ->
    option (Mersenne31Complex * list Mersenne31Complex) :=
  fun i '(current, result) =>
    max_generator ← mjoin (TWO_ADICITY_GENERATORS_INVERSED !! 5%nat);
    let index := Z.to_nat (Z.shiftr (reverse_bits64 (Z.of_nat i)) (64 - 4)) in
    if (index <? length result)%nat
    then Some (mul_assign current max_generator, <[index := current]> result) else None.

Definition SHARED_FACTORS_FOR_FOLDING : option (list Mersenne31Complex) :=
  '(_, result) ← for_range shared_factors_loop 0 MAX_FRI_FOLDING_ROOTS (ONE, replicate MAX_FRI_FOLDING_ROOTS ZERO);
  Some result.

(** ** The FRI part of a query *)

(** [evaluate_monomial_form]: Horner's rule from the highest coefficient. *)
Definition evaluate_monomial_form (modular_ext4_ops : bool) (monomial_coeffs : list Mersenne31Quartic)
    (evaluation_point : Mersenne31Complex) : option Mersenne31Quartic :=
  if modular_ext4_ops then
    match rev monomial_coeffs with
    | [] => None
    | last :: rest => Some (fold_left (fun value monomial_coeff =>
                              fma_implementation value (from_base evaluation_point) monomial_coeff) rest last)
    end
  else
    match monomial_coeffs with
    | [] => None
    | first :: rest => Some (add_assign (fold_left (fun value monomial_coeff =>
                               mul_assign_by_base (add_assign value monomial_coeff) evaluation_point) (rev rest) ZERO) first)
    end.

Record FriParameters : Type := {
  FRI_FOLDING_SCHEDULE : list nat;
  LAST_FRI_STEP_EXPOSE_LEAFS : bool;
  fri_folding_challenges : list Mersenne31Quartic;
  fri_final_step_leafs : list Mersenne31Quartic; (* of the coset of the query *)
  monomial_coeffs : list Mersenne31Quartic;
}.

(** The leaf of a step, and the part of the query's leafs that remains: the last
    step can read its leaf from the values the skeleton exposes. *)
Definition leaf_projection (params : FriParameters) (step folding_degree_log_2 : nat) (tree_index : Z)
    (leaf_src : list Mersenne31Field) : option (list Mersenne31Field * list Mersenne31Field) :=
  let leaf_size := (2 ^ folding_degree_log_2 * 4)%nat in
  if LAST_FRI_STEP_EXPOSE_LEAFS params && (step =? length (FRI_FOLDING_SCHEDULE params) - 1)%nat then
    let leaf_size_in_ext4_elements := (leaf_size / 4)%nat in
    let leaf_index := (Z.to_nat tree_index / leaf_size_in_ext4_elements)%nat in
    let values := take leaf_size_in_ext4_elements
                       (drop (leaf_index * leaf_size_in_ext4_elements) (fri_final_step_leafs params)) in
    if (length values =? leaf_size_in_ext4_elements)%nat
    then Some (flat_map Quartic.into_coeffs_in_base values, leaf_src) else None
  else if (leaf_size <=? length leaf_src)%nat then Some (take leaf_size leaf_src, drop leaf_size leaf_src) else None.

(** [for (step, folding_degree_log_2) in FRI_FOLDING_SCHEDULE.iter().enumerate()] *)
Fixpoint fri_steps (modular_ext4_ops : bool) (shared : list Mersenne31Complex) (params : FriParameters)
    (schedule : list nat) (step : nat) (st : FriState) (leaf_src : list Mersenne31Field) : option FriState :=
  match schedule with
  | [] => Some st
  | n :: schedule' =>
      '(leaf, leaf_src) ← leaf_projection params step n (tree_index st) leaf_src;
      challenge ← fri_folding_challenges params !! step;
      st ← (if modular_ext4_ops then fri_fold_by_log_n_with_fma modular_ext4_ops n st leaf challenge shared
            else fri_fold_by_log_n modular_ext4_ops n st leaf (folding_challenge_powers challenge) shared);
      fri_steps modular_ext4_ops shared params schedule' (S step) st leaf_src
  end.

(** The end of a query: [st] has the value of the DEEP polynomial; the factors
    of the coset are multiplied in before the steps and out after them. *)
Definition fri_query (modular_ext4_ops : bool) (params : FriParameters) (tau_in_domain_by_half tau_in_domain_by_half_inversed : Mersenne31Complex)
    (st : FriState) (fri_oracles_leafs : list Mersenne31Field) : option unit :=
  shared ← SHARED_FACTORS_FOR_FOLDING;
  let st := {| expected_value := mul_assign_by_base (expected_value st) tau_in_domain_by_half_inversed;
               evaluation_point := evaluation_point st; domain_size_log_2 := domain_size_log_2 st;
               domain_index := domain_index st; tree_index := tree_index st; offset_inv := offset_inv st |} in
  st ← fri_steps modular_ext4_ops shared params (FRI_FOLDING_SCHEDULE params) 0 st fri_oracles_leafs;
  value_from_monomial_form ← evaluate_monomial_form modular_ext4_ops (monomial_coeffs params) (evaluation_point st);
  if feq value_from_monomial_form (mul_assign_by_base (expected_value st) tau_in_domain_by_half)
  then Some tt else None.

(** ** The algebra of folding *)
Section Algebra.
Context {E : Type} `{LawfulField E}.
Add Ring algebra_ring : (fv_ring (F := E)).
Notation value := (fv (F := E)).

(** The polynomial with the [2^m] coefficients [p]. *)
Definition pvalue (m : nat) (p : nat -> value) (x : value) : value := vsum (2 ^ m) (fun k => vmul (p k) (vpow x k)).

(** The points of a leaf of [2^m] values, in bit-reversed order. *)
Definition points (m : nat) (s h : value) (i : nat) : value := vmul s (vpow h (rev_bits m i)).

(** Folding with challenge [c]: twice the even part plus [c] times the odd part. *)
Definition folded (c : value) (p : nat -> value) (k : nat) : value :=
  vmul (vadd vone vone) (vadd (p (2 * k)%nat) (vmul c (p (2 * k + 1)%nat))).

Lemma vsum_even_odd n (f : nat -> value) :
  vsum (2 * n) f = vadd (vsum n (fun i => f (2 * i)%nat)) (vsum n (fun i => f (2 * i + 1)%nat)).
Proof.
  induction n as [|n IH]; [cbn; ring|]. replace (2 * S n)%nat with (S (S (2 * n))) by lia. cbn [vsum].
  rewrite IH. replace (S (2 * n)) with (2 * n + 1)%nat by lia. ring.
Qed.

Lemma vnat_double n : vnat (2 * n) = vmul (vadd vone vone) (vnat n) :> value.
Proof. unfold vnat. rewrite vsum_even_odd. ring. Qed.

Lemma pvalue_split m p x : pvalue (S m) p x =
  vadd (pvalue m (fun k => p (2 * k)%nat) (vmul x x)) (vmul x (pvalue m (fun k => p (2 * k + 1)%nat) (vmul x x))).
Proof.
  unfold pvalue. rewrite Nat.pow_succ_r', vsum_even_odd, <- vsum_scale. f_equal; apply vsum_ext; intros i _.
  - rewrite vpow_square. reflexivity.
  - rewrite vpow_square, vpow_add. cbn [vpow]. ring.
Qed.

Lemma rev_bits_even m i : rev_bits (S m) (2 * i) = rev_bits m i.
Proof.
  pose proof (rev_bits_app 1 m 0 i ltac:(change (2 ^ 1)%nat with 2%nat; lia)) as E'. change (2 ^ 1)%nat with 2%nat in E'.
  replace (i * 2 + 0)%nat with (2 * i)%nat in E' by lia. replace (1 + m)%nat with (S m) in E' by lia. rewrite E'.
  reflexivity.
Qed.

Lemma rev_bits_odd m i : rev_bits (S m) (2 * i + 1) = (2 ^ m + rev_bits m i)%nat.
Proof.
  pose proof (rev_bits_app 1 m 1 i ltac:(change (2 ^ 1)%nat with 2%nat; lia)) as E'. change (2 ^ 1)%nat with 2%nat in E'.
  replace (i * 2 + 1)%nat with (2 * i + 1)%nat in E' by lia. replace (1 + m)%nat with (S m) in E' by lia. rewrite E'.
  change (rev_bits 1 1) with 1%nat. lia.
Qed.

(** Neighbours in the leaf are opposite points, and their square is a point of
    the folded leaf. *)
Lemma points_odd m s h i : unity_root (S m) h -> points (S m) s h (2 * i + 1) = vopp (points (S m) s h (2 * i)).
Proof.
  intros [_ Hh]. unfold points. rewrite rev_bits_odd, rev_bits_even, vpow_add.
  specialize (Hh ltac:(lia)). replace (S m - 1)%nat with m in Hh by lia. rewrite Hh. ring.
Qed.

Lemma points_square m s h i :
  vmul (points (S m) s h (2 * i)) (points (S m) s h (2 * i)) = points m (vmul s s) (vmul h h) i.
Proof.
  unfold points. rewrite rev_bits_even, vpow_prod. ring.
Qed.

Lemma unity_square m h : unity_root (S m) h -> unity_root m (vmul h h).
Proof.
  intros [H1' H2']. split.
  - rewrite vpow_square, <- Nat.pow_succ_r'. exact H1'.
  - intros Hm. rewrite vpow_square, <- Nat.pow_succ_r'. replace (S (m - 1)) with (S m - 1)%nat by lia. apply H2'. lia.
Qed.

(** One fold of a pair is the value of the folded polynomial. *)
Lemma fold_step m s h p c y i : unity_root (S m) h -> vmul y (points (S m) s h (2 * i)) = vone ->
  let v j := pvalue (S m) p (points (S m) s h j) in
  vadd (vadd (vmul (vsub (v (2 * i)%nat) (v (2 * i + 1)%nat)) (vmul y c)) (v (2 * i)%nat)) (v (2 * i + 1)%nat) =
  pvalue m (folded c p) (points m (vmul s s) (vmul h h) i).
Proof.
  intros Hh Hy v. subst v. cbv beta. rewrite !pvalue_split, points_odd by exact Hh. rewrite <- points_square.
  set (x := points (S m) s h (2 * i)) in *.
  replace (vmul (vopp x) (vopp x)) with (vmul x x) by ring.
  set (ev := pvalue m (fun k => p (2 * k)%nat) (vmul x x)). set (od := pvalue m (fun k => p (2 * k + 1)%nat) (vmul x x)).
  assert (Hf : pvalue m (folded c p) (vmul x x) = vmul (vadd vone vone) (vadd ev (vmul c od))).
  { subst ev od. unfold pvalue. rewrite <- vsum_scale, <- vsum_add, <- vsum_scale. apply vsum_ext. intros k _.
    unfold folded. ring. }
  rewrite Hf.
  transitivity (vadd (vadd ev ev) (vmul (vmul y x) (vmul c (vadd od od)))); [ring | rewrite Hy; ring].
Qed.

(** Folding keeps twice the value at the challenge. *)
Lemma folded_value m c p : pvalue m (folded c p) (vmul c c) = vmul (vadd vone vone) (pvalue (S m) p c).
Proof.
  rewrite pvalue_split. unfold pvalue. rewrite <- vsum_scale, <- vsum_add, <- vsum_scale. apply vsum_ext. intros k _.
  unfold folded. ring.
Qed.

Lemma pvalue_ext m p q x : (forall k, p k = q k) -> pvalue m p x = pvalue m q x.
Proof. intros Hpq. apply vsum_ext. intros k _. rewrite Hpq. reflexivity. Qed.

Lemma point_inverse m s si h i : unity_root (S m) h -> vmul s si = vone ->
  vmul (vmul si (vpow h (2 ^ S m - rev_bits m i))) (points (S m) s h (2 * i)) = vone.
Proof.
  intros Hh Hs. unfold points. rewrite rev_bits_even. pose proof (rev_bits_bound m i) as Hb.
  transitivity (vmul (vmul s si) (vpow h (2 ^ S m - rev_bits m i + rev_bits m i))); [rewrite vpow_add; ring|].
  rewrite Hs. replace (2 ^ S m - rev_bits m i + rev_bits m i)%nat with (2 ^ S m)%nat by (rewrite Nat.pow_succ_r'; lia).
  rewrite (proj1 Hh). ring.
Qed.

(** Every leaf has an interpolant. *)
Lemma interpolant_exists (half : value) : vmul half (vadd vone vone) = vone ->
  forall m s si h (v : nat -> value), unity_root m h -> vmul s si = vone ->
  exists p, forall i, (i < 2 ^ m)%nat -> pvalue m p (points m s h i) = v i.
Proof.
  intros Hhalf. induction m as [|m IH]; intros s si h v Hh Hs.
  - exists v. intros i Hi. change (2 ^ 0)%nat with 1%nat in Hi. replace i with 0%nat by lia.
    unfold pvalue. change (2 ^ 0)%nat with 1%nat. cbn [vsum vpow]. ring.
  - assert (Hs2 : vmul (vmul s s) (vmul si si) = vone).
    { transitivity (vmul (vmul s si) (vmul s si)); [ring | rewrite Hs; ring]. }
    (* the inverse of the point of pair [i] *)
    pose (y i := vmul si (vpow h (2 ^ S m - rev_bits m i))).
    pose proof (fun i => point_inverse m s si h i Hh Hs : vmul (y i) (points (S m) s h (2 * i)) = vone) as Hy.
    destruct (IH _ _ _ (fun i => vmul half (vadd (v (2 * i)%nat) (v (2 * i + 1)%nat))) (unity_square m h Hh) Hs2) as (pe & He).
    destruct (IH _ _ _ (fun i => vmul half (vmul (y i) (vsub (v (2 * i)%nat) (v (2 * i + 1)%nat))))
                (unity_square m h Hh) Hs2) as (po & Ho).
    pose (p k := if Nat.even k then pe (k / 2)%nat else po (k / 2)%nat).
    assert (Pe : forall x, pvalue m (fun k => p (2 * k)%nat) x = pvalue m pe x).
    { intros x. apply pvalue_ext. intros k. unfold p. replace (2 * k)%nat with (0 + k * 2)%nat by lia.
      rewrite Nat.div_add, Nat.even_add, Nat.even_mul, orb_true_r by lia. reflexivity. }
    assert (Po : forall x, pvalue m (fun k => p (2 * k + 1)%nat) x = pvalue m po x).
    { intros x. apply pvalue_ext. intros k. unfold p. replace (2 * k + 1)%nat with (1 + k * 2)%nat by lia.
      rewrite Nat.div_add, Nat.even_add, Nat.even_mul, orb_true_r by lia. reflexivity. }
    exists p. intros i Hi. rewrite Nat.pow_succ_r' in Hi. rewrite pvalue_split, Pe, Po.
    assert (Hj : exists j, (j < 2 ^ m)%nat /\ (i = 2 * j \/ i = 2 * j + 1)%nat).
    { exists (i / 2)%nat. pose proof (Nat.div_mod_eq i 2) as Hd. pose proof (Nat.mod_upper_bound i 2 ltac:(lia)). lia. }
    destruct Hj as (j & Hj & Hij).
    assert (Hx : points (S m) s h i = if decide (i = 2 * j)%nat then points (S m) s h (2 * j) else vopp (points (S m) s h (2 * j))).
    { destruct (decide (i = 2 * j)%nat) as [->|Hne]; [reflexivity|]. destruct Hij as [Hc| ->]; [contradiction|].
      apply points_odd. exact Hh. }
    assert (Hxx : vmul (points (S m) s h i) (points (S m) s h i) = points m (vmul s s) (vmul h h) j).
    { rewrite <- points_square, Hx. destruct (decide _); ring. }
    rewrite Hxx, He, Ho by exact Hj. rewrite Hx. specialize (Hy j). set (x := points (S m) s h (2 * j)) in *.
    set (v0 := v (2 * j)%nat). set (v1 := v (2 * j + 1)%nat).
    destruct (decide (i = 2 * j)%nat) as [->|Hne]; [change (v (2 * j)%nat) with v0|destruct Hij as [Hc| ->]; [contradiction|]; change (v (2 * j + 1)%nat) with v1].
    + transitivity (vmul half (vadd (vadd v0 v1) (vmul (vmul (y j) x) (vsub v0 v1)))); [ring|]. rewrite Hy.
      transitivity (vmul (vmul half (vadd vone vone)) v0); [ring | rewrite Hhalf; ring].
    + transitivity (vmul half (vsub (vadd v0 v1) (vmul (vmul (y j) x) (vsub v0 v1)))); [ring|]. rewrite Hy.
      transitivity (vmul (vmul half (vadd vone vone)) v1); [ring | rewrite Hhalf; ring].
Qed.
End Algebra.

(** ** The rounds *)
Lemma mapM_ok {A B} (f : A -> option B) (P : A -> B -> Prop) l :
  (forall x, x ∈ l -> exists y, f x = Some y /\ P x y) -> exists ys, mapM f l = Some ys /\ Forall2 P l ys.
Proof.
  induction l as [|x l IH]; intros Hf; [exists []; split; [reflexivity | constructor]|].
  destruct (Hf x) as (y & Ey & Py); [apply list_elem_of_here|].
  destruct IH as (ys & Eys & Pys); [intros z Hz; apply Hf, list_elem_of_further, Hz|].
  exists (y :: ys). split; [|constructor; assumption]. cbn. rewrite Ey. cbn. rewrite Eys. reflexivity.
Qed.

Lemma mapM_seq_ok {B} (f : nat -> option B) (P : nat -> B -> Prop) n :
  (forall i, (i < n)%nat -> exists y, f i = Some y /\ P i y) ->
  exists ys, mapM f (seq 0 n) = Some ys /\ length ys = n /\ forall i, (i < n)%nat -> exists y, ys !! i = Some y /\ P i y.
Proof.
  intros Hf. destruct (mapM_ok f P (seq 0 n)) as (ys & Eys & Pys).
  { intros x Hx. apply elem_of_seq in Hx. apply Hf. lia. }
  exists ys. split; [exact Eys|]. split; [rewrite <- (Forall2_length _ _ _ Pys); apply length_seq|].
  intros i Hi. destruct (Forall2_lookup_l _ _ _ i (0 + i)%nat Pys) as (y & Ey & Py); [apply lookup_seq_lt; exact Hi|].
  exists y. auto.
Qed.

Section Rounds.
Context {F : Type} `{LawfulField F}.
Notation Q := (fv (F := Mersenne31Quartic)).
Add Ring rounds_ring : (fv_ring (F := Mersenne31Quartic)).

(** The roots of a round stand for [W]. *)
Definition roots_at (n r : nat) (roots : list F) (W : nat -> fv (F := F)) : Prop :=
  forall i, (i < 2 ^ (n - r - 1))%nat -> exists x, roots !! (i * 2 ^ r)%nat = Some x /\ reps x (W i).

Context (sq : F -> F) (sq_ok : forall x v, reps x v -> reps (sq x) (vmul v v)).

Lemma remap_roots_ok n r roots W : (S r < n)%nat -> roots_at n r roots W -> exists roots',
  remap_roots sq n (S r) roots = Some roots' /\ roots_at n (S r) roots' (fun i => vmul (W (2 * i)%nat) (W (2 * i)%nat)).
Proof.
  intros Hr HW. unfold remap_roots. cbn [Nat.eqb].
  assert (Hp : (2 ^ (n - r - 1) = 2 * 2 ^ (n - S r - 1))%nat) by (rewrite <- Nat.pow_succ_r'; f_equal; lia).
  pose proof (Nat.pow_nonzero 2 (S r) ltac:(lia)) as Hnz.
  destruct (for_range_ok (fun i roots => t ← roots !! (i * 2 ^ S r)%nat; Some (<[(i * 2 ^ S r)%nat := sq t]> roots))
    (fun m roots => forall i, (i < 2 ^ (n - S r - 1))%nat -> exists x, roots !! (i * 2 ^ S r)%nat = Some x /\
       reps x (if (i <? m)%nat then vmul (W (2 * i)%nat) (W (2 * i)%nat) else W (2 * i)%nat))
    (2 ^ (n - S r - 1)) 0 roots) as (roots' & E' & HW').
  - intros m a Hm Ha. destruct (Ha m ltac:(lia)) as (x & Ex & Rx). rewrite Nat.ltb_irrefl in Rx. rewrite Ex. cbn [mbind option_bind].
    eexists. split; [reflexivity|]. intros i Hi. destruct (Nat.eq_dec i m) as [->|Hne].
    + exists (sq x). rewrite list_lookup_insert_eq by (apply lookup_lt_Some in Ex; exact Ex).
      split; [reflexivity|]. replace (m <? S m)%nat with true by (symmetry; apply Nat.ltb_lt; lia). apply sq_ok. exact Rx.
    + destruct (Ha i Hi) as (z & Ez & Rz). exists z. rewrite list_lookup_insert_ne by (intros E'; apply Hne; nia).
      split; [exact Ez|]. replace (i <? S m)%nat with (i <? m)%nat; [exact Rz|].
      destruct (Nat.ltb_spec i m), (Nat.ltb_spec i (S m)); reflexivity || lia.
  - intros i Hi. destruct (HW (2 * i)%nat ltac:(lia)) as (x & Ex & Rx). exists x.
    replace (i * 2 ^ S r)%nat with (2 * i * 2 ^ r)%nat by (rewrite Nat.pow_succ_r'; lia). auto.
  - exists roots'. split; [exact E'|]. intros i Hi. destruct (HW' i Hi) as (x & Ex & Rx). exists x. split; [exact Ex|].
    replace (i <? 0 + 2 ^ (n - S r - 1))%nat with true in Rx by (symmetry; apply Nat.ltb_lt; lia). exact Rx.
Qed.

(** What folding a pair computes in round [r] when the root stands for [w]. *)
Context (fold : nat -> option (F -> Mersenne31Quartic -> Mersenne31Quartic -> Mersenne31Quartic))
  (factor : nat -> fv (F := F) -> Q) (n : nat).
Context (fold_ok : forall r root w a b va vb, (r < n)%nat -> reps root w -> reps a va -> reps b vb -> exists f,
  fold r = Some f /\ reps (f root a b) (vadd (vadd (vmul (vsub va vb) (factor r w)) va) vb)).
Context (fold_fun : forall r, (r < n)%nat -> exists f, fold r = Some f).
Context (factor_square : forall r w, factor (S r) (vmul w w) = vmul (factor r w) (factor r w)).

Lemma fold_pairs_ok r f roots W input m s h p c : (r < n)%nat -> (n - r = S m)%nat -> fold r = Some f ->
  unity_root (S m) h -> roots_at n r roots W ->
  (forall i, (i < 2 ^ m)%nat -> exists y, factor r (W i) = vmul y c /\ vmul y (points (S m) s h (2 * i)) = vone) ->
  (forall i, (i < 2 ^ S m)%nat -> exists a, input i = Some a /\ reps a (pvalue (S m) p (points (S m) s h i))) ->
  exists output, fold_pairs f n r roots input = Some output /\
    forall i, (i < 2 ^ m)%nat -> exists a, output !! i = Some a /\
      reps a (pvalue m (folded c p) (points m (vmul s s) (vmul h h) i)).
Proof.
  intros Hr Hm Ef Hh HW HY Hin. unfold fold_pairs. assert (Em : (n - r - 1 = m)%nat) by lia. rewrite Em.
  assert (Hp : (2 ^ S m = 2 * 2 ^ m)%nat) by apply Nat.pow_succ_r'.
  destruct (mapM_seq_ok (fun i => root ← roots !! (i * 2 ^ r)%nat; a ← input (2 * i)%nat; b ← input (2 * i + 1)%nat;
                 Some (f root a b))
    (fun i a => reps a (pvalue m (folded c p) (points m (vmul s s) (vmul h h) i))) (2 ^ m)) as (out & Eo & _ & Ho).
  - intros i Hi. destruct (HW i) as (root & -> & Rr); [rewrite Em; exact Hi|]. cbn [mbind option_bind].
    destruct (Hin (2 * i)%nat ltac:(lia)) as (a & -> & Ra). destruct (Hin (2 * i + 1)%nat ltac:(lia)) as (b & -> & Rb).
    cbn [mbind option_bind]. eexists. split; [reflexivity|].
    destruct (fold_ok r root (W i) a b _ _ Hr Rr Ra Rb) as (f' & Ef' & Rf). rewrite Ef in Ef'. injection Ef' as <-.
    destruct (HY i Hi) as (y & Ey & Hy). rewrite Ey, fold_step in Rf by assumption. exact Rf.
  - exists out. auto.
Qed.

(** The rounds from [r] on: the interpolant at the challenge, times a power of
    two. *)
Lemma fold_rounds_ok m : forall r roots W input s h p c, (n - r = m)%nat -> (r <= n)%nat -> unity_root m h ->
  ((0 < m)%nat -> exists roots', remap_roots sq n r roots = Some roots' /\ roots_at n r roots' W) ->
  (forall i, (0 < m)%nat -> (i < 2 ^ (m - 1))%nat -> exists y, factor r (W i) = vmul y c /\ vmul y (points m s h (2 * i)) = vone) ->
  (forall i, (i < 2 ^ m)%nat -> exists a, input i = Some a /\ reps a (pvalue m p (points m s h i))) ->
  exists v, fold_rounds sq fold n m r roots input = Some v /\ reps v (vmul (vnat (2 ^ m)) (pvalue m p c)).
Proof.
  induction m as [|m IH]; intros r roots W input s h p c Hm Hr Hh Hroots HY Hin; cbn [fold_rounds].
  - destruct (Hin 0%nat ltac:(change (2 ^ 0)%nat with 1%nat; lia)) as (a & Ea & Ra). exists a. split; [exact Ea|].
    replace (vmul (vnat (2 ^ 0)) (pvalue 0 p c)) with (pvalue 0 p (points 0 s h 0)); [exact Ra|].
    unfold pvalue, vnat. change (2 ^ 0)%nat with 1%nat. cbn [vsum vpow]. ring.
  - destruct (Hroots ltac:(lia)) as (roots1 & -> & HW). cbn [mbind option_bind].
    destruct (fold_fun r ltac:(lia)) as (f & Ef). rewrite Ef. cbn [mbind option_bind].
    replace (S m - 1)%nat with m in HY by lia.
    destruct (fold_pairs_ok r f roots1 W input m s h p c ltac:(lia) ltac:(lia) Ef Hh HW (fun i => HY i ltac:(lia)) Hin) as (out & -> & Hout).
    cbn [mbind option_bind].
    destruct (IH (S r) roots1 (fun i => vmul (W (2 * i)%nat) (W (2 * i)%nat)) (fun i => out !! i) (vmul s s) (vmul h h)
                (folded c p) (vmul c c)) as (v & Ev & Rv); [lia | lia | apply unity_square; exact Hh | | | exact Hout |].
    + intros Hm0. apply remap_roots_ok; [lia | exact HW].
    + intros i Hm0 Hi. destruct m as [|m]; [lia|]. replace (S m - 1)%nat with m in Hi by lia.
      destruct (HY (2 * i)%nat ltac:(lia) ltac:(rewrite Nat.pow_succ_r'; lia)) as (y & Ey & Hy).
      exists (vmul y y). rewrite factor_square, Ey. split; [ring|]. rewrite <- points_square.
      set (x := points (S (S m)) s h (2 * (2 * i))) in *.
      transitivity (vmul (vmul y x) (vmul y x)); [ring | rewrite Hy; ring].
    + exists v. split; [exact Ev|]. rewrite folded_value in Rv. rewrite Nat.pow_succ_r', vnat_double.
      replace (vmul (vmul (vadd vone vone) (vnat (2 ^ m))) (pvalue (S m) p c))
        with (vmul (vnat (2 ^ m)) (vmul (vadd vone vone) (pvalue (S m) p c))) by ring. exact Rv.
Qed.
End Rounds.

(** ** Generators and shared factors *)
Section Factors.
Notation C := (fv (F := Mersenne31Complex)).
Add Ring factors_ring : (fv_ring (F := Mersenne31Complex)).

(** The generator of the domain of size [2^k]. *)
Definition gen (k : nat) : C := vpow (fabs Complex.TWO_ADIC_GENERATOR) (2 ^ (31 - k)).

Lemma gen_pow k j : (j <= k)%nat -> (k <= 31)%nat -> vpow (gen k) (2 ^ j) = gen (k - j).
Proof.
  intros Hj Hk. unfold gen. rewrite <- vpow_mul, <- Nat.pow_add_r. f_equal. f_equal. lia.
Qed.

Lemma gen_table k : (k <= 31)%nat -> exists h : Mersenne31Complex,
  TWO_ADICITY_GENERATORS_INVERSED !! k = Some (Some h) /\ fwf h /\ vmul (gen k) (fabs h) = vone.
Proof.
  intros Hk. destruct (generator_table k Hk) as (g & h & Eg & Eh & Wg & Wh & _ & _ & Hgh).
  rewrite (generator_lookup k Hk) in Eg. injection Eg as <-. exists h. split; [exact Eh|]. split; [exact Wh|].
  destruct (exp_power_of_2_ok (31 - k) Complex.TWO_ADIC_GENERATOR generator_wf) as [_ V]. unfold gen. rewrite <- V. exact Hgh.
Qed.

Lemma gen_order k : (k <= 31)%nat -> order_pow2 (gen k) k.
Proof.
  intros Hk. destruct (generator_table k Hk) as (g & h & Eg & _ & _ & _ & H1' & H2' & _).
  rewrite (generator_lookup k Hk) in Eg. injection Eg as <-.
  destruct (exp_power_of_2_ok (31 - k) Complex.TWO_ADIC_GENERATOR generator_wf) as [_ V]. rewrite V in H1', H2'. split; assumption.
Qed.

Lemma shared_factors_ok : exists h shared, TWO_ADICITY_GENERATORS_INVERSED !! 5%nat = Some (Some h) /\
  vmul (gen 5) (fabs h) = vone /\ SHARED_FACTORS_FOR_FOLDING = Some shared /\
  forall i, (i < 16)%nat -> exists t, shared !! i = Some t /\ reps t (vpow (fabs h) (rev_bits 4 i)).
Proof.
  destruct (gen_table 5 ltac:(lia)) as (h & Eh & Wh & Hh). exists h.
  unfold SHARED_FACTORS_FOR_FOLDING.
  destruct (for_range_ok shared_factors_loop (fun m '(current, result) =>
    reps current (vpow (fabs h) m) /\ length result = 16%nat /\
    forall i, (i < 16)%nat -> (rev_bits 4 i < m)%nat -> exists t, result !! i = Some t /\ reps t (vpow (fabs h) (rev_bits 4 i)))
    16 0 (ONE, replicate 16 ZERO)) as ([current result] & E' & _ & _ & Hr).
  - intros m [current result] Hm (Rc & Hl & Hr). unfold shared_factors_loop. rewrite Eh. cbn [mjoin option_join mbind option_bind].
    assert (Hidx : Z.to_nat (Z.shiftr (reverse_bits64 (Z.of_nat m)) (64 - 4)) = rev_bits 4 m).
    { unfold reverse_bits64, rev_bits. change 64%Z with (Z.of_nat 64). change 4%Z with (Z.of_nat 4).
      rewrite bitrev_shiftr; [reflexivity | lia | change (2 ^ Z.of_nat 4)%Z with 16%Z; lia]. }
    rewrite Hidx, Hl. pose proof (rev_bits_bound 4 m) as Hb. change (2 ^ 4)%nat with 16%nat in Hb.
    replace (rev_bits 4 m <? 16)%nat with true by (symmetry; apply Nat.ltb_lt; exact Hb).
    eexists. split; [reflexivity|]. split.
    { replace (vpow (fabs h) (S m)) with (vmul (vpow (fabs h) m) (fabs h)) by (cbn [vpow]; ring).
      apply reps_mul; [exact Rc | apply reps_self, Wh]. }
    split; [rewrite length_insert; exact Hl|]. intros i Hi Hlt. destruct (Nat.eq_dec i (rev_bits 4 m)) as [->|Hne].
    + exists current. rewrite list_lookup_insert_eq by lia. split; [reflexivity|].
      rewrite rev_bits_involutive by (change (2 ^ 4)%nat with 16%nat; lia). exact Rc.
    + rewrite list_lookup_insert_ne by auto. apply Hr; [exact Hi|].
      assert (rev_bits 4 i <> m) by (intros <-; apply Hne; rewrite rev_bits_involutive; [reflexivity | exact Hi]). lia.
  - split; [apply reps_one|]. split; [reflexivity|]. intros i _ Hlt. lia.
  - unfold MAX_FRI_FOLDING_ROOTS. rewrite E'. exists result. split; [exact Eh|]. split; [exact Hh|]. split; [reflexivity|].
    intros i Hi. apply Hr; [exact Hi|]. pose proof (rev_bits_bound 4 i). change (2 ^ 4)%nat with 16%nat in *. lia.
Qed.

(** The factor for pair [i] of a leaf of [2^n] values. *)
Lemma shared_factor_inverse h n i : vmul (gen 5) h = vone -> (0 < n <= 5)%nat -> (i < 2 ^ (n - 1))%nat ->
  vmul (vpow h (rev_bits 4 i)) (vpow (gen n) (rev_bits n (2 * i))) = vone.
Proof.
  intros Hh Hn Hi. replace (rev_bits n (2 * i)) with (rev_bits (n - 1) i).
  2:{ rewrite <- (rev_bits_even (n - 1) i). f_equal. lia. }
  replace 4%nat with (n - 1 + (5 - n))%nat by lia. rewrite rev_bits_low by exact Hi.
  replace (gen n) with (vpow (gen 5) (2 ^ (5 - n))) by (rewrite gen_pow by lia; f_equal; lia).
  rewrite <- vpow_mul, (Nat.mul_comm (2 ^ (5 - n))).
  transitivity (vmul (vpow (gen 5) (rev_bits (n - 1) i * 2 ^ (5 - n))) (vpow h (rev_bits (n - 1) i * 2 ^ (5 - n)))); [ring|].
  apply inverse_pow. exact Hh.
Qed.
End Factors.

(** ** Arithmetic through the fused multiply-add *)
Section FmaOk.
Add Ring fma_ring : (fv_ring (F := Mersenne31Quartic)).
Implicit Types x y z : Mersenne31Quartic.

Lemma fma_ok x y z u v w : reps x u -> reps y v -> reps z w -> reps (fma_implementation x y z) (vadd (vmul u v) w).
Proof. intros Hx Hy Hz. apply reps_add; [apply reps_mul; assumption | exact Hz]. Qed.

Lemma fma_mul_ok x y u v : reps x u -> reps y v -> reps (fma_implementation x y ZERO) (vmul u v).
Proof.
  intros Hx Hy. replace (vmul u v) with (vadd (vmul u v) vzero) by ring. apply fma_ok; auto using reps_zero.
Qed.

Lemma pow_with_fma_loop_ok fuel : forall base result e u v, reps base u -> reps result v ->
  (0 <= e < 2 ^ Z.of_nat fuel)%Z -> reps (pow_with_fma_loop fuel base result e) (vmul v (vpow u (Z.to_nat e))).
Proof.
  induction fuel as [|fuel IH]; intros base result e u v Hb Hr He; cbn [pow_with_fma_loop].
  - replace e with 0%Z by (cbn in He; lia). change (Z.to_nat 0) with 0%nat. cbn [vpow]. replace (vmul v vone) with v by ring. exact Hr.
  - destruct (Z.ltb_spec 0 e) as [Hpos|Hneg].
    2:{ replace e with 0%Z by lia. change (Z.to_nat 0) with 0%nat. cbn [vpow]. replace (vmul v vone) with v by ring. exact Hr. }
    assert (Hs : Z.shiftr e 1 = (e / 2)%Z) by (rewrite Z.shiftr_div_pow2 by lia; reflexivity). rewrite Hs.
    assert (Hlt : (0 <= e / 2 < 2 ^ Z.of_nat fuel)%Z).
    { rewrite Nat2Z.inj_succ, Z.pow_succ_r in He by lia. split; [apply Z.div_pos; lia | apply Z.div_lt_upper_bound; lia]. }
    pose proof (Z.div_mod e 2 ltac:(lia)) as Hd. pose proof (Z.mod_pos_bound e 2 ltac:(lia)) as Hm.
    set (q := (e / 2)%Z) in *. set (rem := (e mod 2)%Z) in *.
    set (r' := if (rem =? 1)%Z then _ else _).
    assert (Hr' : reps r' (vmul v (vpow u (Z.to_nat rem)))).
    { subst r'. destruct (Z.eqb_spec rem 1) as [E'|E'].
      - rewrite E'. change (Z.to_nat 1) with 1%nat. cbn [vpow]. replace (vmul v (vmul u vone)) with (vmul v u) by ring.
        apply fma_mul_ok; assumption.
      - replace rem with 0%Z by lia. change (Z.to_nat 0) with 0%nat. cbn [vpow]. replace (vmul v vone) with v by ring. exact Hr. }
    specialize (IH _ _ q _ _ (fma_mul_ok _ _ _ _ Hb Hb) Hr' Hlt).
    replace (vmul v (vpow u (Z.to_nat e))) with (vmul (vmul v (vpow u (Z.to_nat rem))) (vpow (vmul u u) (Z.to_nat q))); [exact IH|].
    rewrite vpow_square. replace (Z.to_nat e) with (Z.to_nat rem + 2 * Z.to_nat q)%nat by lia. rewrite vpow_add. ring.
Qed.

Context (modular_ext4_ops : bool).

Lemma pow_with_fma_ok x u e : reps x u -> is_u32 e -> reps (pow_with_fma modular_ext4_ops x e) (vpow u (Z.to_nat e)).
Proof.
  intros Hx He. unfold pow_with_fma. destruct modular_ext4_ops.
  - replace (vpow u (Z.to_nat e)) with (vmul vone (vpow u (Z.to_nat e))) by ring.
    apply pow_with_fma_loop_ok; [exact Hx | apply reps_one | exact He].
  - destruct Hx as [Wx <-]. apply reps_pow; assumption.
Qed.

Lemma add_with_fma_ok x y u v : reps x u -> reps y v -> reps (add_assign_with_fma modular_ext4_ops x y) (vadd u v).
Proof.
  intros Hx Hy. unfold add_assign_with_fma. destruct modular_ext4_ops; [|apply reps_add; assumption].
  replace (vadd u v) with (vadd (vmul u vone) v) by ring. apply fma_ok; auto using reps_one.
Qed.

Lemma negate_and_add_ok x y u v : reps x u -> reps y v ->
  reps (negate_self_and_add_other_with_fma modular_ext4_ops x y) (vsub v u).
Proof.
  intros Hx Hy. unfold negate_self_and_add_other_with_fma. destruct modular_ext4_ops.
  - replace (vsub v u) with (vadd (vmul u (vopp vone)) v) by ring. apply fma_ok; [exact Hx | | exact Hy].
    apply reps_negate, reps_one.
  - replace (vsub v u) with (vadd (vopp u) v) by ring. apply reps_add; [apply reps_negate|]; assumption.
Qed.

Lemma mul_with_fma_ok x y u v : reps x u -> reps y v -> reps (mul_assign_with_fma modular_ext4_ops x y) (vmul u v).
Proof.
  intros Hx Hy. unfold mul_assign_with_fma. destruct modular_ext4_ops; [apply fma_mul_ok | apply reps_mul]; assumption.
Qed.

Lemma square_with_fma_ok x u : reps x u -> reps (square_with_fma modular_ext4_ops x) (vmul u u).
Proof.
  intros Hx. unfold square_with_fma. destruct modular_ext4_ops; [apply fma_mul_ok | apply reps_square]; assumption.
Qed.
End FmaOk.

(** ** One FRI step *)
Section Step.
Notation C := (fv (F := Mersenne31Complex)).
Notation Q := (fv (F := Mersenne31Quartic)).
Notation emb := (embed Mersenne31Complex Mersenne31Quartic).
Add Ring step_c_ring : (fv_ring (F := Mersenne31Complex)).
Add Ring step_q_ring : (fv_ring (F := Mersenne31Quartic)).

(** The low bits of the position in the tree choose the element of the leaf,
    the low bits of the position in the domain are those of the leaf. *)
Lemma leaf_index d n j : (n <= d)%nat -> (j < 2 ^ d)%nat ->
  j = (rev_bits n (rev_bits d j mod 2 ^ n) * 2 ^ (d - n) + j mod 2 ^ (d - n))%nat /\
  rev_bits (d - n) (j mod 2 ^ (d - n)) = (rev_bits d j / 2 ^ n)%nat.
Proof.
  intros Hn Hj. set (t := rev_bits d j). pose proof (rev_bits_bound d j) as Ht. fold t in Ht.
  pose proof (Nat.pow_nonzero 2 n ltac:(lia)) as Hp. pose proof (Nat.div_mod_eq t (2 ^ n)) as Hd.
  pose proof (rev_bits_app n (d - n) (t mod 2 ^ n) (t / 2 ^ n) (Nat.mod_upper_bound _ _ Hp)) as E'.
  replace (n + (d - n))%nat with d in E' by lia. replace (t / 2 ^ n * 2 ^ n + t mod 2 ^ n)%nat with t in E' by lia.
  subst t. rewrite rev_bits_involutive in E' by exact Hj. set (t := rev_bits d j) in *.
  pose proof (rev_bits_bound (d - n) (t / 2 ^ n)) as Hb.
  assert (Hm : (j mod 2 ^ (d - n) = rev_bits (d - n) (t / 2 ^ n))%nat).
  { rewrite E' at 1. rewrite Nat.add_comm, Nat.Div0.mod_add. apply Nat.mod_small. exact Hb. }
  rewrite Hm. split; [exact E'|]. apply rev_bits_involutive. apply Nat.Div0.div_lt_upper_bound.
  rewrite <- Nat.pow_add_r. replace (n + (d - n))%nat with d by lia. exact Ht.
Qed.

Lemma land_low x k : Z.land x (2 ^ Z.of_nat k - 1) = (x mod 2 ^ Z.of_nat k)%Z.
Proof. rewrite <- Z.land_ones by lia. f_equal. rewrite Z.ones_equiv. lia. Qed.

(** The evaluation point is the point of the domain of size [2^d], shifted by
    [o], that the indices name. *)
Definition fri_position (st : FriState) (d : nat) (o : C) : Prop :=
  domain_size_log_2 st = d /\ (d <= 31)%nat /\ (0 <= domain_index st < 2 ^ Z.of_nat d)%Z /\
  tree_index st = bitrev d (domain_index st) /\
  reps (evaluation_point st) (vmul o (vpow (gen d) (Z.to_nat (domain_index st)))) /\
  fwf (offset_inv st) /\ vmul o (fabs (offset_inv st)) = vone.

(** The points of the leaf of [2^n] values that holds the point number [index]. *)
Definition leaf_base (index : Z) (n d : nat) (o : C) : C :=
  vmul o (vpow (gen d) (Z.to_nat (index mod 2 ^ Z.of_nat (d - n)))).
Definition leaf_point (index : Z) (n d : nat) (o : C) : nat -> Q := points n (emb (leaf_base index n d o)) (emb (gen n)).
Definition index_in_leaf (st : FriState) (n : nat) : nat := Z.to_nat (tree_index st mod 2 ^ Z.of_nat n).

Lemma index_in_leaf_bound st n : (index_in_leaf st n < 2 ^ n)%nat.
Proof.
  unfold index_in_leaf. apply Nat2Z.inj_lt. pose proof (Z.mod_pos_bound (tree_index st) (2 ^ Z.of_nat n)) as Hb.
  assert (0 < 2 ^ Z.of_nat n)%Z by (apply Z.pow_pos_nonneg; lia). rewrite pow2_Z. lia.
Qed.

Lemma position_indices st d o n : fri_position st d o -> (n <= d)%nat ->
  exists j, (j < 2 ^ d)%nat /\ domain_index st = Z.of_nat j /\ tree_index st = Z.of_nat (rev_bits d j) /\
    Z.to_nat (domain_index st mod 2 ^ Z.of_nat (d - n)) = (j mod 2 ^ (d - n))%nat /\
    index_in_leaf st n = (rev_bits d j mod 2 ^ n)%nat /\
    Z.shiftr (tree_index st) (Z.of_nat n) = Z.of_nat (rev_bits d j / 2 ^ n).
Proof.
  intros (_ & _ & Hi & Ht & _) Hn. exists (Z.to_nat (domain_index st)). rewrite Z2Nat.id by lia.
  assert (Et : tree_index st = Z.of_nat (rev_bits d (Z.to_nat (domain_index st)))).
  { rewrite rev_bits_Z, Z2Nat.id by lia. exact Ht. }
  split; [apply Nat2Z.inj_lt; rewrite Z2Nat.id, pow2_Z by lia; lia|]. split; [reflexivity|]. split; [exact Et|]. split.
  - apply Nat2Z.inj. rewrite Nat2Z.inj_mod, pow2_Z, !Z2Nat.id; [reflexivity | lia |]. apply Z.mod_pos_bound. lia.
  - unfold index_in_leaf. rewrite Et. split.
    + rewrite <- pow2_Z, <- Nat2Z.inj_mod, Nat2Z.id. reflexivity.
    + rewrite Z.shiftr_div_pow2, <- pow2_Z, <- Nat2Z.inj_div by lia. reflexivity.
Qed.

Lemma leaf_point_expected st d o n : fri_position st d o -> (n <= d)%nat ->
  leaf_point (domain_index st) n d o (index_in_leaf st n) = emb (fabs (evaluation_point st)).
Proof.
  intros Hpos Hn. destruct (position_indices st d o n Hpos Hn) as (j & Hj & Ej & Et & Em & El & _).
  destruct Hpos as (_ & Hd & _ & _ & [_ Ve] & _). rewrite Ve.
  unfold leaf_point, leaf_base, points. rewrite Em, El, Ej, Nat2Z.id, <- embed_pow, <- embed_mul. f_equal.
  rewrite <- (Rmul_assoc (fv_ring (F := Mersenne31Complex))). f_equal.
  replace (gen n) with (vpow (gen d) (2 ^ (d - n))) by (rewrite gen_pow by lia; f_equal; lia).
  rewrite <- vpow_mul, <- vpow_add. f_equal. destruct (leaf_index d n j Hn Hj) as [E' _]. rewrite E' at 3. lia.
Qed.

Lemma next_position st d o n v : fri_position st d o -> (n <= d)%nat ->
  fri_position {| expected_value := v;
                  evaluation_point := exp_power_of_2 (evaluation_point st) n;
                  domain_size_log_2 := domain_size_log_2 st - n;
                  domain_index := domain_index st mod 2 ^ Z.of_nat (d - n);
                  tree_index := Z.shiftr (tree_index st) (Z.of_nat n);
                  offset_inv := exp_power_of_2 (offset_inv st) n |} (d - n) (vpow o (2 ^ n)).
Proof.
  intros Hpos Hn. destruct (position_indices st d o n Hpos Hn) as (j & Hj & Ej & Et & Em & El & Es).
  destruct (leaf_index d n j Hn Hj) as [Elo Ehi].
  destruct Hpos as (Ed & Hd & Hi & Ht & [We Ve] & Wo & Ho).
  assert (Hp : (0 < 2 ^ Z.of_nat (d - n))%Z) by (apply Z.pow_pos_nonneg; lia).
  pose proof (Z.mod_pos_bound (domain_index st) (2 ^ Z.of_nat (d - n)) Hp) as Hb.
  unfold fri_position. cbn [domain_size_log_2 domain_index tree_index evaluation_point offset_inv].
  split; [lia|]. split; [lia|]. split; [exact Hb|]. split; [|split].
  - rewrite Es, <- Ehi, <- Em, rev_bits_Z, Z2Nat.id by lia. reflexivity.
  - destruct (exp_power_of_2_ok n _ We) as [W V]. split; [exact W|]. rewrite V, Ve, vpow_prod, Em, Ej, Nat2Z.id. f_equal.
    rewrite <- !vpow_mul, Nat.mul_comm, vpow_mul, gen_pow by lia.
    rewrite (Nat.div_mod_eq j (2 ^ (d - n))) at 1. rewrite vpow_add, vpow_mul.
    rewrite (proj1 (gen_order (d - n) ltac:(lia))), vpow_one. ring.
  - destruct (exp_power_of_2_ok n _ Wo) as [W V]. split; [exact W|]. rewrite V. apply inverse_pow. exact Ho.
Qed.

(** The next point is the [2^n]-th power. *)
Lemma next_point st st' d o n : fri_position st d o -> (n <= d)%nat -> fri_position st' (d - n) (vpow o (2 ^ n)) ->
  domain_index st' = (domain_index st mod 2 ^ Z.of_nat (d - n))%Z ->
  fabs (evaluation_point st') = vpow (fabs (evaluation_point st)) (2 ^ n).
Proof.
  intros (_ & Hd & Hi & _ & [_ Ve] & _) Hn (_ & _ & _ & _ & [_ Ve'] & _) Ei.
  rewrite Ve', Ve, vpow_prod, Ei. f_equal. rewrite <- vpow_mul, Nat.mul_comm, vpow_mul, gen_pow by lia.
  set (m := (d - n)%nat). assert (Hp : (0 < 2 ^ Z.of_nat m)%Z) by (apply Z.pow_pos_nonneg; lia).
  pose proof (Z.mod_pos_bound (domain_index st) _ Hp) as Hb. pose proof (Z.div_pos (domain_index st) _ ltac:(lia) Hp) as Hq.
  replace (Z.to_nat (domain_index st)) with
    (2 ^ m * Z.to_nat (domain_index st / 2 ^ Z.of_nat m) + Z.to_nat (domain_index st mod 2 ^ Z.of_nat m))%nat.
  2:{ apply Nat2Z.inj. rewrite Nat2Z.inj_add, Nat2Z.inj_mul, pow2_Z, !Z2Nat.id by lia. symmetry. apply Z.div_mod. lia. }
  rewrite vpow_add, vpow_mul, (proj1 (gen_order m ltac:(lia))), vpow_one. symmetry. apply (Rmul_1_l fv_ring).
Qed.

(** [P], with [2^n] coefficients, takes the values of the leaf. *)
Definition interpolates (index : Z) (n d : nat) (o : C) (leaf : list Mersenne31Field) (P : nat -> Q) : Prop :=
  forall i, (i < 2 ^ n)%nat -> exists a, leaf_element leaf i = Some a /\ reps a (pvalue n P (leaf_point index n d o i)).

Context (n d : nat) (st : FriState) (o : C) (leaf : list Mersenne31Field).
Context (Hn : (0 < n <= 5)%nat) (Hnd : (n <= d)%nat) (Hpos : fri_position st d o) (Hexp : fwf (expected_value st)).

(** What a fold with challenge [c] must do, for an interpolant [P] of the leaf. *)
Definition fold_spec (c : Q) (P : nat -> Q) (result : option FriState) : Prop :=
  match result with
  | Some st' =>
      fabs (expected_value st) = pvalue n P (emb (fabs (evaluation_point st))) /\
      reps (expected_value st') (vmul (vnat (2 ^ n)) (pvalue n P c)) /\
      domain_index st' = (domain_index st mod 2 ^ Z.of_nat (d - n))%Z /\ fri_position st' (d - n) (vpow o (2 ^ n))
  | None => fabs (expected_value st) <> pvalue n P (emb (fabs (evaluation_point st)))
  end.

Lemma frame_ok c P k h : interpolates (domain_index st) n d o leaf P ->
  TWO_ADICITY_GENERATORS_INVERSED !! d = Some (Some h) ->
  (exists v, k (domain_index st mod 2 ^ Z.of_nat (d - n))%Z h = Some v /\ reps v (vmul (vnat (2 ^ n)) (pvalue n P c))) ->
  fold_spec c P (fri_fold_frame n st leaf k).
Proof.
  intros HP Eh (v & Ek & Rv). unfold fri_fold_frame. pose proof (proj1 Hpos) as Ed. rewrite Ed.
  replace (0 <? n)%nat with true by (symmetry; apply Nat.ltb_lt; lia).
  replace (n <=? 5)%nat with true by (symmetry; apply Nat.leb_le; lia).
  replace (n <=? d)%nat with true by (symmetry; apply Nat.leb_le; lia). cbn [andb].
  rewrite Eh. cbn [mjoin option_join mbind option_bind]. rewrite !land_low.
  fold (index_in_leaf st n). destruct (HP _ (index_in_leaf_bound st n)) as (a & -> & Wa & Va). cbn [mbind option_bind].
  rewrite (leaf_point_expected st d o n Hpos Hnd) in Va.
  destruct (feq (expected_value st) a) eqn:Ef.
  - apply (feq_ok _ _ Hexp Wa) in Ef. rewrite Ek. cbn [mbind option_bind fold_spec].
    split; [congruence|]. split; [exact Rv|]. split; [reflexivity|].
    pose proof (next_position st d o n v Hpos Hnd) as Hnext. rewrite Ed in Hnext. exact Hnext.
  - cbn [fold_spec]. rewrite <- Va. intros E'. apply (feq_ok _ _ Hexp Wa) in E'. congruence.
Qed.

(** The inverses of the points of the pairs. *)
Lemma pair_inverse h h5 i : vmul (gen d) h = vone -> vmul (gen 5) h5 = vone -> (i < 2 ^ (n - 1))%nat ->
  let shared := Z.to_nat (domain_index st mod 2 ^ Z.of_nat (d - n)) in
  vmul (emb (vmul (vpow h5 (rev_bits 4 i)) (vmul (vpow h shared) (fabs (offset_inv st))))) (leaf_point (domain_index st) n d o (2 * i)) = vone.
Proof.
  intros Hh H5 Hi shared. destruct Hpos as (_ & _ & _ & _ & _ & _ & Ho).
  unfold leaf_point, points. rewrite <- embed_pow, <- !embed_mul.
  rewrite <- (embed_one (F := Mersenne31Complex) (E := Mersenne31Quartic)). f_equal.
  unfold leaf_base. fold shared.
  transitivity (vmul (vmul (vpow h5 (rev_bits 4 i)) (vpow (gen n) (rev_bits n (2 * i))))
    (vmul (vmul (vpow (gen d) shared) (vpow h shared)) (vmul o (fabs (offset_inv st))))); [ring|].
  rewrite shared_factor_inverse, inverse_pow, Ho by assumption. ring.
Qed.

Lemma leaf_unity : unity_root n (emb (gen n)).
Proof. apply embed_unity, gen_order. lia. Qed.

Lemma shared_bits_u32 : is_u32 (domain_index st mod 2 ^ Z.of_nat (d - n)).
Proof.
  destruct Hpos as (_ & Hd & _). assert (Hp : (0 < 2 ^ Z.of_nat (d - n))%Z) by (apply Z.pow_pos_nonneg; lia).
  pose proof (Z.mod_pos_bound (domain_index st) _ Hp) as Hb.
  assert (2 ^ Z.of_nat (d - n) <= 2 ^ 31)%Z by (apply Z.pow_le_mono_r; lia). unfold is_u32. lia.
Qed.

Context (shared : list Mersenne31Complex) (Hshared : SHARED_FACTORS_FOR_FOLDING = Some shared).
Context (c : Mersenne31Quartic) (Hc : fwf c).

Lemma shared_factor_lookup h5 i : TWO_ADICITY_GENERATORS_INVERSED !! 5%nat = Some (Some h5) -> (i < 2 ^ (n - 1))%nat ->
  exists t, shared !! i = Some t /\ reps t (vpow (fabs h5) (rev_bits 4 i)).
Proof.
  intros E5 Hi. destruct shared_factors_ok as (h & sh & Eh & _ & Es & Hf). rewrite Hshared in Es. injection Es as <-.
  rewrite E5 in Eh. injection Eh as <-. apply Hf.
  pose proof (Nat.pow_le_mono_r 2 (n - 1) 4 ltac:(lia) ltac:(lia)) as Hle. change (2 ^ 4)%nat with 16%nat in Hle. lia.
Qed.

Lemma plain_fold_ok challenges P : interpolates (domain_index st) n d o leaf P ->
  (forall r, (r < n)%nat -> exists x, challenges !! r = Some x /\ reps x (vpow (fabs c) (2 ^ r))) ->
  fold_spec (fabs c) P (fri_fold_by_log_n false n st leaf challenges shared).
Proof.
  intros HP Hch. destruct Hpos as (_ & Hd & _ & _ & _ & Wo & _).
  destruct (gen_table d Hd) as (h & Eh & Wh & Hh). destruct (gen_table 5 ltac:(lia)) as (h5 & E5 & _ & H5).
  apply (frame_ok _ _ _ h HP Eh). cbv beta zeta. pose proof shared_bits_u32 as Hu. rewrite u32_small by exact Hu.
  set (sb := (domain_index st mod 2 ^ Z.of_nat (d - n))%Z) in *.
  set (W i := vmul (vpow (fabs h5) (rev_bits 4 i)) (vmul (vpow (fabs h) (Z.to_nat sb)) (fabs (offset_inv st)))).
  set (fac := mul_assign (pow h sb) (offset_inv st)).
  destruct (mapM_seq_ok (fun i => t ← shared !! i; Some (mul_assign t fac)) (fun i x => reps x (W i)) (2 ^ (n - 1)))
    as (roots & -> & _ & Hroots).
  { intros i Hi. destruct (shared_factor_lookup h5 i E5 Hi) as (t & -> & Rt). eexists. split; [reflexivity|].
    apply reps_mul; [exact Rt|]. apply reps_mul; [apply reps_pow; assumption | apply reps_self, Wo]. }
  cbn [mbind option_bind].
  apply (fold_rounds_ok square reps_square _ (fun r w => vmul (emb w) (vpow (fabs c) (2 ^ r))) n) with
    (W := W) (s := emb (leaf_base (domain_index st) n d o)) (h := emb (gen n)).
  - intros r root w a b va vb Hr Rw Ra Rb. destruct (Hch r Hr) as (x & -> & Rx). cbn [mbind option_bind].
    eexists. split; [reflexivity|]. unfold fold_pair. apply reps_add; [apply reps_add; [|exact Ra] | exact Rb].
    destruct Rw as [Ww Vw]. destruct (reps_sub a b va vb Ra Rb) as [Wd Vd].
    destruct (mul_by_base_ok (sub_assign a b) root Wd Ww) as [Wm Vm]. rewrite Vd, Vw in Vm.
    replace (vmul (vsub va vb) (vmul (emb w) (vpow (fabs c) (2 ^ r)))) with
      (vmul (vmul (vsub va vb) (emb w)) (vpow (fabs c) (2 ^ r))) by ring.
    apply reps_mul; [split; [exact Wm | exact Vm] | exact Rx].
  - intros r Hr. destruct (Hch r Hr) as (x & -> & _). eexists. reflexivity.
  - intros r w. rewrite embed_mul, (Nat.pow_succ_r' 2 r), <- vpow_square, vpow_prod. ring.
  - lia.
  - lia.
  - exact leaf_unity.
  - intros _. exists roots. split; [reflexivity|]. intros i Hi. rewrite Nat.sub_0_r in Hi.
    change (2 ^ 0)%nat with 1%nat. rewrite Nat.mul_1_r. apply Hroots. exact Hi.
  - intros i _ Hi. exists (emb (W i)). split; [change (2 ^ 0)%nat with 1%nat; cbn [vpow]; ring|].
    exact (pair_inverse (fabs h) (fabs h5) i Hh H5 Hi).
  - exact HP.
Qed.

Lemma fma_fold_ok P : interpolates (domain_index st) n d o leaf P ->
  fold_spec (fabs c) P (fri_fold_by_log_n_with_fma true n st leaf c shared).
Proof.
  intros HP. destruct Hpos as (_ & Hd & _ & _ & _ & Wo & _).
  destruct (gen_table d Hd) as (h & Eh & Wh & Hh). destruct (gen_table 5 ltac:(lia)) as (h5 & E5 & _ & H5).
  apply (frame_ok _ _ _ h HP Eh). cbv beta zeta. pose proof shared_bits_u32 as Hu. rewrite u32_small by exact Hu.
  set (sb := (domain_index st mod 2 ^ Z.of_nat (d - n))%Z) in *.
  set (W i := vmul (vpow (fabs h5) (rev_bits 4 i)) (vmul (vpow (fabs h) (Z.to_nat sb)) (fabs (offset_inv st)))).
  set (fac := mul_assign_by_base (pow_with_fma true (from_base h) sb) (offset_inv st)).
  assert (Rfac : reps fac (emb (vmul (vpow (fabs h) (Z.to_nat sb)) (fabs (offset_inv st))))).
  { pose proof (from_base_ok (F := Mersenne31Complex) (E := Mersenne31Quartic) h Wh) as Rb.
    destruct (pow_with_fma_ok true _ _ sb Rb Hu) as [Wp Vp]. destruct (mul_by_base_ok _ _ Wp Wo) as [Wm Vm].
    split; [exact Wm|]. subst fac. rewrite Vm, Vp, embed_mul, embed_pow. reflexivity. }
  destruct (mapM_seq_ok (fun i => shared_factor ← shared !! i;
      Some (mul_assign_with_fma true (mul_assign_with_fma true fac (from_base shared_factor)) c))
    (fun i x => reps x (vmul (emb (W i)) (fabs c))) (2 ^ (n - 1))) as (roots & -> & _ & Hroots).
  { intros i Hi. destruct (shared_factor_lookup h5 i E5 Hi) as (t & -> & [Wt Vt]). eexists. split; [reflexivity|].
    apply mul_with_fma_ok; [|apply reps_self, Hc].
    unfold W. rewrite embed_mul. replace (vmul (emb (vpow (fabs h5) (rev_bits 4 i))) _) with
      (vmul (emb (vmul (vpow (fabs h) (Z.to_nat sb)) (fabs (offset_inv st)))) (emb (vpow (fabs h5) (rev_bits 4 i)))) by ring.
    apply mul_with_fma_ok; [exact Rfac|]. rewrite <- Vt. apply from_base_ok. exact Wt. }
  cbn [mbind option_bind].
  apply (fold_rounds_ok (square_with_fma true) (square_with_fma_ok true) _ (fun r w => w) n) with
    (W := fun i => vmul (emb (W i)) (fabs c)) (s := emb (leaf_base (domain_index st) n d o)) (h := emb (gen n)).
  - intros r root w a b va vb Hr Rw Ra Rb. eexists. split; [reflexivity|]. unfold fold_pair_with_fma.
    replace (vadd (vadd (vmul (vsub va vb) w) va) vb) with (vadd (vmul (vsub va vb) w) (vadd vb va)) by ring.
    apply fma_ok; [apply negate_and_add_ok; assumption | exact Rw | apply add_with_fma_ok; assumption].
  - intros r Hr. eexists. reflexivity.
  - reflexivity.
  - lia.
  - lia.
  - exact leaf_unity.
  - intros _. exists roots. split; [reflexivity|]. intros i Hi. rewrite Nat.sub_0_r in Hi.
    change (2 ^ 0)%nat with 1%nat. rewrite Nat.mul_1_r. apply Hroots. exact Hi.
  - intros i _ Hi. exists (emb (W i)). split; [reflexivity|]. exact (pair_inverse (fabs h) (fabs h5) i Hh H5 Hi).
  - exact HP.
Qed.
End Step.

Lemma leaf_element_ok leaf n i : length leaf = (4 * 2 ^ n)%nat -> Forall fwf leaf -> (i < 2 ^ n)%nat ->
  exists a, leaf_element leaf i = Some a /\ fwf a.
Proof.
  intros Hl Hf Hi. unfold leaf_element. set (l := take 4 (drop (4 * i) leaf)).
  assert (Hll : length l = 4%nat) by (subst l; rewrite length_take, length_drop; lia).
  assert (Hlf : Forall fwf l) by (subst l; apply Forall_take, Forall_drop; exact Hf).
  destruct l as [|a [|b [|e [|g [|]]]]]; try discriminate Hll. eexists. split; [reflexivity|].
  inversion_clear Hlf as [|? ? Ha Hlf']. inversion_clear Hlf' as [|? ? Hb Hlf]. inversion_clear Hlf as [|? ? He Hlf'].
  inversion_clear Hlf' as [|? ? Hg _]. split; split; assumption.
Qed.

Lemma half_exists : exists half : fv (F := Mersenne31Quartic), vmul half (vadd vone vone) = vone.
Proof.
  destruct (size_inverse (E := Mersenne31Quartic) 1 ltac:(lia)) as (y & u & _ & _ & Hu).
  exists (embed Mersenne31Field Mersenne31Quartic u). etransitivity; [|exact Hu].
  rewrite (Rmul_comm (fv_ring (F := Mersenne31Quartic))).
  f_equal.
Qed.

Lemma interpolant_of_leaf n d st o leaf : (n <= d)%nat -> (n <= 5)%nat -> fri_position st d o ->
  length leaf = (4 * 2 ^ n)%nat -> Forall fwf leaf -> exists P, interpolates (domain_index st) n d o leaf P.
Proof.
  intros Hnd Hn Hpos Hl Hf. destruct half_exists as [half Hhalf].
  pose (v i := match leaf_element leaf i with Some a => fabs a | None => vzero end).
  pose proof Hpos as (_ & Hd & _ & _ & _ & _ & Ho). destruct (gen_table d Hd) as (h & _ & _ & Hh).
  set (sh := Z.to_nat (domain_index st mod 2 ^ Z.of_nat (d - n))).
  destruct (interpolant_exists half Hhalf n (embed _ _ (leaf_base (domain_index st) n d o))
              (embed _ _ (vmul (fabs (offset_inv st)) (vpow (fabs h) sh))) (embed _ _ (gen n)) v) as (P & HP).
  - apply embed_unity, gen_order. lia.
  - rewrite <- embed_mul, <- (embed_one (F := Mersenne31Complex) (E := Mersenne31Quartic)). f_equal. unfold leaf_base. fold sh.
    rewrite <- (Rmul_1_l fv_ring vone). rewrite <- (inverse_pow (gen d) (fabs h) sh Hh) at 2. rewrite <- Ho.
    rewrite <- !(Rmul_assoc fv_ring). f_equal. rewrite !(Rmul_assoc fv_ring). f_equal. apply (Rmul_comm fv_ring).
  - exists P. intros i Hi. destruct (leaf_element_ok leaf n i Hl Hf Hi) as (a & Ea & Wa). exists a. split; [exact Ea|].
    split; [exact Wa|]. unfold leaf_point. rewrite HP by exact Hi. unfold v. rewrite Ea. reflexivity.
Qed.

Lemma challenge_powers_ok c r : fwf c -> (r < 5)%nat ->
  exists x, folding_challenge_powers c !! r = Some x /\ reps x (vpow (fabs c) (2 ^ r)).
Proof.
  intros Wc Hr. destruct (exp_power_of_2_ok r c Wc) as [W V]. exists (exp_power_of_2 c r). split; [|split; assumption].
  do 5 (destruct r as [|r]; [reflexivity|]). lia.
Qed.

(** One FRI step.  When the evaluation point of a query is where its indices
    say (a point of a shifted domain of size [2^d], the tree index being the
    bit-reversed domain index), then for a leaf of [2^n] field elements and a
    challenge [c]: the leaf has an interpolant of [2^n] coefficients over its
    points; and for every interpolant [P], both folding procedures (the one with
    powers of the challenge and the one of the build with a fused multiply-add)
    accept exactly when the expected value is [P] at the evaluation point, and
    then the next expected value is [2^n P(c)] and the query is again where its
    indices say, in the domain of the [2^n]-th powers. *)
Theorem fri_fold_is_interpolation n d st o leaf c shared :
  (0 < n <= 5)%nat -> (n <= d)%nat -> fri_position st d o -> fwf (expected_value st) ->
  length leaf = (4 * 2 ^ n)%nat -> Forall fwf leaf -> fwf c -> SHARED_FACTORS_FOR_FOLDING = Some shared ->
  (exists P, interpolates (domain_index st) n d o leaf P) /\
  forall P, interpolates (domain_index st) n d o leaf P ->
    fold_spec n d st o (fabs c) P (fri_fold_by_log_n false n st leaf (folding_challenge_powers c) shared) /\
    fold_spec n d st o (fabs c) P (fri_fold_by_log_n_with_fma true n st leaf c shared).
Proof.
  intros Hn Hnd Hpos He Hl Hf Wc Hs. split; [apply interpolant_of_leaf; try assumption; lia|].
  intros P HP. split; [|apply fma_fold_ok; assumption].
  apply plain_fold_ok; try assumption. intros r Hr. apply challenge_powers_ok; [exact Wc | lia].
Qed.

(** ** Queries against the codeword of a polynomial *)
Section Query.
Notation C := (fv (F := Mersenne31Complex)).
Notation Q := (fv (F := Mersenne31Quartic)).
Notation emb := (embed Mersenne31Complex Mersenne31Quartic).
Add Ring query_q_ring : (fv_ring (F := Mersenne31Quartic)).

(** The polynomial with the [L] coefficients [f], and its fold by [2^n]:
    coefficient [j] combines the block [j] of [2^n] coefficients. *)
Definition pv (L : nat) (f : nat -> Q) (x : Q) : Q := vsum L (fun k => vmul (f k) (vpow x k)).
Definition fold_poly (n : nat) (c : Q) (f : nat -> Q) (j : nat) : Q :=
  vmul (vnat (2 ^ n)) (vsum (2 ^ n) (fun k => vmul (f (j * 2 ^ n + k)%nat) (vpow c k))).

Lemma vsum_blocks a b (g : nat -> Q) : vsum (a * b) g = vsum a (fun j => vsum b (fun k => g (j * b + k)%nat)).
Proof.
  induction a as [|a IH]; [reflexivity|]. cbn [vsum]. rewrite <- IH, Nat.mul_succ_l, vsum_app. reflexivity.
Qed.

(** The remainder of [f] modulo [X^(2^n) - z], scaled. *)
Definition remainder (n L : nat) (f : nat -> Q) (kappa z : Q) (k : nat) : Q :=
  vmul kappa (vsum L (fun j => vmul (f (j * 2 ^ n + k)%nat) (vpow z j))).

Lemma remainder_value n L f kappa x : pvalue n (remainder n L f kappa (vpow x (2 ^ n))) x = vmul kappa (pv (L * 2 ^ n) f x).
Proof.
  unfold pvalue, pv, remainder. rewrite vsum_blocks, vsum_swap, <- vsum_scale. apply vsum_ext. intros k _.
  transitivity (vmul kappa (vmul (vpow x k) (vsum L (fun j => vmul (f (j * 2 ^ n + k)%nat) (vpow (vpow x (2 ^ n)) j))))); [ring|].
  f_equal. rewrite <- vsum_scale. apply vsum_ext. intros j _.
  rewrite vpow_add, (Nat.mul_comm j), vpow_mul. ring.
Qed.

Lemma remainder_fold n L f kappa z c :
  vmul (vnat (2 ^ n)) (pvalue n (remainder n L f kappa z) c) = vmul kappa (pv L (fold_poly n c f) z).
Proof.
  unfold pvalue, pv, remainder, fold_poly.
  transitivity (vmul kappa (vmul (vnat (2 ^ n)) (vsum L (fun j =>
    vsum (2 ^ n) (fun k => vmul (vmul (f (j * 2 ^ n + k)%nat) (vpow c k)) (vpow z j)))))).
  - rewrite vsum_swap.
    transitivity (vmul (vnat (2 ^ n)) (vmul kappa (vsum (2 ^ n) (fun k => vsum L (fun j =>
      vmul (vmul (f (j * 2 ^ n + k)%nat) (vpow c k)) (vpow z j)))))); [|ring].
    f_equal. rewrite <- vsum_scale. apply vsum_ext. intros k _.
    transitivity (vmul kappa (vmul (vpow c k) (vsum L (fun j => vmul (f (j * 2 ^ n + k)%nat) (vpow z j))))); [ring|].
    f_equal. rewrite <- vsum_scale. apply vsum_ext. intros j _. ring.
  - f_equal. rewrite <- vsum_scale. apply vsum_ext. intros j _.
    transitivity (vmul (vnat (2 ^ n)) (vmul (vpow z j) (vsum (2 ^ n) (fun k => vmul (f (j * 2 ^ n + k)%nat) (vpow c k))))); [|ring].
    f_equal. rewrite <- vsum_scale. apply vsum_ext. intros k _. ring.
Qed.

(** All points of a leaf have the same [2^n]-th power. *)
Lemma leaf_point_power index n d o i : (n <= 31)%nat -> vpow (leaf_point index n d o i) (2 ^ n) = vpow (emb (leaf_base index n d o)) (2 ^ n).
Proof.
  intros Hn. unfold leaf_point, points. rewrite vpow_prod.
  assert (E' : vpow (vpow (emb (gen n)) (rev_bits n i)) (2 ^ n) = vone).
  { rewrite <- vpow_mul, Nat.mul_comm, vpow_mul, <- embed_pow, (proj1 (gen_order n Hn)), embed_one. apply vpow_one. }
  rewrite E'. ring.
Qed.

(** The leafs of a query at point [index] are values of [f], scaled by [kappa],
    and of its successive folds; the last fold is in monomial form. *)
Fixpoint codeword (params : FriParameters) (schedule : list nat) (step : nat) (leaf_src : list Mersenne31Field)
    (index : Z) (d : nat) (o : C) (L : nat) (f : nat -> Q) (kappa : Q) : Prop :=
  match schedule with
  | [] => (0 < L)%nat /\ length (monomial_coeffs params) = L /\ Forall fwf (monomial_coeffs params) /\
          forall k, (k < L)%nat -> coefficient (monomial_coeffs params) k = f k
  | n :: schedule' => (0 < n <= 5)%nat /\ (n <= d)%nat /\ exists L' c leaf rest,
      L = (L' * 2 ^ n)%nat /\ fri_folding_challenges params !! step = Some c /\ fwf c /\
      leaf_projection params step n (bitrev d index) leaf_src = Some (leaf, rest) /\
      (forall i, (i < 2 ^ n)%nat -> exists a, leaf_element leaf i = Some a /\
         reps a (vmul kappa (pv L f (leaf_point index n d o i)))) /\
      codeword params schedule' (S step) rest (index mod 2 ^ Z.of_nat (d - n)) (d - n) (vpow o (2 ^ n)) L'
        (fold_poly n (fabs c) f) kappa
  end.

Context (modular_ext4_ops : bool) (shared : list Mersenne31Complex) (Hshared : SHARED_FACTORS_FOR_FOLDING = Some shared).
Context (params : FriParameters) (kappa : Q).

Lemma fri_steps_ok schedule : forall step leaf_src st d o L f, fri_position st d o ->
  reps (expected_value st) (vmul kappa (pv L f (emb (fabs (evaluation_point st))))) ->
  codeword params schedule step leaf_src (domain_index st) d o L f kappa ->
  exists st' L' f', fri_steps modular_ext4_ops shared params schedule step st leaf_src = Some st' /\
    fwf (evaluation_point st') /\
    reps (expected_value st') (vmul kappa (pv L' f' (emb (fabs (evaluation_point st'))))) /\
    (0 < L')%nat /\ length (monomial_coeffs params) = L' /\ Forall fwf (monomial_coeffs params) /\
    forall k, (k < L')%nat -> coefficient (monomial_coeffs params) k = f' k.
Proof.
  induction schedule as [|n schedule IH]; intros step leaf_src st d o L f Hpos He Hcode; cbn [fri_steps].
  - exists st, L, f. split; [reflexivity|]. split; [apply Hpos|]. split; [exact He|]. exact Hcode.
  - destruct Hcode as (Hn & Hnd & L' & c & leaf & rest & -> & Ec & Wc & El & Hleaf & Hcode).
    pose proof Hpos as (_ & Hd & _ & Et & _). rewrite Et, El. cbn [mbind option_bind]. rewrite Ec. cbn [mbind option_bind].
    set (z := vpow (emb (fabs (evaluation_point st))) (2 ^ n)).
    assert (Ez : forall i, vpow (leaf_point (domain_index st) n d o i) (2 ^ n) = z).
    { intros i. subst z. rewrite <- (leaf_point_expected st d o n Hpos Hnd), !leaf_point_power by lia. reflexivity. }
    assert (HP : interpolates (domain_index st) n d o leaf (remainder n L' f kappa z)).
    { intros i Hi. destruct (Hleaf i Hi) as (a & Ea & Ra). exists a. split; [exact Ea|].
      rewrite <- (Ez i), remainder_value. exact Ra. }
    set (result := if modular_ext4_ops then _ else _).
    assert (Hspec : fold_spec n d st o (fabs c) (remainder n L' f kappa z) result).
    { subst result. destruct modular_ext4_ops.
      - apply fma_fold_ok; try assumption. apply He.
      - apply plain_fold_ok; try assumption; [apply He|]. intros r Hr. apply challenge_powers_ok; [exact Wc | lia]. }
    destruct result as [st1|]; cbn [fold_spec] in Hspec.
    + destruct Hspec as (_ & Re & Ei & Hpos1). cbn [mbind option_bind]. rewrite remainder_fold in Re.
      apply (IH (S step) rest st1 (d - n)%nat (vpow o (2 ^ n)) L' (fold_poly n (fabs c) f) Hpos1); [|rewrite Ei; exact Hcode].
      replace (emb (fabs (evaluation_point st1))) with z; [exact Re|]. subst z. rewrite <- embed_pow. f_equal.
      symmetry. apply (next_point st st1 d o n); assumption.
    + exfalso. apply Hspec. subst z. rewrite remainder_value. apply He.
Qed.
End Query.

Section Acceptance.
Notation C := (fv (F := Mersenne31Complex)).
Notation Q := (fv (F := Mersenne31Quartic)).
Notation emb := (embed Mersenne31Complex Mersenne31Quartic).
Add Ring acceptance_ring : (fv_ring (F := Mersenne31Quartic)).

Lemma horner_fma_ok (x : Mersenne31Quartic) u last l : reps x u -> fwf last -> Forall fwf l ->
  reps (fold_left (fun value c => fma_implementation value x c) (rev l) last) (poly_value (l ++ [last]) u).
Proof.
  intros Hx Hlast Hl. rewrite <- (fold_left_rev_right (fun c value => fma_implementation value x c)), rev_involutive. induction Hl as [|c l Hc Hl IH]; cbn [foldr app poly_value].
  - replace (vadd (fabs last) (vmul u vzero)) with (fabs last) by ring. apply reps_self, Hlast.
  - change (foldr _ vzero (l ++ [last])) with (poly_value (l ++ [last]) u).
    replace (vadd (fabs c) (vmul u (poly_value (l ++ [last]) u))) with (vadd (vmul (poly_value (l ++ [last]) u) u) (fabs c)) by ring.
    apply fma_ok; [exact IH | exact Hx | apply reps_self, Hc].
Qed.

Lemma horner_plain_ok (x : Mersenne31Complex) l : fwf x -> Forall fwf l ->
  reps (fold_left (fun value c => mul_assign_by_base (add_assign value c) x) (rev l) (ZERO : Mersenne31Quartic))
       (vmul (emb (fabs x)) (poly_value l (emb (fabs x)))).
Proof.
  intros Hx Hl.
  rewrite <- (fold_left_rev_right (fun c (value : Mersenne31Quartic) => mul_assign_by_base (add_assign value c) x)), rev_involutive. induction Hl as [|c l Hc Hl IH]; cbn [foldr poly_value].
  - replace (vmul (emb (fabs x)) vzero) with (vzero : Q) by ring. apply reps_zero.
  - destruct (reps_add _ _ _ _ IH (reps_self c Hc)) as [Wa Va]. destruct (mul_by_base_ok _ x Wa Hx) as [Wm Vm].
    split; [exact Wm|]. rewrite Vm, Va. change (foldr _ vzero l) with (poly_value l (emb (fabs x))). ring.
Qed.

Lemma evaluate_monomial_ok modular_ext4_ops coeffs (x : Mersenne31Complex) : fwf x -> Forall fwf coeffs -> coeffs <> [] ->
  exists v, evaluate_monomial_form modular_ext4_ops coeffs x = Some v /\ reps v (poly_value coeffs (emb (fabs x))).
Proof.
  intros Hx Hc Hne. unfold evaluate_monomial_form. destruct modular_ext4_ops.
  - destruct (exists_last Hne) as (l & last & ->). rewrite rev_app_distr. cbn [rev app]. eexists. split; [reflexivity|].
    apply Forall_app in Hc. destruct Hc as [Hl Hlast]. inversion_clear Hlast.
    apply horner_fma_ok; [apply from_base_ok; exact Hx | assumption | assumption].
  - destruct coeffs as [|c l]; [contradiction|]. inversion_clear Hc as [|? ? Hcc Hl]. eexists. split; [reflexivity|].
    cbn [poly_value foldr]. change (foldr _ vzero l) with (poly_value l (emb (fabs x))).
    replace (vadd (fabs c) (vmul (emb (fabs x)) (poly_value l (emb (fabs x))))) with
      (vadd (vmul (emb (fabs x)) (poly_value l (emb (fabs x)))) (fabs c)) by ring.
    apply reps_add; [apply horner_plain_ok; assumption | apply reps_self, Hcc].
Qed.

(** C27: Completeness of the FRI part of a query, in both builds.  When the value
    the query starts from is that of a polynomial at its evaluation point, the
    leafs it reads (from the query or, in the last step, exposed by the skeleton)
    hold values of that polynomial and of its successive folds by the challenges,
    scaled by the factor of the coset, and the monomial coefficients are those of
    the last fold, then every assertion of the query succeeds. *)
Theorem fri_query_accepts_codeword modular_ext4_ops params tau tau_inv st leafs d o L f :
  fri_position st d o -> reps (expected_value st) (pv L f (emb (fabs (evaluation_point st)))) ->
  fwf tau -> fwf tau_inv -> vmul (fabs tau) (fabs tau_inv) = vone ->
  codeword params (FRI_FOLDING_SCHEDULE params) 0 leafs (domain_index st) d o L f (emb (fabs tau_inv)) ->
  fri_query modular_ext4_ops params tau tau_inv st leafs = Some tt.
Proof.
  intros Hpos [We Ve] Wt Wti Ht Hcode. unfold fri_query. destruct shared_factors_ok as (h & shared & _ & _ & Es & _).
  rewrite Es. cbn [mbind option_bind].
  set (st0 := {| expected_value := mul_assign_by_base (expected_value st) tau_inv;
               evaluation_point := evaluation_point st; domain_size_log_2 := domain_size_log_2 st;
               domain_index := domain_index st; tree_index := tree_index st; offset_inv := offset_inv st |}).
  destruct (mul_by_base_ok (expected_value st) tau_inv We Wti) as [Wm Vm].
  destruct (fri_steps_ok modular_ext4_ops shared Es params (emb (fabs tau_inv)) (FRI_FOLDING_SCHEDULE params)
              0 leafs st0 d o L f) as (st' & L' & f' & -> & Wp & [Wv Vv] & HL & Hlen & Hf & Hcoef); [exact Hpos | | exact Hcode |].
  { split; [exact Wm|]. cbn [expected_value evaluation_point st0]. rewrite Vm, Ve. ring. }
  cbn [mbind option_bind].
  destruct (evaluate_monomial_ok modular_ext4_ops (monomial_coeffs params) (evaluation_point st') Wp Hf) as (v & -> & [Wr Vr]).
  { intros E'. rewrite E' in Hlen. cbn in Hlen. lia. }
  cbn [mbind option_bind]. destruct (mul_by_base_ok (expected_value st') tau Wv Wt) as [Wm' Vm'].
  replace (feq v (mul_assign_by_base (expected_value st') tau)) with true; [reflexivity|]. symmetry.
  apply feq_ok; [exact Wr | exact Wm' |]. rewrite Vm', Vv, Vr, poly_value_sum, Hlen.
  rewrite (vsum_ext L' _ (fun i => vmul (f' i) (vpow (emb (fabs (evaluation_point st'))) i)))
    by (intros k Hk; rewrite Hcoef by exact Hk; reflexivity).
  fold (pv L' f' (emb (fabs (evaluation_point st')))). set (y := pv L' f' _).
  transitivity (vmul (vmul (emb (fabs tau)) (emb (fabs tau_inv))) y); [|ring].
  rewrite <- embed_mul, Ht, embed_one. ring.
Qed.
End Acceptance.

(** The branch of [fri_fold_by_log_n] under [PREFER_FMA], which the verifier
    never takes, is not the fold: its fused multiply-adds have the accumulator
    and the last operand the wrong way round, so the difference of the pair is
    lost. *)
Lemma unused_fma_branch challenge root a b : fwf challenge -> fwf root -> fwf a -> fwf b ->
  fabs (fold_pair true challenge root a b) =
  vadd (vadd (vmul (fabs a) (embed Mersenne31Complex Mersenne31Quartic (fabs root))) (fabs challenge)) (fabs b).
Proof.
  intros Hc Hr Ha Hb. unfold fold_pair.
  pose proof (from_base_ok (F := Mersenne31Complex) (E := Mersenne31Quartic) root Hr) as Rr.
  pose proof (fma_ok ZERO (sub_assign a b) _ _ _ _ reps_zero (reps_sub a b _ _ (reps_self a Ha) (reps_self b Hb)) Rr) as Rt.
  pose proof (fma_ok a _ challenge _ _ _ (reps_self a Ha) Rt (reps_self challenge Hc)) as Rf.
  destruct (reps_add _ b _ _ Rf (reps_self b Hb)) as [_ V]. etransitivity; [exact V|]. do 3 f_equal.
  rewrite (ring_mul_0_l (fv_ring (F := Mersenne31Quartic))). apply (Radd_0_l (fv_ring (F := Mersenne31Quartic))).
Qed.

(** A query of a constant polynomial over the domain of size 2, folded once. *)
Section Sample.
Notation Q := (fv (F := Mersenne31Quartic)).
Add Ring sample_ring : (fv_ring (F := Mersenne31Quartic)).

Definition sample_constant : Mersenne31Quartic := sample_coefficient 5 6 7 8.
Definition sample_challenge : Mersenne31Quartic := sample_coefficient 1 2 3 4.
Definition sample_leaf : list Mersenne31Field := [5; 6; 7; 8; 5; 6; 7; 8].

Definition fri_sample_state : FriState :=
  {| expected_value := sample_constant; evaluation_point := exp_power_of_2 Complex.TWO_ADIC_GENERATOR 30;
     domain_size_log_2 := 1; domain_index := 1; tree_index := 1; offset_inv := ONE |}.

Definition fri_sample_params : FriParameters :=
  {| FRI_FOLDING_SCHEDULE := [1%nat]; LAST_FRI_STEP_EXPOSE_LEAFS := false;
     fri_folding_challenges := [sample_challenge]; fri_final_step_leafs := [];
     monomial_coeffs := [double sample_constant] |}.

Lemma sample_coefficient_wf a b c d : repr a -> repr b -> repr c -> repr d -> fwf (sample_coefficient a b c d).
Proof. intros Ha Hb Hc Hd. split; split; assumption. Qed.

Lemma fri_sample_position : fri_position fri_sample_state 1 vone.
Proof.
  split; [reflexivity|]. split; [lia|]. split; [cbn; lia|]. split; [reflexivity|]. split.
  - destruct (exp_power_of_2_ok 30 Complex.TWO_ADIC_GENERATOR generator_wf) as [W V]. split; [exact W|].
    etransitivity; [exact V|]. change (Z.to_nat (domain_index fri_sample_state)) with 1%nat. unfold gen.
    change (31 - 1)%nat with 30%nat. cbn [vpow]. rewrite (Rmul_1_l fv_ring), (Rmul_comm fv_ring), (Rmul_1_l fv_ring). reflexivity.
  - destruct (ONE_ok (F := Mersenne31Complex)) as [W V]. split; [exact W|]. cbn [offset_inv fri_sample_state]. rewrite V.
    apply (Rmul_1_l fv_ring).
Qed.

Lemma sample_leaf_wf : Forall fwf sample_leaf.
Proof. repeat constructor; cbn; unfold repr, ORDER; lia. Qed.

Lemma sample_constant_wf : fwf sample_constant.
Proof. apply sample_coefficient_wf; unfold repr, ORDER; lia. Qed.

Lemma sample_challenge_wf : fwf sample_challenge.
Proof. apply sample_coefficient_wf; unfold repr, ORDER; lia. Qed.

Lemma fri_fold_is_interpolation_witness : exists shared P, SHARED_FACTORS_FOR_FOLDING = Some shared /\
  interpolates 1 1 1 vone sample_leaf P /\
  fold_spec 1 1 fri_sample_state vone (fabs sample_challenge) P
    (fri_fold_by_log_n_with_fma true 1 fri_sample_state sample_leaf sample_challenge shared).
Proof.
  destruct shared_factors_ok as (h & shared & _ & _ & Es & _). exists shared.
  destruct (fri_fold_is_interpolation 1 1 fri_sample_state vone sample_leaf sample_challenge shared ltac:(lia) ltac:(lia)
              fri_sample_position sample_constant_wf eq_refl sample_leaf_wf sample_challenge_wf Es) as [[P HP] Hspec].
  exists P. split; [exact Es|]. split; [exact HP|]. apply (Hspec P HP).
Defined.

Definition sample_poly (k : nat) : Q := if (k =? 0)%nat then fabs sample_constant else vzero.

Lemma sample_poly_value x : pv 2 sample_poly x = fabs sample_constant.
Proof. unfold pv, sample_poly. cbn [vsum Nat.eqb vpow]. ring. Qed.

Lemma sample_codeword : codeword fri_sample_params [1%nat] 0 sample_leaf 1 1 vone 2 sample_poly vone.
Proof.
  split; [lia|]. split; [lia|]. exists 1%nat, sample_challenge, sample_leaf, []. split; [reflexivity|]. split; [reflexivity|].
  split; [exact sample_challenge_wf|]. split; [reflexivity|]. split.
  - intros i Hi. change (2 ^ 1)%nat with 2%nat in Hi. exists sample_constant.
    split; [destruct i as [|[|i]]; [reflexivity | reflexivity | lia]|]. rewrite sample_poly_value.
    replace (vmul vone (fabs sample_constant)) with (fabs sample_constant) by ring. apply reps_self, sample_constant_wf.
  - destruct (double_ok _ sample_constant_wf) as [W V]. split; [lia|]. split; [reflexivity|]. split; [repeat constructor; apply W|].
    intros k Hk. replace k with 0%nat by lia. unfold coefficient. cbn [monomial_coeffs fri_sample_params lookup list_lookup].
    etransitivity; [exact V|]. unfold fold_poly, sample_poly, vnat. change (2 ^ 1)%nat with 2%nat. cbn [vsum Nat.eqb Nat.mul Nat.add vpow]. ring.
Qed.

Lemma fri_query_accepts_codeword_witness :
  fri_query false fri_sample_params ONE ONE fri_sample_state sample_leaf = Some tt /\
  fri_query true fri_sample_params ONE ONE fri_sample_state sample_leaf = Some tt.
Proof.
  destruct (ONE_ok (F := Mersenne31Complex)) as [W V].
  assert (Hv : reps (expected_value fri_sample_state)
    (pv 2 sample_poly (embed Mersenne31Complex Mersenne31Quartic (fabs (evaluation_point fri_sample_state))))).
  { rewrite sample_poly_value. apply reps_self, sample_constant_wf. }
  assert (H1v : vmul (fabs (ONE : Mersenne31Complex)) (fabs (ONE : Mersenne31Complex)) = vone) by (rewrite V; apply (Rmul_1_l fv_ring)).
  split; apply (fri_query_accepts_codeword _ fri_sample_params ONE ONE fri_sample_state sample_leaf 1 vone 2 sample_poly
           fri_sample_position Hv W W H1v); rewrite V, embed_one; exact sample_codeword.
Defined.
End Sample.
