(* ===== verification/Deep.v ===== *)
(** * The DEEP consistency check

    [verifier/src/utils.rs]: the value of the DEEP polynomial at a query's
    point, from the openings at [z] and [z * omega] and the leafs of the query.
    The build with a fused multiply-add walks backwards with Horner's rule, the
    other one forwards with precomputed powers of the challenge.  [None] is an
    index outside of its array. *)
From stdpp Require Import base list strings.
From Stdlib Require Import ZArith Lia.
From S2P Require Import Prelude MachineInt Worker BitReverse Field FieldExt FieldTraits Powers Ntt Fft Fri.

Import Quartic (Mersenne31Quartic, fma_implementation, from_array_of_base).
Import Complex (Mersenne31Complex).

(** ** Definitions *)

(** The part of the circuit's layout these functions read. *)
Record VerifierLayout : Type := {
  num_base_field_polys : nat;
  ext4_polys_offset : nat;
  MEMORY_GRAND_PRODUCT_ACCUMULATOR_POLY_INDEX : nat;
  WITNESS_NEXT_ROW_OPENING_INDEXES : list nat;
  MEMORY_NEXT_ROW_OPENING_INDEXES : list nat;
}.

(** The leafs of a query's row. *)
Record QueryRow : Type := {
  setup_leaf : list Mersenne31Field;
  witness_leaf : list Mersenne31Field;
  memory_leaf : list Mersenne31Field;
  stage_2_leaf : list Mersenne31Field;
  quotient_leaf : list Mersenne31Field;
}.

(** [as_chunks::<4>().0] as extension field elements: a last incomplete chunk is
    dropped. *)
Fixpoint ext4_chunks (l : list Mersenne31Field) : list Mersenne31Quartic :=
  match l with
  | a :: b :: c :: d :: rest =>
      {| Quartic.c0 := {| Complex.c0 := a; Complex.c1 := b |};
         Quartic.c1 := {| Complex.c0 := c; Complex.c1 := d |} |} :: ext4_chunks rest
  | _ => []
  end.

(** *** Forwards, with powers of the challenge *)

(** One loop: the powers it stores, the sum, and the next power. *)
Fixpoint accumulate_evals (evals : list Mersenne31Quartic) (alpha current acc : Mersenne31Quartic)
    : list Mersenne31Quartic * Mersenne31Quartic * Mersenne31Quartic :=
  match evals with
  | [] => ([], acc, current)
  | eval :: rest =>
      let t := mul_assign current eval in
      let '(powers, acc', current') := accumulate_evals rest alpha (mul_assign current alpha) (add_assign acc t) in
      (current :: powers, acc', current')
  end.

(** The powers and the two sums. *)
Definition precompute_for_consistency_checks (openings_at_z openings_at_z_omega : list Mersenne31Quartic)
    (deep_poly_alpha : Mersenne31Quartic) : list Mersenne31Quartic * (Mersenne31Quartic * Mersenne31Quartic) :=
  let '(powers, precompute_with_evals_at_z, current) := accumulate_evals openings_at_z deep_poly_alpha ONE ZERO in
  let '(powers', precompute_with_evals_at_z_omega, _) := accumulate_evals openings_at_z_omega deep_poly_alpha current ZERO in
  (powers ++ powers', (precompute_with_evals_at_z, precompute_with_evals_at_z_omega)).

(** A loop over leaf elements: [i] indexes the powers. *)
Fixpoint accumulate {A} (times : Mersenne31Quartic -> A -> Mersenne31Quartic) (powers : list Mersenne31Quartic)
    (leaf : list A) (s : nat * Mersenne31Quartic) : option (nat * Mersenne31Quartic) :=
  match leaf with
  | [] => Some s
  | leaf_el :: rest =>
      let '(i, acc) := s in
      t ← powers !! i;
      accumulate times powers rest (S i, add_assign acc (times t leaf_el))
  end.

(** The elements of the next row that are opened at [z * omega]. *)
Definition pick (leaf : list Mersenne31Field) (indexes : list nat) : option (list Mersenne31Field) :=
  mapM (fun index => leaf !! index) indexes.

Definition accumulator_leaf_el (layout : VerifierLayout) (query : QueryRow) : option Mersenne31Quartic :=
  let offset := (ext4_polys_offset layout
                 + (MEMORY_GRAND_PRODUCT_ACCUMULATOR_POLY_INDEX layout - num_base_field_polys layout) * 4)%nat in
  head (ext4_chunks (drop offset (stage_2_leaf query))).

Definition accumulate_over_row_for_consistency_check (layout : VerifierLayout)
    (precompute_with_evals_at_z precompute_with_evals_at_z_omega : Mersenne31Quartic) (query : QueryRow)
    (powers_of_deep_quotient_challenge : list Mersenne31Quartic)
    (divisor_for_z divisor_for_z_omega : Mersenne31Quartic)
    (tau_in_domain_by_half tau_in_domain_by_half_inversed : Mersenne31Complex) : option Mersenne31Quartic :=
  let powers := powers_of_deep_quotient_challenge in
  let base := mul_assign_by_base (F := Mersenne31Field) in
  s ← accumulate base powers (setup_leaf query) (0%nat, ZERO);
  s ← accumulate base powers (witness_leaf query) s;
  s ← accumulate base powers (memory_leaf query) s;
  s ← (if (num_base_field_polys layout <=? length (stage_2_leaf query))%nat
       then accumulate base powers (take (num_base_field_polys layout) (stage_2_leaf query)) s else None);
  s ← (if (ext4_polys_offset layout <=? length (stage_2_leaf query))%nat
       then accumulate mul_assign powers (ext4_chunks (drop (ext4_polys_offset layout) (stage_2_leaf query))) s else None);
  quotient ← from_array_of_base (quotient_leaf query);
  '(i, accumulated_at_z) ← accumulate (fun t leaf_el => mul_assign_by_base (mul_assign t leaf_el) tau_in_domain_by_half_inversed)
                             powers [quotient] s;
  let accumulated_at_z := mul_assign_by_base accumulated_at_z tau_in_domain_by_half in
  let simulated_from_z := mul_assign (sub_assign precompute_with_evals_at_z accumulated_at_z) divisor_for_z in
  witness_next ← pick (witness_leaf query) (WITNESS_NEXT_ROW_OPENING_INDEXES layout);
  s ← accumulate base powers witness_next (i, ZERO);
  memory_next ← pick (memory_leaf query) (MEMORY_NEXT_ROW_OPENING_INDEXES layout);
  s ← accumulate base powers memory_next s;
  leaf_el ← accumulator_leaf_el layout query;
  '(_, accumulated_at_z_omega) ← accumulate mul_assign powers [leaf_el] s;
  let accumulated_at_z_omega := mul_assign_by_base accumulated_at_z_omega tau_in_domain_by_half in
  let simulated_from_z_omega :=
    mul_assign (sub_assign precompute_with_evals_at_z_omega accumulated_at_z_omega) divisor_for_z_omega in
  Some (add_assign simulated_from_z simulated_from_z_omega).

(** *** Backwards, with the fused multiply-add *)

(** [while i > 0 { i -= 1; acc.fused_mul_add_assign(alpha, el(i)) }] *)
Definition horner {A} (el : A -> Mersenne31Quartic) (alpha : Mersenne31Quartic) (l : list A) (acc : Mersenne31Quartic)
    : Mersenne31Quartic :=
  fold_left (fun acc x => fma_implementation acc alpha (el x)) (rev l) acc.

Definition precompute_for_consistency_checks_with_fma (openings_at_z openings_at_z_omega : list Mersenne31Quartic)
    (deep_poly_alpha : Mersenne31Quartic) : Mersenne31Quartic * (Mersenne31Quartic * Mersenne31Quartic) :=
  let precompute_with_evals_at_z := horner id deep_poly_alpha openings_at_z ZERO in
  let precompute_with_evals_at_z_omega := horner id deep_poly_alpha openings_at_z_omega ZERO in
  let extra_factor_for_accumulation_at_z_omega :=
    pow_with_fma true deep_poly_alpha (u32 (Z.of_nat (length openings_at_z))) in
  (extra_factor_for_accumulation_at_z_omega,
   (precompute_with_evals_at_z,
    mul_assign_with_fma true precompute_with_evals_at_z_omega extra_factor_for_accumulation_at_z_omega)).

(** [leaf_value.c0.c0 = el], the other coefficients being zero *)
Definition leaf_value (el : Mersenne31Field) : Mersenne31Quartic :=
  {| Quartic.c0 := {| Complex.c0 := el; Complex.c1 := ZERO |}; Quartic.c1 := ZERO |}.

Definition accumulate_over_row_for_consistency_check_with_fma (layout : VerifierLayout)
    (precompute_with_evals_at_z precompute_with_evals_at_z_omega : Mersenne31Quartic) (query : QueryRow)
    (deep_poly_alpha extra_factor_for_accumulation_at_z_omega divisor_for_z divisor_for_z_omega : Mersenne31Quartic)
    (tau_in_domain_by_half tau_in_domain_by_half_inversed : Mersenne31Complex) : option Mersenne31Quartic :=
  let alpha := deep_poly_alpha in
  quotient ← from_array_of_base (quotient_leaf query);
  let acc := mul_assign_by_base quotient tau_in_domain_by_half_inversed in
  acc ← (if (ext4_polys_offset layout <=? length (stage_2_leaf query))%nat
         then Some (horner id alpha (ext4_chunks (drop (ext4_polys_offset layout) (stage_2_leaf query))) acc) else None);
  acc ← (if (num_base_field_polys layout <=? length (stage_2_leaf query))%nat
         then Some (horner leaf_value alpha (take (num_base_field_polys layout) (stage_2_leaf query)) acc) else None);
  let acc := horner leaf_value alpha (memory_leaf query) acc in
  let acc := horner leaf_value alpha (witness_leaf query) acc in
  let acc := horner leaf_value alpha (setup_leaf query) acc in
  let accumulated_at_z := mul_assign_by_base acc tau_in_domain_by_half in
  let simulated_from_z := mul_assign (sub_assign precompute_with_evals_at_z accumulated_at_z) divisor_for_z in
  leaf_el ← accumulator_leaf_el layout query;
  memory_next ← pick (memory_leaf query) (MEMORY_NEXT_ROW_OPENING_INDEXES layout);
  let acc := horner leaf_value alpha memory_next leaf_el in
  witness_next ← pick (witness_leaf query) (WITNESS_NEXT_ROW_OPENING_INDEXES layout);
  let acc := horner leaf_value alpha witness_next acc in
  let acc := mul_assign_with_fma true acc extra_factor_for_accumulation_at_z_omega in
  let accumulated_at_z_omega := mul_assign_by_base acc tau_in_domain_by_half in
  let simulated_from_z_omega :=
    mul_assign (sub_assign precompute_with_evals_at_z_omega accumulated_at_z_omega) divisor_for_z_omega in
  Some (add_assign simulated_from_z simulated_from_z_omega).

(** The precomputation and the accumulation as [verify_with_configuration]
    combines them: the value a query expects of the first FRI oracle. *)
Definition deep_value (modular_ext4_ops : bool) (layout : VerifierLayout)
    (openings_at_z openings_at_z_omega : list Mersenne31Quartic) (deep_poly_alpha : Mersenne31Quartic) (query : QueryRow)
    (divisor_for_z divisor_for_z_omega : Mersenne31Quartic)
    (tau_in_domain_by_half tau_in_domain_by_half_inversed : Mersenne31Complex) : option Mersenne31Quartic :=
  if modular_ext4_ops then
    let '(extra_factor, (at_z, at_z_omega)) :=
      precompute_for_consistency_checks_with_fma openings_at_z openings_at_z_omega deep_poly_alpha in
    accumulate_over_row_for_consistency_check_with_fma layout at_z at_z_omega query deep_poly_alpha extra_factor
      divisor_for_z divisor_for_z_omega tau_in_domain_by_half tau_in_domain_by_half_inversed
  else
    let '(powers, (at_z, at_z_omega)) :=
      precompute_for_consistency_checks openings_at_z openings_at_z_omega deep_poly_alpha in
    accumulate_over_row_for_consistency_check layout at_z at_z_omega query powers
      divisor_for_z divisor_for_z_omega tau_in_domain_by_half tau_in_domain_by_half_inversed.

(** ** Linear combinations *)
Section Combination.
Notation Q := (fv (F := Mersenne31Quartic)).
Notation embF := (embed Mersenne31Field Mersenne31Quartic).
Notation embC := (embed Mersenne31Complex Mersenne31Quartic).
Add Ring combination_ring : (fv_ring (F := Mersenne31Quartic)).

(** [l_0 + a l_1 + a^2 l_2 + ...] *)
Definition vcomb (a : Q) (l : list Q) : Q := foldr (fun v acc => vadd v (vmul a acc)) vzero l.

Lemma vcomb_app a l1 l2 : vcomb a (l1 ++ l2) = vadd (vcomb a l1) (vmul (vpow a (length l1)) (vcomb a l2)).
Proof.
  induction l1 as [|v l1 IH].
  { cbn [app length vpow]. change (vcomb a []) with (vzero : Q). ring. }
  cbn [vcomb foldr app length vpow].
  change (foldr _ vzero (l1 ++ l2)) with (vcomb a (l1 ++ l2)). change (foldr _ vzero l1) with (vcomb a l1). rewrite IH. ring.
Qed.

Context (alpha : Mersenne31Quartic) (a : Q) (Halpha : reps alpha a).

Lemma accumulate_evals_ok evals : Forall fwf evals -> forall current acc c s, reps current c -> reps acc s ->
  exists powers acc' current', accumulate_evals evals alpha current acc = (powers, acc', current') /\
    reps acc' (vadd s (vmul c (vcomb a (map fabs evals)))) /\ reps current' (vmul c (vpow a (length evals))) /\
    length powers = length evals /\
    forall i, (i < length evals)%nat -> exists t, powers !! i = Some t /\ reps t (vmul c (vpow a i)).
Proof.
  induction 1 as [|eval evals He Hes IH]; intros current acc c s Hc Hs; cbn [accumulate_evals].
  - exists [], acc, current. cbn [map vcomb foldr length vpow]. split; [reflexivity|]. split; [replace (vadd s _) with s by ring; exact Hs|].
    split; [replace (vmul c vone) with c by ring; exact Hc|]. split; [reflexivity | intros i Hi; lia].
  - destruct (IH _ _ _ _ (reps_mul _ _ _ _ Hc Halpha) (reps_add _ _ _ _ Hs (reps_mul _ _ _ _ Hc (reps_self _ He))))
      as (powers & acc' & current' & -> & Ra & Rc & Hl & Hp).
    exists (current :: powers), acc', current'. split; [reflexivity|]. cbn [map vcomb foldr length vpow].
    change (foldr _ vzero (map fabs evals)) with (vcomb a (map fabs evals)). split; [|split; [|split]].
    + replace (vadd s _) with (vadd (vadd s (vmul c (fabs eval))) (vmul (vmul c a) (vcomb a (map fabs evals)))) by ring. exact Ra.
    + replace (vmul c _) with (vmul (vmul c a) (vpow a (length evals))) by ring. exact Rc.
    + lia.
    + intros [|i] Hi; [exists current; split; [reflexivity|]; cbn [vpow]; replace (vmul c vone) with c by ring; exact Hc|].
      destruct (Hp i ltac:(lia)) as (t & Et & Rt). exists t. split; [exact Et|]. cbn [vpow].
      replace (vmul c _) with (vmul (vmul c a) (vpow a i)) by ring. exact Rt.
Qed.

(** The powers of the challenge, up to the [N]-th. *)
Definition powers_ok (N : nat) (powers : list Mersenne31Quartic) : Prop :=
  forall i, (i < N)%nat -> exists t, powers !! i = Some t /\ reps t (vpow a i).

Lemma accumulate_ok {A} (times : Mersenne31Quartic -> A -> Mersenne31Quartic) (val : A -> Q) N powers leaf :
  powers_ok N powers -> (forall t v x, x ∈ leaf -> reps t v -> reps (times t x) (vmul v (val x))) ->
  forall i acc s, reps acc s -> (i + length leaf <= N)%nat ->
  exists acc', accumulate times powers leaf (i, acc) = Some ((i + length leaf)%nat, acc') /\
    reps acc' (vadd s (vmul (vpow a i) (vcomb a (map val leaf)))).
Proof.
  intros Hp. induction leaf as [|x leaf IH]; intros Ht i acc s Hs Hi; cbn [accumulate].
  - exists acc. rewrite Nat.add_0_r. split; [reflexivity|]. cbn [map vcomb foldr]. replace (vadd s _) with s by ring. exact Hs.
  - cbn [length] in Hi. destruct (Hp i ltac:(lia)) as (t & -> & Rt). cbn [mbind option_bind].
    pose proof (Ht t _ x (list_elem_of_here _ _) Rt) as Rx.
    destruct (IH (fun t v y Hy => Ht t v y (list_elem_of_further _ _ _ Hy)) (S i) _ _ (reps_add _ _ _ _ Hs Rx) ltac:(lia)) as (acc' & -> & Ra).
    exists acc'. cbn [length]. rewrite Nat.add_succ_r. split; [reflexivity|]. cbn [map vcomb foldr].
    change (foldr _ vzero (map val leaf)) with (vcomb a (map val leaf)).
    replace (vadd s _) with (vadd (vadd s (vmul (vpow a i) (val x))) (vmul (vpow a (S i)) (vcomb a (map val leaf))))
      by (cbn [vpow]; ring). exact Ra.
Qed.

Lemma horner_ok {A} (el : A -> Mersenne31Quartic) (val : A -> Q) l acc s :
  (forall x, x ∈ l -> reps (el x) (val x)) -> reps acc s ->
  reps (horner el alpha l acc) (vadd (vcomb a (map val l)) (vmul (vpow a (length l)) s)).
Proof.
  intros Hl Hs. unfold horner. rewrite <- (fold_left_rev_right (fun x acc => fma_implementation acc alpha (el x))), rev_involutive.
  induction l as [|x l IH]; cbn [foldr map vcomb length vpow].
  - replace (vadd vzero _) with s by ring. exact Hs.
  - change (foldr _ vzero (map val l)) with (vcomb a (map val l)).
    replace (vadd (vadd (val x) _) _) with
      (vadd (vmul (vadd (vcomb a (map val l)) (vmul (vpow a (length l)) s)) a) (val x)) by ring.
    apply fma_ok; [apply IH; intros y Hy; apply Hl, list_elem_of_further, Hy | exact Halpha | apply Hl, list_elem_of_here].
Qed.

(** The state of a chain of loops from index [i0] on: what was combined. *)
Definition chain (i0 : nat) (s : nat * Mersenne31Quartic) (done : list Q) : Prop :=
  fst s = (i0 + length done)%nat /\ reps (snd s) (vmul (vpow a i0) (vcomb a done)).

Lemma chain_start i0 : chain i0 (i0, ZERO) [].
Proof.
  split; [cbn; lia|]. cbn [snd vcomb foldr]. replace (vmul (vpow a i0) vzero) with (vzero : Q) by ring. apply reps_zero.
Qed.

Lemma chain_step {A} (times : Mersenne31Quartic -> A -> Mersenne31Quartic) (val : A -> Q) N powers leaf i0 done s :
  powers_ok N powers -> chain i0 s done ->
  (forall t v x, x ∈ leaf -> reps t v -> reps (times t x) (vmul v (val x))) ->
  (i0 + length done + length leaf <= N)%nat ->
  exists s', accumulate times powers leaf s = Some s' /\ chain i0 s' (done ++ map val leaf).
Proof.
  intros Hp Hchain Ht Hi. destruct s as [i acc]. destruct Hchain as [Ei Ha]. cbn [fst snd] in Ei, Ha. subst i.
  destruct (accumulate_ok times val N powers leaf Hp Ht (i0 + length done) acc _ Ha ltac:(lia)) as (acc' & -> & Ra).
  eexists. split; [reflexivity|]. split; [cbn [fst]; rewrite length_app, length_map; lia|]. cbn [snd]. rewrite vcomb_app.
  replace (vmul (vpow a i0) _) with (vadd (vmul (vpow a i0) (vcomb a done))
    (vmul (vmul (vpow a i0) (vpow a (length done))) (vcomb a (map val leaf)))) by ring.
  rewrite <- vpow_add. exact Ra.
Qed.

Lemma horner_next {A} (el : A -> Mersenne31Quartic) (val : A -> Q) l acc rest :
  (forall x, x ∈ l -> reps (el x) (val x)) -> reps acc (vcomb a rest) ->
  reps (horner el alpha l acc) (vcomb a (map val l ++ rest)).
Proof. intros Hl Hs. rewrite vcomb_app, length_map. apply horner_ok; assumption. Qed.

Lemma times_base_ok t v x : fwf x -> reps t v -> reps (mul_assign_by_base (F := Mersenne31Field) t x) (vmul v (embF (fabs x))).
Proof. intros Hx [Wt <-]. apply mul_by_base_ok; assumption. Qed.

Lemma leaf_value_ok x : fwf x -> reps (leaf_value x) (embF (fabs x)).
Proof. intros Hx. exact (from_base_ok (F := Mersenne31Field) (E := Mersenne31Quartic) x Hx). Qed.
End Combination.

(** ** The DEEP quotient *)
Section DeepQuotient.
Notation Q := (fv (F := Mersenne31Quartic)).
Notation embC := (embed Mersenne31Complex Mersenne31Quartic).
Add Ring deep_ring : (fv_ring (F := Mersenne31Quartic)).

Definition base_value (x : Mersenne31Field) : Q := embed Mersenne31Field Mersenne31Quartic (fabs x).

(** The opened columns in the order of the openings: setup, witness, memory,
    stage 2 over the base field, stage 2 over the extension, and the quotient,
    which does not carry the factor of the coset. *)
Definition row_at_z (layout : VerifierLayout) (query : QueryRow) (tau_inv : Q) (quotient : Mersenne31Quartic) : list Q :=
  map base_value (setup_leaf query) ++ map base_value (witness_leaf query) ++ map base_value (memory_leaf query) ++
  map base_value (take (num_base_field_polys layout) (stage_2_leaf query)) ++
  map fabs (ext4_chunks (drop (ext4_polys_offset layout) (stage_2_leaf query))) ++ [vmul (fabs quotient) tau_inv].

Definition row_at_z_omega (witness_next memory_next : list Mersenne31Field) (leaf_el : Mersenne31Quartic) : list Q :=
  map base_value witness_next ++ map base_value memory_next ++ [fabs leaf_el].

(** The query has the columns the layout names. *)
Definition query_wf (layout : VerifierLayout) (query : QueryRow) : Prop :=
  Forall fwf (setup_leaf query) /\ Forall fwf (witness_leaf query) /\ Forall fwf (memory_leaf query) /\
  Forall fwf (stage_2_leaf query) /\ Forall fwf (quotient_leaf query) /\
  (num_base_field_polys layout <= length (stage_2_leaf query))%nat /\
  (ext4_polys_offset layout <= length (stage_2_leaf query))%nat.

Lemma ext4_chunks_wf l : Forall fwf l -> Forall fwf (ext4_chunks l).
Proof.
  induction l as [l IH] using (induction_ltof1 _ (@length _)). unfold ltof in IH. intros Hl.
  destruct l as [|x0 [|x1 [|x2 [|x3 l]]]]; cbn [ext4_chunks]; try constructor.
  - inversion_clear Hl as [|? ? W0 Hl0]. inversion_clear Hl0 as [|? ? W1 Hl1]. inversion_clear Hl1 as [|? ? W2 Hl2].
    inversion_clear Hl2 as [|? ? W3 _]. split; split; assumption.
  - apply IH; [cbn [length]; lia|]. do 4 (inversion_clear Hl as [|? ? _ Hl']; rename Hl' into Hl). exact Hl.
Qed.

Lemma pick_wf l indexes out : Forall fwf l -> pick l indexes = Some out -> Forall fwf out.
Proof.
  intros Hl. unfold pick. revert out. induction indexes as [|i indexes IH]; intros out E'; cbn in E'.
  - injection E' as <-. constructor.
  - destruct (l !! i) as [x|] eqn:Ex; [|discriminate]. cbn in E'.
    destruct (mapM _ indexes) as [ys|] eqn:Ey; [|discriminate]. cbn in E'. injection E' as <-.
    constructor; [exact (Forall_lookup_1 _ _ _ _ Hl Ex) | apply IH; reflexivity].
Qed.

Lemma from_array_wf l q : Forall fwf l -> from_array_of_base l = Some q -> fwf q.
Proof.
  intros Hl E'. destruct l as [|x0 [|x1 [|x2 [|x3 [|]]]]]; try discriminate. injection E' as <-.
  inversion_clear Hl as [|? ? W0 Hl0]. inversion_clear Hl0 as [|? ? W1 Hl1]. inversion_clear Hl1 as [|? ? W2 Hl2].
  inversion_clear Hl2 as [|? ? W3 _]. split; split; assumption.
Qed.

Lemma Forall_elem {A} (P : A -> Prop) l x : Forall P l -> x ∈ l -> P x.
Proof. intros Hl Hx. exact (proj1 (Forall_forall P l) Hl x Hx). Qed.

Context (layout : VerifierLayout) (query : QueryRow) (Hquery : query_wf layout query).
Context (oz ozw : list Mersenne31Quartic) (Hoz : Forall fwf oz) (Hozw : Forall fwf ozw).
Context (alpha dz dzw : Mersenne31Quartic) (Halpha : fwf alpha) (Hdz : fwf dz) (Hdzw : fwf dzw).
Context (tau tau_inv : Mersenne31Complex) (Htau : fwf tau) (Htau_inv : fwf tau_inv).
Context (quotient leaf_el : Mersenne31Quartic) (witness_next memory_next : list Mersenne31Field).
Context (Equot : from_array_of_base (quotient_leaf query) = Some quotient)
  (Ewit : pick (witness_leaf query) (WITNESS_NEXT_ROW_OPENING_INDEXES layout) = Some witness_next)
  (Emem : pick (memory_leaf query) (MEMORY_NEXT_ROW_OPENING_INDEXES layout) = Some memory_next)
  (Eacc : accumulator_leaf_el layout query = Some leaf_el).
Notation a := (fabs alpha).
Notation rz := (row_at_z layout query (embC (fabs tau_inv)) quotient).
Notation rzw := (row_at_z_omega witness_next memory_next leaf_el).
Context (Hrz : length rz = length oz) (Hrzw : length rzw = length ozw).

(** Sum over the opened polynomials of powers of the challenge times
    [(f(z) - f(x)) / (z - x)], where [1 / (z - x)] is the divisor. *)
Definition deep_quotient : Q :=
  vadd (vmul (vsub (vcomb a (map fabs oz)) (vmul (vcomb a rz) (embC (fabs tau)))) (fabs dz))
       (vmul (vmul (vpow a (length oz)) (vsub (vcomb a (map fabs ozw)) (vmul (vcomb a rzw) (embC (fabs tau))))) (fabs dzw)).

Lemma quotient_wf : fwf quotient.
Proof. destruct Hquery as (_ & _ & _ & _ & Hq & _). exact (from_array_wf _ _ Hq Equot). Qed.

Lemma leaf_el_wf : fwf leaf_el.
Proof.
  destruct Hquery as (_ & _ & _ & Hs & _). unfold accumulator_leaf_el in Eacc.
  pose proof (ext4_chunks_wf _ (Forall_drop _ (ext4_polys_offset layout +
    (MEMORY_GRAND_PRODUCT_ACCUMULATOR_POLY_INDEX layout - num_base_field_polys layout) * 4)%nat _ Hs)) as Hc.
  destruct (ext4_chunks _); [discriminate|]. injection Eacc as <-. inversion_clear Hc. assumption.
Qed.

Lemma scaled_difference_ok at_z acc d u v w : reps at_z u -> reps acc v -> reps d w ->
  reps (mul_assign (sub_assign at_z (mul_assign_by_base acc tau)) d) (vmul (vsub u (vmul v (embC (fabs tau)))) w).
Proof.
  intros Hu Hv Hw. apply reps_mul; [apply reps_sub; [exact Hu|]|exact Hw]. destruct Hv as [Wv <-]. apply mul_by_base_ok; assumption.
Qed.

(** Go through a chain of loops backwards. *)
Ltac horner_chain Ra := repeat lazymatch goal with
  | |- reps (horner _ _ _ _) _ => apply horner_next; [exact Ra | intros x Hx |]
  end.

Lemma fma_row_ok at_z at_z_omega extra : reps at_z (vcomb a (map fabs oz)) ->
  reps at_z_omega (vmul (vpow a (length oz)) (vcomb a (map fabs ozw))) -> reps extra (vpow a (length oz)) ->
  exists v, accumulate_over_row_for_consistency_check_with_fma layout at_z at_z_omega query alpha extra dz dzw tau tau_inv = Some v /\
    reps v deep_quotient.
Proof.
  intros Hz Hzw He. pose proof (reps_self alpha Halpha) as Ra. destruct Hquery as (W1 & W2 & W3 & W4 & W5 & B1 & B2).
  unfold accumulate_over_row_for_consistency_check_with_fma. rewrite Equot. cbn [mbind option_bind].
  rewrite (proj2 (Nat.leb_le _ _) B1), (proj2 (Nat.leb_le _ _) B2), Eacc, Emem, Ewit. cbn [mbind option_bind].
  eexists. split; [reflexivity|]. unfold deep_quotient. apply reps_add.
  - apply scaled_difference_ok; [exact Hz | | apply reps_self, Hdz]. unfold row_at_z.
    horner_chain Ra.
    + apply leaf_value_ok. exact (Forall_elem _ _ _ W1 Hx).
    + apply leaf_value_ok. exact (Forall_elem _ _ _ W2 Hx).
    + apply leaf_value_ok. exact (Forall_elem _ _ _ W3 Hx).
    + apply leaf_value_ok. exact (Forall_elem _ _ _ (Forall_take _ _ _ W4) Hx).
    + apply reps_self. exact (Forall_elem _ _ _ (ext4_chunks_wf _ (Forall_drop _ _ _ W4)) Hx).
    + destruct (mul_by_base_ok quotient tau_inv quotient_wf Htau_inv) as [Wq Vq]. split; [exact Wq|].
      rewrite Vq. cbn [vcomb foldr]. ring.
  - replace (vmul (vmul (vpow a (length oz)) _) (fabs dzw)) with
      (vmul (vsub (vmul (vpow a (length oz)) (vcomb a (map fabs ozw)))
         (vmul (vmul (vcomb a rzw) (vpow a (length oz))) (embC (fabs tau)))) (fabs dzw)) by ring.
    apply scaled_difference_ok; [exact Hzw | | apply reps_self, Hdzw]. apply mul_with_fma_ok; [|exact He].
    unfold row_at_z_omega. horner_chain Ra.
    + apply leaf_value_ok. exact (Forall_elem _ _ _ (pick_wf _ _ _ W2 Ewit) Hx).
    + apply leaf_value_ok. exact (Forall_elem _ _ _ (pick_wf _ _ _ W3 Emem) Hx).
    + cbn [vcomb foldr]. replace (vadd (fabs leaf_el) _) with (fabs leaf_el) by ring. apply reps_self, leaf_el_wf.
Qed.

Lemma times_quotient_ok t v x : fwf x -> reps t v ->
  reps (mul_assign_by_base (mul_assign t x) tau_inv) (vmul v (vmul (fabs x) (embC (fabs tau_inv)))).
Proof.
  intros Hx Ht. destruct (reps_mul _ _ _ _ Ht (reps_self x Hx)) as [Wm Vm].
  destruct (mul_by_base_ok _ tau_inv Wm Htau_inv) as [W V]. split; [exact W|]. rewrite V, Vm. ring.
Qed.

Lemma times_ext_ok (t : Mersenne31Quartic) v x : fwf x -> reps t v -> reps (mul_assign t x) (vmul v (fabs x)).
Proof. intros Hx Ht. apply reps_mul; [exact Ht | apply reps_self, Hx]. Qed.

(** The elements of a leaf, in the two loops over the row. *)
Lemma base_elements l : Forall fwf l -> forall t v x, x ∈ l -> reps t v ->
  reps (mul_assign_by_base (F := Mersenne31Field) t x) (vmul v (base_value x)).
Proof. intros Hl t v x Hx Ht. apply times_base_ok; [exact (Forall_elem _ _ _ Hl Hx) | exact Ht]. Qed.

Lemma ext_elements (l : list Mersenne31Quartic) : Forall fwf l -> forall t v x, x ∈ l -> reps t v -> reps (mul_assign t x) (vmul v (fabs x)).
Proof. intros Hl t v x Hx Ht. apply times_ext_ok; [exact (Forall_elem _ _ _ Hl Hx) | exact Ht]. Qed.

Ltac chain_bound := cbn [app map length]; rewrite ?length_app, ?length_map; cbn [length]; lia.

Lemma plain_row_ok powers at_z at_z_omega : powers_ok a (length oz + length ozw) powers ->
  reps at_z (vcomb a (map fabs oz)) -> reps at_z_omega (vmul (vpow a (length oz)) (vcomb a (map fabs ozw))) ->
  exists v, accumulate_over_row_for_consistency_check layout at_z at_z_omega query powers dz dzw tau tau_inv = Some v /\
    reps v deep_quotient.
Proof.
  intros Hp Hz Hzw. destruct Hquery as (W1 & W2 & W3 & W4 & W5 & B1 & B2).
  unfold accumulate_over_row_for_consistency_check. rewrite (proj2 (Nat.leb_le _ _) B1), (proj2 (Nat.leb_le _ _) B2).
  assert (Hb : (length rz + length rzw <= length oz + length ozw)%nat) by lia.
  assert (Hb2 : (length rzw <= length ozw)%nat) by lia.
  unfold row_at_z, row_at_z_omega in Hb, Hb2. rewrite !length_app, !length_map in Hb2. cbn [length] in Hb2. rewrite !length_app, !length_map in Hb. cbn [length] in Hb.
  destruct (chain_step a _ _ _ powers _ _ _ _ Hp (chain_start a 0) (base_elements _ W1) ltac:(cbn [length]; lia)) as (s1 & -> & C1).
  cbn [mbind option_bind].
  destruct (chain_step a _ _ _ powers _ _ _ _ Hp C1 (base_elements _ W2) ltac:(chain_bound)) as (s2 & -> & C2).
  cbn [mbind option_bind].
  destruct (chain_step a _ _ _ powers _ _ _ _ Hp C2 (base_elements _ W3) ltac:(chain_bound)) as (s3 & -> & C3).
  cbn [mbind option_bind].
  destruct (chain_step a _ _ _ powers _ _ _ _ Hp C3 (base_elements _ (Forall_take _ (num_base_field_polys layout) _ W4)) ltac:(chain_bound))
    as (s4 & -> & C4). cbn [mbind option_bind].
  destruct (chain_step a _ _ _ powers _ _ _ _ Hp C4 (ext_elements _ (ext4_chunks_wf _ (Forall_drop _ (ext4_polys_offset layout) _ W4)))
    ltac:(chain_bound)) as (s5 & -> & C5). cbn [mbind option_bind]. rewrite Equot. cbn [mbind option_bind].
  destruct (chain_step a (fun t leaf_el => mul_assign_by_base (mul_assign t leaf_el) tau_inv)
    (fun x => vmul (fabs x) (embC (fabs tau_inv))) _ powers [quotient] _ _ _ Hp C5) as ([i acc_z] & -> & C6).
  { intros t v x Hx Ht. apply list_elem_of_singleton in Hx. subst x. apply times_quotient_ok; [exact quotient_wf | exact Ht]. }
  { chain_bound. }
  cbn [mbind option_bind]. rewrite Ewit. cbn [mbind option_bind]. destruct C6 as [Ei Rz]. cbn [fst snd] in Ei, Rz.
  assert (Erz : forall l, l = rz -> vmul (vpow a 0) (vcomb a l) = vcomb a rz) by (intros l ->; cbn [vpow]; ring).
  rewrite Erz in Rz by (unfold row_at_z; cbn [app map]; rewrite <- !app_assoc; reflexivity).
  replace i with (length oz) by (rewrite <- Hrz, Ei; unfold row_at_z; cbn [app map]; rewrite <- !app_assoc; reflexivity).
  pose proof (pick_wf _ _ _ W2 Ewit) as W6. pose proof (pick_wf _ _ _ W3 Emem) as W7.
  destruct (chain_step a _ _ _ powers _ _ _ _ Hp (chain_start a (length oz)) (base_elements _ W6) ltac:(chain_bound))
    as (s7 & -> & C7). cbn [mbind option_bind]. rewrite Emem. cbn [mbind option_bind].
  destruct (chain_step a _ _ _ powers _ _ _ _ Hp C7 (base_elements _ W7) ltac:(chain_bound)) as (s8 & -> & C8).
  cbn [mbind option_bind]. rewrite Eacc. cbn [mbind option_bind].
  destruct (chain_step a mul_assign fabs _ powers [leaf_el] _ _ _ Hp C8) as ([i' acc_zw] & -> & [_ Rzw]).
  { intros t v x Hx Ht. apply list_elem_of_singleton in Hx. subst x. apply times_ext_ok; [exact leaf_el_wf | exact Ht]. }
  { chain_bound. }
  cbn [mbind option_bind snd app map] in Rzw |- *. rewrite <- app_assoc in Rzw. change (map base_value witness_next ++ _) with rzw in Rzw.
  eexists. split; [reflexivity|]. unfold deep_quotient. apply reps_add.
  - apply scaled_difference_ok; [exact Hz | exact Rz | apply reps_self, Hdz].
  - replace (vmul (vmul (vpow a (length oz)) _) (fabs dzw)) with
      (vmul (vsub (vmul (vpow a (length oz)) (vcomb a (map fabs ozw)))
         (vmul (vmul (vpow a (length oz)) (vcomb a rzw)) (embC (fabs tau)))) (fabs dzw)) by ring.
    apply scaled_difference_ok; [exact Hzw | exact Rzw | apply reps_self, Hdzw].
Qed.

Lemma plain_precompute_ok : exists powers at_z at_z_omega,
  precompute_for_consistency_checks oz ozw alpha = (powers, (at_z, at_z_omega)) /\
  powers_ok a (length oz + length ozw) powers /\ reps at_z (vcomb a (map fabs oz)) /\
  reps at_z_omega (vmul (vpow a (length oz)) (vcomb a (map fabs ozw))).
Proof.
  pose proof (reps_self alpha Halpha) as Ra. unfold precompute_for_consistency_checks.
  destruct (accumulate_evals_ok alpha a Ra oz Hoz _ _ _ _ reps_one reps_zero) as (p1 & at_z & c1 & -> & R1 & Rc & L1 & P1).
  destruct (accumulate_evals_ok alpha a Ra ozw Hozw _ _ _ _ Rc reps_zero) as (p2 & at_zw & c2 & -> & R2 & _ & L2 & P2).
  exists (p1 ++ p2), at_z, at_zw. split; [reflexivity|]. split; [|split].
  - intros i Hi. destruct (Nat.lt_ge_cases i (length oz)) as [Hlt|Hge].
    + destruct (P1 i Hlt) as (t & Et & Rt). exists t. rewrite lookup_app_l by lia. split; [exact Et|].
      replace (vpow a i) with (vmul vone (vpow a i)) by ring. exact Rt.
    + destruct (P2 (i - length oz)%nat ltac:(lia)) as (t & Et & Rt). exists t. rewrite lookup_app_r by lia. rewrite L1.
      split; [exact Et|]. replace (vpow a i) with (vmul (vmul vone (vpow a (length oz))) (vpow a (i - length oz))); [exact Rt|].
      replace i with (length oz + (i - length oz))%nat at 2 by lia. rewrite vpow_add. ring.
  - replace (vcomb a (map fabs oz)) with (vadd vzero (vmul vone (vcomb a (map fabs oz)))) by ring. exact R1.
  - replace (vmul (vpow a (length oz)) _) with (vadd vzero (vmul (vmul vone (vpow a (length oz))) (vcomb a (map fabs ozw)))) by ring.
    exact R2.
Qed.

Lemma fma_precompute_ok : is_u32 (Z.of_nat (length oz)) -> exists extra at_z at_z_omega,
  precompute_for_consistency_checks_with_fma oz ozw alpha = (extra, (at_z, at_z_omega)) /\
  reps extra (vpow a (length oz)) /\ reps at_z (vcomb a (map fabs oz)) /\
  reps at_z_omega (vmul (vpow a (length oz)) (vcomb a (map fabs ozw))).
Proof.
  intros Hu. pose proof (reps_self alpha Halpha) as Ra. unfold precompute_for_consistency_checks_with_fma.
  assert (Hh : forall l, Forall fwf l -> reps (horner id alpha l ZERO) (vcomb a (map fabs l))).
  { intros l Hl. rewrite <- (app_nil_r (map fabs l)). apply (horner_next alpha a Ra); [|apply reps_zero].
    intros x Hx. apply reps_self. exact (Forall_elem _ _ _ Hl Hx). }
  assert (He : reps (pow_with_fma true alpha (u32 (Z.of_nat (length oz)))) (vpow a (length oz))).
  { rewrite u32_small by exact Hu. rewrite <- (Nat2Z.id (length oz)) at 2. apply pow_with_fma_ok; assumption. }
  eexists _, _, _. split; [reflexivity|]. split; [exact He|]. split; [apply Hh, Hoz|].
  replace (vmul (vpow a (length oz)) _) with (vmul (vcomb a (map fabs ozw)) (vpow a (length oz))) by ring.
  apply mul_with_fma_ok; [apply Hh, Hozw | exact He].
Qed.

Lemma deep_value_ok modular_ext4_ops : is_u32 (Z.of_nat (length oz)) -> exists v,
  deep_value modular_ext4_ops layout oz ozw alpha query dz dzw tau tau_inv = Some v /\ reps v deep_quotient.
Proof.
  intros Hu. unfold deep_value. destruct modular_ext4_ops.
  - destruct (fma_precompute_ok Hu) as (extra & at_z & at_zw & -> & He & Hz & Hzw). apply fma_row_ok; assumption.
  - destruct plain_precompute_ok as (powers & at_z & at_zw & -> & Hp & Hz & Hzw). apply plain_row_ok; assumption.
Qed.

(** C28: Both builds of the DEEP consistency check compute, for every query with
    the columns of the layout, the same value: the powers of the challenge times
    the differences between the opened values at [z] (and at [z * omega]) and the
    query's row (scaled back by the factor of its coset, which the quotient does
    not carry), times the divisors.  The query is one whose columns for the next
    row exist; no other index is out of range. *)
Theorem deep_value_is_quotient modular_ext4_ops : is_u32 (Z.of_nat (length oz)) -> exists v,
  deep_value modular_ext4_ops layout oz ozw alpha query dz dzw tau tau_inv = Some v /\ reps v deep_quotient.
Proof. apply deep_value_ok. Qed.
End DeepQuotient.

(** One setup, two witness and memory columns, two base and two extension
    columns in stage 2, the second of which is opened at the next row. *)
Definition deep_sample_layout : VerifierLayout :=
  {| num_base_field_polys := 1; ext4_polys_offset := 1; MEMORY_GRAND_PRODUCT_ACCUMULATOR_POLY_INDEX := 2;
     WITNESS_NEXT_ROW_OPENING_INDEXES := [1%nat]; MEMORY_NEXT_ROW_OPENING_INDEXES := [0%nat] |}.
Definition deep_sample_query : QueryRow :=
  {| setup_leaf := [1]; witness_leaf := [2; 3]; memory_leaf := [4; 5];
     stage_2_leaf := [6; 7; 8; 9; 10; 11; 12; 13; 14]; quotient_leaf := [15; 16; 17; 18] |}.
Definition deep_sample_openings (n : nat) : list Mersenne31Quartic := replicate n (sample_coefficient 1 2 3 4).

Lemma deep_value_is_quotient_witness : exists v,
  deep_value true deep_sample_layout (deep_sample_openings 9) (deep_sample_openings 3) sample_challenge deep_sample_query
    sample_constant sample_challenge sample_coset ONE = Some v.
Proof.
  assert (Hq : query_wf deep_sample_layout deep_sample_query).
  { unfold query_wf. split_and!; try (cbn; lia); repeat constructor; cbn; unfold repr, ORDER; lia. }
  assert (Ho : forall n, Forall fwf (deep_sample_openings n)).
  { intros n. apply Forall_replicate, sample_coefficient_wf; unfold repr, ORDER; lia. }
  destruct (deep_value_is_quotient deep_sample_layout deep_sample_query Hq (deep_sample_openings 9) (deep_sample_openings 3)
    (Ho _) (Ho _) sample_challenge sample_constant sample_challenge sample_challenge_wf sample_constant_wf sample_challenge_wf
    sample_coset ONE (proj1 sample_coset_ok) (proj1 (ONE_ok (F := Mersenne31Complex)))
    (sample_coefficient 15 16 17 18) (sample_coefficient 11 12 13 14) [3] [4] eq_refl eq_refl eq_refl eq_refl eq_refl eq_refl true)
    as (v & Ev & _); [unfold is_u32; cbn; lia|].
  exists v. exact Ev.
Defined.
