(* ===== verification/FriChain.v ===== *)
(** * What a FRI query establishes

    A query passes exactly when each of its leafs is a set of values whose
    interpolant takes the expected value at the query's point, the next expected
    value being that interpolant at the challenge, and the last expected value is
    that of the polynomial in monomial form. *)
From stdpp Require Import base list strings.
From Stdlib Require Import ZArith Lia.
From S2P Require Import Prelude MachineInt Worker BitReverse Field FieldExt FieldTraits Powers Ntt Fft Fri.

Import Quartic (Mersenne31Quartic).
Import Complex (Mersenne31Complex).

#[local] Opaque Nat.pow.

Section Chain.
Notation C := (fv (F := Mersenne31Complex)).
Notation Q := (fv (F := Mersenne31Quartic)).
Notation emb := (embed Mersenne31Complex Mersenne31Quartic).
Add Ring chain_c_ring : (fv_ring (F := Mersenne31Complex)).
Add Ring chain_q_ring : (fv_ring (F := Mersenne31Quartic)).

Context (params : FriParameters) (tau : Q).

(** The leafs, from the query's point number [index] of the domain of size
    [2^d] shifted by [o]; the point is [x]. *)
Fixpoint fri_chain (schedule : list nat) (step : nat) (leaf_src : list Mersenne31Field) (index : Z) (d : nat) (o : C)
    (x expected : Q) : Prop :=
  match schedule with
  | [] => poly_value (monomial_coeffs params) x = vmul expected tau
  | n :: schedule' => exists c leaf rest P,
      fri_folding_challenges params !! step = Some c /\
      leaf_projection params step n (bitrev d index) leaf_src = Some (leaf, rest) /\
      interpolates index n d o leaf P /\ pvalue n P x = expected /\
      fri_chain schedule' (S step) rest (index mod 2 ^ Z.of_nat (d - n)) (d - n) (vpow o (2 ^ n)) (vpow x (2 ^ n))
        (vmul (vnat (2 ^ n)) (pvalue n P (fabs c)))
  end.

(** Steps the folding procedures are made for, and well-formed values *)
Record chain_wf (schedule : list nat) (d : nat) (leaf_src : list Mersenne31Field) : Prop := {
  cw_steps : Forall (fun n => 0 < n <= 5)%nat schedule;
  cw_degree : (sum_list schedule <= d)%nat;
  cw_leafs : Forall fwf leaf_src;
  cw_challenges : Forall fwf (fri_folding_challenges params);
  cw_exposed : Forall fwf (fri_final_step_leafs params);
}.

Lemma coeffs_wf (l : list Mersenne31Quartic) : Forall fwf l -> Forall fwf (flat_map Quartic.into_coeffs_in_base l).
Proof.
  induction 1 as [|x l [[Ha Hb] [Hc Hd]] Hl IH]; [constructor|]. cbn [flat_map]. apply Forall_app. split; [|exact IH].
  repeat apply Forall_cons_2; try assumption. apply Forall_nil_2.
Qed.
Lemma length_coeffs (l : list Mersenne31Quartic) : length (flat_map Quartic.into_coeffs_in_base l) = (4 * length l)%nat.
Proof. induction l as [|x l IH]; [reflexivity|]. cbn [flat_map length]. rewrite length_app, IH. change (length (Quartic.into_coeffs_in_base x)) with 4%nat. lia. Qed.

(** The leaf of a step has the step's size, and the rest of the leafs is still
    well-formed. *)
Lemma projected_leaf step n index leaf_src leaf rest : Forall fwf leaf_src -> Forall fwf (fri_final_step_leafs params) ->
  leaf_projection params step n index leaf_src = Some (leaf, rest) ->
  length leaf = (4 * 2 ^ n)%nat /\ Forall fwf leaf /\ Forall fwf rest.
Proof.
  intros Hs He E. unfold leaf_projection in E. rewrite Nat.div_mul in E by lia. destruct (_ && _).
  - destruct (Nat.eqb_spec (length (take (2 ^ n) (drop (Z.to_nat index / 2 ^ n * 2 ^ n) (fri_final_step_leafs params)))) (2 ^ n)) as [El|];
      [|discriminate]. injection E as <- <-. rewrite length_coeffs, El. split; [reflexivity|].
    split; [|exact Hs]. apply coeffs_wf, Forall_take, Forall_drop, He.
  - destruct (Nat.leb_spec (2 ^ n * 4) (length leaf_src)); [|discriminate]. injection E as <- <-.
    rewrite length_take. split; [lia|]. split; [apply Forall_take | apply Forall_drop]; exact Hs.
Qed.

Context (modular_ext4_ops : bool) (shared : list Mersenne31Complex) (Hshared : SHARED_FACTORS_FOR_FOLDING = Some shared).

(** Either build's fold *)
Definition fold_result (n : nat) (st : FriState) (leaf : list Mersenne31Field) (c : Mersenne31Quartic) : option FriState :=
  if modular_ext4_ops then fri_fold_by_log_n_with_fma modular_ext4_ops n st leaf c shared
  else fri_fold_by_log_n modular_ext4_ops n st leaf (folding_challenge_powers c) shared.

Lemma fold_result_ok n d st o leaf c P : (0 < n <= 5)%nat -> (n <= d)%nat -> fri_position st d o -> fwf (expected_value st) -> fwf c ->
  interpolates (domain_index st) n d o leaf P -> fold_spec n d st o (fabs c) P (fold_result n st leaf c).
Proof.
  intros Hn Hnd Hpos We Wc HP. unfold fold_result. destruct modular_ext4_ops.
  - apply fma_fold_ok; assumption.
  - apply plain_fold_ok; try assumption. intros r Hr. apply challenge_powers_ok; [exact Wc | lia].
Qed.

(** The steps pass exactly on a chain whose end agrees with the last state. *)
Lemma fri_steps_chain schedule : forall step leaf_src st d o, fri_position st d o -> fwf (expected_value st) ->
  chain_wf schedule d leaf_src ->
  let chain := fri_chain schedule step leaf_src (domain_index st) d o (emb (fabs (evaluation_point st))) (fabs (expected_value st)) in
  match fri_steps modular_ext4_ops shared params schedule step st leaf_src with
  | Some st' => fwf (evaluation_point st') /\ fwf (expected_value st') /\
      (chain <-> poly_value (monomial_coeffs params) (emb (fabs (evaluation_point st'))) = vmul (fabs (expected_value st')) tau)
  | None => ~ chain
  end.
Proof.
  induction schedule as [|n schedule IH]; intros step leaf_src st d o Hpos We Hwf chain; subst chain; cbn [fri_chain fri_steps].
  { split; [apply Hpos|]. split; [exact We | reflexivity]. }
  destruct Hwf as [Hsteps Hdeg Hleafs Hch Hex]. apply Forall_cons in Hsteps as [Hn Hsteps]. change (n + sum_list schedule <= d)%nat in Hdeg.
  assert (Hnd : (n <= d)%nat) by lia. pose proof Hpos as (_ & _ & _ & Et & _). rewrite Et.
  destruct (leaf_projection params step n (bitrev d (domain_index st)) leaf_src) as [[leaf rest]|] eqn:El; cbn [mbind option_bind].
  2:{ intros (c & leaf & rest & P & _ & E & _). discriminate. }
  destruct (fri_folding_challenges params !! step) as [c|] eqn:Ec; cbn [mbind option_bind].
  2:{ intros (c & l' & r' & P & E & _). discriminate. }
  assert (Wc : fwf c) by (rewrite Forall_forall in Hch; eapply Hch, list_elem_of_lookup_2, Ec).
  destruct (projected_leaf step n _ leaf_src leaf rest Hleafs Hex El) as (Hl & Hleaf & Hrest).
  fold (fold_result n st leaf c).
  pose proof (fun P => fold_result_ok n d st o leaf c P Hn Hnd Hpos We Wc) as Hspec.
  destruct (fold_result n st leaf c) as [st1|]; cbn [fold_spec mbind option_bind] in *.
  2:{ intros (c' & l' & r' & P & E1 & E2 & HP & Ex & _). injection E2 as <- <-. apply (Hspec P HP). symmetry. exact Ex. }
  destruct (interpolant_of_leaf n d st o leaf Hnd ltac:(lia) Hpos Hl Hleaf) as [P HP].
  destruct (Hspec P HP) as (Ex & [We1 Ve1] & Ei & Hpos1).
  specialize (IH (S step) rest st1 (d - n)%nat (vpow o (2 ^ n)) Hpos1 We1 ltac:(constructor; auto; lia)). cbv zeta in IH.
  rewrite (next_point st st1 d o n Hpos Hnd Hpos1 Ei), embed_pow, Ei in IH.
  set (next := fri_chain schedule (S step) rest (domain_index st mod 2 ^ Z.of_nat (d - n)) (d - n) (vpow o (2 ^ n))
                 (vpow (emb (fabs (evaluation_point st))) (2 ^ n))) in *.
  assert (Hchain : (exists c' leaf' rest' P', Some c = Some c' /\ Some (leaf, rest) = Some (leaf', rest') /\
      interpolates (domain_index st) n d o leaf' P' /\ pvalue n P' (emb (fabs (evaluation_point st))) = fabs (expected_value st) /\
      fri_chain schedule (S step) rest' (domain_index st mod 2 ^ Z.of_nat (d - n)) (d - n) (vpow o (2 ^ n))
        (vpow (emb (fabs (evaluation_point st))) (2 ^ n)) (vmul (vnat (2 ^ n)) (pvalue n P' (fabs c')))) <-> next (fabs (expected_value st1))).
  { split.
    - intros (c' & l' & r' & P' & E1 & E2 & HP' & _ & Hc). injection E1 as <-. injection E2 as <- <-.
      destruct (Hspec P' HP') as (_ & [_ Ve'] & _). rewrite Ve'. exact Hc.
    - intros Hc. exists c, leaf, rest, P. split_and!; auto. rewrite <- Ve1. exact Hc. }
  destruct (fri_steps modular_ext4_ops shared params schedule (S step) st1 rest) as [st'|].
  - destruct IH as (W1 & W2 & Hi). split; [exact W1|]. split; [exact W2|]. rewrite Hchain. exact Hi.
  - rewrite Hchain. exact IH.
Qed.
End Chain.

Section QueryChain.
Notation C := (fv (F := Mersenne31Complex)).
Notation emb := (embed Mersenne31Complex Mersenne31Quartic).

Lemma fri_query_iff modular_ext4_ops params (tau tau_inv : Mersenne31Complex) st leafs d o :
  fri_position st d o -> fwf (expected_value st) -> fwf tau -> fwf tau_inv ->
  chain_wf params (FRI_FOLDING_SCHEDULE params) d leafs -> Forall fwf (monomial_coeffs params) -> monomial_coeffs params <> [] ->
  fri_query modular_ext4_ops params tau tau_inv st leafs = Some tt <->
  fri_chain params (emb (fabs tau)) (FRI_FOLDING_SCHEDULE params) 0 leafs (domain_index st) d o (emb (fabs (evaluation_point st)))
    (vmul (fabs (expected_value st)) (emb (fabs tau_inv))).
Proof.
  intros Hpos We Wt Wti Hwf Hm Hne. unfold fri_query. destruct shared_factors_ok as (h & shared & _ & _ & Es & _).
  rewrite Es. cbn [mbind option_bind]. destruct (mul_by_base_ok (expected_value st) tau_inv We Wti) as [Wm Vm].
  set (st0 := {| expected_value := mul_assign_by_base (expected_value st) tau_inv;
               evaluation_point := evaluation_point st; domain_size_log_2 := domain_size_log_2 st;
               domain_index := domain_index st; tree_index := tree_index st; offset_inv := offset_inv st |}).
  pose proof (fri_steps_chain params (emb (fabs tau)) modular_ext4_ops shared Es (FRI_FOLDING_SCHEDULE params) 0 leafs st0 d o Hpos Wm Hwf) as Hs.
  cbv zeta in Hs. cbn [st0 expected_value evaluation_point domain_index] in Hs. rewrite Vm in Hs.
  destruct (fri_steps _ _ _ _ _ _ _) as [st'|]; cbn [mbind option_bind]; [|split; [discriminate | contradiction]].
  destruct Hs as (Wp & Wv & ->).
  destruct (evaluate_monomial_ok modular_ext4_ops (monomial_coeffs params) (evaluation_point st') Wp Hm Hne) as (v & -> & [Wr Vr]).
  cbn [mbind option_bind]. destruct (mul_by_base_ok (expected_value st') tau Wv Wt) as [Wm' Vm'].
  pose proof (feq_ok _ _ Wr Wm') as Hf. rewrite Vr, Vm' in Hf. destruct (feq v _).
  - split; [intros _; apply Hf; reflexivity | reflexivity].
  - split; [discriminate | intros E; apply Hf in E; discriminate].
Qed.

(** C23: a FRI query passes, in either build, exactly when every leaf it reads has
    an interpolant that takes the expected value at the query's point and whose
    value at the challenge (times the size of the leaf) is expected of the next
    leaf at the point's power, and the last expected value is that of the
    polynomial in monomial form, the factors of the coset aside. *)
Theorem fri_query_is_chain modular_ext4_ops params (tau tau_inv : Mersenne31Complex) st leafs d o :
  fri_position st d o -> fwf (expected_value st) -> fwf tau -> fwf tau_inv ->
  chain_wf params (FRI_FOLDING_SCHEDULE params) d leafs -> Forall fwf (monomial_coeffs params) -> monomial_coeffs params <> [] ->
  fri_query modular_ext4_ops params tau tau_inv st leafs = Some tt <->
  fri_chain params (emb (fabs tau)) (FRI_FOLDING_SCHEDULE params) 0 leafs (domain_index st) d o (emb (fabs (evaluation_point st)))
    (vmul (fabs (expected_value st)) (emb (fabs tau_inv))).
Proof. apply fri_query_iff. Qed.

Lemma sample_chain_wf : chain_wf fri_sample_params (FRI_FOLDING_SCHEDULE fri_sample_params) 1 sample_leaf.
Proof.
  constructor.
  - repeat constructor.
  - apply Nat.leb_le. reflexivity.
  - exact sample_leaf_wf.
  - constructor; [exact sample_challenge_wf | constructor].
  - constructor.
Qed.

Lemma fri_query_is_chain_witness :
  fri_chain fri_sample_params (emb (fabs (ONE : Mersenne31Complex))) [1%nat] 0 sample_leaf 1 1 vone
    (emb (fabs (evaluation_point fri_sample_state))) (vmul (fabs sample_constant) (emb (fabs (ONE : Mersenne31Complex)))).
Proof.
  apply (fri_query_is_chain true fri_sample_params ONE ONE fri_sample_state sample_leaf 1 vone fri_sample_position
           sample_constant_wf (proj1 ONE_ok) (proj1 ONE_ok) sample_chain_wf).
  - constructor; [apply double_ok, sample_constant_wf | constructor].
  - discriminate.
  - vm_compute. reflexivity.
Defined.
End QueryChain.
