(* ===== verification/StatusRegisters.v ===== *)
(** * Privilege modes, trap causes and status registers

    [src/risc_v_simulator/src/cycle/status_registers/*.rs] and the mode and
    flag types of [cycle/state.rs]: the trap and interrupt causes with their
    register codes, the [mstatus] and [satp] fields and the [ExtraFlags] word
    that holds the current mode and the wait-for-interrupt bit. *)
From stdpp Require Import base list.
From Stdlib Require Import ZArith Lia Btauto.
From S2P Require Import Prelude MachineInt Decoder.

(** ** Trap causes *)

Inductive TrapReason : Type :=
| InstructionAddressMisaligned | InstructionAccessFault | IllegalInstruction | Breakpoint
| LoadAddressMisaligned | LoadAccessFault
| StoreOrAMOAddressMisaligned | StoreOrAMOAccessFault
| EnvironmentCallFromUMode | EnvironmentCallFromSMode | EnvironmentCallFromMMode
| InstructionPageFault | LoadPageFault | StoreOrAMOPageFault
| NoTrap.

#[export] Instance TrapReason_eq_dec : EqDecision TrapReason.
Proof. solve_decision. Defined.

Definition TrapReason_as_register_value (t : TrapReason) : Z :=
  match t with
  | InstructionAddressMisaligned => 0 | InstructionAccessFault => 1
  | IllegalInstruction => 2 | Breakpoint => 3
  | LoadAddressMisaligned => 4 | LoadAccessFault => 5
  | StoreOrAMOAddressMisaligned => 6 | StoreOrAMOAccessFault => 7
  | EnvironmentCallFromUMode => 8 | EnvironmentCallFromSMode => 9
  | EnvironmentCallFromMMode => 11
  | InstructionPageFault => 12 | LoadPageFault => 13 | StoreOrAMOPageFault => 15
  | NoTrap => 0xff
  end.

Definition is_a_trap (t : TrapReason) : bool :=
  negb (TrapReason_as_register_value t =? TrapReason_as_register_value NoTrap).

(** [None] stands for the panic on an unknown code. *)
Definition TrapReason_from_register_value (value : Z) : option TrapReason :=
  if value =? 0 then Some InstructionAddressMisaligned
  else if value =? 1 then Some InstructionAccessFault
  else if value =? 2 then Some IllegalInstruction
  else if value =? 3 then Some Breakpoint
  else if value =? 4 then Some LoadAddressMisaligned
  else if value =? 5 then Some LoadAccessFault
  else if value =? 6 then Some StoreOrAMOAddressMisaligned
  else if value =? 7 then Some StoreOrAMOAccessFault
  else if value =? 8 then Some EnvironmentCallFromUMode
  else if value =? 9 then Some EnvironmentCallFromSMode
  else if value =? 11 then Some EnvironmentCallFromMMode
  else if value =? 12 then Some InstructionPageFault
  else if value =? 13 then Some LoadPageFault
  else if value =? 15 then Some StoreOrAMOPageFault
  else None.

Definition INTERRUPT_MASK : Z := 0x80000000.

Inductive InterruptReason : Type :=
| Reserved_interrupt | SupervisorSoftwareInterrupt | MachineSoftwareInterrupt
| SupervisorTimerInterrupt | MachineTimerInterrupt
| SupervisorExternalInterrupt | MachineExternalInterrupt.

Definition InterruptReason_as_register_value (r : InterruptReason) : Z :=
  Z.lor match r with
        | Reserved_interrupt => 0 | SupervisorSoftwareInterrupt => 1
        | MachineSoftwareInterrupt => 3 | SupervisorTimerInterrupt => 5
        | MachineTimerInterrupt => 7 | SupervisorExternalInterrupt => 9
        | MachineExternalInterrupt => 11
        end 0x80000000.

(** ** Privilege modes *)

Inductive Mode : Type := User | Supervisor | Reserved | Machine.

#[export] Instance Mode_eq_dec : EqDecision Mode.
Proof. solve_decision. Defined.

Definition Mode_as_register_value (m : Mode) : Z :=
  match m with User => 0 | Supervisor => 1 | Reserved => 2 | Machine => 3 end.

(** The last arm is [unreachable_unchecked]: [None]. *)
Definition Mode_from_proper_bit_value (src : Z) : option Mode :=
  if src =? 0 then Some User
  else if src =? 1 then Some Supervisor
  else if src =? 2 then Some Reserved
  else if src =? 3 then Some Machine
  else None.

Module ExtraFlags.
Definition WAIT_FOR_INTERRUPT_BIT : Z := 2.
Definition get_current_mode (f : Z) : option Mode :=
  Mode_from_proper_bit_value (get_bits_and_align_right f 0 2).
Definition set_mode (f : Z) (m : Mode) : Z :=
  Z.lor (Z.land f (not32 0x3)) (Mode_as_register_value m).
Definition set_mode_raw (f mode_bits : Z) : Z := Z.lor (Z.land f (not32 0x3)) mode_bits.
Definition get_wait_for_interrupt (f : Z) : Z := get_bit_unaligned f WAIT_FOR_INTERRUPT_BIT.
Definition set_wait_for_interrupt_bit (f : Z) : Z := set_bit f WAIT_FOR_INTERRUPT_BIT.
Definition clear_wait_for_interrupt_bit (f : Z) : Z := clear_bit f WAIT_FOR_INTERRUPT_BIT.
End ExtraFlags.

(** ** mstatus and satp *)

Module MStatusRegister.
Definition sie (src : Z) : Z := get_bit_unaligned src 1.
Definition mie (src : Z) : Z := get_bit_unaligned src 3.
Definition mie_aligned_bit (src : Z) : Z := get_bits_and_align_right src 3 1.
Definition set_mie (dst : Z) : Z := set_bit dst 3.
Definition clear_mie (dst : Z) : Z := clear_bit dst 3.
Definition set_mie_to_value (dst value : Z) : Z := set_bits_to_value (clear_mie dst) 3 value.
Definition spie (src : Z) : Z := get_bit_unaligned src 5.
Definition ube (src : Z) : Z := get_bit_unaligned src 6.
Definition mpie (src : Z) : Z := get_bit_unaligned src 7.
Definition set_mpie (dst : Z) : Z := set_bit dst 7.
Definition clear_mpie (dst : Z) : Z := clear_bit dst 7.
Definition set_mpie_to_value (dst value : Z) : Z := set_bits_to_value (clear_mpie dst) 7 value.
Definition clear_mpp (dst : Z) : Z := clear_bits dst 11 2.
Definition set_mpp_to_machine (dst : Z) : Z := set_bits_to_value (clear_mpp dst) 11 3.
Definition mpie_aligned_bit (src : Z) : Z := get_bits_and_align_right src 7 1.
Definition spp (src : Z) : Z := get_bit_unaligned src 8.
Definition vs (src : Z) : Z := get_bits_and_align_right src 9 2.
Definition mpp (src : Z) : Z := get_bits_and_align_right src 11 2.
Definition fs (src : Z) : Z := get_bits_and_align_right src 13 2.
Definition xs (src : Z) : Z := get_bits_and_align_right src 15 2.
Definition mprv (src : Z) : Z := get_bit_unaligned src 17.
Definition clear_mprv (dst : Z) : Z := clear_bit dst 17.
Definition mprv_aligned_bit (src : Z) : Z := get_bits_and_align_right src 17 11.
Definition sum (src : Z) : Z := get_bit_unaligned src 18.
Definition mxr (src : Z) : Z := get_bit_unaligned src 19.
Definition tvm (src : Z) : Z := get_bit_unaligned src 20.
Definition tw (src : Z) : Z := get_bit_unaligned src 21.
Definition tsr (src : Z) : Z := get_bit_unaligned src 22.
Definition sd (src : Z) : Z := get_bit_unaligned src 31.
End MStatusRegister.

Module SATPRegister.
Definition is_bare_aligned_bit (src : Z) : Z := get_bits_and_align_right src 31 1.
Definition ppn (src : Z) : Z := get_bits_and_align_right src 0 22.
End SATPRegister.

(** ** Lemmas *)

Lemma is_a_trap_iff t : is_a_trap t = true <-> t <> NoTrap.
Proof. destruct t; cbn; split; congruence. Qed.

Lemma TrapReason_roundtrip t :
  TrapReason_from_register_value (TrapReason_as_register_value t) =
    if is_a_trap t then Some t else None.
Proof. destruct t; reflexivity. Qed.

(** No trap cause carries the interrupt bit: the interrupt branch of the trap
    handler is never taken for a [TrapReason]. *)
Lemma trap_is_not_interrupt t :
  Z.land (TrapReason_as_register_value t) INTERRUPT_MASK = 0.
Proof. destruct t; reflexivity. Qed.

Lemma Mode_roundtrip m : Mode_from_proper_bit_value (Mode_as_register_value m) = Some m.
Proof. destruct m; reflexivity. Qed.

(** The two mode bits of any flags word decode: the [unreachable_unchecked]
    arm is not reached. *)
Lemma get_current_mode_total f : exists m, ExtraFlags.get_current_mode f = Some m.
Proof.
  unfold ExtraFlags.get_current_mode, Mode_from_proper_bit_value.
  pose proof (get_bits_and_align_right_range f 0 2 ltac:(lia) ltac:(lia) ltac:(lia)).
  repeat case_if; bool_hyps; eauto; lia.
Qed.

Lemma csr_privilege_total n : exists m,
  Mode_from_proper_bit_value (get_bits_and_align_right n 8 2) = Some m.
Proof.
  unfold Mode_from_proper_bit_value.
  pose proof (get_bits_and_align_right_range n 8 2 ltac:(lia) ltac:(lia) ltac:(lia)).
  repeat case_if; bool_hyps; eauto; lia.
Qed.

Lemma land_not32_low f : is_u32 f -> Z.land f (not32 0x3) = f - f mod 4.
Proof.
  intros Hf. change (not32 0x3) with (Z.shiftl (Z.ones 30) 2).
  replace (Z.land f (Z.shiftl (Z.ones 30) 2)) with (Z.shiftl (Z.shiftr f 2) 2).
  - rewrite Z.shiftl_mul_pow2, Z.shiftr_div_pow2 by lia. Z.div_mod_to_equations. lia.
  - apply Z.bits_inj'. intros i Hi. rewrite Z.land_spec, !Z.shiftl_spec by lia.
    destruct (Z.lt_ge_cases i 2).
    + rewrite !(Z.testbit_neg_r _ (i - 2)) by lia. btauto.
    + rewrite Z.shiftr_spec by lia. replace (i - 2 + 2) with i by lia.
      destruct (Z.lt_ge_cases i 32).
      * rewrite Z.ones_spec_low by lia. btauto.
      * rewrite (testbit_high 32 f i) by (auto; lia). reflexivity.
Qed.

Lemma set_mode_spec f m : is_u32 f ->
  ExtraFlags.set_mode f m = f - f mod 4 + Mode_as_register_value m.
Proof.
  intros Hf. unfold ExtraFlags.set_mode. rewrite land_not32_low, Z.lor_comm by auto.
  replace (f - f mod 4) with (f / 4 * 2 ^ 2) by (Z.div_mod_to_equations; lia).
  rewrite lor_add_disjoint; [lia| lia | destruct m; cbn; lia |].
  unfold is_u32 in Hf. Z.div_mod_to_equations. lia.
Qed.

(** Setting the mode is read back, and leaves every other flag alone. *)
Lemma set_mode_get f m : is_u32 f ->
  ExtraFlags.get_current_mode (ExtraFlags.set_mode f m) = Some m /\
  ExtraFlags.set_mode f m / 4 = f / 4.
Proof.
  intros Hf. rewrite set_mode_spec by auto. unfold ExtraFlags.get_current_mode.
  rewrite get_bits_and_align_right_spec by lia.
  assert (0 <= Mode_as_register_value m < 4) by (destruct m; cbn; lia).
  replace ((f - f mod 4 + Mode_as_register_value m) / 2 ^ 0 mod 2 ^ 2)
    with (Mode_as_register_value m) by (Z.div_mod_to_equations; lia).
  rewrite Mode_roundtrip. split; [reflexivity|]. Z.div_mod_to_equations. lia.
Qed.

(** ** Main theorem *)

(** Switching the privilege mode is read back by [get_current_mode], keeps
    the wait-for-interrupt bit and every other flag, and any flags word at all
    holds a valid mode, so the [unreachable_unchecked] arm of the decoding is
    never taken. *)
Theorem mode_flags_roundtrip f m : is_u32 f ->
  (exists m0, ExtraFlags.get_current_mode f = Some m0) /\
  ExtraFlags.get_current_mode (ExtraFlags.set_mode f m) = Some m /\
  ExtraFlags.get_wait_for_interrupt (ExtraFlags.set_mode f m) = ExtraFlags.get_wait_for_interrupt f /\
  ExtraFlags.set_mode f m / 4 = f / 4.
Proof.
  intros Hf. destruct (set_mode_get f m Hf) as [Hm Hd].
  split; [apply get_current_mode_total|]. split; [exact Hm|]. split; [|exact Hd].
  unfold ExtraFlags.get_wait_for_interrupt, get_bit_unaligned.
  apply Z.bits_inj'. intros i Hi. rewrite !Z.land_spec.
  destruct (Z.eq_dec i 2) as [->|Hne].
  - f_equal. pose proof (f_equal (fun x => Z.testbit x 0) Hd) as Hb. cbv beta in Hb.
    change 4 with (2 ^ 2) in Hb. rewrite !Z.div_pow2_bits in Hb by lia. exact Hb.
  - change (shl32 1 ExtraFlags.WAIT_FOR_INTERRUPT_BIT) with (2 ^ 2).
    rewrite Z.pow2_bits_false by lia. btauto.
Qed.

Lemma mode_flags_roundtrip_witness :
  ExtraFlags.get_current_mode (ExtraFlags.set_mode 0xff Supervisor) = Some Supervisor /\
  ExtraFlags.set_mode 0xff Supervisor = 0xfd.
Proof.
  destruct (mode_flags_roundtrip 0xff Supervisor) as (_ & Hm & _ & _); [unfold is_u32; lia|].
  split; [exact Hm | reflexivity].
Defined.
