(* ===== verification/Config.v ===== *)
(** * Machine configurations

    [src/risc_v_simulator/src/cycle/mod.rs]: the [MachineConfig] trait (its
    associated constants as a record) and its five implementations, with the
    default [delegation] feature enabled. *)
From stdpp Require Import base list.
From Stdlib Require Import ZArith.
From S2P Require Import Prelude.

Record MachineConfig : Type := {
  SUPPORT_MUL : bool;
  SUPPORT_DIV : bool;
  SUPPORT_SIGNED_MUL : bool;
  SUPPORT_SIGNED_DIV : bool;
  SUPPORT_SIGNED_LOAD : bool;
  SUPPORT_LOAD_LESS_THAN_WORD : bool;
  SUPPORT_SRA : bool;
  SUPPORT_ROT : bool;
  SUPPORT_MOPS : bool;
  HANDLE_EXCEPTIONS : bool;
  SUPPORT_STANDARD_CSRS : bool;
  SUPPORT_ONLY_CSRRW : bool;
  ALLOWED_DELEGATION_CSRS : list Z;
}.

Definition NON_DETERMINISM_CSR : Z := 0x7c0.
Definition MARKER_CSR : Z := 0x7ff.
Definition BLAKE2_ROUND_FUNCTION_WITH_EXTENDED_CONTROL_ACCESS_ID : Z := NON_DETERMINISM_CSR + 7.
Definition U256_OPS_WITH_CONTROL_ACCESS_ID : Z := NON_DETERMINISM_CSR + 10.

Definition IMStandardIsaConfig : MachineConfig := {|
  SUPPORT_MUL := true; SUPPORT_DIV := true;
  SUPPORT_SIGNED_MUL := true; SUPPORT_SIGNED_DIV := true;
  SUPPORT_SIGNED_LOAD := true; SUPPORT_LOAD_LESS_THAN_WORD := true;
  SUPPORT_SRA := true; SUPPORT_ROT := false; SUPPORT_MOPS := false;
  HANDLE_EXCEPTIONS := false; SUPPORT_STANDARD_CSRS := false; SUPPORT_ONLY_CSRRW := true;
  ALLOWED_DELEGATION_CSRS :=
    [BLAKE2_ROUND_FUNCTION_WITH_EXTENDED_CONTROL_ACCESS_ID; U256_OPS_WITH_CONTROL_ACCESS_ID];
|}.

Definition IMWithoutSignedMulDivIsaConfig : MachineConfig := {|
  SUPPORT_MUL := true; SUPPORT_DIV := true;
  SUPPORT_SIGNED_MUL := false; SUPPORT_SIGNED_DIV := false;
  SUPPORT_SIGNED_LOAD := true; SUPPORT_LOAD_LESS_THAN_WORD := true;
  SUPPORT_SRA := true; SUPPORT_ROT := false; SUPPORT_MOPS := false;
  HANDLE_EXCEPTIONS := false; SUPPORT_STANDARD_CSRS := false; SUPPORT_ONLY_CSRRW := true;
  ALLOWED_DELEGATION_CSRS :=
    [BLAKE2_ROUND_FUNCTION_WITH_EXTENDED_CONTROL_ACCESS_ID; U256_OPS_WITH_CONTROL_ACCESS_ID];
|}.

Definition IWithoutByteAccessIsaConfigWithDelegation : MachineConfig := {|
  SUPPORT_MUL := false; SUPPORT_DIV := false;
  SUPPORT_SIGNED_MUL := false; SUPPORT_SIGNED_DIV := false;
  SUPPORT_SIGNED_LOAD := false; SUPPORT_LOAD_LESS_THAN_WORD := false;
  SUPPORT_SRA := true; SUPPORT_ROT := false; SUPPORT_MOPS := true;
  HANDLE_EXCEPTIONS := false; SUPPORT_STANDARD_CSRS := false; SUPPORT_ONLY_CSRRW := true;
  ALLOWED_DELEGATION_CSRS := [BLAKE2_ROUND_FUNCTION_WITH_EXTENDED_CONTROL_ACCESS_ID];
|}.

Definition IWithoutByteAccessIsaConfig : MachineConfig := {|
  SUPPORT_MUL := false; SUPPORT_DIV := false;
  SUPPORT_SIGNED_MUL := false; SUPPORT_SIGNED_DIV := false;
  SUPPORT_SIGNED_LOAD := false; SUPPORT_LOAD_LESS_THAN_WORD := false;
  SUPPORT_SRA := true; SUPPORT_ROT := false; SUPPORT_MOPS := true;
  HANDLE_EXCEPTIONS := false; SUPPORT_STANDARD_CSRS := false; SUPPORT_ONLY_CSRRW := true;
  ALLOWED_DELEGATION_CSRS := [];
|}.

Definition IMIsaConfigWithAllDelegations : MachineConfig := {|
  SUPPORT_MUL := true; SUPPORT_DIV := true;
  SUPPORT_SIGNED_MUL := true; SUPPORT_SIGNED_DIV := true;
  SUPPORT_SIGNED_LOAD := true; SUPPORT_LOAD_LESS_THAN_WORD := true;
  SUPPORT_SRA := true; SUPPORT_ROT := false; SUPPORT_MOPS := true;
  HANDLE_EXCEPTIONS := false; SUPPORT_STANDARD_CSRS := false; SUPPORT_ONLY_CSRRW := true;
  ALLOWED_DELEGATION_CSRS :=
    [BLAKE2_ROUND_FUNCTION_WITH_EXTENDED_CONTROL_ACCESS_ID; U256_OPS_WITH_CONTROL_ACCESS_ID];
|}.

(** [ALLOWED_DELEGATION_CSRS.contains(&csr)] *)
Definition allows_csr (C : MachineConfig) (csr : Z) : bool :=
  existsb (fun c => c =? csr) (ALLOWED_DELEGATION_CSRS C).
