(* ===== verification/Memory.v ===== *)
(** * Memory

    [src/risc_v_simulator/src/abstractions/memory.rs] (the [MemorySource]
    trait and [VectorMemoryImpl]), [abstractions/tracer.rs] (the events a
    tracer receives), [abstractions/mod.rs] (the trapping [mem_read] and
    [mem_write] of the first simulator) and [cycle/utils.rs] (the panicking
    ones of the unrolled simulator).

    A tracer only receives values, so it is modelled by the list of events it
    was sent, oldest first; any implementation of the trait is a fold over
    that list. *)
From stdpp Require Import base list strings.
From Stdlib Require Import ZArith Lia Btauto.
From S2P Require Import Prelude MachineInt Decoder StatusRegisters Config.

(** ** Access types *)

Inductive AccessType : Type :=
| Instruction | MemLoad | MemStore | RegReadFirst | RegReadSecond | RegWrite | None_access.

#[export] Instance AccessType_eq_dec : EqDecision AccessType.
Proof. solve_decision. Defined.

Definition is_write_access (a : AccessType) : bool :=
  match a with MemStore | RegWrite | None_access => true | _ => false end.
Definition is_read_access (a : AccessType) : bool := negb (is_write_access a).
Definition is_reg_access (a : AccessType) : bool :=
  match a with RegReadFirst | RegReadSecond | RegWrite => true | _ => false end.
Definition AccessType_from_idx (idx : Z) : AccessType :=
  if idx =? 0 then Instruction else if idx =? 1 then MemLoad
  else if idx =? 2 then MemStore else if idx =? 3 then RegReadFirst
  else if idx =? 4 then RegReadSecond else if idx =? 5 then RegWrite
  else None_access.

(** ** The MemorySource trait

    [get] and [set] take [trap: &mut TrapReason]: an access either leaves the
    trap alone, sets it (and still returns a value), or panics. *)
Inductive access (A : Type) : Type :=
| Accessed (a : A)
| Faulted (t : TrapReason) (a : A)
| AccessPanic (msg : string).
Arguments Accessed {A} a.
Arguments Faulted {A} t a.
Arguments AccessPanic {A} msg.

Class MemorySource (M : Type) : Type := {
  ms_get : M -> Z -> AccessType -> access Z;
  ms_set : M -> Z -> Z -> AccessType -> access M;
}.

Section Defaults.
Context {M : Type} `{MemorySource M} {E : Type}.

(** Accesses that ignore the trap. *)
Definition noexcept {A S} (a : access A) : comp E S A :=
  match a with
  | Accessed v => ret v
  | Faulted _ v => ret v
  | AccessPanic msg => panic msg
  end.

Definition set_noexcept (phys_address value : Z) : comp E M unit := fun m =>
  (let! m' := noexcept (ms_set m phys_address value MemStore) in modify (fun _ => m')) m.
Definition get_noexcept (phys_address : Z) : comp E M Z := fun m =>
  noexcept (ms_get m phys_address MemLoad) m.
Definition get_opcode_noexcept (phys_address : Z) : comp E M Z := fun m =>
  noexcept (ms_get m phys_address Instruction) m.
End Defaults.

(** ** VectorMemoryImpl *)

Record VectorMemoryImpl : Type := { inner : list Z }.

Definition out_of_range {A} (access_type : AccessType) (v : A) : access A :=
  match access_type with
  | Instruction => Faulted InstructionAccessFault v
  | MemLoad => Faulted LoadAccessFault v
  | MemStore => Faulted StoreOrAMOAccessFault v
  | _ => AccessPanic "internal error: entered unreachable code"
  end.

Definition VectorMemoryImpl_get (m : VectorMemoryImpl) (phys_address : Z) (access_type : AccessType)
    : access Z :=
  if phys_address / 4 <? Z.of_nat (length (inner m))
  then Accessed (nthZ (inner m) (phys_address / 4))
  else out_of_range access_type 0.

Definition VectorMemoryImpl_set (m : VectorMemoryImpl) (phys_address value : Z)
    (access_type : AccessType) : access VectorMemoryImpl :=
  if phys_address / 4 <? Z.of_nat (length (inner m))
  then Accessed {| inner := <[Z.to_nat (phys_address / 4) := value]> (inner m) |}
  else out_of_range access_type m.

#[export] Instance VectorMemoryImpl_MemorySource : MemorySource VectorMemoryImpl := {
  ms_get := VectorMemoryImpl_get;
  ms_set := VectorMemoryImpl_set;
}.

(** [None]: the assertion or the index check fails. *)
Definition new_for_byte_size (bytes : Z) : option VectorMemoryImpl :=
  if bytes mod 4 =? 0
  then Some {| inner := replicate (Z.to_nat (bytes / 4)) 0 |}
  else None.

Definition populate (m : VectorMemoryImpl) (address value : Z) : option VectorMemoryImpl :=
  if (address mod 4 =? 0) && (address / 4 <? Z.of_nat (length (inner m)))
  then Some {| inner := <[Z.to_nat (address / 4) := value]> (inner m) |}
  else None.

(** [array_chunks::<4>()]: whole chunks only. *)
Fixpoint chunks4 (bytes : list Z) : list (list Z) :=
  match bytes with
  | a :: b :: c :: d :: rest => [a; b; c; d] :: chunks4 rest
  | _ => []
  end.

Fixpoint overwrite (words dst : list Z) : list Z :=
  match words, dst with
  | w :: ws, _ :: ds => w :: overwrite ws ds
  | _, _ => dst
  end.

Definition load_image (m : VectorMemoryImpl) (entry_point : Z) (bytes : list Z)
    : option VectorMemoryImpl :=
  let start := Z.to_nat (entry_point / 4) in
  if (start <=? length (inner m))%nat
  then Some {| inner := take start (inner m)
                          ++ overwrite (map from_le_bytes (chunks4 bytes)) (drop start (inner m)) |}
  else None.

(** ** Tracer events *)

Inductive BatchAccessPartialData : Type :=
| BatchRead (read_value : Z)
| BatchWrite (read_value written_value : Z).

(** The timestamps are [EMPTY] in every record the simulators build; the
    tracer fills them. *)
Record RegisterOrIndirectReadData : Type := { ro_read_value : Z }.
Record RegisterOrIndirectReadWriteData : Type := { rw_read_value : Z; rw_write_value : Z }.

Record RiscV32ObservableState : Type := { registers : list Z; pc : Z }.

Inductive TraceEvent : Type :=
| at_cycle_start (s : RiscV32ObservableState)
| at_cycle_end (s : RiscV32ObservableState)
| trace_opcode_read (phys_address read_value : Z)
| trace_rs1_read (reg_idx read_value : Z)
| trace_rs2_read (reg_idx read_value : Z)
| trace_rd_write (reg_idx read_value written_value : Z)
| trace_non_determinism_read (read_value : Z)
| trace_non_determinism_write (written_value : Z)
| trace_ram_read (phys_address read_value : Z)
| trace_ram_read_write (phys_address read_value written_value : Z)
| record_delegation (access_id base_register : Z)
    (register_accesses : list RegisterOrIndirectReadWriteData)
    (indirect_read_addresses : list Z) (indirect_reads : list RegisterOrIndirectReadData)
    (indirect_write_addresses : list Z) (indirect_writes : list RegisterOrIndirectReadWriteData).

(** Memory and tracer: the part of the machine the trapping accessors and the
    page walk work on. *)
Record MemTrace (M : Type) : Type := { mt_mem : M; mt_trace : list TraceEvent }.
Arguments mt_mem {M}.
Arguments mt_trace {M}.

(** ** Accesses narrower than a word *)

(** The (unalignment, num_bytes) pairs the two [match]es accept. *)
Definition legal_access (C : MachineConfig) (unalignment num_bytes : Z) : bool :=
  if SUPPORT_LOAD_LESS_THAN_WORD C then
    ((unalignment =? 0) && (num_bytes =? 4))
    || ((unalignment =? 0) && (num_bytes =? 2)) || ((unalignment =? 2) && (num_bytes =? 2))
    || ((unalignment =? 0) && (num_bytes =? 1)) || ((unalignment =? 1) && (num_bytes =? 1))
    || ((unalignment =? 2) && (num_bytes =? 1)) || ((unalignment =? 3) && (num_bytes =? 1))
  else (unalignment =? 0) && (num_bytes =? 4).

(** [None] is the [unreachable_unchecked] arm. *)
Definition value_mask (num_bytes : Z) : option Z :=
  if num_bytes =? 1 then Some 0x000000ff
  else if num_bytes =? 2 then Some 0x0000ffff
  else if num_bytes =? 4 then Some 0xffffffff
  else None.

Definition mask_old (unalignment num_bytes : Z) : option Z :=
  match unalignment, num_bytes with
  | 0, 1 => Some 0xffffff00
  | 0, 2 => Some 0xffff0000
  | 0, 4 => Some 0x00000000
  | 1, 1 => Some 0xffff00ff
  | 1, 2 => Some 0xffff00ff
  | 2, 1 => Some 0xff00ffff
  | 2, 2 => Some 0x0000ffff
  | 3, 1 => Some 0x00ffffff
  | _, _ => None
  end.

Definition aligned_address (phys_address : Z) : Z := Z.land phys_address (u64 (Z.lnot 3)).

(** The value part of a load: shift and mask of the aligned word. *)
Definition loaded_value (C : MachineConfig) (word unalignment num_bytes : Z) : option Z :=
  if SUPPORT_LOAD_LESS_THAN_WORD C
  then option_map (fun mask => Z.land (Z.shiftr word (unalignment * 8)) mask) (value_mask num_bytes)
  else Some word.

(** The word a store writes back. *)
Definition stored_value (C : MachineConfig) (old_value value unalignment num_bytes : Z) : option Z :=
  if SUPPORT_LOAD_LESS_THAN_WORD C
  then match value_mask num_bytes, mask_old unalignment num_bytes with
       | Some vm, Some mo =>
           Some (Z.lor (shl32 (Z.land value vm) (unalignment * 8)) (Z.land old_value mo))
       | _, _ => None
       end
  else Some value.

Definition or_ub {E S A} (o : option A) : comp E S A :=
  match o with Some a => ret a | None => panic UB end.

(** ** abstractions/mod.rs: accesses of the first simulator *)
Module Trapping.
Section Access.
Context {M : Type} `{MemorySource M} (C : MachineConfig).
Notation act := (comp TrapReason (MemTrace M)).

Definition emit (ev : TraceEvent) : act unit :=
  modify (fun s => {| mt_mem := mt_mem s; mt_trace := mt_trace s ++ [ev] |}).

(** Turn the access into an effect; a fault still emits [ev v]. *)
Definition traced_get (a : Z) (access_type : AccessType) (ev : Z -> TraceEvent) : act Z :=
  fun s => match ms_get (mt_mem s) a access_type with
           | Accessed v => (emit (ev v) ;;! ret v) s
           | Faulted t v => (emit (ev v) ;;! trap_with t) s
           | AccessPanic msg => Panic msg
           end.

Definition mem_read (phys_address num_bytes : Z) (access_type : AccessType) : act Z :=
  assert_or_panic (bool_decide (access_type = Instruction) || bool_decide (access_type = MemLoad))
    "assertion failed: access_type" ;;!
  let unalignment := Z.land phys_address 3 in
  let aligned := aligned_address phys_address in
  if legal_access C unalignment num_bytes then
    let! value := traced_get aligned access_type
      (if bool_decide (access_type = Instruction) then trace_opcode_read aligned
       else trace_ram_read aligned) in
    or_ub (loaded_value C value unalignment num_bytes)
  else trap_with LoadAddressMisaligned.

Definition mem_write (phys_address value num_bytes : Z) : act unit :=
  let unalignment := Z.land phys_address 3 in
  let aligned := aligned_address phys_address in
  if legal_access C unalignment num_bytes then
    let! old_value := fun s =>
      match ms_get (mt_mem s) aligned MemLoad with
      | Accessed v => Ok v s
      | Faulted t _ => Trapped t s
      | AccessPanic msg => Panic msg
      end in
    let! new_value := or_ub (stored_value C old_value value unalignment num_bytes) in
    fun s =>
      let ev := trace_ram_read_write aligned old_value new_value in
      match ms_set (mt_mem s) aligned new_value MemStore with
      | Accessed m' => Ok tt {| mt_mem := m'; mt_trace := mt_trace s ++ [ev] |}
      | Faulted t m' => Trapped t {| mt_mem := m'; mt_trace := mt_trace s ++ [ev] |}
      | AccessPanic msg => Panic msg
      end
  else trap_with StoreOrAMOAddressMisaligned.
End Access.
End Trapping.

(** ** cycle/utils.rs: accesses of the unrolled simulator *)
Module Panicking.
Section Access.
Context {M : Type} `{MemorySource M} (C : MachineConfig).
Notation act := (comp Empty_set M).

Definition opcode_read (pc : Z) : act Z := get_opcode_noexcept pc.

Definition mem_read (phys_address num_bytes : Z) : act (Z * Z) :=
  let unalignment := u8 (Z.land phys_address 3) in
  let! aligned_value := get_noexcept (aligned_address phys_address) in
  if legal_access C unalignment num_bytes then
    let! value := or_ub (loaded_value C aligned_value unalignment num_bytes) in
    ret (aligned_value, value)
  else panic "Unsupported access".

Definition mem_write (phys_address value num_bytes : Z) : act (Z * Z) :=
  let unalignment := u8 (Z.land phys_address 3) in
  let aligned := aligned_address phys_address in
  let! old_aligned_value := get_noexcept aligned in
  if legal_access C unalignment num_bytes then
    let! new_value := or_ub (stored_value C old_aligned_value value unalignment num_bytes) in
    set_noexcept aligned new_value ;;!
    ret (old_aligned_value, new_value)
  else panic "Unsupported access".
End Access.
End Panicking.

(** ** Bytes of a word *)

Definition byte (w i : Z) : Z := Z.land (Z.shiftr w (8 * i)) 255.

Lemma byte_range w i : 0 <= byte w i < 256.
Proof. unfold byte. rewrite (land_mask_mod _ 8) by (lia || reflexivity). apply mod_range; lia. Qed.

Lemma byte_u32 w i : is_u32 (byte w i).
Proof. pose proof (byte_range w i). unfold is_u32. lia. Qed.

Lemma legal_access_cases C o n : legal_access C o n = true ->
  In (o, n) [(0, 4); (0, 2); (2, 2); (0, 1); (1, 1); (2, 1); (3, 1)] /\
  (SUPPORT_LOAD_LESS_THAN_WORD C = false -> o = 0 /\ n = 4).
Proof.
  unfold legal_access. destruct (SUPPORT_LOAD_LESS_THAN_WORD C); intros H; split; try easy.
  - repeat (apply orb_prop in H; destruct H as [H | H]); bool_hyps; subst; cbn; tauto.
  - bool_hyps; subst; cbn; tauto.
  - bool_hyps; subst; tauto.
Qed.

(** Split a legal access into the seven (unalignment, size) pairs. *)
Ltac legal_cases H :=
  apply legal_access_cases in H; destruct H as [H ?]; cbn [In] in H;
  repeat match goal with
  | HH : _ \/ _ |- _ => destruct HH as [HH | HH]
  | HH : (_, _) = (_, _) |- _ => inversion HH; clear HH; subst
  | HH : False |- _ => destruct HH
  end.

Lemma byte_lor a b i : byte (Z.lor a b) i = Z.lor (byte a i) (byte b i).
Proof. unfold byte. rewrite Z.shiftr_lor, !(Z.land_comm _ 255). apply Z.land_lor_distr_r. Qed.

Lemma byte_land a b i : byte (Z.land a b) i = Z.land (byte a i) (byte b i).
Proof.
  unfold byte. rewrite Z.shiftr_land. apply Z.bits_inj'. intros j _.
  rewrite !Z.land_spec. btauto.
Qed.

Lemma byte_u32_shiftl a k i : 0 <= k -> 0 <= i < 4 ->
  byte (u32 (Z.shiftl a (8 * k))) i = if i <? k then 0 else byte a (i - k).
Proof.
  intros Hk Hi. unfold byte. apply Z.bits_inj'. intros j Hj.
  rewrite Z.land_spec, Z.shiftr_spec, testbit_u32, Z.shiftl_spec by lia.
  change 255 with (Z.ones 8). destruct (Z.lt_ge_cases j 8).
  - rewrite Z.ones_spec_low, andb_true_r by lia.
    destruct (Z.ltb_spec (j + 8 * i) 32); [|lia].
    destruct (Z.ltb_spec i k).
    + rewrite Z.bits_0, Z.testbit_neg_r by lia. reflexivity.
    + rewrite Z.land_spec, Z.ones_spec_low, andb_true_r, Z.shiftr_spec by lia. f_equal. lia.
  - rewrite Z.ones_spec_high, andb_false_r by lia.
    destruct (i <? k); [rewrite Z.bits_0; reflexivity|].
    rewrite Z.land_spec, Z.ones_spec_high, andb_false_r by lia. reflexivity.
Qed.

Lemma byte_land_255 w i : Z.land (byte w i) 255 = byte w i.
Proof.
  pose proof (byte_range w i). rewrite (land_mask_mod _ 8) by (lia || reflexivity).
  apply Z.mod_small. lia.
Qed.

Lemma byte_shiftr w o i : 0 <= o -> 0 <= i -> byte (Z.shiftr w (o * 8)) i = byte w (o + i).
Proof. intros. unfold byte. rewrite Z.shiftr_shiftr by lia. do 2 f_equal. lia. Qed.

Create HintDb bytes.
#[export] Hint Rewrite byte_lor byte_land byte_land_255 Z.land_0_r Z.lor_0_l Z.lor_0_r : bytes.

(** Evaluate the bytes of mask constants and the comparisons of byte indices. *)
Ltac byte_consts :=
  repeat match goal with
  | |- context [byte ?c ?i] => is_Zcst c; is_Zcst i;
      let b := eval vm_compute in (byte c i) in change (byte c i) with b
  | |- context [?i <? ?j] =>
      let b := eval vm_compute in (i <? j) in
      lazymatch b with true => idtac | false => idtac end; change (i <? j) with b; cbv iota
  | |- context [?i <=? ?j] =>
      let b := eval vm_compute in (i <=? j) in
      lazymatch b with true => idtac | false => idtac end; change (i <=? j) with b; cbv iota
  | |- context [byte ?w ?i] =>
      let j := eval vm_compute in i in is_Zcst j; progress change (byte w i) with (byte w j)
  end; cbn [andb].

Ltac index_cases i :=
  match goal with
  | H : 0 <= i < 4 |- _ =>
      let Hc := fresh in
      assert (Hc : i = 0 \/ i = 1 \/ i = 2 \/ i = 3) by lia;
      clear H; destruct Hc as [-> | [-> | [-> | ->]]]
  end.

(** A narrow store replaces exactly the addressed bytes of the word. *)
Lemma stored_value_bytes C old v o n :
  is_u32 old -> is_u32 v -> legal_access C o n = true ->
  exists w, stored_value C old v o n = Some w /\ is_u32 w /\
    forall i, 0 <= i < 4 -> byte w i = if (o <=? i) && (i <? o + n) then byte v (i - o) else byte old i.
Proof.
  intros Hold Hv Hl. unfold stored_value.
  destruct (SUPPORT_LOAD_LESS_THAN_WORD C) eqn:EC; legal_cases Hl;
    try (match goal with H : _ -> _ |- _ => specialize (H EC); lia end);
    cbn [value_mask mask_old Z.eqb Pos.eqb]; eexists; (split; [reflexivity|]);
    (split; [try (apply lor_u32; [apply shl32_range | apply land_u32; [auto|lia]]); auto |]);
    intros i Hi;
    rewrite ?byte_lor; unfold shl32; rewrite ?(Z.mul_comm _ 8), ?byte_u32_shiftl by lia;
    index_cases i; byte_consts; autorewrite with bytes; byte_consts; autorewrite with bytes;
    reflexivity.
Qed.

(** A narrow load returns the addressed bytes, zero-extended. *)
Lemma loaded_value_bytes C w o n :
  is_u32 w -> legal_access C o n = true ->
  exists r, loaded_value C w o n = Some r /\ is_u32 r /\
    forall i, 0 <= i < 4 -> byte r i = if i <? n then byte w (o + i) else 0.
Proof.
  intros Hw Hl. unfold loaded_value.
  destruct (SUPPORT_LOAD_LESS_THAN_WORD C) eqn:EC; legal_cases Hl;
    try (match goal with H : _ -> _ |- _ => specialize (H EC); lia end);
    cbn [value_mask option_map Z.eqb Pos.eqb]; eexists; (split; [reflexivity|]);
    (split; [try (apply land_u32; [apply shr32_range|]); auto; lia |]);
    intros i Hi; rewrite ?byte_land, ?byte_shiftr by lia;
    index_cases i; byte_consts; autorewrite with bytes; byte_consts; reflexivity.
Qed.

(** ** What a memory promises

    The simulators only rely on this: some word addresses are backed, a backed
    word is read without a fault, a store to it changes that word alone, and
    an access outside faults (or, for a load whose fault the caller ignores,
    yields some word).  Delegations access memory as [RegWrite]. *)
Definition reading (t : AccessType) : Prop := t = Instruction \/ t = MemLoad \/ t = RegWrite.
Definition writing (t : AccessType) : Prop := t = MemStore \/ t = RegWrite.

(** The access faults or panics. *)
Definition refused {A} (a : access A) : Prop :=
  match a with Accessed _ => False | Faulted _ _ => True | AccessPanic msg => msg <> UB end.

Class LawfulMemory (M : Type) `{MemorySource M} : Type := {
  ms_word : M -> Z -> option Z;
  ms_get_backed m a t w :
    a mod 4 = 0 -> reading t -> ms_word m a = Some w -> ms_get m a t = Accessed w;
  ms_get_unbacked m a t :
    a mod 4 = 0 -> t = Instruction \/ t = MemLoad ->
    ms_word m a = None -> exists tr v, ms_get m a t = Faulted tr v /\ is_u32 v;
  ms_get_unbacked_reg m a :
    a mod 4 = 0 -> ms_word m a = None -> refused (ms_get m a RegWrite);
  ms_set_backed m a v t w :
    a mod 4 = 0 -> 0 <= a -> writing t -> ms_word m a = Some w ->
    exists m', ms_set m a v t = Accessed m' /\ ms_set m a v MemStore = Accessed m' /\
      ms_word m' a = Some v /\
      (forall b, b mod 4 = 0 -> 0 <= b -> b <> a -> ms_word m' b = ms_word m b);
  ms_set_unbacked m a v :
    a mod 4 = 0 -> ms_word m a = None ->
    exists tr, ms_set m a v MemStore = Faulted tr m;
  ms_set_unbacked_reg m a v :
    a mod 4 = 0 -> ms_word m a = None -> refused (ms_set m a v RegWrite);
}.

Definition VectorMemoryImpl_word (m : VectorMemoryImpl) (a : Z) : option Z :=
  if a / 4 <? Z.of_nat (length (inner m)) then Some (nthZ (inner m) (a / 4)) else None.

#[export] Instance VectorMemoryImpl_lawful : LawfulMemory VectorMemoryImpl.
Proof.
  refine {| ms_word := VectorMemoryImpl_word |};
    unfold VectorMemoryImpl_word; cbn [ms_get ms_set VectorMemoryImpl_MemorySource];
    unfold VectorMemoryImpl_get, VectorMemoryImpl_set.
  - intros m a t w _ _. case_if; intros; simplify_eq; reflexivity.
  - intros m a t _ Ht. case_if; [discriminate|]. intros _.
    destruct Ht as [-> | ->]; cbn; do 2 eexists; split; reflexivity || (unfold is_u32; lia).
  - intros m a _. case_if; [discriminate|]. intros _. cbn. discriminate.
  - intros m a v t w Ha Hpos _. case_if; [|discriminate]. bool_hyps. intros _.
    eexists. split; [reflexivity|]. split; [reflexivity|].
    cbn [inner]. rewrite length_insert. unfold nthZ. split.
    + case_if; bool_hyps; [|lia]. rewrite nth_insert_eq; [reflexivity|].
      Z.div_mod_to_equations. lia.
    + intros b Hb Hbp Hne. case_if; [|reflexivity].
      rewrite nth_insert_ne; [reflexivity|]. Z.div_mod_to_equations. lia.
  - intros m a v Ha. case_if; [discriminate|]. intros _. eexists. reflexivity.
  - intros m a v _. case_if; [discriminate|]. intros _. cbn. discriminate.
Defined.

Lemma aligned_address_spec a : is_u64 a -> aligned_address a = a - a mod 4.
Proof.
  intros Ha. unfold aligned_address. change (u64 (Z.lnot 3)) with (Z.shiftl (Z.ones 62) 2).
  replace (Z.land a (Z.shiftl (Z.ones 62) 2)) with (Z.shiftl (Z.shiftr a 2) 2).
  - rewrite Z.shiftl_mul_pow2, Z.shiftr_div_pow2 by lia. Z.div_mod_to_equations. lia.
  - apply Z.bits_inj'. intros i Hi. rewrite Z.land_spec, !Z.shiftl_spec by lia.
    destruct (Z.lt_ge_cases i 2).
    + rewrite !(Z.testbit_neg_r _ (i - 2)) by lia. btauto.
    + rewrite Z.shiftr_spec by lia. replace (i - 2 + 2) with i by lia.
      destruct (Z.lt_ge_cases i 64).
      * rewrite Z.ones_spec_low by lia. btauto.
      * rewrite (testbit_high 64 a i) by (auto; lia). reflexivity.
Qed.

Lemma u32_is_u64 a : is_u32 a -> is_u64 a.
Proof. unfold is_u32, is_u64. lia. Qed.

Lemma u8_unalignment a : u8 (Z.land a 3) = a mod 4.
Proof. rewrite land_3. apply u8_small. pose proof (Z.mod_pos_bound a 4). lia. Qed.

Lemma aligned_mod a : (a - a mod 4) mod 4 = 0.
Proof. Z.div_mod_to_equations. lia. Qed.

(** ** Byte-level contract of the panicking accessors *)
Section ByteContract.
Context {M : Type} `{LawfulMemory M} (C : MachineConfig).

(** The memory as an array of bytes. *)
Definition mem_byte (m : M) (a : Z) : option Z :=
  option_map (fun w => byte w (a mod 4)) (ms_word m (a - a mod 4)).

Definition words_u32 (m : M) : Prop :=
  forall a w, a mod 4 = 0 -> 0 <= a -> ms_word m a = Some w -> is_u32 w.

Lemma aligned_nonneg a : 0 <= a -> 0 <= a - a mod 4.
Proof. intros. Z.div_mod_to_equations. lia. Qed.

Lemma words_u32_at m a w : words_u32 m -> is_u64 a -> ms_word m (a - a mod 4) = Some w -> is_u32 w.
Proof. intros Hm [Ha _]. apply Hm; [apply aligned_mod | apply aligned_nonneg; lia]. Qed.

Lemma get_noexcept_backed {E} m a w :
  a mod 4 = 0 -> ms_word m a = Some w -> get_noexcept (E:=E) a m = Ok w m.
Proof. intros Ha Hw. unfold get_noexcept. rewrite (ms_get_backed m a MemLoad w); unfold reading; auto. Qed.

Lemma get_opcode_noexcept_backed {E} m a w :
  a mod 4 = 0 -> ms_word m a = Some w -> get_opcode_noexcept (E:=E) a m = Ok w m.
Proof. intros Ha Hw. unfold get_opcode_noexcept. rewrite (ms_get_backed m a Instruction w); unfold reading; auto. Qed.

Lemma mem_write_backed a v n m w :
  is_u64 a -> is_u32 v -> is_u32 w ->
  legal_access C (a mod 4) n = true -> ms_word m (a - a mod 4) = Some w ->
  exists new m', Panicking.mem_write C a v n m = Ok (w, new) m' /\
    stored_value C w v (a mod 4) n = Some new /\
    ms_set m (a - a mod 4) new MemStore = Accessed m' /\
    ms_word m' (a - a mod 4) = Some new /\
    (forall b, b mod 4 = 0 -> 0 <= b -> b <> a - a mod 4 -> ms_word m' b = ms_word m b).
Proof.
  intros Ha Hv Hw Hl Hm. unfold Panicking.mem_write.
  rewrite u8_unalignment, aligned_address_spec, Hl by auto.
  destruct (stored_value_bytes C w v (a mod 4) n) as (new & Hs & _); auto.
  destruct (ms_set_backed m (a - a mod 4) new MemStore w) as (m' & Hset & _ & Hsame & Hother);
    unfold writing; auto using aligned_mod.
  { unfold is_u64 in Ha. Z.div_mod_to_equations. lia. }
  exists new, m'. split_and!; auto.
  unfold bind at 1. rewrite (get_noexcept_backed m _ w) by auto using aligned_mod.
  rewrite Hs. unfold bind, set_noexcept. cbn. rewrite Hset. reflexivity.
Qed.

Lemma mem_read_backed a n m w :
  is_u64 a -> is_u32 w ->
  legal_access C (a mod 4) n = true -> ms_word m (a - a mod 4) = Some w ->
  exists r, Panicking.mem_read C a n m = Ok (w, r) m /\ is_u32 r /\
    loaded_value C w (a mod 4) n = Some r.
Proof.
  intros Ha Hw Hl Hm. unfold Panicking.mem_read.
  rewrite u8_unalignment, aligned_address_spec, Hl by auto.
  destruct (loaded_value_bytes C w (a mod 4) n) as (r & Hr & Hru & _); auto.
  exists r. unfold bind at 1. rewrite (get_noexcept_backed m _ w) by auto using aligned_mod.
  rewrite Hr. auto.
Qed.

(** A store of [n] bytes sets exactly the bytes [a .. a + n - 1]. *)
Lemma mem_write_bytes a v n m w :
  is_u64 a -> is_u32 v -> words_u32 m ->
  legal_access C (a mod 4) n = true -> ms_word m (a - a mod 4) = Some w ->
  exists new m', Panicking.mem_write C a v n m = Ok (w, new) m' /\
    forall b, 0 <= b ->
      mem_byte m' b = if (a <=? b) && (b <? a + n) then Some (byte v (b - a)) else mem_byte m b.
Proof.
  intros Ha Hv Hwf Hl Hm. pose proof (words_u32_at _ _ _ Hwf Ha Hm) as Hw.
  destruct (mem_write_backed a v n m w Ha Hv Hw Hl Hm) as (new & m' & Hr & Hs & _ & Hsame & Hother).
  exists new, m'. split; [exact Hr|]. intros b Hb. unfold mem_byte.
  destruct (stored_value_bytes C w v (a mod 4) n Hw Hv Hl) as (new' & Hs' & _ & Hbytes).
  rewrite Hs in Hs'. inversion Hs'; subst new'; clear Hs'.
  assert (Hn : 0 <= a mod 4 /\ 0 < n /\ a mod 4 + n <= 4) by (legal_cases Hl; lia).
  destruct (Z.eq_dec (b - b mod 4) (a - a mod 4)) as [E | E].
  - rewrite E, Hsame, Hm. cbn [option_map]. rewrite Hbytes by (Z.div_mod_to_equations; lia).
    destruct (Z.leb_spec a b), (Z.leb_spec (a mod 4) (b mod 4)), (Z.ltb_spec b (a + n)),
      (Z.ltb_spec (b mod 4) (a mod 4 + n)); cbn [andb]; try lia; auto.
    do 2 f_equal. lia.
  - rewrite Hother by (auto using aligned_mod; Z.div_mod_to_equations; lia).
    destruct (Z.leb_spec a b), (Z.ltb_spec b (a + n)); cbn [andb]; auto.
    exfalso. Z.div_mod_to_equations. lia.
Qed.

(** A load of [n] bytes returns the bytes [a .. a + n - 1], little endian. *)
Lemma mem_read_bytes a n m w :
  is_u64 a -> words_u32 m ->
  legal_access C (a mod 4) n = true -> ms_word m (a - a mod 4) = Some w ->
  exists r, Panicking.mem_read C a n m = Ok (w, r) m /\ is_u32 r /\
    forall i, 0 <= i < 4 ->
      Some (byte r i) = if i <? n then mem_byte m (a + i) else Some 0.
Proof.
  intros Ha Hwf Hl Hm. pose proof (words_u32_at _ _ _ Hwf Ha Hm) as Hw.
  destruct (mem_read_backed a n m w Ha Hw Hl Hm) as (r & Hr & Hru & Hload).
  exists r. split_and!; auto. intros i Hi.
  destruct (loaded_value_bytes C w (a mod 4) n Hw Hl) as (r' & Hr' & _ & Hbytes).
  rewrite Hload in Hr'. inversion Hr'; subst r'; clear Hr'. rewrite Hbytes by auto.
  destruct (Z.ltb_spec i n); [|reflexivity]. unfold mem_byte.
  assert (Hn : 0 <= a mod 4 /\ 0 < n /\ a mod 4 + n <= 4) by (legal_cases Hl; lia).
  replace ((a + i) mod 4) with (a mod 4 + i)
    by (Z.div_mod_to_equations; lia).
  replace (a + i - (a mod 4 + i)) with (a - a mod 4) by lia. rewrite Hm. reflexivity.
Qed.

(** A store keeps the memory a word memory and every backed word backed. *)
Lemma mem_write_keeps a v n m w :
  is_u64 a -> is_u32 v -> words_u32 m ->
  legal_access C (a mod 4) n = true -> ms_word m (a - a mod 4) = Some w ->
  exists new m', Panicking.mem_write C a v n m = Ok (w, new) m' /\ words_u32 m' /\
    forall b old, b mod 4 = 0 -> 0 <= b -> ms_word m b = Some old -> exists cur, ms_word m' b = Some cur.
Proof.
  intros Ha Hv Hwf Hl Hm. pose proof (words_u32_at _ _ _ Hwf Ha Hm) as Hw.
  destruct (mem_write_backed a v n m w Ha Hv Hw Hl Hm) as (new & m' & Hr & Hs & _ & Hsame & Hother).
  destruct (stored_value_bytes C w v (a mod 4) n Hw Hv Hl) as (new' & Hs' & Hnew & _).
  rewrite Hs in Hs'. inversion Hs'; subst new'; clear Hs'.
  exists new, m'. split; [exact Hr|]. split.
  - intros b wb Hb Hp E. destruct (Z.eq_dec b (a - a mod 4)) as [->|Hne]; [congruence|].
    rewrite Hother in E by auto. eapply Hwf; eauto.
  - intros b old Hb Hp E. destruct (Z.eq_dec b (a - a mod 4)) as [->|Hne]; [eauto|].
    rewrite Hother by auto. eauto.
Qed.

Lemma word_of_bytes x y :
  is_u32 x -> is_u32 y -> (forall i, 0 <= i < 4 -> byte x i = byte y i) -> x = y.
Proof.
  intros Hx Hy Hb.
  assert (Hsum : forall z, is_u32 z ->
    z = byte z 0 + byte z 1 * 2 ^ 8 + byte z 2 * 2 ^ 16 + byte z 3 * 2 ^ 24).
  { intros z Hz. unfold byte. rewrite !(land_mask_mod _ 8), !Z.shiftr_div_pow2 by (lia || reflexivity).
    unfold is_u32 in Hz. cbn [Z.mul Pos.mul]. Z.div_mod_to_equations. lia. }
  rewrite (Hsum x Hx), (Hsum y Hy), !Hb by lia. reflexivity.
Qed.

(** C33: Memory as the program sees it is a byte array: after a legal store of
    the low [n] bytes of [v] at [a], a legal load of [k] bytes at any backed
    address returns, zero-extended, the stored bytes where it overlaps the
    store and the old bytes elsewhere. *)
Theorem load_after_store a v n b k m w wb :
  is_u64 a -> is_u64 b -> is_u32 v -> words_u32 m ->
  legal_access C (a mod 4) n = true -> legal_access C (b mod 4) k = true ->
  ms_word m (a - a mod 4) = Some w -> ms_word m (b - b mod 4) = Some wb ->
  exists new m' old r, Panicking.mem_write C a v n m = Ok (w, new) m' /\ words_u32 m' /\
    Panicking.mem_read C b k m' = Ok (old, r) m' /\ is_u32 r /\
    forall i, 0 <= i < 4 ->
      Some (byte r i) =
        if i <? k then
          if (a <=? b + i) && (b + i <? a + n) then Some (byte v (b + i - a)) else mem_byte m (b + i)
        else Some 0.
Proof.
  intros Ha Hb Hv Hm Hla Hlb Hw Hwb.
  destruct (mem_write_bytes a v n m w Ha Hv Hm Hla Hw) as (new & m' & Hwr & Hbytes).
  destruct (mem_write_keeps a v n m w Ha Hv Hm Hla Hw) as (new' & m'' & Hwr' & Hm' & Hback).
  rewrite Hwr in Hwr'. inversion Hwr'; subst new' m''; clear Hwr'.
  destruct (Hback _ _ (aligned_mod b) (aligned_nonneg b (proj1 Hb)) Hwb) as [wb' Hwb'].
  destruct (mem_read_bytes b k m' wb' Hb Hm' Hlb Hwb') as (r & Hr & Hru & Hload).
  exists new, m', wb', r. split_and!; auto. intros i Hi. rewrite Hload by exact Hi.
  destruct (i <? k); [|reflexivity]. apply Hbytes. unfold is_u64 in Hb. lia.
Qed.
End ByteContract.

(** ** A memory with every word backed

    The simplest lawful memory, used to instantiate the theorems at high
    addresses. *)
Definition FlatMemory : Type := Z -> Z.

#[export] Instance FlatMemory_MemorySource : MemorySource FlatMemory := {
  ms_get m a _ := Accessed (m a);
  ms_set m a v _ := Accessed (fun b => if b =? a then v else m b);
}.

#[export] Instance FlatMemory_lawful : LawfulMemory FlatMemory.
Proof.
  refine {| ms_word (m : FlatMemory) a := Some (m a) |}; cbn; intros; try discriminate; try congruence.
  eexists. split; [reflexivity|]. split; [reflexivity|]. split.
  - rewrite Z.eqb_refl. reflexivity.
  - intros b _ _ Hb. apply Z.eqb_neq in Hb. rewrite Hb. reflexivity.
Defined.

Lemma load_after_store_witness :
  exists new m' old r,
    Panicking.mem_write (M := FlatMemory) IMStandardIsaConfig 0x102 0xabcd 2 (fun _ => 0x11223344) = Ok (0x11223344, new) m' /\
    Panicking.mem_read (M := FlatMemory) IMStandardIsaConfig 0x100 4 m' = Ok (old, r) m' /\
    byte r 1 = 0x33 /\ byte r 2 = 0xcd /\ byte r 3 = 0xab.
Proof.
  destruct (load_after_store (M := FlatMemory) IMStandardIsaConfig 0x102 0xabcd 2 0x100 4 (fun _ => 0x11223344)
              0x11223344 0x11223344) as (new & m' & old & r & Hw & _ & Hr & _ & Hb).
  - unfold is_u64; lia.
  - unfold is_u64; lia.
  - unfold is_u32; lia.
  - intros a w _ _ E. cbn in E. inversion E. unfold is_u32; lia.
  - reflexivity.
  - reflexivity.
  - reflexivity.
  - reflexivity.
  - exists new, m', old, r. split; [exact Hw|]. split; [exact Hr|].
    pose proof (Hb 1 ltac:(lia)) as H1'. pose proof (Hb 2 ltac:(lia)) as H2'.
    pose proof (Hb 3 ltac:(lia)) as H3'. apply Some_inj in H1', H2', H3'. auto.
Defined.
