(* ===== verification/NonDeterminism.v ===== *)
(** * The non-determinism CSR and its quasi-UART

    [src/risc_v_simulator/src/abstractions/non_determinism.rs]: the
    [NonDeterminismCSRSource] trait, [ZeroedSource] and [QuasiUARTSource], the
    host end of a small framing protocol over the CSR; and
    [src/riscv_common/src/lib.rs]: [QuasiUART], the guest end of it.

    The host prints a completed message: the model appends its bytes to
    [uart_printed].  The guest's [csr_write_word] is an assembly instruction
    that hands one word to the host; the model collects those words in order.
    The theorems compose the two ends. *)
From stdpp Require Import base list strings.
From Stdlib Require Import ZArith Lia.
From S2P Require Import Prelude MachineInt.

(** ** The trait *)

Class NonDeterminismCSRSource (ND M : Type) : Type := {
  SHOULD_MOCK_READS_BEFORE_WRITES : bool;
  SHOULD_IGNORE_WRITES_AFTER_READS : bool;
  nd_read : ND -> Z * ND;
  nd_write_with_memory_access : ND -> M -> Z -> ND;
}.

(** ** ZeroedSource *)

Inductive ZeroedSource : Type := MkZeroedSource.

#[export] Instance ZeroedSource_source M : NonDeterminismCSRSource ZeroedSource M := {
  SHOULD_MOCK_READS_BEFORE_WRITES := true;
  SHOULD_IGNORE_WRITES_AFTER_READS := true;
  nd_read s := (0, s);
  nd_write_with_memory_access s _ _ := s;
}.

(** ** QuasiUARTSource *)

Inductive QuasiUARTSourceState : Type :=
| Ready
| Buffering (remaining_words remaining_len_in_bytes : option Z) (buffer : list Z).

Definition HELLO_VALUE : Z := 2 ^ 32 - 1.

(** The new state, and the buffer handed to [println!] if a message ended. *)
Definition process_write (self : QuasiUARTSourceState) (value : Z)
    : QuasiUARTSourceState * option (list Z) :=
  match self with
  | Ready => (if value =? HELLO_VALUE then Buffering None None [] else Ready, None)
  | Buffering None len _ => (Buffering (Some value) len [], None)
  | Buffering (Some words) None buffer =>
      (Buffering (Some (u64 (words - 1))) (Some value) buffer, None)
  | Buffering (Some words) (Some len) buffer =>
      let '(words, len, buffer) :=
        if 0 <? words then
          let words := words - 1 in
          if 4 <=? len then (words, len - 4, buffer ++ to_le_bytes value)
          else (words, 0, buffer ++ take (Z.to_nat len) (to_le_bytes value))
        else (words, len, buffer) in
      if words =? 0 then (Ready, Some buffer)
      else (Buffering (Some words) (Some len) buffer, None)
  end.

Record QuasiUARTSource : Type := {
  oracle : list Z;
  write_state : QuasiUARTSourceState;
  uart_printed : list (list Z);
}.

Definition new_with_reads (reads : list Z) : QuasiUARTSource :=
  {| oracle := reads; write_state := Ready; uart_printed := [] |}.

Definition QuasiUARTSource_read (s : QuasiUARTSource) : Z * QuasiUARTSource :=
  match oracle s with
  | [] => (0, s)
  | w :: rest =>
      (w, {| oracle := rest; write_state := write_state s; uart_printed := uart_printed s |})
  end.

Definition QuasiUARTSource_write (s : QuasiUARTSource) (value : Z) : QuasiUARTSource :=
  let '(st, out) := process_write (write_state s) value in
  {| oracle := oracle s; write_state := st;
     uart_printed := uart_printed s ++ match out with Some b => [b] | None => [] end |}.

#[export] Instance QuasiUARTSource_source M : NonDeterminismCSRSource QuasiUARTSource M := {
  SHOULD_MOCK_READS_BEFORE_WRITES := true;
  SHOULD_IGNORE_WRITES_AFTER_READS := true;
  nd_read := QuasiUARTSource_read;
  nd_write_with_memory_access s _ v := QuasiUARTSource_write s v;
}.

(** ** QuasiUART, the guest end *)
Module Guest.

Record QuasiUART : Type := { buffer : list Z; len : Z }.

Definition new : QuasiUART := {| buffer := [0; 0; 0; 0]; len := 0 |}.

(** [message_len.next_multiple_of(4) / 4 + 1] on a 32-bit [usize] *)
Definition words_for_query (message_len : Z) : Z :=
  u32 (u32 ((message_len + 3) / 4 * 4) / 4 + 1).

Definition write_entry_sequence (message_len : Z) : list Z :=
  [HELLO_VALUE; words_for_query message_len; message_len].

Definition write_byte (u : QuasiUART) (byte : Z) : QuasiUART * list Z :=
  let b := <[Z.to_nat (len u) := byte]> (buffer u) in
  let l := len u + 1 in
  if l =? 4 then ({| buffer := b; len := 0 |}, [from_le_bytes b])
  else ({| buffer := b; len := l |}, []).

Definition flush (u : QuasiUART) : QuasiUART * list Z :=
  if len u =? 0 then ({| buffer := [0; 0; 0; 0]; len := 0 |}, [])
  else
    let b := take (Z.to_nat (len u)) (buffer u) ++ replicate (4 - Z.to_nat (len u)) 0 in
    ({| buffer := b; len := 0 |}, [from_le_bytes b]).

Fixpoint write_bytes (u : QuasiUART) (s : list Z) : QuasiUART * list Z :=
  match s with
  | [] => (u, [])
  | c :: rest =>
      let '(u1, w1) := write_byte u c in
      let '(u2, w2) := write_bytes u1 rest in (u2, w1 ++ w2)
  end.

(** The CSR words one [write_str] emits. *)
Definition write_str (u : QuasiUART) (s : list Z) : QuasiUART * list Z :=
  let '(u1, w1) := write_bytes u s in
  let '(u2, w2) := flush u1 in
  (u2, write_entry_sequence (Z.of_nat (length s)) ++ w1 ++ w2).

End Guest.

(** ** Composition of the two ends *)

(** The host consumes the guest's words in order. *)
Definition deliver (s : QuasiUARTSource) (words : list Z) : QuasiUARTSource :=
  fold_left QuasiUARTSource_write words s.

Definition is_byte (b : Z) : Prop := 0 <= b < 256.

Lemma deliver_app s w1 w2 : deliver s (w1 ++ w2) = deliver (deliver s w1) w2.
Proof. apply fold_left_app. Qed.

Lemma to_le_from_le a b c d :
  is_byte a -> is_byte b -> is_byte c -> is_byte d ->
  to_le_bytes (from_le_bytes [a; b; c; d]) = [a; b; c; d].
Proof.
  unfold is_byte, to_le_bytes, from_le_bytes, nthZ.
  change (Z.to_nat 0) with 0%nat. change (Z.to_nat 1) with 1%nat.
  change (Z.to_nat 2) with 2%nat. change (Z.to_nat 3) with 3%nat. cbn [nth].
  intros Ha Hb Hc Hd. set (x := a + b * 2 ^ 8 + c * 2 ^ 16 + d * 2 ^ 24).
  assert (E0 : x mod 256 = a)
    by (symmetry; apply Z.mod_unique with (b + c * 2 ^ 8 + d * 2 ^ 16); subst x; lia).
  assert (E1 : x / 2 ^ 8 = b + c * 2 ^ 8 + d * 2 ^ 16)
    by (symmetry; apply Z.div_unique with a; subst x; lia).
  assert (E2 : x / 2 ^ 16 = c + d * 2 ^ 8)
    by (symmetry; apply Z.div_unique with (a + b * 2 ^ 8); subst x; lia).
  assert (E3 : x / 2 ^ 24 = d)
    by (symmetry; apply Z.div_unique with (a + b * 2 ^ 8 + c * 2 ^ 16); subst x; lia).
  rewrite E0, E1, E2, E3. repeat (apply f_equal2; [reflexivity || Z.div_mod_to_equations; lia|]).
  reflexivity.
Qed.

(** Split a list into its groups of four and a shorter rest. *)
Lemma list4_ind (P : list Z -> Prop) :
  (forall l, (length l < 4)%nat -> P l) ->
  (forall a b c d l, P l -> P (a :: b :: c :: d :: l)) -> forall l, P l.
Proof.
  intros Hshort Hstep l. remember (length l) as n eqn:E.
  revert l E. induction n as [n IH] using lt_wf_ind. intros l ->.
  destruct l as [|a [|b [|c [|d l]]]]; try (apply Hshort; cbn; lia).
  apply Hstep. apply (IH (length l)); cbn; lia || reflexivity.
Qed.

Lemma write_four a b c d g : length g = 4%nat ->
  Guest.write_bytes {| Guest.buffer := g; Guest.len := 0 |} [a; b; c; d] =
    ({| Guest.buffer := [a; b; c; d]; Guest.len := 0 |}, [from_le_bytes [a; b; c; d]]).
Proof. destruct g as [|? [|? [|? [|? [|]]]]]; intros; try discriminate; reflexivity. Qed.

Lemma write_bytes_app u s1 s2 :
  Guest.write_bytes u (s1 ++ s2) =
    let '(u1, w1) := Guest.write_bytes u s1 in
    let '(u2, w2) := Guest.write_bytes u1 s2 in (u2, w1 ++ w2).
Proof.
  revert u; induction s1 as [|c s1 IH]; intros u; cbn.
  - destruct (Guest.write_bytes u s2); reflexivity.
  - destruct (Guest.write_byte u c) as [u1 w1]. rewrite IH.
    destruct (Guest.write_bytes u1 s1) as [u2 w2].
    destruct (Guest.write_bytes u2 s2). rewrite app_assoc. reflexivity.
Qed.

Lemma host_full_word words len buf w o pr :
  0 < words -> 4 <= len ->
  QuasiUARTSource_write
    {| oracle := o; write_state := Buffering (Some words) (Some len) buf; uart_printed := pr |} w =
  if words - 1 =? 0
  then {| oracle := o; write_state := Ready; uart_printed := pr ++ [buf ++ to_le_bytes w] |}
  else {| oracle := o; write_state := Buffering (Some (words - 1)) (Some (len - 4)) (buf ++ to_le_bytes w);
          uart_printed := pr |}.
Proof.
  intros Hw Hl. unfold QuasiUARTSource_write, process_write; cbn [write_state oracle uart_printed].
  destruct (Z.ltb_spec 0 words); [|lia]. destruct (Z.leb_spec 4 len); [|lia].
  destruct (words - 1 =? 0); rewrite ?app_nil_r; reflexivity.
Qed.

(** The data phase: the guest's words for [s] complete the message [buf ++ s]. *)
Lemma data_phase : forall s, Forall is_byte s -> s <> [] -> forall g buf o pr,
  length g = 4%nat ->
  let '(u1, w1) := Guest.write_bytes {| Guest.buffer := g; Guest.len := 0 |} s in
  let '(u2, w2) := Guest.flush u1 in
  Guest.len u2 = 0 /\ length (Guest.buffer u2) = 4%nat /\
  deliver {| oracle := o;
             write_state := Buffering (Some ((Z.of_nat (length s) + 3) / 4))
                              (Some (Z.of_nat (length s))) buf;
             uart_printed := pr |} (w1 ++ w2) =
    {| oracle := o; write_state := Ready; uart_printed := pr ++ [buf ++ s] |}.
Proof.
  induction s as [l Hl | a b c d l IH] using list4_ind; intros Hs Hne g buf o pr Hg.
  - destruct g as [|g0 [|g1 [|g2 [|g3 [|]]]]]; try discriminate Hg.
    destruct l as [|a [|b [|c [|]]]]; cbn in Hl; try congruence; try lia;
      repeat match goal with H : Forall _ (_ :: _) |- _ => inversion H; clear H; subst end;
      cbn -[to_le_bytes from_le_bytes]; split_and!; auto;
      (match goal with |- context [from_le_bytes ?l] =>
         let l' := eval cbv in l in change l with l' end);
      cbn [app deliver fold_left]; unfold QuasiUARTSource_write, process_write;
      cbn [write_state oracle uart_printed]; cbv beta iota zeta delta -[to_le_bytes from_le_bytes app];
      rewrite to_le_from_le by (auto; unfold is_byte; lia); reflexivity.
  - change (a :: b :: c :: d :: l) with ([a; b; c; d] ++ l).
    rewrite write_bytes_app, write_four by auto.
    repeat match goal with H : Forall _ (_ :: _) |- _ => inversion H; clear H; subst end.
    destruct l as [|e l].
    + cbn -[to_le_bytes from_le_bytes]. split_and!; auto.
      rewrite host_full_word by (vm_compute; congruence).
      cbv beta iota zeta delta -[to_le_bytes from_le_bytes app].
      rewrite to_le_from_le by auto. reflexivity.
    + assert (Hf : Forall is_byte (e :: l)) by assumption.
      specialize (IH Hf ltac:(discriminate) [a; b; c; d] (buf ++ [a; b; c; d]) o pr eq_refl).
      remember (e :: l) as m eqn:Em.
      destruct (Guest.write_bytes _ m) as [u1 w1]. destruct (Guest.flush u1) as [u2 w2].
      destruct IH as (IH1 & IH2 & IH3). split_and!; auto.
      rewrite <- app_assoc. change ([from_le_bytes [a; b; c; d]] ++ w1 ++ w2)
        with (from_le_bytes [a; b; c; d] :: (w1 ++ w2)).
      cbn [deliver fold_left]. rewrite length_app. cbn [length].
      assert (0 < Z.of_nat (length m)) by (subst m; cbn; lia).
      replace ((Z.of_nat (4 + length m) + 3) / 4) with ((Z.of_nat (length m) + 3) / 4 + 1)
        by (Z.div_mod_to_equations; lia).
      rewrite host_full_word by (Z.div_mod_to_equations; lia).
      replace ((Z.of_nat (length m) + 3) / 4 + 1 - 1) with ((Z.of_nat (length m) + 3) / 4) by lia.
      destruct (Z.eqb_spec ((Z.of_nat (length m) + 3) / 4) 0); [Z.div_mod_to_equations; lia|].
      replace (Z.of_nat (4 + length m) - 4) with (Z.of_nat (length m)) by lia.
      rewrite to_le_from_le by auto. unfold deliver in IH3. rewrite IH3, <- app_assoc. reflexivity.
Qed.

Lemma words_for_query_spec n : 0 <= n < 2 ^ 32 - 4 -> Guest.words_for_query n = (n + 3) / 4 + 1.
Proof.
  intros Hn. unfold Guest.words_for_query.
  rewrite (u32_small ((n + 3) / 4 * 4)) by (unfold is_u32; Z.div_mod_to_equations; lia).
  rewrite Z.div_mul by lia. apply u32_small. unfold is_u32. Z.div_mod_to_equations. lia.
Qed.

Lemma entry_phase o pr n :
  0 <= n < 2 ^ 32 - 4 ->
  deliver {| oracle := o; write_state := Ready; uart_printed := pr |}
    (Guest.write_entry_sequence n) =
  {| oracle := o; write_state := Buffering (Some ((n + 3) / 4)) (Some n) []; uart_printed := pr |}.
Proof.
  intros Hn. unfold Guest.write_entry_sequence. rewrite words_for_query_spec by auto.
  unfold deliver, QuasiUARTSource_write. cbn [fold_left write_state process_write].
  rewrite Z.eqb_refl. cbn [fold_left write_state process_write oracle uart_printed].
  rewrite !app_nil_r. replace ((n + 3) / 4 + 1 - 1) with ((n + 3) / 4) by lia.
  rewrite u64_small; [reflexivity|]. unfold is_u64. Z.div_mod_to_equations. lia.
Qed.

Lemma uart_message u s o pr :
  Guest.len u = 0 -> length (Guest.buffer u) = 4%nat ->
  s <> [] -> Forall is_byte s -> Z.of_nat (length s) < 2 ^ 32 - 4 ->
  let '(u', words) := Guest.write_str u s in
  Guest.len u' = 0 /\ length (Guest.buffer u') = 4%nat /\
  deliver {| oracle := o; write_state := Ready; uart_printed := pr |} words =
    {| oracle := o; write_state := Ready; uart_printed := pr ++ [s] |}.
Proof.
  destruct u as [g l]. cbn. intros -> Hg Hne Hb Hlen.
  pose proof (data_phase s Hb Hne g [] o pr Hg) as H. unfold Guest.write_str.
  destruct (Guest.write_bytes _ s) as [u1 w1]. destruct (Guest.flush u1) as [u2 w2].
  destruct H as (H1 & H2 & H3). split_and!; auto.
  rewrite deliver_app, entry_phase by lia. exact H3.
Qed.

(** The CSR words of a sequence of [write_str] calls on one writer. *)
Fixpoint write_all (u : Guest.QuasiUART) (msgs : list (list Z)) : list Z :=
  match msgs with
  | [] => []
  | s :: rest => let '(u', words) := Guest.write_str u s in words ++ write_all u' rest
  end.

Definition printable (s : list Z) : Prop :=
  s <> [] /\ Forall is_byte s /\ Z.of_nat (length s) < 2 ^ 32 - 4.

(** C39: Every sequence of non-empty messages that a guest writes through
    [QuasiUART::write_str] is printed by the host's [QuasiUARTSource]
    unchanged, one line per message and in order; the host is then [Ready]
    again and its oracle untouched. *)
Theorem uart_messages_roundtrip u msgs o pr :
  Guest.len u = 0 -> length (Guest.buffer u) = 4%nat -> Forall printable msgs ->
  deliver {| oracle := o; write_state := Ready; uart_printed := pr |} (write_all u msgs) =
    {| oracle := o; write_state := Ready; uart_printed := pr ++ msgs |}.
Proof.
  revert u pr. induction msgs as [|s msgs IH]; intros u pr Hl Hg Hm.
  - cbn. rewrite app_nil_r. reflexivity.
  - inversion Hm as [|? ? (Hne & Hb & Hlen) Hrest]; subst. cbn [write_all].
    pose proof (uart_message u s o pr Hl Hg Hne Hb Hlen) as H.
    destruct (Guest.write_str u s) as [u' words]. destruct H as (H1 & H2 & H3).
    rewrite deliver_app, H3, IH, <- app_assoc by auto. reflexivity.
Qed.

Lemma uart_messages_roundtrip_witness :
  deliver (new_with_reads [7]) (write_all Guest.new [[72; 101; 108; 108; 111]; [33]]) =
    {| oracle := [7]; write_state := Ready;
       uart_printed := [[72; 101; 108; 108; 111]; [33]] |}.
Proof.
  apply (uart_messages_roundtrip Guest.new [[72; 101; 108; 108; 111]; [33]] [7] []).
  - reflexivity.
  - reflexivity.
  - repeat constructor; (discriminate || (unfold is_byte; lia) || (cbn; lia)).
Defined.

(** An empty message is not ignored: it leaves the host buffering with no
    word outstanding, the next word the guest writes - whatever it is, in
    particular the [HELLO] of the next message - is swallowed, and the host
    prints an empty line and resumes from [Ready] only after it. *)
Theorem uart_empty_message_swallows_next u o pr next rest :
  Guest.len u = 0 ->
  let s := deliver {| oracle := o; write_state := Ready; uart_printed := pr |}
             (snd (Guest.write_str u [])) in
  write_state s = Buffering (Some 0) (Some 0) [] /\
  deliver s (next :: rest) =
    deliver {| oracle := o; write_state := Ready; uart_printed := pr ++ [[]] |} rest.
Proof.
  destruct u as [g l]. cbn [Guest.len]. intros ->. unfold Guest.write_str.
  cbn [Guest.write_bytes Guest.flush Guest.len Z.eqb app snd length].
  rewrite app_nil_r, entry_phase by lia. split; reflexivity.
Qed.

Lemma uart_empty_message_swallows_next_witness :
  write_state (deliver (new_with_reads []) (snd (Guest.write_str Guest.new [])))
    = Buffering (Some 0) (Some 0) [] /\
  uart_printed (deliver (new_with_reads []) (write_all Guest.new [[]; [72; 105]])) = [[]].
Proof.
  split; [apply (uart_empty_message_swallows_next Guest.new [] [] 0 []); reflexivity|].
  reflexivity.
Defined.
