(* ===== verification/Mmu.v ===== *)
(** * Address translation

    [src/risc_v_simulator/src/mmu/mod.rs]: the [MMUImplementation] trait, the
    page table entry, [NoMMU] and the Sv32 page walk of [SimpleMMU]. *)
From stdpp Require Import base list strings.
From Stdlib Require Import ZArith Lia Btauto.
From S2P Require Import Prelude MachineInt Decoder StatusRegisters Config Memory.

Inductive EntryBit : Type :=
| Valid | Read | Write | Execute | UserMode | Global | AccessedBit | Dirty.

Definition EntryBit_value (b : EntryBit) : Z :=
  match b with
  | Valid => 0 | Read => 1 | Write => 2 | Execute => 3
  | UserMode => 4 | Global => 5 | AccessedBit => 6 | Dirty => 7
  end.

Definition vpn_0 (src : Z) : Z := get_bits_and_align_right src 12 10.
Definition vpn_1 (src : Z) : Z := get_bits_and_align_right src 22 10.
Definition ppn_0 (src : Z) : Z := get_bits_and_align_right src 10 10.
Definition ppn_1 (src : Z) : Z := get_bits_and_align_right src 20 12.
Definition ppn (src : Z) : Z := get_bits_and_align_right src 10 22.

Module PageTableEntry.

Definition test_bit (pte : Z) (bit : EntryBit) : Z :=
  get_bit_right_aligned pte (EntryBit_value bit).

Definition is_valid (pte : Z) : bool :=
  negb (test_bit pte Valid =? 0)
  && negb (negb (test_bit pte Write =? 0) && (test_bit pte Read =? 0)).

Definition is_valid_for_access_type_in_privilege (pte : Z) (access_type : AccessType)
    (privilege : Mode) : bool :=
  let invalid := bool_decide (privilege = User) && (test_bit pte UserMode =? 0) in
  let invalid := invalid || (bool_decide (access_type = MemLoad) && (test_bit pte Read =? 0)) in
  let invalid := invalid || (bool_decide (access_type = MemStore) && (test_bit pte Write =? 0)) in
  let invalid := invalid || (bool_decide (access_type = Instruction) && (test_bit pte Execute =? 0)) in
  negb invalid.

Definition is_valid_for_ad_flags (pte : Z) (access_type : AccessType) : bool :=
  let invalid := test_bit pte AccessedBit =? 0 in
  let invalid := invalid || (bool_decide (access_type = MemStore) && (test_bit pte Dirty =? 0)) in
  negb invalid.

End PageTableEntry.

Definition SV32_PAGE_SIZE_LOG_2 : Z := 12.
Definition SV32_SUPERPAGE_SIZE_LOG_2 : Z := 22.
Definition SV32_LEVELS : nat := 2.
Definition SV32_PTE_SHIFT : Z := 2.

(** ** The trait *)

Class MMUImplementation (MMU M : Type) : Type := {
  read_sapt : MMU -> Mode -> access Z;
  write_sapt : MMU -> Z -> Mode -> access MMU;
  map_virtual_to_physical : MMU -> Z -> Mode -> AccessType -> comp TrapReason (MemTrace M) Z;
}.

(** ** NoMMU *)

Record NoMMU : Type := { NoMMU_sapt : Z }.

#[export] Instance NoMMU_impl M : MMUImplementation NoMMU M := {
  read_sapt mmu _ := Accessed (NoMMU_sapt mmu);
  write_sapt _ value _ := Accessed {| NoMMU_sapt := value |};
  map_virtual_to_physical _ virt_address _ _ := ret virt_address;
}.

(** ** SimpleMMU *)

Record SimpleMMU : Type := { sapt : Z }.

Definition SimpleMMU_write_sapt (mmu : SimpleMMU) (value : Z) (mode : Mode) : access SimpleMMU :=
  if bool_decide (mode = Machine) then Accessed {| sapt := value |}
  else Faulted IllegalInstruction mmu.

Section SimpleMMU.
Context {M : Type} `{MemorySource M} (C : MachineConfig).
Notation act := (comp TrapReason (MemTrace M)).

Definition page_fault {A} (access_type : AccessType) : act A :=
  match access_type with
  | Instruction => trap_with InstructionPageFault
  | MemLoad => trap_with LoadPageFault
  | MemStore => trap_with StoreOrAMOPageFault
  | _ => panic "internal error: entered unreachable code"
  end.

(** The [for _j in 0..SV32_LEVELS] loop: the last entry read and the level
    [i] it was found at. *)
Fixpoint page_walk (levels : nat) (vpns : list Z) (access_type : AccessType)
    (a i pte : Z) : act (Z * Z) :=
  match levels with
  | O => ret (pte, i)
  | S levels =>
      let pte_addr := wadd a (nthZ vpns i) in
      let! pte_value := Trapping.mem_read C pte_addr 4 access_type in
      if negb (PageTableEntry.is_valid pte_value) then page_fault access_type
      else if (PageTableEntry.test_bit pte_value Read =? 0)
              && (PageTableEntry.test_bit pte_value Execute =? 0)
      then page_walk levels vpns access_type (shl32 (ppn pte_value) SV32_PAGE_SIZE_LOG_2)
             (i - 1) pte_value
      else ret (pte_value, i)
  end.

Definition SimpleMMU_map (mmu : SimpleMMU) (virt_address : Z) (mode : Mode)
    (access_type : AccessType) : act Z :=
  let should_translate :=
    (Mode_as_register_value mode <? Mode_as_register_value Machine)
    && negb (SATPRegister.is_bare_aligned_bit (sapt mmu) =? 0) in
  if negb should_translate then ret virt_address
  else
    let a := shl32 (SATPRegister.ppn (sapt mmu)) SV32_PAGE_SIZE_LOG_2 in
    let vpns := [vpn_0 virt_address; vpn_1 virt_address] in
    let! (pte, i) := page_walk SV32_LEVELS vpns access_type a (Z.of_nat SV32_LEVELS - 1) 0 in
    if i <? 0 then page_fault access_type
    else if negb (PageTableEntry.is_valid_for_access_type_in_privilege pte access_type mode)
    then page_fault access_type
    else
      let pte_value := shl32 pte SV32_PTE_SHIFT in
      let ppns := [ppn_0 pte_value; ppn_1 pte_value] in
      let candidates :=
        [ Z.lor (Z.lor (u64 (Z.shiftl (nthZ ppns 1) 22)) (u64 (Z.shiftl (nthZ ppns 0) 12)))
            (get_bits_and_align_right virt_address 0 SV32_PAGE_SIZE_LOG_2);
          Z.lor (u64 (Z.shiftl (nthZ ppns 1) 22))
            (get_bits_and_align_right virt_address 0 SV32_SUPERPAGE_SIZE_LOG_2) ] in
      if (0 <? i) && negb (nthZ ppns (i - 1) =? 0) then page_fault access_type
      else if negb (PageTableEntry.is_valid_for_ad_flags pte access_type)
      then page_fault access_type
      else ret (nthZ candidates i).

End SimpleMMU.

Definition SimpleMMU_impl {M} `{MemorySource M} (C : MachineConfig) : MMUImplementation SimpleMMU M := {|
  read_sapt mmu _ := Accessed (sapt mmu);
  write_sapt := SimpleMMU_write_sapt;
  map_virtual_to_physical := SimpleMMU_map C;
|}.

(** ** What a translation may do *)

Section Facts.
Context {M : Type} `{LawfulMemory M} (C : MachineConfig).

(** The faults a translation for [t] can raise: a page fault of its kind, a
    misaligned page table entry, or a fault of the memory that holds it. *)
Definition translation_fault (t : AccessType) (m : M) (e : TrapReason) : Prop :=
  e = match t with
      | Instruction => InstructionPageFault
      | MemLoad => LoadPageFault
      | _ => StoreOrAMOPageFault
      end
  \/ e = LoadAddressMisaligned \/ exists a v, ms_get m a t = Faulted e v.

(** A computation that leaves the memory alone, does not panic, fails only
    with [P] and otherwise returns a [Q]. *)
Definition reads_only {A} (P : M -> TrapReason -> Prop) (Q : A -> Prop)
    (c : comp TrapReason (MemTrace M) A) : Prop :=
  forall s, match c s with
            | Ok a s' => mt_mem s' = mt_mem s /\ Q a
            | Trapped e s' => mt_mem s' = mt_mem s /\ P (mt_mem s) e
            | Panic _ => False
            end.

Lemma reads_only_bind {A B} P (Q : A -> Prop) (R : B -> Prop) c k :
  reads_only P Q c -> (forall a, Q a -> reads_only P R (k a)) -> reads_only P R (bind c k).
Proof.
  intros Hc Hk s. specialize (Hc s). unfold bind. destruct (c s) as [a s1 | e s1 | msg]; auto.
  destruct Hc as [Hm Ha]. specialize (Hk a Ha s1). rewrite Hm in Hk.
  destruct (k a s1); auto.
Qed.

Lemma reads_only_ret {A} P (Q : A -> Prop) a : Q a -> reads_only P Q (ret a).
Proof. intros Ha s. cbn. auto. Qed.

Lemma reads_only_page_fault {A} (Q : A -> Prop) t :
  t = Instruction \/ t = MemLoad -> reads_only (translation_fault t) Q (page_fault t).
Proof. intros [-> | ->] s; cbn; unfold translation_fault; auto. Qed.

Lemma reads_only_mem_read a t :
  is_u32 a -> t = Instruction \/ t = MemLoad ->
  reads_only (translation_fault t) (fun _ => True) (Trapping.mem_read C a 4 t).
Proof.
  intros Ha Ht s. unfold Trapping.mem_read, bind at 1, assert_or_panic.
  replace (bool_decide (t = Instruction) || bool_decide (t = MemLoad)) with true
    by (destruct Ht as [-> | ->]; reflexivity).
  cbn [ret]. rewrite land_3.
  destruct (legal_access C (a mod 4) 4) eqn:Hl.
  - rewrite aligned_address_spec by auto using u32_is_u64.
    assert (Hal : (a - a mod 4) mod 4 = 0) by apply aligned_mod.
    unfold bind, Trapping.traced_get.
    destruct (ms_word (mt_mem s) (a - a mod 4)) as [w|] eqn:Hw.
    + rewrite (ms_get_backed _ _ t w) by (auto; unfold reading; tauto). cbn.
      unfold loaded_value. destruct (SUPPORT_LOAD_LESS_THAN_WORD C); cbn; auto.
    + destruct (ms_get_unbacked (mt_mem s) (a - a mod 4) t) as (tr & v & Hg & _); auto.
      rewrite Hg. cbn. unfold translation_fault. eauto 6.
  - cbn. unfold translation_fault. auto.
Qed.

Hint Resolve reads_only_ret reads_only_page_fault : airbender.

Lemma reads_only_page_walk t vpns levels : t = Instruction \/ t = MemLoad ->
  forall a i pte, is_u32 a -> reads_only (translation_fault t) (fun pi => snd pi <= i)
                    (page_walk C levels vpns t a i pte).
Proof.
  intros Ht. induction levels as [|n IH]; intros a i pte Ha; cbn [page_walk].
  - apply reads_only_ret. cbn. lia.
  - eapply reads_only_bind; [apply reads_only_mem_read; auto using wadd_range|].
    intros v _. repeat case_if; auto with airbender.
    + intros s. specialize (IH (shl32 (ppn v) SV32_PAGE_SIZE_LOG_2) (i - 1) v (shl32_range _ _) s).
      destruct (page_walk C n vpns t _ (i - 1) v s) as [[? ?] | |]; cbn in *; intuition lia.
    + apply reads_only_ret. cbn. lia.
Qed.

Lemma shl_lt x k n b : 0 <= k -> 0 <= n -> 0 <= x < 2 ^ n -> n + k <= b -> b <= 64 ->
  0 <= u64 (Z.shiftl x k) < 2 ^ b.
Proof.
  intros Hk Hn Hx Hb Hb'. rewrite Z.shiftl_mul_pow2 by lia.
  assert (x * 2 ^ k < 2 ^ (n + k)).
  { rewrite Z.pow_add_r by lia. pose proof (Z.pow_pos_nonneg 2 k). nia. }
  assert (2 ^ (n + k) <= 2 ^ b) by (apply Z.pow_le_mono_r; lia).
  assert (2 ^ b <= 2 ^ 64) by (apply Z.pow_le_mono_r; lia).
  pose proof (Z.pow_pos_nonneg 2 k). rewrite u64_small; unfold is_u64; nia.
Qed.

(** For fetches and loads [SimpleMMU] never panics and never changes the
    memory; it raises only a page fault of the access's kind, a misaligned
    entry or a fault of the memory holding the entry; and a physical address
    it returns fits in 34 bits. *)
Theorem simple_mmu_read_safe mmu virt mode t :
  is_u32 virt -> t = Instruction \/ t = MemLoad ->
  reads_only (translation_fault t) (fun pa => 0 <= pa < 2 ^ 34) (SimpleMMU_map C mmu virt mode t).
Proof.
  intros Hv Ht. unfold SimpleMMU_map. case_if; [apply reads_only_ret; unfold is_u32 in Hv; lia|].
  eapply reads_only_bind; [apply (reads_only_page_walk t); auto using shl32_range|].
  intros [pte i] Hi. cbn [snd] in Hi. change (Z.of_nat SV32_LEVELS - 1) with 1 in Hi.
  repeat case_if; auto with airbender.
  bool_hyps. apply reads_only_ret.
  assert (R0 : forall x, 0 <= ppn_0 x < 2 ^ 10) by (intro; apply get_bits_and_align_right_range; lia).
  assert (R1 : forall x, 0 <= ppn_1 x < 2 ^ 12) by (intro; apply get_bits_and_align_right_range; lia).
  assert (Rv : forall n, 0 <= n <= 22 -> 0 <= get_bits_and_align_right virt 0 n < 2 ^ 34).
  { intros n Hn. pose proof (get_bits_and_align_right_range virt 0 n).
    pose proof (Z.pow_le_mono_r 2 n 34). lia. }
  assert (Sh1 : forall x, 0 <= u64 (Z.shiftl (ppn_1 x) 22) < 2 ^ 34)
    by (intro; apply (shl_lt _ 22 12); auto; lia).
  assert (Sh0 : forall x, 0 <= u64 (Z.shiftl (ppn_0 x) 12) < 2 ^ 34)
    by (intro; apply (shl_lt _ 12 10); auto; lia).
  assert (Hc : i = 0 \/ i = 1) by lia. unfold nthZ.
  change (Z.to_nat 0) with 0%nat; change (Z.to_nat 1) with 1%nat; cbn [nth].
  destruct Hc as [-> | ->]; change (Z.to_nat 0) with 0%nat; change (Z.to_nat 1) with 1%nat; cbn [nth];
    repeat (match goal with |- 0 <= Z.lor _ _ < _ => apply lor_range end);
    auto; try (apply Rv); unfold SV32_PAGE_SIZE_LOG_2, SV32_SUPERPAGE_SIZE_LOG_2; lia.
Qed.

(** C40: A store under translation always panics: the page walk passes the
    store's access type to [mem_read], whose assertion accepts fetches and
    loads only. *)
Theorem simple_mmu_store_panics mmu virt mode s :
  mode <> Machine -> SATPRegister.is_bare_aligned_bit (sapt mmu) <> 0 ->
  exists msg, SimpleMMU_map C mmu virt mode MemStore s = Panic msg.
Proof.
  intros Hm Hb. unfold SimpleMMU_map.
  replace (Mode_as_register_value mode <? Mode_as_register_value Machine) with true
    by (destruct mode; congruence || reflexivity).
  apply Z.eqb_neq in Hb. rewrite Hb. cbn. eexists. reflexivity.
Qed.
End Facts.

Lemma simple_mmu_store_panics_witness :
  exists msg,
    SimpleMMU_map IMStandardIsaConfig {| sapt := 2 ^ 31 |} 0x1000 User MemStore
      {| mt_mem := {| inner := [0; 0] |}; mt_trace := [] |} = Panic msg.
Proof.
  apply (simple_mmu_store_panics IMStandardIsaConfig {| sapt := 2 ^ 31 |} 0x1000 User
           {| mt_mem := {| inner := [0; 0] |}; mt_trace := [] |}).
  - discriminate.
  - vm_compute; discriminate.
Defined.

Lemma simple_mmu_read_safe_witness :
  reads_only (translation_fault MemLoad) (fun pa => 0 <= pa < 2 ^ 34)
    (SimpleMMU_map (M:=VectorMemoryImpl) IMStandardIsaConfig {| sapt := 2 ^ 31 + 1 |} 0x1234 Supervisor MemLoad).
Proof.
  apply (simple_mmu_read_safe IMStandardIsaConfig {| sapt := 2 ^ 31 + 1 |} 0x1234 Supervisor MemLoad).
  - unfold is_u32; lia.
  - right; reflexivity.
Defined.
