(* ===== verification/Blake2s.v ===== *)
(** * Blake2s on words

    [src/blake2s_u32/src]: the constants of [lib.rs], [mixing_function.rs],
    the hasher of [baseline.rs] and the evaluator of
    [state_with_extended_control.rs] in both of its builds - the native one,
    and the RISC-V one that hands every round to the delegation circuit.  The
    delegated round itself is the function [delegated_round], the computation
    of [delegations/blake2_round_function_with_compression_mode.rs] on the
    words it has loaded.

    Arrays are lists of their fixed length; the const generic
    [REDUCED_ROUNDS] is a boolean argument. *)
From stdpp Require Import base list strings.
From Stdlib Require Import ZArith Lia.
From S2P Require Import Prelude MachineInt.

Definition BLAKE2S_ROUNDS : nat := 10.
Definition BLAKE2S_REDUCED_ROUNDS : nat := 7.
Definition BLAKE2S_BLOCK_SIZE_U32_WORDS : nat := 16.
Definition BLAKE2S_BLOCK_SIZE_BYTES : Z := 64.
Definition BLAKE2S_DIGEST_SIZE_U32_WORDS : nat := 8.
Definition BLAKE2S_STATE_WIDTH_IN_U32_WORDS : nat := 8.
Definition BLAKE2S_EXTENDED_STATE_WIDTH_IN_U32_WORDS : nat := 16.

Definition IV : list Z :=
  [0x6A09E667; 0xBB67AE85; 0x3C6EF372; 0xA54FF53A; 0x510E527F; 0x9B05688C; 0x1F83D9AB; 0x5BE0CD19].

Definition IV_0_TWIST : Z := Z.lxor (Z.lxor 0x6A09E667 0x01010000) 32.

Definition SIGMAS : list (list Z) := [
  [0; 1; 2; 3; 4; 5; 6; 7; 8; 9; 10; 11; 12; 13; 14; 15];
  [14; 10; 4; 8; 9; 15; 13; 6; 1; 12; 0; 2; 11; 7; 5; 3];
  [11; 8; 12; 0; 5; 2; 15; 13; 10; 14; 3; 6; 7; 1; 9; 4];
  [7; 9; 3; 1; 13; 12; 11; 14; 2; 6; 5; 10; 4; 0; 15; 8];
  [9; 0; 5; 7; 2; 4; 10; 15; 14; 1; 11; 12; 6; 8; 3; 13];
  [2; 12; 6; 10; 0; 11; 8; 3; 4; 13; 7; 5; 15; 14; 1; 9];
  [12; 5; 1; 15; 14; 13; 4; 10; 0; 7; 6; 3; 9; 2; 8; 11];
  [13; 11; 7; 14; 12; 1; 3; 9; 5; 0; 15; 4; 8; 6; 2; 10];
  [6; 15; 14; 9; 11; 3; 0; 8; 12; 2; 13; 7; 1; 4; 10; 5];
  [10; 2; 8; 4; 7; 6; 1; 5; 15; 11; 9; 14; 3; 12; 13; 0]].

Definition CONFIGURED_IV : list Z := <[0%nat := IV_0_TWIST]> IV.
Definition EXTENDED_CONFIGURED_IV : list Z := CONFIGURED_IV ++ IV.

Definition LAST_ROUND_BIT_IDX : Z := 0.
Definition INPUT_IS_RIGHT_NODE_BIT_IDX : Z := 1.
Definition COMPRESSION_MODE_BIT_IDX : Z := 2.
Definition TEST_IF_LAST_ROUND_MASK : Z := shl32 1 LAST_ROUND_BIT_IDX.
Definition TEST_IF_INPUT_IS_RIGHT_NODE_MASK : Z := shl32 1 INPUT_IS_RIGHT_NODE_BIT_IDX.
Definition TEST_IF_COMPRESSION_MODE_MASK : Z := shl32 1 COMPRESSION_MODE_BIT_IDX.

(** [a[i]] and [a[i] = v] on a fixed-size array, [i] in range *)
Definition get (v : list Z) (i : nat) : Z := nth i v 0.

(** ** mixing_function.rs *)

Definition g_function (v : list Z) (a b c d : nat) (x y : Z) : list Z :=
  let v := <[a := wadd (wadd (get v a) (get v b)) x]> v in
  let v := <[d := rotr32 (Z.lxor (get v d) (get v a)) 16]> v in
  let v := <[c := wadd (get v c) (get v d)]> v in
  let v := <[b := rotr32 (Z.lxor (get v b) (get v c)) 12]> v in
  let v := <[a := wadd (wadd (get v a) (get v b)) y]> v in
  let v := <[d := rotr32 (Z.lxor (get v d) (get v a)) 8]> v in
  let v := <[c := wadd (get v c) (get v d)]> v in
  let v := <[b := rotr32 (Z.lxor (get v b) (get v c)) 7]> v in
  v.

Definition mixing_function (state message_block sigma : list Z) : list Z :=
  let m i := nthZ message_block (get sigma i) in
  let state := g_function state 0 4 8 12 (m 0%nat) (m 1%nat) in
  let state := g_function state 1 5 9 13 (m 2%nat) (m 3%nat) in
  let state := g_function state 2 6 10 14 (m 4%nat) (m 5%nat) in
  let state := g_function state 3 7 11 15 (m 6%nat) (m 7%nat) in
  let state := g_function state 0 5 10 15 (m 8%nat) (m 9%nat) in
  let state := g_function state 1 6 11 12 (m 10%nat) (m 11%nat) in
  let state := g_function state 2 7 8 13 (m 12%nat) (m 13%nat) in
  let state := g_function state 3 4 9 14 (m 14%nat) (m 15%nat) in
  state.

(** [for i in 0..n { mixing_function(state, message_block, &SIGMAS[i]) }] *)
Definition rounds (n : nat) (state message_block : list Z) : list Z :=
  fold_left (fun st sigma => mixing_function st message_block sigma) (take n SIGMAS) state.

Definition round_function_reduced_rounds (state message_block : list Z) : list Z :=
  rounds 7 state message_block.
Definition round_function_full_rounds (state message_block : list Z) : list Z :=
  rounds 10 state message_block.

Definition round_function (REDUCED_ROUNDS : bool) (state message_block : list Z) : list Z :=
  if REDUCED_ROUNDS then round_function_reduced_rounds state message_block
  else round_function_full_rounds state message_block.

(** [for i in 0..8 { dst[i] ^= ext[i]; dst[i] ^= ext[i + 8] }] *)
Definition xor_halves (dst ext : list Z) : list Z :=
  map (fun i => Z.lxor (Z.lxor (get dst i) (get ext i)) (get ext (i + 8))) (seq 0 8).

(** ** baseline.rs *)
Module Baseline.

Record Blake2sState : Type := { state : list Z; input_buffer : list Z; t : Z }.

Definition new : Blake2sState :=
  {| state := CONFIGURED_IV; input_buffer := replicate 16 0; t := 0 |}.

Definition reset (s : Blake2sState) : Blake2sState :=
  {| state := CONFIGURED_IV; input_buffer := input_buffer s; t := 0 |}.

(** The sixteen working words before the first round. *)
Definition extend (h : list Z) (w12 w14 : Z) : list Z :=
  [get h 0; get h 1; get h 2; get h 3; get h 4; get h 5; get h 6; get h 7;
   get IV 0; get IV 1; get IV 2; get IV 3; w12; get IV 5; w14; get IV 7].

Definition spec_run_single_round_into_destination (REDUCED_ROUNDS : bool) (s : Blake2sState)
    (block_len : Z) : list Z :=
  let t := u32 (block_len * 4) in
  let ext := round_function REDUCED_ROUNDS
    (extend (state s) (Z.lxor t (get IV 4)) (Z.lxor 0xffffffff (get IV 6))) (input_buffer s) in
  xor_halves CONFIGURED_IV ext.

Definition run_round_function_with_byte_len (REDUCED_ROUNDS : bool) (s : Blake2sState)
    (input_size_bytes : Z) (last_round : bool) : Blake2sState :=
  let t := wadd (t s) (u32 input_size_bytes) in
  let ext := round_function REDUCED_ROUNDS
    (extend (state s) (Z.lxor t (get IV 4))
       (Z.lxor (wmul 0xffffffff (b2z last_round)) (get IV 6))) (input_buffer s) in
  {| state := xor_halves (state s) ext; input_buffer := input_buffer s; t := t |}.

Definition run_round_function (REDUCED_ROUNDS : bool) (s : Blake2sState)
    (input_size_words : Z) (last_round : bool) : Blake2sState :=
  run_round_function_with_byte_len REDUCED_ROUNDS s (input_size_words * 4) last_round.

Definition absorb (REDUCED_ROUNDS : bool) (s : Blake2sState) (message_block : list Z) : Blake2sState :=
  let t := wadd (t s) BLAKE2S_BLOCK_SIZE_BYTES in
  let ext := round_function REDUCED_ROUNDS
    (extend (state s) (Z.lxor t (get IV 4)) (get IV 6)) message_block in
  {| state := xor_halves (state s) ext; input_buffer := input_buffer s; t := t |}.

(** The hasher (its counter moved on) and the digest. *)
Definition absorb_final_block (REDUCED_ROUNDS : bool) (s : Blake2sState) (message_block : list Z)
    (block_len : Z) : Blake2sState * list Z :=
  let t := wadd (t s) (u32 (block_len * 4)) in
  let ext := round_function REDUCED_ROUNDS
    (extend (state s) (Z.lxor t (get IV 4)) (Z.lxor 0xffffffff (get IV 6))) message_block in
  ({| state := state s; input_buffer := input_buffer s; t := t |}, xor_halves (state s) ext).

Definition compress_two_to_one (REDUCED_ROUNDS : bool) (message_block : list Z) : list Z :=
  let ext := round_function REDUCED_ROUNDS
    (extend CONFIGURED_IV (Z.lxor BLAKE2S_BLOCK_SIZE_BYTES (get IV 4))
       (Z.lxor 0xffffffff (get IV 6))) message_block in
  xor_halves CONFIGURED_IV ext.

End Baseline.

(** ** The delegated round

    [None] is a panic: a permutation mask that is not a single bit, or an
    index past the ten permutations. *)

Definition overwrite_normal (state ext : list Z) : list Z :=
  let ext := fold_left (fun e i => <[i := get state i]> e) (seq 0 8) ext in
  let ext := <[8%nat := get IV 0]> ext in
  let ext := <[9%nat := get IV 1]> ext in
  let ext := <[10%nat := get IV 2]> ext in
  let ext := <[11%nat := get IV 3]> ext in
  let ext := <[13%nat := get IV 5]> ext in
  let ext := <[15%nat := get IV 7]> ext in
  ext.

Definition overwrite_compression (ext : list Z) : list Z :=
  let ext := fold_left (fun e i => <[(i + 8)%nat := get IV i]> (<[i := get CONFIGURED_IV i]> e))
               (seq 0 8) ext in
  let ext := <[12%nat := Z.lxor (get ext 12) BLAKE2S_BLOCK_SIZE_BYTES]> ext in
  let ext := <[14%nat := Z.lxor (get ext 14) 0xffffffff]> ext in
  ext.

Definition node_buffer (is_right : bool) (state input : list Z) : list Z :=
  if is_right then take 8 input ++ state else state ++ take 8 input.

Definition flag (control mask : Z) : bool := Z.land control mask =? mask.

Definition delegated_round (state ext input : list Z) (permutation_bitmask control_register : Z)
    : option (list Z * list Z) :=
  let mode_compression := flag control_register TEST_IF_COMPRESSION_MODE_MASK in
  let last_round := flag control_register TEST_IF_LAST_ROUND_MASK in
  let node_is_right := flag control_register TEST_IF_INPUT_IS_RIGHT_NODE_MASK in
  if is_power_of_two permutation_bitmask then
    let permutation_index := trailing_zeros permutation_bitmask in
    match SIGMAS !! Z.to_nat permutation_index with
    | None => None
    | Some sigma =>
        let ext :=
          if mode_compression then
            let ext := if permutation_index =? 0 then overwrite_compression ext else ext in
            mixing_function ext (node_buffer node_is_right state input) sigma
          else
            let ext := if permutation_index =? 0 then overwrite_normal state ext else ext in
            mixing_function ext input sigma in
        let state :=
          if last_round then
            let state := if mode_compression then CONFIGURED_IV else state in
            map (fun i => Z.lxor (get state i) (Z.lxor (get ext i) (get ext (i + 8)))) (seq 0 8)
          else state in
        Some (state, ext)
    end
  else None.

(** ** state_with_extended_control.rs *)
Module Evaluator.

Record Blake2RoundFunctionEvaluator : Type := {
  state : list Z; extended_state : list Z; input_buffer : list Z; t : Z }.

Definition reset (e : Blake2RoundFunctionEvaluator) : Blake2RoundFunctionEvaluator :=
  {| state := CONFIGURED_IV; extended_state := extended_state e;
     input_buffer := input_buffer e; t := 0 |}.

(** [csr_trigger_delegation]: the accelerator works in place on the state and
    the extended state, which are adjacent in memory. *)
Definition csr_trigger_delegation (se : list Z * list Z) (input : list Z) (round_mask control_mask : Z)
    : option (list Z * list Z) :=
  delegated_round (fst se) (snd se) input round_mask control_mask.

(** The loop over the first rounds and the last round with its own mask. *)
Fixpoint first_rounds (n : nat) (se : list Z * list Z) (input : list Z) (mask : Z)
    : option (list Z * list Z) :=
  match n with
  | O => Some se
  | S n' =>
      match first_rounds n' se input mask with
      | Some se' => csr_trigger_delegation se' input (shl32 1 (Z.of_nat n')) mask
      | None => None
      end
  end.

Definition delegated_rounds (REDUCED_ROUNDS : bool) (se : list Z * list Z) (input : list Z)
    (mask last_mask : Z) : option (list Z * list Z) :=
  let n := if REDUCED_ROUNDS then 6%nat else 9%nat in
  match first_rounds n se input mask with
  | Some se' => csr_trigger_delegation se' input (shl32 1 (Z.of_nat n)) last_mask
  | None => None
  end.

Definition with_states (e : Blake2RoundFunctionEvaluator) (t : Z) (se : list Z * list Z)
    : Blake2RoundFunctionEvaluator :=
  {| state := fst se; extended_state := snd se; input_buffer := input_buffer e; t := t |}.

(** The build for the RISC-V target with the delegation feature. *)
Definition run_round_function_with_input_and_byte_len_riscv (REDUCED_ROUNDS : bool)
    (e : Blake2RoundFunctionEvaluator) (input : list Z) (input_size_bytes : Z) (last_round : bool)
    : option Blake2RoundFunctionEvaluator :=
  let t := wadd (t e) (u32 input_size_bytes) in
  let ext := <[12%nat := Z.lxor t (get IV 4)]> (extended_state e) in
  let ext := <[14%nat := Z.lxor (wmul 0xffffffff (b2z last_round)) (get IV 6)]> ext in
  option_map (with_states e t) (delegated_rounds REDUCED_ROUNDS (state e, ext) input 0 1).

(** The native build. *)
Definition run_round_function_with_input_and_byte_len (REDUCED_ROUNDS : bool)
    (e : Blake2RoundFunctionEvaluator) (input : list Z) (input_size_bytes : Z) (last_round : bool)
    : Blake2RoundFunctionEvaluator :=
  let t := wadd (t e) (u32 input_size_bytes) in
  let ext := round_function REDUCED_ROUNDS
    (Baseline.extend (state e) (Z.lxor t (get IV 4))
       (Z.lxor (wmul 0xffffffff (b2z last_round)) (get IV 6))) input in
  with_states e t (xor_halves (state e) ext, extended_state e).

Definition run_round_function_with_byte_len_riscv (REDUCED_ROUNDS : bool)
    (e : Blake2RoundFunctionEvaluator) (input_size_bytes : Z) (last_round : bool)
    : option Blake2RoundFunctionEvaluator :=
  run_round_function_with_input_and_byte_len_riscv REDUCED_ROUNDS e (input_buffer e)
    input_size_bytes last_round.

Definition run_round_function_with_byte_len (REDUCED_ROUNDS : bool)
    (e : Blake2RoundFunctionEvaluator) (input_size_bytes : Z) (last_round : bool)
    : Blake2RoundFunctionEvaluator :=
  run_round_function_with_input_and_byte_len REDUCED_ROUNDS e (input_buffer e)
    input_size_bytes last_round.

Definition compress_node_riscv (REDUCED_ROUNDS : bool) (e : Blake2RoundFunctionEvaluator)
    (is_right : bool) : option Blake2RoundFunctionEvaluator :=
  let mask := Z.lor 4 (wmul 2 (b2z is_right)) in
  option_map (with_states e (t e))
    (delegated_rounds REDUCED_ROUNDS (state e, extended_state e) (input_buffer e) mask (Z.lor mask 1)).

Definition compress_node (REDUCED_ROUNDS : bool) (e : Blake2RoundFunctionEvaluator)
    (is_right : bool) : Blake2RoundFunctionEvaluator :=
  let ext := round_function REDUCED_ROUNDS
    (Baseline.extend CONFIGURED_IV (Z.lxor BLAKE2S_BLOCK_SIZE_BYTES (get IV 4))
       (Z.lxor 0xffffffff (get IV 6))) (node_buffer is_right (state e) (input_buffer e)) in
  with_states e (t e) (xor_halves CONFIGURED_IV ext, extended_state e).

End Evaluator.

(** ** The delegated rounds compute the native function *)

Lemma xor_into_assoc dst ext :
  map (fun i => Z.lxor (get dst i) (Z.lxor (get ext i) (get ext (i + 8)))) (seq 0 8)
    = xor_halves dst ext.
Proof. apply map_ext. intros i. symmetry. apply Z.lxor_assoc. Qed.

Lemma rounds_succ n st m sigma :
  SIGMAS !! n = Some sigma -> rounds (S n) st m = mixing_function (rounds n st m) m sigma.
Proof.
  intros H. unfold rounds. rewrite (take_S_r _ _ _ H), fold_left_app. reflexivity.
Qed.

(** The state the first permutation starts from, by mode. *)
Definition round_start (compression : bool) (st ext : list Z) : list Z :=
  if compression then overwrite_compression ext else overwrite_normal st ext.

Definition control_word (compression is_right last : bool) : Z :=
  Z.lor (Z.lor (if compression then 4 else 0) (if is_right then 2 else 0)) (b2z last).

Definition round_input (compression is_right : bool) (st input : list Z) : list Z :=
  if compression then node_buffer is_right st input else input.

Lemma delegated_round_step compression is_right last k st ext input sigma :
  SIGMAS !! k = Some sigma ->
  let ext' := mixing_function (if (k =? 0)%nat then round_start compression st ext else ext)
                (round_input compression is_right st input) sigma in
  delegated_round st ext input (shl32 1 (Z.of_nat k)) (control_word compression is_right last) =
    Some (if last then xor_halves (if compression then CONFIGURED_IV else st) ext' else st, ext').
Proof.
  intros Hk ext'. unfold delegated_round.
  assert (Hlt : (k < 10)%nat) by (apply lookup_lt_Some in Hk; exact Hk).
  assert (Hp : is_power_of_two (shl32 1 (Z.of_nat k)) = true /\
               trailing_zeros (shl32 1 (Z.of_nat k)) = Z.of_nat k).
  { clear -Hlt. do 10 (destruct k as [|k]; [split; reflexivity|]). lia. }
  destruct Hp as [-> ->]. rewrite Nat2Z.id, Hk.
  replace (Z.of_nat k =? 0) with (k =? 0)%nat by (destruct k; reflexivity).
  subst ext'. destruct compression, is_right, last; cbn [control_word b2z round_input round_start];
    rewrite xor_into_assoc || idtac; reflexivity.
Qed.

Lemma first_rounds_spec compression is_right n st ext input :
  (0 < n <= 10)%nat ->
  Evaluator.first_rounds n (st, ext) input (control_word compression is_right false) =
    Some (st, rounds n (round_start compression st ext) (round_input compression is_right st input)).
Proof.
  induction n as [|n IH]; [lia|]. intros Hn. cbn [Evaluator.first_rounds].
  assert (exists sigma, SIGMAS !! n = Some sigma) as [sigma Hs]
    by (apply lookup_lt_is_Some; cbn; lia).
  destruct n as [|n].
  - unfold Evaluator.csr_trigger_delegation. cbn [Evaluator.first_rounds fst snd].
    rewrite (delegated_round_step _ _ _ _ _ _ _ sigma Hs). cbn [Nat.eqb].
    rewrite (rounds_succ 0 _ _ sigma Hs). reflexivity.
  - rewrite IH by lia. unfold Evaluator.csr_trigger_delegation. cbn [fst snd].
    rewrite (delegated_round_step _ _ _ _ _ _ _ sigma Hs). cbn [Nat.eqb].
    rewrite (rounds_succ (S n) _ _ sigma Hs). reflexivity.
Qed.

Lemma delegated_rounds_spec reduced compression is_right st ext input :
  let r := round_function reduced (round_start compression st ext)
             (round_input compression is_right st input) in
  Evaluator.delegated_rounds reduced (st, ext) input
      (control_word compression is_right false) (control_word compression is_right true) =
    Some (xor_halves (if compression then CONFIGURED_IV else st) r, r).
Proof.
  intros r. subst r. unfold Evaluator.delegated_rounds, Evaluator.csr_trigger_delegation.
  destruct reduced; rewrite first_rounds_spec by lia; cbn [fst snd];
    (erewrite delegated_round_step by reflexivity); cbn [Nat.eqb];
    unfold round_function, round_function_reduced_rounds, round_function_full_rounds;
    first [erewrite (rounds_succ 6) by reflexivity | erewrite (rounds_succ 9) by reflexivity];
    reflexivity.
Qed.

(** Lists of a known length, spelled out. *)
Ltac explode l :=
  repeat (destruct l as [|? l]; [discriminate|]); destruct l; [|discriminate].

Lemma round_start_normal st ext w12 w14 :
  length st = 8%nat -> length ext = 16%nat ->
  round_start false st (<[14%nat := w14]> (<[12%nat := w12]> ext)) = Baseline.extend st w12 w14.
Proof. intros Hs He. explode st. explode ext. reflexivity. Qed.

Lemma round_start_compression st ext :
  length ext = 16%nat ->
  round_start true st ext =
    Baseline.extend CONFIGURED_IV (Z.lxor BLAKE2S_BLOCK_SIZE_BYTES (get IV 4))
      (Z.lxor 0xffffffff (get IV 6)).
Proof. intros He. explode ext. reflexivity. Qed.

(** C15: On the RISC-V target every block is compressed by triggering the
    delegation once per round; the chaining state and byte counter this
    leaves are those of the native build of the same function, for both round
    counts, whatever the scratch words held before. *)
Theorem delegated_block_is_native reduced e input size last :
  length (Evaluator.state e) = 8%nat -> length (Evaluator.extended_state e) = 16%nat ->
  exists e',
    Evaluator.run_round_function_with_input_and_byte_len_riscv reduced e input size last = Some e' /\
    let n := Evaluator.run_round_function_with_input_and_byte_len reduced e input size last in
    Evaluator.state e' = Evaluator.state n /\ Evaluator.t e' = Evaluator.t n /\
    Evaluator.input_buffer e' = Evaluator.input_buffer n.
Proof.
  intros Hs He. unfold Evaluator.run_round_function_with_input_and_byte_len_riscv.
  pose proof (delegated_rounds_spec reduced false false) as H. cbn [control_word Z.lor b2z] in H.
  rewrite H. eexists. split; [reflexivity|]. cbn [round_input].
  rewrite round_start_normal by auto. auto.
Qed.

Lemma delegated_block_is_native_witness :
  let e := {| Evaluator.state := CONFIGURED_IV; Evaluator.extended_state := replicate 16 0xdead;
              Evaluator.input_buffer := 0x636261 :: replicate 15 0; Evaluator.t := 0 |} in
  exists e',
    Evaluator.run_round_function_with_input_and_byte_len_riscv false e (Evaluator.input_buffer e) 3 true
      = Some e' /\
    Evaluator.state e' =
      [0x8c5e8c50; 0xe2147c32; 0xa32ba7e1; 0x2f45eb4e; 0x208b4537; 0x293ad69e; 0x4c9b994d; 0x82596786].
Proof.
  intros e.
  destruct (delegated_block_is_native false e (Evaluator.input_buffer e) 3 true eq_refl eq_refl)
    as (e' & H & Hs & _).
  exists e'. split; [exact H|]. rewrite Hs. vm_compute. reflexivity.
Defined.

(** Merkle node compression through the delegation - the sibling on the
    left or on the right - gives exactly the native [compress_two_to_one] of
    the two children in order. *)
Theorem delegated_node_is_compress_two_to_one reduced e is_right :
  length (Evaluator.extended_state e) = 16%nat ->
  exists e',
    Evaluator.compress_node_riscv reduced e is_right = Some e' /\
    Evaluator.state e' =
      Baseline.compress_two_to_one reduced
        (if is_right then take 8 (Evaluator.input_buffer e) ++ Evaluator.state e
         else Evaluator.state e ++ take 8 (Evaluator.input_buffer e)) /\
    Evaluator.state e' = Evaluator.state (Evaluator.compress_node reduced e is_right) /\
    Evaluator.t e' = Evaluator.t e.
Proof.
  intros He. unfold Evaluator.compress_node_riscv.
  replace (Z.lor 4 (wmul 2 (b2z is_right))) with (control_word true is_right false)
    by (destruct is_right; reflexivity).
  replace (Z.lor (control_word true is_right false) 1) with (control_word true is_right true)
    by (destruct is_right; reflexivity).
  rewrite delegated_rounds_spec. eexists. split; [reflexivity|].
  rewrite round_start_compression by auto. auto.
Qed.

Lemma delegated_node_is_compress_two_to_one_witness :
  let e := {| Evaluator.state := rangeZ 1 8; Evaluator.extended_state := replicate 16 7;
              Evaluator.input_buffer := rangeZ 100 16; Evaluator.t := 0 |} in
  exists e', Evaluator.compress_node_riscv true e true = Some e' /\
    Evaluator.state e' = Baseline.compress_two_to_one true (rangeZ 100 8 ++ rangeZ 1 8).
Proof.
  intros e. destruct (delegated_node_is_compress_two_to_one true e true eq_refl) as (e' & H & Hs & _).
  exists e'. split; [exact H|exact Hs].
Defined.

(** ** Refinement of RFC 7693

    The reference: [G] as a function of four words, a round as a column step
    and a diagonal step on the four rows of the working matrix (the diagonals
    become columns by rotating the rows), the compression function [F] with
    its 64-bit counter, and the hash of a sequence of blocks. *)
Module Rfc.

Definition G (v : Z * Z * Z * Z) (x y : Z) : Z * Z * Z * Z :=
  let '(a, b, c, d) := v in
  let a := (a + b + x) mod 2 ^ 32 in
  let d := rotr32 (Z.lxor d a) 16 in
  let c := (c + d) mod 2 ^ 32 in
  let b := rotr32 (Z.lxor b c) 12 in
  let a := (a + b + y) mod 2 ^ 32 in
  let d := rotr32 (Z.lxor d a) 8 in
  let c := (c + d) mod 2 ^ 32 in
  let b := rotr32 (Z.lxor b c) 7 in
  (a, b, c, d).

Record matrix : Type := { r0 : list Z; r1 : list Z; r2 : list Z; r3 : list Z }.

Definition of_words (v : list Z) : matrix :=
  {| r0 := take 4 v; r1 := take 4 (drop 4 v); r2 := take 4 (drop 8 v); r3 := take 4 (drop 12 v) |}.
Definition to_words (m : matrix) : list Z := r0 m ++ r1 m ++ r2 m ++ r3 m.

Definition column_step (m : matrix) (xs ys : list Z) : matrix :=
  let q i := G (get (r0 m) i, get (r1 m) i, get (r2 m) i, get (r3 m) i) (get xs i) (get ys i) in
  {| r0 := map (fun i => fst (fst (fst (q i)))) (seq 0 4);
     r1 := map (fun i => snd (fst (fst (q i)))) (seq 0 4);
     r2 := map (fun i => snd (fst (q i))) (seq 0 4);
     r3 := map (fun i => snd (q i)) (seq 0 4) |}.

Definition rot (k : nat) (r : list Z) : list Z := drop k r ++ take k r.
Definition rotate_rows (i j k : nat) (m : matrix) : matrix :=
  {| r0 := r0 m; r1 := rot i (r1 m); r2 := rot j (r2 m); r3 := rot k (r3 m) |}.

Definition round (v block sigma : list Z) : list Z :=
  let m i := nthZ block (get sigma i) in
  let a := column_step (of_words v) (map m [0; 2; 4; 6])%nat (map m [1; 3; 5; 7])%nat in
  let b := column_step (rotate_rows 1 2 3 a) (map m [8; 10; 12; 14])%nat (map m [9; 11; 13; 15])%nat in
  to_words (rotate_rows 3 2 1 b).

(** [F(h, m, t, f)], the counter [t] split in two words *)
Definition F (n : nat) (h block : list Z) (t : Z) (f : bool) : list Z :=
  let v := h ++ IV in
  let v := <[12%nat := Z.lxor (get v 12) (t mod 2 ^ 32)]> v in
  let v := <[13%nat := Z.lxor (get v 13) (t / 2 ^ 32)]> v in
  let v := if f then <[14%nat := Z.lxor (get v 14) 0xffffffff]> v else v in
  let v := fold_left (fun v s => round v block s) (take n SIGMAS) v in
  map (fun i => Z.lxor (Z.lxor (get h i) (get v i)) (get v (i + 8))) (seq 0 8).

(** Full blocks first, then a last block of which [len] words count. *)
Fixpoint hash_from (n : nat) (h : list Z) (t : Z) (blocks : list (list Z)) (final : list Z) (len : Z)
    : list Z :=
  match blocks with
  | [] => F n h final (t + 4 * len) true
  | b :: rest => hash_from n (F n h b (t + 64) false) (t + 64) rest final len
  end.

(** Unkeyed, 32-byte digest: the parameter block turns [IV] into [CONFIGURED_IV]. *)
Definition hash (n : nat) (blocks : list (list Z)) (final : list Z) (len : Z) : list Z :=
  hash_from n (<[0%nat := Z.lxor (get IV 0) 0x01010020]> IV) 0 blocks final len.

End Rfc.

Lemma wadd3 a b c : wadd (wadd a b) c = (a + b + c) mod 2 ^ 32.
Proof. unfold wadd. rewrite u32_add_l. reflexivity. Qed.

(** [G] with the wrapping additions of the code. *)
Definition g_words (v : Z * Z * Z * Z) (x y : Z) : Z * Z * Z * Z :=
  let '(a, b, c, d) := v in
  let a := wadd (wadd a b) x in
  let d := rotr32 (Z.lxor d a) 16 in
  let c := wadd c d in
  let b := rotr32 (Z.lxor b c) 12 in
  let a := wadd (wadd a b) y in
  let d := rotr32 (Z.lxor d a) 8 in
  let c := wadd c d in
  let b := rotr32 (Z.lxor b c) 7 in
  (a, b, c, d).

Lemma g_words_is_G v x y : g_words v x y = Rfc.G v x y.
Proof.
  destruct v as [[[a b] c] d]. unfold g_words, Rfc.G. cbv zeta. rewrite (wadd3 a b x).
  set (a1 := (a + b + x) mod 2 ^ 32). rewrite (wadd3 a1 _ y). reflexivity.
Qed.

Definition Gw a b c d x y (p : Z * Z * Z * Z -> Z) : Z := p (g_words (a, b, c, d) x y).

Lemma g_function_spec v a b c d x y :
  length v = 16%nat ->
  In (a, b, c, d) [(0, 4, 8, 12); (1, 5, 9, 13); (2, 6, 10, 14); (3, 7, 11, 15);
                   (0, 5, 10, 15); (1, 6, 11, 12); (2, 7, 8, 13); (3, 4, 9, 14)]%nat ->
  g_function v a b c d x y =
    let g := Gw (get v a) (get v b) (get v c) (get v d) x y in
    <[a := g (fun q => fst (fst (fst q)))]> (<[b := g (fun q => snd (fst (fst q)))]>
      (<[c := g (fun q => snd (fst q))]> (<[d := g snd]> v))).
Proof.
  intros Hv Hin. explode v. clear Hv.
  repeat (destruct Hin as [E | Hin]; [injection E as <- <- <- <-;
    unfold Gw, g_words, g_function; cbv beta iota zeta delta [get nth insert list_insert fst snd];
    reflexivity|]).
  destruct Hin.
Qed.

(** Evaluate the innermost [g_function] of an explicit list, keeping [G] folded. *)
Ltac g_step :=
  match goal with
  | |- context [g_function (?w :: ?l) ?a ?b ?c ?d ?x ?y] =>
      rewrite (g_function_spec (w :: l) a b c d x y) by (reflexivity || (cbn; tauto));
      cbv zeta; cbn [get nth insert list_insert]
  end.

Lemma length_g_function v a b c d x y : length (g_function v a b c d x y) = length v.
Proof. unfold g_function. rewrite !length_insert. reflexivity. Qed.

Lemma length_mixing v m s : length (mixing_function v m s) = length v.
Proof. unfold mixing_function. rewrite !length_g_function. reflexivity. Qed.

Lemma mixing_function_is_rfc_round v block sigma :
  length v = 16%nat -> mixing_function v block sigma = Rfc.round v block sigma.
Proof.
  intros Hv. explode v. unfold mixing_function. cbv zeta. do 8 g_step.
  unfold Gw, Rfc.round, Rfc.column_step, Rfc.rotate_rows, Rfc.rot, Rfc.of_words, Rfc.to_words, get.
  cbn [take drop app map seq nth Rfc.r0 Rfc.r1 Rfc.r2 Rfc.r3].
  rewrite !g_words_is_G. reflexivity.
Qed.

#[local] Opaque mixing_function Rfc.round.

Definition rounds_of (reduced : bool) : nat := if reduced then 7 else 10.

Lemma fold_left_step (f : list Z -> list Z -> list Z) s sigmas v :
  fold_left f (s :: sigmas) v = fold_left f sigmas (f v s).
Proof. reflexivity. Qed.

Lemma fold_is_rfc block sigmas : forall v,
  length v = 16%nat ->
  fold_left (fun st sigma => mixing_function st block sigma) sigmas v =
    fold_left (fun v s => Rfc.round v block s) sigmas v.
Proof.
  induction sigmas as [|s sigmas IH]; intros v Hv; [reflexivity|].
  rewrite !fold_left_step. rewrite IH by (rewrite length_mixing; exact Hv).
  rewrite (mixing_function_is_rfc_round v block s Hv). reflexivity.
Qed.

Lemma rounds_is_rfc n v block :
  length v = 16%nat -> rounds n v block = fold_left (fun v s => Rfc.round v block s) (take n SIGMAS) v.
Proof. apply fold_is_rfc. Qed.

Lemma round_function_rounds reduced v block :
  round_function reduced v block = rounds (rounds_of reduced) v block.
Proof. destruct reduced; reflexivity. Qed.

Lemma length_xor_halves h e : length (xor_halves h e) = 8%nat.
Proof. reflexivity. Qed.

Lemma F_spec reduced h block t f :
  length h = 8%nat -> 0 <= t < 2 ^ 32 ->
  Rfc.F (rounds_of reduced) h block t f =
    xor_halves h (round_function reduced
      (Baseline.extend h (Z.lxor t (get IV 4))
         (if f then Z.lxor 0xffffffff (get IV 6) else get IV 6)) block).
Proof.
  intros Hh Ht. rewrite round_function_rounds, rounds_is_rfc by reflexivity.
  unfold Rfc.F, xor_halves. rewrite Z.mod_small, Z.div_small by lia.
  replace (if f then _ else _) with
    (Baseline.extend h (Z.lxor t (get IV 4)) (if f then Z.lxor 0xffffffff (get IV 6) else get IV 6));
    [reflexivity|].
  explode h. rewrite (Z.lxor_comm t). destruct f; reflexivity.
Qed.

Lemma absorb_is_F reduced s block :
  length (Baseline.state s) = 8%nat -> 0 <= Baseline.t s -> Baseline.t s + 64 < 2 ^ 32 ->
  Baseline.absorb reduced s block =
    {| Baseline.state := Rfc.F (rounds_of reduced) (Baseline.state s) block (Baseline.t s + 64) false;
       Baseline.input_buffer := Baseline.input_buffer s; Baseline.t := Baseline.t s + 64 |}.
Proof.
  intros Hl Ht0 Ht. unfold Baseline.absorb. rewrite F_spec by (auto; lia).
  unfold wadd, BLAKE2S_BLOCK_SIZE_BYTES. rewrite u32_small by (unfold is_u32; lia). reflexivity.
Qed.

Lemma absorb_all_is_hash_from reduced final len : forall blocks s,
  length (Baseline.state s) = 8%nat -> 0 <= Baseline.t s -> 0 <= len ->
  Baseline.t s + 64 * Z.of_nat (length blocks) + 4 * len < 2 ^ 32 ->
  snd (Baseline.absorb_final_block reduced (fold_left (Baseline.absorb reduced) blocks s) final len) =
    Rfc.hash_from (rounds_of reduced) (Baseline.state s) (Baseline.t s) blocks final len.
Proof.
  induction blocks as [|b blocks IH]; intros s Hl Ht Hlen Hb; cbn [fold_left Rfc.hash_from].
  - cbn [length] in Hb. rewrite F_spec by (auto; lia). cbn [Baseline.absorb_final_block snd].
    unfold wadd. rewrite (u32_small (len * 4)), u32_small by (unfold is_u32; lia).
    replace (len * 4) with (4 * len) by lia. reflexivity.
  - cbn [length] in Hb. rewrite absorb_is_F by (auto; lia). apply IH; cbn [Baseline.state Baseline.t];
      auto; lia.
Qed.

(** C10: Absorbing full blocks and a final partial block computes the RFC 7693
    BLAKE2s hash (with 7 or 10 rounds) of the message, for every message
    shorter than 4 GiB. *)
Theorem blake2s_is_rfc7693 reduced blocks final len :
  0 <= len -> 64 * Z.of_nat (length blocks) + 4 * len < 2 ^ 32 ->
  snd (Baseline.absorb_final_block reduced
         (fold_left (Baseline.absorb reduced) blocks Baseline.new) final len) =
    Rfc.hash (rounds_of reduced) blocks final len.
Proof. intros Hlen Hb. apply absorb_all_is_hash_from; auto; cbn; lia. Qed.

Lemma blake2s_is_rfc7693_witness :
  Rfc.hash 10 [rangeZ 0 16] (1 :: replicate 15 0) 1 =
  snd (Baseline.absorb_final_block false (Baseline.absorb false Baseline.new (rangeZ 0 16))
         (1 :: replicate 15 0) 1).
Proof.
  symmetry. apply (blake2s_is_rfc7693 false [rangeZ 0 16] (1 :: replicate 15 0) 1); cbn; lia.
Defined.
