(* ===== verification/Hasher.v ===== *)
(** * The hasher interface

    [DelegatedBlake2sState] is, depending on the build, the plain
    [Blake2sState] of [blake2s_u32/src/baseline.rs] or the
    [Blake2RoundFunctionEvaluator] of [state_with_extended_control.rs], and the
    latter computes natively on a host and through the delegation circuit in a
    RISC-V guest.  The transcript and the Merkle verifier are written against
    the common operations.  Here these operations are the class
    [Blake2sHasher], what the clients may rely on is [LawfulHasher], and the
    three builds are instances of both.  The end of the file is the streaming
    argument the clients share: a hasher that has consumed some words stands
    for the RFC 7693 chain over them. *)
From stdpp Require Import base list strings.
From Stdlib Require Import ZArith Lia.
From S2P Require Import Prelude MachineInt Blake2s.

#[local] Opaque mixing_function Rfc.round.

(** Hash programs change a hasher and may panic; they have no other exit. *)
Definition hprog (H A : Type) : Type := comp Empty_set H A.

Class Blake2sHasher (H : Type) : Type := {
  h_state : H -> list Z;
  h_input_buffer : H -> list Z;
  h_set_input_buffer : list Z -> H -> H;
  (** the constructor, run over a slot with arbitrary old contents: one of the
      builds leaves its buffers uninitialised *)
  h_new : H -> H;
  h_reset : H -> H;
  h_run_round_function : bool -> Z -> bool -> hprog H unit;
}.

(** One compression: chaining state, byte counter, final flag, block. *)
Definition block_step (REDUCED_ROUNDS : bool) (st : list Z) (t : Z) (last_round : bool) (block : list Z)
    : list Z :=
  xor_halves st (round_function REDUCED_ROUNDS
    (Baseline.extend st (Z.lxor t (get IV 4)) (Z.lxor (wmul 0xffffffff (b2z last_round)) (get IV 6))) block).

Class LawfulHasher (H : Type) `{Blake2sHasher H} : Type := {
  h_t : H -> Z;
  (** the fixed-size arrays have their lengths *)
  h_wf : H -> Prop;
  h_wf_state : forall h, h_wf h -> length (h_state h) = 8%nat;
  h_wf_buffer : forall h, h_wf h -> length (h_input_buffer h) = 16%nat;
  h_set_ok : forall h b, h_wf h -> length b = 16%nat ->
    h_wf (h_set_input_buffer b h) /\ h_input_buffer (h_set_input_buffer b h) = b /\
    h_state (h_set_input_buffer b h) = h_state h /\ h_t (h_set_input_buffer b h) = h_t h;
  h_new_ok : forall h, h_wf h -> h_wf (h_new h) /\ h_state (h_new h) = CONFIGURED_IV /\ h_t (h_new h) = 0;
  h_reset_ok : forall h, h_wf h -> h_wf (h_reset h) /\ h_state (h_reset h) = CONFIGURED_IV /\
    h_t (h_reset h) = 0 /\ h_input_buffer (h_reset h) = h_input_buffer h;
  h_run_ok : forall h reduced n last, h_wf h -> exists h',
    h_run_round_function reduced n last h = Ok tt h' /\ h_wf h' /\
    h_input_buffer h' = h_input_buffer h /\ h_t h' = wadd (h_t h) (u32 (n * 4)) /\
    h_state h' = block_step reduced (h_state h) (h_t h') last (h_input_buffer h);
}.

(** ** The plain hasher *)
#[export] Instance Baseline_hasher : Blake2sHasher Baseline.Blake2sState := {
  h_state := Baseline.state;
  h_input_buffer := Baseline.input_buffer;
  h_set_input_buffer b s := {| Baseline.state := Baseline.state s; Baseline.input_buffer := b; Baseline.t := Baseline.t s |};
  h_new _ := Baseline.new;
  h_reset := Baseline.reset;
  h_run_round_function reduced n last := modify (fun s => Baseline.run_round_function reduced s n last);
}.

#[export] Instance Baseline_hasher_lawful : LawfulHasher Baseline.Blake2sState.
Proof.
  refine {| h_t := Baseline.t;
            h_wf := fun s => length (Baseline.state s) = 8%nat /\ length (Baseline.input_buffer s) = 16%nat |};
    cbn; try tauto.
  intros h reduced n last [_ Hb]. eexists. split; [reflexivity|]. cbn. auto.
Defined.

(** ** The evaluator on a host *)
Definition evaluator_set_buffer (b : list Z) (e : Evaluator.Blake2RoundFunctionEvaluator) :=
  {| Evaluator.state := Evaluator.state e; Evaluator.extended_state := Evaluator.extended_state e;
     Evaluator.input_buffer := b; Evaluator.t := Evaluator.t e |}.

Definition evaluator_wf (e : Evaluator.Blake2RoundFunctionEvaluator) : Prop :=
  length (Evaluator.state e) = 8%nat /\ length (Evaluator.extended_state e) = 16%nat /\
  length (Evaluator.input_buffer e) = 16%nat.

(** [Blake2RoundFunctionEvaluator::new] only resets what the memory held. *)
Definition evaluator_new (memory : Evaluator.Blake2RoundFunctionEvaluator) := Evaluator.reset memory.

Definition evaluator_run_round_function (reduced : bool) (n : Z) (last : bool)
    (e : Evaluator.Blake2RoundFunctionEvaluator) : Evaluator.Blake2RoundFunctionEvaluator :=
  Evaluator.run_round_function_with_byte_len reduced e (n * 4) last.

#[export] Instance Evaluator_hasher : Blake2sHasher Evaluator.Blake2RoundFunctionEvaluator := {
  h_state := Evaluator.state;
  h_input_buffer := Evaluator.input_buffer;
  h_set_input_buffer := evaluator_set_buffer;
  h_new := evaluator_new;
  h_reset := Evaluator.reset;
  h_run_round_function reduced n last := modify (evaluator_run_round_function reduced n last);
}.

#[export] Instance Evaluator_hasher_lawful : LawfulHasher Evaluator.Blake2RoundFunctionEvaluator.
Proof.
  refine {| h_t := Evaluator.t; h_wf := evaluator_wf |}; unfold evaluator_wf; cbn; try tauto.
  intros h reduced n last (_ & He & Hb). eexists. split; [reflexivity|]. cbn. auto.
Defined.

(** ** The evaluator of a RISC-V guest *)
Definition GuestEvaluator : Type := Evaluator.Blake2RoundFunctionEvaluator.
#[global] Typeclasses Opaque GuestEvaluator.

(** The delegation refuses a round mask it does not know. *)
Definition guest_run_round_function (reduced : bool) (n : Z) (last : bool) : hprog GuestEvaluator unit :=
  fun e => match Evaluator.run_round_function_with_byte_len_riscv reduced e (n * 4) last with
           | Some e' => Ok tt e'
           | None => Panic "delegation"
           end.

#[export] Instance Guest_hasher : Blake2sHasher GuestEvaluator := {
  h_state := Evaluator.state;
  h_input_buffer := Evaluator.input_buffer;
  h_set_input_buffer := evaluator_set_buffer;
  h_new := evaluator_new;
  h_reset := Evaluator.reset;
  h_run_round_function := guest_run_round_function;
}.

Lemma length_fold {A B} (f : list A -> B -> list A) l :
  (forall v s, length (f v s) = length v) -> forall v, length (fold_left f l v) = length v.
Proof. intros Hf. induction l as [|s l IH]; intros v; cbn [fold_left]; [reflexivity | now rewrite IH]. Qed.

Lemma length_rounds n v m : length (rounds n v m) = length v.
Proof. unfold rounds. apply length_fold. intros w s. apply length_mixing. Qed.

Lemma length_round_function reduced v m : length (round_function reduced v m) = length v.
Proof. rewrite round_function_rounds. apply length_rounds. Qed.

Lemma guest_round reduced e input size last :
  length (Evaluator.state e) = 8%nat -> length (Evaluator.extended_state e) = 16%nat ->
  exists ext, length ext = 16%nat /\
    Evaluator.run_round_function_with_input_and_byte_len_riscv reduced e input size last =
      Some {| Evaluator.state := block_step reduced (Evaluator.state e)
                (wadd (Evaluator.t e) (u32 size)) last input;
              Evaluator.extended_state := ext; Evaluator.input_buffer := Evaluator.input_buffer e;
              Evaluator.t := wadd (Evaluator.t e) (u32 size) |}.
Proof.
  intros Hs He. unfold Evaluator.run_round_function_with_input_and_byte_len_riscv.
  pose proof (delegated_rounds_spec reduced false false) as H. cbn [control_word Z.lor b2z] in H.
  rewrite H. cbn [round_input]. rewrite round_start_normal by auto.
  eexists. split; [|reflexivity]. cbn [snd]. rewrite length_round_function. reflexivity.
Qed.

Lemma guest_compress_node reduced e is_right : length (Evaluator.extended_state e) = 16%nat ->
  exists ext, length ext = 16%nat /\
    Evaluator.compress_node_riscv reduced e is_right =
      Some {| Evaluator.state := Baseline.compress_two_to_one reduced
                (if is_right then take 8 (Evaluator.input_buffer e) ++ Evaluator.state e
                 else Evaluator.state e ++ take 8 (Evaluator.input_buffer e));
              Evaluator.extended_state := ext; Evaluator.input_buffer := Evaluator.input_buffer e;
              Evaluator.t := Evaluator.t e |}.
Proof.
  intros He. unfold Evaluator.compress_node_riscv.
  replace (Z.lor 4 (wmul 2 (b2z is_right))) with (control_word true is_right false)
    by (destruct is_right; reflexivity).
  replace (Z.lor (control_word true is_right false) 1) with (control_word true is_right true)
    by (destruct is_right; reflexivity).
  rewrite delegated_rounds_spec, round_start_compression by auto.
  eexists. split; [|reflexivity]. cbn [snd]. rewrite length_round_function. reflexivity.
Qed.

#[export] Instance Guest_hasher_lawful : LawfulHasher GuestEvaluator.
Proof.
  refine {| h_t := Evaluator.t : GuestEvaluator -> Z; h_wf := evaluator_wf : GuestEvaluator -> Prop |};
    unfold evaluator_wf; cbn; try tauto.
  intros h reduced n last (Hs & He & Hb).
  destruct (guest_round reduced h (Evaluator.input_buffer h) (n * 4) last Hs He) as (ext & Hl & E).
  unfold guest_run_round_function, Evaluator.run_round_function_with_byte_len_riscv. rewrite E.
  eexists. split; [reflexivity|]. cbn. auto.
Defined.

(** ** What a hash of words is

    The message is cut into blocks of sixteen words; the last block, never
    empty unless the message is, is padded with zeros and only its own words
    are counted. *)
Fixpoint blocks_of (n : nat) (ws : list Z) : list (list Z) :=
  match n with
  | O => []
  | S n' => take 16 ws :: blocks_of n' (drop 16 ws)
  end.

Definition pad16 (ws : list Z) : list Z := ws ++ replicate (16 - length ws) 0.

Definition leading_blocks (ws : list Z) : nat := (length ws - 1) / 16.

Definition words_hash (reduced : bool) (ws : list Z) : list Z :=
  let n := leading_blocks ws in
  let final := drop (16 * n) ws in
  Rfc.hash (rounds_of reduced) (blocks_of n ws) (pad16 final) (Z.of_nat (length final)).

(** The chaining state after full blocks, none of them final. *)
Fixpoint chain (reduced : bool) (h : list Z) (t : Z) (blocks : list (list Z)) : list Z :=
  match blocks with
  | [] => h
  | b :: rest => chain reduced (Rfc.F (rounds_of reduced) h b (t + 64) false) (t + 64) rest
  end.

Lemma chain_snoc reduced blocks b : forall h t,
  chain reduced h t (blocks ++ [b]) =
    Rfc.F (rounds_of reduced) (chain reduced h t blocks) b (t + 64 * Z.of_nat (length blocks) + 64) false.
Proof.
  induction blocks as [|c blocks IH]; intros h t; cbn [app chain length].
  - f_equal. lia.
  - rewrite IH. f_equal. lia.
Qed.

Lemma hash_from_chain reduced blocks final len : forall h t,
  Rfc.hash_from (rounds_of reduced) h t blocks final len =
    Rfc.F (rounds_of reduced) (chain reduced h t blocks) final (t + 64 * Z.of_nat (length blocks) + 4 * len) true.
Proof.
  induction blocks as [|c blocks IH]; intros h t; cbn [Rfc.hash_from chain length].
  - f_equal. lia.
  - rewrite IH. f_equal. lia.
Qed.

Lemma blocks_of_snoc n : forall ws, blocks_of (S n) ws = blocks_of n ws ++ [take 16 (drop (16 * n) ws)].
Proof.
  induction n as [|n IH]; intros ws; [reflexivity|].
  change (blocks_of (S (S n)) ws) with (take 16 ws :: blocks_of (S n) (drop 16 ws)).
  rewrite IH. cbn [blocks_of app]. rewrite drop_drop. repeat f_equal. lia.
Qed.

Lemma length_blocks_of n : forall ws, length (blocks_of n ws) = n.
Proof. induction n as [|n IH]; intros ws; cbn; [reflexivity | now rewrite IH]. Qed.

Lemma blocks_of_app n ws more : (16 * n <= length ws)%nat -> blocks_of n (ws ++ more) = blocks_of n ws.
Proof.
  revert ws. induction n as [|n IH]; intros ws Hl; cbn [blocks_of]; [reflexivity|].
  rewrite take_app_le, drop_app_le by lia. f_equal. apply IH. rewrite length_drop. lia.
Qed.

Definition chained (reduced : bool) (n : nat) (ws : list Z) : list Z :=
  chain reduced CONFIGURED_IV 0 (blocks_of n ws).

Lemma words_hash_chained reduced ws :
  let n := leading_blocks ws in
  words_hash reduced ws =
    Rfc.F (rounds_of reduced) (chained reduced n ws) (pad16 (drop (16 * n) ws)) (4 * Z.of_nat (length ws)) true.
Proof.
  intros n. subst n. unfold words_hash, Rfc.hash, chained. rewrite hash_from_chain, length_blocks_of, length_drop.
  set (n := leading_blocks ws). assert ((16 * n <= length ws)%nat).
  { subst n. unfold leading_blocks. pose proof (Nat.mul_div_le (length ws - 1) 16). lia. }
  assert (Et : 0 + 64 * Z.of_nat n + 4 * Z.of_nat (length ws - 16 * n) = 4 * Z.of_nat (length ws)) by lia.
  rewrite Et. reflexivity.
Qed.

Lemma block_step_is_F reduced st t last block :
  length st = 8%nat -> 0 <= t < 2 ^ 32 ->
  block_step reduced st t last block = Rfc.F (rounds_of reduced) st block t last.
Proof. intros Hl Ht. rewrite F_spec by auto. destruct last; reflexivity. Qed.

(** ** Digests are words *)

#[local] Transparent mixing_function.
Lemma word_u32 v i : Forall is_u32 v -> is_u32 (get v i).
Proof. intros Hv. apply (Prelude.Forall_nth_default is_u32 v i 0); [exact Hv | unfold is_u32; lia]. Qed.

Lemma store_u32 v i e (k : list Z -> list Z) :
  Forall is_u32 v -> is_u32 e -> (forall w, Forall is_u32 w -> Forall is_u32 (k w)) ->
  Forall is_u32 (k (<[i := e]> v)).
Proof. intros Hv He Hk. apply Hk, Forall_insert_list; assumption. Qed.

Lemma g_function_u32 v a b c d x y : Forall is_u32 v -> Forall is_u32 (g_function v a b c d x y).
Proof.
  assert (Hr : forall w i j k, Forall is_u32 w -> is_u32 (rotr32 (Z.lxor (get w i) (get w j)) k))
    by (intros; apply rotr32_range, lxor_u32; apply word_u32; assumption).
  intros Hv. cbv beta delta [g_function].
  do 8 (lazymatch goal with |- Forall is_u32 (let w := <[?i := ?e]> ?u in @?k w) =>
          refine (store_u32 u i e k _ _ _); [assumption | first [apply wadd_range | apply Hr; assumption] |
            clear dependent u; intros u ?; cbv beta] end).
  assumption.
Qed.

Lemma mixing_function_u32 v m s : Forall is_u32 v -> Forall is_u32 (mixing_function v m s).
Proof. intros Hv. unfold mixing_function. do 8 apply g_function_u32. exact Hv. Qed.
#[local] Opaque mixing_function.

Lemma rounds_u32 n v m : Forall is_u32 v -> Forall is_u32 (rounds n v m).
Proof.
  unfold rounds. generalize (take n SIGMAS). intros l. revert v.
  induction l as [|s l IH]; intros v Hv; [exact Hv|]. rewrite fold_left_step.
  apply IH, mixing_function_u32, Hv.
Qed.

Lemma xor_halves_u32 h e : Forall is_u32 h -> Forall is_u32 e -> Forall is_u32 (xor_halves h e).
Proof.
  intros Hh He. unfold xor_halves. apply Forall_map, Forall_true. intros i.
  apply lxor_u32; [apply lxor_u32|]; apply word_u32; assumption.
Qed.

Lemma IV_u32 : Forall is_u32 IV.
Proof. unfold IV, is_u32. repeat (apply Forall_cons; split; [lia|]). constructor. Qed.

Lemma CONFIGURED_IV_u32 : Forall is_u32 CONFIGURED_IV.
Proof. apply Forall_insert_list; [apply IV_u32 | vm_compute; split; congruence]. Qed.

Lemma block_step_u32 reduced st t last block :
  Forall is_u32 st -> is_u32 t -> Forall is_u32 (block_step reduced st t last block).
Proof.
  intros Hs Ht. unfold block_step. apply xor_halves_u32; [exact Hs|].
  rewrite round_function_rounds. apply rounds_u32. unfold Baseline.extend.
  pose proof IV_u32 as Hiv. assert (is_u32 (wmul 0xffffffff (b2z last))) by apply wmul_range.
  repeat (apply Forall_cons; split); try (apply lxor_u32); try apply word_u32; auto.
Qed.

Lemma chain_u32 reduced blocks : forall h t, length h = 8%nat -> Forall is_u32 h -> 0 <= t ->
  t + 64 * Z.of_nat (length blocks) < 2 ^ 32 ->
  length (chain reduced h t blocks) = 8%nat /\ Forall is_u32 (chain reduced h t blocks).
Proof.
  induction blocks as [|b blocks IH]; intros h t Hl Hh Ht Hb; cbn [chain length] in *; [auto|].
  rewrite <- block_step_is_F by (try assumption; lia).
  apply IH; [reflexivity | apply block_step_u32; [exact Hh | unfold is_u32; lia] | lia | lia].
Qed.

Lemma words_hash_u32 reduced ws : 4 * Z.of_nat (length ws) < 2 ^ 32 -> Forall is_u32 (words_hash reduced ws).
Proof.
  intros Hs. rewrite words_hash_chained. unfold chained. set (n := leading_blocks ws).
  assert ((16 * n <= length ws)%nat).
  { subst n. unfold leading_blocks. pose proof (Nat.mul_div_le (length ws - 1) 16). lia. }
  destruct (chain_u32 reduced (blocks_of n ws) CONFIGURED_IV 0 eq_refl CONFIGURED_IV_u32) as [Hl Hc];
    [lia | rewrite length_blocks_of; lia |].
  rewrite <- block_step_is_F by (try assumption; lia). apply block_step_u32; [exact Hc | unfold is_u32; lia].
Qed.

(** ** Writing into the input buffer

    [spec_memcopy_u32_nonoverlapping] and [spec_memzero_u32] with a
    destination inside [hasher.input_buffer]; leaving the buffer is undefined
    behaviour. *)
Section Buffer.
Context {H : Type} `{Blake2sHasher H}.

Definition spec_memcopy_u32_nonoverlapping (src : list Z) (dst : nat) : hprog H unit :=
  fun h => if (dst + length src <=? length (h_input_buffer h))%nat
           then Ok tt (h_set_input_buffer (take dst (h_input_buffer h) ++ src ++
                                           drop (dst + length src) (h_input_buffer h)) h)
           else Panic UB.

Definition spec_memzero_u32 (dst : nat) : hprog H unit :=
  fun h => Ok tt (h_set_input_buffer (take dst (h_input_buffer h) ++
                                      replicate (length (h_input_buffer h) - dst) 0) h).
End Buffer.

(** ** Hashing a stream *)
Section Streaming.
Context {H : Type} `{LawfulHasher H} (reduced : bool).

(** The hasher has consumed the words [ws], of which the last [offset] are
    still in the buffer. *)
Definition consumed (h : H) (offset : nat) (ws : list Z) : Prop :=
  h_wf h /\ (offset <= 16)%nat /\
  exists n, length ws = (16 * n + offset)%nat /\ h_state h = chained reduced n ws /\
            h_t h = 64 * Z.of_nat n /\ take offset (h_input_buffer h) = drop (16 * n) ws.

Lemma consumed_wf h off ws : consumed h off ws -> h_wf h.
Proof. intros [Hw _]. exact Hw. Qed.

Lemma consumed_start h : h_wf h -> h_state h = CONFIGURED_IV -> h_t h = 0 -> consumed h 0 [].
Proof. intros Hw Hs Ht. split; [exact Hw|]. split; [lia|]. exists 0%nat. rewrite Hs, Ht. auto. Qed.

Lemma consumed_copy h off ws src : consumed h off ws -> (off + length src <= 16)%nat -> exists h',
  spec_memcopy_u32_nonoverlapping src off h = Ok tt h' /\ consumed h' (off + length src) (ws ++ src).
Proof.
  intros (Hw & Hoff & n & Hl & Hs & Ht & Hb) Hsrc. unfold spec_memcopy_u32_nonoverlapping.
  pose proof (h_wf_buffer h Hw) as Hbuf. rewrite Hbuf.
  replace (off + length src <=? 16)%nat with true by (symmetry; apply Nat.leb_le; lia).
  eexists. split; [reflexivity|].
  match goal with |- consumed (h_set_input_buffer ?b h) _ _ =>
    destruct (h_set_ok h b Hw) as (Hw' & Eb & Es & Et) end.
  { rewrite !length_app, length_take, length_drop. lia. }
  split; [exact Hw'|]. split; [lia|]. exists n. rewrite Eb, Es, Et, Hs, Ht.
  split; [rewrite length_app; lia|]. split; [unfold chained; rewrite blocks_of_app by lia; reflexivity|].
  split; [reflexivity|]. rewrite drop_app_le by lia. rewrite <- Hb.
  rewrite app_assoc. rewrite take_app_le; [|rewrite length_app, length_take; lia].
  apply take_ge. rewrite length_app, length_take. lia.
Qed.

Lemma consumed_zero h off ws : consumed h off ws -> exists h',
  spec_memzero_u32 off h = Ok tt h' /\ consumed h' off ws /\
  drop off (h_input_buffer h') = replicate (16 - off) 0.
Proof.
  intros (Hw & Hoff & n & Hl & Hs & Ht & Hb). unfold spec_memzero_u32.
  rewrite (h_wf_buffer h Hw). eexists. split; [reflexivity|].
  assert (Htk : length (take off (h_input_buffer h)) = off)
    by (rewrite length_take, (h_wf_buffer h Hw); lia).
  match goal with |- consumed (h_set_input_buffer ?b h) _ _ /\ _ =>
    destruct (h_set_ok h b Hw) as (Hw' & Eb & Es & Et) end.
  { rewrite length_app, length_replicate. lia. }
  rewrite Eb. split.
  - split; [exact Hw'|]. split; [exact Hoff|]. exists n. rewrite Eb, Es, Et, Hs, Ht.
    split; [exact Hl|]. split; [reflexivity|]. split; [reflexivity|].
    rewrite take_app_le by lia. rewrite take_take, Nat.min_id. exact Hb.
  - rewrite drop_app_ge by lia. rewrite Htk, Nat.sub_diag. reflexivity.
Qed.

Lemma consumed_round h ws : consumed h 16 ws -> 4 * Z.of_nat (length ws) < 2 ^ 32 -> exists h',
  h_run_round_function reduced 16 false h = Ok tt h' /\ consumed h' 0 ws.
Proof.
  intros (Hw & _ & n & Hl & Hs & Ht & Hb) Hsize.
  destruct (h_run_ok h reduced 16 false Hw) as (h' & Hr & Hw' & Eb & Et & Es).
  exists h'. split; [exact Hr|]. split; [exact Hw'|]. split; [lia|]. exists (S n).
  rewrite Ht in Et. unfold wadd in Et. rewrite (u32_small (16 * 4)), u32_small in Et by (unfold is_u32; lia).
  rewrite Es, Et, Hs. split; [lia|]. split; [|split; [lia | rewrite drop_ge by lia; reflexivity]].
  rewrite block_step_is_F; [|rewrite <- Hs; apply h_wf_state; exact Hw | lia].
  unfold chained. rewrite blocks_of_snoc, chain_snoc, length_blocks_of, <- Hb, take_take, Nat.min_id.
  rewrite take_ge by (rewrite (h_wf_buffer h Hw); lia). f_equal; lia.
Qed.

Lemma consumed_final h off ws : consumed h off ws -> (off = 0%nat -> ws = []) ->
  drop off (h_input_buffer h) = replicate (16 - off) 0 -> 4 * Z.of_nat (length ws) < 2 ^ 32 -> exists h',
  h_run_round_function reduced (Z.of_nat off) true h = Ok tt h' /\ h_wf h' /\
  h_state h' = words_hash reduced ws.
Proof.
  intros (Hw & Hoff & n & Hl & Hs & Ht & Hb) Hemp Hz Hsize.
  destruct (h_run_ok h reduced (Z.of_nat off) true Hw) as (h' & Hr & Hw' & Eb & Et & Es).
  exists h'. split; [exact Hr|]. split; [exact Hw'|].
  assert (Hn : leading_blocks ws = n).
  { unfold leading_blocks. destruct off as [|off].
    - rewrite (Hemp eq_refl) in *. cbn [length] in *. replace n with 0%nat by lia. reflexivity.
    - symmetry. apply (Nat.div_unique _ _ _ off); lia. }
  rewrite words_hash_chained, Hn, Es, <- Hs.
  rewrite Ht in Et. unfold wadd in Et.
  rewrite (u32_small (Z.of_nat off * 4)), u32_small in Et by (unfold is_u32; lia).
  rewrite Et, block_step_is_F; [|apply h_wf_state; exact Hw | lia].
  rewrite Hl. f_equal; [|lia]. unfold pad16. rewrite length_drop, <- Hb.
  replace (16 - (length ws - 16 * n))%nat with (16 - off)%nat by lia.
  rewrite <- Hz. symmetry. apply take_drop.
Qed.

End Streaming.
