(* ===== verification/Transcript.v ===== *)
(** * The Fiat-Shamir transcript

    [transcript/src/lib.rs] and [transcript/src/pow.rs]: committing to words
    with and without a seed, drawing randomness, the proof of work and its
    search, and the buffering transcript.  Everything is written against the
    hasher interface, so that the theorems cover the host builds and the
    RISC-V guest at once: prover and verifier derive the same challenges.

    A [hasher] argument is the state of the [hprog]; where the code makes a
    local hasher, the state is the stack slot it is built in.  Both builds have
    [SUPPORT_SPEC_SINGLE_ROUND = false], so only that branch is live. *)
From stdpp Require Import base list strings.
From Stdlib Require Import ZArith Lia.
From S2P Require Import Prelude MachineInt Blake2s Hasher.

#[local] Opaque mixing_function Rfc.round.

Definition USE_REDUCED_BLAKE2_ROUNDS : bool := true.

(** [Seed([u32; 8])] *)
Definition Seed : Type := list Z.

Section Transcript.
Context {H : Type} `{Blake2sHasher H}.

(** The loop of [commit_inner]: [input] is what [input_ptr] and [remaining] still cover. *)
Fixpoint commit_rounds (num_rounds : nat) (input : list Z) (buffer_offset : nat) : hprog H nat :=
  match num_rounds with
  | O => ret buffer_offset
  | S num_rounds' =>
      let words_to_use := Nat.min (length input) (BLAKE2S_BLOCK_SIZE_U32_WORDS - buffer_offset) in
      spec_memcopy_u32_nonoverlapping (take words_to_use input) buffer_offset ;;!
      let remaining := drop words_to_use input in
      let buffer_offset := (buffer_offset + words_to_use)%nat in
      spec_memzero_u32 buffer_offset ;;!
      if (0 <? length remaining)%nat then
        h_run_round_function USE_REDUCED_BLAKE2_ROUNDS (Z.of_nat BLAKE2S_BLOCK_SIZE_U32_WORDS) false ;;!
        commit_rounds num_rounds' remaining 0
      else commit_rounds num_rounds' remaining buffer_offset
  end.

Definition commit_inner (input : list Z) (offset : nat) : hprog H nat :=
  let effective_input_len := (offset + length input)%nat in
  let num_rounds := (effective_input_len / BLAKE2S_BLOCK_SIZE_U32_WORDS)%nat in
  let num_rounds :=
    if (0 <? effective_input_len mod BLAKE2S_BLOCK_SIZE_U32_WORDS)%nat then S num_rounds else num_rounds in
  commit_rounds num_rounds input offset.

Definition flush (offset : nat) : hprog H unit :=
  h_run_round_function USE_REDUCED_BLAKE2_ROUNDS (Z.of_nat offset) true.

Definition commit_initial (input : list Z) : hprog H Seed :=
  modify h_new ;;!
  let! offset := commit_inner input 0 in
  flush offset ;;!
  gets h_state.

Definition commit_with_seed (seed : Seed) (input : list Z) : hprog H Seed :=
  modify h_new ;;!
  let! offset := commit_inner seed 0 in
  let! offset := commit_inner input offset in
  flush offset ;;!
  gets h_state.

Definition commit_initial_using_hasher (input : list Z) : hprog H Seed :=
  modify h_reset ;;!
  let! offset := commit_inner input 0 in
  flush offset ;;!
  gets h_state.

Definition commit_with_seed_using_hasher (seed : Seed) (input : list Z) : hprog H Seed :=
  modify h_reset ;;!
  let! offset := commit_inner seed 0 in
  let! offset := commit_inner input offset in
  flush offset ;;!
  gets h_state.

(** ** Randomness *)

Definition draw_randomness_inner (seed : Seed) : hprog H Seed :=
  modify h_reset ;;!
  spec_memcopy_u32_nonoverlapping seed 0 ;;!
  spec_memzero_u32 BLAKE2S_DIGEST_SIZE_U32_WORDS ;;!
  h_run_round_function USE_REDUCED_BLAKE2_ROUNDS (Z.of_nat BLAKE2S_DIGEST_SIZE_U32_WORDS) true ;;!
  gets h_state.

(** Copy a seed to [dst_ptr]; past the end of [dst] this is undefined behaviour. *)
Definition write_seed (seed : Seed) (dst_ptr : nat) (dst : list Z) : hprog H (list Z) :=
  if (dst_ptr + length seed <=? length dst)%nat
  then ret (take dst_ptr dst ++ seed ++ drop (dst_ptr + length seed) dst)
  else panic UB.

Fixpoint draw_rounds (n : nat) (dst_ptr : nat) (seed : Seed) (dst : list Z) : hprog H (Seed * list Z) :=
  match n with
  | O => ret (seed, dst)
  | S n' =>
      let! seed := draw_randomness_inner seed in
      let! dst := write_seed seed dst_ptr dst in
      draw_rounds n' (dst_ptr + BLAKE2S_DIGEST_SIZE_U32_WORDS) seed dst
  end.

(** [for _ in 1..(num_rounds as u32)] *)
Definition draw_randomness_using_hasher (seed : Seed) (dst : list Z) : hprog H (Seed * list Z) :=
  let num_rounds := (length dst / BLAKE2S_DIGEST_SIZE_U32_WORDS)%nat in
  let! dst := write_seed seed 0 dst in
  draw_rounds (Z.to_nat (u32 (Z.of_nat num_rounds)) - 1) BLAKE2S_DIGEST_SIZE_U32_WORDS seed dst.

Definition draw_randomness (seed : Seed) (dst : list Z) : hprog H (Seed * list Z) :=
  modify h_new ;;! draw_randomness_using_hasher seed dst.

(** ** Proof of work *)

(** [hasher.input_buffer[i] = w] *)
Definition store_input (i : nat) (w : Z) : hprog H unit :=
  fun h => if (i <? length (h_input_buffer h))%nat
           then Ok tt (h_set_input_buffer (<[i := w]> (h_input_buffer h)) h)
           else Panic "index out of bounds".

(** [0xffffffff >> pow_bits]: without overflow checks the shift amount is
    taken modulo the width. *)
Definition pow_threshold (pow_bits : Z) : Z := Z.shiftr 0xffffffff (pow_bits mod 32).

Definition verify_pow_using_hasher (seed : Seed) (nonce pow_bits : Z) : hprog H Seed :=
  assert_or_panic (pow_bits <=? 32) "pow_bits <= 32" ;;!
  modify h_reset ;;!
  spec_memcopy_u32_nonoverlapping seed 0 ;;!
  store_input 8 (u32 nonce) ;;!
  store_input 9 (u32 (Z.shiftr nonce 32)) ;;!
  spec_memzero_u32 (BLAKE2S_DIGEST_SIZE_U32_WORDS + 2) ;;!
  h_run_round_function USE_REDUCED_BLAKE2_ROUNDS (Z.of_nat (BLAKE2S_DIGEST_SIZE_U32_WORDS + 2)) true ;;!
  let! state := gets h_state in
  assert_or_panic (get state 0 <=? pow_threshold pow_bits) "we expect pow_bits bits of PoW using nonce" ;;!
  gets h_state.

Definition verify_pow (seed : Seed) (nonce pow_bits : Z) : hprog H Seed :=
  modify h_new ;;! verify_pow_using_hasher seed nonce pow_bits.
End Transcript.

(** ** pow.rs *)

Definition BLAKE2S_NO_RESULT : Z := 2 ^ 64 - 1.
Definition BLAKE2S_ROUNDS_PER_INVOCAITON : Z := 2 ^ 16.

(** [initial_state] *)
Definition pow_initial_state : list Z :=
  Baseline.extend CONFIGURED_IV (Z.lxor (get IV 4) ((8 + 2) * 4)) (Z.lxor (get IV 6) 0xffffffff).

Definition pow_input (seed : Seed) (challenge : Z) : list Z :=
  seed ++ [u32 challenge; u32 (Z.shiftr challenge 32)] ++ replicate 6 0.

(** One turn of the serial loop: [Some output] is the early [return]. *)
Definition try_challenge (seed : Seed) (pow_bits challenge : Z) : option Seed :=
  let state := round_function_reduced_rounds pow_initial_state (pow_input seed challenge) in
  let word_to_test := Z.lxor (Z.lxor (get CONFIGURED_IV 0) (get state 0)) (get state 8) in
  if word_to_test <=? pow_threshold pow_bits then Some (xor_halves CONFIGURED_IV state) else None.

(** [n] turns of the loop from [challenge] on; the recursion halves [n] so that
    the 64-bit range of the source is a usable argument. *)
Fixpoint serial_search (seed : Seed) (pow_bits : Z) (n : positive) (challenge : Z) : option (Seed * Z) :=
  match n with
  | xH => option_map (fun output => (output, challenge)) (try_challenge seed pow_bits challenge)
  | xO p =>
      match serial_search seed pow_bits p challenge with
      | Some r => Some r
      | None => serial_search seed pow_bits p (challenge + Zpos p)
      end
  | xI p =>
      match try_challenge seed pow_bits challenge with
      | Some output => Some (output, challenge)
      | None =>
          match serial_search seed pow_bits p (challenge + 1) with
          | Some r => Some r
          | None => serial_search seed pow_bits p (challenge + 1 + Zpos p)
          end
      end
  end.

(** [search_pow]; [result] is what the shared atomic holds when the workers of
    the parallel search have finished. *)
Definition search_pow {H} `{Blake2sHasher H} (seed : Seed) (pow_bits : Z) (result : Z)
    : hprog H (Seed * Z) :=
  assert_or_panic (pow_bits <=? 32) "pow_bits <= 32" ;;!
  match (if pow_bits <=? trailing_zeros BLAKE2S_ROUNDS_PER_INVOCAITON
         then serial_search seed pow_bits (Z.to_pos (BLAKE2S_NO_RESULT - 1)) 0 else None) with
  | Some r => ret r
  | None =>
      let! new_seed := verify_pow seed result pow_bits in
      ret (new_seed, result)
  end.

(** ** Blake2sBufferingTranscript *)
Module Buffering.
Record Blake2sBufferingTranscript (H : Type) : Type := { state : H; buffer_offset : nat }.
Arguments state {H} _.
Arguments buffer_offset {H} _.

Section Buffering.
Context {H : Type} `{Blake2sHasher H}.
Notation T := (Blake2sBufferingTranscript H).

Definition new (slot : H) : T := {| state := h_new slot; buffer_offset := 0 |}.

Definition on_state {A} (m : hprog H A) : comp Empty_set T A :=
  zoom state (fun h s => {| state := h; buffer_offset := buffer_offset s |}) m.
Definition set_offset (n : nat) (s : T) : T := {| state := state s; buffer_offset := n |}.

Definition run_absorb : comp Empty_set T unit :=
  on_state (h_run_round_function USE_REDUCED_BLAKE2_ROUNDS (Z.of_nat BLAKE2S_BLOCK_SIZE_U32_WORDS) false) ;;!
  modify (set_offset 0).

(** [while to_absorb > 0]; a turn consumes a word unless the buffer starts full,
    so one turn more than there are words is enough. *)
Fixpoint absorb_loop (fuel : nat) (values : list Z) : comp Empty_set T unit :=
  match values, fuel with
  | [], _ => ret tt
  | _, O => panic "out of fuel"
  | _, S fuel' =>
      let! offset := gets buffer_offset in
      let absorb_this_round := Nat.min (length values) (BLAKE2S_BLOCK_SIZE_U32_WORDS - offset) in
      on_state (spec_memcopy_u32_nonoverlapping (take absorb_this_round values) offset) ;;!
      modify (set_offset (offset + absorb_this_round)) ;;!
      let rest := drop absorb_this_round values in
      (if (0 <? length rest)%nat then run_absorb else ret tt) ;;!
      absorb_loop fuel' rest
  end.

Definition absorb (values : list Z) : comp Empty_set T unit := absorb_loop (S (length values)) values.

Definition pad : comp Empty_set T unit :=
  let! offset := gets buffer_offset in
  on_state (spec_memzero_u32 offset) ;;!
  modify (set_offset BLAKE2S_BLOCK_SIZE_U32_WORDS).

Definition finalize : comp Empty_set T Seed :=
  let! offset := gets buffer_offset in
  on_state (spec_memzero_u32 offset) ;;!
  on_state (h_run_round_function USE_REDUCED_BLAKE2_ROUNDS (Z.of_nat offset) true) ;;!
  gets (fun s => h_state (state s)).

Definition finalize_reset : comp Empty_set T Seed :=
  let! offset := gets buffer_offset in
  on_state (spec_memzero_u32 offset) ;;!
  on_state (h_run_round_function USE_REDUCED_BLAKE2_ROUNDS (Z.of_nat offset) true) ;;!
  let! seed := gets (fun s => h_state (state s)) in
  on_state (modify h_reset) ;;!
  modify (set_offset 0) ;;!
  ret seed.
End Buffering.
End Buffering.

(** ** Committing hashes the words in order *)

Section CommitProofs.
Context {H : Type} `{LawfulHasher H}.
Notation fed := (consumed USE_REDUCED_BLAKE2_ROUNDS).
Notation fits ws := (4 * Z.of_nat (length ws) < 2 ^ 32).

Definition zero_filled (h : H) (off : nat) : Prop := drop off (h_input_buffer h) = replicate (16 - off) 0.

Lemma commit_rounds_ok num_rounds : forall input off (h : H) ws,
  fed h off ws -> fits (ws ++ input) ->
  (off + length input <= 16 * num_rounds < off + length input + 16)%nat ->
  exists h' off', commit_rounds num_rounds input off h = Ok off' h' /\ fed h' off' (ws ++ input) /\
    ((0 < num_rounds)%nat -> zero_filled h' off' /\ (0 < off')%nat).
Proof.
  induction num_rounds as [|n IH]; intros input off h ws Hf Hsize Hn.
  - exists h, off. destruct input; [|cbn [length] in Hn; lia]. rewrite app_nil_r. split; [reflexivity|].
    split; [exact Hf | lia].
  - cbn [commit_rounds]. change BLAKE2S_BLOCK_SIZE_U32_WORDS with 16%nat.
    set (w := Nat.min (length input) (16 - off)).
    assert (Hoff : (off <= 16)%nat) by apply Hf.
    assert (Hw : length (take w input) = w) by (rewrite length_take; lia).
    destruct (consumed_copy USE_REDUCED_BLAKE2_ROUNDS h off ws (take w input) Hf) as (h1 & E1 & Hf1); [lia|].
    rewrite (bind_step _ _ _ _ _ E1). rewrite Hw in Hf1.
    destruct (consumed_zero _ h1 _ _ Hf1) as (h2 & E2 & Hf2 & Hz). rewrite (bind_step _ _ _ _ _ E2).
    assert (Hr : length (drop w input) = (length input - w)%nat) by apply length_drop.
    assert (Hsplit : (ws ++ take w input) ++ drop w input = ws ++ input)
      by (rewrite <- app_assoc, take_drop; reflexivity).
    destruct (Nat.ltb_spec 0 (length (drop w input))) as [Hrest|Hrest].
    + assert (Hfull : (off + w = 16)%nat) by lia. rewrite Hfull in Hf2.
      destruct (consumed_round _ h2 _ Hf2) as (h3 & E3 & Hf3).
      { rewrite !length_app in *. lia. }
      change (Z.of_nat 16) with 16. rewrite (bind_step _ _ _ _ _ E3).
      destruct (IH (drop w input) 0%nat h3 _ Hf3) as (h' & off' & E & Hf' & Hpos).
      { rewrite Hsplit. exact Hsize. } { lia. }
      exists h', off'. rewrite E, <- Hsplit. split; [reflexivity|]. split; [exact Hf'|].
      intros _. apply Hpos. lia.
    + destruct n as [|n]; [|lia]. exists h2, (off + w)%nat. split; [reflexivity|].
      assert (Hd : drop w input = []) by (destruct (drop w input); [reflexivity | cbn in Hrest; lia]).
      rewrite <- Hsplit, Hd, app_nil_r. split; [exact Hf2|]. intros _. split; [exact Hz | lia].
Qed.

Lemma commit_inner_ok input off (h : H) ws :
  fed h off ws -> fits (ws ++ input) -> input <> [] -> exists h' off',
  commit_inner input off h = Ok off' h' /\ fed h' off' (ws ++ input) /\ zero_filled h' off' /\ (0 < off')%nat.
Proof.
  intros Hf Hsize Hne. unfold commit_inner. change BLAKE2S_BLOCK_SIZE_U32_WORDS with 16%nat.
  assert (Hpos : (0 < length input)%nat) by (destruct input; cbn; [congruence | lia]).
  pose proof (Nat.div_mod_eq (off + length input) 16). pose proof (Nat.mod_upper_bound (off + length input) 16).
  match goal with |- context [commit_rounds ?k input off] => set (n := k) end.
  assert (Hn : (off + length input <= 16 * n < off + length input + 16)%nat).
  { subst n. destruct (Nat.ltb_spec 0 ((off + length input) mod 16)); lia. }
  destruct (commit_rounds_ok n input off h ws Hf Hsize Hn) as (h' & off' & E & Hf' & Hz).
  exists h', off'. split; [exact E|]. split; [exact Hf'|]. apply Hz. lia.
Qed.

Lemma flush_ok (h : H) off ws : fed h off ws -> fits ws -> zero_filled h off -> (0 < off)%nat ->
  exists h', flush off h = Ok tt h' /\ h_wf h' /\ h_state h' = words_hash USE_REDUCED_BLAKE2_ROUNDS ws.
Proof. intros Hf Hs Hz Hoff. apply consumed_final; auto. lia. Qed.

Lemma fresh_fed (h : H) : h_wf h -> fed (h_new h) 0 [].
Proof. intros Hw. destruct (h_new_ok h Hw) as (? & ? & ?). apply consumed_start; auto. Qed.

Lemma reset_fed (h : H) : h_wf h -> fed (h_reset h) 0 [].
Proof. intros Hw. destruct (h_reset_ok h Hw) as (? & ? & ? & ?). apply consumed_start; auto. Qed.

(** Committing from any hasher that has consumed nothing. *)
Lemma commit_from input (h : H) : fed h 0 [] -> fits input -> input <> [] -> exists h',
  (let! offset := commit_inner input 0 in flush offset ;;! gets h_state) h =
    Ok (words_hash USE_REDUCED_BLAKE2_ROUNDS input) h' /\ h_wf h'.
Proof.
  intros Hf Hs Hne. destruct (commit_inner_ok input 0 h [] Hf Hs Hne) as (h1 & off & E1 & Hf1 & Hz & Hoff).
  rewrite (bind_step _ _ _ _ _ E1). destruct (flush_ok h1 off _ Hf1 Hs Hz Hoff) as (h2 & E2 & Hw2 & Es).
  rewrite (bind_step _ _ _ _ _ E2). exists h2. unfold gets. rewrite Es. auto.
Qed.

Lemma commit_seed_from seed input (h : H) :
  fed h 0 [] -> fits (seed ++ input) -> seed <> [] -> input <> [] -> exists h',
  (let! offset := commit_inner seed 0 in
   let! offset := commit_inner input offset in flush offset ;;! gets h_state) h =
    Ok (words_hash USE_REDUCED_BLAKE2_ROUNDS (seed ++ input)) h' /\ h_wf h'.
Proof.
  intros Hf Hs Hne1 Hne2.
  destruct (commit_inner_ok seed 0 h [] Hf) as (h1 & off1 & E1 & Hf1 & _); [rewrite length_app in Hs; cbn [app]; lia | exact Hne1|].
  rewrite (bind_step _ _ _ _ _ E1).
  destruct (commit_inner_ok input off1 h1 _ Hf1 Hs Hne2) as (h2 & off & E2 & Hf2 & Hz & Hoff).
  rewrite (bind_step _ _ _ _ _ E2). destruct (flush_ok h2 off _ Hf2 Hs Hz Hoff) as (h3 & E3 & Hw3 & Es).
  rewrite (bind_step _ _ _ _ _ E3). exists h3. unfold gets. rewrite Es. auto.
Qed.
End CommitProofs.

(** Committing - with a fresh or a reused hasher, on a host or in a guest -
    yields the reduced-round BLAKE2s hash of the committed words, the seed
    first when there is one. *)
Theorem transcript_commit_correct {H} `{LawfulHasher H} (slot : H) (seed : Seed) (input : list Z) :
  h_wf slot -> length seed = 8%nat -> input <> [] -> 4 * Z.of_nat (8 + length input) < 2 ^ 32 ->
  (exists h, commit_initial input slot = Ok (words_hash true input) h) /\
  (exists h, commit_initial_using_hasher input slot = Ok (words_hash true input) h) /\
  (exists h, commit_with_seed seed input slot = Ok (words_hash true (seed ++ input)) h) /\
  (exists h, commit_with_seed_using_hasher seed input slot = Ok (words_hash true (seed ++ input)) h).
Proof.
  intros Hw Hseed Hne Hsize.
  assert (Hs1 : 4 * Z.of_nat (length input) < 2 ^ 32) by lia.
  assert (Hs2 : 4 * Z.of_nat (length (seed ++ input)) < 2 ^ 32) by (rewrite length_app; lia).
  assert (Hseed' : seed <> []) by (intros ->; discriminate).
  destruct (commit_from input _ (fresh_fed slot Hw) Hs1 Hne) as (h1 & E1 & _).
  destruct (commit_from input _ (reset_fed slot Hw) Hs1 Hne) as (h2 & E2 & _).
  destruct (commit_seed_from seed input _ (fresh_fed slot Hw) Hs2 Hseed' Hne) as (h3 & E3 & _).
  destruct (commit_seed_from seed input _ (reset_fed slot Hw) Hs2 Hseed' Hne) as (h4 & E4 & _).
  split_and!; eexists; eassumption.
Qed.

(** A guest hasher whose memory holds arbitrary words. *)
Definition dirty_slot : GuestEvaluator :=
  {| Evaluator.state := rangeZ 5 8; Evaluator.extended_state := rangeZ 77 16;
     Evaluator.input_buffer := rangeZ 123 16; Evaluator.t := 99 |}.

Lemma dirty_slot_wf : h_wf dirty_slot.
Proof. repeat split; reflexivity. Qed.

Lemma transcript_commit_correct_witness :
  exists h, commit_with_seed (rangeZ 1 8) (rangeZ 100 30) dirty_slot =
    Ok (words_hash true (rangeZ 1 8 ++ rangeZ 100 30)) h.
Proof.
  refine (proj1 (proj2 (proj2 (transcript_commit_correct dirty_slot (rangeZ 1 8) (rangeZ 100 30)
    dirty_slot_wf eq_refl _ _)))).
  - discriminate.
  - reflexivity.
Defined.

(** ** Drawing *)

(** The words drawn from a seed: the seed itself, then iterated hashes. *)
Fixpoint draws (n : nat) (seed : Seed) : list Z :=
  match n with
  | O => []
  | S n' => seed ++ draws n' (words_hash true seed)
  end.

Fixpoint seed_after (n : nat) (seed : Seed) : Seed :=
  match n with O => seed | S n' => seed_after n' (words_hash true seed) end.

Lemma length_words_hash reduced ws : length (words_hash reduced ws) = 8%nat.
Proof. rewrite words_hash_chained. reflexivity. Qed.

Section DrawProofs.
Context {H : Type} `{LawfulHasher H}.
Notation fed := (consumed USE_REDUCED_BLAKE2_ROUNDS).

Lemma draw_inner_ok seed (h : H) : h_wf h -> length seed = 8%nat -> exists h',
  draw_randomness_inner seed h = Ok (words_hash true seed) h' /\ h_wf h'.
Proof.
  intros Hw Hl. unfold draw_randomness_inner. change BLAKE2S_DIGEST_SIZE_U32_WORDS with 8%nat.
  rewrite (bind_step _ _ _ tt (h_reset h)) by reflexivity.
  destruct (consumed_copy USE_REDUCED_BLAKE2_ROUNDS (h_reset h) 0 [] seed (reset_fed h Hw)) as (h1 & E1 & Hf1); [lia|].
  rewrite (bind_step _ _ _ _ _ E1). rewrite Hl in Hf1. cbn [Nat.add app] in Hf1.
  destruct (consumed_zero _ h1 _ _ Hf1) as (h2 & E2 & Hf2 & Hz). rewrite (bind_step _ _ _ _ _ E2).
  destruct (consumed_final _ h2 _ _ Hf2) as (h3 & E3 & Hw3 & Es); [lia | exact Hz | rewrite Hl; lia|].
  rewrite (bind_step _ _ _ _ _ E3). exists h3. unfold gets. rewrite Es. auto.
Qed.

Lemma draw_rounds_ok n : forall ptr seed dst (h : H), h_wf h -> length seed = 8%nat ->
  length dst = (ptr + 8 * n)%nat -> exists h',
  draw_rounds n ptr seed dst h =
    Ok (seed_after n seed, take ptr dst ++ draws n (words_hash true seed)) h' /\ h_wf h'.
Proof.
  induction n as [|n IH]; intros ptr seed dst h Hw Hl Hd.
  - exists h. cbn [draw_rounds draws seed_after]. rewrite app_nil_r, take_ge by lia. auto.
  - cbn [draw_rounds]. destruct (draw_inner_ok seed h Hw Hl) as (h1 & E1 & Hw1).
    rewrite (bind_step _ _ _ _ _ E1). unfold write_seed.
    set (s' := words_hash true seed) in *. assert (Hs' : length s' = 8%nat) by apply length_words_hash.
    rewrite Hs'. replace (ptr + 8 <=? length dst)%nat with true by (symmetry; apply Nat.leb_le; lia).
    set (dst' := take ptr dst ++ s' ++ drop (ptr + 8) dst).
    rewrite (bind_step _ _ _ dst' h1) by reflexivity.
    assert (Hp : length (take ptr dst) = ptr) by (rewrite length_take; lia).
    destruct (IH (ptr + 8)%nat s' dst' h1 Hw1 Hs') as (h2 & E2 & Hw2).
    { subst dst'. rewrite !length_app, length_drop. lia. }
    change BLAKE2S_DIGEST_SIZE_U32_WORDS with 8%nat. rewrite E2. exists h2. split; [|exact Hw2].
    cbn [draws seed_after]. fold s'. do 2 f_equal. subst dst'.
    rewrite !app_assoc. rewrite take_app_le by (rewrite length_app; lia).
    f_equal. apply take_ge. rewrite length_app. lia.
Qed.
End DrawProofs.

Lemma draw_using_hasher_ok {H} `{LawfulHasher H} (h : H) (seed : Seed) (dst : list Z) (n : nat) :
  h_wf h -> length seed = 8%nat -> length dst = (8 * n)%nat -> (0 < n)%nat -> Z.of_nat n < 2 ^ 32 -> exists h',
  draw_randomness_using_hasher seed dst h = Ok (seed_after (n - 1) seed, draws n seed) h' /\ h_wf h'.
Proof.
  intros Hwh Hl Hd Hn Hn32. unfold draw_randomness_using_hasher. change BLAKE2S_DIGEST_SIZE_U32_WORDS with 8%nat.
  rewrite Hd, Nat.mul_comm, Nat.div_mul, u32_small, Nat2Z.id by (unfold is_u32; lia).
  unfold write_seed. rewrite Hl.
  replace (0 + 8 <=? length dst)%nat with true by (symmetry; apply Nat.leb_le; lia).
  set (dst' := take 0 dst ++ seed ++ drop (0 + 8) dst).
  rewrite (bind_step _ _ _ dst' h) by reflexivity.
  destruct (draw_rounds_ok (n - 1) 8 seed dst' h Hwh Hl) as (h' & E & Hw').
  { subst dst'. rewrite !length_app, length_take, length_drop. lia. }
  rewrite E. exists h'. split; [|exact Hw']. do 2 f_equal. destruct n as [|n]; [lia|]. cbn [draws Nat.sub].
  rewrite Nat.sub_0_r. subst dst'. rewrite take_0, app_nil_l, take_app_le by lia. rewrite take_ge by lia. reflexivity.
Qed.

Lemma draw_ok {H} `{LawfulHasher H} (slot : H) (seed : Seed) (dst : list Z) (n : nat) :
  h_wf slot -> length seed = 8%nat -> length dst = (8 * n)%nat -> (0 < n)%nat -> Z.of_nat n < 2 ^ 32 -> exists h',
  draw_randomness seed dst slot = Ok (seed_after (n - 1) seed, draws n seed) h' /\ h_wf h'.
Proof. intros Hw. apply (draw_using_hasher_ok (h_new slot)). apply h_new_ok. exact Hw. Qed.

(** C20: Drawing fills a buffer of [8 n] words with the seed followed by [n - 1]
    iterated hashes of it, and leaves the last of them as the seed, whatever
    the hasher held before; nothing is written outside the buffer. *)
Theorem draw_randomness_correct {H} `{LawfulHasher H} (slot : H) (seed : Seed) (dst : list Z) (n : nat) :
  h_wf slot -> length seed = 8%nat -> length dst = (8 * n)%nat -> (0 < n)%nat -> Z.of_nat n < 2 ^ 32 ->
  (exists h, draw_randomness seed dst slot = Ok (seed_after (n - 1) seed, draws n seed) h) /\
  (exists h, draw_randomness_using_hasher seed dst slot = Ok (seed_after (n - 1) seed, draws n seed) h).
Proof.
  intros Hw Hl Hd Hn Hn32. destruct (draw_ok slot seed dst n Hw Hl Hd Hn Hn32) as (h1 & E1 & _).
  destruct (draw_using_hasher_ok slot seed dst n Hw Hl Hd Hn Hn32) as (h2 & E2 & _). eauto.
Qed.

Lemma draw_randomness_correct_witness :
  exists h, draw_randomness (rangeZ 1 8) (replicate 24 0) dirty_slot =
    Ok (words_hash true (words_hash true (rangeZ 1 8)),
        rangeZ 1 8 ++ words_hash true (rangeZ 1 8) ++
        words_hash true (words_hash true (rangeZ 1 8)) ++ []) h.
Proof.
  refine (proj1 (draw_randomness_correct dirty_slot (rangeZ 1 8) (replicate 24 0) 3
    dirty_slot_wf eq_refl eq_refl _ _)).
  - lia.
  - reflexivity.
Defined.

(** ** Proof of work *)

(** The digest a nonce is judged by. *)
Definition pow_digest (seed : Seed) (nonce : Z) : Seed :=
  words_hash true (seed ++ [u32 nonce; u32 (Z.shiftr nonce 32)]).

(** The digest of a message of one block. *)
Lemma one_block_hash ws : (length ws <= 16)%nat ->
  words_hash true ws = block_step true CONFIGURED_IV (4 * Z.of_nat (length ws)) true (pad16 ws).
Proof.
  intros Hl. rewrite words_hash_chained. unfold leading_blocks.
  rewrite Nat.div_small by lia. cbn [Nat.mul drop]. unfold chained. cbn [blocks_of chain].
  rewrite block_step_is_F; [reflexivity | reflexivity | lia].
Qed.

Lemma pow_digest_u32 seed nonce : length seed = 8%nat -> is_u32 (get (pow_digest seed nonce) 0).
Proof.
  intros Hl. apply word_u32. unfold pow_digest. rewrite one_block_hash by (rewrite length_app, Hl; cbn; lia).
  apply block_step_u32; [apply CONFIGURED_IV_u32 | rewrite length_app, Hl; cbn; unfold is_u32; lia].
Qed.

Lemma try_challenge_digest seed pow_bits c : length seed = 8%nat ->
  try_challenge seed pow_bits c =
    (let d := pow_digest seed c in if get d 0 <=? pow_threshold pow_bits then Some d else None).
Proof.
  intros Hl. unfold pow_digest. rewrite one_block_hash by (rewrite length_app, Hl; cbn; lia).
  unfold try_challenge, block_step. rewrite length_app, Hl.
  replace (pad16 (seed ++ [u32 c; u32 (Z.shiftr c 32)])) with (pow_input seed c).
  2:{ unfold pad16, pow_input. rewrite length_app, Hl. cbn [length Nat.add Nat.sub]. rewrite <- app_assoc. reflexivity. }
  reflexivity.
Qed.

Section PowProofs.
Context {H : Type} `{LawfulHasher H}.
Notation fed := (consumed USE_REDUCED_BLAKE2_ROUNDS).

Lemma store_fed (h : H) off ws w : fed h off ws -> (off < 16)%nat -> exists h',
  store_input off w h = Ok tt h' /\ fed h' (off + 1) (ws ++ [w]).
Proof.
  intros Hf Hoff. destruct (consumed_copy _ h off ws [w] Hf) as (h' & E & Hf'); [cbn; lia|].
  exists h'. split; [|exact Hf']. rewrite <- E. unfold store_input, spec_memcopy_u32_nonoverlapping.
  assert (Hb : length (h_input_buffer h) = 16%nat) by (apply h_wf_buffer, Hf). rewrite Hb.
  cbn [length]. replace (off <? 16)%nat with true by (symmetry; apply Nat.ltb_lt; lia).
  replace (off + 1 <=? 16)%nat with true by (symmetry; apply Nat.leb_le; lia).
  rewrite insert_take_drop by lia. rewrite Nat.add_1_r. reflexivity.
Qed.

Lemma verify_pow_using_hasher_ok seed nonce pow_bits (h : H) : h_wf h -> length seed = 8%nat -> pow_bits <= 32 ->
  exists h', h_wf h' /\ verify_pow_using_hasher seed nonce pow_bits h =
    if get (pow_digest seed nonce) 0 <=? pow_threshold pow_bits
    then Ok (pow_digest seed nonce) h' else Panic "we expect pow_bits bits of PoW using nonce".
Proof.
  intros Hw Hl Hp. unfold verify_pow_using_hasher. replace (pow_bits <=? 32) with true by (symmetry; apply Z.leb_le; lia).
  rewrite (bind_step _ _ _ tt h) by reflexivity. rewrite (bind_step _ _ _ tt (h_reset h)) by reflexivity.
  destruct (consumed_copy _ (h_reset h) 0 [] seed (reset_fed h Hw)) as (h1 & E1 & Hf1); [lia|].
  rewrite (bind_step _ _ _ _ _ E1). rewrite Hl in Hf1. cbn [Nat.add app] in Hf1.
  destruct (store_fed h1 8 _ (u32 nonce) Hf1) as (h2 & E2 & Hf2); [lia|]. rewrite (bind_step _ _ _ _ _ E2).
  destruct (store_fed h2 9 _ (u32 (Z.shiftr nonce 32)) Hf2) as (h3 & E3 & Hf3); [lia|]. rewrite (bind_step _ _ _ _ _ E3).
  cbn [Nat.add] in Hf3. rewrite <- app_assoc in Hf3.
  destruct (consumed_zero _ h3 _ _ Hf3) as (h4 & E4 & Hf4 & Hz). rewrite (bind_step _ _ _ _ _ E4).
  destruct (consumed_final _ h4 _ _ Hf4) as (h5 & E5 & Hw5 & Es);
    [lia | exact Hz | rewrite length_app, Hl; cbn; lia|].
  exists h5. split; [exact Hw5|]. rewrite (bind_step _ _ _ _ _ E5). rewrite (bind_step _ _ _ (h_state h5) h5) by reflexivity.
  change (words_hash _ _) with (pow_digest seed nonce) in Es. rewrite Es.
  destruct (get (pow_digest seed nonce) 0 <=? pow_threshold pow_bits); [|reflexivity].
  rewrite (bind_step _ _ _ tt h5) by reflexivity. unfold gets. rewrite Es. reflexivity.
Qed.

Lemma verify_pow_ok seed nonce pow_bits (h : H) : h_wf h -> length seed = 8%nat -> pow_bits <= 32 ->
  exists h', h_wf h' /\ verify_pow seed nonce pow_bits h =
    if get (pow_digest seed nonce) 0 <=? pow_threshold pow_bits
    then Ok (pow_digest seed nonce) h' else Panic "we expect pow_bits bits of PoW using nonce".
Proof. intros Hw Hl Hp. apply (verify_pow_using_hasher_ok seed nonce pow_bits (h_new h)); auto. apply h_new_ok, Hw. Qed.
End PowProofs.

(** [r] is the outcome of trying the challenges of [lo, hi) in order. *)
Definition first_hit (seed : Seed) (pow_bits lo hi : Z) (r : option (Seed * Z)) : Prop :=
  match r with
  | Some (out, k) => lo <= k < hi /\ try_challenge seed pow_bits k = Some out /\
                     forall j, lo <= j < k -> try_challenge seed pow_bits j = None
  | None => forall j, lo <= j < hi -> try_challenge seed pow_bits j = None
  end.

Lemma first_hit_join seed pow_bits lo mid hi r1 r2 : lo <= mid <= hi ->
  first_hit seed pow_bits lo mid r1 -> first_hit seed pow_bits mid hi r2 ->
  first_hit seed pow_bits lo hi (match r1 with Some r => Some r | None => r2 end).
Proof.
  intros Hm H1 H2. destruct r1 as [[out k]|].
  - destruct H1 as (? & ? & ?). repeat split; auto; lia.
  - assert (Hj : forall j, lo <= j < hi -> (forall i, mid <= i <= j -> try_challenge seed pow_bits i = None) ->
                 try_challenge seed pow_bits j = None).
    { intros j Hj Hi. destruct (Z.lt_ge_cases j mid); [apply H1; lia | apply Hi; lia]. }
    destruct r2 as [[out k]|].
    + destruct H2 as (? & ? & Hk). repeat split; auto; try lia.
      intros j Hj'. apply Hj; [lia|]. intros i Hi. apply Hk. lia.
    + intros j Hj'. apply Hj; [lia|]. intros i Hi. apply H2. lia.
Qed.

Lemma first_hit_one seed pow_bits c :
  first_hit seed pow_bits c (c + 1) (option_map (fun out => (out, c)) (try_challenge seed pow_bits c)).
Proof.
  destruct (try_challenge seed pow_bits c) as [out|] eqn:E; cbn [option_map first_hit].
  - repeat split; auto; lia.
  - intros j Hj. replace j with c by lia. exact E.
Qed.

Lemma serial_search_spec seed pow_bits n : forall c,
  first_hit seed pow_bits c (c + Zpos n) (serial_search seed pow_bits n c).
Proof.
  induction n as [p IH | p IH |]; intros c; cbn [serial_search].
  - assert (Hjoin : first_hit seed pow_bits c (c + Zpos p~1)
      (match option_map (fun out => (out, c)) (try_challenge seed pow_bits c) with
       | Some r => Some r
       | None => match serial_search seed pow_bits p (c + 1) with
                 | Some r => Some r | None => serial_search seed pow_bits p (c + 1 + Zpos p) end end)).
    { apply (first_hit_join _ _ c (c + 1)); [lia | apply first_hit_one|].
      replace (c + Zpos p~1) with (c + 1 + Zpos p + Zpos p) by lia.
      apply (first_hit_join _ _ (c + 1) (c + 1 + Zpos p)); [lia | apply IH | apply IH]. }
    destruct (try_challenge seed pow_bits c); exact Hjoin.
  - replace (c + Zpos p~0) with (c + Zpos p + Zpos p) by lia.
    apply (first_hit_join _ _ c (c + Zpos p)); [lia | apply IH | apply IH].
  - apply first_hit_one.
Qed.

(** C21: For fewer than 32 bits, a nonce is accepted exactly when the first word
    of the hash of seed and nonce has that many leading zero bits, and that hash
    becomes the seed; a request for 32 bits passes the code's own check on
    [pow_bits] but accepts every nonce, the shift by 32 being a shift by 0. *)
Theorem verify_pow_correct {H} `{LawfulHasher H} (slot : H) (seed : Seed) (nonce pow_bits : Z) :
  h_wf slot -> length seed = 8%nat -> 0 <= pow_bits <= 32 ->
  exists h, verify_pow seed nonce pow_bits slot =
    if (pow_bits =? 32) || (get (pow_digest seed nonce) 0 <? 2 ^ (32 - pow_bits))
    then Ok (pow_digest seed nonce) h else Panic "we expect pow_bits bits of PoW using nonce".
Proof.
  intros Hw Hl Hp. destruct (verify_pow_ok seed nonce pow_bits slot Hw Hl) as (h & _ & E); [lia|].
  exists h. rewrite E. pose proof (pow_digest_u32 seed nonce Hl) as Hd. unfold is_u32 in Hd.
  set (d := get (pow_digest seed nonce) 0) in *. unfold pow_threshold.
  destruct (Z.eqb_spec pow_bits 32) as [->|Hne]; cbn [orb].
  - replace (d <=? _) with true; [reflexivity|]. symmetry. apply Z.leb_le.
    change (Z.shiftr 0xffffffff (32 mod 32)) with 0xffffffff. lia.
  - rewrite (Z.mod_small pow_bits), Z.shiftr_div_pow2 by lia.
    replace (d <=? 0xffffffff / 2 ^ pow_bits) with (d <? 2 ^ (32 - pow_bits)); [reflexivity|].
    assert (Hq : 0xffffffff / 2 ^ pow_bits = 2 ^ (32 - pow_bits) - 1).
    { assert (0 < 2 ^ pow_bits) by (apply Z.pow_pos_nonneg; lia).
      symmetry. apply (Z.div_unique _ _ _ (2 ^ pow_bits - 1)); [lia|].
      assert (2 ^ pow_bits * 2 ^ (32 - pow_bits) = 2 ^ 32)
        by (rewrite <- Z.pow_add_r by lia; f_equal; lia). lia. }
    rewrite Hq. apply Bool.eq_iff_eq_true. rewrite Z.ltb_lt, Z.leb_le. lia.
Qed.

Lemma verify_pow_correct_witness :
  (exists h, verify_pow (rangeZ 1 8) 5 32 dirty_slot = Ok (pow_digest (rangeZ 1 8) 5) h) /\
  verify_pow (rangeZ 1 8) 5 31 dirty_slot = Panic "we expect pow_bits bits of PoW using nonce".
Proof.
  split.
  - exact (verify_pow_correct dirty_slot (rangeZ 1 8) 5 32 dirty_slot_wf eq_refl ltac:(lia)).
  - destruct (verify_pow_correct dirty_slot (rangeZ 1 8) 5 31 dirty_slot_wf eq_refl ltac:(lia)) as [h E].
    rewrite E. vm_compute. reflexivity.
Defined.

(** C22: Whatever [search_pow] returns - from the serial search or the parallel
    one - passes [verify_pow] on every build with the seed it returned; up to 16
    bits it finds a nonce whenever an accepted one exists below [2^64 - 2], and
    returns the smallest. *)
Theorem search_pow_correct {H K} `{LawfulHasher H} `{LawfulHasher K} (slot : H) (other : K)
    (seed : Seed) (pow_bits result : Z) :
  h_wf slot -> h_wf other -> length seed = 8%nat ->
  (forall seed' k h, search_pow seed pow_bits result slot = Ok (seed', k) h ->
     exists h', verify_pow seed k pow_bits other = Ok seed' h') /\
  (forall j seed' h, pow_bits <= 16 -> 0 <= j < 2 ^ 64 - 2 -> verify_pow seed j pow_bits other = Ok seed' h ->
     exists k, search_pow seed pow_bits result slot = Ok (pow_digest seed k, k) slot /\ 0 <= k <= j /\
       forall i, 0 <= i < k -> get (pow_digest seed i) 0 > pow_threshold pow_bits).
Proof.
  intros Hw Hw' Hl. unfold search_pow.
  pose proof (serial_search_spec seed pow_bits (Z.to_pos (BLAKE2S_NO_RESULT - 1)) 0) as Hs.
  change (0 + Z.pos (Z.to_pos (BLAKE2S_NO_RESULT - 1))) with (2 ^ 64 - 2) in Hs.
  assert (Hver : forall k, pow_bits <= 32 -> get (pow_digest seed k) 0 <=? pow_threshold pow_bits = true ->
            exists h', verify_pow seed k pow_bits other = Ok (pow_digest seed k) h').
  { intros k Hp Hk. destruct (verify_pow_ok seed k pow_bits other Hw' Hl Hp) as (h' & _ & E).
    rewrite Hk in E. eauto. }
  assert (Htry : forall k out, try_challenge seed pow_bits k = Some out ->
            out = pow_digest seed k /\ get (pow_digest seed k) 0 <=? pow_threshold pow_bits = true).
  { intros k out. rewrite try_challenge_digest by exact Hl. cbv zeta.
    destruct (get (pow_digest seed k) 0 <=? pow_threshold pow_bits); [|discriminate]. intros [= <-]. auto. }
  split.
  - intros seed' k h E. apply bind_ok in E. destruct E as (u & h0 & E0 & E).
    apply assert_ok in E0. destruct E0 as [Hp ->]. apply Z.leb_le in Hp.
    destruct (if pow_bits <=? _ then _ else _) as [[out k0]|] eqn:Esel in E.
    + unfold ret in E. injection E as -> -> _. destruct (pow_bits <=? _); [|discriminate].
      rewrite Esel in Hs. destruct Hs as (_ & Hk & _). destruct (Htry _ _ Hk) as [-> Hle]. apply Hver; auto.
    + apply bind_ok in E. destruct E as (s1 & h1 & E1 & E). unfold ret in E. injection E as -> -> _.
      destruct (verify_pow_ok seed k pow_bits slot Hw Hl Hp) as (h' & _ & E'). rewrite E' in E1.
      destruct (get (pow_digest seed k) 0 <=? pow_threshold pow_bits) eqn:Hle; [|discriminate].
      injection E1 as <- _. apply Hver; auto.
  - intros j seed' h Hp Hj E. destruct (verify_pow_ok seed j pow_bits other Hw' Hl) as (h' & _ & E'); [lia|].
    rewrite E' in E. destruct (get (pow_digest seed j) 0 <=? pow_threshold pow_bits) eqn:Hle; [|discriminate].
    replace (pow_bits <=? 32) with true by (symmetry; apply Z.leb_le; lia).
    change (trailing_zeros BLAKE2S_ROUNDS_PER_INVOCAITON) with 16.
    replace (pow_bits <=? 16) with true by (symmetry; apply Z.leb_le; lia).
    assert (Hacc : try_challenge seed pow_bits j = Some (pow_digest seed j))
      by (rewrite try_challenge_digest by exact Hl; cbv zeta; rewrite Hle; reflexivity).
    destruct (serial_search seed pow_bits _ 0) as [[out k]|]; cbn [first_hit] in Hs.
    + destruct Hs as (Hk & Hout & Hmin). destruct (Htry _ _ Hout) as [-> _]. exists k.
      split; [reflexivity|]. split.
      * destruct (Z.le_gt_cases k j); [lia|]. rewrite Hmin in Hacc by lia. discriminate.
      * intros i Hi. specialize (Hmin i Hi). rewrite try_challenge_digest in Hmin by exact Hl. cbv zeta in Hmin.
        destruct (Z.leb_spec (get (pow_digest seed i) 0) (pow_threshold pow_bits)) as [_|Hgt]; [discriminate Hmin|].
        apply Z.lt_gt. exact Hgt.
    + rewrite Hs in Hacc by lia. discriminate.
Qed.

Lemma search_pow_correct_witness :
  let seed := rangeZ 1 8 in
  exists k, search_pow seed 6 0 Baseline.new = Ok (pow_digest seed k, k) Baseline.new /\ 0 <= k <= 77 /\
    exists h', verify_pow seed k 6 dirty_slot = Ok (pow_digest seed k) h'.
Proof.
  intros seed.
  destruct (search_pow_correct Baseline.new dirty_slot seed 6 0) as [Hver Hfind];
    [split; reflexivity | exact dirty_slot_wf | reflexivity|].
  destruct (verify_pow seed 77 6 dirty_slot) as [s h| |] eqn:E; [| vm_compute in E; discriminate E ..].
  destruct (Hfind 77 s h ltac:(lia) ltac:(lia) E) as (k & Ek & Hk & _).
  exists k. split; [exact Ek|]. split; [exact Hk|]. exact (Hver _ _ _ Ek).
Defined.

(** ** The buffering transcript *)

(** What a caller does before finalising. *)
Inductive transcript_op : Type := Absorb (values : list Z) | Pad.

(** Words that stay in the buffer after [ws]: its last block. *)
Definition pending (ws : list Z) : nat := length ws - 16 * leading_blocks ws.

(** The message an operation turns [ws] into. *)
Definition op_words (ws : list Z) (op : transcript_op) : list Z :=
  match op with
  | Absorb values => ws ++ values
  | Pad => ws ++ replicate (16 - pending ws) 0
  end.

Definition ops_words (ops : list transcript_op) (ws : list Z) : list Z := fold_left op_words ops ws.

Fixpoint run_ops {H} `{Blake2sHasher H} (ops : list transcript_op)
    : comp Empty_set (Buffering.Blake2sBufferingTranscript H) unit :=
  match ops with
  | [] => ret tt
  | Absorb values :: rest => Buffering.absorb values ;;! run_ops rest
  | Pad :: rest => Buffering.pad ;;! run_ops rest
  end.

Section BufferingProofs.
Import Buffering.
Context {H : Type} `{LawfulHasher H}.
Notation fed := (consumed USE_REDUCED_BLAKE2_ROUNDS).
Notation fits ws := (4 * Z.of_nat (length ws) < 2 ^ 32).
Notation T := (Blake2sBufferingTranscript H).

Definition absorbed (s : T) (ws : list Z) : Prop :=
  fed (state s) (buffer_offset s) ws /\ (buffer_offset s = 0%nat -> ws = []).

Lemma on_state_ok {A} (m : hprog H A) (s : T) a h' :
  m (state s) = Ok a h' -> on_state m s = Ok a {| state := h'; buffer_offset := buffer_offset s |}.
Proof. unfold on_state, zoom. intros ->. reflexivity. Qed.

Lemma run_absorb_ok (s : T) ws : fed (state s) 16 ws -> fits ws -> exists s',
  run_absorb s = Ok tt s' /\ fed (state s') 0 ws /\ buffer_offset s' = 0%nat.
Proof.
  intros Hf Hs. destruct (consumed_round _ _ _ Hf Hs) as (h' & E & Hf'). unfold run_absorb.
  rewrite (bind_step _ _ _ _ _ (on_state_ok _ _ _ _ E)). eexists. split; [reflexivity|]. auto.
Qed.

Lemma absorb_loop_ok fuel : forall values (s : T) ws,
  fed (state s) (buffer_offset s) ws -> fits (ws ++ values) ->
  (length values + (if buffer_offset s =? 16 then 1 else 0) <= fuel)%nat ->
  exists s', absorb_loop fuel values s = Ok tt s' /\ fed (state s') (buffer_offset s') (ws ++ values) /\
    (values <> [] -> buffer_offset s' <> 0%nat) /\ (values = [] -> s' = s).
Proof.
  induction fuel as [|fuel IH]; intros values s ws Hf Hs Hfuel.
  - destruct values as [|v vs]; [|cbn [length] in Hfuel; lia]. exists s. rewrite app_nil_r.
    split; [reflexivity|]. split; [exact Hf|]. split; congruence.
  - destruct values as [|v vs].
    { exists s. rewrite app_nil_r. split; [reflexivity|]. split; [exact Hf|]. split; congruence. }
    cbn [absorb_loop]. remember (v :: vs) as values eqn:Ev. assert (Hpos : (0 < length values)%nat) by (subst; cbn; lia).
    clear v vs Ev. change BLAKE2S_BLOCK_SIZE_U32_WORDS with 16%nat.
    rewrite (bind_step _ _ s (buffer_offset s) s) by reflexivity.
    set (off := buffer_offset s) in *. set (w := Nat.min (length values) (16 - off)).
    assert (Hoff : (off <= 16)%nat) by apply Hf. assert (Hw : length (take w values) = w) by (rewrite length_take; lia).
    destruct (consumed_copy _ _ _ _ (take w values) Hf) as (h1 & E1 & Hf1); [lia|]. rewrite Hw in Hf1.
    rewrite (bind_step _ _ _ _ _ (on_state_ok _ _ _ _ E1)).
    set (s1 := {| state := h1; buffer_offset := (off + w)%nat |}).
    rewrite (bind_step _ _ _ tt s1) by reflexivity.
    assert (Hr : length (drop w values) = (length values - w)%nat) by apply length_drop.
    assert (Hsplit : (ws ++ take w values) ++ drop w values = ws ++ values)
      by (rewrite <- app_assoc, take_drop; reflexivity).
    destruct (Nat.ltb_spec 0 (length (drop w values))) as [Hrest|Hrest].
    + assert (Hfull : (off + w = 16)%nat) by lia.
      destruct (run_absorb_ok s1 (ws ++ take w values)) as (s2 & E2 & Hf2 & Ho2).
      { subst s1. cbn [state]. rewrite <- Hfull. exact Hf1. }
      { rewrite length_app in *. lia. }
      rewrite (bind_step _ _ _ _ _ E2).
      destruct (IH (drop w values) s2 (ws ++ take w values)) as (s' & E & Hf' & Hne & _).
      { rewrite Ho2. exact Hf2. } { rewrite Hsplit. exact Hs. }
      { rewrite Ho2. cbn [Nat.eqb]. destruct (Nat.eqb_spec off 16); lia. }
      exists s'. split; [exact E|]. split; [rewrite <- Hsplit; exact Hf'|]. split; [|intros ->; cbn in Hpos; lia].
      intros _. apply Hne. intros Hd. rewrite Hd in Hrest. cbn in Hrest. lia.
    + assert (Hd : drop w values = []) by (destruct (drop w values); [reflexivity | cbn in Hrest; lia]).
      rewrite (bind_step _ _ _ tt s1) by reflexivity. exists s1.
      rewrite <- Hsplit, Hd, app_nil_r. split; [destruct fuel; reflexivity|]. split; [exact Hf1|].
      split; [|intros ->; cbn in Hpos; lia]. intros _. cbn. lia.
Qed.

Lemma absorb_ok values (s : T) ws : absorbed s ws -> fits (ws ++ values) -> exists s',
  absorb values s = Ok tt s' /\ absorbed s' (ws ++ values).
Proof.
  intros [Hf Hemp] Hs. destruct (absorb_loop_ok (S (length values)) values s ws Hf Hs) as (s' & E & Hf' & Hne & Hnil).
  { destruct (buffer_offset s =? 16)%nat; lia. }
  exists s'. split; [exact E|]. split; [exact Hf'|]. intros Hz. destruct values as [|v vs].
  - rewrite (Hnil eq_refl) in Hz. rewrite (Hemp Hz). reflexivity.
  - exfalso. apply Hne; congruence.
Qed.

Lemma absorbed_pending (s : T) ws : absorbed s ws -> buffer_offset s = pending ws.
Proof.
  intros [(_ & Hoff & n & Hl & _) Hemp]. unfold pending, leading_blocks.
  destruct (Nat.eq_dec (buffer_offset s) 0) as [Hz|Hnz].
  - rewrite (Hemp Hz), Hz. reflexivity.
  - replace ((length ws - 1) / 16)%nat with n; [lia|].
    apply (Nat.div_unique _ _ _ (buffer_offset s - 1)); lia.
Qed.

Lemma pad_ok (s : T) ws : absorbed s ws -> exists s', pad s = Ok tt s' /\ absorbed s' (op_words ws Pad).
Proof.
  intros Ha. cbn [op_words]. rewrite <- (absorbed_pending s ws Ha). destruct Ha as [Hf _].
  set (off := buffer_offset s) in *. assert (Hoff : (off <= 16)%nat) by apply Hf.
  unfold pad. rewrite (bind_step _ _ s off s) by reflexivity.
  destruct (consumed_copy _ _ _ _ (replicate (16 - off) 0) Hf) as (h1 & E1 & Hf1); [rewrite length_replicate; lia|].
  assert (E : spec_memzero_u32 off (state s) = Ok tt h1).
  { rewrite <- E1. unfold spec_memzero_u32, spec_memcopy_u32_nonoverlapping.
    rewrite (h_wf_buffer _ (consumed_wf _ _ _ _ Hf)), length_replicate.
    replace (off + (16 - off) <=? 16)%nat with true by (symmetry; apply Nat.leb_le; lia).
    rewrite (drop_ge (h_input_buffer _)), app_nil_r; [reflexivity|].
    rewrite (h_wf_buffer _ (consumed_wf _ _ _ _ Hf)). lia. }
  rewrite (bind_step _ _ _ _ _ (on_state_ok _ _ _ _ E)). eexists. split; [reflexivity|].
  split; [|cbn; discriminate]. rewrite length_replicate in Hf1.
  replace (off + (16 - off))%nat with 16%nat in Hf1 by lia. exact Hf1.
Qed.

Lemma finalize_ok (s : T) ws : absorbed s ws -> fits ws -> exists s',
  finalize s = Ok (words_hash true ws) s' /\ h_wf (state s').
Proof.
  intros [Hf Hemp] Hs. unfold finalize. rewrite (bind_step _ _ s (buffer_offset s) s) by reflexivity.
  destruct (consumed_zero _ _ _ _ Hf) as (h1 & E1 & Hf1 & Hz).
  rewrite (bind_step _ _ _ _ _ (on_state_ok _ _ _ _ E1)).
  destruct (consumed_final _ _ _ _ Hf1 Hemp Hz Hs) as (h2 & E2 & Hw2 & Es).
  rewrite (bind_step _ _ _ tt {| state := h2; buffer_offset := buffer_offset s |})
    by (unfold on_state, zoom; cbn [state]; rewrite E2; reflexivity).
  eexists. unfold gets. cbn [state]. rewrite Es. split; [reflexivity | exact Hw2].
Qed.

Lemma finalize_reset_is_finalize (s : T) seed s' : finalize s = Ok seed s' ->
  finalize_reset s = Ok seed {| state := h_reset (state s'); buffer_offset := 0 |}.
Proof.
  unfold finalize, finalize_reset. intros E.
  apply bind_ok in E. destruct E as (off & s0 & E0 & E). rewrite (bind_step _ _ _ _ _ E0).
  apply bind_ok in E. destruct E as (u1 & s1 & E1 & E). rewrite (bind_step _ _ _ _ _ E1).
  apply bind_ok in E. destruct E as (u2 & s2 & E2 & E). rewrite (bind_step _ _ _ _ _ E2).
  unfold gets in E. injection E as <- <-. reflexivity.
Qed.

Lemma finalize_reset_ok (s : T) ws : absorbed s ws -> fits ws -> exists s',
  finalize_reset s = Ok (words_hash true ws) s' /\ absorbed s' [].
Proof.
  intros Ha Hs. destruct (finalize_ok s ws Ha Hs) as (s1 & E & Hw). eexists.
  split; [apply finalize_reset_is_finalize, E|]. split; [apply reset_fed, Hw | reflexivity].
Qed.

Lemma run_ops_ok ops : forall (s : T) ws, absorbed s ws -> fits (ops_words ops ws) -> exists s',
  run_ops ops s = Ok tt s' /\ absorbed s' (ops_words ops ws).
Proof.
  assert (Hgrow : forall ops ws, (length ws <= length (ops_words ops ws))%nat).
  { intros l. induction l as [|op l IH]; intros ws; [reflexivity|]. unfold ops_words in *. cbn [fold_left].
    etransitivity; [|apply IH]. destruct op; cbn [op_words]; rewrite length_app; lia. }
  induction ops as [|op ops IH]; intros s ws Ha Hs; [exists s; auto|].
  change (ops_words (op :: ops) ws) with (ops_words ops (op_words ws op)) in *.
  assert (Hstep : exists s1, (match op with Absorb v => absorb v | Pad => pad end) s = Ok tt s1 /\
            absorbed s1 (op_words ws op)).
  { destruct op as [values|]; [apply absorb_ok | apply pad_ok]; auto.
    specialize (Hgrow ops (ws ++ values)). cbn [op_words] in Hs. lia. }
  destruct Hstep as (s1 & E1 & Ha1). destruct (IH s1 _ Ha1 Hs) as (s' & E & Ha').
  exists s'. split; [|exact Ha']. destruct op; cbn [run_ops]; rewrite (bind_step _ _ _ _ _ E1); exact E.
Qed.

Lemma new_absorbed (slot : H) : h_wf slot -> absorbed (new slot) [].
Proof. intros Hw. split; [apply (fresh_fed slot Hw) | reflexivity]. Qed.
End BufferingProofs.

(** C19: The buffering transcript hashes what it is fed, however the words are
    split into [absorb] calls: after any sequence of absorptions and paddings
    its result is the hash of the concatenated words, a padding counting as the
    zeros that complete the block.  [finalize_reset] gives the same seed and
    leaves a transcript that has consumed nothing. *)
Theorem buffering_transcript_correct {H} `{LawfulHasher H} (slot : H) (ops : list transcript_op) :
  h_wf slot -> 4 * Z.of_nat (length (ops_words ops [])) < 2 ^ 32 ->
  exists s, run_ops ops (Buffering.new slot) = Ok tt s /\
    (exists s', Buffering.finalize s = Ok (words_hash true (ops_words ops [])) s') /\
    (exists s', Buffering.finalize_reset s = Ok (words_hash true (ops_words ops [])) s' /\
       Buffering.buffer_offset s' = 0%nat /\ h_state (Buffering.state s') = CONFIGURED_IV /\
       h_t (Buffering.state s') = 0).
Proof.
  intros Hw Hs. destruct (run_ops_ok ops _ _ (new_absorbed slot Hw) Hs) as (s & E & Ha).
  exists s. split; [exact E|]. destruct (finalize_ok s _ Ha Hs) as (s' & Ef & Hw').
  split; [exists s'; exact Ef|].
  eexists. split; [exact (finalize_reset_is_finalize s _ s' Ef)|]. split; [reflexivity|].
  destruct (h_reset_ok (Buffering.state s') Hw') as (_ & ? & ? & _). auto.
Qed.

Lemma buffering_transcript_correct_witness :
  exists s s', run_ops [Absorb (rangeZ 0 20); Absorb (rangeZ 20 13); Pad; Absorb [7]] (Buffering.new dirty_slot) = Ok tt s /\
    Buffering.finalize s = Ok (words_hash true (rangeZ 0 33 ++ replicate 15 0 ++ [7])) s'.
Proof.
  destruct (buffering_transcript_correct dirty_slot [Absorb (rangeZ 0 20); Absorb (rangeZ 20 13); Pad; Absorb [7]])
    as (s & E & (s' & Ef) & _).
  - exact dirty_slot_wf.
  - vm_compute. reflexivity.
  - exists s, s'. split; [exact E|]. exact Ef.
Defined.
