(* ===== verification/Challenges.v ===== *)
(** * Challenges, boundary values and tree caps

    [prover/src/definitions/mod.rs] and [hash_like_holder.rs], and the structures
    of [verifier_common/src/lib.rs]: what the verifiers of circuits hand to the
    verifier of a full statement.  Arrays are lists; [*_wf] states their lengths
    and that their field elements are representations. *)
From stdpp Require Import base list strings.
From Stdlib Require Import ZArith Lia.
From S2P Require Import Prelude MachineInt Blake2s Hasher Transcript Field FieldExt FieldTraits Powers Ntt Fft Fri Deep.

Import Quartic (Mersenne31Quartic, into_coeffs_in_base).

#[local] Opaque Nat.pow mixing_function Rfc.round.

(** ** Definitions *)

Definition REGISTER_SIZE : nat := 2.
Definition NUM_REGISTERS : nat := 32.
Definition NUM_TIMESTAMP_COLUMNS_FOR_RAM : nat := 2.
Definition NUM_MEM_ARGUMENT_KEY_PARTS : nat := 1 + REGISTER_SIZE + NUM_TIMESTAMP_COLUMNS_FOR_RAM + REGISTER_SIZE.
Definition NUM_MEM_ARGUMENT_LINEARIZATION_CHALLENGES : nat := NUM_MEM_ARGUMENT_KEY_PARTS - 1.
Definition MEM_ARGUMENT_CHALLENGE_POWERS_ADDRESS_LOW_IDX : nat := 0.
Definition MEM_ARGUMENT_CHALLENGE_POWERS_TIMESTAMP_LOW_IDX : nat := 2.
Definition MEM_ARGUMENT_CHALLENGE_POWERS_TIMESTAMP_HIGH_IDX : nat := 3.
Definition MEM_ARGUMENT_CHALLENGE_POWERS_VALUE_LOW_IDX : nat := 4.
Definition MEM_ARGUMENT_CHALLENGE_POWERS_VALUE_HIGH_IDX : nat := 5.
Definition NUM_DELEGATION_ARGUMENT_KEY_PARTS : nat := 1 + 1 + 2.
Definition NUM_DELEGATION_ARGUMENT_LINEARIZATION_CHALLENGES : nat := NUM_DELEGATION_ARGUMENT_KEY_PARTS - 1.

(** [usize::next_multiple_of] *)
Definition next_multiple_of (n m : nat) : nat := if (n mod m =? 0)%nat then n else (n + (m - n mod m))%nat.

Record ExternalMemoryArgumentChallenges : Type := {
  memory_argument_linearization_challenges : list Mersenne31Quartic;
  memory_argument_gamma : Mersenne31Quartic;
}.

Record ExternalDelegationArgumentChallenges : Type := {
  delegation_argument_linearization_challenges : list Mersenne31Quartic;
  delegation_argument_gamma : Mersenne31Quartic;
}.

Record ExternalChallenges : Type := {
  memory_argument : ExternalMemoryArgumentChallenges;
  delegation_argument : option ExternalDelegationArgumentChallenges;
}.

(** [flatten]: the reduced words of the coefficients *)
Definition flatten_element (el : Mersenne31Quartic) : list Z := map to_reduced_u32 (into_coeffs_in_base el).
Definition flatten_memory_challenges (c : ExternalMemoryArgumentChallenges) : list Z :=
  concat (map flatten_element (memory_argument_linearization_challenges c)) ++ flatten_element (memory_argument_gamma c).
Definition flatten_delegation_challenges (c : ExternalDelegationArgumentChallenges) : list Z :=
  concat (map flatten_element (delegation_argument_linearization_challenges c)) ++
  flatten_element (delegation_argument_gamma c).

(** The derived [PartialEq]: arrays elementwise, field elements by value. *)
Fixpoint array_eq (a b : list Mersenne31Quartic) : bool :=
  match a, b with
  | x :: a', y :: b' => feq x y && array_eq a' b'
  | [], [] => true
  | _, _ => false
  end.
Definition memory_challenges_eq (a b : ExternalMemoryArgumentChallenges) : bool :=
  array_eq (memory_argument_linearization_challenges a) (memory_argument_linearization_challenges b) &&
  feq (memory_argument_gamma a) (memory_argument_gamma b).
Definition delegation_challenges_eq (a b : ExternalDelegationArgumentChallenges) : bool :=
  array_eq (delegation_argument_linearization_challenges a) (delegation_argument_linearization_challenges b) &&
  feq (delegation_argument_gamma a) (delegation_argument_gamma b).

Section Draw.
Context {H : Type} `{Blake2sHasher H}.

(** [n] times [it.next().unwrap_unchecked()] *)
Definition next_n {A} (n : nat) (it : list A) : hprog H (list A * list A) :=
  if (n <=? length it)%nat then ret (take n it, drop n it) else panic UB.
Definition next {A} (it : list A) : hprog H (A * list A) :=
  match it with x :: rest => ret (x, rest) | [] => panic UB end.

(** [as_chunks::<4>()] of the drawn words, each [from_nonreduced_u32] *)
Definition challenge_chunks (transcript_challenges : list Z) : list Mersenne31Quartic :=
  ext4_chunks (map from_nonreduced_u32 transcript_challenges).

Definition draw_from_transcript_seed (seed : Seed) (produce_delegation_challenge : bool) : hprog H ExternalChallenges :=
  if negb produce_delegation_challenge then
    let! (_, transcript_challenges) := draw_randomness seed
      (replicate (next_multiple_of ((NUM_MEM_ARGUMENT_LINEARIZATION_CHALLENGES + 1) * 4) BLAKE2S_DIGEST_SIZE_U32_WORDS) 0) in
    let it := challenge_chunks transcript_challenges in
    let! (linearization, it) := next_n NUM_MEM_ARGUMENT_LINEARIZATION_CHALLENGES it in
    let! (gamma, it) := next it in
    ret {| memory_argument := {| memory_argument_linearization_challenges := linearization; memory_argument_gamma := gamma |};
           delegation_argument := None |}
  else
    let! (_, transcript_challenges) := draw_randomness seed
      (replicate (next_multiple_of ((NUM_MEM_ARGUMENT_LINEARIZATION_CHALLENGES + 1
                                     + NUM_DELEGATION_ARGUMENT_LINEARIZATION_CHALLENGES + 1) * 4)
                    BLAKE2S_DIGEST_SIZE_U32_WORDS) 0) in
    let it := challenge_chunks transcript_challenges in
    let! (linearization, it) := next_n NUM_MEM_ARGUMENT_LINEARIZATION_CHALLENGES it in
    let! (gamma, it) := next it in
    let! (delegation_linearization, it) := next_n NUM_DELEGATION_ARGUMENT_LINEARIZATION_CHALLENGES it in
    let! (delegation_gamma, it) := next it in
    ret {| memory_argument := {| memory_argument_linearization_challenges := linearization; memory_argument_gamma := gamma |};
           delegation_argument := Some {| delegation_argument_linearization_challenges := delegation_linearization;
                                          delegation_argument_gamma := delegation_gamma |} |}.
End Draw.

Record AuxArgumentsBoundaryValues : Type := {
  lazy_init_first_row : list Mersenne31Field;
  teardown_value_first_row : list Mersenne31Field;
  teardown_timestamp_first_row : list Mersenne31Field;
  lazy_init_one_before_last_row : list Mersenne31Field;
  teardown_value_one_before_last_row : list Mersenne31Field;
  teardown_timestamp_one_before_last_row : list Mersenne31Field;
}.

Definition flatten_boundary_values (v : AuxArgumentsBoundaryValues) : list Z :=
  map to_reduced_u32 (lazy_init_first_row v) ++ map to_reduced_u32 (teardown_value_first_row v) ++
  map to_reduced_u32 (teardown_timestamp_first_row v) ++ map to_reduced_u32 (lazy_init_one_before_last_row v) ++
  map to_reduced_u32 (teardown_value_one_before_last_row v) ++ map to_reduced_u32 (teardown_timestamp_one_before_last_row v).

(** *** The registers' part of the memory argument *)

Definition split_u32_into_pair_u16 (num : Z) : Z * Z :=
  let high_word := Z.shiftr num 16 in
  let low_word := Z.land num 0x0000ffff in
  (low_word, high_word).

(** [let mut t = challenge; t.mul_assign_by_base(&Mersenne31Field(x)); contribution.add_assign(&t)] *)
Definition add_scaled (challenge : Mersenne31Quartic) (x : Mersenne31Field) (contribution : Mersenne31Quartic) : Mersenne31Quartic :=
  add_assign contribution (mul_assign_by_base challenge x).

Fixpoint write_set_loop (address_low gamma : Mersenne31Quartic) (count : nat) (reg_idx : Z) (acc : Mersenne31Quartic)
    : Mersenne31Quartic :=
  match count with
  | O => acc
  | S count' =>
      let contribution := ONE in
      let contribution := add_scaled address_low (u32 reg_idx) contribution in
      let contribution := add_assign contribution gamma in
      write_set_loop address_low gamma count' (reg_idx + 1) (mul_assign acc contribution)
  end.

(** [register_final_data]: triples of value, low and high half of the timestamp *)
Fixpoint read_set_loop (address_low timestamp_low_c timestamp_high_c value_low_c value_high_c gamma : Mersenne31Quartic)
    (data : list (Z * (Z * Z))) (reg_idx : Z) (acc : Mersenne31Quartic) : Mersenne31Quartic :=
  match data with
  | [] => acc
  | (value, (timestamp_low, timestamp_high)) :: rest =>
      let '(value_low, value_high) := split_u32_into_pair_u16 value in
      let contribution := ONE in
      let contribution := add_scaled address_low (u32 reg_idx) contribution in
      let contribution := add_scaled timestamp_low_c timestamp_low contribution in
      let contribution := add_scaled timestamp_high_c timestamp_high contribution in
      let contribution := add_scaled value_low_c value_low contribution in
      let contribution := add_scaled value_high_c value_high contribution in
      let contribution := add_assign contribution gamma in
      read_set_loop address_low timestamp_low_c timestamp_high_c value_low_c value_high_c gamma rest (reg_idx + 1)
        (mul_assign acc contribution)
  end.

(** [result = write_set; result.mul_assign(&read_set.inverse().unwrap())] *)
Definition set_quotient (write_set_contribution read_set_contribution : Mersenne31Quartic) : option Mersenne31Quartic :=
  inv ← inverse read_set_contribution;
  Some (mul_assign write_set_contribution inv).

(** [None]: a challenge is missing, or the inverse does not exist and [unwrap] panics. *)
Definition produce_register_contribution_into_memory_accumulator_raw (register_final_data : list (Z * (Z * Z)))
    (memory_argument_linearization_challenges : list Mersenne31Quartic) (memory_argument_gamma : Mersenne31Quartic)
    : option Mersenne31Quartic :=
  let c := memory_argument_linearization_challenges in
  address_low ← c !! MEM_ARGUMENT_CHALLENGE_POWERS_ADDRESS_LOW_IDX;
  timestamp_low ← c !! MEM_ARGUMENT_CHALLENGE_POWERS_TIMESTAMP_LOW_IDX;
  timestamp_high ← c !! MEM_ARGUMENT_CHALLENGE_POWERS_TIMESTAMP_HIGH_IDX;
  value_low ← c !! MEM_ARGUMENT_CHALLENGE_POWERS_VALUE_LOW_IDX;
  value_high ← c !! MEM_ARGUMENT_CHALLENGE_POWERS_VALUE_HIGH_IDX;
  let write_set_contribution := write_set_loop address_low memory_argument_gamma NUM_REGISTERS 0 ONE in
  let read_set_contribution :=
    read_set_loop address_low timestamp_low timestamp_high value_low value_high memory_argument_gamma register_final_data 0 ONE in
  set_quotient write_set_contribution read_set_contribution.

(** *** Caps *)

Record MerkleTreeCap : Type := { cap : list (list Z) }.

(** [flatten]: the words in memory order *)
Definition flatten_caps (input : list MerkleTreeCap) : list Z := concat (map (fun c => concat (cap c)) input).

Definition compare_words (a b : list Z) (equal : bool) : bool :=
  fold_left (fun equal '(x, y) => equal && (x =? y)) (zip a b) equal.
Definition compare_cap (a b : MerkleTreeCap) (equal : bool) : bool :=
  fold_left (fun equal '(x, y) => compare_words x y equal) (zip (cap a) (cap b)) equal.
Definition compare (a b : list MerkleTreeCap) : bool :=
  fold_left (fun equal '(x, y) => compare_cap x y equal) (zip a b) true.

(** *** What the verifier of a circuit returns *)

Record ProofOutput : Type := {
  setup_caps : list MerkleTreeCap;
  memory_caps : list MerkleTreeCap;
  memory_challenges : ExternalMemoryArgumentChallenges;
  delegation_challenges : list ExternalDelegationArgumentChallenges;
  lazy_init_boundary_values : list AuxArgumentsBoundaryValues;
  memory_grand_product_accumulator : Mersenne31Quartic;
  delegation_argument_accumulator : list Mersenne31Quartic;
  circuit_sequence : Z;
  delegation_type : Z;
}.

Definition setup_caps_flattened (self : ProofOutput) : list Z := flatten_caps (setup_caps self).
Definition memory_caps_flattened (self : ProofOutput) : list Z := flatten_caps (memory_caps self).

Record ProofPublicInputs : Type := {
  input_state_variables : list Mersenne31Field;
  output_state_variables : list Mersenne31Field;
}.

Definition parse_field_els_as_u32_from_u16_limbs_checked {E S} (input : list Mersenne31Field) : comp E S Z :=
  match input with
  | [low; high] =>
      let low := to_reduced_u32 low in
      let high := to_reduced_u32 high in
      assert_or_panic (Z.land low 0xffff0000 =? 0) "low & 0xffff0000 == 0" ;;!
      assert_or_panic (Z.land high 0xffff0000 =? 0) "high & 0xffff0000 == 0" ;;!
      ret (Z.lor low (shl32 high 16))
  | _ => panic UB
  end.

(** ** Well-formed structures *)

Definition elements_wf (n : nat) (l : list Mersenne31Quartic) : Prop := length l = n /\ Forall fwf l.
Definition limbs_wf (l : list Mersenne31Field) : Prop := length l = REGISTER_SIZE /\ Forall repr l.

Definition memory_challenges_wf (c : ExternalMemoryArgumentChallenges) : Prop :=
  elements_wf NUM_MEM_ARGUMENT_LINEARIZATION_CHALLENGES (memory_argument_linearization_challenges c) /\
  fwf (memory_argument_gamma c).
Definition delegation_challenges_wf (c : ExternalDelegationArgumentChallenges) : Prop :=
  elements_wf NUM_DELEGATION_ARGUMENT_LINEARIZATION_CHALLENGES (delegation_argument_linearization_challenges c) /\
  fwf (delegation_argument_gamma c).
Definition boundary_values_wf (v : AuxArgumentsBoundaryValues) : Prop :=
  limbs_wf (lazy_init_first_row v) /\ limbs_wf (teardown_value_first_row v) /\ limbs_wf (teardown_timestamp_first_row v) /\
  limbs_wf (lazy_init_one_before_last_row v) /\ limbs_wf (teardown_value_one_before_last_row v) /\
  limbs_wf (teardown_timestamp_one_before_last_row v).

(** [M] caps of [N] digests *)
Definition caps_wf (N M : nat) (caps : list MerkleTreeCap) : Prop :=
  length caps = M /\ Forall (fun c => length (cap c) = N /\ Forall (fun d => length d = 8%nat) (cap c)) caps.

(** ** Computations that only look

    [observes m P]: [m] changes nothing and returns exactly the values in [P]. *)
Definition observes {E S A} (m : comp E S A) (P : A -> Prop) : Prop := forall s a s', m s = Ok a s' <-> P a /\ s' = s.

Section Observes.
Context {E S : Type}.

Lemma observes_ret {A} (x : A) : observes (E := E) (S := S) (ret x) (fun a => a = x).
Proof. intros s a s'. unfold ret. split; [intros [= -> ->]; auto | intros [-> ->]; reflexivity]. Qed.

Lemma observes_panic {A} msg : observes (E := E) (S := S) (A := A) (panic msg) (fun _ => False).
Proof. intros s a s'. split; [discriminate | intros [[] _]]. Qed.

Lemma observes_assert b msg : observes (E := E) (S := S) (assert_or_panic b msg) (fun _ => b = true).
Proof.
  intros s [] s'. destruct b; cbn; unfold ret, panic; (split; [intros [=] | intros [? ?]]); subst; try discriminate; auto.
Qed.

Lemma observes_bind {A B} (m : comp E S A) (k : A -> comp E S B) P Q : observes m P ->
  (forall a, P a -> observes (k a) (Q a)) -> observes (bind m k) (fun b => exists a, P a /\ Q a b).
Proof.
  intros Hm Hk s b s'. split.
  - intros Eb. apply bind_ok in Eb. destruct Eb as (a & s1 & Ea & Eb). apply Hm in Ea. destruct Ea as [Pa ->].
    apply (Hk a Pa) in Eb. destruct Eb as [Qb ->]. eauto.
  - intros [(a & Pa & Qb) ->]. rewrite (bind_step _ _ s a s) by (apply Hm; auto). apply (Hk a Pa). auto.
Qed.

Lemma observes_iff {A} (m : comp E S A) P Q : observes m P -> (forall a, P a <-> Q a) -> observes m Q.
Proof. intros Hm HPQ s a s'. rewrite <- HPQ. apply Hm. Qed.

Lemma observes_then {A B} (m : comp E S A) (k : A -> comp E S B) P s b s' : observes m P ->
  (bind m k s = Ok b s' <-> exists a, P a /\ k a s = Ok b s').
Proof.
  intros Hm. split.
  - intros Eb. apply bind_ok in Eb. destruct Eb as (a & s1 & Ea & Eb). apply Hm in Ea. destruct Ea as [Pa ->]. eauto.
  - intros (a & Pa & Eb). rewrite (bind_step _ _ s a s) by (apply Hm; auto). exact Eb.
Qed.

Lemma assert_then {A} b msg (k : comp E S A) s r s' :
  (assert_or_panic b msg ;;! k) s = Ok r s' <-> b = true /\ k s = Ok r s'.
Proof.
  rewrite (observes_then _ _ _ _ _ _ (observes_assert b msg)). split; [intros ([] & ? & ?) | intros [? ?]; exists tt]; auto.
Qed.
End Observes.

(** ** Limbs *)

(** The two limbs are those of the word [w]. *)
Definition limbs_value (limbs : list Mersenne31Field) (w : Z) : Prop :=
  is_u32 w /\ map to_reduced_u32 limbs = [w mod 2 ^ 16; w / 2 ^ 16].

Lemma high_bits_clear x : 0 <= x < 2 ^ 32 -> Z.land x 0xffff0000 =? 0 = true <-> x < 2 ^ 16.
Proof.
  intros Hx. assert (E : Z.land x 0xffff0000 = x / 2 ^ 16 * 2 ^ 16).
  { apply Z.bits_inj'. intros n Hn. rewrite Z.land_spec, <- Z.shiftr_div_pow2, <- Z.shiftl_mul_pow2 by lia.
    rewrite Z.shiftl_spec by lia. change 0xffff0000 with (Z.shiftl (Z.ones 16) 16). rewrite Z.shiftl_spec by lia.
    destruct (Z.ltb_spec n 16).
    - rewrite !(Z.testbit_neg_r _ (n - 16)) by lia. apply andb_false_r.
    - rewrite Z.testbit_ones_nonneg, Z.shiftr_spec by lia. replace (n - 16 + 16) with n by lia.
      destruct (Z.ltb_spec (n - 16) 16); [apply andb_true_r|]. rewrite andb_false_r. symmetry.
      destruct (Z.eq_dec x 0) as [-> | Hnz]; [apply Z.bits_0|]. apply Z.bits_above_log2; [lia|].
      apply Z.log2_lt_pow2; [lia|]. apply Z.lt_le_trans with (2 ^ 32); [lia|]. apply Z.pow_le_mono_r; lia. }
  rewrite E, Z.eqb_eq. pose proof (Z.div_mod x (2 ^ 16) ltac:(lia)). pose proof (Z.mod_pos_bound x (2 ^ 16) ltac:(lia)). lia.
Qed.

Lemma lor_limbs lo hi : 0 <= lo < 2 ^ 16 -> 0 <= hi < 2 ^ 16 -> Z.lor lo (shl32 hi 16) = lo + 2 ^ 16 * hi.
Proof.
  intros Hlo Hhi. unfold shl32. rewrite Z.shiftl_mul_pow2, u32_small by (unfold is_u32; lia).
  rewrite Z.lor_comm, <- (Z.shiftl_mul_pow2 hi 16) by lia. pose proof (Z.add_lor_land (Z.shiftl hi 16) lo) as Ea.
  assert (Z.land (Z.shiftl hi 16) lo = 0) as En; [|rewrite En, Z.shiftl_mul_pow2 in Ea by lia; rewrite Z.shiftl_mul_pow2; lia].
  apply Z.bits_inj'. intros n Hn. rewrite Z.land_spec, Z.bits_0, Z.shiftl_spec by lia. destruct (Z.ltb_spec n 16).
  - rewrite Z.testbit_neg_r by lia. reflexivity.
  - replace (Z.testbit lo n) with false; [apply andb_false_r|]. symmetry.
    destruct (Z.eq_dec lo 0) as [-> | Hnz]; [apply Z.bits_0|]. apply Z.bits_above_log2; [lia|].
    apply Z.log2_lt_pow2; [lia|]. apply Z.lt_le_trans with (2 ^ 16); [lia|]. apply Z.pow_le_mono_r; lia.
Qed.

Lemma parse_observes {E S} limbs : limbs_wf limbs ->
  observes (E := E) (S := S) (parse_field_els_as_u32_from_u16_limbs_checked limbs) (limbs_value limbs).
Proof.
  intros [Hl Hr]. destruct limbs as [|lo [|hi [|]]]; try discriminate. apply Forall_cons_1 in Hr. destruct Hr as [Rlo Rhi].
  apply Forall_cons_1 in Rhi. destruct Rhi as [Rhi _].
  assert (Hb : forall x, repr x -> 0 <= to_reduced_u32 x < 2 ^ 32).
  { intros x Hx. unfold to_reduced_u32. unfold repr, ORDER in *. destruct (Z.eqb_spec x (2 ^ 31 - 1)); lia. }
  pose proof (Hb lo Rlo) as Blo. pose proof (Hb hi Rhi) as Bhi. intros s w s'. unfold parse_field_els_as_u32_from_u16_limbs_checked, limbs_value.
  cbn [map]. set (l := to_reduced_u32 lo) in *. set (h := to_reduced_u32 hi) in *. rewrite !assert_then.
  rewrite !high_bits_clear by assumption. rewrite (observes_ret _ s w s'). split.
  - intros (Hlo & Hhi & -> & ->). rewrite lor_limbs by lia. split; [|reflexivity]. split; [unfold is_u32; lia|].
    f_equal; [|f_equal].
    + rewrite Z.mul_comm, Z.mod_add, Z.mod_small by lia. reflexivity.
    + rewrite Z.mul_comm, Z.div_add, Z.div_small by lia. reflexivity.
  - intros [[Hw El] ->]. injection El as El Eh. unfold is_u32 in Hw.
    pose proof (Z.mod_pos_bound w (2 ^ 16) ltac:(lia)). pose proof (Z.div_mod w (2 ^ 16) ltac:(lia)).
    assert (w / 2 ^ 16 < 2 ^ 16) by (apply Z.div_lt_upper_bound; lia).
    split; [lia|]. split; [lia|]. split; [|reflexivity]. rewrite lor_limbs by lia. lia.
Qed.

(** ** Comparisons *)

Lemma compare_words_iff a : forall b equal, length a = length b -> compare_words a b equal = true <-> equal = true /\ a = b.
Proof.
  induction a as [|x a IH]; intros [|y b] equal Hl; try discriminate; unfold compare_words; cbn; [tauto|].
  injection Hl as Hl. fold (compare_words a b (equal && (x =? y))). rewrite IH by exact Hl.
  rewrite andb_true_iff, Z.eqb_eq. split; [intros [[-> ->] ->] | intros [-> [= -> ->]]]; auto.
Qed.

(** A comparison of fixed-size arrays made of comparisons of their elements. *)
Lemma fold_compare_iff {A} (cmp : A -> A -> bool -> bool) (ok : A -> Prop) a :
  (forall x y equal, ok x -> ok y -> cmp x y equal = true <-> equal = true /\ x = y) ->
  forall b equal, length a = length b -> Forall ok a -> Forall ok b ->
  fold_left (fun equal '(x, y) => cmp x y equal) (zip a b) equal = true <-> equal = true /\ a = b.
Proof.
  intros Hcmp. induction a as [|x a IH]; intros [|y b] equal Hl Ha Hb; try discriminate; cbn; [tauto|].
  injection Hl as Hl. apply Forall_cons_1 in Ha, Hb. destruct Ha as [Hx Ha], Hb as [Hy Hb].
  rewrite IH, Hcmp by assumption. split; [intros [[-> ->] ->] | intros [-> [= -> ->]]]; auto.
Qed.

Lemma compare_iff N M a b : caps_wf N M a -> caps_wf N M b -> compare a b = true <-> a = b.
Proof.
  intros [La Wa] [Lb Wb]. unfold compare.
  rewrite (fold_compare_iff compare_cap (fun c => length (cap c) = N /\ Forall (fun d => length d = 8%nat) (cap c)));
    [tauto | | congruence | assumption | assumption].
  intros [x] [y] equal [Lx Wx] [Ly Wy]. unfold compare_cap. cbn [cap] in *.
  rewrite (fold_compare_iff compare_words (fun d => length d = 8%nat)); [|intros; apply compare_words_iff; congruence
    | congruence | assumption | assumption].
  split; [intros [-> ->]; auto | intros [-> [= ->]]; auto].
Qed.

Lemma length_concat_const {A} n (l : list (list A)) : Forall (fun x => length x = n) l -> length (concat l) = (n * length l)%nat.
Proof. induction 1 as [|x l Hx _ IH]; cbn; [lia|]. rewrite length_app, IH, Hx. lia. Qed.

Lemma length_flatten_caps N M caps : caps_wf N M caps -> length (flatten_caps caps) = (8 * N * M)%nat.
Proof.
  intros [Hl Hw]. unfold flatten_caps. rewrite (length_concat_const (8 * N)); [rewrite length_map, Hl; lia|].
  apply Forall_map. eapply Forall_impl; [exact Hw|]. intros c [Hn Hd]. rewrite (length_concat_const 8), Hn by exact Hd. reflexivity.
Qed.

(** The field elements challenges stand for. *)
Definition memory_challenge_values (c : ExternalMemoryArgumentChallenges) : list (fv (F := Mersenne31Quartic)) :=
  map fabs (memory_argument_linearization_challenges c) ++ [fabs (memory_argument_gamma c)].
Definition delegation_challenge_values (c : ExternalDelegationArgumentChallenges) : list (fv (F := Mersenne31Quartic)) :=
  map fabs (delegation_argument_linearization_challenges c) ++ [fabs (delegation_argument_gamma c)].

Lemma array_eq_iff n a : forall b, elements_wf n a -> elements_wf n b -> array_eq a b = true <-> map fabs a = map fabs b.
Proof.
  revert n. induction a as [|x a IH]; intros n [|y b] [La Wa] [Lb Wb]; cbn in La, Lb; try lia; cbn [array_eq map]; [tauto|].
  apply Forall_cons_1 in Wa, Wb. destruct Wa as [Wx Wa], Wb as [Wy Wb]. rewrite andb_true_iff, (feq_ok x y Wx Wy).
  rewrite (IH (length a)); [|split; auto | split; auto; lia].
  split; [intros [E1 E2]; f_equal; assumption|].
  intros E. split; [exact (f_equal (hd (fabs x)) E) | exact (f_equal (@tl _) E)].
Qed.

Lemma with_gamma_iff n a b ga gb : elements_wf n a -> elements_wf n b -> fwf ga -> fwf gb ->
  array_eq a b && feq ga gb = true <-> map fabs a ++ [fabs ga] = map fabs b ++ [fabs gb].
Proof.
  intros Ha Hb Wa Wb. rewrite andb_true_iff, (array_eq_iff n a b Ha Hb), (feq_ok ga gb Wa Wb). split; [intros [E1 E2]; f_equal; [exact E1 | f_equal; exact E2]|].
  intros E. apply app_inj_tail in E. exact E.
Qed.

Lemma memory_challenges_eq_iff a b : memory_challenges_wf a -> memory_challenges_wf b ->
  memory_challenges_eq a b = true <-> memory_challenge_values a = memory_challenge_values b.
Proof. intros [Ha Ga] [Hb Gb]. apply (with_gamma_iff NUM_MEM_ARGUMENT_LINEARIZATION_CHALLENGES); assumption. Qed.

Lemma delegation_challenges_eq_iff a b : delegation_challenges_wf a -> delegation_challenges_wf b ->
  delegation_challenges_eq a b = true <-> delegation_challenge_values a = delegation_challenge_values b.
Proof. intros [Ha Ga] [Hb Gb]. apply (with_gamma_iff NUM_DELEGATION_ARGUMENT_LINEARIZATION_CHALLENGES); assumption. Qed.

(** ** Drawing *)

(** The challenges of a seed: consecutive groups of four words, reduced. *)
Definition drawn_elements (seed : Seed) : list Mersenne31Quartic := challenge_chunks (draws 6 seed).

Lemma length_draws n : forall seed, length seed = 8%nat -> length (draws n seed) = (8 * n)%nat.
Proof.
  induction n as [|n IH]; intros seed Hl; [reflexivity|]. cbn [draws]. rewrite length_app, IH by apply length_words_hash. lia.
Qed.

Lemma draws_u32 n : forall seed, length seed = 8%nat -> Forall is_u32 seed -> Forall is_u32 (draws n seed).
Proof.
  induction n as [|n IH]; intros seed Hl Hs; cbn [draws]; [constructor|]. apply Forall_app. split; [exact Hs|].
  apply IH; [apply length_words_hash | apply words_hash_u32; lia].
Qed.

Lemma ext4_chunks_ok n : forall l : list Mersenne31Field, length l = (4 * n)%nat -> Forall repr l -> elements_wf n (ext4_chunks l).
Proof.
  induction n as [|n IH]; intros l Hl Hr.
  - destruct l; [|discriminate]. split; [reflexivity | constructor].
  - destruct l as [|a [|b [|c [|d l]]]]; cbn in Hl; try lia. cbn [ext4_chunks].
    apply Forall_cons_1 in Hr. destruct Hr as [Ha Hr]. apply Forall_cons_1 in Hr. destruct Hr as [Hb Hr].
    apply Forall_cons_1 in Hr. destruct Hr as [Hc Hr]. apply Forall_cons_1 in Hr. destruct Hr as [Hd Hr].
    destruct (IH l ltac:(lia) Hr) as [El Ew]. split; [cbn; rewrite El; reflexivity|]. constructor; [|exact Ew].
    repeat split; cbn; assumption || apply Ha || apply Hb || apply Hc || apply Hd.
Qed.

Lemma drawn_elements_ok seed : length seed = 8%nat -> Forall is_u32 seed -> elements_wf 12 (drawn_elements seed).
Proof.
  intros Hl Hs. apply ext4_chunks_ok; [rewrite length_map, length_draws by exact Hl; lia|].
  apply Forall_map. eapply Forall_impl; [apply draws_u32; eassumption|]. intros w Hw. cbn.
  rewrite from_nonreduced_spec by exact Hw. pose proof (Z.mod_pos_bound w ORDER ltac:(unfold ORDER; lia)). unfold repr. lia.
Qed.

Lemma elements_wf_take k n l : (k <= n)%nat -> elements_wf n l -> elements_wf k (take k l).
Proof. intros Hk [Hl Hw]. split; [rewrite length_take; lia | apply Forall_take, Hw]. Qed.
Lemma elements_wf_drop k n l : elements_wf n l -> elements_wf (n - k) (drop k l).
Proof. intros [Hl Hw]. split; [rewrite length_drop; lia | apply Forall_drop, Hw]. Qed.

Lemma draw_challenges_ok {H} `{LawfulHasher H} (slot : H) seed : h_wf slot -> length seed = 8%nat -> Forall is_u32 seed ->
  exists mem del h', draw_from_transcript_seed seed true slot = Ok {| memory_argument := mem; delegation_argument := Some del |} h' /\
    memory_challenges_wf mem /\ memory_challenge_values mem = map fabs (take 7 (drawn_elements seed)) /\
    delegation_challenges_wf del /\ delegation_challenge_values del = map fabs (take 4 (drop 7 (drawn_elements seed))).
Proof.
  intros Hw Hl Hs. unfold draw_from_transcript_seed. cbn [negb].
  destruct (draw_ok slot seed (replicate 48 0) 6 Hw Hl (length_replicate _ _)) as (h' & E & _); [lia | lia|].
  match goal with |- context [replicate ?n 0] => change n with 48%nat end.
  rewrite (bind_step _ _ _ _ _ E). fold (drawn_elements seed).
  pose proof (drawn_elements_ok seed Hl Hs) as [Le We]. remember (drawn_elements seed) as l eqn:El. clear El.
  do 12 (destruct l as [|? l]; [discriminate Le|]). destruct l; [|discriminate Le].
  do 12 (apply Forall_cons_1 in We; destruct We as [? We]). clear We.
  eexists _, _, _. split; [reflexivity|]. unfold memory_challenges_wf, delegation_challenges_wf, elements_wf.
  cbn [memory_argument_linearization_challenges memory_argument_gamma delegation_argument_linearization_challenges
       delegation_argument_gamma take drop].
  split_and!; try reflexivity; try assumption; repeat (apply Forall_cons_2; [assumption|]); apply Forall_nil_2.
Qed.

(** ** The registers in the memory argument *)
Section RegisterContribution.
Notation Q := (fv (F := Mersenne31Quartic)).
Add Ring contribution_ring : (fv_ring (F := Mersenne31Quartic)).

Definition vprod (l : list Q) : Q := foldr vmul vone l.

(** The terms of register [r] in the write set (value and timestamp zero) and in
    the read set, for the values [c] of the seven challenges. *)
Definition challenge (c : list Q) (i : nat) : Q := nth i c vzero.
Definition write_term (c : list Q) (r : Z) : Q :=
  vadd (vadd vone (vmul (challenge c 0) (base_value r))) (challenge c 6).
Definition read_term (c : list Q) (r : Z) (data : Z * (Z * Z)) : Q :=
  let '(value, (timestamp_low, timestamp_high)) := data in
  vadd (vadd (vadd (vadd (vadd (vadd vone (vmul (challenge c 0) (base_value r)))
    (vmul (challenge c 2) (base_value timestamp_low))) (vmul (challenge c 3) (base_value timestamp_high)))
    (vmul (challenge c 4) (base_value (value mod 2 ^ 16)))) (vmul (challenge c 5) (base_value (value / 2 ^ 16)))) (challenge c 6).

Definition write_set (c : list Q) : Q := vprod (map (write_term c) (rangeZ 0 32)).
Definition read_set (c : list Q) (registers : list (Z * (Z * Z))) : Q :=
  vprod (zip_with (read_term c) (rangeZ 0 (length registers)) registers).

(** Words whose timestamps the field can represent. *)
Definition register_in_range (data : Z * (Z * Z)) : Prop :=
  is_u32 (fst data) /\ repr (fst (snd data)) /\ repr (snd (snd data)).

(** The range matters: a word from [2^31] on is not multiplied in the field. *)
Lemma out_of_range_word : repr 1935800732 /\ is_u32 3510833555 /\
  mul_mod 1935800732 3510833555 mod ORDER <> (1935800732 * 3510833555) mod ORDER.
Proof. split_and!; [unfold repr, ORDER; lia | unfold is_u32; lia | vm_compute; discriminate]. Qed.

Lemma vmul_assoc (a b c : Q) : vmul a (vmul b c) = vmul (vmul a b) c.
Proof. ring. Qed.

Lemma vmul_1_l (a : Q) : vmul vone a = a.
Proof. ring. Qed.

Lemma vquot (w r i : Q) : vmul r i = vone -> vmul (vmul w i) r = w.
Proof. intros E. transitivity (vmul w (vmul r i)); [ring | rewrite E; ring]. Qed.

Lemma add_scaled_ok ch x acc c v : reps ch c -> repr x -> reps acc v ->
  reps (add_scaled ch x acc) (vadd v (vmul c (base_value x))).
Proof. intros [Wc <-] Wx Ha. apply reps_add; [exact Ha|]. apply mul_by_base_ok; assumption. Qed.

Lemma write_set_loop_ok al g c : reps al (challenge c 0) -> reps g (challenge c 6) -> forall count r acc v,
  0 <= r -> r + Z.of_nat count <= ORDER -> reps acc v ->
  reps (write_set_loop al g count r acc) (vmul v (vprod (map (write_term c) (rangeZ r count)))).
Proof.
  intros Hal Hg. induction count as [|count IH]; intros r acc v Hr Hb Hacc; cbn [write_set_loop rangeZ map vprod foldr].
  - replace (vmul v vone) with v by ring. exact Hacc.
  - assert (Er : u32 r = r) by (apply u32_small; unfold is_u32, ORDER in *; lia). rewrite Er.
    change (foldr vmul vone ?l) with (vprod l).
    rewrite vmul_assoc. apply IH; [lia | lia|].
    apply reps_mul; [exact Hacc|]. apply reps_add; [|exact Hg]. apply add_scaled_ok; [exact Hal | unfold repr; lia | apply reps_one].
Qed.

Lemma limbs_split v : is_u32 v -> split_u32_into_pair_u16 v = (v mod 2 ^ 16, v / 2 ^ 16) /\ repr (v mod 2 ^ 16) /\ repr (v / 2 ^ 16).
Proof.
  intros Hv. unfold is_u32 in Hv. unfold split_u32_into_pair_u16. rewrite Z.shiftr_div_pow2 by lia.
  change 0x0000ffff with (Z.ones 16). rewrite Z.land_ones by lia. split; [reflexivity|].
  pose proof (Z.mod_pos_bound v (2 ^ 16) ltac:(lia)). assert (v / 2 ^ 16 < 2 ^ 16) by (apply Z.div_lt_upper_bound; lia).
  assert (0 <= v / 2 ^ 16) by (apply Z.div_pos; lia). unfold repr, ORDER. lia.
Qed.

Lemma read_set_loop_ok al tl th vl vh g c : reps al (challenge c 0) -> reps tl (challenge c 2) -> reps th (challenge c 3) ->
  reps vl (challenge c 4) -> reps vh (challenge c 5) -> reps g (challenge c 6) -> forall data r acc v,
  Forall register_in_range data -> 0 <= r -> r + Z.of_nat (length data) <= ORDER -> reps acc v ->
  reps (read_set_loop al tl th vl vh g data r acc) (vmul v (vprod (zip_with (read_term c) (rangeZ r (length data)) data))).
Proof.
  intros Hal Htl Hth Hvl Hvh Hg. induction data as [|[value [lo hi]] data IH]; intros r acc v Hd Hr Hb Hacc;
    cbn [read_set_loop length rangeZ zip_with vprod foldr].
  - replace (vmul v vone) with v by ring. exact Hacc.
  - apply Forall_cons_1 in Hd. destruct Hd as [(Hv & Hlo & Hhi) Hd]. cbn [fst snd length] in *.
    destruct (limbs_split value Hv) as (-> & Rl & Rh).
    assert (Er : u32 r = r) by (apply u32_small; unfold is_u32, ORDER in *; lia). rewrite Er.
    change (foldr vmul vone ?l) with (vprod l).
    rewrite vmul_assoc. apply IH; [exact Hd | lia | lia|].
    apply reps_mul; [exact Hacc|]. apply reps_add; [|exact Hg]. unfold read_term.
    repeat (apply add_scaled_ok; [assumption | first [assumption | unfold repr; lia]|]). apply reps_one.
Qed.

Lemma write_contribution_ok al g c : reps al (challenge c 0) -> reps g (challenge c 6) ->
  reps (write_set_loop al g NUM_REGISTERS 0 ONE) (write_set c).
Proof.
  intros Hal Hg. unfold write_set. rewrite <- vmul_1_l. change 32%nat with NUM_REGISTERS.
  apply write_set_loop_ok; [exact Hal | exact Hg | lia | unfold NUM_REGISTERS, ORDER; lia | apply reps_one].
Qed.

(** The seven values are those of the challenges, in order. *)
Lemma challenge_ok c i x : memory_challenges_wf c ->
  (memory_argument_linearization_challenges c ++ [memory_argument_gamma c]) !! i = Some x ->
  reps x (challenge (memory_challenge_values c) i).
Proof.
  intros [[_ Hw] Hg] Hx. split.
  - apply (Forall_lookup_1 _ _ _ _ (Forall_app_2 _ _ _ Hw (Forall_cons_2 _ _ _ Hg (Forall_nil_2 _))) Hx).
  - symmetry. apply nth_lookup_Some. unfold memory_challenge_values.
    change [fabs (memory_argument_gamma c)] with (map fabs [memory_argument_gamma c]).
    rewrite <- map_app, list_lookup_fmap, Hx. reflexivity.
Qed.

Lemma set_quotient_ok (W R : Mersenne31Quartic) (vw vr : Q) : reps W vw -> reps R vr ->
  match set_quotient W R with
  | Some q => fwf q /\ vmul (fabs q) vr = vw /\ vr <> vzero
  | None => vr = vzero
  end.
Proof.
  intros [Ww <-] [Wr <-]. unfold set_quotient. pose proof (inverse_ok' R Wr) as Hi. destruct (inverse R) as [i|]; cbn [mbind option_bind]; [|exact Hi].
  destruct Hi as [Wi Vi]. destruct (mul_ok W i Ww Wi) as [Wm Vm]. split; [exact Wm|]. rewrite Vm. split; [apply vquot, Vi|].
  intros E. rewrite E in Vi. apply (fv_nontrivial (F := Mersenne31Quartic)). rewrite <- Vi. ring.
Qed.

#[local] Opaque set_quotient.

Lemma read_contribution_ok al tl th vl vh g c registers : reps al (challenge c 0) -> reps tl (challenge c 2) ->
  reps th (challenge c 3) -> reps vl (challenge c 4) -> reps vh (challenge c 5) -> reps g (challenge c 6) ->
  Forall register_in_range registers -> Z.of_nat (length registers) <= ORDER ->
  reps (read_set_loop al tl th vl vh g registers 0 ONE) (read_set c registers).
Proof.
  intros Hal Htl Hth Hvl Hvh Hg Hr Hb. unfold read_set. rewrite <- vmul_1_l.
  exact (read_set_loop_ok al tl th vl vh g c Hal Htl Hth Hvl Hvh Hg registers 0 ONE vone Hr (Z.le_refl 0) Hb reps_one).
Qed.

(** The contribution is the quotient of the write set by the read set. *)
Lemma register_contribution_ok c registers : memory_challenges_wf c -> Forall register_in_range registers ->
  Z.of_nat (length registers) <= ORDER ->
  match produce_register_contribution_into_memory_accumulator_raw registers
          (memory_argument_linearization_challenges c) (memory_argument_gamma c) with
  | Some r => fwf r /\ vmul (fabs r) (read_set (memory_challenge_values c) registers) = write_set (memory_challenge_values c) /\
              read_set (memory_challenge_values c) registers <> vzero
  | None => read_set (memory_challenge_values c) registers = vzero
  end.
Proof.
  intros Wc Hr Hb. pose proof (fun i x => challenge_ok c i x Wc) as Hch. pose proof (proj1 (proj1 Wc)) as Hl. clear Wc.
  generalize dependent (memory_challenge_values c). intros cv Hch.
  destruct c as [lin gamma]. cbn [memory_argument_linearization_challenges memory_argument_gamma] in *.
  destruct lin as [|al [|ah [|tl [|th [|vl [|vh [|]]]]]]]; try discriminate Hl.
  apply set_quotient_ok.
  - exact (write_contribution_ok al gamma cv (Hch 0%nat al eq_refl) (Hch 6%nat gamma eq_refl)).
  - exact (read_contribution_ok al tl th vl vh gamma cv registers (Hch 0%nat al eq_refl) (Hch 2%nat tl eq_refl)
      (Hch 3%nat th eq_refl) (Hch 4%nat vl eq_refl) (Hch 5%nat vh eq_refl) (Hch 6%nat gamma eq_refl) Hr Hb).
Qed.
End RegisterContribution.
