(* ===== verification/FullStatement.v ===== *)
(** * The verifier of a full statement

    [full_statement_verifier/src/lib.rs]: [verify_full_statement] checks that the
    proofs of a program's circuits belong together.  The verifiers of the
    circuits are function pointers there and arguments here; the delegation
    circuits' table is the function's argument too. *)
From stdpp Require Import base list strings.
From Stdlib Require Import ZArith Lia.
From S2P Require Import Prelude MachineInt Blake2s Hasher Transcript Field FieldExt FieldTraits Powers Ntt Fft Fri Deep Challenges.

Import Quartic (Mersenne31Quartic).

#[local] Opaque Nat.pow mixing_function Rfc.round.

(** ** Definitions *)

Definition CAP_SIZE : nat := 64.
Definition NUM_COSETS : nat := 2.

(** [TRACE_LEN] of the circuit of RISC-V cycles is [2^22]. *)
Definition MAX_BASE_LAYER_CIRCUITS : Z :=
  let max_unique_timestamps := Z.shiftl 1 (19 * Z.of_nat NUM_TIMESTAMP_COLUMNS_FOR_RAM) in
  let max_cycles := Z.shiftr max_unique_timestamps 2 in
  max_cycles / (2 ^ 22 - 1).
Definition MAX_RECURSION_LAYER_CIRCUITS : Z := MAX_BASE_LAYER_CIRCUITS.

(** The words the oracle still holds, and the two transcripts. *)
Record Env (H : Type) : Type := {
  source : list Z;
  transcript : Buffering.Blake2sBufferingTranscript H;
  result_hasher : Buffering.Blake2sBufferingTranscript H;
}.
Arguments source {H} _.
Arguments transcript {H} _.
Arguments result_hasher {H} _.
Arguments Build_Env {H} _ _ _.

Definition prog (H A : Type) : Type := comp Empty_set (Env H) A.

(** The type [VerifierFunctionPointer]: it reads the oracle and writes through
    both references. *)
Definition VerifierFunctionPointer : Type :=
  ProofOutput -> ProofPublicInputs -> comp Empty_set (list Z) (ProofOutput * ProofPublicInputs).

(** A row of the table of delegation circuits. *)
Record DelegationCircuit : Type := {
  dc_type : Z;
  dc_requests_per_circuit : Z;
  dc_setup_caps : list MerkleTreeCap;
  dc_verification_function : VerifierFunctionPointer;
}.

(** What the loop over the main circuits carries. *)
Record MainState : Type := {
  proof_output_0 : ProofOutput;
  proof_output_1 : ProofOutput;
  state_variables : ProofPublicInputs;
  expected_input_pc : Z;
  memory_accumulator : Mersenne31Quartic;
  delegation_set_accumulator : Mersenne31Quartic;
}.

(** What the loops over the delegation circuits carry. *)
Record DelegationState : Type := {
  delegation_proof_output : ProofOutput;
  delegation_state_variables : ProofPublicInputs;
  d_memory_accumulator : Mersenne31Quartic;
  d_delegation_set_accumulator : Mersenne31Quartic;
  total_delegation_requests : Z;
}.

Section Definitions.
Context {H : Type} `{Blake2sHasher H}.

Definition read_word : prog H Z := fun s =>
  match source s with
  | [] => Panic "next word from thread local source"
  | w :: rest => Ok w (Build_Env rest (transcript s) (result_hasher s))
  end.

Definition on_source {A} (m : comp Empty_set (list Z) A) : prog H A :=
  zoom source (fun o s => Build_Env o (transcript s) (result_hasher s)) m.
Definition on_transcript {A} (m : comp Empty_set (Buffering.Blake2sBufferingTranscript H) A) : prog H A :=
  zoom transcript (fun t s => Build_Env (source s) t (result_hasher s)) m.
Definition on_result_hasher {A} (m : comp Empty_set (Buffering.Blake2sBufferingTranscript H) A) : prog H A :=
  zoom result_hasher (fun t s => Build_Env (source s) (transcript s) t) m.

(** A computation with a hasher of its own, on the stack in [slot]. *)
Definition with_hasher {A} (slot : H) (m : hprog H A) : prog H A := fun s =>
  match m slot with Ok a _ => Ok a s | Trapped e _ => Trapped e s | Panic msg => Panic msg end.

(** Indexing a fixed-size array *)
Definition index {A} (l : list A) (i : nat) : prog H A :=
  match l !! i with Some x => ret x | None => panic "index out of bounds" end.

Fixpoint read_words (n : nat) : prog H (list Z) :=
  match n with
  | O => ret []
  | S n' => let! w := read_word in let! rest := read_words n' in ret (w :: rest)
  end.

(** [for reg_idx in 0..32]: value, low and high half of the timestamp *)
Fixpoint read_registers (n : nat) : prog H (list (Z * (Z * Z))) :=
  match n with
  | O => ret []
  | S n' =>
      let! value := read_word in
      let! timestamp_low := read_word in
      let! timestamp_high := read_word in
      let! rest := read_registers n' in
      ret ((value, (timestamp_low, timestamp_high)) :: rest)
  end.

(** The buffer of 96 words the triples are transmuted from *)
Definition registers_words (registers : list (Z * (Z * Z))) : list Z :=
  concat (map (fun '(value, (low, high)) => [value; low; high]) registers).
Definition register_value (registers : list (Z * (Z * Z))) (i : nat) : prog H Z :=
  index (registers_words registers) (i * 3).
Fixpoint register_values (registers : list (Z * (Z * Z))) (i n : nat) : prog H (list Z) :=
  match n with
  | O => ret []
  | S n' => let! v := register_value registers i in let! rest := register_values registers (S i) n' in ret (v :: rest)
  end.

Definition assert_zero (l : list Mersenne31Field) (i : nat) : prog H unit :=
  let! x := index l i in assert_or_panic (to_reduced_u32 x =? 0) "left == right".

Definition check_lazy_init (previous current : ProofOutput) : prog H unit :=
  let! prev := index (lazy_init_boundary_values previous) 0 in
  let! last_previous := parse_field_els_as_u32_from_u16_limbs_checked (lazy_init_one_before_last_row prev) in
  let! cur := index (lazy_init_boundary_values current) 0 in
  let! first_current := parse_field_els_as_u32_from_u16_limbs_checked (lazy_init_first_row cur) in
  if first_current >? last_previous then ret tt
  else
    assert_or_panic (last_previous =? 0) "last_previous == 0" ;;!
    assert_zero (teardown_value_one_before_last_row prev) 0 ;;!
    assert_zero (teardown_value_one_before_last_row prev) 1 ;;!
    assert_zero (teardown_timestamp_one_before_last_row prev) 0 ;;!
    assert_zero (teardown_timestamp_one_before_last_row prev) 1.

(** [assert_eq!] on the arrays of delegation challenges *)
Fixpoint delegation_arrays_eq (a b : list ExternalDelegationArgumentChallenges) : bool :=
  match a, b with
  | x :: a', y :: b' => delegation_challenges_eq x y && delegation_arrays_eq a' b'
  | [], [] => true
  | _, _ => false
  end.

Definition check_same_challenges (a b : ProofOutput) : prog H unit :=
  assert_or_panic (memory_challenges_eq (memory_challenges a) (memory_challenges b)) "memory challenges" ;;!
  assert_or_panic (delegation_arrays_eq (delegation_challenges a) (delegation_challenges b)) "delegation challenges".

(** The body of the loop over the main circuits. *)
Definition main_step (main_risc_v_circuit_verifier : VerifierFunctionPointer) (i : Z) (st : MainState) : prog H MainState :=
  let '(buffer, previous) :=
    if Z.land i 1 =? 0 then (proof_output_0 st, proof_output_1 st) else (proof_output_1 st, proof_output_0 st) in
  let! (current, state_variables) := on_source (main_risc_v_circuit_verifier buffer (state_variables st)) in
  assert_or_panic (circuit_sequence current =? i) "circuit_sequence" ;;!
  assert_or_panic (delegation_type current =? 0) "delegation_type" ;;!
  (if i =? 0 then on_transcript (Buffering.absorb (setup_caps_flattened current)) else ret tt) ;;!
  on_transcript (Buffering.absorb (memory_caps_flattened current)) ;;!
  (if i >? 0 then
     assert_or_panic (compare (setup_caps previous) (setup_caps current)) "setup caps" ;;!
     check_same_challenges previous current ;;!
     check_lazy_init previous current
   else ret tt) ;;!
  let! start_pc := parse_field_els_as_u32_from_u16_limbs_checked (input_state_variables state_variables) in
  assert_or_panic (start_pc =? expected_input_pc st) "start_pc == expected_input_pc" ;;!
  let! end_pc := parse_field_els_as_u32_from_u16_limbs_checked (output_state_variables state_variables) in
  let memory_accumulator := mul_assign (memory_accumulator st) (memory_grand_product_accumulator current) in
  let! delegation_accumulator := index (delegation_argument_accumulator current) 0 in
  ret {| proof_output_0 := if Z.land i 1 =? 0 then current else proof_output_0 st;
         proof_output_1 := if Z.land i 1 =? 0 then proof_output_1 st else current;
         state_variables := state_variables;
         expected_input_pc := end_pc;
         memory_accumulator := memory_accumulator;
         delegation_set_accumulator := add_assign (delegation_set_accumulator st) delegation_accumulator |}.

Fixpoint main_loop (verifier : VerifierFunctionPointer) (count : nat) (i : Z) (st : MainState) : prog H MainState :=
  match count with
  | O => ret st
  | S count' => let! st := main_step verifier i st in main_loop verifier count' (i + 1) st
  end.

(** The body of the loop over the circuits of one delegation type; [reference]
    is [proof_output_0] of the main circuits. *)
Definition delegation_step (circuit : DelegationCircuit) (reference : ProofOutput) (st : DelegationState)
    : prog H DelegationState :=
  let! (output, state_variables) :=
    on_source (dc_verification_function circuit (delegation_proof_output st) (delegation_state_variables st)) in
  assert_or_panic (circuit_sequence output =? 0) "circuit_sequence" ;;!
  assert_or_panic (delegation_type output =? dc_type circuit) "delegation_type" ;;!
  assert_or_panic (compare (setup_caps output) (dc_setup_caps circuit)) "setup caps" ;;!
  on_transcript (Buffering.absorb (memory_caps_flattened output)) ;;!
  check_same_challenges output reference ;;!
  let! delegation_accumulator := index (delegation_argument_accumulator output) 0 in
  ret {| delegation_proof_output := output;
         delegation_state_variables := state_variables;
         d_memory_accumulator := mul_assign (d_memory_accumulator st) (memory_grand_product_accumulator output);
         d_delegation_set_accumulator := sub_assign (d_delegation_set_accumulator st) delegation_accumulator;
         total_delegation_requests := u64 (total_delegation_requests st + dc_requests_per_circuit circuit) |}.

Fixpoint delegation_loop (circuit : DelegationCircuit) (reference : ProofOutput) (count : nat) (st : DelegationState)
    : prog H DelegationState :=
  match count with
  | O => ret st
  | S count' => let! st := delegation_step circuit reference st in delegation_loop circuit reference count' st
  end.

Definition assert_full_buffer : prog H unit :=
  let! t := gets transcript in
  assert_or_panic (Buffering.buffer_offset t =? BLAKE2S_BLOCK_SIZE_U32_WORDS)%nat "full buffer".

(** The loop over the delegation types. *)
Fixpoint delegations_loop (circuits : list DelegationCircuit) (reference : ProofOutput) (previous_delegation_type : Z)
    (st : DelegationState) : prog H DelegationState :=
  match circuits with
  | [] => ret st
  | circuit :: rest =>
      assert_or_panic (previous_delegation_type <? dc_type circuit) "delegation types are sorted" ;;!
      let! num_circuits := read_word in
      (if num_circuits >? 0
       then on_transcript (Buffering.absorb (dc_type circuit :: replicate (BLAKE2S_BLOCK_SIZE_U32_WORDS - 1) 0))
       else ret tt) ;;!
      let! st := delegation_loop circuit reference (Z.to_nat num_circuits) st in
      assert_full_buffer ;;!
      delegations_loop rest reference (dc_type circuit) st
  end.

Definition words_equal (a b : list Z) : bool := compare_words a b true.

(** The chain of programs: the base layer starts it, the recursion layers
    continue it unless the program is already its last link. *)
Definition continue_chain (BASE_LAYER : bool) (registers : list (Z * (Z * Z))) (output end_params_output : list Z)
    : prog H (list Z) :=
  if BASE_LAYER then
    let! values := register_values registers 18 8 in
    assert_or_panic (forallb (Z.eqb 0) values) "all_zeroes" ;;!
    on_result_hasher (Buffering.absorb (replicate 8 0 ++ end_params_output)) ;;!
    let! recursion_chain_output := on_result_hasher Buffering.finalize_reset in
    ret (output ++ recursion_chain_output)
  else
    let! aux_registers := register_values registers 18 8 in
    let! preimage := read_words (BLAKE2S_DIGEST_SIZE_U32_WORDS * 2) in
    on_result_hasher (Buffering.absorb preimage) ;;!
    let! preimage_hash := on_result_hasher Buffering.finalize_reset in
    assert_or_panic (words_equal preimage_hash aux_registers) "preimage" ;;!
    if words_equal (drop 8 preimage) end_params_output then ret (output ++ aux_registers)
    else
      on_result_hasher (Buffering.absorb (aux_registers ++ end_params_output)) ;;!
      let! new_output_registers := on_result_hasher Buffering.finalize_reset in
      ret (output ++ new_output_registers).

(** What follows the checks: the registers of the output and the chain. *)
Definition produce_output (BASE_LAYER : bool) (registers : list (Z * (Z * Z))) (reference : ProofOutput) (end_pc : Z)
    (result_slot : H) : prog H (list Z) :=
  let! output := register_values registers 10 8 in
  modify (fun s => Build_Env (source s) (transcript s) (Buffering.new result_slot)) ;;!
  on_result_hasher (Buffering.absorb [end_pc]) ;;!
  on_result_hasher (Buffering.absorb (setup_caps_flattened reference)) ;;!
  let! end_params_output := on_result_hasher Buffering.finalize_reset in
  continue_chain BASE_LAYER registers output end_params_output.

(** The checks after the loops: the number of requests, the challenges, and both
    arguments. *)
Definition check_arguments (registers : list (Z * (Z * Z))) (reference : ProofOutput) (d : DelegationState) (draw_slot : H)
    : prog H unit :=
  assert_or_panic (total_delegation_requests d <? ORDER) "total_delegation_requests < field size" ;;!
  let! memory_seed := on_transcript Buffering.finalize_reset in
  let! expected_challenges := with_hasher draw_slot (draw_from_transcript_seed memory_seed true) in
  assert_or_panic (memory_challenges_eq (memory_argument expected_challenges) (memory_challenges reference)) "memory challenges" ;;!
  let! delegation := match delegation_argument expected_challenges with Some c => ret c | None => panic UB end in
  let! own := index (delegation_challenges reference) 0 in
  assert_or_panic (delegation_challenges_eq delegation own) "delegation challenges" ;;!
  let! register_contribution :=
    match produce_register_contribution_into_memory_accumulator_raw registers
            (memory_argument_linearization_challenges (memory_challenges reference))
            (memory_argument_gamma (memory_challenges reference)) with
    | Some c => ret c
    | None => panic "called `Option::unwrap()` on a `None` value"
    end in
  assert_or_panic (feq (mul_assign (d_memory_accumulator d) register_contribution) ONE) "memory argument" ;;!
  assert_or_panic (feq (d_delegation_set_accumulator d) ZERO) "delegation argument".

(** [uninit_*] are the contents of uninitialised memory, the slots the stack
    memory hashers are built in. *)
Definition verify_full_statement (BASE_LAYER : bool) (main_risc_v_circuit_verifier : VerifierFunctionPointer)
    (delegation_circuits_verifiers : list DelegationCircuit) (uninit_output : ProofOutput)
    (uninit_inputs : ProofPublicInputs) (transcript_slot draw_slot result_slot : H) : prog H (list Z) :=
  modify (fun s => Build_Env (source s) (Buffering.new transcript_slot) (result_hasher s)) ;;!
  let! registers := read_registers 32 in
  let! x0 := register_value registers 0 in
  assert_or_panic (x0 =? 0) "x0 is always 0" ;;!
  on_transcript (Buffering.absorb (registers_words registers)) ;;!
  let! num_circuits := read_word in
  assert_or_panic (num_circuits >? 0) "num_circuits > 0" ;;!
  assert_or_panic (num_circuits <=? (if BASE_LAYER then u32 MAX_BASE_LAYER_CIRCUITS else u32 MAX_RECURSION_LAYER_CIRCUITS))
    "num_circuits is at most the maximum" ;;!
  let! st := main_loop main_risc_v_circuit_verifier (Z.to_nat num_circuits) 0
    {| proof_output_0 := uninit_output; proof_output_1 := uninit_output; state_variables := uninit_inputs;
       expected_input_pc := 0; memory_accumulator := ONE; delegation_set_accumulator := ZERO |} in
  assert_full_buffer ;;!
  let reference := proof_output_0 st in
  let! d := delegations_loop delegation_circuits_verifiers reference 0
    {| delegation_proof_output := uninit_output; delegation_state_variables := uninit_inputs;
       d_memory_accumulator := memory_accumulator st; d_delegation_set_accumulator := delegation_set_accumulator st;
       total_delegation_requests := 0 |} in
  check_arguments registers reference d draw_slot ;;!
  produce_output BASE_LAYER registers reference (expected_input_pc st) result_slot.
End Definitions.

(** *** The layers

    The verifiers of the circuits and the setups of the delegation circuits (a
    generated table with the types and capacities below) are parameters. *)
Section Layers.
Context {H : Type} `{Blake2sHasher H}.
Context (RISC_V_VERIFIER_PTR RISC_V_REDUCED_MACHINE_VERIFIER_PTR RISC_V_REDUCED_LOG_23_MACHINE_VERIFIER_PTR
         RISC_V_FINAL_REDUCED_MACHINE_VERIFIER_PTR BLAKE_WITH_COMPRESSION_VERIFIER_PTR BIGINT_WITH_CONTROL_VERIFIER_PTR
           : VerifierFunctionPointer)
        (blake_setup_caps bigint_setup_caps : list MerkleTreeCap)
        (uninit_output : ProofOutput) (uninit_inputs : ProofPublicInputs) (transcript_slot draw_slot result_slot : H).

Definition blake_circuit : DelegationCircuit :=
  {| dc_type := 1991; dc_requests_per_circuit := 1048576; dc_setup_caps := blake_setup_caps;
     dc_verification_function := BLAKE_WITH_COMPRESSION_VERIFIER_PTR |}.
Definition bigint_circuit : DelegationCircuit :=
  {| dc_type := 1994; dc_requests_per_circuit := 2097152; dc_setup_caps := bigint_setup_caps;
     dc_verification_function := BIGINT_WITH_CONTROL_VERIFIER_PTR |}.

Definition BASE_LAYER_DELEGATION_CIRCUITS_VERIFICATION_PARAMETERS : list DelegationCircuit := [blake_circuit; bigint_circuit].
Definition RECURSION_LAYER_CIRCUITS_VERIFICATION_PARAMETERS : list DelegationCircuit := [blake_circuit].
Definition FINAL_RECURSION_LAYER_CIRCUITS_VERIFICATION_PARAMETERS : list DelegationCircuit := [].

Definition verify_layer (BASE_LAYER : bool) (main : VerifierFunctionPointer) (table : list DelegationCircuit) : prog H (list Z) :=
  verify_full_statement BASE_LAYER main table uninit_output uninit_inputs transcript_slot draw_slot result_slot.
Definition verify_base_layer : prog H (list Z) :=
  verify_layer true RISC_V_VERIFIER_PTR BASE_LAYER_DELEGATION_CIRCUITS_VERIFICATION_PARAMETERS.
Definition verify_recursion_layer : prog H (list Z) :=
  verify_layer false RISC_V_REDUCED_MACHINE_VERIFIER_PTR RECURSION_LAYER_CIRCUITS_VERIFICATION_PARAMETERS.
Definition verify_recursion_log_23_layer : prog H (list Z) :=
  verify_layer false RISC_V_REDUCED_LOG_23_MACHINE_VERIFIER_PTR RECURSION_LAYER_CIRCUITS_VERIFICATION_PARAMETERS.
Definition verify_final_recursion_layer : prog H (list Z) :=
  verify_layer false RISC_V_FINAL_REDUCED_MACHINE_VERIFIER_PTR FINAL_RECURSION_LAYER_CIRCUITS_VERIFICATION_PARAMETERS.
End Layers.

(** ** What a statement says *)

(** Structures as the verifiers of circuits return them: [aux] boundary values
    and [state] state elements. *)
Definition output_wf (aux : nat) (o : ProofOutput) : Prop :=
  caps_wf CAP_SIZE NUM_COSETS (setup_caps o) /\ caps_wf CAP_SIZE NUM_COSETS (memory_caps o) /\
  memory_challenges_wf (memory_challenges o) /\
  (length (delegation_challenges o) = 1%nat /\ Forall delegation_challenges_wf (delegation_challenges o)) /\
  (length (lazy_init_boundary_values o) = aux /\ Forall boundary_values_wf (lazy_init_boundary_values o)) /\
  fwf (memory_grand_product_accumulator o) /\ elements_wf 1 (delegation_argument_accumulator o).
Definition inputs_wf (state : nat) (p : ProofPublicInputs) : Prop :=
  (length (input_state_variables p) = state /\ Forall repr (input_state_variables p)) /\
  (length (output_state_variables p) = state /\ Forall repr (output_state_variables p)).

(** What is assumed of the verifier of a circuit: it writes both structures
    whatever they held, in full and with field elements, and only takes words
    from the front of the oracle. *)
Record circuit_verifier_ok (aux state : nat) (v : VerifierFunctionPointer) : Prop := {
  cv_overwrites : forall b p b' p' o, v b p o = v b' p' o;
  cv_wf : forall b p o out pub o', v b p o = Ok (out, pub) o' -> output_wf aux out /\ inputs_wf state pub;
  cv_consumes : forall b p o r o', v b p o = Ok r o' -> exists used, o = used ++ o';
}.

Lemma single_accumulator n o : output_wf n o -> exists d, delegation_argument_accumulator o = [d].
Proof.
  intros (_ & _ & _ & _ & _ & _ & [Hl _]). destruct (delegation_argument_accumulator o) as [|d [|]]; try discriminate. eauto.
Qed.

(** Successive calls of a verifier turn the oracle [o] into [o']. *)
Fixpoint calls (v : VerifierFunctionPointer) (o : list Z) (l : list (ProofOutput * ProofPublicInputs)) (o' : list Z) : Prop :=
  match l with
  | [] => o' = o
  | r :: rest => exists b p o1, v b p o = Ok r o1 /\ calls v o1 rest o'
  end.

Definition same_challenges (a b : ProofOutput) : Prop :=
  memory_challenge_values (memory_challenges a) = memory_challenge_values (memory_challenges b) /\
  map delegation_challenge_values (delegation_challenges a) = map delegation_challenge_values (delegation_challenges b).

(** The addresses a circuit initialises start above the last one of its
    predecessor, unless the predecessor ends in padding and it starts with it. *)
Definition lazy_inits_ordered (a b : ProofOutput) : Prop :=
  exists va vb last first, lazy_init_boundary_values a = [va] /\ lazy_init_boundary_values b = [vb] /\
    limbs_value (lazy_init_one_before_last_row va) last /\ limbs_value (lazy_init_first_row vb) first /\
    (last < first \/
     last = 0 /\ first = 0 /\ map to_reduced_u32 (teardown_value_one_before_last_row va) = [0; 0] /\
     map to_reduced_u32 (teardown_timestamp_one_before_last_row va) = [0; 0]).

Definition linked (a b : ProofOutput) : Prop :=
  setup_caps a = setup_caps b /\ same_challenges a b /\ lazy_inits_ordered a b.

(** The circuits are numbered from [i], continue [previous], and take the
    machine from [pc] to [end_pc]. *)
Fixpoint circuit_chain (i : Z) (previous : option ProofOutput) (pc : Z) (circuits : list (ProofOutput * ProofPublicInputs))
    (end_pc : Z) : Prop :=
  match circuits with
  | [] => end_pc = pc
  | (current, inputs) :: rest =>
      circuit_sequence current = i /\ delegation_type current = 0 /\
      match previous with Some p => linked p current | None => True end /\
      limbs_value (input_state_variables inputs) pc /\
      exists pc', limbs_value (output_state_variables inputs) pc' /\ circuit_chain (i + 1) (Some current) pc' rest end_pc
  end.

(** ** Single steps *)
Section Steps.
Context {H : Type} `{LawfulHasher H}.

Lemma zoom_then {S T A B} (get : T -> S) put (m : comp Empty_set S A) (k : A -> comp Empty_set T B) t r t' :
  bind (zoom get put m) k t = Ok r t' <-> exists a s', m (get t) = Ok a s' /\ k a (put s' t) = Ok r t'.
Proof.
  unfold bind, zoom. destruct (m (get t)) as [a s'| |]; split; intros E; try discriminate; eauto;
    destruct E as (? & ? & E1 & E2); try discriminate. injection E1 as <- <-. exact E2.
Qed.

Lemma on_source_then {A B} (m : comp Empty_set (list Z) A) (k : A -> prog H B) s r s' :
  bind (on_source m) k s = Ok r s' <->
  exists a o', m (source s) = Ok a o' /\ k a (Build_Env o' (transcript s) (result_hasher s)) = Ok r s'.
Proof. exact (zoom_then source (fun o s => Build_Env o (transcript s) (result_hasher s)) m k s r s'). Qed.

Lemma on_transcript_then {A B} (m : comp Empty_set _ A) (k : A -> prog H B) s r s' :
  bind (on_transcript m) k s = Ok r s' <->
  exists a t', m (transcript s) = Ok a t' /\ k a (Build_Env (source s) t' (result_hasher s)) = Ok r s'.
Proof. exact (zoom_then transcript (fun t s => Build_Env (source s) t (result_hasher s)) m k s r s'). Qed.

Lemma index_observes {A} (l : list A) i : observes (index (H := H) l i) (fun x => l !! i = Some x).
Proof.
  unfold index. destruct (l !! i) as [x|].
  - eapply observes_iff; [apply observes_ret|]. intros a. split; congruence.
  - eapply observes_iff; [apply observes_panic|]. intros a. split; [easy | discriminate].
Qed.

Lemma assert_zero_observes l i : observes (assert_zero (H := H) l i) (fun _ => to_reduced_u32 <$> l !! i = Some 0).
Proof.
  eapply observes_iff; [apply (observes_bind _ _ (fun x => l !! i = Some x) (fun x _ => to_reduced_u32 x =? 0 = true));
    [apply index_observes | intros x _; apply observes_assert]|].
  intros []. destruct (l !! i) as [x|]; cbn; split.
  - intros (? & [= <-] & E). apply Z.eqb_eq in E. congruence.
  - intros [= E]. exists x. rewrite Z.eqb_eq. auto.
  - intros (? & [=] & _).
  - discriminate.
Qed.

(** Checks in sequence. *)
Lemma checks_observe (m k : prog H unit) P Q : observes m (fun _ => P) -> observes k (fun _ => Q) ->
  observes (m ;;! k) (fun _ => P /\ Q).
Proof.
  intros Hm Hk. eapply observes_iff; [apply (observes_bind _ _ (fun _ => P) (fun _ _ => Q)); [exact Hm | intros; exact Hk]|].
  intros []. cbn. split; [intros ([] & ? & ?); auto | intros [? ?]; exists tt; auto].
Qed.

Lemma delegation_arrays_eq_iff a : forall b, Forall delegation_challenges_wf a -> Forall delegation_challenges_wf b ->
  delegation_arrays_eq a b = true <-> map delegation_challenge_values a = map delegation_challenge_values b.
Proof.
  induction a as [|x a IH]; intros [|y b] Wa Wb; cbn [delegation_arrays_eq map]; [tauto | easy | easy |].
  apply Forall_cons_1 in Wa, Wb. destruct Wa as [Wx Wa], Wb as [Wy Wb].
  rewrite andb_true_iff, delegation_challenges_eq_iff, IH by assumption.
  split; [intros [E1 E2]; f_equal; assumption|].
  intros E. split; [exact (f_equal (hd (delegation_challenge_values x)) E) | exact (f_equal (@tl _) E)].
Qed.

Lemma same_challenges_observes na nb a b : output_wf na a -> output_wf nb b ->
  observes (check_same_challenges (H := H) a b) (fun _ => same_challenges a b).
Proof.
  intros (_ & _ & Ma & [_ Da] & _) (_ & _ & Mb & [_ Db] & _). unfold check_same_challenges, same_challenges.
  apply checks_observe; (eapply observes_iff; [apply observes_assert|]); intros [].
  - apply memory_challenges_eq_iff; assumption.
  - apply delegation_arrays_eq_iff; assumption.
Qed.

Lemma limbs_zero l : limbs_wf l -> (to_reduced_u32 <$> l !! 0%nat = Some 0 /\ to_reduced_u32 <$> l !! 1%nat = Some 0) <->
  map to_reduced_u32 l = [0; 0].
Proof.
  intros [Hl _]. destruct l as [|x [|y [|]]]; try discriminate. cbn. split; [intros [[= ->] [= ->]]; reflexivity|].
  intros [= -> ->]. auto.
Qed.

Lemma lazy_init_observes a b : output_wf 1 a -> output_wf 1 b ->
  observes (check_lazy_init (H := H) a b) (fun _ => lazy_inits_ordered a b).
Proof.
  intros (_ & _ & _ & _ & [La Wa] & _) (_ & _ & _ & _ & [Lb Wb] & _). unfold check_lazy_init, lazy_inits_ordered.
  destruct (lazy_init_boundary_values a) as [|va [|]]; try discriminate. destruct (lazy_init_boundary_values b) as [|vb [|]]; try discriminate.
  apply Forall_cons_1 in Wa, Wb. destruct Wa as [(_ & _ & _ & Wlast & Wtv & Wtt) _], Wb as [(Wfirst & _) _].
  intros s [] s'. rewrite (observes_then _ _ _ s tt s' (index_observes [va] 0)). cbn [lookup list_lookup].
  split.
  - intros (v & [= <-] & E). rewrite (observes_then _ _ _ s tt s' (parse_observes _ Wlast)) in E. destruct E as (last & Hlast & E).
    rewrite (observes_then _ _ _ s tt s' (index_observes [vb] 0)) in E. destruct E as (v & [= <-] & E).
    rewrite (observes_then _ _ _ s tt s' (parse_observes _ Wfirst)) in E. destruct E as (first & Hfirst & E).
    destruct (Z.gtb_spec first last) as [Hgt|Hle].
    + apply observes_ret in E. destruct E as [_ ->]. split; [|reflexivity]. exists va, vb, last, first.
      do 4 (split; [auto|]). left. lia.
    + rewrite assert_then in E. destruct E as [E0 E]. apply Z.eqb_eq in E0.
      apply (checks_observe _ _ _ _ (assert_zero_observes _ _) (checks_observe _ _ _ _ (assert_zero_observes _ _)
        (checks_observe _ _ _ _ (assert_zero_observes _ _) (assert_zero_observes _ _)))) in E.
      destruct E as [(Z0 & Z1 & Z2 & Z3) ->]. split; [|reflexivity]. exists va, vb, last, first.
      assert (first = 0) by (destruct Hfirst as [Hf _]; unfold is_u32 in Hf; lia).
      do 4 (split; [auto|]). right. do 2 (split; [assumption|]). split; apply limbs_zero; auto.
  - intros [(va' & vb' & last & first & [= <-] & [= <-] & Hlast & Hfirst & Hor) ->]. exists va. split; [reflexivity|].
    rewrite (observes_then _ _ _ s tt s (parse_observes _ Wlast)). exists last. split; [exact Hlast|].
    rewrite (observes_then _ _ _ s tt s (index_observes [vb] 0)). exists vb. split; [reflexivity|].
    rewrite (observes_then _ _ _ s tt s (parse_observes _ Wfirst)). exists first. split; [exact Hfirst|].
    destruct (Z.gtb_spec first last) as [Hgt|Hle]; [reflexivity|]. destruct Hor as [?|(-> & -> & Hv & Ht)]; [lia|].
    rewrite assert_then. split; [reflexivity|]. apply limbs_zero in Hv, Ht; try assumption.
    apply (checks_observe _ _ _ _ (assert_zero_observes _ _) (checks_observe _ _ _ _ (assert_zero_observes _ _)
        (checks_observe _ _ _ _ (assert_zero_observes _ _) (assert_zero_observes _ _)))). tauto.
Qed.
End Steps.

(** ** The main circuits *)
Section MainCircuits.
Context {H : Type} `{LawfulHasher H} (v : VerifierFunctionPointer) (Hv : circuit_verifier_ok 1 2 v).
Notation Q := (fv (F := Mersenne31Quartic)).

Definition even_step (i : Z) : bool := Z.land i 1 =? 0.
Definition this_buffer (i : Z) (st : MainState) : ProofOutput := if even_step i then proof_output_0 st else proof_output_1 st.
Definition previous_output (i : Z) (st : MainState) : ProofOutput := if even_step i then proof_output_1 st else proof_output_0 st.

Definition next_state (i : Z) (st : MainState) (cur : ProofOutput) (pub : ProofPublicInputs) (pc : Z) (d : Mersenne31Quartic)
    : MainState :=
  {| proof_output_0 := if even_step i then cur else proof_output_0 st;
     proof_output_1 := if even_step i then proof_output_1 st else cur;
     state_variables := pub; expected_input_pc := pc;
     memory_accumulator := mul_assign (memory_accumulator st) (memory_grand_product_accumulator cur);
     delegation_set_accumulator := add_assign (delegation_set_accumulator st) d |}.

(** What the transcript absorbs for a circuit. *)
Definition circuit_ops (i : Z) (cur : ProofOutput) : list transcript_op :=
  (if i =? 0 then [Absorb (setup_caps_flattened cur)] else []) ++ [Absorb (memory_caps_flattened cur)].

Lemma absorb_caps_then {B} i cur (k : prog H B) s r s' :
  ((if i =? 0 then on_transcript (Buffering.absorb (setup_caps_flattened cur)) else ret tt) ;;!
   on_transcript (Buffering.absorb (memory_caps_flattened cur)) ;;! k) s = Ok r s' <->
  exists t', run_ops (circuit_ops i cur) (transcript s) = Ok tt t' /\ k (Build_Env (source s) t' (result_hasher s)) = Ok r s'.
Proof.
  unfold circuit_ops. destruct (i =? 0); cbn [app run_ops].
  - rewrite on_transcript_then. split.
    + intros ([] & t1 & E1 & E). rewrite on_transcript_then in E. destruct E as ([] & t2 & E2 & E). exists t2.
      rewrite (bind_step _ _ _ _ _ E1). cbn [transcript source result_hasher] in *. rewrite (bind_step _ _ _ _ _ E2). auto.
    + intros (t2 & E1 & E). apply bind_ok in E1. destruct E1 as ([] & t1 & E1 & E2). exists tt, t1. split; [exact E1|].
      apply bind_ok in E2. destruct E2 as ([] & t3 & E2 & [= ->]). rewrite on_transcript_then. exists tt, t2. auto.
  - rewrite bind_ret_l, on_transcript_then. split.
    + intros ([] & t1 & E1 & E). exists t1. rewrite (bind_step _ _ _ _ _ E1). auto.
    + intros (t1 & E1 & E). apply bind_ok in E1. destruct E1 as ([] & t3 & E2 & [= ->]). exists tt, t1. auto.
Qed.

Lemma continuity_observes i prev cur : (0 < i -> output_wf 1 prev) -> output_wf 1 cur ->
  observes (if i >? 0 then
     assert_or_panic (compare (setup_caps prev) (setup_caps cur)) "setup caps" ;;!
     check_same_challenges prev cur ;;!
     check_lazy_init prev cur
   else ret tt : prog H unit) (fun _ => 0 < i -> linked prev cur).
Proof.
  intros Wp Wc. destruct (Z.gtb_spec i 0) as [Hi|Hi].
  - specialize (Wp Hi). eapply observes_iff.
    + apply checks_observe; [apply observes_assert|].
      apply checks_observe; [apply (same_challenges_observes 1 1); assumption | apply lazy_init_observes; assumption].
    + intros []. cbn. rewrite (compare_iff CAP_SIZE NUM_COSETS) by (apply Wp || apply Wc). unfold linked. tauto.
  - eapply observes_iff; [apply observes_ret|]. intros []. split; [lia | reflexivity].
Qed.

Lemma main_step_iff i st s st' s' : 0 <= i -> (0 < i -> output_wf 1 (previous_output i st)) ->
  main_step v i st s = Ok st' s' <->
  exists cur pub o' t' pc d, v (this_buffer i st) (state_variables st) (source s) = Ok (cur, pub) o' /\
    circuit_sequence cur = i /\ delegation_type cur = 0 /\ (0 < i -> linked (previous_output i st) cur) /\
    limbs_value (input_state_variables pub) (expected_input_pc st) /\ limbs_value (output_state_variables pub) pc /\
    delegation_argument_accumulator cur = [d] /\ run_ops (circuit_ops i cur) (transcript s) = Ok tt t' /\
    st' = next_state i st cur pub pc d /\ s' = Build_Env o' t' (result_hasher s).
Proof.
  intros Hi Wp. unfold main_step.
  assert (Eb : (if Z.land i 1 =? 0 then (proof_output_0 st, proof_output_1 st) else (proof_output_1 st, proof_output_0 st))
               = (this_buffer i st, previous_output i st)).
  { unfold this_buffer, previous_output, even_step. destruct (Z.land i 1 =? 0); reflexivity. }
  rewrite Eb. rewrite on_source_then. split.
  - intros ([cur pub] & o' & E & Ek). destruct (cv_wf _ _ _ Hv _ _ _ _ _ _ E) as [Wc [Wi Wo]].
    rewrite !assert_then in Ek. destruct Ek as (Es & Et & Ek). apply Z.eqb_eq in Es, Et. rewrite absorb_caps_then in Ek.
    destruct Ek as (t' & Eops & Ek). cbn [source transcript result_hasher] in *.
    rewrite (observes_then _ _ _ _ _ _ (continuity_observes i _ cur Wp Wc)) in Ek. destruct Ek as ([] & Hl & Ek).
    rewrite (observes_then _ _ _ _ _ _ (parse_observes _ Wi)) in Ek. destruct Ek as (pc0 & Hpc0 & Ek).
    rewrite assert_then in Ek. destruct Ek as [Epc Ek]. apply Z.eqb_eq in Epc. subst pc0.
    rewrite (observes_then _ _ _ _ _ _ (parse_observes _ Wo)) in Ek. destruct Ek as (pc & Hpc & Ek).
    rewrite (observes_then _ _ _ _ _ _ (index_observes _ 0)) in Ek. destruct Ek as (d & Hd & Ek).
    apply observes_ret in Ek. destruct Ek as [-> ->]. destruct (single_accumulator _ _ Wc) as [d' Ed]. rewrite Ed in Hd. injection Hd as ->.
    exists cur, pub, o', t', pc, d. unfold next_state, even_step. split_and!; auto.
  - intros (cur & pub & o' & t' & pc & d & E & Es & Et & Hl & Hpc0 & Hpc & Hd & Eops & -> & ->).
    destruct (cv_wf _ _ _ Hv _ _ _ _ _ _ E) as [Wc [Wi Wo]]. exists (cur, pub), o'. split; [exact E|].
    rewrite !assert_then. rewrite !Z.eqb_eq. do 2 (split; [assumption|]). rewrite absorb_caps_then. exists t'. split; [exact Eops|].
    rewrite (observes_then _ _ _ _ _ _ (continuity_observes i _ cur Wp Wc)). exists tt. split; [exact Hl|].
    rewrite (observes_then _ _ _ _ _ _ (parse_observes _ Wi)). exists (expected_input_pc st). split; [exact Hpc0|].
    rewrite assert_then, Z.eqb_eq. split; [reflexivity|].
    rewrite (observes_then _ _ _ _ _ _ (parse_observes _ Wo)). exists pc. split; [exact Hpc|].
    rewrite (observes_then _ _ _ _ _ _ (index_observes _ 0)). exists d. rewrite Hd. split; reflexivity.
Qed.

Lemma even_step_next i : even_step (i + 1) = negb (even_step i).
Proof.
  unfold even_step. change 1 with (Z.ones 1) at 2 3. rewrite !Z.land_ones by lia. change (2 ^ 1) with 2.
  rewrite Z.add_mod by lia. destruct (Z.mod_pos_bound i 2 ltac:(lia)). assert (i mod 2 = 0 \/ i mod 2 = 1) as [-> | ->] by lia; reflexivity.
Qed.

Definition memory_value (c : ProofOutput * ProofPublicInputs) : Q := fabs (memory_grand_product_accumulator (fst c)).
Definition delegation_value (c : ProofOutput * ProofPublicInputs) : Q := fabs (hd ZERO (delegation_argument_accumulator (fst c))).
Definition vsuml (l : list Q) : Q := foldr vadd vzero l.

(** The loop's state after the circuits [done]. *)
Definition tracks (i : Z) (done : list (ProofOutput * ProofPublicInputs)) (st : MainState) : Prop :=
  i = Z.of_nat (length done) /\ Forall (fun c => output_wf 1 (fst c)) done /\
  reps (memory_accumulator st) (vprod (map memory_value done)) /\
  reps (delegation_set_accumulator st) (vsuml (map delegation_value done)) /\
  (forall c, last done = Some c -> previous_output i st = fst c /\ In (proof_output_0 st) (map fst done)).

Add Ring main_ring : (fv_ring (F := Mersenne31Quartic)).

Lemma vprod_snoc l x : vprod (l ++ [x]) = vmul (vprod l) x.
Proof. induction l as [|y l IH]; unfold vprod in *; cbn [app foldr]; [ring | rewrite IH; ring]. Qed.
Lemma vsuml_snoc l x : vsuml (l ++ [x]) = vadd (vsuml l) x.
Proof. induction l as [|y l IH]; unfold vsuml in *; cbn [app foldr]; [ring | rewrite IH; ring]. Qed.

Lemma tracks_wf i done st : tracks i done st -> 0 < i -> output_wf 1 (previous_output i st).
Proof.
  intros (Hi & Hw & _ & _ & Hlast) Hpos. destruct (last done) as [c|] eqn:El.
  - destruct (Hlast c eq_refl) as [-> _]. apply (Forall_lookup_1 _ _ _ _ Hw (eq_trans (eq_sym (last_lookup done)) El)).
  - apply last_None in El. subst done. cbn in Hi. lia.
Qed.

Lemma tracks_linked i done st cur : tracks i done st ->
  (0 < i -> linked (previous_output i st) cur) <-> match fst <$> last done with Some p => linked p cur | None => True end.
Proof.
  intros (Hi & _ & _ & _ & Hlast). destruct (last done) as [c|] eqn:El; cbn.
  - destruct (Hlast c eq_refl) as [-> _]. split; [|auto]. intros G. apply G.
    destruct done; [discriminate | cbn in Hi; lia].
  - apply last_None in El. subst done. cbn in Hi. split; [auto | lia].
Qed.

Lemma tracks_next i done st cur pub pc d : tracks i done st -> output_wf 1 cur -> delegation_argument_accumulator cur = [d] ->
  tracks (i + 1) (done ++ [(cur, pub)]) (next_state i st cur pub pc d).
Proof.
  intros (Hi & Hw & Hm & Hd & Hlast) Wc Ed. unfold tracks. rewrite length_app, !map_app. cbn [length map]. rewrite vprod_snoc, vsuml_snoc.
  split; [lia|]. split; [apply Forall_app; split; [exact Hw | constructor; [exact Wc | constructor]]|].
  pose proof Wc as (_ & _ & _ & _ & _ & Wm & [_ Wd]). rewrite Ed in Wd. apply Forall_cons_1 in Wd. destruct Wd as [Wd _].
  split; [apply reps_mul; [exact Hm | split; [exact Wm | reflexivity]]|].
  split; [apply reps_add; [exact Hd | split; [exact Wd | unfold delegation_value; cbn [fst]; rewrite Ed; reflexivity]]|].
  intros c. rewrite last_snoc. intros [= <-]. unfold previous_output, next_state. rewrite even_step_next. cbn [fst map proof_output_0 proof_output_1].
  destruct (even_step i) eqn:Ee; cbn [negb]; (split; [reflexivity|]); apply in_app_iff; [right; left; reflexivity|].
  left. destruct (last done) as [c|] eqn:El; [apply (Hlast c eq_refl)|]. apply last_None in El. subst done. cbn in Hi. subst i. discriminate Ee.
Qed.

(** What the transcript absorbs for all circuits. *)
Fixpoint circuits_ops (i : Z) (l : list (ProofOutput * ProofPublicInputs)) : list transcript_op :=
  match l with [] => [] | c :: rest => circuit_ops i (fst c) ++ circuits_ops (i + 1) rest end.

Lemma run_ops_app ops1 ops2 (t t' : Buffering.Blake2sBufferingTranscript H) :
  run_ops (ops1 ++ ops2) t = Ok tt t' <-> exists t1, run_ops ops1 t = Ok tt t1 /\ run_ops ops2 t1 = Ok tt t'.
Proof.
  revert t. induction ops1 as [|op ops1 IH]; intros t; cbn [app run_ops].
  - unfold ret. split; [intros E; exists t; auto | intros (? & [= ->] & E); exact E].
  - destruct op; (split; [intros E; apply bind_ok in E; destruct E as ([] & t1 & E1 & E); apply IH in E;
      destruct E as (t2 & E2 & E); exists t2; rewrite (bind_step _ _ _ _ _ E1); auto
    | intros (t2 & E1 & E); apply bind_ok in E1; destruct E1 as ([] & t1 & E1 & E2); rewrite (bind_step _ _ _ _ _ E1);
      apply IH; eauto]).
Qed.

Lemma main_loop_inv count : forall i st s st' s' done, tracks i done st -> main_loop v count i st s = Ok st' s' ->
  exists l o' t', length l = count /\ calls v (source s) l o' /\
    circuit_chain i (fst <$> last done) (expected_input_pc st) l (expected_input_pc st') /\
    run_ops (circuits_ops i l) (transcript s) = Ok tt t' /\ s' = Build_Env o' t' (result_hasher s) /\
    tracks (i + Z.of_nat count) (done ++ l) st'.
Proof.
  induction count as [|count IH]; intros i st s st' s' done Ht E; cbn [main_loop] in E.
  - apply observes_ret in E. destruct E as [-> ->]. exists [], (source s), (transcript s). rewrite app_nil_r, Z.add_0_r.
    destruct s; cbn. split_and!; auto.
  - apply bind_ok in E. destruct E as (st1 & s1 & E1 & E). assert (Hi : 0 <= i) by (destruct Ht as [-> _]; lia).
    rewrite (main_step_iff i st s st1 s1 Hi (tracks_wf _ _ _ Ht)) in E1.
    destruct E1 as (cur & pub & o1 & t1 & pc & d & Ev & Es & Et & Hl & Hpc & Hpc' & Hd & Eops & -> & ->).
    destruct (cv_wf _ _ _ Hv _ _ _ _ _ _ Ev) as [Wc _]. apply (tracks_linked _ _ _ _ Ht) in Hl.
    destruct (IH _ _ _ _ _ _ (tracks_next i done st cur pub pc d Ht Wc Hd) E) as (l & o' & t' & Hlen & Hcalls & Hchain & Hops & -> & Htr).
    cbn [source transcript result_hasher] in *. exists ((cur, pub) :: l), o', t'. rewrite last_snoc in Hchain. cbn [fmap option_fmap option_map fst] in Hchain.
    split; [cbn; lia|]. split; [cbn; eauto|]. split; [cbn [circuit_chain]; split_and!; auto; exists pc; auto|].
    split; [cbn [circuits_ops fst]; apply run_ops_app; eauto|]. split; [reflexivity|].
    rewrite <- app_assoc in Htr. replace (i + Z.of_nat (S count)) with (i + 1 + Z.of_nat count) by lia. exact Htr.
Qed.

Lemma main_loop_run l : forall i st s o' t' done end_pc, tracks i done st -> calls v (source s) l o' ->
  circuit_chain i (fst <$> last done) (expected_input_pc st) l end_pc -> run_ops (circuits_ops i l) (transcript s) = Ok tt t' ->
  exists st', main_loop v (length l) i st s = Ok st' (Build_Env o' t' (result_hasher s)) /\
    expected_input_pc st' = end_pc /\ tracks (i + Z.of_nat (length l)) (done ++ l) st'.
Proof.
  induction l as [|[cur pub] l IH]; intros i st s o' t' done end_pc Ht Hcalls Hchain Hops.
  - cbn in *. exists st. injection Hops as <-. subst. rewrite app_nil_r, Z.add_0_r. destruct s; auto.
  - cbn [calls circuit_chain circuits_ops fst length main_loop] in *. destruct Hcalls as (b & p & o1 & Ev & Hcalls).
    destruct Hchain as (Es & Et & Hl & Hpc & pc & Hpc' & Hchain). apply run_ops_app in Hops. destruct Hops as (t1 & Ho1 & Hops).
    rewrite (cv_overwrites _ _ _ Hv _ _ (this_buffer i st) (state_variables st)) in Ev.
    destruct (cv_wf _ _ _ Hv _ _ _ _ _ _ Ev) as [Wc _]. destruct (single_accumulator _ _ Wc) as [d Hd]. assert (Hi : 0 <= i) by (destruct Ht as [-> _]; lia).
    assert (E1 : main_step v i st s = Ok (next_state i st cur pub pc d) (Build_Env o1 t1 (result_hasher s))).
    { apply (main_step_iff i st s _ _ Hi (tracks_wf _ _ _ Ht)). exists cur, pub, o1, t1, pc, d.
      rewrite (tracks_linked _ _ _ _ Ht). split_and!; auto. }
    rewrite (bind_step _ _ _ _ _ E1).
    destruct (IH (i + 1) (next_state i st cur pub pc d) (Build_Env o1 t1 (result_hasher s)) o' t' (done ++ [(cur, pub)]) end_pc)
      as (st' & E & Hend & Htr); [apply tracks_next; assumption | exact Hcalls | rewrite last_snoc; exact Hchain | exact Hops|].
    exists st'. rewrite E. split; [reflexivity|]. split; [exact Hend|].
    rewrite <- app_assoc in Htr. replace (i + Z.of_nat (S (length l))) with (i + 1 + Z.of_nat (length l)) by lia. exact Htr.
Qed.
End MainCircuits.

(** ** The delegation circuits *)

(** A proof of a delegation circuit of the given type, under the challenges of [reference]. *)
Definition delegation_proof_ok (circuit : DelegationCircuit) (reference out : ProofOutput) : Prop :=
  circuit_sequence out = 0 /\ delegation_type out = dc_type circuit /\ setup_caps out = dc_setup_caps circuit /\
  same_challenges out reference.

(** The oracle gives the number of proofs of each type, then the proofs. *)
Fixpoint delegation_calls (circuits : list DelegationCircuit) (o : list Z)
    (delegations : list (list (ProofOutput * ProofPublicInputs))) (o' : list Z) : Prop :=
  match circuits, delegations with
  | [], [] => o' = o
  | circuit :: circuits', l :: delegations' =>
      exists o1 o2, o = Z.of_nat (length l) :: o1 /\ calls (dc_verification_function circuit) o1 l o2 /\
        delegation_calls circuits' o2 delegations' o'
  | _, _ => False
  end.

Fixpoint types_increasing (previous : Z) (circuits : list DelegationCircuit) : Prop :=
  match circuits with [] => True | c :: rest => previous < dc_type c /\ types_increasing (dc_type c) rest end.

(** What the transcript absorbs for the proofs of one type and of all. *)
Definition type_block (circuit : DelegationCircuit) : list Z := dc_type circuit :: replicate 15 0.
Definition delegation_chunks (circuit : DelegationCircuit) (l : list (ProofOutput * ProofPublicInputs)) : list (list Z) :=
  match l with [] => [] | _ => type_block circuit :: map (fun c => memory_caps_flattened (fst c)) l end.
Definition delegations_chunks (circuits : list DelegationCircuit) (delegations : list (list (ProofOutput * ProofPublicInputs)))
    : list (list Z) := concat (zip_with delegation_chunks circuits delegations).

(** The number of requests the proofs stand for. *)
Definition requests (circuits : list DelegationCircuit) (delegations : list (list (ProofOutput * ProofPublicInputs))) : Z :=
  foldr Z.add 0 (zip_with (fun c l => Z.of_nat (length l) * dc_requests_per_circuit c) circuits delegations).

Section Delegations.
Context {H : Type} `{LawfulHasher H} (reference : ProofOutput) (Wref : output_wf 1 reference).
Notation Q := (fv (F := Mersenne31Quartic)).
Add Ring delegation_ring : (fv_ring (F := Mersenne31Quartic)).

Definition circuit_ok (circuit : DelegationCircuit) : Prop :=
  circuit_verifier_ok 0 0 (dc_verification_function circuit) /\ caps_wf CAP_SIZE NUM_COSETS (dc_setup_caps circuit).

Definition next_delegation_state (circuit : DelegationCircuit) (st : DelegationState) (out : ProofOutput)
    (pub : ProofPublicInputs) (d : Mersenne31Quartic) : DelegationState :=
  {| delegation_proof_output := out; delegation_state_variables := pub;
     d_memory_accumulator := mul_assign (d_memory_accumulator st) (memory_grand_product_accumulator out);
     d_delegation_set_accumulator := sub_assign (d_delegation_set_accumulator st) d;
     total_delegation_requests := u64 (total_delegation_requests st + dc_requests_per_circuit circuit) |}.

Lemma delegation_step_iff circuit st s st' s' : circuit_ok circuit ->
  delegation_step (H := H) circuit reference st s = Ok st' s' <->
  exists out pub o' t' d,
    dc_verification_function circuit (delegation_proof_output st) (delegation_state_variables st) (source s) = Ok (out, pub) o' /\
    delegation_proof_ok circuit reference out /\ Buffering.absorb (memory_caps_flattened out) (transcript s) = Ok tt t' /\
    delegation_argument_accumulator out = [d] /\ st' = next_delegation_state circuit st out pub d /\
    s' = Build_Env o' t' (result_hasher s).
Proof.
  intros [Hv Wcaps]. unfold delegation_step. rewrite on_source_then. split.
  - intros ([out pub] & o' & E & Ek). destruct (cv_wf _ _ _ Hv _ _ _ _ _ _ E) as [Wc _].
    rewrite !assert_then in Ek. destruct Ek as (Es & Et & Ec & Ek). apply Z.eqb_eq in Es, Et.
    apply (compare_iff CAP_SIZE NUM_COSETS) in Ec; [|apply Wc | exact Wcaps].
    rewrite on_transcript_then in Ek. destruct Ek as ([] & t' & Eops & Ek). cbn [source transcript result_hasher] in *.
    rewrite (observes_then _ _ _ _ _ _ (same_challenges_observes 0 1 out reference Wc Wref)) in Ek. destruct Ek as ([] & Hs & Ek).
    rewrite (observes_then _ _ _ _ _ _ (index_observes _ 0)) in Ek. destruct Ek as (d & Hd & Ek).
    apply observes_ret in Ek. destruct Ek as [-> ->]. destruct (single_accumulator _ _ Wc) as [d' Ed]. rewrite Ed in Hd. injection Hd as ->.
    exists out, pub, o', t', d. unfold delegation_proof_ok. split_and!; auto; apply Hs.
  - intros (out & pub & o' & t' & d & E & (Es & Et & Ec & Hs) & Eops & Hd & -> & ->).
    destruct (cv_wf _ _ _ Hv _ _ _ _ _ _ E) as [Wc _]. exists (out, pub), o'. split; [exact E|].
    rewrite !assert_then, !Z.eqb_eq, (compare_iff CAP_SIZE NUM_COSETS) by (apply Wc || exact Wcaps).
    do 3 (split; [assumption|]). rewrite on_transcript_then. exists tt, t'. split; [exact Eops|].
    rewrite (observes_then _ _ _ _ _ _ (same_challenges_observes 0 1 out reference Wc Wref)). exists tt. split; [exact Hs|].
    rewrite (observes_then _ _ _ _ _ _ (index_observes _ 0)). exists d. rewrite Hd. split; reflexivity.
Qed.

(** The loops' state from accumulators [m0] and [d0], after the proofs [done]
    that stand for [n] requests. *)
Definition d_tracks (m0 d0 : Q) (done : list (ProofOutput * ProofPublicInputs)) (n : Z) (st : DelegationState) : Prop :=
  reps (d_memory_accumulator st) (vmul m0 (vprod (map memory_value done))) /\
  reps (d_delegation_set_accumulator st) (vsub d0 (vsuml (map delegation_value done))) /\
  total_delegation_requests st = u64 n.

Lemma d_tracks_next circuit m0 d0 done n st out pub d : d_tracks m0 d0 done n st -> output_wf 0 out ->
  delegation_argument_accumulator out = [d] ->
  d_tracks m0 d0 (done ++ [(out, pub)]) (n + dc_requests_per_circuit circuit) (next_delegation_state circuit st out pub d).
Proof.
  intros (Hm & Hd & Hn) Wc Ed. unfold d_tracks. rewrite !map_app. cbn [map]. rewrite vprod_snoc, vsuml_snoc.
  pose proof Wc as (_ & _ & _ & _ & _ & Wm & [_ Wd]). rewrite Ed in Wd. apply Forall_cons_1 in Wd. destruct Wd as [Wd _].
  split; [rewrite vmul_assoc; apply reps_mul; [exact Hm | split; [exact Wm | reflexivity]]|]. split.
  - replace (vsub d0 _) with (vsub (vsub d0 (vsuml (map delegation_value done))) (delegation_value (out, pub))) by ring.
    apply reps_sub; [exact Hd | split; [exact Wd | unfold delegation_value; cbn [fst]; rewrite Ed; reflexivity]].
  - cbn [next_delegation_state total_delegation_requests]. rewrite Hn. unfold u64. rewrite Z.add_mod_idemp_l by lia. reflexivity.
Qed.

Lemma delegation_loop_inv circuit m0 d0 : circuit_ok circuit -> forall count st s st' s' done n, d_tracks m0 d0 done n st ->
  delegation_loop (H := H) circuit reference count st s = Ok st' s' ->
  exists l o' t', length l = count /\ calls (dc_verification_function circuit) (source s) l o' /\
    Forall (fun c => delegation_proof_ok circuit reference (fst c) /\ output_wf 0 (fst c)) l /\
    run_ops (map Absorb (map (fun c => memory_caps_flattened (fst c)) l)) (transcript s) = Ok tt t' /\
    s' = Build_Env o' t' (result_hasher s) /\
    d_tracks m0 d0 (done ++ l) (n + Z.of_nat count * dc_requests_per_circuit circuit) st'.
Proof.
  intros Hc. induction count as [|count IH]; intros st s st' s' done n Ht E; cbn [delegation_loop] in E.
  - apply observes_ret in E. destruct E as [-> ->]. exists [], (source s), (transcript s). rewrite app_nil_r, Z.mul_0_l, Z.add_0_r.
    destruct s; cbn. split_and!; auto.
  - apply bind_ok in E. destruct E as (st1 & s1 & E1 & E). apply (delegation_step_iff circuit st s st1 s1 Hc) in E1.
    destruct E1 as (out & pub & o1 & t1 & d & Ev & Hp & Eops & Hd & -> & ->).
    destruct (cv_wf _ _ _ (proj1 Hc) _ _ _ _ _ _ Ev) as [Wc _].
    destruct (IH _ _ _ _ _ _ (d_tracks_next circuit m0 d0 done n st out pub d Ht Wc Hd) E)
      as (l & o' & t' & Hlen & Hcalls & Hl & Hops & -> & Htr).
    cbn [source transcript result_hasher] in *. exists ((out, pub) :: l), o', t'. split; [cbn; lia|]. split; [cbn; eauto|].
    split; [constructor; auto|]. split; [cbn [map run_ops fst]; rewrite (bind_step _ _ _ _ _ Eops); exact Hops|].
    split; [reflexivity|]. rewrite <- app_assoc in Htr.
    replace (n + Z.of_nat (S count) * dc_requests_per_circuit circuit) with
      (n + dc_requests_per_circuit circuit + Z.of_nat count * dc_requests_per_circuit circuit) by lia. exact Htr.
Qed.

Lemma delegation_loop_run circuit m0 d0 l : circuit_ok circuit -> forall st s o' t' done n, d_tracks m0 d0 done n st ->
  calls (dc_verification_function circuit) (source s) l o' -> Forall (fun c => delegation_proof_ok circuit reference (fst c)) l ->
  run_ops (map Absorb (map (fun c => memory_caps_flattened (fst c)) l)) (transcript s) = Ok tt t' ->
  exists st', delegation_loop (H := H) circuit reference (length l) st s = Ok st' (Build_Env o' t' (result_hasher s)) /\
    d_tracks m0 d0 (done ++ l) (n + Z.of_nat (length l) * dc_requests_per_circuit circuit) st'.
Proof.
  intros Hc. induction l as [|[out pub] l IH]; intros st s o' t' done n Ht Hcalls Hl Hops.
  - cbn in *. exists st. injection Hops as <-. subst. rewrite app_nil_r, Z.add_0_r. destruct s; auto.
  - cbn [calls map run_ops fst length delegation_loop] in *. destruct Hcalls as (b & p & o1 & Ev & Hcalls).
    apply Forall_cons_1 in Hl. destruct Hl as [Hp Hl]. apply bind_ok in Hops. destruct Hops as ([] & t1 & Ho1 & Hops).
    rewrite (cv_overwrites _ _ _ (proj1 Hc) _ _ (delegation_proof_output st) (delegation_state_variables st)) in Ev.
    destruct (cv_wf _ _ _ (proj1 Hc) _ _ _ _ _ _ Ev) as [Wc _]. destruct (single_accumulator _ _ Wc) as [d Hd].
    assert (E1 : delegation_step circuit reference st s = Ok (next_delegation_state circuit st out pub d) (Build_Env o1 t1 (result_hasher s))).
    { apply (delegation_step_iff circuit st s _ _ Hc). exists out, pub, o1, t1, d. split_and!; auto; apply Hp. }
    rewrite (bind_step _ _ _ _ _ E1).
    destruct (IH (next_delegation_state circuit st out pub d) (Build_Env o1 t1 (result_hasher s)) o' t' (done ++ [(out, pub)])
      (n + dc_requests_per_circuit circuit)) as (st' & E & Htr); [apply d_tracks_next; assumption | exact Hcalls | exact Hl | exact Hops|].
    exists st'. rewrite E. split; [reflexivity|]. rewrite <- app_assoc in Htr.
    replace (n + Z.of_nat (S (length l)) * dc_requests_per_circuit circuit) with
      (n + dc_requests_per_circuit circuit + Z.of_nat (length l) * dc_requests_per_circuit circuit) by lia. exact Htr.
Qed.

Lemma read_word_then {B} (k : Z -> prog H B) s r s' :
  bind read_word k s = Ok r s' <->
  exists w o', source s = w :: o' /\ k w (Build_Env o' (transcript s) (result_hasher s)) = Ok r s'.
Proof.
  unfold bind, read_word. destruct (source s) as [|w o']; split; intros E; try discriminate.
  - destruct E as (? & ? & [=] & _).
  - eauto.
  - destruct E as (? & ? & [= <- <-] & E). exact E.
Qed.

Lemma calls_consume v aux state l : circuit_verifier_ok aux state v -> forall o o', calls v o l o' -> exists used, o = used ++ o'.
Proof.
  intros Hv. induction l as [|r l IH]; intros o o'; cbn [calls].
  - intros ->. exists []. reflexivity.
  - intros (b & p & o1 & E & Hl). destruct (cv_consumes _ _ _ Hv _ _ _ _ _ E) as [u1 ->]. destruct (IH _ _ Hl) as [u2 ->].
    exists (u1 ++ u2). apply app_assoc.
Qed.

Definition proofs_ok (circuit : DelegationCircuit) (l : list (ProofOutput * ProofPublicInputs)) : Prop :=
  Forall (fun c => delegation_proof_ok circuit reference (fst c)) l.
Definition proofs_wf (l : list (ProofOutput * ProofPublicInputs)) : Prop :=
  Z.of_nat (length l) < 2 ^ 32 /\ Forall (fun c => output_wf 0 (fst c)) l.

Lemma type_block_then {B} circuit num (k : prog H B) s r s' :
  ((if num >? 0 then on_transcript (Buffering.absorb (dc_type circuit :: replicate (BLAKE2S_BLOCK_SIZE_U32_WORDS - 1) 0))
    else ret tt) ;;! k) s = Ok r s' <->
  exists t', run_ops (map Absorb (if num >? 0 then [type_block circuit] else [])) (transcript s) = Ok tt t' /\
    k (Build_Env (source s) t' (result_hasher s)) = Ok r s'.
Proof.
  change (dc_type circuit :: replicate (BLAKE2S_BLOCK_SIZE_U32_WORDS - 1) 0) with (type_block circuit).
  destruct (num >? 0); cbn [map run_ops].
  - rewrite on_transcript_then. split.
    + intros ([] & t' & E & Ek). exists t'. rewrite (bind_step _ _ _ _ _ E). auto.
    + intros (t' & E & Ek). apply bind_ok in E. destruct E as ([] & t1 & E & [= ->]). exists tt, t'. auto.
  - rewrite bind_ret_l. split; [intros E; exists (transcript s); destruct s; auto|].
    intros (t' & [= <-] & Ek). destruct s; exact Ek.
Qed.

Lemma delegations_loop_inv m0 d0 circuits : Forall circuit_ok circuits -> forall previous st s st' s' done n,
  d_tracks m0 d0 done n st -> Forall is_u32 (source s) ->
  delegations_loop (H := H) circuits reference previous st s = Ok st' s' ->
  exists delegations o' t', delegation_calls circuits (source s) delegations o' /\ types_increasing previous circuits /\
    Forall2 proofs_ok circuits delegations /\ Forall proofs_wf delegations /\
    run_ops (map Absorb (delegations_chunks circuits delegations)) (transcript s) = Ok tt t' /\
    s' = Build_Env o' t' (result_hasher s) /\ d_tracks m0 d0 (done ++ concat delegations) (n + requests circuits delegations) st'.
Proof.
  induction 1 as [|circuit circuits Hc Hcs IH]; intros previous st s st' s' done n Ht Hu E; cbn [delegations_loop] in E.
  - apply observes_ret in E. destruct E as [-> ->]. exists [], (source s), (transcript s). cbn. rewrite app_nil_r, Z.add_0_r.
    destruct s. split_and!; auto.
  - rewrite assert_then in E. destruct E as [Etype E]. apply Z.ltb_lt in Etype. rewrite read_word_then in E.
    destruct E as (num & o1 & Eo & E). rewrite Eo in Hu. apply Forall_cons_1 in Hu. destruct Hu as [Hnum Hu]. unfold is_u32 in Hnum.
    rewrite type_block_then in E. destruct E as (t1 & Et1 & E). apply bind_ok in E. destruct E as (st1 & s1 & E1 & E).
    destruct (delegation_loop_inv circuit m0 d0 Hc _ _ _ _ _ _ _ Ht E1) as (l & o2 & t2 & Hlen & Hcalls & Hl & Hops & -> & Ht1).
    cbn [source transcript result_hasher] in *. apply Forall_and in Hl. destruct Hl as [Hl Wl].
    destruct (calls_consume _ 0 0 l (proj1 Hc) _ _ Hcalls) as [used Eused]. rewrite Eused in Hu. apply Forall_app in Hu.
    unfold assert_full_buffer in E. rewrite !bind_assoc in E. unfold bind at 1, gets in E. rewrite assert_then in E. destruct E as [_ E].
    assert (num = Z.of_nat (length l)) as -> by lia. clear Hlen. rewrite Nat2Z.id in Ht1.
    destruct (IH _ _ (Build_Env o2 t2 (result_hasher s)) _ _ _ _ Ht1 (proj2 Hu) E) as (ls & o' & t' & Hcs' & Hinc & Hls & Wls & Hops' & -> & Ht').
    cbn [source transcript result_hasher] in *.
    exists (l :: ls), o', t'. split; [cbn [delegation_calls]; eauto|]. split; [split; auto|].
    split; [constructor; assumption|]. split; [constructor; [split; [lia | exact Wl] | exact Wls]|].
    split; [|split; [reflexivity|]].
    + unfold delegations_chunks in *. cbn [zip_with concat]. rewrite map_app. apply run_ops_app. exists t2. split; [|exact Hops'].
      destruct l as [|c l]; cbn [delegation_chunks]; [injection Et1 as ->; exact Hops|].
      replace (Z.of_nat (length (c :: l)) >? 0) with true in Et1 by (symmetry; apply Z.gtb_lt; cbn; lia).
      cbn [map] in *. rewrite <- (app_nil_l (_ :: _)). apply (run_ops_app [Absorb (type_block circuit)]). eauto.
    + cbn [concat requests zip_with foldr]. unfold requests in Ht'. rewrite app_assoc, Z.add_assoc. exact Ht'.
Qed.

(** A transcript fed with full blocks has its buffer full. *)
Lemma full_buffer_then {B} (k : prog H B) s r s' ws : absorbed (transcript s) ws -> ws <> [] -> (length ws mod 16 = 0)%nat ->
  (assert_full_buffer ;;! k) s = Ok r s' <-> k s = Ok r s'.
Proof.
  intros Ha Hne Hm. unfold assert_full_buffer. rewrite bind_assoc. unfold bind at 1, gets. rewrite assert_then, Nat.eqb_eq.
  rewrite (absorbed_pending _ _ Ha). enough (pending ws = BLAKE2S_BLOCK_SIZE_U32_WORDS) by tauto.
  unfold pending, leading_blocks. change BLAKE2S_BLOCK_SIZE_U32_WORDS with 16%nat.
  assert (length ws <> 0%nat) by (destruct ws; [congruence | cbn; lia]).
  pose proof (Nat.div_mod_eq (length ws) 16). assert (Hd : ((length ws - 1) / 16 = length ws / 16 - 1)%nat).
  { symmetry. apply (Nat.div_unique _ _ _ 15); lia. }
  rewrite Hd. lia.
Qed.

Lemma ops_words_absorb chunks : forall ws, ops_words (map Absorb chunks) ws = ws ++ concat chunks.
Proof.
  induction chunks as [|c chunks IH]; intros ws; unfold ops_words in *; cbn; [symmetry; apply app_nil_r|].
  rewrite IH, app_assoc. reflexivity.
Qed.

Lemma length_chunks circuit l : Forall (fun c => output_wf 0 (fst c)) l ->
  length (concat (delegation_chunks circuit l)) = ((if l then 0 else 16) + 1024 * length l)%nat.
Proof.
  intros Hw. assert (G : length (concat (map (fun c => memory_caps_flattened (fst c)) l)) = (1024 * length l)%nat).
  { rewrite (length_concat_const 1024); [rewrite length_map; reflexivity|]. apply Forall_map. eapply Forall_impl; [exact Hw|].
    intros c (_ & Wm & _). unfold memory_caps_flattened. rewrite (length_flatten_caps _ _ _ Wm). reflexivity. }
  destruct l as [|c l]; [reflexivity|]. cbn [delegation_chunks concat]. rewrite length_app, G. reflexivity.
Qed.

Lemma calls_wf v aux state l : circuit_verifier_ok aux state v -> forall o o', calls v o l o' -> Forall (fun c => output_wf aux (fst c)) l.
Proof.
  intros Hv. induction l as [|[out pub] l IH]; intros o o' Hl; [constructor|]. destruct Hl as (b & p & o1 & E & Hl).
  constructor; [exact (proj1 (cv_wf _ _ _ Hv _ _ _ _ _ _ E)) | exact (IH _ _ Hl)].
Qed.

Notation fits ws := (4 * Z.of_nat (length ws) < 2 ^ 32).

Lemma run_chunks_ok chunks (t : Buffering.Blake2sBufferingTranscript H) ws : absorbed t ws -> fits (ws ++ concat chunks) ->
  exists t', run_ops (map Absorb chunks) t = Ok tt t' /\ absorbed t' (ws ++ concat chunks).
Proof. intros Ha Hf. rewrite <- ops_words_absorb in *. apply run_ops_ok; assumption. Qed.

Lemma delegations_loop_run m0 d0 circuits : Forall circuit_ok circuits -> forall delegations previous st s o' done n ws,
  d_tracks m0 d0 done n st -> absorbed (transcript s) ws -> ws <> [] -> (length ws mod 16 = 0)%nat ->
  fits (ws ++ concat (delegations_chunks circuits delegations)) -> delegation_calls circuits (source s) delegations o' ->
  types_increasing previous circuits -> Forall2 proofs_ok circuits delegations ->
  exists st' t', delegations_loop (H := H) circuits reference previous st s = Ok st' (Build_Env o' t' (result_hasher s)) /\
    absorbed t' (ws ++ concat (delegations_chunks circuits delegations)) /\
    d_tracks m0 d0 (done ++ concat delegations) (n + requests circuits delegations) st'.
Proof.
  induction 1 as [|circuit circuits Hc Hcs IH]; intros [|l ls] previous st s o' done n ws Ht Ha Hne Hm Hf Hcalls Hinc Hok;
    try contradiction; cbn [delegations_loop].
  - cbn in *. subst o'. exists st, (transcript s). rewrite !app_nil_r, Z.add_0_r. destruct s; auto.
  - cbn [delegation_calls types_increasing] in *. destruct Hcalls as (o1 & o2 & Eo & Hcalls & Hrest). destruct Hinc as [Hlt Hinc].
    inversion Hok as [|? ? ? ? Hl Hls]; subst. unfold delegations_chunks in Hf |- *. cbn [zip_with concat] in Hf |- *.
    fold (delegations_chunks circuits ls) in Hf |- *. rewrite concat_app, app_assoc in Hf |- *.
    pose proof (calls_wf _ 0 0 l (proj1 Hc) _ _ Hcalls) as Wl.
    assert (Hf1 : fits (ws ++ concat (delegation_chunks circuit l))) by (rewrite length_app in Hf; lia).
    destruct (run_chunks_ok (delegation_chunks circuit l) _ _ Ha Hf1) as (t2 & Et2 & Ha2).
    assert (Esplit : delegation_chunks circuit l =
      (if Z.of_nat (length l) >? 0 then [type_block circuit] else []) ++ map (fun c => memory_caps_flattened (fst c)) l).
    { destruct l as [|c l]; [reflexivity|]. replace (Z.of_nat (length (c :: l)) >? 0) with true; [reflexivity|].
      symmetry. apply Z.gtb_lt. cbn. lia. }
    rewrite Esplit, map_app in Et2. apply run_ops_app in Et2. destruct Et2 as (t1 & Et1 & Et2).
    destruct (delegation_loop_run circuit m0 d0 l Hc st (Build_Env o1 t1 (result_hasher s)) o2 t2 done n Ht Hcalls Hl Et2) as (st1 & E1 & Ht1).
    set (ws1 := ws ++ concat (delegation_chunks circuit l)) in *.
    assert (Hm1 : (length ws1 mod 16 = 0)%nat).
    { subst ws1. rewrite length_app, (length_chunks circuit l Wl). rewrite <- Nat.Div0.add_mod_idemp_l, Hm.
      replace (0 + ((if l then 0 else 16) + 1024 * length l))%nat with (((if l then 0 else 1) + 64 * length l) * 16)%nat
        by (destruct l; lia). apply Nat.Div0.mod_mul. }
    assert (Hne1 : ws1 <> []) by (subst ws1; destruct ws; [congruence | discriminate]).
    destruct (IH ls (dc_type circuit) st1 (Build_Env o2 t2 (result_hasher s)) o' _ _ ws1 Ht1 Ha2 Hne1 Hm1 Hf Hrest Hinc Hls)
      as (st' & t' & E & Ha' & Ht'). cbn [result_hasher] in E.
    exists st', t'. split; [|split; [exact Ha'|]].
    + apply assert_then. split; [apply Z.ltb_lt; exact Hlt|]. apply read_word_then. exists (Z.of_nat (length l)), o1.
      split; [exact Eo|]. apply type_block_then. exists t1. split; [exact Et1|]. cbn [source transcript result_hasher].
      rewrite Nat2Z.id, (bind_step _ _ _ _ _ E1). apply (full_buffer_then _ _ _ _ ws1); assumption.
    + cbn [concat requests zip_with foldr]. unfold requests in Ht'. rewrite app_assoc, Z.add_assoc. exact Ht'.
Qed.
End Delegations.

(** ** The output *)

(** The values of [n] registers from [i]. *)
Definition values_of (registers : list (Z * (Z * Z))) (i n : nat) : list Z := map fst (take n (drop i registers)).

(** The second half of the output: the chain of programs, for the hash [end_params]
    of the final pc and the setup; in the recursion layers the oracle gives a
    preimage of registers 18-25. *)
Definition program_chain (BASE_LAYER : bool) (registers : list (Z * (Z * Z))) (end_params o chain : list Z) : Prop :=
  if BASE_LAYER then
    values_of registers 18 8 = replicate 8 0 /\ chain = words_hash true (replicate 8 0 ++ end_params)
  else
    exists preimage rest, o = preimage ++ rest /\ length preimage = 16%nat /\
      words_hash true preimage = values_of registers 18 8 /\
      chain = if decide (drop 8 preimage = end_params) then values_of registers 18 8
              else words_hash true (values_of registers 18 8 ++ end_params).

Section Output.
Context {H : Type} `{LawfulHasher H}.
Notation fits ws := (4 * Z.of_nat (length ws) < 2 ^ 32).

Lemma read_words_then {B} n (k : list Z -> prog H B) : forall s r s',
  bind (read_words n) k s = Ok r s' <->
  exists ws o', length ws = n /\ source s = ws ++ o' /\ k ws (Build_Env o' (transcript s) (result_hasher s)) = Ok r s'.
Proof.
  revert k. induction n as [|n IH]; intros k s r s'; cbn [read_words].
  - rewrite bind_ret_l. split.
    + intros E. exists [], (source s). destruct s; auto.
    + intros ([|] & o' & Hl & Eo & E); [|discriminate]. cbn in Eo. subst o'. destruct s; exact E.
  - rewrite bind_assoc, read_word_then. split.
    + intros (w & o1 & Eo & E). rewrite bind_assoc, IH in E. destruct E as (ws & o' & Hl & Eo1 & E). cbn [source transcript result_hasher] in *.
      exists (w :: ws), o'. subst o1. split; [cbn; lia|]. split; [exact Eo | exact E].
    + intros ([|w ws] & o' & Hl & Eo & E); [discriminate|]. exists w, (ws ++ o'). split; [exact Eo|].
      rewrite bind_assoc, IH. exists ws, o'. split; [cbn in Hl; lia|]. split; [reflexivity | exact E].
Qed.

Lemma read_registers_then {B} n (k : list (Z * (Z * Z)) -> prog H B) : forall s r s',
  bind (read_registers n) k s = Ok r s' <->
  exists regs o', length regs = n /\ source s = registers_words regs ++ o' /\
    k regs (Build_Env o' (transcript s) (result_hasher s)) = Ok r s'.
Proof.
  revert k. induction n as [|n IH]; intros k s r s'; cbn [read_registers].
  - rewrite bind_ret_l. split.
    + intros E. exists [], (source s). destruct s; auto.
    + intros ([|] & o' & Hl & Eo & E); [|discriminate]. cbn in Eo. subst o'. destruct s; exact E.
  - rewrite bind_assoc, read_word_then. split.
    + intros (v & o1 & Eo & E). rewrite bind_assoc, read_word_then in E. destruct E as (tl & o2 & Eo2 & E).
      rewrite bind_assoc, read_word_then in E. destruct E as (th & o3 & Eo3 & E).
      rewrite bind_assoc, IH in E. destruct E as (regs & o' & Hl & Eo4 & E). cbn [source transcript result_hasher] in *.
      exists ((v, (tl, th)) :: regs), o'. subst o1 o2 o3. split; [cbn; lia|]. split; [exact Eo | exact E].
    + intros ([|[v [tl th]] regs] & o' & Hl & Eo & E); [discriminate|].
      eexists _, _. split; [exact Eo|]. rewrite bind_assoc, read_word_then. eexists _, _. split; [reflexivity|].
      rewrite bind_assoc, read_word_then. eexists _, _. split; [reflexivity|].
      rewrite bind_assoc, IH. exists regs, o'. split; [cbn in Hl; lia|]. split; [reflexivity | exact E].
Qed.

Lemma length_registers_words regs : length (registers_words regs) = (3 * length regs)%nat.
Proof.
  unfold registers_words. rewrite (length_concat_const 3); [rewrite length_map; reflexivity|].
  apply Forall_map, Forall_forall. intros [v [lo hi]] _. reflexivity.
Qed.

Lemma registers_words_lookup regs : forall i, registers_words regs !! (i * 3)%nat = fst <$> regs !! i.
Proof.
  induction regs as [|[v [lo hi]] regs IH]; intros [|i]; try reflexivity. exact (IH i).
Qed.

Lemma register_value_observes regs i : observes (register_value (H := H) regs i) (fun x => fst <$> regs !! i = Some x).
Proof. rewrite <- registers_words_lookup. apply index_observes. Qed.

Lemma register_values_observes regs n : forall i, (i + n <= length regs)%nat ->
  observes (register_values (H := H) regs i n) (fun l => l = values_of regs i n).
Proof.
  induction n as [|n IH]; intros i Hi; cbn [register_values]; [apply observes_ret|].
  destruct (lookup_lt_is_Some_2 regs i ltac:(lia)) as [d Hd].
  eapply observes_iff.
  - apply (observes_bind _ _ (fun x => fst <$> regs !! i = Some x) (fun x l => l = x :: values_of regs (S i) n)); [apply register_value_observes|].
    intros x _. eapply observes_iff; [apply (observes_bind _ _ (fun l => l = values_of regs (S i) n) (fun rest l => l = x :: rest));
      [apply IH; lia | intros; apply observes_ret]|].
    intros l. split; [intros (? & -> & ->); reflexivity | intros ->; eauto].
  - intros l. unfold values_of. rewrite (drop_S _ _ _ Hd), Hd. cbn [take map fmap option_fmap option_map]. split.
    + intros (x & [= <-] & ->). reflexivity.
    + intros ->. eauto.
Qed.

(** One hash with the reused transcript. *)
Lemma hash_then {B} ws (k : list Z -> prog H B) s : absorbed (result_hasher s) [] -> fits ws -> exists t',
  (on_result_hasher (Buffering.absorb ws) ;;! let! h := on_result_hasher Buffering.finalize_reset in k h) s =
    k (words_hash true ws) (Build_Env (source s) (transcript s) t') /\ absorbed t' [].
Proof.
  intros Ha Hf. destruct (absorb_ok ws _ _ Ha Hf) as (t1 & E1 & Ha1). destruct (finalize_reset_ok _ _ Ha1 Hf) as (t2 & E2 & Ha2).
  exists t2. split; [|exact Ha2]. cbn [app] in E2. unfold on_result_hasher, zoom, bind. rewrite E1. cbn [result_hasher source transcript].
  rewrite E2. reflexivity.
Qed.

Lemma words_equal_iff a b : length a = length b -> words_equal a b = true <-> a = b.
Proof. intros Hl. unfold words_equal. rewrite compare_words_iff by exact Hl. tauto. Qed.

Lemma all_zero_iff l n : length l = n -> forallb (Z.eqb 0) l = true <-> l = replicate n 0.
Proof.
  intros <-. induction l as [|x l IH]; cbn [forallb length replicate]; [tauto|]. rewrite andb_true_iff, IH, Z.eqb_eq.
  split; [intros [<- ->]; rewrite length_replicate; reflexivity | intros [= -> E]; auto].
Qed.

Lemma length_values_of regs i n : (i + n <= length regs)%nat -> length (values_of regs i n) = n.
Proof. intros Hi. unfold values_of. rewrite length_map, length_take, length_drop. lia. Qed.

Lemma continue_chain_iff BASE_LAYER regs output ep s out : absorbed (result_hasher s) [] -> length regs = 32%nat -> length ep = 8%nat ->
  (exists s', continue_chain BASE_LAYER regs output ep s = Ok out s') <->
  exists chain, out = output ++ chain /\ program_chain BASE_LAYER regs ep (source s) chain.
Proof.
  intros Ha Hl Hep. pose proof (length_values_of regs 18 8 ltac:(lia)) as Hv.
  pose proof (register_values_observes regs 8 18 ltac:(lia)) as Ho. unfold continue_chain, program_chain.
  set (aux := values_of regs 18 8) in *. destruct BASE_LAYER.
  - destruct (hash_then (replicate 8 0 ++ ep) (fun h => ret (output ++ h)) s Ha) as (t' & E & _); [rewrite length_app, Hep; cbn; lia|].
    split.
    + intros (s' & Er). rewrite (observes_then _ _ _ _ _ _ Ho) in Er. destruct Er as (l & -> & Er).
      rewrite assert_then, (all_zero_iff _ 8 Hv), E in Er. destruct Er as [Hz [= <- _]]. eauto.
    + intros (chain & -> & Hz & ->). eexists. rewrite (observes_then _ _ _ _ _ _ Ho). exists aux. split; [reflexivity|].
      rewrite assert_then, (all_zero_iff _ 8 Hv), E. split; [exact Hz | reflexivity].
  - split.
    + intros (s' & Er). rewrite (observes_then _ _ _ _ _ _ Ho) in Er. destruct Er as (l & -> & Er).
      rewrite read_words_then in Er. destruct Er as (preimage & o' & Hlen & Eo & Er). change (BLAKE2S_DIGEST_SIZE_U32_WORDS * 2)%nat with 16%nat in Hlen.
      match type of Er with context [bind (on_result_hasher Buffering.finalize_reset) ?k] =>
        destruct (hash_then preimage k (Build_Env o' (transcript s) (result_hasher s)) Ha ltac:(lia)) as (t' & E & Ha') end.
      rewrite E in Er. cbn [source transcript] in Er. rewrite assert_then, words_equal_iff in Er by (rewrite length_words_hash; exact (eq_sym Hv)).
      destruct Er as [Hh Er]. assert (Hd : length (drop 8 preimage) = length ep) by (rewrite length_drop; lia).
      assert (Hchain : exists chain, out = output ++ chain /\ chain = if decide (drop 8 preimage = ep) then aux else words_hash true (aux ++ ep));
        [|destruct Hchain as (chain & -> & Hc); exists chain; split; [reflexivity|]; exists preimage, o'; auto].
      destruct (words_equal (drop 8 preimage) ep) eqn:Ew.
      * apply words_equal_iff in Ew; [|exact Hd]. injection Er as <- _. exists aux. rewrite decide_True by exact Ew. auto.
      * destruct (hash_then (aux ++ ep) (fun h => ret (output ++ h)) (Build_Env o' (transcript s) t') Ha') as (t2 & E2 & _);
          [rewrite length_app; lia|]. rewrite E2 in Er. injection Er as <- _. eexists. split; [reflexivity|].
        rewrite decide_False; [reflexivity|]. intros Eq. apply words_equal_iff in Eq; [|exact Hd]. congruence.
    + intros (chain & -> & preimage & o' & Eo & Hlen & Hh & Hchain).
      assert (Hd : length (drop 8 preimage) = length ep) by (rewrite length_drop; lia).
      set (k := fun preimage_hash => assert_or_panic (words_equal preimage_hash aux) "preimage" ;;!
        if words_equal (drop 8 preimage) ep then ret (output ++ aux)
        else on_result_hasher (Buffering.absorb (aux ++ ep)) ;;!
          let! new_output_registers := on_result_hasher Buffering.finalize_reset in ret (output ++ new_output_registers)).
      destruct (hash_then preimage k (Build_Env o' (transcript s) (result_hasher s)) Ha ltac:(lia)) as (t' & E & Ha').
      destruct (hash_then (aux ++ ep) (fun h => ret (output ++ h)) (Build_Env o' (transcript s) t') Ha') as (t2 & E2 & _);
        [rewrite length_app; lia|].
      exists (if decide (drop 8 preimage = ep) then Build_Env o' (transcript s) t' else Build_Env o' (transcript s) t2).
      rewrite (observes_then _ _ _ _ _ _ Ho). exists aux. split; [reflexivity|]. rewrite read_words_then. exists preimage, o'.
      split; [exact Hlen|]. split; [exact Eo|]. refine (eq_trans E _). subst k. cbn beta. cbn [source transcript].
      rewrite assert_then, words_equal_iff by (rewrite length_words_hash; exact (eq_sym Hv)). split; [exact Hh|]. rewrite Hchain.
      destruct (decide (drop 8 preimage = ep)) as [Eq|Eq]; [apply words_equal_iff in Eq; [|exact Hd]; rewrite Eq; reflexivity|].
      destruct (words_equal (drop 8 preimage) ep) eqn:Ew; [apply words_equal_iff in Ew; [contradiction | exact Hd]|]. rewrite E2. reflexivity.
Qed.

Lemma produce_output_iff BASE_LAYER regs reference end_pc slot s out : h_wf slot -> length regs = 32%nat ->
  length (setup_caps_flattened reference) = 1024%nat ->
  (exists s', produce_output BASE_LAYER regs reference end_pc slot s = Ok out s') <->
  exists chain, out = values_of regs 10 8 ++ chain /\
    program_chain BASE_LAYER regs (words_hash true (end_pc :: setup_caps_flattened reference)) (source s) chain.
Proof.
  intros Hw Hl Hs. set (setup := setup_caps_flattened reference) in *.
  set (s1 := Build_Env (source s) (transcript s) (Buffering.new slot)).
  assert (Ha : absorbed (result_hasher s1) []) by apply (new_absorbed slot Hw).
  destruct (absorb_ok [end_pc] _ _ Ha ltac:(cbn; lia)) as (t1 & E1 & Ha1).
  destruct (absorb_ok setup _ _ Ha1) as (t2 & E2 & Ha2); [rewrite length_app, Hs; cbn; lia|].
  destruct (finalize_reset_ok _ _ Ha2) as (t3 & E3 & Ha3); [rewrite length_app, Hs; cbn; lia|].
  assert (E : produce_output BASE_LAYER regs reference end_pc slot s =
    continue_chain BASE_LAYER regs (values_of regs 10 8) (words_hash true (end_pc :: setup)) (Build_Env (source s) (transcript s) t3)).
  { unfold produce_output. rewrite (bind_step _ _ s (values_of regs 10 8) s) by (apply (register_values_observes regs 8 10 ltac:(lia)); auto).
    rewrite (bind_step _ _ s tt s1) by reflexivity. unfold on_result_hasher at 1 2 3, zoom, bind. rewrite E1.
    cbn [result_hasher source transcript]. fold setup. rewrite E2. cbn [result_hasher source transcript]. rewrite E3. reflexivity. }
  rewrite E. apply (continue_chain_iff BASE_LAYER regs (values_of regs 10 8) _ (Build_Env (source s) (transcript s) t3));
    [exact Ha3 | exact Hl | apply length_words_hash].
Qed.
End Output.

(** ** The whole statement *)

Record Statement : Type := {
  st_registers : list (Z * (Z * Z));
  st_circuits : list (ProofOutput * ProofPublicInputs);
  st_delegations : list (list (ProofOutput * ProofPublicInputs));
}.

(** The rows of the table of delegation circuits, as in the source's constants. *)
Definition table_ok (table : list DelegationCircuit) : Prop :=
  Forall circuit_ok table /\ Forall (fun c => 2 ^ 12 <= dc_requests_per_circuit c < 2 ^ 22) table /\ (length table <= 256)%nat.

(** The oracle [o] holds the statement, followed by [o']. *)
Definition holds_statement (main : VerifierFunctionPointer) (table : list DelegationCircuit) (st : Statement) (o o' : list Z) : Prop :=
  length (st_registers st) = 32%nat /\
  exists o1 o2, o = registers_words (st_registers st) ++ Z.of_nat (length (st_circuits st)) :: o1 /\
    calls main o1 (st_circuits st) o2 /\ delegation_calls table o2 (st_delegations st) o'.

(** The first main circuit's proof; all others agree with it. *)
Definition first_output (st : Statement) (first : ProofOutput) : Prop := fst <$> head (st_circuits st) = Some first.

(** Everything the challenges must depend on. *)
Definition statement_words (table : list DelegationCircuit) (st : Statement) (first : ProofOutput) : list Z :=
  registers_words (st_registers st) ++ setup_caps_flattened first ++
  concat (map (fun c => memory_caps_flattened (fst c)) (st_circuits st)) ++
  concat (delegations_chunks table (st_delegations st)).

Record statement_holds (table : list DelegationCircuit) (st : Statement) (first : ProofOutput) (end_pc : Z) : Prop := {
  sh_x0 : fst <$> st_registers st !! 0%nat = Some 0;
  sh_count : 0 < Z.of_nat (length (st_circuits st)) <= MAX_BASE_LAYER_CIRCUITS;
  sh_chain : circuit_chain 0 None 0 (st_circuits st) end_pc;
  sh_types : types_increasing 0 table;
  sh_delegations : Forall2 (proofs_ok first) table (st_delegations st);
  sh_requests : requests table (st_delegations st) < ORDER;
  (** the challenges are drawn from the hash of everything committed *)
  sh_memory_challenges : memory_challenge_values (memory_challenges first) =
    map fabs (take 7 (drawn_elements (words_hash true (statement_words table st first))));
  sh_delegation_challenges : map delegation_challenge_values (delegation_challenges first) =
    [map fabs (take 4 (drop 7 (drawn_elements (words_hash true (statement_words table st first)))))];
  (** the memory argument: accumulators times write set equals read set *)
  sh_memory : Forall register_in_range (st_registers st) ->
    let challenges := memory_challenge_values (memory_challenges first) in
    vmul (vmul (vprod (map memory_value (st_circuits st))) (vprod (map memory_value (concat (st_delegations st))))) (write_set challenges)
      = read_set challenges (st_registers st) /\ read_set challenges (st_registers st) <> vzero;
  (** the delegation argument: requests equal responses *)
  sh_delegation_sum : vsuml (map delegation_value (st_circuits st)) = vsuml (map delegation_value (concat (st_delegations st)));
}.

(** The tables of all layers are as assumed. *)
Lemma layer_tables_ok blake bigint blake_caps bigint_caps : circuit_verifier_ok 0 0 blake -> circuit_verifier_ok 0 0 bigint ->
  caps_wf CAP_SIZE NUM_COSETS blake_caps -> caps_wf CAP_SIZE NUM_COSETS bigint_caps ->
  table_ok (BASE_LAYER_DELEGATION_CIRCUITS_VERIFICATION_PARAMETERS blake bigint blake_caps bigint_caps) /\
  table_ok (RECURSION_LAYER_CIRCUITS_VERIFICATION_PARAMETERS blake blake_caps) /\
  table_ok FINAL_RECURSION_LAYER_CIRCUITS_VERIFICATION_PARAMETERS.
Proof.
  intros Hb Hi Cb Ci. unfold table_ok, circuit_ok.
  split_and!; repeat (apply Forall_cons_2 || apply Forall_nil_2); try (split; assumption); cbn; try lia; split; (assumption || lia).
Qed.

Section Whole.
Context {H : Type} `{LawfulHasher H}.
Notation Q := (fv (F := Mersenne31Quartic)).
Notation fits ws := (4 * Z.of_nat (length ws) < 2 ^ 32).
Add Ring whole_ring : (fv_ring (F := Mersenne31Quartic)).

Definition circuits_chunks (i : Z) (l : list (ProofOutput * ProofPublicInputs)) : list (list Z) :=
  match l with [] => [] | c :: _ => if i =? 0 then [setup_caps_flattened (fst c)] else [] end ++
  map (fun c => memory_caps_flattened (fst c)) l.

Lemma circuits_ops_chunks l : forall i, 0 <= i -> circuits_ops i l = map Absorb (circuits_chunks i l).
Proof.
  induction l as [|c l IH]; intros i Hi; [reflexivity|]. cbn [circuits_ops]. rewrite IH by lia. unfold circuit_ops, circuits_chunks.
  replace (i + 1 =? 0) with false by (symmetry; apply Z.eqb_neq; lia). destruct l; destruct (i =? 0); reflexivity.
Qed.

(** All main circuits have the setup and the challenges of the first. *)
Lemma chain_uniform l : forall i p pc end_pc, circuit_chain i (Some p) pc l end_pc ->
  Forall (fun c => setup_caps p = setup_caps (fst c) /\ same_challenges p (fst c)) l.
Proof.
  induction l as [|[cur pub] l IH]; intros i p pc end_pc Hc; [constructor|].
  destruct Hc as (_ & _ & (Es & [Em Ed] & _) & _ & pc' & _ & Hc). constructor; [split; [exact Es | split; assumption]|].
  eapply Forall_impl; [exact (IH _ _ _ _ Hc)|]. intros c (E1 & E2 & E3).
  cbn in E1. split; [congruence|]. split; [rewrite Em; exact E2 | rewrite Ed; exact E3].
Qed.

Lemma requests_bound table : forall delegations, Forall (fun c => 2 ^ 12 <= dc_requests_per_circuit c < 2 ^ 22) table ->
  Forall proofs_wf delegations -> length table = length delegations ->
  0 <= requests table delegations <= Z.of_nat (length table) * 2 ^ 54 /\
  Z.of_nat (length (concat (delegations_chunks table delegations))) <= 16 * Z.of_nat (length table) + requests table delegations / 4.
Proof.
  induction table as [|c table IH]; intros [|l ls] Ht Hw Hl; try discriminate.
  { unfold requests, delegations_chunks. cbn [zip_with foldr concat length]. change (0 / 4) with 0. lia. }
  apply Forall_cons_1 in Ht, Hw. destruct Ht as [Hc Ht], Hw as [[Hlen Hlw] Hw]. destruct (IH ls Ht Hw ltac:(cbn in Hl; lia)) as [Hr Hd].
  unfold requests, delegations_chunks in *. cbn [zip_with foldr concat length]. rewrite concat_app, length_app, (length_chunks c l Hlw).
  set (r := foldr Z.add 0 _) in *. split; [nia|].
  assert (Hdiv : (Z.of_nat (length l) * dc_requests_per_circuit c + r) / 4 >= Z.of_nat (length l) * 1024 + r / 4).
  { pose proof (Z.div_mod r 4 ltac:(lia)). pose proof (Z.mod_pos_bound r 4 ltac:(lia)).
    enough (Z.of_nat (length l) * 1024 + r / 4 <= (Z.of_nat (length l) * dc_requests_per_circuit c + r) / 4) by lia.
    apply Z.div_le_lower_bound; nia. }
  destruct l; lia.
Qed.

Lemma with_hasher_then {A B} slot (m : hprog H A) (k : A -> prog H B) s a h' : m slot = Ok a h' ->
  bind (with_hasher slot m) k s = k a s.
Proof. intros E. unfold bind, with_hasher. rewrite E. reflexivity. Qed.

Lemma contribution_observes regs c :
  observes (match produce_register_contribution_into_memory_accumulator_raw regs (memory_argument_linearization_challenges c)
                    (memory_argument_gamma c) with
            | Some r => ret r
            | None => panic "called `Option::unwrap()` on a `None` value"
            end : prog H Mersenne31Quartic)
    (fun r => produce_register_contribution_into_memory_accumulator_raw regs (memory_argument_linearization_challenges c)
                (memory_argument_gamma c) = Some r).
Proof.
  destruct (produce_register_contribution_into_memory_accumulator_raw _ _ _) as [r|].
  - eapply observes_iff; [apply observes_ret|]. intros a. split; congruence.
  - eapply observes_iff; [apply observes_panic|]. intros a. split; [easy | discriminate].
Qed.

(** From accumulator to argument. *)
Lemma memory_equation (m c r w : Q) : vmul c r = w -> r <> vzero -> vmul m c = vone <-> vmul m w = r.
Proof.
  intros <- Hr. split; intros E.
  - transitivity (vmul (vmul m c) r); [ring | rewrite E; ring].
  - destruct (fv_integral (vsub (vmul m c) vone) r) as [G|G]; [ | | contradiction].
    + transitivity (vsub (vmul m (vmul c r)) r); [ring | rewrite E; ring].
    + transitivity (vadd (vsub (vmul m c) vone) vone); [ring | rewrite G; ring].
Qed.

(** What the final checks establish, for accumulators with values [m] and [delta]. *)
Definition arguments_ok (regs : list (Z * (Z * Z))) (reference : ProofOutput) (seed : Seed) (n : Z) (delta : Q) : Prop :=
  n < ORDER /\ memory_challenge_values (memory_challenges reference) = map fabs (take 7 (drawn_elements seed)) /\
  map delegation_challenge_values (delegation_challenges reference) = [map fabs (take 4 (drop 7 (drawn_elements seed)))] /\
  delta = vzero.
Definition memory_argument_ok (regs : list (Z * (Z * Z))) (reference : ProofOutput) (m : Q) : Prop :=
  vmul m (write_set (memory_challenge_values (memory_challenges reference)))
    = read_set (memory_challenge_values (memory_challenges reference)) regs /\
  read_set (memory_challenge_values (memory_challenges reference)) regs <> vzero.

Lemma check_arguments_ok regs reference d draw_slot s ws m delta n : length regs = 32%nat -> output_wf 1 reference ->
  h_wf draw_slot -> absorbed (transcript s) ws -> fits ws -> reps (d_memory_accumulator d) m ->
  reps (d_delegation_set_accumulator d) delta -> total_delegation_requests d = n -> exists t',
  (forall s', check_arguments regs reference d draw_slot s = Ok tt s' ->
     arguments_ok regs reference (words_hash true ws) n delta /\ (Forall register_in_range regs -> memory_argument_ok regs reference m) /\
     s' = Build_Env (source s) t' (result_hasher s)) /\
  (arguments_ok regs reference (words_hash true ws) n delta -> Forall register_in_range regs -> memory_argument_ok regs reference m ->
   check_arguments regs reference d draw_slot s = Ok tt (Build_Env (source s) t' (result_hasher s))).
Proof.
  intros Hl Wr Hw Ha Hf Hm Hd Hn. destruct (finalize_reset_ok _ _ Ha Hf) as (t' & Ef & _). exists t'.
  assert (Hseed : length (words_hash true ws) = 8%nat) by apply length_words_hash.
  destruct (draw_challenges_ok draw_slot _ Hw Hseed (words_hash_u32 true ws Hf)) as (mem & del & h' & Edraw & Wm & Vm & Wd & Vd).
  pose proof Wr as (_ & _ & Wmc & [Ldc Wdc] & _). destruct (delegation_challenges reference) as [|own [|]] eqn:Eown; try discriminate.
  apply Forall_cons_1 in Wdc. destruct Wdc as [Wown _].
  set (s1 := Build_Env (source s) t' (result_hasher s)). set (seed := words_hash true ws) in *.
  assert (E : forall s', check_arguments regs reference d draw_slot s = Ok tt s' <->
    n < ORDER /\ memory_challenge_values mem = memory_challenge_values (memory_challenges reference) /\
    delegation_challenge_values del = delegation_challenge_values own /\
    exists c, produce_register_contribution_into_memory_accumulator_raw regs
        (memory_argument_linearization_challenges (memory_challenges reference)) (memory_argument_gamma (memory_challenges reference)) = Some c /\
      feq (mul_assign (d_memory_accumulator d) c) ONE = true /\ feq (d_delegation_set_accumulator d) ZERO = true /\ s' = s1).
  { intros s'. unfold check_arguments. rewrite assert_then, Z.ltb_lt, Hn. unfold on_transcript, zoom, bind at 1. rewrite Ef. fold s1.
    rewrite (with_hasher_then _ _ _ _ _ _ Edraw). cbn [memory_argument delegation_argument].
    rewrite assert_then, (memory_challenges_eq_iff mem _ Wm Wmc), bind_ret_l.
    rewrite (observes_then _ _ _ _ _ _ (index_observes _ 0)). rewrite Eown. cbn [lookup list_lookup].
    split.
    - intros (H1' & H2' & own' & [= <-] & Er). rewrite assert_then, (delegation_challenges_eq_iff del own Wd Wown) in Er. destruct Er as [H3' Er].
      rewrite (observes_then _ _ _ _ _ _ (contribution_observes regs _)) in Er. destruct Er as (c & Ec & Er).
      rewrite assert_then in Er. destruct Er as [H4' Er]. apply observes_assert in Er. destruct Er as [H5' ->]. do 3 (split; [assumption|]). eauto.
    - intros (H1' & H2' & H3' & c & Ec & H4' & H5' & ->). do 2 (split; [assumption|]). exists own. split; [reflexivity|].
      rewrite assert_then, (delegation_challenges_eq_iff del own Wd Wown). split; [exact H3'|].
      rewrite (observes_then _ _ _ _ _ _ (contribution_observes regs _)). exists c. split; [exact Ec|].
      rewrite assert_then. split; [exact H4'|]. apply observes_assert. auto. }
  assert (Hdelta : feq (d_delegation_set_accumulator d) ZERO = true <-> delta = vzero).
  { destruct Hd as [Wdelta <-]. destruct (ZERO_ok (F := Mersenne31Quartic)) as [Wz Vz]. rewrite (feq_ok _ _ Wdelta Wz), Vz. reflexivity. }
  assert (Hmem : forall c, Forall register_in_range regs -> produce_register_contribution_into_memory_accumulator_raw regs
      (memory_argument_linearization_challenges (memory_challenges reference)) (memory_argument_gamma (memory_challenges reference)) = Some c ->
      feq (mul_assign (d_memory_accumulator d) c) ONE = true <-> memory_argument_ok regs reference m).
  { intros c Hr Ec. pose proof (register_contribution_ok _ regs Wmc Hr ltac:(rewrite Hl; unfold ORDER; lia)) as Hc. rewrite Ec in Hc.
    destruct Hc as (Wc & Vc & Hnz). destruct Hm as [Wacc Vacc]. destruct (mul_ok _ _ Wacc Wc) as [Wmul Vmul].
    destruct (ONE_ok (F := Mersenne31Quartic)) as [W1 V1]. rewrite (feq_ok _ _ Wmul W1), Vmul, V1, Vacc, (memory_equation _ _ _ _ Vc Hnz).
    unfold memory_argument_ok. tauto. }
  split.
  - intros s' Er. apply E in Er. destruct Er as (Hlt & E1 & E2 & c & Ec & E3 & E4 & ->). unfold arguments_ok. rewrite Eown. cbn [map].
    rewrite <- E1, Vm, <- E2, Vd. split_and!; auto; [apply Hdelta; exact E4 |]. intros Hr. apply (Hmem c Hr Ec). exact E3.
  - intros (Hlt & E1 & E2 & E4) Hr Hma. apply E. rewrite Eown in E2. cbn [map] in E2.
    split; [exact Hlt|]. split; [rewrite Vm; symmetry; exact E1|]. split; [rewrite Vd; exact (eq_sym (f_equal (hd []) E2))|].
    pose proof (register_contribution_ok _ regs Wmc Hr ltac:(rewrite Hl; unfold ORDER; lia)) as Hc.
    destruct (produce_register_contribution_into_memory_accumulator_raw regs _ _) as [c|] eqn:Ec; [|destruct Hma; contradiction].
    exists c. split; [reflexivity|]. split; [apply (Hmem c Hr eq_refl); exact Hma|]. split; [apply Hdelta; exact E4 | reflexivity].
Qed.

(** The run up to the final checks, as one block for both directions. *)
Context (BASE_LAYER : bool) (main : VerifierFunctionPointer) (Hmain : circuit_verifier_ok 1 2 main)
  (table : list DelegationCircuit) (Htable : table_ok table) (uninit_output : ProofOutput) (uninit_inputs : ProofPublicInputs)
  (transcript_slot draw_slot result_slot : H).

Definition initial_state : MainState :=
  {| proof_output_0 := uninit_output; proof_output_1 := uninit_output; state_variables := uninit_inputs;
     expected_input_pc := 0; memory_accumulator := ONE; delegation_set_accumulator := ZERO |}.

Lemma initial_tracks : tracks 0 [] initial_state.
Proof. split_and!; try reflexivity; [constructor | apply reps_one | apply reps_zero | discriminate]. Qed.

Definition initial_delegation_state (st : MainState) : DelegationState :=
  {| delegation_proof_output := uninit_output; delegation_state_variables := uninit_inputs;
     d_memory_accumulator := memory_accumulator st; d_delegation_set_accumulator := delegation_set_accumulator st;
     total_delegation_requests := 0 |}.

Lemma initial_d_tracks i done st : tracks i done st ->
  d_tracks (vprod (map memory_value done)) (vsuml (map delegation_value done)) [] 0 (initial_delegation_state st).
Proof.
  intros (_ & _ & Hm & Hd & _). split_and!; [| |reflexivity]; cbn [initial_delegation_state d_memory_accumulator d_delegation_set_accumulator map].
  - replace (vmul _ (vprod [])) with (vprod (map memory_value done)); [exact Hm|]. rewrite (eq_refl : vprod [] = vone). ring.
  - replace (vsub _ (vsuml [])) with (vsuml (map delegation_value done)); [exact Hd|]. rewrite (eq_refl : vsuml [] = vzero). ring.
Qed.

(** The proof the final checks use agrees with the first one. *)
Lemma reference_agrees st l i end_pc first : tracks i l st -> l <> [] -> fst <$> head l = Some first -> circuit_chain 0 None 0 l end_pc ->
  output_wf 1 (proof_output_0 st) /\ setup_caps (proof_output_0 st) = setup_caps first /\ same_challenges (proof_output_0 st) first.
Proof.
  intros (_ & Hw & _ & _ & Hlast) Hne Hf Hc. destruct (last l) as [c|] eqn:El; [|apply last_None in El; contradiction].
  destruct (Hlast c eq_refl) as [_ Hin]. apply in_map_iff in Hin. destruct Hin as (x & Ex & Hin). rewrite <- Ex.
  rewrite Forall_forall in Hw. split; [apply Hw, list_elem_of_In, Hin|].
  destruct l as [|[f fi] l]; [congruence|]. cbn in Hf. injection Hf as ->. destruct Hc as (_ & _ & _ & _ & pc & _ & Hc).
  destruct Hin as [<- | Hin]; [split; [reflexivity | split; reflexivity]|].
  pose proof (chain_uniform l _ _ _ _ Hc) as Hu. rewrite Forall_forall in Hu.
  destruct (Hu x (proj2 (list_elem_of_In _ _) Hin)) as (E1 & E2 & E3). split; [auto | split; auto].
Qed.

Lemma circuits_words first l : fst <$> head l = Some first ->
  concat (circuits_chunks 0 l) = setup_caps_flattened first ++ concat (map (fun c => memory_caps_flattened (fst c)) l).
Proof. destruct l as [|c l]; [discriminate|]. intros [= <-]. reflexivity. Qed.

Lemma length_circuits l first : Forall (fun c => output_wf 1 (fst c)) l -> fst <$> head l = Some first ->
  length (concat (circuits_chunks 0 l)) = (1024 + 1024 * length l)%nat.
Proof.
  intros Hw Hf. rewrite (circuits_words first l Hf), length_app, (length_concat_const 1024), length_map.
  - destruct l as [|c l]; [discriminate|]. injection Hf as <-. apply Forall_cons_1 in Hw. destruct Hw as [(Ws & _) _].
    unfold setup_caps_flattened. rewrite (length_flatten_caps _ _ _ Ws). reflexivity.
  - apply Forall_map. eapply Forall_impl; [exact Hw|]. intros c (_ & Wm & _). unfold memory_caps_flattened.
    rewrite (length_flatten_caps _ _ _ Wm). reflexivity.
Qed.

(** No more than [2^30] words are hashed. *)
Lemma statement_fits st first delegations : length (st_registers st) = 32%nat -> Forall (fun c => output_wf 1 (fst c)) (st_circuits st) ->
  first_output st first -> Z.of_nat (length (st_circuits st)) <= MAX_BASE_LAYER_CIRCUITS -> st_delegations st = delegations ->
  Forall proofs_wf delegations -> length table = length delegations -> requests table delegations < ORDER ->
  fits ((registers_words (st_registers st) ++ concat (circuits_chunks 0 (st_circuits st))) ++ concat (delegations_chunks table delegations)).
Proof.
  intros Hl Hw Hf Hmax <- Hdw Hlen Hreq. destruct Htable as (_ & Hb & Ht).
  destruct (requests_bound table (st_delegations st) Hb Hdw Hlen) as [_ Hd].
  rewrite !length_app, length_registers_words, Hl, (length_circuits _ first Hw Hf).
  assert (MAX_BASE_LAYER_CIRCUITS = 16384) as Em by reflexivity. rewrite Em in Hmax.
  assert (requests table (st_delegations st) / 4 < 2 ^ 29) by (apply Z.div_lt_upper_bound; unfold ORDER in Hreq; lia). lia.
Qed.

Lemma max_circuits : (if BASE_LAYER then u32 MAX_BASE_LAYER_CIRCUITS else u32 MAX_RECURSION_LAYER_CIRCUITS) = MAX_BASE_LAYER_CIRCUITS.
Proof. destruct BASE_LAYER; reflexivity. Qed.

(** The run as a sequence of the blocks above. *)
Lemma verify_then s out s' : verify_full_statement BASE_LAYER main table uninit_output uninit_inputs transcript_slot draw_slot result_slot s = Ok out s' <->
  exists regs num o1 t1, length regs = 32%nat /\ source s = registers_words regs ++ num :: o1 /\ fst <$> regs !! 0%nat = Some 0 /\
    Buffering.absorb (registers_words regs) (Buffering.new transcript_slot) = Ok tt t1 /\ 0 < num <= MAX_BASE_LAYER_CIRCUITS /\
    (let! st := main_loop main (Z.to_nat num) 0 initial_state in
     assert_full_buffer ;;!
     let! d := delegations_loop table (proof_output_0 st) 0 (initial_delegation_state st) in
     check_arguments regs (proof_output_0 st) d draw_slot ;;!
     produce_output BASE_LAYER regs (proof_output_0 st) (expected_input_pc st) result_slot)
      (Build_Env o1 t1 (result_hasher s)) = Ok out s'.
Proof.
  unfold verify_full_statement. rewrite (bind_step _ _ s tt (Build_Env (source s) (Buffering.new transcript_slot) (result_hasher s))) by reflexivity.
  rewrite read_registers_then. cbn [source transcript result_hasher]. rewrite max_circuits. fold initial_state. split.
  - intros (regs & o0 & Hl & Eo & E). rewrite (observes_then _ _ _ _ _ _ (register_value_observes regs 0)) in E. destruct E as (x & Hx & E).
    rewrite assert_then, Z.eqb_eq in E. destruct E as [-> E]. rewrite on_transcript_then in E. destruct E as ([] & t1 & Et & E).
    rewrite read_word_then in E. destruct E as (num & o1 & Eo1 & E). cbn [source] in Eo1. subst o0.
    rewrite !assert_then, Z.gtb_lt, Z.leb_le in E. destruct E as (H1' & H2' & E). exists regs, num, o1, t1. split_and!; auto.
  - intros (regs & num & o1 & t1 & Hl & Eo & Hx & Et & Hnum & E). exists regs, (num :: o1). split; [exact Hl|]. split; [exact Eo|].
    rewrite (observes_then _ _ _ _ _ _ (register_value_observes regs 0)). exists 0. split; [exact Hx|]. rewrite assert_then. split; [reflexivity|].
    rewrite on_transcript_then. exists tt, t1. split; [exact Et|]. rewrite read_word_then. exists num, o1. split; [reflexivity|].
    rewrite !assert_then, Z.gtb_lt, Z.leb_le. split; [lia|]. split; [lia | exact E].
Qed.

Lemma requests_u64 delegations : Forall proofs_wf delegations -> length table = length delegations ->
  u64 (0 + requests table delegations) = requests table delegations.
Proof.
  intros Hw Hlen. destruct Htable as (_ & Hb & Ht). destruct (requests_bound table delegations Hb Hw Hlen) as [Hr _].
  apply Z.mod_small. lia.
Qed.

(** The transcript after registers, main circuits and delegation circuits. *)
Lemma transcript_ok st first : h_wf transcript_slot -> length (st_registers st) = 32%nat ->
  Forall (fun c => output_wf 1 (fst c)) (st_circuits st) -> first_output st first ->
  Z.of_nat (length (st_circuits st)) <= MAX_BASE_LAYER_CIRCUITS -> Forall proofs_wf (st_delegations st) ->
  length table = length (st_delegations st) -> requests table (st_delegations st) < ORDER ->
  fits (statement_words table st first) /\ exists t1 t2 t3,
    Buffering.absorb (registers_words (st_registers st)) (Buffering.new transcript_slot) = Ok tt t1 /\
    run_ops (circuits_ops 0 (st_circuits st)) t1 = Ok tt t2 /\
    absorbed t2 (registers_words (st_registers st) ++ concat (circuits_chunks 0 (st_circuits st))) /\
    run_ops (map Absorb (delegations_chunks table (st_delegations st))) t2 = Ok tt t3 /\
    absorbed t3 (statement_words table st first).
Proof.
  intros Wt Hl Wl Hf Hmax Hdwf Hdlen Hlt. pose proof (statement_fits st first _ Hl Wl Hf Hmax eq_refl Hdwf Hdlen Hlt) as Hfits.
  assert (Ew : statement_words table st first =
    (registers_words (st_registers st) ++ concat (circuits_chunks 0 (st_circuits st))) ++ concat (delegations_chunks table (st_delegations st))).
  { unfold statement_words. rewrite (circuits_words first _ Hf), <- !app_assoc. reflexivity. }
  rewrite Ew. split; [exact Hfits|]. rewrite (circuits_ops_chunks _ 0 ltac:(lia)).
  assert (Hfits1 : fits (registers_words (st_registers st) ++ concat (circuits_chunks 0 (st_circuits st)))) by (rewrite length_app in Hfits; lia).
  destruct (absorb_ok (registers_words (st_registers st)) _ _ (new_absorbed transcript_slot Wt)) as (t1 & E1 & Ha1);
    [rewrite length_app in Hfits1; cbn; lia|].
  destruct (run_chunks_ok _ _ _ Ha1 Hfits1) as (t2 & E2 & Ha2). destruct (run_chunks_ok _ _ _ Ha2 Hfits) as (t3 & E3 & Ha3).
  exists t1, t2, t3. auto.
Qed.

(** C3: A statement the verifier accepts holds.  For any circuit verifiers that
    return well-formed outputs and consume words of the oracle, and whatever the
    oracle supplies: the accepted words are 32 registers with [x0 = 0], a chain of
    main circuits (numbered from 0, over one setup and one set of challenges, with
    continuous pc from 0 and ordered lazy initialisation) and proofs of the
    delegation circuits under the table's setups and the same challenges; these
    challenges are the ones drawn from the hash of registers, setup and all memory
    commitments; requests and responses of delegations cancel; the output is
    registers 10-17 with the continued chain of programs; and, if the timestamps
    supplied for the registers are representations of field elements (at most
    [ORDER], which the code does not check), the products of memory accumulators
    match the registers' read and write sets. *)
Theorem full_statement_sound s out s' : h_wf transcript_slot -> h_wf draw_slot -> h_wf result_slot -> Forall is_u32 (source s) ->
  verify_full_statement BASE_LAYER main table uninit_output uninit_inputs transcript_slot draw_slot result_slot s = Ok out s' ->
  exists st first end_pc o' chain, holds_statement main table st (source s) o' /\ first_output st first /\
    statement_holds table st first end_pc /\ out = values_of (st_registers st) 10 8 ++ chain /\
    program_chain BASE_LAYER (st_registers st) (words_hash true (end_pc :: setup_caps_flattened first)) o' chain.
Proof.
  intros Wt Wd Wr Hu E. apply verify_then in E. destruct E as (regs & num & o1 & t1 & Hl & Eo & Hx & Et & Hnum & E).
  rewrite Eo in Hu. apply Forall_app in Hu. destruct Hu as [_ Hu]. apply Forall_cons_1 in Hu. destruct Hu as [_ Hu].
  apply bind_ok in E. destruct E as (st1 & s1 & E1 & E).
  destruct (main_loop_inv main Hmain _ _ _ _ _ _ [] initial_tracks E1) as (l & o2 & t2 & Hlen & Hcalls & Hchain & Hops & -> & Htr).
  cbn [source transcript result_hasher app last fmap option_fmap option_map] in *. change (expected_input_pc initial_state) with 0 in Hchain.
  unfold assert_full_buffer in E. rewrite !bind_assoc in E. unfold bind at 1, gets in E. rewrite assert_then in E. destruct E as [_ E].
  assert (Hne : l <> []) by (intros ->; cbn in Hlen; lia). assert (Hf : exists first, fst <$> head l = Some first).
  { destruct l as [|c l]; [congruence|]. eexists. reflexivity. }
  destruct Hf as [first Hf]. destruct (reference_agrees st1 l _ _ first Htr Hne Hf Hchain) as (Wref & Eset & [Emem Edel]).
  apply bind_ok in E. destruct E as (d & s2 & E2 & E). destruct (calls_consume _ 1 2 l Hmain _ _ Hcalls) as [used Eused].
  rewrite Eused in Hu. apply Forall_app in Hu. destruct Hu as [_ Hu].
  destruct (delegations_loop_inv (proof_output_0 st1) Wref _ _ table (proj1 Htable) 0 _ (Build_Env o2 t2 (result_hasher s)) _ _ _ _
    (initial_d_tracks _ _ _ Htr) Hu E2) as (dels & o' & t3 & Hdc & Hinc & Hdok & Hdwf & Hops' & -> & Hdt).
  cbn [source transcript result_hasher app] in *. apply bind_ok in E. destruct E as ([] & s3 & E3 & E).
  pose proof (Forall2_length _ _ _ Hdok) as Hdlen. destruct Hdt as (Hm & Hd & Hreq). rewrite (requests_u64 dels Hdwf Hdlen) in Hreq.
  set (st := {| st_registers := regs; st_circuits := l; st_delegations := dels |}).
  pose proof Htr as (_ & Wl & _). assert (Hnum' : num = Z.of_nat (length l)) by lia.
  assert (Hlt : requests table dels < ORDER).
  { unfold check_arguments in E3. rewrite assert_then, Z.ltb_lt, Hreq in E3. apply E3. }
  destruct (transcript_ok st first Wt Hl Wl Hf ltac:(cbn; lia) Hdwf Hdlen Hlt) as (Hfits & t1' & t2' & t3' & Et' & Et2 & _ & Et3 & Ha3).
  cbn [st st_registers st_circuits st_delegations] in Et', Et2, Et3. rewrite Et in Et'. injection Et' as <-.
  rewrite Hops in Et2. injection Et2 as <-. rewrite Hops' in Et3. injection Et3 as <-.
  destruct (check_arguments_ok regs (proof_output_0 st1) d draw_slot (Build_Env o' t3 (result_hasher s)) _ _ _ _ Hl Wref Wd Ha3 Hfits Hm Hd Hreq)
    as (t4 & Hcheck & _). destruct (Hcheck _ E3) as ((_ & Hmc & Hdc' & Hzero) & Hmarg & ->). cbn [source result_hasher] in *.
  assert (Hsetup : setup_caps_flattened (proof_output_0 st1) = setup_caps_flattened first) by (unfold setup_caps_flattened; rewrite Eset; reflexivity).
  destruct (proj1 (produce_output_iff BASE_LAYER regs (proof_output_0 st1) (expected_input_pc st1) result_slot
    (Build_Env o' t4 (result_hasher s)) out Wr Hl ltac:(unfold setup_caps_flattened; rewrite (length_flatten_caps _ _ _ (proj1 Wref)); reflexivity))
    (ex_intro _ s' E)) as (chain & Eout & Hpc).
  rewrite Hsetup in Hpc. exists st, first, (expected_input_pc st1), o', chain. unfold first_output.
  split; [|split; [exact Hf | split; [|split; [exact Eout | exact Hpc]]]].
  - split; [exact Hl|]. exists o1, o2. cbn [st st_registers st_circuits st_delegations]. rewrite Eo, Hnum'. auto.
  - unfold memory_argument_ok in Hmarg. rewrite Emem in Hmarg, Hmc. rewrite Edel in Hdc'. constructor; auto.
    + cbn [st st_circuits]. lia.
    + eapply Forall2_impl; [exact Hdok|]. intros c dl Hp. eapply Forall_impl; [exact Hp|].
      intros x (Ea & Eb & Ec & Ed & Ee). split_and!; auto. split; [rewrite Ed; exact Emem | rewrite Ee; exact Edel].
    + cbn [st st_circuits st_delegations]. transitivity (vadd (vsub (vsuml (map delegation_value l)) (vsuml (map delegation_value (concat dels))))
        (vsuml (map delegation_value (concat dels)))); [ring | rewrite Hzero; ring].
Qed.

Lemma delegation_calls_wf circuits : Forall circuit_ok circuits -> forall o delegations o', Forall is_u32 o ->
  delegation_calls circuits o delegations o' -> Forall proofs_wf delegations /\ length circuits = length delegations.
Proof.
  induction 1 as [|c circuits Hc _ IH]; intros o [|l ls] o' Hu Hd; try contradiction; [split; [constructor | reflexivity]|].
  cbn [delegation_calls] in Hd. destruct Hd as (o1 & o2 & -> & Hcalls & Hd). apply Forall_cons_1 in Hu. destruct Hu as [Hn Hu].
  destruct (calls_consume _ 0 0 l (proj1 Hc) _ _ Hcalls) as [used ->]. apply Forall_app in Hu. destruct Hu as [_ Hu].
  destruct (IH _ _ _ Hu Hd) as [Hw Hl]. split; [|cbn; lia]. constructor; [|exact Hw].
  split; [unfold is_u32 in Hn; lia | exact (calls_wf _ 0 0 l (proj1 Hc) _ _ Hcalls)].
Qed.

Lemma statement_accepted s st first end_pc o' chain :
  h_wf transcript_slot -> h_wf draw_slot -> h_wf result_slot -> Forall is_u32 (source s) ->
  holds_statement main table st (source s) o' -> first_output st first -> statement_holds table st first end_pc ->
  Forall register_in_range (st_registers st) ->
  program_chain BASE_LAYER (st_registers st) (words_hash true (end_pc :: setup_caps_flattened first)) o' chain ->
  exists s', verify_full_statement BASE_LAYER main table uninit_output uninit_inputs transcript_slot draw_slot result_slot s =
    Ok (values_of (st_registers st) 10 8 ++ chain) s'.
Proof.
  intros Wt Wd Wr Hu (Hl & o1 & o2 & Eo & Hcalls & Hdc) Hf Hst Hrange Hchain.
  rewrite Eo in Hu. apply Forall_app in Hu. destruct Hu as [_ Hu]. apply Forall_cons_1 in Hu. destruct Hu as [_ Hu].
  destruct (calls_consume _ 1 2 _ Hmain _ _ Hcalls) as [used Eused]. rewrite Eused in Hu. apply Forall_app in Hu. destruct Hu as [_ Hu].
  destruct (delegation_calls_wf table (proj1 Htable) _ _ _ Hu Hdc) as [Hdwf Hdlen]. pose proof (calls_wf _ 1 2 _ Hmain _ _ Hcalls) as Wl.
  destruct (transcript_ok st first Wt Hl Wl Hf (proj2 (sh_count _ _ _ _ Hst)) Hdwf Hdlen (sh_requests _ _ _ _ Hst))
    as (Hfits & t1 & t2 & t3 & Et1 & Et2 & Ha2 & Et3 & Ha3).
  destruct (main_loop_run main Hmain (st_circuits st) 0 initial_state (Build_Env o1 t1 (result_hasher s)) o2 t2 [] end_pc
    initial_tracks Hcalls (sh_chain _ _ _ _ Hst) Et2) as (st1 & E1 & Epc & Htr). cbn [app result_hasher] in Htr, E1.
  assert (Hne : st_circuits st <> []) by (intros E; unfold first_output in Hf; rewrite E in Hf; discriminate).
  destruct (reference_agrees st1 _ _ _ first Htr Hne Hf (sh_chain _ _ _ _ Hst)) as (Wref & Eset & [Emem Edel]).
  assert (Hdok : Forall2 (proofs_ok (proof_output_0 st1)) table (st_delegations st)).
  { eapply Forall2_impl; [exact (sh_delegations _ _ _ _ Hst)|]. intros c dl Hp. eapply Forall_impl; [exact Hp|].
    intros x (Ea & Eb & Ec & Ed & Ee). split_and!; auto. split; [rewrite Ed; exact (eq_sym Emem) | rewrite Ee; exact (eq_sym Edel)]. }
  assert (Hm16 : (length (registers_words (st_registers st) ++ concat (circuits_chunks 0 (st_circuits st))) mod 16 = 0)%nat).
  { rewrite length_app, length_registers_words, Hl, (length_circuits _ first Wl Hf).
    replace (3 * 32 + (1024 + 1024 * length (st_circuits st)))%nat with ((70 + 64 * length (st_circuits st)) * 16)%nat by lia. apply Nat.Div0.mod_mul. }
  assert (Hwne : registers_words (st_registers st) ++ concat (circuits_chunks 0 (st_circuits st)) <> []).
  { intros E. apply (f_equal length) in E. rewrite length_app, length_registers_words, Hl in E. cbn in E. lia. }
  destruct (delegations_loop_run (proof_output_0 st1) Wref _ _ table (proj1 Htable) (st_delegations st) 0 (initial_delegation_state st1)
    (Build_Env o2 t2 (result_hasher s)) o' [] 0 _ (initial_d_tracks _ _ _ Htr) Ha2 Hwne Hm16
    ltac:(rewrite <- app_assoc, (circuits_words first _ Hf), <- app_assoc; exact Hfits) Hdc (sh_types _ _ _ _ Hst) Hdok)
    as (d & t3' & E2 & Ha3' & Hm & Hd & Hreq).
  rewrite <- app_assoc, (circuits_words first _ Hf), <- app_assoc in Ha3'. fold (statement_words table st first) in Ha3'.
  rewrite (requests_u64 _ Hdwf Hdlen) in Hreq. cbn [app] in Hm, Hd.
  destruct (check_arguments_ok (st_registers st) (proof_output_0 st1) d draw_slot (Build_Env o' t3' (result_hasher s)) _ _ _ _ Hl Wref Wd Ha3' Hfits Hm Hd Hreq)
    as (t4 & _ & Hcheck).
  assert (E3 : check_arguments (st_registers st) (proof_output_0 st1) d draw_slot (Build_Env o' t3' (result_hasher s)) =
    Ok tt (Build_Env o' t4 (result_hasher s))).
  { apply Hcheck; [|exact Hrange|].
    - unfold arguments_ok. rewrite Emem, Edel. split; [apply (sh_requests _ _ _ _ Hst)|]. split; [apply (sh_memory_challenges _ _ _ _ Hst)|].
      split; [apply (sh_delegation_challenges _ _ _ _ Hst)|]. rewrite (sh_delegation_sum _ _ _ _ Hst). ring.
    - unfold memory_argument_ok. rewrite Emem. exact (sh_memory _ _ _ _ Hst Hrange). }
  assert (Hsetup : setup_caps_flattened (proof_output_0 st1) = setup_caps_flattened first) by (unfold setup_caps_flattened; rewrite Eset; reflexivity).
  destruct (proj2 (produce_output_iff BASE_LAYER (st_registers st) (proof_output_0 st1) (expected_input_pc st1) result_slot
    (Build_Env o' t4 (result_hasher s)) (values_of (st_registers st) 10 8 ++ chain) Wr Hl
    ltac:(unfold setup_caps_flattened; rewrite (length_flatten_caps _ _ _ (proj1 Wref)); reflexivity))) as (s' & E4).
  { exists chain. split; [reflexivity|]. rewrite Hsetup, Epc. exact Hchain. }
  exists s'. apply verify_then. exists (st_registers st), (Z.of_nat (length (st_circuits st))), o1, t1.
  do 4 (split; [assumption || apply (sh_x0 _ _ _ _ Hst)|]). split; [apply (sh_count _ _ _ _ Hst)|].
  rewrite Nat2Z.id, (bind_step _ _ _ _ _ E1).
  apply (full_buffer_then _ (Build_Env o2 t2 (result_hasher s)) _ _ _ Ha2 Hwne Hm16).
  rewrite (bind_step _ _ _ _ _ E2), (bind_step _ _ _ _ _ E3). exact E4.
Qed.

(** C4: The converse: an oracle that holds a statement with all these properties,
    whose register timestamps are representable, is accepted, with the output
    they determine; no assertion fails and nothing else is read. *)
Theorem full_statement_complete s st first end_pc o' chain :
  h_wf transcript_slot -> h_wf draw_slot -> h_wf result_slot -> Forall is_u32 (source s) ->
  holds_statement main table st (source s) o' -> first_output st first -> statement_holds table st first end_pc ->
  Forall register_in_range (st_registers st) ->
  program_chain BASE_LAYER (st_registers st) (words_hash true (end_pc :: setup_caps_flattened first)) o' chain ->
  exists s', verify_full_statement BASE_LAYER main table uninit_output uninit_inputs transcript_slot draw_slot result_slot s =
    Ok (values_of (st_registers st) 10 8 ++ chain) s'.
Proof. apply statement_accepted. Qed.
End Whole.

(** ** A small statement *)

(** One main circuit and one delegation proof, zero registers, empty caps; the
    challenges are drawn from the hash of exactly these words. *)
Definition zero_caps : list MerkleTreeCap := replicate 2 {| cap := replicate 64 (replicate 8 0) |}.
Definition sample_statement_words : list Z := replicate (96 + 1024 + 1024) 0 ++ (1991 :: replicate 15 0) ++ replicate 1024 0.
(** The seed as the transcript computes it on the plain hasher. *)
Definition sample_transcript : outcome Empty_set (Buffering.Blake2sBufferingTranscript Baseline.Blake2sState) Seed :=
  (Buffering.absorb sample_statement_words ;;! Buffering.finalize_reset) (Buffering.new Baseline.new).
Definition sample_seed : Seed := Eval vm_compute in match sample_transcript with Ok seed _ => seed | _ => [] end.
Definition sample_elements : list Mersenne31Quartic := Eval vm_compute in drawn_elements sample_seed.
Definition sample_element (i : nat) : Mersenne31Quartic := nth i sample_elements ZERO.
Definition zero_boundary_values : AuxArgumentsBoundaryValues :=
  {| lazy_init_first_row := [0; 0]; teardown_value_first_row := [0; 0]; teardown_timestamp_first_row := [0; 0];
     lazy_init_one_before_last_row := [0; 0]; teardown_value_one_before_last_row := [0; 0];
     teardown_timestamp_one_before_last_row := [0; 0] |}.
Definition sample_output (type : Z) (aux : nat) : ProofOutput :=
  {| setup_caps := zero_caps; memory_caps := zero_caps;
     memory_challenges := {| memory_argument_linearization_challenges := take 6 sample_elements; memory_argument_gamma := sample_element 6 |};
     delegation_challenges := [{| delegation_argument_linearization_challenges := take 3 (drop 7 sample_elements);
                                  delegation_argument_gamma := sample_element 10 |}];
     lazy_init_boundary_values := replicate aux zero_boundary_values;
     memory_grand_product_accumulator := ONE; delegation_argument_accumulator := [sample_element 11];
     circuit_sequence := 0; delegation_type := type |}.
Definition sample_main : VerifierFunctionPointer := fun _ _ o =>
  Ok (sample_output 0 1, {| input_state_variables := [0; 0]; output_state_variables := [0x1234; 0] |}) o.
Definition sample_table : list DelegationCircuit :=
  [{| dc_type := 1991; dc_requests_per_circuit := 2 ^ 20; dc_setup_caps := zero_caps;
      dc_verification_function := fun _ _ o => Ok (sample_output 1991 0, {| input_state_variables := []; output_state_variables := [] |}) o |}].
Definition sample_source : list Z := replicate 96 0 ++ [1; 1].
Definition sample_env : Env Baseline.Blake2sState :=
  Build_Env sample_source (Buffering.new Baseline.new) (Buffering.new Baseline.new).
Definition no_inputs : ProofPublicInputs := {| input_state_variables := []; output_state_variables := [] |}.
Notation sample_verification :=
  (verify_full_statement true sample_main sample_table (sample_output 0 1) no_inputs
    Baseline.new Baseline.new Baseline.new sample_env).

Lemma zero_caps_wf : caps_wf CAP_SIZE NUM_COSETS zero_caps.
Proof. split; [reflexivity|]. repeat constructor. Qed.

Lemma sample_elements_wf : elements_wf 12 sample_elements.
Proof. split; [reflexivity|]. repeat (apply Forall_cons_2; [repeat split; cbn; unfold ORDER; lia|]). apply Forall_nil_2. Qed.

Lemma sample_output_wf type aux : output_wf aux (sample_output type aux).
Proof.
  pose proof sample_elements_wf as [_ We]. assert (Wn : forall i, fwf (sample_element i)).
  { intros i. apply (Prelude.Forall_nth_default fwf sample_elements i ZERO); [exact We | apply (ZERO_ok (F := Mersenne31Quartic))]. }
  unfold output_wf, memory_challenges_wf, delegation_challenges_wf, elements_wf, sample_output.
  cbn [setup_caps memory_caps memory_challenges delegation_challenges lazy_init_boundary_values memory_grand_product_accumulator
       delegation_argument_accumulator memory_argument_linearization_challenges memory_argument_gamma].
  split; [apply zero_caps_wf|]. split; [apply zero_caps_wf|].
  split; [split; [split; [reflexivity | apply Forall_take, We] | apply Wn]|].
  split; [split; [reflexivity|]; apply Forall_cons_2; [|apply Forall_nil_2];
          split; [split; [reflexivity | apply Forall_take, Forall_drop, We] | apply Wn]|].
  split; [split; [apply length_replicate | apply Forall_replicate; repeat (split || constructor); unfold ORDER; lia]|].
  split; [apply (ONE_ok (F := Mersenne31Quartic))|]. split; [reflexivity | apply Forall_cons_2; [apply Wn | apply Forall_nil_2]].
Qed.

Lemma sample_main_ok : circuit_verifier_ok 1 2 sample_main.
Proof.
  constructor; [reflexivity | |].
  - intros b p o out pub o' [= <- <- <-]. split; [apply sample_output_wf|]. repeat (split || constructor); unfold ORDER; lia.
  - intros b p o r o' [= _ <-]. exists []. reflexivity.
Qed.

Lemma sample_table_ok : table_ok sample_table.
Proof.
  split; [|split; [repeat constructor; cbn; lia | cbn; lia]]. constructor; [|constructor]. split; [|apply zero_caps_wf]. constructor; [reflexivity | |].
  - intros b p o out pub o' [= <- <- <-]. split; [apply sample_output_wf|]. repeat (split || constructor).
  - intros b p o r o' [= _ <-]. exists []. reflexivity.
Qed.

Lemma sample_source_u32 : Forall is_u32 (source sample_env).
Proof. cbn. repeat (apply Forall_cons_2; [unfold is_u32; lia|]). apply Forall_nil_2. Qed.

Definition sample_statement : Statement :=
  {| st_registers := replicate 32 (0, (0, 0));
     st_circuits := [(sample_output 0 1, {| input_state_variables := [0; 0]; output_state_variables := [0x1234; 0] |})];
     st_delegations := [[(sample_output 1991 0, {| input_state_variables := []; output_state_variables := [] |})]] |}.

Lemma sample_statement_words_eq : statement_words sample_table sample_statement (sample_output 0 1) = sample_statement_words.
Proof. vm_compute. reflexivity. Qed.

Lemma sample_slot_wf : h_wf Baseline.new.
Proof. split; reflexivity. Qed.

Lemma sample_seed_ok : words_hash true sample_statement_words = sample_seed.
Proof.
  assert (Hf : 4 * Z.of_nat (length sample_statement_words) < 2 ^ 32) by (vm_compute; reflexivity).
  destruct (absorb_ok sample_statement_words _ _ (new_absorbed Baseline.new sample_slot_wf) Hf) as (t1 & E1 & Ha1).
  destruct (finalize_reset_ok _ _ Ha1 Hf) as (t2 & E2 & _). cbn [app] in E2.
  assert (E : sample_transcript = Ok (words_hash true sample_statement_words) t2)
    by (unfold sample_transcript; rewrite (bind_step _ _ _ _ _ E1); exact E2).
  assert (Es : match sample_transcript with Ok seed _ => seed | _ => [] end = sample_seed) by (vm_cast_no_check (eq_refl sample_seed)).
  rewrite E in Es. exact Es.
Qed.

Lemma sample_drawn : drawn_elements (words_hash true sample_statement_words) = sample_elements.
Proof. rewrite sample_seed_ok. vm_compute. reflexivity. Qed.

Lemma sample_registers_in_range : Forall register_in_range (st_registers sample_statement).
Proof. apply Forall_replicate. unfold register_in_range, is_u32, repr, ORDER. cbn. lia. Qed.

Lemma unit_product (a w : fv (F := Mersenne31Quartic)) : a = vone -> vmul a w = w.
Proof. intros ->. apply vmul_1_l. Qed.

Lemma sample_product : vmul (vprod (map memory_value (st_circuits sample_statement)))
  (vprod (map memory_value (concat (st_delegations sample_statement)))) = vone.
Proof. vm_compute. reflexivity. Qed.

Lemma sample_statement_holds : statement_holds sample_table sample_statement (sample_output 0 1) 0x1234.
Proof.
  pose proof (sample_output_wf 0 1) as (_ & _ & Wm & _). set (c := memory_challenges (sample_output 0 1)) in *.
  pose proof (register_contribution_ok c _ Wm sample_registers_in_range ltac:(unfold ORDER; cbn; lia)) as Hc.
  destruct (produce_register_contribution_into_memory_accumulator_raw _ _ _) as [q|] eqn:Eq in Hc; [|vm_compute in Eq; discriminate Eq].
  assert (Hq : feq q ONE = true) by (vm_compute in Eq; injection Eq as <-; vm_compute; reflexivity). destruct Hc as (Wq & Vq & Hnz).
  destruct (ONE_ok (F := Mersenne31Quartic)) as [W1 V1]. apply (feq_ok _ _ Wq W1) in Hq. rewrite Hq, V1, vmul_1_l in Vq.
  constructor.
  - reflexivity.
  - vm_compute. split; [reflexivity | discriminate].
  - cbn. split_and!; try reflexivity; [split; [unfold is_u32; lia | reflexivity]|]. exists 0x1234.
    split; [split; [unfold is_u32; lia | reflexivity] | reflexivity].
  - cbn. lia.
  - constructor; [|constructor]. constructor; [|constructor]. split; [reflexivity|]. split; [reflexivity|].
    split; [reflexivity|]. split; reflexivity.
  - vm_compute. reflexivity.
  - rewrite sample_statement_words_eq, sample_drawn. vm_compute. reflexivity.
  - rewrite sample_statement_words_eq, sample_drawn. vm_compute. reflexivity.
  - intros _. cbv zeta. fold c. split; [|exact Hnz]. rewrite <- Vq.
    apply unit_product, sample_product.
  - vm_compute. reflexivity.
Qed.

Lemma sample_statement_in_source : holds_statement sample_main sample_table sample_statement (source sample_env) [].
Proof.
  split; [reflexivity|]. exists [1], [1]. split; [reflexivity|]. split.
  - cbn. eexists (sample_output 0 1), no_inputs, _. split; reflexivity.
  - cbn. exists [], []. split; [reflexivity|]. split; [|reflexivity]. eexists (sample_output 0 1), no_inputs, _. split; reflexivity.
Qed.

Lemma sample_accepted : exists out s', sample_verification = Ok out s'.
Proof.
  eexists. refine (statement_accepted true sample_main sample_main_ok sample_table sample_table_ok (sample_output 0 1) no_inputs
    Baseline.new Baseline.new Baseline.new sample_env sample_statement (sample_output 0 1) 0x1234 [] _ sample_slot_wf sample_slot_wf
    sample_slot_wf sample_source_u32 sample_statement_in_source eq_refl sample_statement_holds sample_registers_in_range (conj eq_refl eq_refl)).
Qed.

Lemma full_statement_complete_witness : exists chain s', sample_verification = Ok (values_of (st_registers sample_statement) 10 8 ++ chain) s'.
Proof.
  eexists. refine (full_statement_complete true sample_main sample_main_ok sample_table sample_table_ok (sample_output 0 1) no_inputs
    Baseline.new Baseline.new Baseline.new sample_env sample_statement (sample_output 0 1) 0x1234 [] _ sample_slot_wf sample_slot_wf
    sample_slot_wf sample_source_u32 sample_statement_in_source eq_refl sample_statement_holds sample_registers_in_range (conj eq_refl eq_refl)).
Defined.

Lemma full_statement_sound_witness : exists st end_pc, length (st_circuits st) = 1%nat /\
  circuit_chain 0 None 0 (st_circuits st) end_pc.
Proof.
  destruct sample_accepted as (out & s' & E).
  destruct (full_statement_sound true sample_main sample_main_ok sample_table sample_table_ok (sample_output 0 1) no_inputs
    Baseline.new Baseline.new Baseline.new sample_env out s' sample_slot_wf sample_slot_wf sample_slot_wf sample_source_u32 E) as (st & first & end_pc & o' & chain & Hh & _ & Hst & _).
  exists st, end_pc. split; [|apply (sh_chain _ _ _ _ Hst)]. destruct Hh as (Hl & o1 & o2 & Eo & _).
  pose proof (f_equal (fun o => nth 96 o 0) Eo) as En. cbn beta in En.
  rewrite app_nth2 in En by (rewrite length_registers_words, Hl; lia). rewrite length_registers_words, Hl in En.
  change (1 = Z.of_nat (length (st_circuits st))) in En. lia.
Defined.

