(* ===== verification/MerkleTree.v ===== *)
(** * The prover's Merkle trees

    [prover/src/merkle_trees]: hashing the rows of a trace into leaves
    ([blake2s_hash_leafs.rs], its three versions) and the tree with a cap over
    them ([blake2s_for_everything_tree.rs]).  A trace is the list of its rows,
    a row the list of its field elements; the work is split among threads by the
    geometry of [Worker.v] and written into the chunk each thread owns, so a
    parallel loop is the concatenation of what its threads write.  [None] is a
    panic; an output slot that was never written is [None] inside the list. *)
From stdpp Require Import base list strings.
From Stdlib Require Import ZArith Lia.
From S2P Require Import Prelude MachineInt Worker BitReverse Field Blake2s Hasher.

#[local] Opaque mixing_function Rfc.round.

Definition Digest : Type := list Z.
Definition USE_REDUCED_BLAKE2_ROUNDS : bool := true.

(** ** blake2s_hash_leafs.rs *)

(** [slice.as_chunks::<16>()] *)
Definition as_chunks (row : list Z) : list (list Z) * list Z :=
  let n := (length row / BLAKE2S_BLOCK_SIZE_U32_WORDS)%nat in
  (blocks_of n row, drop (BLAKE2S_BLOCK_SIZE_U32_WORDS * n) row).

(** The loop over the full chunks; [out] is the slot [write_into] points to. *)
Fixpoint absorb_chunks (only_full_rounds : bool) (chunks : list (list Z)) (hasher : Baseline.Blake2sState)
    (out : option Digest) : Baseline.Blake2sState * option Digest :=
  match chunks with
  | [] => (hasher, out)
  | chunk :: rest =>
      let last_round := match rest with [] => true | _ => false end in
      let block := map to_reduced_u32 chunk in
      if last_round && only_full_rounds then
        let '(hasher, digest) := Baseline.absorb_final_block USE_REDUCED_BLAKE2_ROUNDS hasher block
                                   (Z.of_nat BLAKE2S_BLOCK_SIZE_U32_WORDS) in
        absorb_chunks only_full_rounds rest hasher (Some digest)
      else
        absorb_chunks only_full_rounds rest (Baseline.absorb USE_REDUCED_BLAKE2_ROUNDS hasher block) out
  end.

(** The body of the loop over rows: one leaf. *)
Definition hash_leaf (hasher : Baseline.Blake2sState) (row : list Z) : Baseline.Blake2sState * option Digest :=
  let hasher := Baseline.reset hasher in
  let only_full_rounds := (length row mod BLAKE2S_BLOCK_SIZE_U32_WORDS =? 0)%nat in
  let '(chunks, remainder) := as_chunks row in
  let '(hasher, out) := absorb_chunks only_full_rounds chunks hasher None in
  if only_full_rounds then (hasher, out)
  else
    let len := length remainder in
    let block := map to_reduced_u32 remainder ++ replicate (BLAKE2S_BLOCK_SIZE_U32_WORDS - len) 0 in
    let '(hasher, digest) := Baseline.absorb_final_block USE_REDUCED_BLAKE2_ROUNDS hasher block (Z.of_nat len) in
    (hasher, Some digest).

(** A thread hashes its rows one after the other with the same hasher. *)
Fixpoint hash_rows (hasher : Baseline.Blake2sState) (rows : list (list Z))
    : Baseline.Blake2sState * list (option Digest) :=
  match rows with
  | [] => (hasher, [])
  | row :: rest =>
      let '(hasher, digest) := hash_leaf hasher row in
      let '(hasher, digests) := hash_rows hasher rest in
      (hasher, digest :: digests)
  end.

Definition bitreverse_if {T} (bitreverse : bool) (v : list T) : option (list T) :=
  if bitreverse then bitreverse_enumeration_inplace v else Some v.

Definition blake2s_leaf_hashes_for_coset (num_cores : Z) (trace : list (list Z)) (bitreverse : bool)
    : option (list (option Digest)) :=
  let tree_size := Z.of_nat (length trace) in
  if usize_is_power_of_two tree_size then
    match scope num_cores tree_size (fun g thread_idx =>
            snd (hash_rows Baseline.new (thread_slice g 1 trace thread_idx))) with
    | None => None
    | Some leaf_hashes => bitreverse_if bitreverse leaf_hashes
    end
  else None.

(** The pieces of a row between consecutive separators. *)
Fixpoint split_widths (widths : list nat) (row : list Z) : list (list Z) :=
  match widths with
  | [] => []
  | w :: rest => take w row :: split_widths rest (drop w row)
  end.

Fixpoint widths_from (previous : nat) (separators : list nat) : list nat :=
  match separators with
  | [] => []
  | s :: rest => (s - previous)%nat :: widths_from s rest
  end.

Fixpoint increasing (separators : list nat) : bool :=
  match separators with
  | a :: ((b :: _) as rest) => (a <? b)%nat && increasing rest
  | _ => true
  end.

(** [blake2s_leaf_hashes_separated_for_coset]: the digests of tree [j] are those
    of piece [j] of every row; one hasher per thread serves all pieces. *)
Fixpoint hash_separated_rows (hasher : Baseline.Blake2sState) (chunk_widths : list nat) (rows : list (list Z))
    : list (list (option Digest)) :=
  match rows with
  | [] => []
  | row :: rest =>
      let '(hasher, digests) := hash_rows hasher (split_widths chunk_widths row) in
      digests :: hash_separated_rows hasher chunk_widths rest
  end.

Definition blake2s_leaf_hashes_separated_for_coset (num_cores : Z) (trace : list (list Z)) (width : nat)
    (separators : list nat) (bitreverse : bool) : option (list (list (option Digest))) :=
  match last separators with
  | None => None
  | Some end_ =>
      let tree_size := Z.of_nat (length trace) in
      if (end_ <=? width)%nat && increasing separators && usize_is_power_of_two tree_size then
        let chunk_widths := widths_from 0 separators in
        match scope num_cores tree_size (fun g thread_idx =>
                hash_separated_rows Baseline.new chunk_widths (thread_slice g 1 trace thread_idx)) with
        | None => None
        | Some per_row =>
            mapM (fun j => bitreverse_if bitreverse (map (fun digests => nth j digests None) per_row))
                 (seq 0 (length separators))
        end
      else None
  end.

(** [blake2s_leaf_hashes_for_column_major_coset]: a column of quartic elements,
    four base-field words each; a leaf is [combine_by] consecutive elements. *)
Definition blake2s_leaf_hashes_for_column_major_coset (num_cores : Z) (column : list (list Z)) (combine_by : Z)
    (bitreverse : bool) : option (list (option Digest)) :=
  let trace_len := Z.of_nat (length column) in
  if usize_is_power_of_two combine_by && (trace_len mod combine_by =? 0) then
    let tree_size := trace_len / combine_by in
    if usize_is_power_of_two tree_size then
      match scope num_cores tree_size (fun g thread_idx =>
              let source_chunk := thread_slice g combine_by column thread_idx in
              let num_leaves := (length source_chunk / Z.to_nat combine_by)%nat in
              snd (hash_rows Baseline.new
                (map (fun i => concat (take (Z.to_nat combine_by) (drop (i * Z.to_nat combine_by) source_chunk)))
                     (seq 0 num_leaves)))) with
      | None => None
      | Some leaf_hashes => bitreverse_if bitreverse leaf_hashes
      end
    else None
  else None.

(** ** blake2s_for_everything_tree.rs *)

Record Blake2sU32MerkleTreeWithCap : Type := {
  cap_size : Z;
  leaf_hashes : list Digest;
  node_hashes_enumerated_from_leafs : list (list Digest);
}.

(** A pair of digests read as one block. *)
Definition compress (lhs rhs : Digest) : Digest :=
  Baseline.compress_two_to_one USE_REDUCED_BLAKE2_ROUNDS (lhs ++ rhs).

Fixpoint compress_pairs (src : list Digest) : list Digest :=
  match src with
  | lhs :: rhs :: rest => compress lhs rhs :: compress_pairs rest
  | _ => []
  end.

(** One layer: every thread takes twice its chunk of the layer below. *)
Definition build_layer (num_cores : Z) (previous : list Digest) : option (list Digest) :=
  let next_layer_len := Z.of_nat (length previous) / 2 in
  match get_geometry_for_num_cores num_cores next_layer_len with
  | None => None
  | Some g => option_map (fun chunks => flat_map compress_pairs chunks)
                (chunks_for_geometry_with_scale g 2 previous)
  end.

Fixpoint build_layers (num_cores : Z) (num_layers : nat) (previous : list Digest) : option (list (list Digest)) :=
  match num_layers with
  | O => Some []
  | S n =>
      match build_layer num_cores previous with
      | None => None
      | Some layer => option_map (cons layer) (build_layers num_cores n layer)
      end
  end.

(** A cap wider than the leaves makes the unsigned layer count wrap, and the
    loop panics on the empty layer it reaches. *)
Definition continue_from_leaf_hashes (num_cores : Z) (leaf_hashes : list Digest) (cap_size : Z)
    : option Blake2sU32MerkleTreeWithCap :=
  let len := Z.of_nat (length leaf_hashes) in
  if usize_is_power_of_two len && usize_is_power_of_two cap_size then
    let num_layers_to_construct := usize_trailing_zeros len - usize_trailing_zeros cap_size in
    if num_layers_to_construct <? 0 then None
    else if num_layers_to_construct =? 0 then
      if cap_size =? len
      then Some {| cap_size := cap_size; leaf_hashes := leaf_hashes; node_hashes_enumerated_from_leafs := [] |}
      else None
    else option_map (fun nodes => {| cap_size := cap_size; leaf_hashes := leaf_hashes;
                                     node_hashes_enumerated_from_leafs := nodes |})
           (build_layers num_cores (Z.to_nat num_layers_to_construct) leaf_hashes)
  else None.

Definition get_cap (tree : Blake2sU32MerkleTreeWithCap) : list Digest :=
  match last (node_hashes_enumerated_from_leafs tree) with
  | Some cap => cap
  | None => leaf_hashes tree
  end.

(** The loop of [get_proof] from layer [i] on. *)
Fixpoint proof_elements (layers : list (list Digest)) (idx : Z) : option (list Digest) :=
  match layers with
  | [] => Some []
  | layer :: rest =>
      let pair_idx := Z.lxor idx 1 in
      match layer !! Z.to_nat pair_idx with
      | None => None
      | Some proof_element => option_map (cons proof_element) (proof_elements rest (Z.shiftr idx 1))
      end
  end.

(** [depth] layers below the cap: the leaves, then all node layers but the last. *)
Definition get_proof (tree : Blake2sU32MerkleTreeWithCap) (idx : Z) : option (Digest * list Digest) :=
  let depth := length (node_hashes_enumerated_from_leafs tree) in
  match leaf_hashes tree !! Z.to_nat idx with
  | None => None
  | Some this_el_leaf_hash =>
      option_map (fun path => (this_el_leaf_hash, path))
        (proof_elements (take depth (leaf_hashes tree :: node_hashes_enumerated_from_leafs tree)) idx)
  end.

Definition dump_caps (caps : list Blake2sU32MerkleTreeWithCap) : list (list Digest) := map get_cap caps.

(** [construct_for_coset] *)
Definition construct_for_coset (num_cores : Z) (trace : list (list Z)) (cap_size : Z) (bitreverse : bool)
    : option Blake2sU32MerkleTreeWithCap :=
  match blake2s_leaf_hashes_for_coset num_cores trace bitreverse with
  | None => None
  | Some leaf_hashes =>
      match mapM id leaf_hashes with
      | None => None
      | Some leaf_hashes => continue_from_leaf_hashes num_cores leaf_hashes cap_size
      end
  end.

Definition construct_for_column_major_coset (num_cores : Z) (column : list (list Z)) (combine_by cap_size : Z)
    (bitreverse : bool) : option Blake2sU32MerkleTreeWithCap :=
  match blake2s_leaf_hashes_for_column_major_coset num_cores column combine_by bitreverse with
  | None => None
  | Some leaf_hashes =>
      match mapM id leaf_hashes with
      | None => None
      | Some leaf_hashes => continue_from_leaf_hashes num_cores leaf_hashes cap_size
      end
  end.

Definition construct_separated_for_coset (num_cores : Z) (trace : list (list Z)) (width : nat)
    (separators : list nat) (cap_size : Z) (bitreverse : bool) : option (list Blake2sU32MerkleTreeWithCap) :=
  match blake2s_leaf_hashes_separated_for_coset num_cores trace width separators bitreverse with
  | None => None
  | Some leaf_hashes_set =>
      mapM (fun lh => match mapM id lh with
                      | None => None
                      | Some lh => continue_from_leaf_hashes num_cores lh cap_size
                      end) leaf_hashes_set
  end.

(** ** Leaves are hashes of the reduced words of their rows *)

Definition leaf_digest (row : list Z) : Digest := words_hash true (map to_reduced_u32 row).

(** A row the hasher can count: not empty, below 4 GiB. *)
Definition hashable (row : list Z) : Prop := row <> [] /\ 4 * Z.of_nat (length row) < 2 ^ 32.

Lemma blocks_of_map f n : forall ws, blocks_of n (map f ws) = map (map f) (blocks_of n ws).
Proof.
  induction n as [|n IH]; intros ws; cbn [blocks_of map]; [reflexivity|].
  rewrite firstn_map, skipn_map, IH. reflexivity.
Qed.

Lemma absorb_chunks_partial chunks : forall h out,
  absorb_chunks false chunks h out =
    (fold_left (Baseline.absorb USE_REDUCED_BLAKE2_ROUNDS) (map (map to_reduced_u32) chunks) h, out).
Proof.
  induction chunks as [|c chunks IH]; intros h out; cbn [absorb_chunks map fold_left]; [reflexivity|].
  rewrite andb_false_r. apply IH.
Qed.

Lemma absorb_chunks_full front c : forall h out,
  absorb_chunks true (front ++ [c]) h out =
    let '(h', d) := Baseline.absorb_final_block USE_REDUCED_BLAKE2_ROUNDS
      (fold_left (Baseline.absorb USE_REDUCED_BLAKE2_ROUNDS) (map (map to_reduced_u32) front) h)
      (map to_reduced_u32 c) 16 in (h', Some d).
Proof.
  induction front as [|b front IH]; intros h out; cbn [app absorb_chunks map fold_left].
  - cbn [andb]. change (Z.of_nat BLAKE2S_BLOCK_SIZE_U32_WORDS) with 16.
    destruct (Baseline.absorb_final_block _ _ _ _). reflexivity.
  - destruct (front ++ [c]) as [|x l] eqn:E; [destruct front; discriminate|]. cbn [andb]. apply IH.
Qed.

Lemma absorb_words s ws : Baseline.state s = CONFIGURED_IV -> Baseline.t s = 0 ->
  4 * Z.of_nat (length ws) < 2 ^ 32 ->
  let n := leading_blocks ws in
  snd (Baseline.absorb_final_block true (fold_left (Baseline.absorb true) (blocks_of n ws) s)
         (pad16 (drop (16 * n) ws)) (Z.of_nat (length (drop (16 * n) ws)))) = words_hash true ws.
Proof.
  intros Hs Ht Hsize n.
  assert (Hn : (16 * n <= length ws)%nat).
  { subst n. unfold leading_blocks. pose proof (Nat.mul_div_le (length ws - 1) 16). lia. }
  rewrite absorb_all_is_hash_from; rewrite ?Hs, ?Ht; [reflexivity | reflexivity | lia | lia|].
  rewrite length_blocks_of, length_drop. lia.
Qed.

Lemma hash_leaf_ok h row : hashable row -> snd (hash_leaf h row) = Some (leaf_digest row).
Proof.
  intros [Hne Hsize]. unfold hash_leaf, as_chunks, leaf_digest.
  change BLAKE2S_BLOCK_SIZE_U32_WORDS with 16%nat.
  set (m := (length row / 16)%nat). set (ws := map to_reduced_u32 row).
  assert (Hw : length ws = length row) by apply length_map.
  assert (Hpos : (0 < length row)%nat) by (destruct row; cbn; [congruence | lia]).
  pose proof (Nat.div_mod_eq (length row) 16) as Hdm. fold m in Hdm.
  pose proof (Nat.mod_upper_bound (length row) 16 ltac:(lia)) as Hmod.
  rewrite <- (absorb_words (Baseline.reset h) ws eq_refl eq_refl ltac:(lia)). cbv zeta.
  destruct (Nat.eqb_spec (length row mod 16) 0) as [H0|H0].
  - destruct m as [|m'] eqn:Em; [lia|].
    assert (Hlead : leading_blocks ws = m').
    { unfold leading_blocks. symmetry. apply (Nat.div_unique _ _ _ 15); lia. }
    rewrite blocks_of_snoc, absorb_chunks_full, Hlead.
    assert (Hfin : length (drop (16 * m') ws) = 16%nat) by (rewrite length_drop; lia).
    unfold pad16. rewrite Hfin. cbn [Nat.sub replicate]. rewrite app_nil_r. unfold ws.
    rewrite (take_ge (drop _ row)) by (rewrite length_drop; lia). rewrite blocks_of_map, skipn_map.
    change (Z.of_nat 16) with 16. unfold USE_REDUCED_BLAKE2_ROUNDS.
    destruct (Baseline.absorb_final_block _ _ _ _). reflexivity.
  - assert (Hlead : leading_blocks ws = m).
    { unfold leading_blocks. symmetry. apply (Nat.div_unique _ _ _ (length row mod 16 - 1)); lia. }
    rewrite absorb_chunks_partial, Hlead. unfold pad16.
    assert (Hfin : length (drop (16 * m) ws) = length (drop (16 * m) row)) by (rewrite !length_drop; lia).
    rewrite Hfin. unfold ws. rewrite blocks_of_map, skipn_map. unfold USE_REDUCED_BLAKE2_ROUNDS.
    destruct (Baseline.absorb_final_block _ _ _ _). reflexivity.
Qed.

Lemma hash_rows_ok rows : forall h, Forall hashable rows ->
  snd (hash_rows h rows) = map (fun row => Some (leaf_digest row)) rows.
Proof.
  induction rows as [|row rows IH]; intros h Hr; [reflexivity|]. inversion Hr as [|? ? Hrow Hrest]; subst.
  cbn [hash_rows map]. pose proof (hash_leaf_ok h row Hrow) as Hl. destruct (hash_leaf h row) as [h1 d].
  specialize (IH h1 Hrest). destruct (hash_rows h1 rows) as [h2 ds]. cbn [snd] in *. congruence.
Qed.

(** ** The leaves of a coset *)

(** Leaf [i] is the hash of row [i], or of the row whose index has the bits reversed. *)
Definition row_of_leaf (bitreverse : bool) (k : nat) (i : Z) : Z := if bitreverse then bitrev k i else i.

Definition enumerated_leaves (bitreverse : bool) (k : nat) (trace : list (list Z)) : list Digest :=
  map (fun i => leaf_digest (nth (Z.to_nat (row_of_leaf bitreverse k i)) trace [])) (rangeZ 0 (length trace)).

Lemma lookup_rangeZ m lo i : (i < m)%nat -> rangeZ lo m !! i = Some (lo + Z.of_nat i).
Proof.
  revert lo i. induction m as [|m IH]; intros lo [|i] Hi; cbn [rangeZ lookup list_lookup]; try lia.
  - f_equal. lia.
  - rewrite IH by lia. f_equal. lia.
Qed.

Lemma leaf_at bitreverse k trace i : (i < length trace)%nat ->
  enumerated_leaves bitreverse k trace !! i =
    Some (leaf_digest (nth (Z.to_nat (row_of_leaf bitreverse k (Z.of_nat i))) trace [])).
Proof.
  intros Hi. unfold enumerated_leaves. rewrite list_lookup_fmap, lookup_rangeZ by exact Hi. reflexivity.
Qed.

Lemma length_enumerated bitreverse k trace : length (enumerated_leaves bitreverse k trace) = length trace.
Proof. unfold enumerated_leaves. rewrite length_map, length_rangeZ. reflexivity. Qed.

Lemma coset_leaves_ok num_cores k trace bitreverse :
  0 < num_cores -> (k <= 31)%nat -> Z.of_nat (length trace) = 2 ^ Z.of_nat k -> Forall hashable trace ->
  blake2s_leaf_hashes_for_coset num_cores trace bitreverse = Some (map Some (enumerated_leaves bitreverse k trace)).
Proof.
  intros Hc Hk Hl Hr. unfold blake2s_leaf_hashes_for_coset. rewrite Hl, power_of_two_pow2.
  assert (Hw : 0 < 2 ^ Z.of_nat k < 2 ^ 58) by (split; [apply Z.pow_pos_nonneg | apply Z.pow_lt_mono_r]; lia).
  rewrite (scope_map num_cores _ 1 trace (fun slice => snd (hash_rows Baseline.new slice))
             (fun row => Some (leaf_digest row))); auto; try lia.
  2:{ intros slice Hin. apply hash_rows_ok. apply List.Forall_forall. intros row Hrow.
      apply (proj1 (List.Forall_forall _ _) Hr), Hin, Hrow. }
  set (digests := map (fun row => Some (leaf_digest row)) trace).
  assert (Hd : forall i, digests !! i = (fun row => Some (leaf_digest row)) <$> (trace !! i))
    by (intros i; apply list_lookup_fmap).
  assert (Hnth : forall i, (i < length trace)%nat -> digests !! i = Some (Some (leaf_digest (nth i trace [])))).
  { intros i Hi. rewrite Hd. destruct (lookup_lt_is_Some_2 trace i Hi) as [row Erow].
    rewrite Erow. apply nth_lookup_Some with (d := []) in Erow. rewrite Erow. reflexivity. }
  assert (Hlen : length digests = length trace) by apply length_map.
  assert (Hfin : forall l', length l' = length trace ->
    (forall i, (i < length trace)%nat ->
       l' !! i = Some (Some (leaf_digest (nth (Z.to_nat (row_of_leaf bitreverse k (Z.of_nat i))) trace [])))) ->
    Some l' = Some (map Some (enumerated_leaves bitreverse k trace))).
  { intros l' Hl' Hat. f_equal. apply list_eq. intros i.
    destruct (Nat.lt_ge_cases i (length trace)) as [Hi|Hi].
    - rewrite Hat by exact Hi. rewrite list_lookup_fmap, leaf_at by exact Hi. reflexivity.
    - rewrite !lookup_ge_None_2; [reflexivity | rewrite length_map, length_enumerated; lia | lia]. }
  unfold bitreverse_if. destruct bitreverse.
  - destruct (bitreverse_ok k digests) as (l' & E & Hl' & Hat); [unfold len; lia | exact Hk|]. rewrite E.
    apply Hfin; [congruence|]. intros i Hi. assert (Hi2 : 0 <= Z.of_nat i < 2 ^ Z.of_nat k) by lia.
    specialize (Hat (Z.of_nat i) Hi2).
    unfold at_index in Hat. rewrite Nat2Z.id in Hat. rewrite Hat. apply Hnth.
    cbn [row_of_leaf]. pose proof (bitrev_bound k (Z.of_nat i)). lia.
  - apply Hfin; [exact Hlen|]. intros i Hi. cbn [row_of_leaf]. rewrite Nat2Z.id. apply Hnth, Hi.
Qed.

Lemma mapM_id_Some {A} (l : list A) : mapM id (map Some l) = Some l.
Proof. induction l as [|x l IH]; cbn; [reflexivity|]. rewrite IH. reflexivity. Qed.

(** ** Layers *)

Lemma compress_pairs_app l1 l2 m : length l1 = (2 * m)%nat ->
  compress_pairs (l1 ++ l2) = compress_pairs l1 ++ compress_pairs l2.
Proof.
  revert l1. induction m as [|m IH]; intros l1 Hl.
  - destruct l1; [reflexivity | discriminate].
  - destruct l1 as [|a [|b l1]]; cbn in Hl; try lia. cbn [app compress_pairs]. rewrite IH by lia. reflexivity.
Qed.

Lemma length_compress_pairs l m : length l = (2 * m)%nat -> length (compress_pairs l) = m.
Proof.
  revert l. induction m as [|m IH]; intros l Hl.
  - destruct l; [reflexivity | discriminate].
  - destruct l as [|a [|b l]]; cbn in Hl; try lia. cbn. rewrite IH by lia. reflexivity.
Qed.

Lemma compress_pairs_at l j : forall a b, l !! (2 * j)%nat = Some a -> l !! S (2 * j) = Some b ->
  compress_pairs l !! j = Some (compress a b).
Proof.
  revert l. induction j as [|j IH]; intros l a b Ha Hb; destruct l as [|x [|y l]]; try discriminate.
  - injection Ha as <-. injection Hb as <-. reflexivity.
  - cbn [compress_pairs]. apply IH.
    + rewrite <- Ha. replace (2 * S j)%nat with (S (S (2 * j))) by lia. reflexivity.
    + rewrite <- Hb. replace (2 * S j)%nat with (S (S (2 * j))) by lia. reflexivity.
Qed.

Lemma compress_chunks (cs : list (list Digest)) :
  (forall c, In c cs -> exists m, length c = (2 * m)%nat) -> flat_map compress_pairs cs = compress_pairs (concat cs).
Proof.
  intros Heven. induction cs as [|c cs IH]; [reflexivity|]. cbn [flat_map concat].
  destruct (Heven c (or_introl eq_refl)) as [m Hm]. rewrite (compress_pairs_app c _ m Hm).
  rewrite IH; [reflexivity|]. intros c' Hc'. apply Heven. right. exact Hc'.
Qed.

Lemma build_layer_ok num_cores previous m : 0 < num_cores -> (0 < m)%nat -> Z.of_nat m < 2 ^ 58 ->
  length previous = (2 * m)%nat -> build_layer num_cores previous = Some (compress_pairs previous).
Proof.
  intros Hc Hm Hb Hl. unfold build_layer. rewrite Hl.
  replace (Z.of_nat (2 * m) / 2) with (Z.of_nat m) by (apply Z.div_unique_exact; lia).
  destruct (geometry_exists num_cores (Z.of_nat m) Hc ltac:(lia)) as (g & E & Hg & _). rewrite E.
  assert (Hpos : 0 < num_chunks g) by apply Hg.
  destruct (chunks_from_ok g (Z.of_nat m) 2 Hg ltac:(lia) (Z.to_nat (num_chunks g)) 0 previous)
    as (cs & Ecs & Hcat & _ & Hsz); [lia | lia | |].
  { unfold chunk_start. replace (0 <? num_chunks g) with true by (symmetry; apply Z.ltb_lt; lia). lia. }
  unfold chunks_for_geometry_with_scale. rewrite Ecs. cbn [option_map]. f_equal. rewrite <- Hcat.
  apply compress_chunks. intros c Hin. apply list_elem_of_In, list_elem_of_lookup in Hin.
  destruct Hin as [j Hj]. destruct (Hsz j c Hj) as (size & _ & Hlen). exists (Z.to_nat size). lia.
Qed.

(** The node layers above [previous], without threads. *)
Fixpoint node_layers (n : nat) (previous : list Digest) : list (list Digest) :=
  match n with O => [] | S n' => compress_pairs previous :: node_layers n' (compress_pairs previous) end.

Lemma build_layers_ok num_cores n : forall c previous, 0 < num_cores -> (n + c <= 31)%nat ->
  Z.of_nat (length previous) = 2 ^ Z.of_nat (n + c) ->
  build_layers num_cores n previous = Some (node_layers n previous).
Proof.
  induction n as [|n IH]; intros c previous Hc Hn Hl; [reflexivity|]. cbn [build_layers node_layers].
  cbn [Nat.add] in Hl. rewrite Nat2Z.inj_succ, Z.pow_succ_r in Hl by lia.
  assert (Hw : 0 < 2 ^ Z.of_nat (n + c) < 2 ^ 58) by (split; [apply Z.pow_pos_nonneg | apply Z.pow_lt_mono_r]; lia).
  rewrite (build_layer_ok num_cores previous (Z.to_nat (2 ^ Z.of_nat (n + c)))) by lia.
  rewrite (IH c); [reflexivity | exact Hc | lia|].
  rewrite (length_compress_pairs previous (Z.to_nat (2 ^ Z.of_nat (n + c)))) by lia. lia.
Qed.

(** [continue_from_leaf_hashes] on [2^(n + c)] leaves and a cap of [2^c]. *)
Lemma tree_ok num_cores n c leaves : 0 < num_cores -> (n + c <= 31)%nat ->
  Z.of_nat (length leaves) = 2 ^ Z.of_nat (n + c) ->
  continue_from_leaf_hashes num_cores leaves (2 ^ Z.of_nat c) =
    Some {| cap_size := 2 ^ Z.of_nat c; leaf_hashes := leaves;
            node_hashes_enumerated_from_leafs := node_layers n leaves |}.
Proof.
  intros Hc Hn Hl. unfold continue_from_leaf_hashes. rewrite Hl, !power_of_two_pow2, !trailing_zeros_pow2 by lia.
  cbn [andb]. replace (Z.of_nat (n + c) - Z.of_nat c) with (Z.of_nat n) by lia.
  destruct (Z.ltb_spec (Z.of_nat n) 0); [lia|]. destruct (Z.eqb_spec (Z.of_nat n) 0) as [H0|H0].
  - assert (n = 0%nat) as -> by lia. rewrite Z.eqb_refl. reflexivity.
  - rewrite Nat2Z.id, (build_layers_ok num_cores n c) by auto. reflexivity.
Qed.

(** ** Proofs *)

(** The root a leaf hash and a path lead to. *)
Fixpoint path_root (hash : Digest) (index : Z) (path : list Digest) : Digest :=
  match path with
  | [] => hash
  | sibling :: rest =>
      path_root (if Z.odd index then compress sibling hash else compress hash sibling) (Z.shiftr index 1) rest
  end.

Lemma lxor_1 i : Z.lxor i 1 = if Z.odd i then i - 1 else i + 1.
Proof.
  assert (He : forall q, Z.lxor (2 * q) 1 = 2 * q + 1).
  { intros q. symmetry. apply Z.add_nocarry_lxor. pose proof (land_ones_mod (2 * q) 1 ltac:(lia)) as E.
    change (2 ^ 1 - 1) with 1 in E. rewrite E, Z.mul_comm. apply Z.mod_mul. lia. }
  pose proof (Zdiv2_odd_eqn i) as Hi. destruct (Z.odd i).
  - rewrite Hi at 1. rewrite <- He, Z.lxor_assoc, Z.lxor_nilpotent, Z.lxor_0_r. lia.
  - rewrite Hi at 1. rewrite Z.add_0_r, He. lia.
Qed.

Definition is_digest (d : Digest) : Prop := length d = 8%nat.

Lemma compress_digest l r : is_digest (compress l r).
Proof. reflexivity. Qed.

Lemma compress_pairs_digests n l : (length l <= n)%nat -> Forall is_digest (compress_pairs l).
Proof.
  revert l. induction n as [|n IH]; intros [|a [|b l]] Hl; cbn [length compress_pairs] in *; try constructor; try lia.
  - apply compress_digest.
  - apply IH. lia.
Qed.

Definition top_layer (n : nat) (previous : list Digest) : list Digest :=
  match last (node_layers n previous) with Some layer => layer | None => previous end.

Lemma proof_ok n : forall c previous idx h, Z.of_nat (length previous) = 2 ^ Z.of_nat (n + c) -> 0 <= idx ->
  Forall is_digest previous -> previous !! Z.to_nat idx = Some h -> exists path,
  proof_elements (take n (previous :: node_layers n previous)) idx = Some path /\ length path = n /\
  Forall is_digest path /\
  top_layer n previous !! Z.to_nat (Z.shiftr idx (Z.of_nat n)) = Some (path_root h idx path).
Proof.
  induction n as [|n IH]; intros c previous idx h Hl Hidx Hd Hh.
  { exists []. rewrite Z.shiftr_0_r. auto. }
  cbn [Nat.add] in Hl. rewrite Nat2Z.inj_succ, Z.pow_succ_r in Hl by lia.
  set (M := 2 ^ Z.of_nat (n + c)) in *.
  assert (Hlt : Z.of_nat (Z.to_nat idx) < 2 * M) by (apply lookup_lt_Some in Hh; lia).
  pose proof (Zdiv2_odd_eqn idx) as Hdiv. set (q := Z.div2 idx) in *.
  assert (Hpair : exists s, previous !! Z.to_nat (Z.lxor idx 1) = Some s).
  { apply lookup_lt_is_Some. rewrite lxor_1. destruct (Z.odd idx); lia. }
  destruct Hpair as [s Hs].
  set (up := if Z.odd idx then compress s h else compress h s).
  assert (Hup : compress_pairs previous !! Z.to_nat (Z.shiftr idx 1) = Some up).
  { rewrite <- Z.div2_spec. fold q. rewrite lxor_1 in Hs. subst up. destruct (Z.odd idx); apply compress_pairs_at.
    - rewrite <- Hs. f_equal. lia.
    - rewrite <- Hh. f_equal. lia.
    - rewrite <- Hh. f_equal. lia.
    - rewrite <- Hs. f_equal. lia. }
  destruct (IH c (compress_pairs previous) (Z.shiftr idx 1) up) as (path & Ep & Hlen & Hin & Htop).
  { rewrite (length_compress_pairs previous (Z.to_nat M)) by lia. fold M. lia. }
  { apply Z.shiftr_nonneg. exact Hidx. }
  { apply (compress_pairs_digests (length previous)). reflexivity. } { exact Hup. }
  exists (s :: path). change (node_layers (S n) previous) with
    (compress_pairs previous :: node_layers n (compress_pairs previous)).
  cbn [take] in *. cbn [proof_elements]. rewrite Hs, Ep. split; [reflexivity|]. split; [cbn [length]; lia|].
  split.
  - constructor; [|exact Hin]. apply (proj1 (List.Forall_forall _ _) Hd).
    apply list_elem_of_In, list_elem_of_lookup. eauto.
  - cbn [path_root]. fold up. rewrite <- Htop.
    replace (Z.of_nat (S n)) with (1 + Z.of_nat n) by lia. rewrite <- Z.shiftr_shiftr by lia.
    f_equal. unfold top_layer. cbn [node_layers]. rewrite last_cons. destruct (last (node_layers n _)); reflexivity.
Qed.
