(* ===== verification/LeafInclusion.v ===== *)
(** * Verifying a leaf of a Merkle tree

    [prover/src/definitions/leaf_inclusion_verifier]: the two Blake2s verifiers,
    [Blake2sForEverythingVerifier] (any [DelegatedBlake2sState]) and
    [Blake2sForEverythingVerifierWithAlternativeCompression] (the evaluator, on
    a host or delegating in a guest).  The state of a verification is the hasher
    and the words the non-determinism source still has to give; reading past
    its end panics, as the host source does.  Reading past the end of the leaf
    or of the caps is undefined behaviour.  [SUPPORT_SPEC_SINGLE_ROUND] is
    [false] in every build, so the branch under it is dead. *)
From stdpp Require Import base list strings.
From Stdlib Require Import ZArith Lia.
From S2P Require Import Prelude MachineInt Field Blake2s Hasher.
From S2P Require Import Worker BitReverse MerkleTree.

#[local] Opaque mixing_function Rfc.round.

(** ** The state *)
Record Verifier (H : Type) : Type := { hasher : H; oracle : list Z }.
Arguments hasher {H} _.
Arguments oracle {H} _.

Definition vprog (H A : Type) : Type := comp Empty_set (Verifier H) A.

Definition on_hasher {H A} (m : hprog H A) : vprog H A :=
  zoom hasher (fun h s => {| hasher := h; oracle := oracle s |}) m.

(** [I::read_word()] *)
Definition read_word {H} : vprog H Z :=
  fun s => match oracle s with
           | [] => Panic "next word from thread local source"
           | w :: rest => Ok w {| hasher := hasher s; oracle := rest |}
           end.

(** [n] words of the slice starting at pointer offset [src] *)
Definition read_slice {H} (slice : list Z) (src n : nat) : vprog H (list Z) :=
  if (src + n <=? length slice)%nat then ret (take n (drop src slice)) else panic UB.

(** [merkle_cap.get_unchecked(coset_index).cap.get_unchecked(index)] *)
Definition get_cap_unchecked {H} (merkle_cap : list (list Digest)) (coset_index index : Z) : vprog H Digest :=
  match merkle_cap !! Z.to_nat coset_index with
  | None => panic UB
  | Some cap => match cap !! Z.to_nat index with Some digest => ret digest | None => panic UB end
  end.

(** [for i in 0..8 { equal &= output_hash[i] == cap[i] }] *)
Definition digests_equal (output_hash cap : Digest) : bool :=
  fold_left (fun equal i => equal && (get output_hash i =? get cap i)) (seq 0 8) true.

(** The number of full rounds and the length of the last one. *)
Definition leaf_rounds (input_len_words : nat) : nat * nat :=
  let num_full_rounds := (input_len_words / BLAKE2S_BLOCK_SIZE_U32_WORDS)%nat in
  let last_round_len := (input_len_words mod BLAKE2S_BLOCK_SIZE_U32_WORDS)%nat in
  if (last_round_len =? 0)%nat then
    (if (1 <? num_full_rounds)%nat then (num_full_rounds - 1)%nat else num_full_rounds,
     BLAKE2S_BLOCK_SIZE_U32_WORDS)
  else (num_full_rounds, last_round_len).

(** [index & 1 == 1] *)
Definition is_right (index : Z) : bool := Z.land index 1 =? 1.

(** [for _ in 0..depth { ...; index >>= 1; ... }] around the step of a verifier *)
Fixpoint path_steps {H} (path_step : Z -> vprog H unit) (depth : nat) (index : Z) : vprog H Z :=
  match depth with
  | O => ret index
  | S depth' => path_step index ;;! path_steps path_step depth' (Z.shiftr index 1)
  end.

(** ** Blake2sForEverythingVerifier *)
Section ForEverything.
Context {H : Type} `{Blake2sHasher H}.

Fixpoint absorb_full_rounds (num_full_rounds : nat) (leaf_encoding : list Z) (src_ptr : nat) : vprog H nat :=
  match num_full_rounds with
  | O => ret src_ptr
  | S n =>
      let! block := read_slice leaf_encoding src_ptr BLAKE2S_BLOCK_SIZE_U32_WORDS in
      on_hasher (spec_memcopy_u32_nonoverlapping block 0) ;;!
      on_hasher (h_run_round_function USE_REDUCED_BLAKE2_ROUNDS (Z.of_nat BLAKE2S_BLOCK_SIZE_U32_WORDS) false) ;;!
      absorb_full_rounds n leaf_encoding (src_ptr + BLAKE2S_BLOCK_SIZE_U32_WORDS)
  end.

Definition hash_leaf_encoding (leaf_encoding : list Z) : vprog H unit :=
  on_hasher (modify h_reset) ;;!
  let '(num_full_rounds, last_round_len) := leaf_rounds (length leaf_encoding) in
  let! src_ptr := absorb_full_rounds num_full_rounds leaf_encoding 0 in
  let! block := read_slice leaf_encoding src_ptr last_round_len in
  on_hasher (spec_memcopy_u32_nonoverlapping block 0) ;;!
  on_hasher (spec_memzero_u32 last_round_len) ;;!
  on_hasher (h_run_round_function USE_REDUCED_BLAKE2_ROUNDS (Z.of_nat last_round_len) true).

(** [for _ in 0..8 { witness_dst_ptr.write(I::read_word()); witness_dst_ptr += 1 }];
    the alternative verifier fills the first half of the buffer with it. *)
Fixpoint write_witness (n : nat) (witness_dst_ptr : nat) : vprog H unit :=
  match n with
  | O => ret tt
  | S n' =>
      let! w := read_word in
      on_hasher (spec_memcopy_u32_nonoverlapping [w] witness_dst_ptr) ;;!
      write_witness n' (S witness_dst_ptr)
  end.

Definition path_step (index : Z) : vprog H unit :=
  let input_is_right := is_right index in
  let previous_hash_dst := if input_is_right then BLAKE2S_DIGEST_SIZE_U32_WORDS else 0%nat in
  let witness_dst := if input_is_right then 0%nat else BLAKE2S_DIGEST_SIZE_U32_WORDS in
  let! current_state := gets (fun s => h_state (hasher s)) in
  on_hasher (spec_memcopy_u32_nonoverlapping current_state previous_hash_dst) ;;!
  write_witness 8 witness_dst ;;!
  on_hasher (modify h_reset) ;;!
  on_hasher (h_run_round_function USE_REDUCED_BLAKE2_ROUNDS (Z.of_nat BLAKE2S_BLOCK_SIZE_U32_WORDS) true).

Definition verify_leaf_inclusion (coset_index leaf_index : Z) (depth : nat) (leaf_encoding : list Z)
    (merkle_cap : list (list Digest)) : vprog H bool :=
  hash_leaf_encoding leaf_encoding ;;!
  if (depth =? 0)%nat then
    let! output_hash := gets (fun s => h_state (hasher s)) in
    let! cap := get_cap_unchecked merkle_cap coset_index leaf_index in
    ret (digests_equal output_hash cap)
  else
    let! index := path_steps path_step depth leaf_index in
    let! output_hash := gets (fun s => h_state (hasher s)) in
    let! cap := get_cap_unchecked merkle_cap coset_index index in
    ret (digests_equal output_hash cap).
End ForEverything.

(** ** The evaluator's further operations *)
Class NodeHasher (H : Type) `{Blake2sHasher H} : Type := {
  h_run_round_function_with_input : bool -> list Z -> Z -> bool -> hprog H unit;
  h_compress_node : bool -> bool -> hprog H unit;
}.

Class LawfulNodeHasher (H : Type) `{LawfulHasher H} `{!NodeHasher H} : Prop := {
  h_run_with_input_ok : forall h reduced input n last, h_wf h -> exists h',
    h_run_round_function_with_input reduced input n last h = Ok tt h' /\ h_wf h' /\
    h_t h' = wadd (h_t h) (u32 (n * 4)) /\
    h_state h' = block_step reduced (h_state h) (h_t h') last input;
  h_compress_node_ok : forall h reduced right_, h_wf h -> exists h',
    h_compress_node reduced right_ h = Ok tt h' /\ h_wf h' /\
    h_state h' = Baseline.compress_two_to_one reduced
      (if right_ then take 8 (h_input_buffer h) ++ h_state h else h_state h ++ take 8 (h_input_buffer h));
}.

#[export] Instance Evaluator_node_hasher : NodeHasher Evaluator.Blake2RoundFunctionEvaluator := {
  h_run_round_function_with_input reduced input n last :=
    modify (fun e => Evaluator.run_round_function_with_input_and_byte_len reduced e input (n * 4) last);
  h_compress_node reduced right_ := modify (fun e => Evaluator.compress_node reduced e right_);
}.

#[export] Instance Evaluator_node_hasher_lawful : LawfulNodeHasher Evaluator.Blake2RoundFunctionEvaluator.
Proof.
  constructor.
  - intros h reduced input n last (Hs & He & Hb). eexists. split; [reflexivity|]. repeat split; auto.
  - intros h reduced right_ (Hs & He & Hb). eexists. split; [reflexivity|]. repeat split; auto.
Qed.

#[export] Instance Guest_node_hasher : NodeHasher GuestEvaluator := {
  h_run_round_function_with_input reduced input n last e :=
    match Evaluator.run_round_function_with_input_and_byte_len_riscv reduced e input (n * 4) last with
    | Some e' => Ok tt e'
    | None => Panic "delegation"
    end;
  h_compress_node reduced right_ e :=
    match Evaluator.compress_node_riscv reduced e right_ with
    | Some e' => Ok tt e'
    | None => Panic "delegation"
    end;
}.

#[export] Instance Guest_node_hasher_lawful : LawfulNodeHasher GuestEvaluator.
Proof.
  constructor.
  - intros h reduced input n last (Hs & He & Hb). cbn.
    destruct (guest_round reduced h input (n * 4) last Hs He) as (ext & Hl & E). rewrite E.
    eexists. split; [reflexivity|]. repeat split; auto.
  - intros h reduced right_ (Hs & He & Hb). cbn.
    destruct (guest_compress_node reduced h right_ He) as (ext & Hl & E). rewrite E.
    eexists. split; [reflexivity|]. repeat split; auto.
Qed.

(** ** Blake2sForEverythingVerifierWithAlternativeCompression *)
Module Alternative.
Section Alternative.
Context {H : Type} `{NodeHasher H}.

Fixpoint absorb_full_rounds (num_full_rounds : nat) (leaf_encoding : list Z) (src_ptr : nat) : vprog H nat :=
  match num_full_rounds with
  | O => ret src_ptr
  | S n =>
      let! block := read_slice leaf_encoding src_ptr BLAKE2S_BLOCK_SIZE_U32_WORDS in
      on_hasher (h_run_round_function_with_input USE_REDUCED_BLAKE2_ROUNDS block
                   (Z.of_nat BLAKE2S_BLOCK_SIZE_U32_WORDS) false) ;;!
      absorb_full_rounds n leaf_encoding (src_ptr + BLAKE2S_BLOCK_SIZE_U32_WORDS)
  end.

Definition hash_leaf_encoding (leaf_encoding : list Z) : vprog H unit :=
  on_hasher (modify h_reset) ;;!
  let '(num_full_rounds, last_round_len) := leaf_rounds (length leaf_encoding) in
  let! src_ptr := absorb_full_rounds num_full_rounds leaf_encoding 0 in
  let! words := read_slice leaf_encoding src_ptr last_round_len in
  let buffer := words ++ replicate (BLAKE2S_BLOCK_SIZE_U32_WORDS - last_round_len) 0 in
  on_hasher (h_run_round_function_with_input USE_REDUCED_BLAKE2_ROUNDS buffer (Z.of_nat last_round_len) true).

Definition path_step (index : Z) : vprog H unit :=
  let input_is_right := is_right index in
  write_witness 8 0 ;;!
  on_hasher (h_compress_node USE_REDUCED_BLAKE2_ROUNDS input_is_right).

Definition verify_leaf_inclusion (coset_index leaf_index : Z) (depth : nat) (leaf_encoding : list Z)
    (merkle_cap : list (list Digest)) : vprog H bool :=
  hash_leaf_encoding leaf_encoding ;;!
  if (depth =? 0)%nat then
    let! output_hash := gets (fun s => h_state (hasher s)) in
    let! cap := get_cap_unchecked merkle_cap coset_index leaf_index in
    ret (digests_equal output_hash cap)
  else
    let! index := path_steps path_step depth leaf_index in
    let! output_hash := gets (fun s => h_state (hasher s)) in
    let! cap := get_cap_unchecked merkle_cap coset_index index in
    ret (digests_equal output_hash cap).
End Alternative.
End Alternative.

(** ** What a verification computes *)

(** A path as the words a proof puts into the source. *)
Definition path_words (path : list Digest) : list Z := concat path.

Lemma is_right_odd index : is_right index = Z.odd index.
Proof.
  unfold is_right. pose proof (land_ones_mod index 1 ltac:(lia)) as E. change (2 ^ 1 - 1) with 1 in E.
  rewrite E, Zmod_odd. destruct (Z.odd index); reflexivity.
Qed.

Lemma digests_equal_spec a b : is_digest a -> is_digest b -> digests_equal a b = bool_decide (a = b).
Proof.
  intros Ha Hb. unfold digests_equal. symmetry.
  assert (G : forall l acc, fold_left (fun equal i => equal && (get a i =? get b i)) l acc =
            acc && forallb (fun i => get a i =? get b i) l).
  { induction l as [|i l IH]; intros acc; cbn [fold_left forallb]; [now rewrite andb_true_r|].
    rewrite IH. rewrite andb_assoc. reflexivity. }
  rewrite G. cbn [andb]. destruct (forallb _ (seq 0 8)) eqn:E.
  - apply bool_decide_eq_true_2. apply (nth_ext _ _ 0 0); [unfold is_digest in *; congruence|].
    intros i Hi. rewrite forallb_forall in E. apply Z.eqb_eq, E. rewrite in_seq. unfold is_digest in *. lia.
  - apply bool_decide_eq_false_2. intros ->. enough (forallb (fun i => get b i =? get b i) (seq 0 8) = true) by congruence.
    apply forallb_forall. intros i _. apply Z.eqb_refl.
Qed.

Lemma leaf_rounds_ok n : (n <> 0)%nat -> (n <> 16)%nat ->
  leaf_rounds n = ((n - 1) / 16, n - 16 * ((n - 1) / 16))%nat.
Proof.
  intros H0 H16. unfold leaf_rounds. change BLAKE2S_BLOCK_SIZE_U32_WORDS with 16%nat.
  pose proof (Nat.div_mod_eq n 16) as Hdm. pose proof (Nat.mod_upper_bound n 16 ltac:(lia)) as Hm.
  destruct (Nat.eqb_spec (n mod 16) 0) as [E|E].
  - replace ((n - 1) / 16)%nat with (n / 16 - 1)%nat by (apply (Nat.div_unique _ _ _ 15); lia).
    destruct (Nat.ltb_spec 1 (n / 16)); f_equal; lia.
  - replace ((n - 1) / 16)%nat with (n / 16)%nat by (apply (Nat.div_unique _ _ _ (n mod 16 - 1)); lia).
    f_equal. lia.
Qed.

Lemma leaf_rounds_bounds (leaf : list Z) : leaf <> [] ->
  let n := leading_blocks leaf in (16 * n < length leaf <= 16 * n + 16)%nat.
Proof.
  intros Hne n. subst n. unfold leading_blocks. destruct leaf as [|x leaf]; [congruence|]. cbn [length].
  pose proof (Nat.div_mod_eq (S (length leaf) - 1) 16). pose proof (Nat.mod_upper_bound (S (length leaf) - 1) 16). lia.
Qed.

Lemma on_hasher_ok {H A} (m : hprog H A) (s : Verifier H) a h' :
  m (hasher s) = Ok a h' -> on_hasher m s = Ok a {| hasher := h'; oracle := oracle s |}.
Proof. unfold on_hasher, zoom. intros ->. reflexivity. Qed.

Lemma read_slice_ok {H} (slice : list Z) src n (s : Verifier H) : (src + n <= length slice)%nat ->
  read_slice slice src n s = Ok (take n (drop src slice)) s.
Proof. intros Hn. unfold read_slice. destruct (Nat.leb_spec (src + n) (length slice)); [reflexivity | lia]. Qed.

(** A leaf that both verifiers can hash: its blocks are counted right. *)
Definition verifiable (leaf : list Z) : Prop :=
  leaf <> [] /\ length leaf <> 16%nat /\ 4 * Z.of_nat (length leaf) < 2 ^ 32.

(** The node above [hash] when its sibling is [sibling]. *)
Definition node_above (hash : Digest) (index : Z) (sibling : Digest) : Digest :=
  if Z.odd index then compress sibling hash else compress hash sibling.

Lemma compress_is_block_step l r : compress l r = block_step true CONFIGURED_IV 64 true (l ++ r).
Proof. reflexivity. Qed.

Section Spec.
Context {H : Type} `{LawfulHasher H}.
Notation fed := (consumed true).
Notation V := (Verifier H).

Lemma reset_consumed (h : H) : h_wf h -> fed (h_reset h) 0 [].
Proof. intros Hw. destruct (h_reset_ok h Hw) as (? & ? & ? & ?). apply consumed_start; auto. Qed.

Lemma absorb_full_rounds_ok leaf n : forall src (s : V), 4 * Z.of_nat (length leaf) < 2 ^ 32 ->
  fed (hasher s) 0 (take src leaf) -> (src + 16 * n <= length leaf)%nat -> exists s',
  absorb_full_rounds n leaf src s = Ok (src + 16 * n)%nat s' /\
  fed (hasher s') 0 (take (src + 16 * n) leaf) /\ oracle s' = oracle s.
Proof.
  induction n as [|n IH]; intros src s Hsize Hf Hn.
  { exists s. rewrite Nat.mul_0_r, Nat.add_0_r. auto. }
  cbn [absorb_full_rounds]. change BLAKE2S_BLOCK_SIZE_U32_WORDS with 16%nat.
  rewrite (bind_step _ _ _ _ _ (read_slice_ok leaf src 16 s ltac:(lia))).
  set (block := take 16 (drop src leaf)).
  assert (Hb : length block = 16%nat) by (subst block; rewrite length_take, length_drop; lia).
  assert (Happ : take src leaf ++ block = take (src + 16) leaf) by (subst block; apply take_take_drop).
  destruct (consumed_copy true _ _ _ block Hf) as (h1 & E1 & Hf1); [lia|].
  rewrite (bind_step _ _ _ _ _ (on_hasher_ok _ _ _ _ E1)). rewrite Hb, Happ in Hf1.
  destruct (consumed_round true h1 _ Hf1) as (h2 & E2 & Hf2); [rewrite length_take; lia|].
  rewrite (bind_step _ _ _ tt {| hasher := h2; oracle := oracle s |})
    by (unfold on_hasher, zoom; cbn [hasher]; change (Z.of_nat 16) with 16; change USE_REDUCED_BLAKE2_ROUNDS with true; rewrite E2; reflexivity).
  destruct (IH (src + 16)%nat {| hasher := h2; oracle := oracle s |} Hsize Hf2 ltac:(lia)) as (s' & E & Hf' & Ho).
  exists s'. replace (src + 16 * S n)%nat with (src + 16 + 16 * n)%nat by lia. auto.
Qed.

Lemma hash_leaf_encoding_ok leaf (s : V) : h_wf (hasher s) -> verifiable leaf -> exists s',
  hash_leaf_encoding leaf s = Ok tt s' /\ h_wf (hasher s') /\ oracle s' = oracle s /\
  h_state (hasher s') = words_hash true leaf.
Proof.
  intros Hw (Hne & H16 & Hsize). unfold hash_leaf_encoding.
  rewrite (bind_step _ _ _ tt {| hasher := h_reset (hasher s); oracle := oracle s |}) by reflexivity.
  rewrite leaf_rounds_ok by (auto; destruct leaf; cbn; congruence).
  pose proof (leaf_rounds_bounds leaf Hne) as Hn. cbv zeta in Hn. unfold leading_blocks in Hn.
  set (n := ((length leaf - 1) / 16)%nat) in *. set (lst := (length leaf - 16 * n)%nat).
  destruct (absorb_full_rounds_ok leaf n 0 {| hasher := h_reset (hasher s); oracle := oracle s |} Hsize)
    as (s1 & E1 & Hf1 & Ho1); [apply reset_consumed, Hw | lia|].
  rewrite (bind_step _ _ _ _ _ E1). cbn [Nat.add] in *.
  rewrite (bind_step _ _ _ _ _ (read_slice_ok leaf (16 * n) lst s1 ltac:(lia))).
  set (block := take lst (drop (16 * n) leaf)).
  assert (Hb : length block = lst) by (subst block; rewrite length_take, length_drop; lia).
  assert (Happ : take (16 * n) leaf ++ block = leaf).
  { subst block. rewrite take_take_drop. apply take_ge. lia. }
  destruct (consumed_copy true _ _ _ block Hf1) as (h2 & E2 & Hf2); [lia|].
  rewrite (bind_step _ _ _ _ _ (on_hasher_ok _ _ _ _ E2)). rewrite Hb, Happ in Hf2. cbn [Nat.add] in Hf2.
  destruct (consumed_zero true h2 _ _ Hf2) as (h3 & E3 & Hf3 & Hz).
  rewrite (bind_step _ _ _ tt {| hasher := h3; oracle := oracle s1 |})
    by (unfold on_hasher, zoom; cbn [hasher]; rewrite E3; reflexivity).
  destruct (consumed_final true h3 lst leaf Hf3) as (h4 & E4 & Hw4 & Es); [lia | exact Hz | exact Hsize|].
  exists {| hasher := h4; oracle := oracle s1 |}. split; [|auto].
  unfold on_hasher, zoom. cbn [hasher]. change USE_REDUCED_BLAKE2_ROUNDS with true. rewrite E4. reflexivity.
Qed.

Lemma memcopy_ok (h : H) src dst : h_wf h -> (dst + length src <= 16)%nat -> exists h',
  spec_memcopy_u32_nonoverlapping src dst h = Ok tt h' /\ h_wf h' /\ h_state h' = h_state h /\ h_t h' = h_t h /\
  h_input_buffer h' = take dst (h_input_buffer h) ++ src ++ drop (dst + length src) (h_input_buffer h).
Proof.
  intros Hw Hl. unfold spec_memcopy_u32_nonoverlapping. pose proof (h_wf_buffer _ Hw) as Hb. rewrite Hb.
  destruct (Nat.leb_spec (dst + length src) 16); [|lia]. eexists. split; [reflexivity|].
  match goal with |- h_wf (h_set_input_buffer ?b h) /\ _ => destruct (h_set_ok h b Hw) as (Hw' & Eb & Es & Et) end.
  { rewrite !length_app, length_take, length_drop. lia. }
  auto.
Qed.

Lemma write_witness_ok n : forall dst (s : V) ws rest, h_wf (hasher s) -> oracle s = ws ++ rest ->
  length ws = n -> (dst + n <= 16)%nat -> exists h',
  write_witness n dst s = Ok tt {| hasher := h'; oracle := rest |} /\ h_wf h' /\
  h_state h' = h_state (hasher s) /\ h_t h' = h_t (hasher s) /\
  h_input_buffer h' = take dst (h_input_buffer (hasher s)) ++ ws ++ drop (dst + n) (h_input_buffer (hasher s)).
Proof.
  induction n as [|n IH]; intros dst s ws rest Hw Ho Hl Hd.
  - destruct ws; [|discriminate]. exists (hasher s). cbn [app] in *. split; [destruct s; cbn in *; subst; reflexivity|].
    rewrite Nat.add_0_r, take_drop. auto.
  - destruct ws as [|w ws]; [discriminate|]. injection Hl as Hl. cbn [write_witness].
    set (s1 := {| hasher := hasher s; oracle := ws ++ rest |}).
    rewrite (bind_step _ _ _ w s1) by (unfold read_word; rewrite Ho; reflexivity).
    pose proof (h_wf_buffer _ Hw) as Hb16. set (buf := h_input_buffer (hasher s)) in *.
    destruct (memcopy_ok (hasher s) [w] dst Hw ltac:(cbn; lia)) as (h1 & E1 & Hw1 & Es & Et & Eb).
    fold buf in Eb. rewrite (bind_step _ _ _ _ _ (on_hasher_ok _ s1 _ _ E1)).
    set (s2 := {| hasher := h1; oracle := oracle s1 |}).
    destruct (IH (S dst) s2 ws rest Hw1 eq_refl Hl ltac:(lia)) as (h' & E & Hw' & Es' & Et' & Eb').
    exists h'. split; [exact E|]. split; [exact Hw'|]. cbn [hasher s2] in *.
    rewrite Es', Et', Eb', Es, Et, Eb. split; [reflexivity|]. split; [reflexivity|].
    assert (Hdst : length (take dst buf) = dst) by (rewrite length_take; lia).
    rewrite (app_assoc (take dst buf)). rewrite take_app_le by (rewrite length_app; cbn; lia).
    rewrite take_ge by (rewrite length_app; cbn; lia). rewrite drop_app_ge by (rewrite length_app; cbn; lia).
    rewrite length_app, Hdst, drop_drop, <- app_assoc. cbn [length app]. do 4 f_equal. lia.
Qed.

Lemma write_witness_short n : forall dst (s : V), h_wf (hasher s) -> (length (oracle s) < n)%nat ->
  (dst + n <= 16)%nat -> exists msg, write_witness n dst s = Panic msg.
Proof.
  induction n as [|n IH]; intros dst s Hw Ho Hd; [lia|]. cbn [write_witness].
  destruct (oracle s) as [|w rest] eqn:E; cbn [length] in Ho.
  { eexists. unfold bind, read_word. rewrite E. reflexivity. }
  destruct (memcopy_ok (hasher s) [w] dst Hw ltac:(cbn; lia)) as (h1 & E1 & Hw1 & _).
  rewrite (bind_step _ _ _ w {| hasher := hasher s; oracle := rest |}) by (unfold read_word; rewrite E; reflexivity).
  rewrite (bind_step _ _ _ _ _ (on_hasher_ok _ {| hasher := hasher s; oracle := rest |} _ _ E1)).
  apply IH; [exact Hw1 | cbn; lia | lia].
Qed.

(** What a step of either verifier does: one sibling from the source, one node up. *)
Definition step_up (step : Z -> vprog H unit) : Prop := forall index (s : V), h_wf (hasher s) ->
  if (8 <=? length (oracle s))%nat then
    exists h', step index s = Ok tt {| hasher := h'; oracle := drop 8 (oracle s) |} /\ h_wf h' /\
      h_state h' = node_above (h_state (hasher s)) index (take 8 (oracle s))
  else exists msg, step index s = Panic msg.

Lemma path_step_ok : step_up path_step.
Proof.
  intros index s Hw. pose proof (h_wf_state _ Hw) as Hst. unfold path_step. rewrite is_right_odd.
  change BLAKE2S_DIGEST_SIZE_U32_WORDS with 8%nat.
  set (own := if Z.odd index then 8%nat else 0%nat). set (other := if Z.odd index then 0%nat else 8%nat).
  rewrite (bind_step _ _ _ (h_state (hasher s)) s) by reflexivity.
  destruct (memcopy_ok (hasher s) (h_state (hasher s)) own Hw) as (h1 & E1 & Hw1 & Es1 & _ & Eb1).
  { subst own. destruct (Z.odd index); lia. }
  rewrite (bind_step _ _ _ _ _ (on_hasher_ok _ _ _ _ E1)). set (s1 := {| hasher := h1; oracle := oracle s |}).
  assert (Hoth : (other + 8 <= 16)%nat) by (subst other; destruct (Z.odd index); lia).
  destruct (Nat.leb_spec 8 (length (oracle s))) as [Ho|Ho].
  2:{ destruct (write_witness_short 8 other s1 Hw1 Ho Hoth) as [msg E]. exists msg. unfold bind at 1. rewrite E. reflexivity. }
  destruct (write_witness_ok 8 other s1 (take 8 (oracle s)) (drop 8 (oracle s)))
    as (h2 & E2 & Hw2 & _ & _ & Eb2); [exact Hw1 | symmetry; apply take_drop | rewrite length_take; lia | exact Hoth|].
  rewrite (bind_step _ _ _ _ _ E2).
  rewrite (bind_step _ _ _ tt {| hasher := h_reset h2; oracle := drop 8 (oracle s) |}) by reflexivity.
  destruct (h_reset_ok h2 Hw2) as (Hw3 & Es3 & Et3 & Eb3).
  destruct (h_run_ok (h_reset h2) true 16 true Hw3) as (h4 & E4 & Hw4 & _ & Et4 & Es4).
  exists h4. split; [unfold on_hasher, zoom; cbn [hasher]; change USE_REDUCED_BLAKE2_ROUNDS with true;
    change (Z.of_nat BLAKE2S_BLOCK_SIZE_U32_WORDS) with 16; rewrite E4; reflexivity|].
  split; [exact Hw4|]. rewrite Es4, Es3, Et4, Et3, Eb3, Eb2. cbn [hasher s1]. rewrite Eb1, Hst.
  pose proof (h_wf_buffer _ Hw) as Hbuf. unfold node_above.
  change (wadd 0 (u32 (16 * 4))) with 64. f_equal. subst own other. destruct (Z.odd index).
  - rewrite (drop_ge _ (8 + 8)), app_nil_r by lia. cbn [take app Nat.add].
    rewrite drop_app_ge by (rewrite length_take; lia). rewrite length_take, Hbuf. reflexivity.
  - cbn [app Nat.add]. rewrite (take_0 (h_input_buffer (hasher s))), app_nil_l.
    rewrite (take_app_le (h_state (hasher s))), (take_ge (h_state (hasher s))) by lia.
    rewrite (drop_ge _ 16) by (rewrite length_app, length_drop; lia). rewrite app_nil_r. reflexivity.
Qed.
End Spec.

(** The siblings the source holds for [depth] levels. *)
Fixpoint siblings (depth : nat) (words : list Z) : list Digest :=
  match depth with O => [] | S d => take 8 words :: siblings d (drop 8 words) end.

Section Alternative_Spec.
Context {H : Type} `{LawfulNodeHasher H}.
Notation fed := (consumed true).
Notation V := (Verifier H).

Lemma alternative_step_ok : step_up Alternative.path_step.
Proof.
  intros index s Hw. unfold Alternative.path_step. rewrite is_right_odd.
  destruct (Nat.leb_spec 8 (length (oracle s))) as [Ho|Ho].
  2:{ destruct (write_witness_short 8 0 s Hw Ho ltac:(lia)) as [msg E]. exists msg. unfold bind at 1. rewrite E. reflexivity. }
  destruct (write_witness_ok 8 0 s (take 8 (oracle s)) (drop 8 (oracle s)))
    as (h1 & E1 & Hw1 & Es1 & _ & Eb1); [exact Hw | symmetry; apply take_drop | rewrite length_take; lia | lia|].
  rewrite (bind_step _ _ _ _ _ E1).
  destruct (h_compress_node_ok h1 true (Z.odd index) Hw1) as (h2 & E2 & Hw2 & Es2).
  exists h2. split; [unfold on_hasher, zoom; cbn [hasher]; change USE_REDUCED_BLAKE2_ROUNDS with true;
    rewrite E2; reflexivity|].
  split; [exact Hw2|]. rewrite Es2, Es1, Eb1, take_0, app_nil_l.
  rewrite take_app_le, (take_ge (take 8 _)) by (rewrite length_take; lia).
  unfold node_above, compress. destruct (Z.odd index); reflexivity.
Qed.

(** A block hashed from where it lies is a block copied and hashed. *)
Lemma consumed_block (h : H) ws block : fed h 0 ws -> length block = 16%nat ->
  4 * Z.of_nat (length (ws ++ block)) < 2 ^ 32 -> exists h',
  h_run_round_function_with_input true block 16 false h = Ok tt h' /\ fed h' 0 (ws ++ block).
Proof.
  intros (Hw & _ & n & Hl & Hs & Ht & _) Hb Hsize.
  destruct (h_run_with_input_ok h true block 16 false Hw) as (h' & Hr & Hw' & Et & Es).
  exists h'. split; [exact Hr|]. split; [exact Hw'|]. split; [lia|]. exists (S n).
  rewrite length_app in *. rewrite Ht in Et. unfold wadd in Et.
  rewrite (u32_small (16 * 4)), u32_small in Et by (unfold is_u32; lia).
  rewrite Es, Et, Hs. split; [lia|]. split; [|split; [lia | rewrite drop_ge by (rewrite length_app; lia); reflexivity]].
  rewrite block_step_is_F; [|rewrite <- Hs; apply h_wf_state; exact Hw | lia].
  unfold chained. rewrite blocks_of_snoc, chain_snoc, length_blocks_of, blocks_of_app by lia.
  rewrite drop_app_ge by lia. replace (16 * n - length ws)%nat with 0%nat by lia.
  rewrite drop_0, take_ge by lia. f_equal; lia.
Qed.

Lemma consumed_last_block (h : H) ws block : fed h 0 ws -> (0 < length block <= 16)%nat ->
  4 * Z.of_nat (length (ws ++ block)) < 2 ^ 32 -> exists h',
  h_run_round_function_with_input true (pad16 block) (Z.of_nat (length block)) true h = Ok tt h' /\ h_wf h' /\
  h_state h' = words_hash true (ws ++ block).
Proof.
  intros (Hw & _ & n & Hl & Hs & Ht & _) Hb Hsize.
  destruct (h_run_with_input_ok h true (pad16 block) (Z.of_nat (length block)) true Hw) as (h' & Hr & Hw' & Et & Es).
  exists h'. split; [exact Hr|]. split; [exact Hw'|].
  assert (Hn : leading_blocks (ws ++ block) = n).
  { unfold leading_blocks. rewrite length_app. symmetry. apply (Nat.div_unique _ _ _ (length block - 1)); lia. }
  rewrite words_hash_chained, Hn, Es. rewrite length_app in *. rewrite Ht in Et. unfold wadd in Et.
  rewrite (u32_small (Z.of_nat (length block) * 4)), u32_small in Et by (unfold is_u32; lia).
  rewrite Et, Hs, block_step_is_F; [|rewrite <- Hs; apply h_wf_state; exact Hw | lia].
  unfold chained. rewrite blocks_of_app by lia. rewrite drop_app_ge by lia.
  replace (16 * n - length ws)%nat with 0%nat by lia. rewrite drop_0.
  replace (4 * Z.of_nat (length ws + length block)) with (64 * Z.of_nat n + Z.of_nat (length block) * 4) by lia.
  reflexivity.
Qed.

Lemma alternative_full_rounds_ok leaf n : forall src (s : V), 4 * Z.of_nat (length leaf) < 2 ^ 32 ->
  fed (hasher s) 0 (take src leaf) -> (src + 16 * n <= length leaf)%nat -> exists s',
  Alternative.absorb_full_rounds n leaf src s = Ok (src + 16 * n)%nat s' /\
  fed (hasher s') 0 (take (src + 16 * n) leaf) /\ oracle s' = oracle s.
Proof.
  induction n as [|n IH]; intros src s Hsize Hf Hn.
  { exists s. rewrite Nat.mul_0_r, Nat.add_0_r. auto. }
  cbn [Alternative.absorb_full_rounds]. change BLAKE2S_BLOCK_SIZE_U32_WORDS with 16%nat.
  rewrite (bind_step _ _ _ _ _ (read_slice_ok leaf src 16 s ltac:(lia))).
  destruct (consumed_block _ _ (take 16 (drop src leaf)) Hf) as (h1 & E1 & Hf1).
  { rewrite length_take, length_drop. lia. } { rewrite take_take_drop, length_take. lia. }
  rewrite take_take_drop in Hf1. rewrite (bind_step _ _ _ _ _ (on_hasher_ok _ s _ _ E1)).
  destruct (IH (src + 16)%nat {| hasher := h1; oracle := oracle s |} Hsize Hf1 ltac:(lia)) as (s' & E & Hf' & Ho).
  exists s'. replace (src + 16 * S n)%nat with (src + 16 + 16 * n)%nat by lia. auto.
Qed.

Lemma alternative_leaf_ok leaf (s : V) : h_wf (hasher s) -> verifiable leaf -> exists s',
  Alternative.hash_leaf_encoding leaf s = Ok tt s' /\ h_wf (hasher s') /\ oracle s' = oracle s /\
  h_state (hasher s') = words_hash true leaf.
Proof.
  intros Hw (Hne & H16 & Hsize). unfold Alternative.hash_leaf_encoding.
  rewrite (bind_step _ _ _ tt {| hasher := h_reset (hasher s); oracle := oracle s |}) by reflexivity.
  rewrite leaf_rounds_ok by (auto; destruct leaf; cbn; congruence).
  pose proof (leaf_rounds_bounds leaf Hne) as Hn. cbv zeta in Hn. unfold leading_blocks in Hn.
  set (n := ((length leaf - 1) / 16)%nat) in *. set (lst := (length leaf - 16 * n)%nat).
  destruct (alternative_full_rounds_ok leaf n 0 {| hasher := h_reset (hasher s); oracle := oracle s |} Hsize)
    as (s1 & E1 & Hf1 & Ho1); [apply reset_consumed, Hw | lia|].
  rewrite (bind_step _ _ _ _ _ E1). cbn [Nat.add] in *.
  rewrite (bind_step _ _ _ _ _ (read_slice_ok leaf (16 * n) lst s1 ltac:(lia))).
  set (block := take lst (drop (16 * n) leaf)).
  assert (Hb : length block = lst) by (subst block; rewrite length_take, length_drop; lia).
  assert (Happ : take (16 * n) leaf ++ block = leaf) by (subst block; rewrite take_take_drop; apply take_ge; lia).
  destruct (consumed_last_block _ _ block Hf1) as (h2 & E2 & Hw2 & Es2); [lia | rewrite Happ; exact Hsize|].
  rewrite Happ in Es2. unfold pad16 in E2. rewrite Hb in E2.
  exists {| hasher := h2; oracle := oracle s1 |}. split; [exact (on_hasher_ok _ s1 _ _ E2) | auto].
Qed.
End Alternative_Spec.

(** ** The verdict

    What a verification comes to, as a function of the words it reads: [None]
    where it panics or leaves its inputs, else the verdict and what is left of
    the source. *)
Definition verdict (coset_index leaf_index : Z) (depth : nat) (leaf_encoding : list Z)
    (merkle_cap : list (list Digest)) (words : list Z) : option (bool * list Z) :=
  if (length leaf_encoding =? 0)%nat || (length leaf_encoding =? 16)%nat then None
  else if (length words <? 8 * depth)%nat then None
  else
    cap ← merkle_cap !! Z.to_nat coset_index;
    digest ← cap !! Z.to_nat (Z.shiftr leaf_index (Z.of_nat depth));
    Some (bool_decide (path_root (words_hash true leaf_encoding) leaf_index (siblings depth words) = digest),
          drop (8 * depth) words).

Definition observed {H A} (r : outcome Empty_set (Verifier H) A) : option (A * list Z) :=
  match r with Ok a s => Some (a, oracle s) | _ => None end.

Section Verdict.
Context {H : Type} `{LawfulHasher H}.
Notation V := (Verifier H).

Lemma path_steps_ok step depth : step_up step -> forall index (s : V), h_wf (hasher s) ->
  if (8 * depth <=? length (oracle s))%nat then
    exists h', path_steps step depth index s =
        Ok (Z.shiftr index (Z.of_nat depth)) {| hasher := h'; oracle := drop (8 * depth) (oracle s) |} /\
      h_wf h' /\ h_state h' = path_root (h_state (hasher s)) index (siblings depth (oracle s))
  else exists msg, path_steps step depth index s = Panic msg.
Proof.
  intros Hstep. induction depth as [|d IH]; intros index s Hw.
  { exists (hasher s). rewrite Z.shiftr_0_r. destruct s; auto. }
  cbn [path_steps siblings path_root]. specialize (Hstep index s Hw).
  destruct (Nat.leb_spec 8 (length (oracle s))) as [Ho|Ho].
  2:{ destruct Hstep as [msg E]. destruct (Nat.leb_spec (8 * S d) (length (oracle s))); [lia|].
      exists msg. unfold bind. rewrite E. reflexivity. }
  destruct Hstep as (h1 & E1 & Hw1 & Es1). rewrite (bind_step _ _ _ _ _ E1).
  specialize (IH (Z.shiftr index 1) {| hasher := h1; oracle := drop 8 (oracle s) |} Hw1).
  cbn [oracle hasher] in IH. rewrite length_drop in IH.
  destruct (Nat.leb_spec (8 * d) (length (oracle s) - 8)), (Nat.leb_spec (8 * S d) (length (oracle s))); try lia.
  - destruct IH as (h' & E & Hw' & Es). exists h'. rewrite E, Es, Es1. split; [|auto].
    rewrite Z.shiftr_shiftr, drop_drop by lia. repeat f_equal; lia.
  - exact IH.
Qed.

Lemma compare_ok coset_index index merkle_cap (s : V) : h_wf (hasher s) -> Forall (Forall is_digest) merkle_cap ->
  observed ((let! output_hash := gets (fun s => h_state (hasher s)) in
             let! cap := get_cap_unchecked merkle_cap coset_index index in
             ret (digests_equal output_hash cap)) s) =
    (cap ← merkle_cap !! Z.to_nat coset_index; digest ← cap !! Z.to_nat index;
     Some (bool_decide (h_state (hasher s) = digest), oracle s)).
Proof.
  intros Hw Hcap. unfold bind at 1, gets. cbn [fst snd]. unfold bind, get_cap_unchecked.
  destruct (merkle_cap !! Z.to_nat coset_index) as [cap|] eqn:Ec; cbn [mbind option_bind]; [|reflexivity].
  destruct (cap !! Z.to_nat index) as [digest|] eqn:Ed; cbn [mbind option_bind]; [|reflexivity].
  unfold ret, observed. rewrite digests_equal_spec; [reflexivity | apply h_wf_state, Hw|].
  rewrite Forall_lookup in Hcap. specialize (Hcap _ _ Ec). rewrite Forall_lookup in Hcap. exact (Hcap _ _ Ed).
Qed.

Lemma short_leaf_rounds (leaf : list Z) : length leaf = 0%nat \/ length leaf = 16%nat ->
  let '(n, lst) := leaf_rounds (length leaf) in (length leaf < 16 * n + lst)%nat /\ (16 * n <= length leaf)%nat.
Proof.
  intros [-> | ->].
  - change (leaf_rounds 0) with (0, 16)%nat. cbv iota beta. lia.
  - change (leaf_rounds 16) with (1, 16)%nat. cbv iota beta. lia.
Qed.

Lemma exact_block_panics leaf (s : V) : h_wf (hasher s) -> length leaf = 0%nat \/ length leaf = 16%nat ->
  hash_leaf_encoding leaf s = Panic UB.
Proof.
  intros Hw Hl. pose proof (short_leaf_rounds leaf Hl) as Hr. unfold hash_leaf_encoding.
  rewrite (bind_step _ _ _ tt {| hasher := h_reset (hasher s); oracle := oracle s |}) by reflexivity.
  destruct (leaf_rounds (length leaf)) as [n lst].
  destruct (absorb_full_rounds_ok leaf n 0 {| hasher := h_reset (hasher s); oracle := oracle s |})
    as (s1 & E1 & _); [lia | apply reset_consumed, Hw | lia|].
  rewrite (bind_step _ _ _ _ _ E1). unfold bind at 1, read_slice.
  destruct (Nat.leb_spec (0 + 16 * n + lst) (length leaf)); [lia | reflexivity].
Qed.

(** Any leaf hasher and step that do what the lemmas above say reach the verdict. *)
Lemma verdict_reached (hash_leaf : list Z -> vprog H unit) step coset_index leaf_index depth leaf merkle_cap (s : V) :
  step_up step -> h_wf (hasher s) -> 4 * Z.of_nat (length leaf) < 2 ^ 32 -> Forall (Forall is_digest) merkle_cap ->
  (verifiable leaf -> exists s', hash_leaf leaf s = Ok tt s' /\ h_wf (hasher s') /\ oracle s' = oracle s /\
     h_state (hasher s') = words_hash true leaf) ->
  (length leaf = 0%nat \/ length leaf = 16%nat -> hash_leaf leaf s = Panic UB) ->
  observed ((hash_leaf leaf ;;!
    (if (depth =? 0)%nat then
       let! output_hash := gets (fun s => h_state (hasher s)) in
       let! cap := get_cap_unchecked merkle_cap coset_index leaf_index in
       ret (digests_equal output_hash cap)
     else
       let! index := path_steps step depth leaf_index in
       let! output_hash := gets (fun s => h_state (hasher s)) in
       let! cap := get_cap_unchecked merkle_cap coset_index index in
       ret (digests_equal output_hash cap))) s) =
  verdict coset_index leaf_index depth leaf merkle_cap (oracle s).
Proof.
  intros Hstep Hw Hsize Hcap Hleaf Hub. unfold verdict.
  destruct (Nat.eqb_spec (length leaf) 0) as [E0|E0];
    [cbn [orb]; unfold bind at 1; rewrite Hub by auto; reflexivity|].
  destruct (Nat.eqb_spec (length leaf) 16) as [E16|E16];
    [cbn [orb]; unfold bind at 1; rewrite Hub by auto; reflexivity|]. cbn [orb].
  destruct Hleaf as (s1 & E1 & Hw1 & Ho1 & Es1).
  { repeat split; auto. intros ->. apply E0. reflexivity. }
  rewrite (bind_step _ _ _ _ _ E1), <- Ho1, <- Es1. destruct (Nat.eqb_spec depth 0) as [->|Hd].
  - change (length (oracle s1) <? 8 * 0)%nat with false. rewrite compare_ok by auto. rewrite Z.shiftr_0_r. reflexivity.
  - pose proof (path_steps_ok step depth Hstep leaf_index s1 Hw1) as Hp.
    destruct (Nat.leb_spec (8 * depth) (length (oracle s1))), (Nat.ltb_spec (length (oracle s1)) (8 * depth)); try lia.
    + destruct Hp as (h' & E & Hw' & Es). rewrite (bind_step _ _ _ _ _ E), compare_ok by auto.
      cbn [hasher oracle]. rewrite Es. reflexivity.
    + destruct Hp as [msg E]. unfold bind at 1. rewrite E. reflexivity.
Qed.

Lemma verify_verdict coset_index leaf_index depth leaf merkle_cap (s : V) :
  h_wf (hasher s) -> 4 * Z.of_nat (length leaf) < 2 ^ 32 -> Forall (Forall is_digest) merkle_cap ->
  observed (verify_leaf_inclusion coset_index leaf_index depth leaf merkle_cap s) =
    verdict coset_index leaf_index depth leaf merkle_cap (oracle s).
Proof.
  intros Hw Hsize Hcap. apply verdict_reached; auto using path_step_ok, exact_block_panics.
  apply hash_leaf_encoding_ok, Hw.
Qed.
End Verdict.

Lemma alternative_exact_block {H : Type} `{LawfulNodeHasher H} leaf (s : Verifier H) : h_wf (hasher s) ->
  length leaf = 0%nat \/ length leaf = 16%nat -> Alternative.hash_leaf_encoding leaf s = Panic UB.
Proof.
  intros Hw Hl. pose proof (short_leaf_rounds leaf Hl) as Hr. unfold Alternative.hash_leaf_encoding.
  rewrite (bind_step _ _ _ tt {| hasher := h_reset (hasher s); oracle := oracle s |}) by reflexivity.
  destruct (leaf_rounds (length leaf)) as [n lst].
  destruct (alternative_full_rounds_ok leaf n 0 {| hasher := h_reset (hasher s); oracle := oracle s |})
    as (s1 & E1 & _); [lia | apply reset_consumed, Hw | lia|].
  rewrite (bind_step _ _ _ _ _ E1). unfold bind at 1, read_slice.
  destruct (Nat.leb_spec (0 + 16 * n + lst) (length leaf)); [lia | reflexivity].
Qed.

Lemma alternative_verdict {H : Type} `{LawfulNodeHasher H} coset_index leaf_index depth leaf merkle_cap
    (s : Verifier H) :
  h_wf (hasher s) -> 4 * Z.of_nat (length leaf) < 2 ^ 32 -> Forall (Forall is_digest) merkle_cap ->
  observed (Alternative.verify_leaf_inclusion coset_index leaf_index depth leaf merkle_cap s) =
    verdict coset_index leaf_index depth leaf merkle_cap (oracle s).
Proof.
  intros Hw Hsize Hcap. apply verdict_reached; auto.
  - apply alternative_step_ok.
  - apply alternative_leaf_ok, Hw.
  - apply alternative_exact_block, Hw.
Qed.

(** ** Binding

    Two leaves accepted at one position under one cap give a collision, and it
    is found by walking the two paths in step. *)
Inductive Collision : Type :=
| LeafCollision (leaf1 leaf2 : list Z)
| NodeCollision (block1 block2 : list Z).

Definition is_collision (c : Collision) : Prop :=
  match c with
  | LeafCollision l1 l2 => l1 <> l2 /\ words_hash true l1 = words_hash true l2
  | NodeCollision b1 b2 => length b1 = 16%nat /\ length b2 = 16%nat /\ b1 <> b2 /\
      Baseline.compress_two_to_one true b1 = Baseline.compress_two_to_one true b2
  end.

Definition node_block (hash : Digest) (index : Z) (sibling : Digest) : list Z :=
  if Z.odd index then sibling ++ hash else hash ++ sibling.

Fixpoint path_collision (hash1 hash2 : Digest) (index : Z) (path1 path2 : list Digest) : option Collision :=
  match path1, path2 with
  | sib1 :: rest1, sib2 :: rest2 =>
      let block1 := node_block hash1 index sib1 in
      let block2 := node_block hash2 index sib2 in
      let up1 := node_above hash1 index sib1 in
      let up2 := node_above hash2 index sib2 in
      if bool_decide (up1 = up2) && negb (bool_decide (block1 = block2)) then Some (NodeCollision block1 block2)
      else path_collision up1 up2 (Z.shiftr index 1) rest1 rest2
  | _, _ => None
  end.

Definition find_collision (leaf_index : Z) (depth : nat) (leaf1 leaf2 words1 words2 : list Z) : option Collision :=
  let hash1 := words_hash true leaf1 in
  let hash2 := words_hash true leaf2 in
  if bool_decide (hash1 = hash2) && negb (bool_decide (leaf1 = leaf2)) then Some (LeafCollision leaf1 leaf2)
  else path_collision hash1 hash2 leaf_index (siblings depth words1) (siblings depth words2).

Lemma node_above_digest h i s : is_digest (node_above h i s).
Proof. unfold node_above. destruct (Z.odd i); apply compress_digest. Qed.

Lemma node_block_inj h1 h2 index s1 s2 : is_digest h1 -> is_digest h2 -> is_digest s1 -> is_digest s2 ->
  node_block h1 index s1 = node_block h2 index s2 -> h1 = h2 /\ s1 = s2.
Proof.
  unfold is_digest, node_block. intros Hh1 Hh2 Hs1 Hs2 E.
  destruct (Z.odd index); apply app_inj_1 in E; tauto || congruence.
Qed.

Lemma length_node_block h index s : is_digest h -> is_digest s -> length (node_block h index s) = 16%nat.
Proof. unfold is_digest, node_block. destruct (Z.odd index); rewrite length_app; lia. Qed.

Lemma node_above_block h index s : node_above h index s = Baseline.compress_two_to_one true (node_block h index s).
Proof. unfold node_above, node_block. destruct (Z.odd index); reflexivity. Qed.

Lemma path_collision_found path1 : forall path2 h1 h2 index, length path1 = length path2 ->
  Forall is_digest path1 -> Forall is_digest path2 -> is_digest h1 -> is_digest h2 ->
  path_root h1 index path1 = path_root h2 index path2 -> ~ (h1 = h2 /\ path1 = path2) ->
  exists c, path_collision h1 h2 index path1 path2 = Some c /\ is_collision c.
Proof.
  induction path1 as [|s1 path1 IH]; intros [|s2 path2] h1 h2 index Hl Hd1 Hd2 Hh1 Hh2 E Hne; try discriminate.
  { tauto. }
  apply Forall_cons in Hd1 as [Hs1 Hd1]. apply Forall_cons in Hd2 as [Hs2 Hd2]. injection Hl as Hl.
  cbn [path_collision path_root] in *. fold (node_above h1 index s1) (node_above h2 index s2) in E.
  case_bool_decide as Hup; cbn [andb]; [case_bool_decide as Hb; cbn [negb]|].
  - destruct (node_block_inj _ _ _ _ _ Hh1 Hh2 Hs1 Hs2 Hb) as [-> ->].
    apply IH; auto using node_above_digest. intros [_ ->]. apply Hne. auto.
  - eexists. split; [reflexivity|]. unfold is_collision. rewrite <- !node_above_block, !length_node_block; auto.
  - apply IH; auto using node_above_digest. tauto.
Qed.

Lemma siblings_digests depth : forall words, (8 * depth <= length words)%nat ->
  Forall is_digest (siblings depth words) /\ length (siblings depth words) = depth.
Proof.
  induction depth as [|d IH]; intros words Hl; cbn [siblings length]; [auto|].
  destruct (IH (drop 8 words)) as [Hd Hn]; [rewrite length_drop; lia|].
  split; [|lia]. constructor; [unfold is_digest; rewrite length_take; lia | exact Hd].
Qed.

Lemma words_hash_digest ws : is_digest (words_hash true ws).
Proof. rewrite words_hash_chained. reflexivity. Qed.

Lemma verdict_accepts coset_index leaf_index depth leaf merkle_cap words rest :
  verdict coset_index leaf_index depth leaf merkle_cap words = Some (true, rest) -> exists digest,
  (8 * depth <= length words)%nat /\
  (cap ← merkle_cap !! Z.to_nat coset_index; cap !! Z.to_nat (Z.shiftr leaf_index (Z.of_nat depth))) = Some digest /\
  path_root (words_hash true leaf) leaf_index (siblings depth words) = digest.
Proof.
  unfold verdict. destruct (_ || _); [discriminate|]. destruct (Nat.ltb_spec (length words) (8 * depth)); [discriminate|].
  destruct (merkle_cap !! _) as [cap|]; cbn [mbind option_bind]; [|discriminate].
  destruct (cap !! _) as [digest|] eqn:Ed; cbn [mbind option_bind]; [|discriminate]. intros [= E _].
  apply bool_decide_eq_true_1 in E. eauto.
Qed.

(** C18: both verifiers, with any hasher that keeps the interface's promise, end in the same way:
    they read eight words per level and accept exactly when the Merkle path folded from the
    RFC 7693 hash of the leaf reaches the digest of the cap; they stop without a verdict exactly
    when the source runs dry, the cap has no such entry, or the leaf has no or exactly sixteen words. *)
Theorem leaf_verifiers_correct {H : Type} `{LawfulHasher H} {N : Type} `{LawfulNodeHasher N}
    coset_index leaf_index depth leaf merkle_cap (h : H) (n : N) words :
  h_wf h -> h_wf n -> 4 * Z.of_nat (length leaf) < 2 ^ 32 -> Forall (Forall is_digest) merkle_cap ->
  observed (verify_leaf_inclusion coset_index leaf_index depth leaf merkle_cap
              {| hasher := h; oracle := words |}) =
    verdict coset_index leaf_index depth leaf merkle_cap words /\
  observed (Alternative.verify_leaf_inclusion coset_index leaf_index depth leaf merkle_cap
              {| hasher := n; oracle := words |}) =
    verdict coset_index leaf_index depth leaf merkle_cap words.
Proof. intros. split; [apply verify_verdict | apply alternative_verdict]; auto. Qed.

(** C17: an opening is binding: from two accepting runs of the verifier at one position under one
    cap, either the leaves and the siblings read are the same, or [find_collision] computes from
    them two different leaves with one hash or two different node blocks with one compression. *)
Theorem accepted_leaf_binding {H : Type} `{LawfulHasher H} coset_index leaf_index depth leaf1 leaf2
    merkle_cap (s1 s2 s1' s2' : Verifier H) :
  h_wf (hasher s1) -> h_wf (hasher s2) -> Forall (Forall is_digest) merkle_cap ->
  4 * Z.of_nat (length leaf1) < 2 ^ 32 -> 4 * Z.of_nat (length leaf2) < 2 ^ 32 ->
  verify_leaf_inclusion coset_index leaf_index depth leaf1 merkle_cap s1 = Ok true s1' ->
  verify_leaf_inclusion coset_index leaf_index depth leaf2 merkle_cap s2 = Ok true s2' ->
  leaf1 = leaf2 /\ siblings depth (oracle s1) = siblings depth (oracle s2) \/
  exists c, find_collision leaf_index depth leaf1 leaf2 (oracle s1) (oracle s2) = Some c /\ is_collision c.
Proof.
  intros Hw1 Hw2 Hcap Hl1 Hl2 E1 E2.
  pose proof (verify_verdict coset_index leaf_index depth leaf1 merkle_cap s1 Hw1 Hl1 Hcap) as V1.
  pose proof (verify_verdict coset_index leaf_index depth leaf2 merkle_cap s2 Hw2 Hl2 Hcap) as V2.
  rewrite E1 in V1. rewrite E2 in V2. symmetry in V1, V2.
  apply verdict_accepts in V1 as (d1 & Ho1 & C1 & R1). apply verdict_accepts in V2 as (d2 & Ho2 & C2 & R2).
  assert (d1 = d2) by congruence. subst d2.
  destruct (siblings_digests depth _ Ho1) as [D1 L1]. destruct (siblings_digests depth _ Ho2) as [D2 L2].
  destruct (decide (leaf1 = leaf2 /\ siblings depth (oracle s1) = siblings depth (oracle s2))) as [Heq|Hne]; [auto|].
  right. unfold find_collision. case_bool_decide as Hh; cbn [andb]; [case_bool_decide as Hl; cbn [negb]|].
  - apply path_collision_found; auto using words_hash_digest; [congruence | congruence | tauto].
  - eexists. split; [reflexivity|]. split; assumption.
  - apply path_collision_found; auto using words_hash_digest; [congruence | congruence | tauto].
Qed.

Lemma siblings_of_path path rest : Forall is_digest path ->
  siblings (length path) (concat path ++ rest) = path /\
  drop (8 * length path) (concat path ++ rest) = rest /\ (8 * length path <= length (concat path ++ rest))%nat.
Proof.
  induction path as [|d path IH]; intros Hd; [split; [reflexivity | split; [reflexivity | cbn; lia]]|].
  apply Forall_cons in Hd as [Hd Hp]. destruct (IH Hp) as (E1 & E2 & Hl). unfold is_digest in Hd.
  cbn [length siblings concat]. rewrite <- app_assoc.
  rewrite take_app_le, take_ge, drop_app_ge by lia. rewrite Hd, Nat.sub_diag, drop_0, E1.
  split; [reflexivity|]. split; [|rewrite length_app; lia].
  replace (8 * S (length path))%nat with (8 + 8 * length path)%nat by lia. rewrite <- drop_drop.
  rewrite drop_app_ge by lia. rewrite Hd, Nat.sub_diag, drop_0. exact E2.
Qed.

Lemma enumerated_digests bitreverse k trace : Forall is_digest (enumerated_leaves bitreverse k trace).
Proof.
  unfold enumerated_leaves. apply Forall_map, List.Forall_forall. intros i _. apply words_hash_digest.
Qed.

Lemma length_node_layers n : forall previous, length (node_layers n previous) = n.
Proof. induction n as [|n IH]; intros previous; cbn; [reflexivity | now rewrite IH]. Qed.

(** The tree over a coset and its proof for leaf [idx]. *)
Lemma coset_tree_ok num_cores trace n c bitreverse idx row :
  0 < num_cores -> (n + c <= 31)%nat -> Z.of_nat (length trace) = 2 ^ Z.of_nat (n + c) ->
  Forall hashable trace -> 0 <= idx < 2 ^ Z.of_nat (n + c) ->
  row = nth (Z.to_nat (row_of_leaf bitreverse (n + c) idx)) trace [] -> exists tree path,
  construct_for_coset num_cores trace (2 ^ Z.of_nat c) bitreverse = Some tree /\
  get_proof tree idx = Some (leaf_digest row, path) /\ length path = n /\ Forall is_digest path /\
  get_cap tree !! Z.to_nat (Z.shiftr idx (Z.of_nat n)) = Some (path_root (leaf_digest row) idx path).
Proof.
  intros Hc Hn Hl Hr Hidx Erow. set (leaves := enumerated_leaves bitreverse (n + c) trace).
  assert (Hlv : Z.of_nat (length leaves) = 2 ^ Z.of_nat (n + c)) by (subst leaves; rewrite length_enumerated; exact Hl).
  assert (Hleaf : leaves !! Z.to_nat idx = Some (leaf_digest row)).
  { subst leaves row. rewrite leaf_at by lia. rewrite Z2Nat.id by lia. reflexivity. }
  destruct (proof_ok n c leaves idx (leaf_digest row) Hlv ltac:(lia) (enumerated_digests _ _ _) Hleaf)
    as (path & Ep & Hpl & Hpd & Htop).
  exists {| cap_size := 2 ^ Z.of_nat c; leaf_hashes := leaves; node_hashes_enumerated_from_leafs := node_layers n leaves |}, path.
  split; [|split; [|split; [exact Hpl | split; [exact Hpd | exact Htop]]]].
  - unfold construct_for_coset. rewrite (coset_leaves_ok num_cores (n + c)) by auto. rewrite mapM_id_Some.
    apply (tree_ok num_cores n c); auto.
  - unfold get_proof. cbn [leaf_hashes node_hashes_enumerated_from_leafs].
    rewrite length_node_layers, Hleaf, Ep. reflexivity.
Qed.

Lemma row_hashable trace k bitreverse idx : Forall hashable trace -> Z.of_nat (length trace) = 2 ^ Z.of_nat k ->
  0 <= idx < 2 ^ Z.of_nat k -> hashable (nth (Z.to_nat (row_of_leaf bitreverse k idx)) trace []).
Proof.
  intros Hr Hl Hidx. apply (proj1 (List.Forall_forall _ _) Hr), nth_In. unfold row_of_leaf.
  destruct bitreverse; [pose proof (bitrev_bound k idx)|]; lia.
Qed.

(** A path that leads to the cap is accepted. *)
Lemma path_accepted {H : Type} `{LawfulHasher H} coset_index idx leaf merkle_cap cap path rest (h : H) :
  verifiable leaf -> Forall is_digest path -> Forall (Forall is_digest) merkle_cap -> h_wf h ->
  merkle_cap !! Z.to_nat coset_index = Some cap ->
  cap !! Z.to_nat (Z.shiftr idx (Z.of_nat (length path))) = Some (path_root (words_hash true leaf) idx path) -> exists h',
  verify_leaf_inclusion coset_index idx (length path) leaf merkle_cap
    {| hasher := h; oracle := concat path ++ rest |} = Ok true {| hasher := h'; oracle := rest |}.
Proof.
  intros (Hne & H16 & Hsize) Hpd Hcap Hw Hcs Hroot. destruct (siblings_of_path path rest Hpd) as (Es & Ed & Ho).
  pose proof (verify_verdict coset_index idx (length path) leaf merkle_cap
    {| hasher := h; oracle := concat path ++ rest |} Hw Hsize Hcap) as Hv. unfold verdict in Hv.
  destruct (Nat.eqb_spec (length leaf) 0) as [E0|_]; [destruct leaf; [congruence | discriminate]|].
  destruct (Nat.eqb_spec (length leaf) 16); [contradiction|]. cbn [orb oracle] in Hv.
  destruct (Nat.ltb_spec (length (concat path ++ rest)) (8 * length path)); [lia|].
  rewrite Hcs in Hv. cbn [mbind option_bind] in Hv. rewrite Hroot in Hv. cbn [mbind option_bind] in Hv.
  rewrite Es, Ed, bool_decide_eq_true_2 in Hv by reflexivity.
  destruct (verify_leaf_inclusion _ _ _ _ _ _) as [b [h' o]| |]; cbn [observed oracle] in Hv; try discriminate.
  injection Hv as -> ->. exists h'. reflexivity.
Qed.

(** A leaf of sixteen words gets no verdict: the verifier reads past its end. *)
Lemma sixteen_words_no_verdict {H : Type} `{LawfulHasher H} coset_index idx depth leaf merkle_cap (s : Verifier H) :
  length leaf = 16%nat -> Forall (Forall is_digest) merkle_cap -> h_wf (hasher s) ->
  observed (verify_leaf_inclusion coset_index idx depth leaf merkle_cap s) = None.
Proof. intros Hl Hcap Hw. rewrite verify_verdict by (auto; lia). unfold verdict. rewrite Hl. reflexivity. Qed.

(** C16: what the prover commits to can be opened: for a trace of [2^(n + c)] rows, at most [2^31],
    none of them empty or of [2^30] words or more, hashed by any number of threads, in row order or
    bit-reversed, the tree is built and a proof exists for every leaf.  Given that proof's path, the
    row's words and the cap of the tree, the verifier returns true and consumes exactly the path if
    the row has not exactly sixteen words; on a row of sixteen words, which the prover hashes as one
    block, it reads past the end of the leaf and reaches no verdict. *)
Theorem committed_leaf_opens {H : Type} `{LawfulHasher H} num_cores trace n c bitreverse idx :
  0 < num_cores -> (n + c <= 31)%nat -> Z.of_nat (length trace) = 2 ^ Z.of_nat (n + c) ->
  Forall hashable trace -> 0 <= idx < 2 ^ Z.of_nat (n + c) ->
  let row := nth (Z.to_nat (row_of_leaf bitreverse (n + c) idx)) trace [] in exists tree leaf_hash path,
  construct_for_coset num_cores trace (2 ^ Z.of_nat c) bitreverse = Some tree /\
  get_proof tree idx = Some (leaf_hash, path) /\
  forall merkle_cap coset_index (h : H) rest, Forall (Forall is_digest) merkle_cap ->
    merkle_cap !! Z.to_nat coset_index = Some (get_cap tree) -> h_wf h ->
    let run := verify_leaf_inclusion coset_index idx n (map to_reduced_u32 row) merkle_cap
                 {| hasher := h; oracle := concat path ++ rest |} in
    if (length row =? 16)%nat then observed run = None
    else exists h', run = Ok true {| hasher := h'; oracle := rest |}.
Proof.
  intros Hc Hn Hl Hr Hidx row.
  destruct (coset_tree_ok num_cores trace n c bitreverse idx row Hc Hn Hl Hr Hidx eq_refl)
    as (tree & path & Et & Ep & Hpl & Hpd & Htop).
  exists tree, (leaf_digest row), path. split; [exact Et|]. split; [exact Ep|].
  intros merkle_cap coset_index h rest Hcap Hcs Hw run. subst n run.
  destruct (row_hashable trace (length path + c) bitreverse idx Hr Hl Hidx) as [Hne Hsize]. fold row in Hne, Hsize.
  destruct (Nat.eqb_spec (length row) 16) as [E16|H16].
  { apply sixteen_words_no_verdict; [rewrite length_map; exact E16 | exact Hcap | exact Hw]. }
  apply (path_accepted _ _ _ _ (get_cap tree)); auto. unfold verifiable. rewrite length_map.
  split; [intros E; apply map_eq_nil in E; auto | auto].
Qed.

(** ** Witnesses *)
Definition sample_trace : list (list Z) := [[1; 2; 3]; [4; 5; 6]].

Lemma sample_trace_hashable : Forall hashable sample_trace.
Proof. repeat (apply Forall_cons; split; [split; [congruence | cbn; lia]|]). constructor. Qed.

Lemma committed_leaf_opens_witness : exists tree leaf_hash path,
  construct_for_coset 2 sample_trace 1 true = Some tree /\ get_proof tree 1 = Some (leaf_hash, path) /\
  forall merkle_cap coset_index (h : Baseline.Blake2sState) rest, Forall (Forall is_digest) merkle_cap ->
    merkle_cap !! Z.to_nat coset_index = Some (get_cap tree) -> h_wf h -> exists h',
    verify_leaf_inclusion coset_index 1 1 [4; 5; 6] merkle_cap
      {| hasher := h; oracle := concat path ++ rest |} = Ok true {| hasher := h'; oracle := rest |}.
Proof.
  exact (committed_leaf_opens (H := Baseline.Blake2sState) 2 sample_trace 1 0 true 1 ltac:(lia) ltac:(lia) eq_refl
    sample_trace_hashable ltac:(cbn; lia)).
Defined.

(** A cap of one digest that the leaf [[4; 5; 6]] reaches with the sibling [0; ...; 7]. *)
Definition sample_sibling : Digest := rangeZ 0 8.
Definition sample_caps : list (list Digest) := [[path_root (words_hash true [4; 5; 6]) 1 [sample_sibling]]].

Definition sample_start : Verifier Baseline.Blake2sState :=
  {| hasher := Baseline.new; oracle := sample_sibling ++ [9] |}.

Definition accepting_end : Verifier Baseline.Blake2sState :=
  match verify_leaf_inclusion 0 1 1 [4; 5; 6] sample_caps sample_start with Ok _ s => s | _ => sample_start end.

Lemma sample_run : verify_leaf_inclusion 0 1 1 [4; 5; 6] sample_caps sample_start = Ok true accepting_end.
Proof. vm_compute. reflexivity. Qed.

Lemma accepted_leaf_binding_witness :
  [4; 5; 6] = [4; 5; 6] /\ siblings 1 (oracle sample_start) = siblings 1 (oracle sample_start) \/
  exists c, find_collision 1 1 [4; 5; 6] [4; 5; 6] (oracle sample_start) (oracle sample_start) = Some c /\ is_collision c.
Proof.
  apply (accepted_leaf_binding 0 1 1 [4; 5; 6] [4; 5; 6] sample_caps sample_start sample_start accepting_end accepting_end);
    try (cbn; lia); try exact sample_run; try (split; reflexivity).
  all: repeat constructor.
Defined.

Lemma leaf_verifiers_correct_witness :
  let guest : GuestEvaluator := {| Evaluator.state := replicate 8 0; Evaluator.extended_state := replicate 16 0;
                                   Evaluator.input_buffer := replicate 16 0; Evaluator.t := 0 |} in
  observed (verify_leaf_inclusion 0 1 1 [4; 5; 6] sample_caps sample_start) =
    verdict 0 1 1 [4; 5; 6] sample_caps (oracle sample_start) /\
  observed (Alternative.verify_leaf_inclusion 0 1 1 [4; 5; 6] sample_caps
              {| hasher := guest; oracle := oracle sample_start |}) =
    verdict 0 1 1 [4; 5; 6] sample_caps (oracle sample_start).
Proof.
  intros guest. apply (leaf_verifiers_correct 0 1 1 [4; 5; 6] sample_caps Baseline.new guest (oracle sample_start));
    try (cbn; lia); try (repeat split; reflexivity).
  repeat constructor.
Defined.
