(* ===== verification/Skeleton.v ===== *)
(** * What the verifier of a circuit reads

    [verifier/src/concrete/size_constants.rs] (the sizes of a circuit's proof),
    [verifier/src/skeleton.rs] and [verifier/src/concrete/skeleton_instance.rs]
    (the two structures a proof is read into, and their [fill]).  The compiled
    layout of a circuit is generated code: the numbers the verifier takes from
    it are a record here.  A structure is the array of 32-bit words the code
    writes through a [*mut u32], and a field of it a range of these words; its
    size and offset are counted in words. *)
From stdpp Require Import base list sets strings.
From Stdlib Require Import ZArith Lia.
From S2P Require Import Prelude MachineInt Field FieldExt FieldTraits Powers Ntt Fft Fri Deep Blake2s Hasher.
From S2P Require Import Worker BitReverse Transcript Challenges MerkleTree LeafInclusion.

Import Quartic (Mersenne31Quartic).

#[local] Opaque Nat.pow mixing_function Rfc.round.

(** ** The layout of a circuit and the parameters of a proof *)

(** [VERIFIER_COMPILED_LAYOUT]: the widths of the four trees, the state
    variables, and the columns opened in the next row. *)
Record CompiledLayout : Type := {
  trace_len_log2 : nat;
  setup_width : nat;
  witness_width : nat;
  memory_width : nat;
  stage_2_width : nat;
  public_inputs_len : nat;
  state_linkage_witness_columns : list nat;
  has_delegation_request : bool;
  has_delegation_processor : bool;
  lazy_init_addresses_start : option nat; (* of [shuffle_ram_inits_and_teardowns] *)
  shuffle_ram_access_sets_len : nat;
  stage_2_base_field_polys : nat;
  stage_2_ext4_field_polys : nat;
  stage_2_ext4_polys_offset : nat;
  memory_argument_polys_start : nat;
  memory_argument_polys_len : nat;
}.

Record FoldingDescription : Type := {
  initial_degree : nat;
  folding_sequence : list nat;
  total_caps_size_log2 : nat;
  final_monomial_degree_log2 : nat;
}.

Definition DUMMY_DESCRIPTION : FoldingDescription :=
  {| initial_degree := 0; folding_sequence := []; total_caps_size_log2 := 0; final_monomial_degree_log2 := 0 |}.
Definition OPTIMAL_FOLDING_PROPERTIES : list FoldingDescription :=
  replicate 17 DUMMY_DESCRIPTION ++
  [ {| initial_degree := 17; folding_sequence := [3; 3; 3; 3]; total_caps_size_log2 := 7; final_monomial_degree_log2 := 5 |};
    {| initial_degree := 18; folding_sequence := [3; 3; 3; 3]; total_caps_size_log2 := 7; final_monomial_degree_log2 := 6 |};
    {| initial_degree := 19; folding_sequence := [4; 3; 3; 3]; total_caps_size_log2 := 7; final_monomial_degree_log2 := 6 |};
    {| initial_degree := 20; folding_sequence := [3; 3; 3; 3; 3]; total_caps_size_log2 := 7; final_monomial_degree_log2 := 5 |};
    {| initial_degree := 21; folding_sequence := [4; 3; 3; 3; 3]; total_caps_size_log2 := 7; final_monomial_degree_log2 := 5 |};
    {| initial_degree := 22; folding_sequence := [4; 4; 3; 3; 3]; total_caps_size_log2 := 7; final_monomial_degree_log2 := 5 |};
    {| initial_degree := 23; folding_sequence := [4; 4; 3; 3; 3]; total_caps_size_log2 := 7; final_monomial_degree_log2 := 6 |};
    {| initial_degree := 24; folding_sequence := [4; 4; 4; 3; 3]; total_caps_size_log2 := 7; final_monomial_degree_log2 := 6 |};
    {| initial_degree := 25; folding_sequence := [4; 4; 4; 4; 3]; total_caps_size_log2 := 7; final_monomial_degree_log2 := 6 |}
  ]%nat.

(** The parameters of a proof; every circuit of the program has
    [concrete_parameters]. *)
Record Parameters : Type := {
  SECURITY_BITS : nat;
  POW_BITS : nat;
  FOLDING_PROPERTIES : FoldingDescription;
}.
Definition concrete_parameters (L : CompiledLayout) : option Parameters :=
  folding ← OPTIMAL_FOLDING_PROPERTIES !! trace_len_log2 L;
  Some {| SECURITY_BITS := 80; POW_BITS := 28; FOLDING_PROPERTIES := folding |}.

(** ** Sizes *)
Module Size.
Section Size.
Context (L : CompiledLayout) (P : Parameters).

Definition LEAF_SIZE_WITNESS_TREE : nat := witness_width L.
Definition LEAF_SIZE_MEMORY_TREE : nat := memory_width L.
Definition LEAF_SIZE_STAGE_2 : nat := stage_2_width L.
Definition LEAF_SIZE_SETUP : nat := setup_width L.
Definition LEAF_SIZE_QUOTIENT : nat := 4.
Definition NUM_STATE_ELEMENTS : nat := public_inputs_len L / 2.
Definition NUM_PUBLIC_INPUTS_FROM_STATE_ELEMENTS : nat := NUM_STATE_ELEMENTS * 2.

Definition TRACE_LEN_LOG2 : nat := trace_len_log2 L.
Definition TREE_INDEX_MASK : Z := wsub (Z.shiftl 1 (Z.of_nat TRACE_LEN_LOG2)) 1.
Definition FRI_FACTOR_LOG2 : nat := 1.
Definition NUM_COSETS : nat := 2 ^ FRI_FACTOR_LOG2.
Definition TOTAL_TREE_CAP_SIZE : nat := 2 ^ total_caps_size_log2 (FOLDING_PROPERTIES P).
Definition TREE_CAP_SIZE : nat := TOTAL_TREE_CAP_SIZE / NUM_COSETS.
(** [trailing_zeros] of a power of two *)
Definition TREE_CAP_SIZE_LOG2 : nat := Nat.log2 TREE_CAP_SIZE.
Definition DEFAULT_MERKLE_PATH_LENGTH : nat := TRACE_LEN_LOG2 - TREE_CAP_SIZE_LOG2.
Definition SECURITY_BITS_PER_QUERY : nat := FRI_FACTOR_LOG2.
Definition NUM_QUERIES : nat := (SECURITY_BITS P - POW_BITS P) / SECURITY_BITS_PER_QUERY + 1.
Definition BITS_FOR_QUERY_INDEX : nat := TRACE_LEN_LOG2 + FRI_FACTOR_LOG2.
Definition MIN_REQUIRED_WORDS_FOR_QUERY_INDEXES : nat := next_multiple_of (BITS_FOR_QUERY_INDEX * NUM_QUERIES) 32 / 32.
Definition NUM_REQUIRED_WORDS_FOR_QUERY_INDEXES : nat :=
  next_multiple_of (MIN_REQUIRED_WORDS_FOR_QUERY_INDEXES + 1) BLAKE2S_DIGEST_SIZE_U32_WORDS.

Definition FRI_FOLDING_SCHEDULE : list nat := folding_sequence (FOLDING_PROPERTIES P).
Definition NUM_FRI_STEPS : nat := length FRI_FOLDING_SCHEDULE.
Definition FRI_FINAL_DEGREE : nat := 2 ^ final_monomial_degree_log2 (FOLDING_PROPERTIES P).

(** [usize::next_power_of_two] *)
Definition next_power_of_two (n : nat) : nat := 2 ^ Nat.log2_up n.

(** [while i < NUM_FRI_STEPS - 1 { final_degree_log2 -= FRI_FOLDING_SCHEDULE[i]; i += 1 }] *)
Definition degree_before_last_step : nat :=
  fold_left Nat.sub (take (NUM_FRI_STEPS - 1) FRI_FOLDING_SCHEDULE) TRACE_LEN_LOG2.
Definition compute_last_fri_folding_step_properties : bool * nat :=
  let bound := next_power_of_two NUM_QUERIES in
  let final_degree_log2 := degree_before_last_step in
  let final_num_leafs := (2 ^ (final_degree_log2 - nth (NUM_FRI_STEPS - 1) FRI_FOLDING_SCHEDULE 0))%nat in
  if ((final_num_leafs * 2) / NUM_COSETS <=? bound)%nat then (true, 2 ^ final_degree_log2)%nat else (false, 0%nat).

Definition LAST_FRI_STEP_EXPOSE_LEAFS : bool := fst compute_last_fri_folding_step_properties.
Definition LAST_FRI_STEP_LEAFS_TOTAL_SIZE_PER_COSET : nat := snd compute_last_fri_folding_step_properties.
Definition NUM_FRI_STEPS_WITH_ORACLES : nat := NUM_FRI_STEPS - Z.to_nat (b2z LAST_FRI_STEP_EXPOSE_LEAFS).

(** The leaf sizes, the path lengths and the degree after the loop over
    [FRI_FOLDING_SCHEDULE]; [None] is a failed assertion. *)
Fixpoint fri_folding_loop (schedule : list nat) (final_degree_log2 fri_subtree_path_len : nat)
    : list nat * nat * nat :=
  match schedule with
  | [] => ([], 0, final_degree_log2)%nat
  | n :: rest =>
      let last := (length rest =? 0)%nat in
      let '(path_lengths, sizes, degree) :=
        fri_folding_loop rest (final_degree_log2 - n) (fri_subtree_path_len - n) in
      if last && LAST_FRI_STEP_EXPOSE_LEAFS then (0%nat :: path_lengths, sizes, degree)
      else ((fri_subtree_path_len - n)%nat :: path_lengths, (4 * 2 ^ n + sizes)%nat, degree)
  end.
Definition compute_fri_folding_properties : option (list nat * nat) :=
  let '(path_lengths, total_fri_leaf_sizes, final_degree_log2) :=
    fri_folding_loop FRI_FOLDING_SCHEDULE TRACE_LEN_LOG2 DEFAULT_MERKLE_PATH_LENGTH in
  if forallb (fun len => 0 <? len)%nat (take (NUM_FRI_STEPS - 1) path_lengths) &&
     (final_degree_log2 =? final_monomial_degree_log2 (FOLDING_PROPERTIES P))%nat
  then Some (path_lengths, total_fri_leaf_sizes) else None.
Definition TOTAL_FRI_LEAFS_SIZES : nat := match compute_fri_folding_properties with Some (_, n) => n | None => 0 end.
Definition FRI_ORACLE_PATH_LENGTHS : list nat := match compute_fri_folding_properties with Some (l, _) => l | None => [] end.

Definition NUM_SETUP_OPENINGS : nat := setup_width L.
Definition NUM_WITNESS_OPENINGS : nat := witness_width L.
Definition NUM_MEMORY_OPENINGS : nat := memory_width L.
Definition NUM_STAGE2_OPENINGS : nat := stage_2_base_field_polys L + stage_2_ext4_field_polys L.
(** [num_openings_at_z] *)
Definition NUM_OPENINGS_AT_Z : nat :=
  setup_width L + witness_width L + memory_width L + stage_2_base_field_polys L + stage_2_ext4_field_polys L + 1.
Definition has_inits_and_teardowns : bool := bool_decide (is_Some (lazy_init_addresses_start L)).
(** [num_openings_at_z_omega] *)
Definition NUM_OPENINGS_AT_Z_OMEGA : nat :=
  length (state_linkage_witness_columns L) + (if has_inits_and_teardowns then REGISTER_SIZE else 0) + 1.
Definition NUM_DELEGATION_CHALLENGES : nat := Z.to_nat (b2z (has_delegation_request L || has_delegation_processor L)).
Definition NUM_AUX_BOUNDARY_VALUES : nat := Z.to_nat (b2z has_inits_and_teardowns).

Definition NUM_WITNESS_OPENING_NEXT_ROW : nat := NUM_STATE_ELEMENTS.
Definition WITNESS_NEXT_ROW_OPENING_INDEXES : list nat := take NUM_WITNESS_OPENING_NEXT_ROW (state_linkage_witness_columns L).
Definition NUM_MEMORY_OPENING_NEXT_ROW : nat := if has_inits_and_teardowns then REGISTER_SIZE else 0.
(** The loop is over [0..NUM_WITNESS_OPENING_NEXT_ROW]; the array has
    [NUM_MEMORY_OPENING_NEXT_ROW] elements. *)
Definition MEMORY_NEXT_ROW_OPENING_INDEXES : list nat :=
  match lazy_init_addresses_start L with
  | Some start => map (fun i => start + i)%nat (seq 0 NUM_WITNESS_OPENING_NEXT_ROW)
  | None => []
  end.

Definition NUM_BITS_IN_TIMESTAMP_FOR_INDEX_LOG_2 : nat :=
  if (0 <? shuffle_ram_access_sets_len L)%nat then Nat.log2_up (shuffle_ram_access_sets_len L) else 0.
Definition TIMESTAMP_COLUMNS_NUM_BITS : nat := 19.
(** Below zero the expression does not compile; see [sequence_shift_compiles]. *)
Definition CIRCUIT_SEQUENCE_BITS_SHIFT : nat :=
  TRACE_LEN_LOG2 + NUM_BITS_IN_TIMESTAMP_FOR_INDEX_LOG_2 - TIMESTAMP_COLUMNS_NUM_BITS.

(** The last of the polynomials of the memory argument, each of four columns *)
Definition MEMORY_GRAND_PRODUCT_ACCUMULATOR_OFFSET : nat := memory_argument_polys_len L - 1.
Definition MEMORY_GRAND_PRODUCT_ACCUMULATOR_POLY_INDEX : nat :=
  let start := (memory_argument_polys_start L + 4 * MEMORY_GRAND_PRODUCT_ACCUMULATOR_OFFSET)%nat in
  stage_2_base_field_polys L + (start - stage_2_ext4_polys_offset L) / 4.

Definition SKELETON_PADDING : nat :=
  let size := (4 + 4 + 4 * NUM_PUBLIC_INPUTS_FROM_STATE_ELEMENTS)%nat in
  let size_mod_16 := (size mod 16)%nat in
  let required_padding_bytes := ((16 - size_mod_16) mod 16)%nat in
  required_padding_bytes / 4.

(** *** What the compiler checks of these constants *)

(** [assert!(sum < TRACE_LEN_LOG2 + FRI_FACTOR_LOG2)] *)
Definition schedule_assertion : bool := (sum_list FRI_FOLDING_SCHEDULE <? TRACE_LEN_LOG2 + FRI_FACTOR_LOG2)%nat.
(** [assert!(... == NUM_OPENINGS_AT_Z)] *)
Definition openings_assertion : bool :=
  (NUM_WITNESS_OPENINGS + NUM_MEMORY_OPENINGS + NUM_SETUP_OPENINGS + NUM_STAGE2_OPENINGS + 1 =? NUM_OPENINGS_AT_Z)%nat.
Definition NUM_EMPTY_BITS_FOR_RAM_TIMESTAMP : nat := 2.
(** [assert!(t == NUM_EMPTY_BITS_FOR_RAM_TIMESTAMP)], for circuits with accesses *)
Definition timestamp_assertion : bool :=
  if (0 <? shuffle_ram_access_sets_len L)%nat
  then (Nat.log2_up (shuffle_ram_access_sets_len L) =? NUM_EMPTY_BITS_FOR_RAM_TIMESTAMP)%nat else true.
(** The subtraction of [CIRCUIT_SEQUENCE_BITS_SHIFT] does not overflow. *)
Definition sequence_shift_compiles : bool :=
  (TIMESTAMP_COLUMNS_NUM_BITS <=? TRACE_LEN_LOG2 + NUM_BITS_IN_TIMESTAMP_FOR_INDEX_LOG_2)%nat.
(** The loop reads the state linkage constraints below [NUM_WITNESS_OPENING_NEXT_ROW]. *)
Definition witness_next_row_compiles : bool :=
  (NUM_WITNESS_OPENING_NEXT_ROW <=? length (state_linkage_witness_columns L))%nat.
(** The array is built with [NUM_WITNESS_OPENING_NEXT_ROW] elements for a type
    with [NUM_MEMORY_OPENING_NEXT_ROW]; the loop unwraps the layout of the inits. *)
Definition memory_next_row_compiles : bool :=
  (NUM_WITNESS_OPENING_NEXT_ROW =? NUM_MEMORY_OPENING_NEXT_ROW)%nat &&
  ((NUM_WITNESS_OPENING_NEXT_ROW =? 0)%nat || has_inits_and_teardowns).
(** No subtraction overflows and [assert!(poly_idx % 4 == 0)]. *)
Definition accumulator_compiles : bool :=
  let start := (memory_argument_polys_start L + 4 * MEMORY_GRAND_PRODUCT_ACCUMULATOR_OFFSET)%nat in
  (1 <=? memory_argument_polys_len L)%nat && (stage_2_ext4_polys_offset L <=? start)%nat &&
  ((start - stage_2_ext4_polys_offset L) mod 4 =? 0)%nat.
Definition static_assertions : bool :=
  bool_decide (is_Some compute_fri_folding_properties) && schedule_assertion && openings_assertion && timestamp_assertion &&
  sequence_shift_compiles && witness_next_row_compiles && memory_next_row_compiles && accumulator_compiles.
End Size.
End Size.

(** The part of the layout that the DEEP check reads *)
Definition deep_layout (L : CompiledLayout) : VerifierLayout := {|
  num_base_field_polys := stage_2_base_field_polys L;
  ext4_polys_offset := stage_2_ext4_polys_offset L;
  MEMORY_GRAND_PRODUCT_ACCUMULATOR_POLY_INDEX := Size.MEMORY_GRAND_PRODUCT_ACCUMULATOR_POLY_INDEX L;
  WITNESS_NEXT_ROW_OPENING_INDEXES := Size.WITNESS_NEXT_ROW_OPENING_INDEXES L;
  MEMORY_NEXT_ROW_OPENING_INDEXES := Size.MEMORY_NEXT_ROW_OPENING_INDEXES L;
|}.

(** ** Structures as arrays of words *)

(** A structure without gaps: the fields in their order with their sizes. *)
Definition struct_layout (F : Type) : Type := list (F * nat).

Section Struct.
Context {F : Type} `{EqDecision F}.

Fixpoint size_of (fields : struct_layout F) : nat :=
  match fields with [] => 0%nat | (_, n) :: rest => (n + size_of rest)%nat end.
Fixpoint field_size (fields : struct_layout F) (f : F) : nat :=
  match fields with [] => 0%nat | (g, n) :: rest => if decide (g = f) then n else field_size rest f end.
Fixpoint offset_of (fields : struct_layout F) (f : F) : nat :=
  match fields with [] => 0%nat | (g, n) :: rest => if decide (g = f) then 0%nat else (n + offset_of rest f)%nat end.
Definition words_of_field (fields : struct_layout F) (f : F) (image : list Z) : list Z :=
  take (field_size fields f) (drop (offset_of fields f) image).
(** [core::slice::from_ptr_range] from one field to another *)
Definition words_between (fields : struct_layout F) (first last : F) (image : list Z) : list Z :=
  take (offset_of fields last - offset_of fields first) (drop (offset_of fields first) image).
End Struct.

(** An array of [n] elements of [size] words each *)
Fixpoint array_of_words (n size : nat) (words : list Z) : list (list Z) :=
  match n with O => [] | S n' => take size words :: array_of_words n' size (drop size words) end.

(** [[MerkleTreeCap<N>; M]] *)
Definition caps_of_words (N M : nat) (words : list Z) : list MerkleTreeCap :=
  map (fun cap_words => {| cap := array_of_words N 8 cap_words |}) (array_of_words M (8 * N) words).

(** ** Reading *)

Section Reading.
Context {H : Type}.

(** [I::read_reduced_field_element(modulus)] *)
Definition read_reduced_field_element (modulus : Z) : vprog H Z :=
  let! w := read_word in ret (w mod modulus).

(** [dst.add(i).write(value)]: outside of the structure this is undefined. *)
Definition write_word (dst : list Z) (i : nat) (value : Z) : vprog H (list Z) :=
  if (i <? length dst)%nat then ret (<[i := value]> dst) else panic UB.

(** [while i < end { dst.add(i).write(read()); i += 1 }], [n] iterations *)
Fixpoint write_loop (read : vprog H Z) (n i : nat) (dst : list Z) : vprog H (nat * list Z) :=
  match n with
  | O => ret (i, dst)
  | S n' => let! w := read in let! dst := write_word dst i w in write_loop read n' (S i) dst
  end.
Definition write_until (read : vprog H Z) (bound : nat) (s : nat * list Z) : vprog H (nat * list Z) :=
  let '(i, dst) := s in write_loop read (bound - i) i dst.

Definition read_field : vprog H Z := read_reduced_field_element ORDER.
End Reading.

(** ** The skeleton of a proof *)
Module Skeleton.

Inductive field : Type :=
| padding | circuit_sequence_idx | delegation_type | public_inputs | setup_caps | memory_argument_challenges
| delegation_argument_challenges | aux_boundary_values | witness_caps | memory_caps | stage_2_caps
| memory_grand_product_accumulator | delegation_argument_accumulator | quotient_caps | openings_at_z
| openings_at_z_omega | fri_intermediate_oracles | fri_final_step_leafs | monomial_coeffs | pow_nonce.
#[global] Instance field_eq_dec : EqDecision field.
Proof. solve_decision. Defined.

Section Skeleton.
Context (L : CompiledLayout) (P : Parameters).

Definition cap_set_size : nat := 8 * Size.TREE_CAP_SIZE P * Size.NUM_COSETS.
Definition memory_challenges_size : nat := 4 * (NUM_MEM_ARGUMENT_LINEARIZATION_CHALLENGES + 1).
Definition delegation_challenges_size : nat := 4 * (NUM_DELEGATION_ARGUMENT_LINEARIZATION_CHALLENGES + 1).
Definition boundary_values_size : nat := 6 * REGISTER_SIZE.

(** [ProofSkeletonInstance] *)
Definition fields : struct_layout field := [
  (padding, Size.SKELETON_PADDING L);
  (circuit_sequence_idx, 1);
  (delegation_type, 1);
  (public_inputs, Size.NUM_PUBLIC_INPUTS_FROM_STATE_ELEMENTS L);
  (setup_caps, cap_set_size);
  (memory_argument_challenges, memory_challenges_size);
  (delegation_argument_challenges, delegation_challenges_size * Size.NUM_DELEGATION_CHALLENGES L);
  (aux_boundary_values, boundary_values_size * Size.NUM_AUX_BOUNDARY_VALUES L);
  (witness_caps, cap_set_size);
  (memory_caps, cap_set_size);
  (stage_2_caps, cap_set_size);
  (memory_grand_product_accumulator, 4);
  (delegation_argument_accumulator, 4 * Size.NUM_DELEGATION_CHALLENGES L);
  (quotient_caps, cap_set_size);
  (openings_at_z, 4 * Size.NUM_OPENINGS_AT_Z L);
  (openings_at_z_omega, 4 * Size.NUM_OPENINGS_AT_Z_OMEGA L);
  (fri_intermediate_oracles, cap_set_size * Size.NUM_FRI_STEPS_WITH_ORACLES L P);
  (fri_final_step_leafs, 4 * Size.LAST_FRI_STEP_LEAFS_TOTAL_SIZE_PER_COSET L P * Size.NUM_COSETS);
  (monomial_coeffs, 4 * Size.FRI_FINAL_DEGREE P);
  (pow_nonce, 2)
]%nat.

Definition offset (f : field) : nat := offset_of fields f.

(** [BASE_CIRCUIT_PROOF_SKELETON_NO_PADDING_AND_GAPS_START_U32_WORDS] and
    [BASE_CIRCUIT_PROOF_SKELETON_NO_PADDING_AND_GAPS_U32_WORDS] *)
Definition START_U32_WORDS : nat := offset circuit_sequence_idx.
Definition TOTAL_U32_WORDS : nat := size_of fields.

Section Values.
Context (image : list Z).
Notation words f := (words_of_field fields f image).

Definition get_circuit_sequence_idx : Z := get (words circuit_sequence_idx) 0.
Definition get_delegation_type : Z := get (words delegation_type) 0.
Definition get_public_inputs : list Mersenne31Field := words public_inputs.
Definition get_caps (f : field) : list MerkleTreeCap := caps_of_words (Size.TREE_CAP_SIZE P) Size.NUM_COSETS (words f).
Definition get_elements (f : field) : list Mersenne31Quartic := ext4_chunks (words f).

Definition memory_challenges_of_words (ws : list Z) : ExternalMemoryArgumentChallenges :=
  let els := ext4_chunks ws in
  {| memory_argument_linearization_challenges := take NUM_MEM_ARGUMENT_LINEARIZATION_CHALLENGES els;
     memory_argument_gamma := nth NUM_MEM_ARGUMENT_LINEARIZATION_CHALLENGES els ZERO |}.
Definition delegation_challenges_of_words (ws : list Z) : ExternalDelegationArgumentChallenges :=
  let els := ext4_chunks ws in
  {| delegation_argument_linearization_challenges := take NUM_DELEGATION_ARGUMENT_LINEARIZATION_CHALLENGES els;
     delegation_argument_gamma := nth NUM_DELEGATION_ARGUMENT_LINEARIZATION_CHALLENGES els ZERO |}.
Definition boundary_values_of_words (ws : list Z) : AuxArgumentsBoundaryValues :=
  let limbs i := take REGISTER_SIZE (drop (i * REGISTER_SIZE) ws) in
  {| lazy_init_first_row := limbs 0%nat; teardown_value_first_row := limbs 1%nat;
     teardown_timestamp_first_row := limbs 2%nat; lazy_init_one_before_last_row := limbs 3%nat;
     teardown_value_one_before_last_row := limbs 4%nat; teardown_timestamp_one_before_last_row := limbs 5%nat |}.

Definition get_memory_argument_challenges : ExternalMemoryArgumentChallenges :=
  memory_challenges_of_words (words memory_argument_challenges).
Definition get_delegation_argument_challenges : list ExternalDelegationArgumentChallenges :=
  map delegation_challenges_of_words
    (array_of_words (Size.NUM_DELEGATION_CHALLENGES L) delegation_challenges_size (words delegation_argument_challenges)).
Definition get_aux_boundary_values : list AuxArgumentsBoundaryValues :=
  map boundary_values_of_words
    (array_of_words (Size.NUM_AUX_BOUNDARY_VALUES L) boundary_values_size (words aux_boundary_values)).
Definition get_memory_grand_product_accumulator : Mersenne31Quartic :=
  nth 0 (get_elements memory_grand_product_accumulator) ZERO.
Definition get_fri_intermediate_oracles : list (list MerkleTreeCap) :=
  map (caps_of_words (Size.TREE_CAP_SIZE P) Size.NUM_COSETS)
    (array_of_words (Size.NUM_FRI_STEPS_WITH_ORACLES L P) cap_set_size (words fri_intermediate_oracles)).
Definition get_fri_final_step_leafs : list (list Mersenne31Quartic) :=
  map ext4_chunks
    (array_of_words Size.NUM_COSETS (4 * Size.LAST_FRI_STEP_LEAFS_TOTAL_SIZE_PER_COSET L P) (words fri_final_step_leafs)).
(** A little-endian [u64] *)
Definition get_pow_nonce : Z := get (words pow_nonce) 0 + 2 ^ 32 * get (words pow_nonce) 1.

(** *** What the transcript absorbs *)
Definition transcript_elements_before_stage2 : list Z := words_between fields circuit_sequence_idx stage_2_caps image.
Definition transcript_elements_stage2_to_stage3 : list Z := words_between fields stage_2_caps quotient_caps image.
Definition transcript_elements_stage3_to_stage4 : list Z := words_between fields quotient_caps openings_at_z image.
Definition transcript_elements_evaluations_at_z : list Z := words_between fields openings_at_z fri_intermediate_oracles image.
Definition transcript_elements_fri_intermediate_oracles : list (list Z) :=
  map (fun i => take cap_set_size (drop (offset fri_intermediate_oracles + i * cap_set_size) image))
      (seq 0 (Size.NUM_FRI_STEPS_WITH_ORACLES L P)).
Definition transcript_elements_last_fri_step_leaf_values : list Z := words fri_final_step_leafs.
Definition transcript_elements_monomial_coefficients : list Z := words monomial_coeffs.
End Values.

(** *** Filling it *)
Section Fill.
Context {H : Type}.

Definition fill (this : list Z) : vprog H (list Z) :=
  let! s := write_until read_word (offset public_inputs) (START_U32_WORDS, this) in
  let! s := write_until read_field (offset setup_caps) s in
  let! s := write_until read_word (offset memory_argument_challenges) s in
  let! s := write_until read_field (offset witness_caps) s in
  let! s := write_until read_word (offset memory_grand_product_accumulator) s in
  let! s := write_until read_field (offset quotient_caps) s in
  let! s := write_until read_word (offset openings_at_z) s in
  let! s := write_until read_field (offset fri_intermediate_oracles) s in
  let! s := write_until read_word (offset monomial_coeffs) s in
  let! s := write_until read_field (offset pow_nonce) s in
  let! (_, this) := write_until read_word TOTAL_U32_WORDS s in
  assert_or_panic (Z.land (get_circuit_sequence_idx this) 0xffff0000 =? 0) "circuit_sequence_idx & 0xffff0000 == 0" ;;!
  assert_or_panic (Z.land (get_delegation_type this) 0xffff0000 =? 0) "delegation_type & 0xffff0000 == 0" ;;!
  ret this.
End Fill.
End Skeleton.
End Skeleton.

(** ** The values of a query *)

(** The trait [LeafInclusionVerifier], over the state of the verifier;
    [V::new] writes an uninitialised one. *)
Record LeafInclusionVerifier (H : Type) : Type := {
  lv_new : H -> H;
  lv_verify_leaf_inclusion : Z -> Z -> nat -> list Z -> list (list Digest) -> vprog H bool;
}.
Arguments lv_new {H} _ _.
Arguments lv_verify_leaf_inclusion {H} _ _ _ _ _ _.

Definition Blake2sForEverythingVerifier (H : Type) `{Blake2sHasher H} : LeafInclusionVerifier H :=
  {| lv_new := h_new; lv_verify_leaf_inclusion := verify_leaf_inclusion |}.
Definition Blake2sForEverythingVerifierWithAlternativeCompression (H : Type) `{NodeHasher H} : LeafInclusionVerifier H :=
  {| lv_new := h_new; lv_verify_leaf_inclusion := Alternative.verify_leaf_inclusion |}.

Module Query.

Inductive field : Type :=
| query_index | setup_leaf | witness_leaf | memory_leaf | stage_2_leaf | quotient_leaf | fri_oracles_leafs.
#[global] Instance field_eq_dec : EqDecision field.
Proof. solve_decision. Defined.

Section Query.
Context (L : CompiledLayout) (P : Parameters).

(** [QueryValuesInstance] *)
Definition fields : struct_layout field := [
  (query_index, 1%nat);
  (setup_leaf, Size.LEAF_SIZE_SETUP L);
  (witness_leaf, Size.LEAF_SIZE_WITNESS_TREE L);
  (memory_leaf, Size.LEAF_SIZE_MEMORY_TREE L);
  (stage_2_leaf, Size.LEAF_SIZE_STAGE_2 L);
  (quotient_leaf, Size.LEAF_SIZE_QUOTIENT);
  (fri_oracles_leafs, Size.TOTAL_FRI_LEAFS_SIZES L P)
].
(** [BASE_CIRCUIT_QUERY_VALUES_NO_PADDING_U32_WORDS] *)
Definition TOTAL_U32_WORDS : nat := size_of fields.

Definition get_query_index (image : list Z) : Z := get (words_of_field fields query_index image) 0.
Definition leaf (f : field) (image : list Z) : list Mersenne31Field := words_of_field fields f image.
Definition row (image : list Z) : QueryRow := {|
  Deep.setup_leaf := leaf setup_leaf image; Deep.witness_leaf := leaf witness_leaf image;
  Deep.memory_leaf := leaf memory_leaf image; Deep.stage_2_leaf := leaf stage_2_leaf image;
  Deep.quotient_leaf := leaf quotient_leaf image;
|}.

Section Fill.
Context {H : Type} (V : LeafInclusionVerifier H).

Definition assert_included (coset_index tree_index : Z) (depth : nat) (leaf : list Z) (caps : list MerkleTreeCap) : vprog H unit :=
  let! included := lv_verify_leaf_inclusion V coset_index tree_index depth leaf (map cap caps) in
  assert_or_panic included "included".

(** [for fri_step in 0..NUM_FRI_STEPS_WITH_ORACLES]; [leafs] are the words from
    [fri_leaf_start] on *)
Fixpoint fri_inclusions (coset_index : Z) (schedule : list nat) (oracles : list (list MerkleTreeCap))
    (fri_tree_index : Z) (fri_path_length : nat) (leafs : list Z) : vprog H unit :=
  match schedule, oracles with
  | n :: schedule', caps :: oracles' =>
      let fri_tree_index := Z.shiftr fri_tree_index (Z.of_nat n) in
      let fri_path_length := (fri_path_length - n)%nat in
      let leaf_size := (4 * 2 ^ n)%nat in
      assert_included coset_index fri_tree_index fri_path_length (take leaf_size leafs) caps ;;!
      fri_inclusions coset_index schedule' oracles' fri_tree_index fri_path_length (drop leaf_size leafs)
  | _, _ => ret tt
  end.

Definition fill (skeleton this : list Z) : vprog H (list Z) :=
  let! index := read_word in
  assert_or_panic (index <? Z.shiftl 1 (Z.of_nat (Size.BITS_FOR_QUERY_INDEX L))) "query index must be smaller" ;;!
  let! this := write_word this 0 index in
  let! (_, this) := write_until read_field TOTAL_U32_WORDS (1%nat, this) in
  let tree_index := Z.land index (Size.TREE_INDEX_MASK L) in
  let coset_index := Z.shiftr index (Z.of_nat (Size.TRACE_LEN_LOG2 L)) in
  let depth := Size.DEFAULT_MERKLE_PATH_LENGTH L P in
  let check f caps := assert_included coset_index tree_index depth (leaf f this) (Skeleton.get_caps L P skeleton caps) in
  check setup_leaf Skeleton.setup_caps ;;!
  check witness_leaf Skeleton.witness_caps ;;!
  check memory_leaf Skeleton.memory_caps ;;!
  check stage_2_leaf Skeleton.stage_2_caps ;;!
  check quotient_leaf Skeleton.quotient_caps ;;!
  fri_inclusions coset_index (Size.FRI_FOLDING_SCHEDULE P) (Skeleton.get_fri_intermediate_oracles L P skeleton)
    tree_index depth (leaf fri_oracles_leafs this) ;;!
  ret this.

(** [while i < N { Self::fill(dst.add(i), ...); i += 1 }] *)
Fixpoint fill_array (skeleton : list Z) (dst : list (list Z)) : vprog H (list (list Z)) :=
  match dst with
  | [] => ret []
  | this :: rest =>
      let! this := fill skeleton this in
      let! rest := fill_array skeleton rest in
      ret (this :: rest)
  end.
End Fill.
End Query.
End Query.

(** ** Structures: fields and what is written to them *)

Definition norm (reduced : bool) (w : Z) : Z := if reduced then w mod ORDER else w.
Definition reader {H} (reduced : bool) : vprog H Z := if reduced then read_field else read_word.

Section StructLemmas.
Context {F : Type} `{EqDecision F}.
Implicit Types (fields : struct_layout F).

(** Each field's words, reduced or not, from consecutive words. *)
Fixpoint struct_words (reduced : F -> bool) fields (ws : list Z) : list Z :=
  match fields with
  | [] => []
  | (f, n) :: rest => map (norm (reduced f)) (take n ws) ++ struct_words reduced rest (drop n ws)
  end.

Lemma size_of_app (l1 l2 : struct_layout F) : size_of (l1 ++ l2) = (size_of l1 + size_of l2)%nat.
Proof. induction l1 as [|[f n] l IH]; cbn [size_of app]; [reflexivity | rewrite IH; lia]. Qed.

Lemma length_struct_words reduced fields : forall ws, (size_of fields <= length ws)%nat ->
  length (struct_words reduced fields ws) = size_of fields.
Proof.
  induction fields as [|[f n] rest IH]; intros ws Hs; [reflexivity|]. change (size_of ((f, n) :: rest)) with (n + size_of rest)%nat in *.
  cbn [struct_words]. rewrite length_app, length_map, length_take, IH by (rewrite length_drop; lia). lia.
Qed.

Lemma struct_words_app reduced (l1 : struct_layout F) : forall (l2 : struct_layout F) ws,
  struct_words reduced (l1 ++ l2) ws = struct_words reduced l1 ws ++ struct_words reduced l2 (drop (size_of l1) ws).
Proof.
  induction l1 as [|[f n] rest IH]; intros l2 ws; [reflexivity|]. cbn [struct_words app].
  change (size_of ((f, n) :: rest)) with (n + size_of rest)%nat. rewrite IH, <- app_assoc, drop_drop. reflexivity.
Qed.

(** Fields of one kind are read as one run. *)
Lemma struct_words_uniform reduced b fields : Forall (fun fn => reduced (fst fn) = b) fields -> forall ws,
  struct_words reduced fields ws = map (norm b) (take (size_of fields) ws).
Proof.
  induction 1 as [|[f n] rest Hf Hrest IH]; intros ws; [reflexivity|]. cbn [struct_words fst] in *. rewrite IH, Hf, <- map_app.
  change (size_of ((f, n) :: rest)) with (n + size_of rest)%nat. rewrite take_take_drop. reflexivity.
Qed.

Lemma words_of_field_app pre fields tail f : (size_of fields <= length pre)%nat -> f ∈ map fst fields ->
  words_of_field fields f (pre ++ tail) = words_of_field fields f pre.
Proof.
  intros Hp Hf. unfold words_of_field. enough (offset_of fields f + field_size fields f <= size_of fields)%nat.
  { rewrite drop_app_le, take_app_le by (rewrite ?length_drop; lia). reflexivity. }
  clear Hp. induction fields as [|[g n] rest IH]; [inversion Hf|]. change (size_of ((g, n) :: rest)) with (n + size_of rest)%nat.
  cbn [offset_of field_size]. destruct (decide (g = f)); [lia|].
  cbn [map fst] in Hf. apply elem_of_cons in Hf as [->|Hf]; [congruence|]. specialize (IH Hf). lia.
Qed.

(** A field holds the words read at its place. *)
Lemma words_of_struct reduced fields : forall ws f, (size_of fields <= length ws)%nat ->
  words_of_field fields f (struct_words reduced fields ws) =
    map (norm (reduced f)) (take (field_size fields f) (drop (offset_of fields f) ws)).
Proof.
  induction fields as [|[g n] rest IH]; intros ws f Hs; [destruct ws; reflexivity|]. unfold words_of_field in *.
  change (size_of ((g, n) :: rest)) with (n + size_of rest)%nat in Hs. cbn [field_size offset_of struct_words].
  destruct (decide (g = f)) as [->|Hne].
  - rewrite !drop_0, take_app_le by (rewrite length_map, length_take; lia).
    rewrite take_ge by (rewrite length_map, length_take; lia). reflexivity.
  - rewrite <- drop_drop, drop_app_length' by (rewrite length_map, length_take; lia).
    rewrite IH, drop_drop by (rewrite length_drop; lia). reflexivity.
Qed.
End StructLemmas.

Section WriteLemmas.
Context {H : Type}.
Notation V := (Verifier H).

Lemma reader_ok b (s : V) : reader b s =
  match oracle s with
  | [] => Panic "next word from thread local source"
  | w :: rest => Ok (norm b w) {| hasher := hasher s; oracle := rest |}
  end.
Proof. destruct s as [h [|w rest]], b; reflexivity. Qed.

Lemma write_loop_ok b n : forall pre junk (s : V), (n <= length junk)%nat ->
  write_loop (reader b) n (length pre) (pre ++ junk) s =
    if (n <=? length (oracle s))%nat
    then let done := pre ++ map (norm b) (take n (oracle s)) in
         Ok (length done, done ++ drop n junk) {| hasher := hasher s; oracle := drop n (oracle s) |}
    else Panic "next word from thread local source".
Proof.
  induction n as [|n IH]; intros pre junk s Hn.
  { cbn [write_loop]. rewrite app_nil_r, !drop_0. destruct s; reflexivity. }
  cbn [write_loop]. unfold bind at 1. rewrite reader_ok. destruct (oracle s) as [|w o] eqn:Eo; [reflexivity|].
  destruct junk as [|x junk]; [cbn in Hn; lia|]. unfold write_word.
  replace (length pre <? length (pre ++ x :: junk))%nat with true by (symmetry; apply Nat.ltb_lt; rewrite length_app; cbn; lia).
  rewrite bind_ret_l, insert_app_r_alt, Nat.sub_diag by lia. cbn [insert list_insert].
  replace (pre ++ norm b w :: junk) with ((pre ++ [norm b w]) ++ junk) by (rewrite <- app_assoc; reflexivity).
  replace (S (length pre)) with (length (pre ++ [norm b w])) by (rewrite length_app; cbn; lia).
  rewrite IH by (cbn in Hn; lia). cbn [oracle hasher length take drop map].
  change (S n <=? S (length o))%nat with (n <=? length o)%nat. rewrite <- !app_assoc. reflexivity.
Qed.

(** Successive loops, each with its own reads: from [length pre] on, up to each
    bound in turn. *)
Fixpoint run_segments (segments : list (bool * nat)) (s : nat * list Z) : vprog H (nat * list Z) :=
  match segments with
  | [] => ret s
  | (b, bound) :: rest => let! s := write_until (reader b) bound s in run_segments rest s
  end.
Fixpoint with_bounds (i : nat) (segments : list (bool * nat)) : list (bool * nat) :=
  match segments with [] => [] | (b, n) :: rest => (b, (i + n)%nat) :: with_bounds (i + n) rest end.

Lemma run_segments_ok segments : forall pre junk (s : V), (size_of segments <= length junk)%nat ->
  run_segments (with_bounds (length pre) segments) (length pre, pre ++ junk) s =
    if (size_of segments <=? length (oracle s))%nat
    then let done := pre ++ struct_words id segments (oracle s) in
         Ok (length done, done ++ drop (size_of segments) junk)
            {| hasher := hasher s; oracle := drop (size_of segments) (oracle s) |}
    else Panic "next word from thread local source".
Proof.
  induction segments as [|[b n] rest IH]; intros pre junk s Hn.
  { cbn [with_bounds run_segments struct_words]. rewrite app_nil_r. change (size_of (@nil (bool * nat))) with 0%nat.
    rewrite !drop_0. destruct s; reflexivity. }
  change (size_of ((b, n) :: rest)) with (n + size_of rest)%nat in *.
  cbn [with_bounds run_segments struct_words]. unfold bind at 1, write_until.
  replace (length pre + n - length pre)%nat with n by lia. rewrite write_loop_ok by lia.
  destruct (Nat.leb_spec n (length (oracle s))) as [Ho|Ho].
  2:{ destruct (Nat.leb_spec (n + size_of rest) (length (oracle s))); [lia | reflexivity]. }
  cbv zeta. set (done := pre ++ map (norm b) (take n (oracle s))).
  replace (length pre + n)%nat with (length done) by (unfold done; rewrite length_app, length_map, length_take; lia).
  rewrite IH by (rewrite length_drop; lia). cbn [oracle hasher]. rewrite length_drop.
  destruct (Nat.leb_spec (size_of rest) (length (oracle s) - n)), (Nat.leb_spec (n + size_of rest) (length (oracle s)));
    try lia; [|reflexivity].
  unfold done. rewrite !drop_drop, <- !app_assoc. reflexivity.
Qed.
End WriteLemmas.

(** ** The skeleton that is read *)
Module SkeletonSpec.
Import Skeleton.

(** The fields read as field elements; [fri_final_step_leafs] is not one of them. *)
Definition reduced (f : field) : bool :=
  match f with
  | public_inputs | memory_argument_challenges | delegation_argument_challenges | aux_boundary_values
  | memory_grand_product_accumulator | delegation_argument_accumulator | openings_at_z | openings_at_z_omega
  | monomial_coeffs => true
  | _ => false
  end.

(** Facts about offsets hold for any sizes. *)
Ltac any_sizes L P :=
  unfold TOTAL_U32_WORDS, START_U32_WORDS, offset, Skeleton.fields;
  generalize (Size.SKELETON_PADDING L), (Size.NUM_PUBLIC_INPUTS_FROM_STATE_ELEMENTS L), (cap_set_size P), memory_challenges_size,
    (delegation_challenges_size * Size.NUM_DELEGATION_CHALLENGES L)%nat,
    (boundary_values_size * Size.NUM_AUX_BOUNDARY_VALUES L)%nat, (4 * Size.NUM_DELEGATION_CHALLENGES L)%nat,
    (4 * Size.NUM_OPENINGS_AT_Z L)%nat, (4 * Size.NUM_OPENINGS_AT_Z_OMEGA L)%nat, (Size.NUM_FRI_STEPS_WITH_ORACLES L P),
    (4 * Size.LAST_FRI_STEP_LEAFS_TOTAL_SIZE_PER_COSET L P * Size.NUM_COSETS)%nat, (4 * Size.FRI_FINAL_DEGREE P)%nat;
  intros.

Ltac compute_fields := cbv -[Nat.add Nat.mul map norm take drop app].

Section Spec.
Context (L : CompiledLayout) (P : Parameters).
Notation fields := (fields L P).

(** The fields after the padding, and how many words they take. *)
Definition read_fields : struct_layout field := tl fields.
Definition read_size : nat := size_of read_fields.

Definition image_of (this ws : list Z) : list Z :=
  take (START_U32_WORDS L P) this ++ struct_words reduced read_fields ws ++ drop (TOTAL_U32_WORDS L P) this.

Definition short (image : list Z) : bool :=
  (Z.land (get_circuit_sequence_idx L P image) 0xffff0000 =? 0) && (Z.land (get_delegation_type L P image) 0xffff0000 =? 0).

(** The image and the words that are left, or [None] when the source ends or a
    number does not fit into 16 bits. *)
Definition skeleton_of (this ws : list Z) : option (list Z * list Z) :=
  if (read_size <=? length ws)%nat && short (image_of this ws) then Some (image_of this ws, drop read_size ws) else None.

(** The eleven loops of [fill]. *)
Definition segments : list (bool * nat) :=
  let size f := field_size fields f in
  [(false, size circuit_sequence_idx + size delegation_type); (true, size public_inputs); (false, size setup_caps);
   (true, size memory_argument_challenges + (size delegation_argument_challenges + size aux_boundary_values));
   (false, size witness_caps + (size memory_caps + size stage_2_caps));
   (true, size memory_grand_product_accumulator + size delegation_argument_accumulator); (false, size quotient_caps);
   (true, size openings_at_z + size openings_at_z_omega);
   (false, size fri_intermediate_oracles + size fri_final_step_leafs); (true, size monomial_coeffs);
   (false, size pow_nonce)]%nat.

Lemma total_words : TOTAL_U32_WORDS L P = (START_U32_WORDS L P + read_size)%nat.
Proof. unfold read_size, read_fields, segments. any_sizes L P. compute_fields. lia. Qed.

Lemma segments_size : size_of segments = read_size.
Proof. unfold read_size, read_fields, segments. any_sizes L P. compute_fields. lia. Qed.

Lemma segments_words ws : struct_words id segments ws = struct_words reduced read_fields ws.
Proof.
  unfold read_size, read_fields, segments. any_sizes L P. compute_fields.
  rewrite <- !take_take_drop, !map_app, <- !app_assoc, <- !drop_drop. reflexivity.
Qed.

Lemma segment_bounds : with_bounds (START_U32_WORDS L P) segments =
  let offset := offset L P in
  [(false, offset public_inputs); (true, offset setup_caps); (false, offset memory_argument_challenges);
   (true, offset witness_caps); (false, offset memory_grand_product_accumulator); (true, offset quotient_caps);
   (false, offset openings_at_z); (true, offset fri_intermediate_oracles); (false, offset monomial_coeffs);
   (true, offset pow_nonce); (false, TOTAL_U32_WORDS L P)].
Proof.
  cbv zeta. unfold read_size, read_fields, segments. any_sizes L P. compute_fields.
  repeat match goal with
  | |- (?b, ?x) :: ?l = (?b, ?y) :: ?l' => apply (f_equal2 cons); [apply f_equal; lia|]
  end. reflexivity.
Qed.

Lemma fill_segments {H} this (s : Verifier H) : fill L P this s =
  (let! (_, this) := run_segments (with_bounds (START_U32_WORDS L P) segments) (START_U32_WORDS L P, this) in
   assert_or_panic (Z.land (get_circuit_sequence_idx L P this) 0xffff0000 =? 0) "circuit_sequence_idx & 0xffff0000 == 0" ;;!
   assert_or_panic (Z.land (get_delegation_type L P this) 0xffff0000 =? 0) "delegation_type & 0xffff0000 == 0" ;;!
   ret this) s.
Proof.
  rewrite segment_bounds. cbv zeta. cbn [run_segments reader]. unfold fill.
  repeat (rewrite bind_assoc; apply bind_ext; intros ? ?). rewrite bind_ret_l. reflexivity.
Qed.

(** [fill] reads exactly the skeleton. *)
Lemma fill_ok {H} this (s : Verifier H) : (TOTAL_U32_WORDS L P <= length this)%nat ->
  match skeleton_of this (oracle s) with
  | Some (image, rest) => fill L P this s = Ok image {| hasher := hasher s; oracle := rest |}
  | None => exists msg, fill L P this s = Panic msg
  end.
Proof.
  intros Ht. unfold skeleton_of. pose proof total_words as Et.
  pose proof (run_segments_ok segments (take (START_U32_WORDS L P) this) (drop (START_U32_WORDS L P) this) s) as E.
  rewrite take_drop, length_take, Nat.min_l, segments_size, segments_words, length_drop in E by lia. specialize (E ltac:(lia)).
  destruct (read_size <=? length (oracle s))%nat; cbn [andb].
  2:{ eexists. rewrite fill_segments. unfold bind at 1. rewrite E. reflexivity. }
  cbv zeta in E. rewrite drop_drop, <- Et, <- app_assoc in E. fold (image_of this (oracle s)) in E. unfold short.
  destruct (Z.land (get_circuit_sequence_idx _ _ _) _ =? 0) eqn:E1; cbn [andb].
  2:{ eexists. rewrite fill_segments, (bind_step _ _ _ _ _ E), E1. reflexivity. }
  destruct (Z.land (get_delegation_type _ _ _) _ =? 0) eqn:E2; [|eexists];
    rewrite fill_segments, (bind_step _ _ _ _ _ E), E1, E2; reflexivity.
Qed.

(** A field of the skeleton holds the words at its place in the source. *)
Lemma field_words this ws f : f <> padding -> (read_size <= length ws)%nat -> (START_U32_WORDS L P <= length this)%nat ->
  words_of_field fields f (image_of this ws) =
    map (norm (reduced f)) (take (field_size fields f) (drop (offset L P f - START_U32_WORDS L P) ws)).
Proof.
  intros Hf Hws Ht. unfold image_of. set (body := struct_words _ _ _).
  assert (Eo : offset_of fields f = (START_U32_WORDS L P + offset_of read_fields f)%nat)
    by (destruct f; try congruence; unfold read_size, read_fields, segments; any_sizes L P; compute_fields; lia).
  assert (Es : field_size fields f = field_size read_fields f) by (destruct f; try congruence; reflexivity).
  assert (Hin : f ∈ map fst read_fields)
    by (destruct f; try congruence; unfold read_fields, Skeleton.fields; cbn [map fst tl]; set_solver).
  transitivity (words_of_field read_fields f (body ++ drop (TOTAL_U32_WORDS L P) this)).
  { unfold words_of_field. rewrite Eo, Es, <- drop_drop, drop_app_length' by (rewrite length_take; lia). reflexivity. }
  rewrite words_of_field_app by (unfold body; rewrite ?length_struct_words by exact Hws; auto).
  unfold body. rewrite words_of_struct by exact Hws. unfold offset. rewrite Eo, Es. do 3 f_equal. lia.
Qed.
End Spec.
End SkeletonSpec.

(** ** Programs that parse

    What a program reads from the source is described by a parser: a value and
    the words that are left, or [None] where the program panics. *)
Definition parser (A : Type) : Type := list Z -> option (A * list Z).
Definition pret {A} (a : A) : parser A := fun ws => Some (a, ws).
Definition pbind {A B} (p : parser A) (k : A -> parser B) : parser B := fun ws => '(a, rest) ← p ws; k a rest.
Definition pguard (b : bool) : parser unit := if b then pret tt else fun _ => None.
Definition pword : parser Z := fun ws => match ws with [] => None | w :: rest => Some (w, rest) end.
Definition ptake (n : nat) : parser (list Z) :=
  fun ws => if (n <=? length ws)%nat then Some (take n ws, drop n ws) else None.

(** A parser takes words from the front. *)
Definition prefix_parser {A} (p : parser A) : Prop := forall ws a rest, p ws = Some (a, rest) -> exists used, ws = used ++ rest.

Lemma prefix_pret {A} (a : A) : prefix_parser (pret a).
Proof. intros ws b rest E. injection E as <- <-. exists []. reflexivity. Qed.
Lemma prefix_pbind {A B} (p : parser A) (k : A -> parser B) :
  prefix_parser p -> (forall a, prefix_parser (k a)) -> prefix_parser (pbind p k).
Proof.
  intros Hp Hk ws b rest E. unfold pbind in E. destruct (p ws) as [[a r]|] eqn:Ep; cbn [mbind option_bind] in E; [|discriminate].
  destruct (Hp _ _ _ Ep) as [u1 ->], (Hk _ _ _ _ E) as [u2 ->]. exists (u1 ++ u2). apply app_assoc.
Qed.
Lemma prefix_pguard b : prefix_parser (pguard b).
Proof. destruct b; [apply prefix_pret | intros ws a rest E; discriminate]. Qed.
Lemma prefix_pword : prefix_parser pword.
Proof. intros [|w ws] a rest E; [discriminate|]. injection E as <- <-. exists [w]. reflexivity. Qed.
Lemma prefix_ptake n : prefix_parser (ptake n).
Proof.
  intros ws a rest E. unfold ptake in E. destruct (n <=? length ws)%nat; [|discriminate]. injection E as <- <-.
  exists (take n ws). symmetry. apply take_drop.
Qed.

Section Follows.
Context {H : Type} `{LawfulHasher H}.

Definition follows {A} (m : vprog H A) (p : parser A) : Prop := forall s, h_wf (hasher s) ->
  match p (oracle s) with
  | Some (a, rest) => exists h', m s = Ok a {| hasher := h'; oracle := rest |} /\ h_wf h'
  | None => exists msg, m s = Panic msg
  end.

Lemma follows_ret {A} (a : A) : follows (ret a) (pret a).
Proof. intros [h o] Hw. exists h. auto. Qed.

Lemma follows_bind {A B} (m : vprog H A) (k : A -> vprog H B) p q :
  follows m p -> (forall a, follows (k a) (q a)) -> follows (bind m k) (pbind p q).
Proof.
  intros Hm Hk s Hw. specialize (Hm s Hw). unfold pbind. destruct (p (oracle s)) as [[a rest]|]; cbn [mbind option_bind].
  - destruct Hm as (h' & E & Hw'). specialize (Hk a {| hasher := h'; oracle := rest |} Hw'). cbn [oracle] in Hk.
    destruct (q a rest) as [[b rest']|].
    + destruct Hk as (h2 & E2 & Hw2). exists h2. rewrite (bind_step _ _ _ _ _ E). auto.
    + destruct Hk as [msg E2]. exists msg. rewrite (bind_step _ _ _ _ _ E). auto.
  - destruct Hm as [msg E]. exists msg. unfold bind. rewrite E. reflexivity.
Qed.

Lemma follows_assert b msg : follows (assert_or_panic b msg) (pguard b).
Proof. intros [h o] Hw. destruct b; [exists h; auto | exists msg; reflexivity]. Qed.

Lemma follows_read_word : follows read_word pword.
Proof. intros [h [|w o]] Hw; [eexists; reflexivity | exists h; auto]. Qed.

Lemma follows_same {A} (m : vprog H A) p q : follows m p -> (forall ws, p ws = q ws) -> follows m q.
Proof. intros Hm E s Hw. rewrite <- E. apply Hm, Hw. Qed.

Lemma follows_ret_bind {A B} (a : A) (k : A -> vprog H B) p : follows (k a) p -> follows (bind (ret a) k) p.
Proof. intros Hk s Hw. apply Hk, Hw. Qed.

(** One loop and what is done with the structure it fills *)
Lemma follows_write_then {B} b bound pre junk (k : list Z -> vprog H B) q : (length pre <= bound)%nat ->
  (bound <= length pre + length junk)%nat ->
  (forall ws, length ws = (bound - length pre)%nat ->
     follows (k (pre ++ map (norm b) ws ++ drop (bound - length pre) junk)) (q ws)) ->
  follows (bind (write_until (reader b) bound (length pre, pre ++ junk)) (fun '(_, this) => k this))
          (pbind (ptake (bound - length pre)) q).
Proof.
  intros Hp Hb Hk s Hw. unfold bind, write_until. rewrite write_loop_ok by lia. unfold pbind, ptake.
  destruct (Nat.leb_spec (bound - length pre) (length (oracle s))) as [Hl|]; cbn [mbind option_bind]; [|eauto].
  rewrite <- app_assoc.
  exact (Hk (take (bound - length pre) (oracle s)) ltac:(rewrite length_take; lia)
            {| hasher := hasher s; oracle := drop (bound - length pre) (oracle s) |} Hw).
Qed.

(** *** Verifiers of leafs *)

Definition popened (coset_index index : Z) (depth : nat) (leaf : list Z) (caps : list MerkleTreeCap) : parser unit :=
  pbind (verdict coset_index index depth leaf (map cap caps)) pguard.

Record lawful_verifier (V : LeafInclusionVerifier H) : Prop := {
  lv_new_ok : forall h, h_wf h -> h_wf (lv_new V h);
  lv_verify_ok : forall coset_index index depth leaf caps (s : Verifier H), h_wf (hasher s) ->
    4 * Z.of_nat (length leaf) < 2 ^ 32 -> Forall (Forall is_digest) caps ->
    observed (lv_verify_leaf_inclusion V coset_index index depth leaf caps s) =
      verdict coset_index index depth leaf caps (oracle s);
  lv_keeps_wf : forall coset_index index depth leaf caps (s s' : Verifier H) b, h_wf (hasher s) ->
    4 * Z.of_nat (length leaf) < 2 ^ 32 -> Forall (Forall is_digest) caps ->
    lv_verify_leaf_inclusion V coset_index index depth leaf caps s = Ok b s' -> h_wf (hasher s');
}.

Lemma follows_included V coset_index index depth leaf caps : lawful_verifier V ->
  4 * Z.of_nat (length leaf) < 2 ^ 32 -> Forall (Forall is_digest) (map cap caps) ->
  follows (Query.assert_included V coset_index index depth leaf caps) (popened coset_index index depth leaf caps).
Proof.
  intros HV Hl Hc. unfold Query.assert_included, popened. apply follows_bind; [|intros b; apply follows_assert].
  intros s Hw. pose proof (lv_verify_ok V HV coset_index index depth leaf _ s Hw Hl Hc) as Ev.
  pose proof (lv_keeps_wf V HV coset_index index depth leaf (map cap caps) s) as Hk.
  destruct (lv_verify_leaf_inclusion _ _ _ _ _ _ _) as [b [h' o]|[]|msg]; cbn [observed oracle] in Ev; rewrite <- Ev.
  - exists h'. split; [reflexivity|]. exact (Hk _ _ Hw Hl Hc eq_refl).
  - eauto.
Qed.
End Follows.

Lemma compare_keeps {H} `{LawfulHasher H} coset_index index merkle_cap (s s' : Verifier H) b :
  (let! output_hash := gets (fun s => h_state (hasher s)) in
   let! cap := get_cap_unchecked merkle_cap coset_index index in
   ret (digests_equal output_hash cap)) s = Ok b s' -> s' = s.
Proof.
  unfold bind at 1, gets. unfold bind, get_cap_unchecked.
  destruct (merkle_cap !! _) as [cap|]; [|discriminate]. destruct (cap !! _) as [d|]; [|discriminate].
  unfold ret. intros E. injection E as _ ->. reflexivity.
Qed.

(** Hashing the leaf, the path and the comparison keep the hasher well-formed. *)
Lemma verification_keeps_wf {H} `{LawfulHasher H} (hash_leaf : list Z -> vprog H unit) step coset_index leaf_index depth
    leaf merkle_cap (s s' : Verifier H) b : step_up step ->
  (forall s1, hash_leaf leaf s = Ok tt s1 -> h_wf (hasher s1)) ->
  (hash_leaf leaf ;;!
    (if (depth =? 0)%nat then
       let! output_hash := gets (fun s => h_state (hasher s)) in
       let! cap := get_cap_unchecked merkle_cap coset_index leaf_index in
       ret (digests_equal output_hash cap)
     else
       let! index := path_steps step depth leaf_index in
       let! output_hash := gets (fun s => h_state (hasher s)) in
       let! cap := get_cap_unchecked merkle_cap coset_index index in
       ret (digests_equal output_hash cap))) s = Ok b s' -> h_wf (hasher s').
Proof.
  intros Hstep Hleaf E. apply bind_ok in E as ([] & s1 & E1 & E). specialize (Hleaf _ E1).
  destruct (depth =? 0)%nat; [apply compare_keeps in E; subst; exact Hleaf|].
  pose proof (path_steps_ok step depth Hstep leaf_index s1 Hleaf) as Hp. apply bind_ok in E as (index & s2 & E2 & E).
  apply compare_keeps in E. subst s'. destruct (_ <=? _)%nat.
  - destruct Hp as (h' & E3 & Hw & _). rewrite E2 in E3. injection E3 as _ ->. exact Hw.
  - destruct Hp as [msg E3]. congruence.
Qed.

Lemma leaf_size_cases (leaf : list Z) : 4 * Z.of_nat (length leaf) < 2 ^ 32 ->
  verifiable leaf \/ length leaf = 0%nat \/ length leaf = 16%nat.
Proof.
  intros Hs. destruct (decide (length leaf = 0%nat)) as [|H0]; [auto|]. destruct (decide (length leaf = 16%nat)); [auto|].
  left. repeat split; auto. intros ->. auto.
Qed.

Lemma for_everything_lawful {H} `{LawfulHasher H} : lawful_verifier (Blake2sForEverythingVerifier H).
Proof.
  constructor.
  - intros h Hw. apply h_new_ok, Hw.
  - intros. apply verify_verdict; auto.
  - intros coset index depth leaf caps s s' b Hw Hl Hc E. revert E. apply verification_keeps_wf; [apply path_step_ok|].
    intros s1 E1. destruct (leaf_size_cases leaf Hl) as [Hv|Hv].
    + destruct (hash_leaf_encoding_ok leaf s Hw Hv) as (s2 & E2 & Hw2 & _). rewrite E1 in E2. injection E2 as ->. exact Hw2.
    + rewrite exact_block_panics in E1 by auto. discriminate.
Qed.

Lemma alternative_lawful {H} `{LawfulNodeHasher H} :
  lawful_verifier (Blake2sForEverythingVerifierWithAlternativeCompression H).
Proof.
  constructor.
  - intros h Hw. apply h_new_ok, Hw.
  - intros. apply alternative_verdict; auto.
  - intros coset index depth leaf caps s s' b Hw Hl Hc E. revert E. apply verification_keeps_wf; [apply alternative_step_ok|].
    intros s1 E1. destruct (leaf_size_cases leaf Hl) as [Hv|Hv].
    + destruct (alternative_leaf_ok leaf s Hw Hv) as (s2 & E2 & Hw2 & _). rewrite E1 in E2. injection E2 as ->. exact Hw2.
    + rewrite alternative_exact_block in E1 by auto. discriminate.
Qed.

(** ** Arrays of words *)

Lemma length_array_of_words n size : forall ws, length (array_of_words n size ws) = n.
Proof. induction n as [|n IH]; intros ws; cbn [array_of_words length]; [reflexivity | now rewrite IH]. Qed.

Lemma array_of_words_sizes n size : forall ws, (n * size <= length ws)%nat ->
  Forall (fun e => length e = size) (array_of_words n size ws).
Proof.
  induction n as [|n IH]; intros ws Hl; cbn [array_of_words]; constructor; [rewrite length_take; lia|].
  apply IH. rewrite length_drop. lia.
Qed.

Lemma Forall_array_of_words (Q : Z -> Prop) n size : forall ws, Forall Q ws -> Forall (Forall Q) (array_of_words n size ws).
Proof.
  induction n as [|n IH]; intros ws Hq; cbn [array_of_words]; constructor; [apply Forall_take | apply IH, Forall_drop]; exact Hq.
Qed.

(** Reading the concatenation of arrays gives them back. *)
Lemma array_of_concat size l tail : Forall (fun e => length e = size) l ->
  array_of_words (length l) size (concat l ++ tail) = l.
Proof.
  induction 1 as [|e l He Hl IH]; [reflexivity|]. cbn [length array_of_words concat]. rewrite <- app_assoc.
  rewrite take_app_length', drop_app_length', IH by auto. reflexivity.
Qed.

Lemma caps_of_words_wf N M ws : (8 * N * M <= length ws)%nat -> caps_wf N M (caps_of_words N M ws).
Proof.
  intros Hl. unfold caps_of_words. split; [rewrite length_map; apply length_array_of_words|].
  apply Forall_map. eapply Forall_impl; [apply (array_of_words_sizes M (8 * N)); lia|]. intros e He. cbn [cap]. cbn beta in He.
  split; [apply length_array_of_words|]. apply array_of_words_sizes. lia.
Qed.

Lemma caps_digests N M caps : caps_wf N M caps -> Forall (Forall is_digest) (map cap caps).
Proof. intros [_ Hc]. apply Forall_map. eapply Forall_impl; [exact Hc|]. cbn. tauto. Qed.

Lemma caps_of_flattened N M caps tail : caps_wf N M caps -> caps_of_words N M (flatten_caps caps ++ tail) = caps.
Proof.
  intros [Hl Hc]. unfold caps_of_words, flatten_caps. rewrite <- (length_map (fun c => concat (cap c)) caps) in Hl.
  rewrite <- Hl, array_of_concat, map_map.
  - rewrite <- (map_id caps) at 2. apply map_ext_in. intros c Hin. rewrite List.Forall_forall in Hc.
    destruct (Hc c Hin) as [Hn Hd]. rewrite <- Hn, <- (app_nil_r (concat (cap c))), array_of_concat by exact Hd. destruct c; reflexivity.
  - apply Forall_map. eapply Forall_impl; [exact Hc|]. intros c [Hn Hd]. cbn beta.
    rewrite (length_concat_const 8) by exact Hd. lia.
Qed.

Lemma length_words_of_field {F} `{EqDecision F} (fields : struct_layout F) f image :
  (offset_of fields f + field_size fields f <= length image)%nat -> length (words_of_field fields f image) = field_size fields f.
Proof. intros Hl. unfold words_of_field. rewrite length_take, length_drop. lia. Qed.

Lemma field_in_struct {F} `{EqDecision F} (fields : struct_layout F) f :
  (offset_of fields f + field_size fields f <= size_of fields)%nat.
Proof.
  induction fields as [|[g n] rest IH]; cbn [offset_of field_size size_of]; [lia|]. destruct (decide (g = f)); lia.
Qed.

Notation "'parse' x ':=' p 'in' k" := (pbind p (fun x => k)) (at level 200, x pattern, p at level 100, k at level 200, right associativity) : comp_scope.

(** ** The queries that are read *)
Module QuerySpec.
Import Query.
Section Spec.
Context (L : CompiledLayout) (P : Parameters).

(** The leafs' sizes are those of arrays in a 32-bit address space. *)
Definition leafs_fit : Prop := 4 * Z.of_nat (TOTAL_U32_WORDS L P) < 2 ^ 32.

Definition query_image (this : list Z) (index : Z) (leafs : list Z) : list Z :=
  index :: map (norm true) leafs ++ drop (TOTAL_U32_WORDS L P) this.

Fixpoint pfri_inclusions (coset_index : Z) (schedule : list nat) (oracles : list (list MerkleTreeCap))
    (fri_tree_index : Z) (fri_path_length : nat) (leafs : list Z) : parser unit :=
  match schedule, oracles with
  | n :: schedule', caps :: oracles' =>
      let fri_tree_index := Z.shiftr fri_tree_index (Z.of_nat n) in
      let fri_path_length := (fri_path_length - n)%nat in
      let leaf_size := (4 * 2 ^ n)%nat in
      parse _ := popened coset_index fri_tree_index fri_path_length (take leaf_size leafs) caps in
      pfri_inclusions coset_index schedule' oracles' fri_tree_index fri_path_length (drop leaf_size leafs)
  | _, _ => pret tt
  end.

(** A query: the index, the leafs, then the paths that open them under the
    skeleton's caps. *)
Definition query_of (skeleton this : list Z) : parser (list Z) :=
  parse index := pword in
  parse _ := pguard (index <? 2 ^ Z.of_nat (Size.BITS_FOR_QUERY_INDEX L)) in
  parse leafs := ptake (TOTAL_U32_WORDS L P - 1) in
  let image := query_image this index leafs in
  let tree_index := Z.land index (Size.TREE_INDEX_MASK L) in
  let coset_index := Z.shiftr index (Z.of_nat (Size.TRACE_LEN_LOG2 L)) in
  let depth := Size.DEFAULT_MERKLE_PATH_LENGTH L P in
  let opened f caps := popened coset_index tree_index depth (leaf L P f image) (Skeleton.get_caps L P skeleton caps) in
  parse _ := opened setup_leaf Skeleton.setup_caps in
  parse _ := opened witness_leaf Skeleton.witness_caps in
  parse _ := opened memory_leaf Skeleton.memory_caps in
  parse _ := opened stage_2_leaf Skeleton.stage_2_caps in
  parse _ := opened quotient_leaf Skeleton.quotient_caps in
  parse _ := pfri_inclusions coset_index (Size.FRI_FOLDING_SCHEDULE P) (Skeleton.get_fri_intermediate_oracles L P skeleton)
               tree_index depth (leaf L P fri_oracles_leafs image) in
  pret image.

Fixpoint queries_of (skeleton : list Z) (dst : list (list Z)) : parser (list (list Z)) :=
  match dst with
  | [] => pret []
  | this :: rest =>
      parse image := query_of skeleton this in
      parse images := queries_of skeleton rest in
      pret (image :: images)
  end.

Context {H : Type} `{LawfulHasher H} (V : LeafInclusionVerifier H) (HV : lawful_verifier V).

Lemma leaf_fits f image : leafs_fit -> 4 * Z.of_nat (length (leaf L P f image)) < 2 ^ 32.
Proof.
  intros Hf. unfold leaf, words_of_field. rewrite length_take. pose proof (field_in_struct (fields L P) f).
  unfold leafs_fit, TOTAL_U32_WORDS in Hf. lia.
Qed.

Lemma skeleton_caps_wf f skeleton : (Skeleton.TOTAL_U32_WORDS L P <= length skeleton)%nat ->
  field_size (Skeleton.fields L P) f = Skeleton.cap_set_size P ->
  caps_wf (Size.TREE_CAP_SIZE P) Size.NUM_COSETS (Skeleton.get_caps L P skeleton f).
Proof.
  intros Hs Hf. apply caps_of_words_wf. pose proof (field_in_struct (Skeleton.fields L P) f).
  unfold Skeleton.TOTAL_U32_WORDS in Hs. rewrite length_words_of_field, Hf by lia. reflexivity.
Qed.

Lemma skeleton_oracles_wf skeleton : (Skeleton.TOTAL_U32_WORDS L P <= length skeleton)%nat ->
  Forall (caps_wf (Size.TREE_CAP_SIZE P) Size.NUM_COSETS) (Skeleton.get_fri_intermediate_oracles L P skeleton).
Proof.
  intros Hs. apply Forall_map. pose proof (field_in_struct (Skeleton.fields L P) Skeleton.fri_intermediate_oracles) as Hf.
  unfold Skeleton.TOTAL_U32_WORDS in Hs. eapply Forall_impl; [apply array_of_words_sizes|].
  - rewrite length_words_of_field by lia. change (field_size _ _) with (Skeleton.cap_set_size P * Size.NUM_FRI_STEPS_WITH_ORACLES L P)%nat. lia.
  - intros ws Hws. apply caps_of_words_wf. unfold Skeleton.cap_set_size in Hws. lia.
Qed.

Lemma follows_fri_inclusions coset_index schedule : forall oracles index depth leafs,
  4 * Z.of_nat (length leafs) < 2 ^ 32 -> Forall (caps_wf (Size.TREE_CAP_SIZE P) Size.NUM_COSETS) oracles ->
  follows (fri_inclusions V coset_index schedule oracles index depth leafs)
          (pfri_inclusions coset_index schedule oracles index depth leafs).
Proof.
  induction schedule as [|n schedule IH]; intros [|caps oracles] index depth leafs Hl Ho; try apply follows_ret.
  cbn [fri_inclusions pfri_inclusions]. apply Forall_cons in Ho as [Hc Ho]. apply follows_bind.
  - apply follows_included; [exact HV | rewrite length_take; lia | eapply caps_digests, Hc].
  - intros _. apply IH; [rewrite length_drop; lia | exact Ho].
Qed.

Lemma follows_fill skeleton this : leafs_fit -> (Skeleton.TOTAL_U32_WORDS L P <= length skeleton)%nat ->
  (TOTAL_U32_WORDS L P <= length this)%nat -> follows (fill L P V skeleton this) (query_of skeleton this).
Proof.
  intros Hfit Hs Ht. assert (Ht1 : (1 <= TOTAL_U32_WORDS L P)%nat) by (unfold TOTAL_U32_WORDS, fields; cbn [size_of]; lia).
  unfold fill, query_of. apply follows_bind; [apply follows_read_word|]. intros index.
  rewrite Z.shiftl_1_l. apply follows_bind; [apply follows_assert|]. intros [].
  destruct this as [|w0 this]; [cbn in Ht; lia|]. unfold write_word. cbn [length Nat.ltb Nat.leb insert list_insert].
  apply follows_ret_bind. cbv zeta.
  apply (follows_write_then true (TOTAL_U32_WORDS L P) [index] this); [exact Ht1 | cbn in *; lia|]. intros leafs Hl.
  replace (drop (TOTAL_U32_WORDS L P - length [index]) this) with (drop (TOTAL_U32_WORDS L P) (w0 :: this))
    by (destruct (TOTAL_U32_WORDS L P); [lia | cbn [length]; rewrite Nat.sub_succ, Nat.sub_0_r; reflexivity]).
  fold (query_image (w0 :: this) index leafs).
  do 5 (apply follows_bind; [apply follows_included; [exact HV | apply leaf_fits, Hfit | eapply caps_digests, skeleton_caps_wf; auto]|];
        intros []).
  apply follows_bind; [|intros _; apply follows_ret].
  apply follows_fri_inclusions; [apply leaf_fits, Hfit | apply skeleton_oracles_wf, Hs].
Qed.

Lemma follows_fill_array skeleton dst : leafs_fit -> (Skeleton.TOTAL_U32_WORDS L P <= length skeleton)%nat ->
  Forall (fun this => (TOTAL_U32_WORDS L P <= length this)%nat) dst ->
  follows (fill_array L P V skeleton dst) (queries_of skeleton dst).
Proof.
  intros Hfit Hs Hd. induction Hd as [|this dst Ht Hd IH]; cbn [fill_array queries_of]; [apply follows_ret|].
  apply follows_bind; [apply follows_fill; auto|]. intros image.
  apply follows_bind; [exact IH|]. intros images. apply follows_ret.
Qed.
End Spec.
End QuerySpec.

(** ** The sizes the verifier is compiled with *)

(** Later fields of the skeleton hold field elements aligned to 16 bytes. *)
Definition aligned_field (f : Skeleton.field) : Prop :=
  match f with
  | Skeleton.padding | Skeleton.circuit_sequence_idx | Skeleton.delegation_type | Skeleton.public_inputs => False
  | _ => True
  end.

Lemma cap_set_aligned P : (4 | Skeleton.cap_set_size P)%nat.
Proof. exists (2 * Size.TREE_CAP_SIZE P * Size.NUM_COSETS)%nat. unfold Skeleton.cap_set_size. lia. Qed.

Lemma leading_fields_aligned L : (4 | Size.SKELETON_PADDING L + (1 + (1 + Size.NUM_PUBLIC_INPUTS_FROM_STATE_ELEMENTS L)))%nat.
Proof.
  unfold Size.SKELETON_PADDING. generalize (Size.NUM_PUBLIC_INPUTS_FROM_STATE_ELEMENTS L). intros n. cbv zeta.
  assert (E : ((4 + 4 + 4 * n) mod 16 = 4 * ((2 + n) mod 4))%nat).
  { replace (4 + 4 + 4 * n)%nat with (4 * (2 + n))%nat by lia. change 16%nat with (4 * 4)%nat.
    rewrite Nat.Div0.mul_mod_distr_l. reflexivity. }
  rewrite E. pose proof (Nat.mod_upper_bound (2 + n) 4 ltac:(lia)) as Hb.
  pose proof (Nat.div_mod_eq (2 + n) 4) as Ed. set (r := ((2 + n) mod 4)%nat) in *. set (d := ((2 + n) / 4)%nat) in *.
  assert (Hr : r = 0%nat \/ r = 1%nat \/ r = 2%nat \/ r = 3%nat) by lia.
  destruct Hr as [Hr|[Hr|[Hr|Hr]]]; rewrite Hr in *.
  - exists d. change ((16 - 4 * 0) mod 16 / 4)%nat with 0%nat. lia.
  - exists (S d). change ((16 - 4 * 1) mod 16 / 4)%nat with 3%nat. lia.
  - exists (S d). change ((16 - 4 * 2) mod 16 / 4)%nat with 2%nat. lia.
  - exists (S d). change ((16 - 4 * 3) mod 16 / 4)%nat with 1%nat. lia.
Qed.

(** Fields of whole 16-byte units start on such units; the last field may have any size. *)
Lemma offsets_aligned {F} `{EqDecision F} (l : struct_layout F) last n f : Forall (fun fn => (4 | snd fn)%nat) l ->
  f ∈ map fst (l ++ [(last, n)]) -> (4 | offset_of (l ++ [(last, n)]) f)%nat.
Proof.
  induction 1 as [|[g m] l Hm Hl IH]; cbn [app offset_of map fst]; intros Hin.
  - apply list_elem_of_singleton in Hin as ->. rewrite decide_True by reflexivity. apply Nat.divide_0_r.
  - destruct (decide (g = f)) as [->|Hne]; [apply Nat.divide_0_r|]. apply elem_of_cons in Hin as [->|Hin]; [congruence|].
    apply Nat.divide_add_r; [exact Hm | apply IH, Hin].
Qed.

(** C25: whatever the circuit, the padding puts every field of the skeleton from
    the setup caps on at a multiple of 16 bytes, as the field elements and the
    nonce demand. *)
Theorem skeleton_fields_aligned L P f : aligned_field f -> (16 | 4 * Skeleton.offset L P f)%nat.
Proof.
  intros Hf. enough (4 | Skeleton.offset L P f)%nat as [k ->] by (exists k; lia).
  set (later := take 15 (drop 4 (Skeleton.fields L P))).
  assert (Ho : Skeleton.offset L P f = (Size.SKELETON_PADDING L + (1 + (1 + Size.NUM_PUBLIC_INPUTS_FROM_STATE_ELEMENTS L))
                 + offset_of (later ++ [(Skeleton.pow_nonce, 2%nat)]) f)%nat).
  { subst later. unfold Skeleton.offset, Skeleton.fields. cbn [take drop app offset_of].
    do 4 (rewrite decide_False by (destruct f; cbn in Hf; congruence || contradiction)). lia. }
  rewrite Ho. apply Nat.divide_add_r; [apply leading_fields_aligned|]. apply offsets_aligned.
  - subst later. cbn [take drop Skeleton.fields]. pose proof (cap_set_aligned P) as Hc.
    repeat constructor; cbn [snd]; auto using Nat.divide_mul_l, Nat.divide_factor_l;
      first [exists 7%nat; reflexivity | exists 1%nat; reflexivity | apply Nat.divide_mul_l; exists 4%nat; reflexivity
            | apply Nat.divide_mul_l; exists 3%nat; reflexivity | do 2 apply Nat.divide_mul_l; exists 1%nat; reflexivity].
  - subst later. destruct f; try contradiction; cbn [take drop Skeleton.fields app map fst]; set_solver.
Qed.

(** A small circuit: two state variables, four rows, one query. *)
Definition sample_layout : CompiledLayout := {|
  trace_len_log2 := 2; setup_width := 1; witness_width := 2; memory_width := 2; stage_2_width := 8;
  public_inputs_len := 4; state_linkage_witness_columns := [0; 1]%nat; has_delegation_request := true;
  has_delegation_processor := false; lazy_init_addresses_start := Some 0%nat; shuffle_ram_access_sets_len := 3;
  stage_2_base_field_polys := 1; stage_2_ext4_field_polys := 1; stage_2_ext4_polys_offset := 4;
  memory_argument_polys_start := 4; memory_argument_polys_len := 1;
|}.
Definition sample_parameters : Parameters := {|
  SECURITY_BITS := 1; POW_BITS := 1;
  FOLDING_PROPERTIES := {| initial_degree := 2; folding_sequence := [1%nat]; total_caps_size_log2 := 1; final_monomial_degree_log2 := 1 |};
|}.

Lemma skeleton_fields_aligned_witness : (16 | 4 * Skeleton.offset sample_layout sample_parameters Skeleton.pow_nonce)%nat.
Proof. apply (skeleton_fields_aligned sample_layout sample_parameters). exact I. Defined.

(** The steps whose leafs are read with the queries *)
Definition oracle_steps L P : list nat := take (Size.NUM_FRI_STEPS_WITH_ORACLES L P) (Size.FRI_FOLDING_SCHEDULE P).

(** What the compile-time assertions and the unchecked reads of the verifier
    rely on. *)
Record sizes_consistent (L : CompiledLayout) (P : Parameters) : Prop := {
  sc_caps : Size.TREE_CAP_SIZE P = 64%nat;
  sc_queries : Size.NUM_QUERIES P = 53%nat;
  sc_schedule : (sum_list (Size.FRI_FOLDING_SCHEDULE P) + final_monomial_degree_log2 (FOLDING_PROPERTIES P) = trace_len_log2 L)%nat;
  sc_properties : Size.compute_fri_folding_properties L P <> None;
  sc_leafs : Size.TOTAL_FRI_LEAFS_SIZES L P = sum_list (map (fun n => 4 * 2 ^ n)%nat (oracle_steps L P));
  sc_hashable : Forall (fun n => 0 < n <= 5 /\ 4 * 2 ^ n <> 16)%nat (Size.FRI_FOLDING_SCHEDULE P);
  sc_exposed : Size.LAST_FRI_STEP_EXPOSE_LEAFS L P = true /\
    (Size.LAST_FRI_STEP_LEAFS_TOTAL_SIZE_PER_COSET L P = 2 ^ (trace_len_log2 L - sum_list (oracle_steps L P)))%nat;
  sc_index_bits : (Size.BITS_FOR_QUERY_INDEX L * Size.NUM_QUERIES P <= 32 * (Size.NUM_REQUIRED_WORDS_FOR_QUERY_INDEXES L P - 1))%nat;
  sc_index_words : (Size.NUM_REQUIRED_WORDS_FOR_QUERY_INDEXES L P mod 8 = 0)%nat;
}.

Definition only_length (n : nat) : CompiledLayout := {|
  trace_len_log2 := n; setup_width := 0; witness_width := 0; memory_width := 0; stage_2_width := 0; public_inputs_len := 0;
  state_linkage_witness_columns := []; has_delegation_request := false; has_delegation_processor := false;
  lazy_init_addresses_start := None; shuffle_ram_access_sets_len := 0; stage_2_base_field_polys := 0;
  stage_2_ext4_field_polys := 0; stage_2_ext4_polys_offset := 0; memory_argument_polys_start := 0; memory_argument_polys_len := 0;
|}.

(** For every trace length of the folding table: the folding steps use up the
    trace's degree, the assertions on the folding hold, the leafs of the FRI
    oracles fill their array, none of them has sixteen words, the last step's
    leafs are exposed in full, and the words drawn for the query indexes have
    enough bits beside the word that proof of work uses. *)
Lemma folding_sizes_consistent L : (17 <= trace_len_log2 L <= 25)%nat -> exists P,
  concrete_parameters L = Some P /\ sizes_consistent L P.
Proof.
  intros Hl. enough (G : forall n, (17 <= n <= 25)%nat -> exists P, concrete_parameters (only_length n) = Some P /\
                             sizes_consistent (only_length n) P).
  { destruct (G (trace_len_log2 L) Hl) as (P & E & HP). exists P. split; [exact E|]. destruct HP. constructor; assumption. }
  clear L Hl. intros n Hn. assert (Hin : In n (seq 17 9)) by (apply in_seq; lia). clear Hn.
  repeat (destruct Hin as [<-|Hin]; [eexists; split; [reflexivity | constructor; vm_compute; try reflexivity; try discriminate] |]).
  all: try (split; reflexivity).
  all: try (repeat constructor; discriminate).
  destruct Hin.
Qed.
