(* ===== verification/Flattener.v ===== *)
(** * A proof as words, and reading it back

    [prover/src/prover_stages/mod.rs] and [stage5.rs] (the structures of a proof),
    [verifier_common/src/proof_flattener.rs] (the words that are given to the
    verifier).  [None] is a failed assertion. *)
From stdpp Require Import base list sets strings.
From Stdlib Require Import ZArith Lia.
From S2P Require Import Prelude MachineInt Field FieldExt FieldTraits Powers Ntt Fft Fri Deep Blake2s Hasher.
From S2P Require Import Worker BitReverse Transcript Challenges MerkleTree LeafInclusion Skeleton.

Import Quartic (Mersenne31Quartic).

#[local] Opaque Nat.pow mixing_function Rfc.round.

(** ** The structures *)

Module ExternalValues.
Record t : Type := {
  challenges : ExternalChallenges;
  aux_boundary_values : AuxArgumentsBoundaryValues;
}.
End ExternalValues.

Record ProofQuery : Type := {
  query_index : Z;
  tree_index : Z;
  leaf_content : list Mersenne31Field;
  merkle_proof : list Digest;
}.

Record QuerySet : Type := {
  witness_query : ProofQuery;
  memory_query : ProofQuery;
  setup_query : ProofQuery;
  stage_2_query : ProofQuery;
  quotient_query : ProofQuery;
  initial_fri_query : ProofQuery;
  intermediate_fri_queries : list ProofQuery;
}.

Module Proof.
Record t : Type := {
  external_values : ExternalValues.t;
  public_inputs : list Mersenne31Field;
  witness_tree_caps : list MerkleTreeCap;
  memory_tree_caps : list MerkleTreeCap;
  setup_tree_caps : list MerkleTreeCap;
  stage_2_tree_caps : list MerkleTreeCap;
  memory_grand_product_accumulator : Mersenne31Quartic;
  delegation_argument_accumulator : option Mersenne31Quartic;
  quotient_tree_caps : list MerkleTreeCap;
  evaluations_at_random_points : list Mersenne31Quartic;
  deep_poly_caps : list MerkleTreeCap;
  intermediate_fri_oracle_caps : list (list MerkleTreeCap);
  last_fri_step_plain_leaf_values : list (list Mersenne31Quartic);
  final_monomial_form : list Mersenne31Quartic;
  queries : list QuerySet;
  pow_nonce : Z;
  circuit_sequence : Z;
  delegation_type : Z;
}.
End Proof.

(** ** Flattening *)

Definition flatten_merkle_caps_into (trees : list MerkleTreeCap) (dst : list Z) : list Z :=
  fold_left (fun dst subtree => fold_left (fun dst cap_element => dst ++ cap_element) (cap subtree) dst) trees dst.

Definition flatten_leaf_into (leaf : list Mersenne31Field) (dst : list Z) : list Z :=
  fold_left (fun dst el => dst ++ [to_reduced_u32 el]) leaf dst.

Definition flatten_merkle_path_into (leaf : list Digest) (dst : list Z) : list Z :=
  fold_left (fun dst el => dst ++ el) leaf dst.

(** [.iter().map(|el| el.into_coeffs_in_base().map(to_reduced_u32)).flatten()] *)
Definition flatten_elements (els : list Mersenne31Quartic) : list Z := concat (map flatten_element els).

Definition flatten_proof_for_skeleton (proof : Proof.t) (apply_shuffle_ram_lazy_init : bool) : list Z :=
  let challenges := ExternalValues.challenges (Proof.external_values proof) in
  let result := [u32 (Proof.circuit_sequence proof)] in
  let result := result ++ [u32 (Proof.delegation_type proof)] in
  let result := result ++ map to_reduced_u32 (Proof.public_inputs proof) in
  let result := flatten_merkle_caps_into (Proof.setup_tree_caps proof) result in
  let result := result ++ flatten_memory_challenges (memory_argument challenges) in
  let result := match delegation_argument challenges with
                | Some delegation_argument => result ++ flatten_delegation_challenges delegation_argument
                | None => result
                end in
  let result := if apply_shuffle_ram_lazy_init
                then result ++ flatten_boundary_values (ExternalValues.aux_boundary_values (Proof.external_values proof)) else result in
  let result := flatten_merkle_caps_into (Proof.witness_tree_caps proof) result in
  let result := flatten_merkle_caps_into (Proof.memory_tree_caps proof) result in
  let result := flatten_merkle_caps_into (Proof.stage_2_tree_caps proof) result in
  let result := result ++ flatten_element (Proof.memory_grand_product_accumulator proof) in
  let result := match Proof.delegation_argument_accumulator proof with
                | Some delegation_argument_accumulator => result ++ flatten_element delegation_argument_accumulator
                | None => result
                end in
  let result := flatten_merkle_caps_into (Proof.quotient_tree_caps proof) result in
  let result := result ++ flatten_elements (Proof.evaluations_at_random_points proof) in
  let result := flatten_merkle_caps_into (Proof.deep_poly_caps proof) result in
  let result := fold_left (fun dst el => flatten_merkle_caps_into el dst) (Proof.intermediate_fri_oracle_caps proof) result in
  let result := if (0 <? length (Proof.last_fri_step_plain_leaf_values proof))%nat
                then fold_left (fun dst el => dst ++ flatten_elements el) (Proof.last_fri_step_plain_leaf_values proof) result
                else result in
  let result := result ++ flatten_elements (Proof.final_monomial_form proof) in
  let result := result ++ [u32 (Proof.pow_nonce proof)] in
  result ++ [u32 (Z.shiftr (Proof.pow_nonce proof) 32)].

Definition flatten_query (query : QuerySet) : option (list Z) :=
  let index := query_index (witness_query query) in
  if (index =? query_index (memory_query query)) && (index =? query_index (stage_2_query query)) &&
     (index =? query_index (quotient_query query)) && (index =? query_index (setup_query query)) then
    let result := [index] in
    let result := flatten_leaf_into (leaf_content (setup_query query)) result in
    let result := flatten_leaf_into (leaf_content (witness_query query)) result in
    let result := flatten_leaf_into (leaf_content (memory_query query)) result in
    let result := flatten_leaf_into (leaf_content (stage_2_query query)) result in
    let result := flatten_leaf_into (leaf_content (quotient_query query)) result in
    let result := flatten_leaf_into (leaf_content (initial_fri_query query)) result in
    let result := fold_left (fun dst el => flatten_leaf_into (leaf_content el) dst) (intermediate_fri_queries query) result in
    let result := flatten_merkle_path_into (merkle_proof (setup_query query)) result in
    let result := flatten_merkle_path_into (merkle_proof (witness_query query)) result in
    let result := flatten_merkle_path_into (merkle_proof (memory_query query)) result in
    let result := flatten_merkle_path_into (merkle_proof (stage_2_query query)) result in
    let result := flatten_merkle_path_into (merkle_proof (quotient_query query)) result in
    let result := flatten_merkle_path_into (merkle_proof (initial_fri_query query)) result in
    Some (fold_left (fun dst el => flatten_merkle_path_into (merkle_proof el) dst) (intermediate_fri_queries query) result)
  else None.

Fixpoint flatten_queries (queries : list QuerySet) (result : list Z) : option (list Z) :=
  match queries with
  | [] => Some result
  | query :: rest => words ← flatten_query query; flatten_queries rest (result ++ words)
  end.

Definition flatten_full_proof (proof : Proof.t) (apply_shuffle_ram_lazy_init : bool) : option (list Z) :=
  flatten_queries (Proof.queries proof) (flatten_proof_for_skeleton proof apply_shuffle_ram_lazy_init).

(** ** What is flattened *)

Lemma fold_left_app_concat {A B} (f : A -> list B) l : forall acc,
  fold_left (fun acc x => acc ++ f x) l acc = acc ++ concat (map f l).
Proof.
  induction l as [|x l IH]; intros acc; cbn [fold_left map concat]; [symmetry; apply app_nil_r|].
  rewrite IH, <- app_assoc. reflexivity.
Qed.

Lemma flatten_merkle_caps_into_ok trees dst : flatten_merkle_caps_into trees dst = dst ++ flatten_caps trees.
Proof.
  unfold flatten_merkle_caps_into, flatten_caps. rewrite <- fold_left_app_concat. revert dst.
  induction trees as [|t trees IH]; intros dst; cbn [fold_left]; [reflexivity|].
  rewrite (fold_left_app_concat (fun e => e)), map_id. apply IH.
Qed.

Lemma flatten_leaf_into_ok leaf dst : flatten_leaf_into leaf dst = dst ++ map to_reduced_u32 leaf.
Proof.
  unfold flatten_leaf_into. rewrite (fold_left_app_concat (fun el => [to_reduced_u32 el])). f_equal.
  induction leaf as [|x leaf IH]; cbn [map concat app]; congruence.
Qed.

Lemma flatten_merkle_path_into_ok path dst : flatten_merkle_path_into path dst = dst ++ concat path.
Proof. unfold flatten_merkle_path_into. rewrite (fold_left_app_concat (fun e => e)), map_id. reflexivity. Qed.

Lemma fold_left_ext {A B} (f g : A -> B -> A) l : (forall a x, f a x = g a x) -> forall a, fold_left f l a = fold_left g l a.
Proof. intros E. induction l as [|x l IH]; intros a; cbn [fold_left]; [reflexivity | rewrite E; apply IH]. Qed.

Section FieldsOfProof.
Import Skeleton.
Context (L : CompiledLayout) (P : Parameters) (proof : Proof.t) (lazy_init : bool).

Definition option_words {A} (f : A -> list Z) (o : option A) : list Z := match o with Some x => f x | None => [] end.

(** The words that are meant for a field of the skeleton *)
Definition field_of_proof (f : field) : list Z :=
  let openings := Proof.evaluations_at_random_points proof in
  match f with
  | padding => []
  | circuit_sequence_idx => [u32 (Proof.circuit_sequence proof)]
  | delegation_type => [u32 (Proof.delegation_type proof)]
  | public_inputs => map to_reduced_u32 (Proof.public_inputs proof)
  | setup_caps => flatten_caps (Proof.setup_tree_caps proof)
  | memory_argument_challenges => flatten_memory_challenges (memory_argument (ExternalValues.challenges (Proof.external_values proof)))
  | delegation_argument_challenges =>
      option_words flatten_delegation_challenges (delegation_argument (ExternalValues.challenges (Proof.external_values proof)))
  | aux_boundary_values =>
      if lazy_init then flatten_boundary_values (ExternalValues.aux_boundary_values (Proof.external_values proof)) else []
  | witness_caps => flatten_caps (Proof.witness_tree_caps proof)
  | memory_caps => flatten_caps (Proof.memory_tree_caps proof)
  | stage_2_caps => flatten_caps (Proof.stage_2_tree_caps proof)
  | memory_grand_product_accumulator => flatten_element (Proof.memory_grand_product_accumulator proof)
  | delegation_argument_accumulator => option_words flatten_element (Proof.delegation_argument_accumulator proof)
  | quotient_caps => flatten_caps (Proof.quotient_tree_caps proof)
  | openings_at_z => flatten_elements (take (Size.NUM_OPENINGS_AT_Z L) openings)
  | openings_at_z_omega => flatten_elements (drop (Size.NUM_OPENINGS_AT_Z L) openings)
  | fri_intermediate_oracles => concat (map flatten_caps (Proof.deep_poly_caps proof :: Proof.intermediate_fri_oracle_caps proof))
  | fri_final_step_leafs => concat (map flatten_elements (Proof.last_fri_step_plain_leaf_values proof))
  | monomial_coeffs => flatten_elements (Proof.final_monomial_form proof)
  | pow_nonce => [u32 (Proof.pow_nonce proof); u32 (Z.shiftr (Proof.pow_nonce proof) 32)]
  end.

Lemma app_option_words {A} (f : A -> list Z) (o : option A) l :
  match o with Some x => l ++ f x | None => l end = l ++ option_words f o.
Proof. destruct o; [reflexivity | symmetry; apply app_nil_r]. Qed.

Lemma flatten_fields : flatten_proof_for_skeleton proof lazy_init =
  concat (map (fun fn => field_of_proof (fst fn)) (SkeletonSpec.read_fields L P)).
Proof.
  unfold flatten_proof_for_skeleton. cbv zeta.
  rewrite !app_option_words, !flatten_merkle_caps_into_ok.
  rewrite (fold_left_ext _ (fun dst el => dst ++ flatten_caps el)) by (intros; apply flatten_merkle_caps_into_ok).
  rewrite !fold_left_app_concat.
  set (leafs := Proof.last_fri_step_plain_leaf_values proof).
  assert (El : forall l, (if (0 <? length leafs)%nat then l ++ concat (map flatten_elements leafs) else l) =
                         l ++ concat (map flatten_elements leafs)).
  { intros l. destruct leafs; [symmetry; apply app_nil_r | reflexivity]. }
  rewrite El. set (openings := Proof.evaluations_at_random_points proof).
  assert (Eo : flatten_elements openings = flatten_elements (take (Size.NUM_OPENINGS_AT_Z L) openings) ++
                                           flatten_elements (drop (Size.NUM_OPENINGS_AT_Z L) openings)).
  { unfold flatten_elements. rewrite <- concat_app, <- map_app, take_drop. reflexivity. }
  rewrite Eo. unfold SkeletonSpec.read_fields, Skeleton.fields. cbn [tl map concat fst field_of_proof].
  fold openings leafs. destruct lazy_init; rewrite <- ?app_assoc, ?app_nil_r; reflexivity.
Qed.
End FieldsOfProof.

(** ** Decoding what was flattened *)

(** The same elements, with coefficients below the modulus *)
Definition canonical (x : Mersenne31Quartic) : Mersenne31Quartic :=
  {| Quartic.c0 := {| Complex.c0 := to_reduced_u32 (Complex.c0 (Quartic.c0 x)); Complex.c1 := to_reduced_u32 (Complex.c1 (Quartic.c0 x)) |};
     Quartic.c1 := {| Complex.c0 := to_reduced_u32 (Complex.c0 (Quartic.c1 x)); Complex.c1 := to_reduced_u32 (Complex.c1 (Quartic.c1 x)) |} |}.
Definition canonical_memory (c : ExternalMemoryArgumentChallenges) : ExternalMemoryArgumentChallenges :=
  {| memory_argument_linearization_challenges := map canonical (memory_argument_linearization_challenges c);
     memory_argument_gamma := canonical (memory_argument_gamma c) |}.
Definition canonical_delegation (c : ExternalDelegationArgumentChallenges) : ExternalDelegationArgumentChallenges :=
  {| delegation_argument_linearization_challenges := map canonical (delegation_argument_linearization_challenges c);
     delegation_argument_gamma := canonical (delegation_argument_gamma c) |}.
Definition canonical_boundary (v : AuxArgumentsBoundaryValues) : AuxArgumentsBoundaryValues :=
  let r := map to_reduced_u32 in
  {| lazy_init_first_row := r (lazy_init_first_row v); teardown_value_first_row := r (teardown_value_first_row v);
     teardown_timestamp_first_row := r (teardown_timestamp_first_row v);
     lazy_init_one_before_last_row := r (lazy_init_one_before_last_row v);
     teardown_value_one_before_last_row := r (teardown_value_one_before_last_row v);
     teardown_timestamp_one_before_last_row := r (teardown_timestamp_one_before_last_row v) |}.

Lemma ext4_chunks_flatten els : ext4_chunks (flatten_elements els) = map canonical els.
Proof. unfold flatten_elements. induction els as [|x els IH]; [reflexivity|]. cbn [map concat]. rewrite <- IH. reflexivity. Qed.

Lemma length_flatten_elements els : length (flatten_elements els) = (4 * length els)%nat.
Proof.
  unfold flatten_elements. induction els as [|x els IH]; [reflexivity|]. cbn [map concat length]. rewrite length_app, IH.
  change (length (flatten_element x)) with 4%nat. lia.
Qed.

Lemma norm_reduced b x : repr x -> norm b (to_reduced_u32 x) = to_reduced_u32 x.
Proof. intros Hx. destruct b; [|reflexivity]. unfold norm. rewrite (to_reduced_spec x Hx), Zmod_mod. reflexivity. Qed.

Lemma norm_reduced_list b l : Forall repr l -> map (norm b) (map to_reduced_u32 l) = map to_reduced_u32 l.
Proof.
  induction 1 as [|x l Hx Hl IH]; [reflexivity|]. cbn [map]. rewrite IH. f_equal. apply norm_reduced, Hx.
Qed.

Lemma element_coeffs (x : Mersenne31Quartic) : fwf x -> Forall repr (Quartic.into_coeffs_in_base x).
Proof. intros [[Ha Hb] [Hc Hd]]. apply List.Forall_forall. intros y [<-|[<-|[<-|[<-|[]]]]]; assumption. Qed.

Lemma norm_elements b els : Forall fwf els -> map (norm b) (flatten_elements els) = flatten_elements els.
Proof.
  induction 1 as [|x els Hx Hl IH]; [reflexivity|]. unfold flatten_elements in *. cbn [map concat]. rewrite map_app, IH.
  unfold flatten_element. rewrite norm_reduced_list by (apply element_coeffs, Hx). reflexivity.
Qed.

Lemma flatten_memory_elements c : flatten_memory_challenges c =
  flatten_elements (memory_argument_linearization_challenges c ++ [memory_argument_gamma c]).
Proof.
  unfold flatten_memory_challenges, flatten_elements. rewrite map_app, concat_app. cbn [map concat]. rewrite app_nil_r. reflexivity.
Qed.
Lemma flatten_delegation_elements c : flatten_delegation_challenges c =
  flatten_elements (delegation_argument_linearization_challenges c ++ [delegation_argument_gamma c]).
Proof.
  unfold flatten_delegation_challenges, flatten_elements. rewrite map_app, concat_app. cbn [map concat]. rewrite app_nil_r. reflexivity.
Qed.

Lemma memory_challenges_roundtrip c : memory_challenges_wf c ->
  Skeleton.memory_challenges_of_words (flatten_memory_challenges c) = canonical_memory c.
Proof.
  intros [[Hl _] _]. unfold Skeleton.memory_challenges_of_words, canonical_memory.
  rewrite flatten_memory_elements, ext4_chunks_flatten, map_app. rewrite <- Hl, <- (length_map canonical).
  rewrite take_app_length, app_nth2, Nat.sub_diag by lia. reflexivity.
Qed.
Lemma delegation_challenges_roundtrip c : delegation_challenges_wf c ->
  Skeleton.delegation_challenges_of_words (flatten_delegation_challenges c) = canonical_delegation c.
Proof.
  intros [[Hl _] _]. unfold Skeleton.delegation_challenges_of_words, canonical_delegation.
  rewrite flatten_delegation_elements, ext4_chunks_flatten, map_app. rewrite <- Hl, <- (length_map canonical).
  rewrite take_app_length, app_nth2, Nat.sub_diag by lia. reflexivity.
Qed.
Lemma two_limbs l : limbs_wf l -> exists a b, l = [a; b] /\ repr a /\ repr b.
Proof.
  intros [Hl Hr]. destruct l as [|a [|b [|]]]; try discriminate Hl. inversion_clear Hr as [|? ? Ha Hr']. inversion_clear Hr' as [|? ? Hb _].
  exists a, b. auto.
Qed.
Lemma boundary_values_roundtrip v : boundary_values_wf v ->
  Skeleton.boundary_values_of_words (flatten_boundary_values v) = canonical_boundary v /\
  length (flatten_boundary_values v) = Skeleton.boundary_values_size /\
  forall b, map (norm b) (flatten_boundary_values v) = flatten_boundary_values v.
Proof.
  destruct v as [x1 x2 x3 x4 x5 x6]. intros (W1 & W2 & W3 & W4 & W5 & W6). cbn in W1, W2, W3, W4, W5, W6.
  apply two_limbs in W1 as (a1 & b1 & -> & ? & ?), W2 as (a2 & b2 & -> & ? & ?), W3 as (a3 & b3 & -> & ? & ?),
    W4 as (a4 & b4 & -> & ? & ?), W5 as (a5 & b5 & -> & ? & ?), W6 as (a6 & b6 & -> & ? & ?).
  split; [reflexivity|]. split; [reflexivity|]. intros b. unfold flatten_boundary_values. cbn [map app lazy_init_first_row
    teardown_value_first_row teardown_timestamp_first_row lazy_init_one_before_last_row teardown_value_one_before_last_row
    teardown_timestamp_one_before_last_row]. rewrite !norm_reduced by assumption. reflexivity.
Qed.

(** ** Proofs of a circuit *)

Record proof_shape (L : CompiledLayout) (P : Parameters) (proof : Proof.t) : Prop := {
  ps_sequence : 0 <= Proof.circuit_sequence proof < 2 ^ 16;
  ps_delegation_type : 0 <= Proof.delegation_type proof < 2 ^ 16;
  ps_nonce : 0 <= Proof.pow_nonce proof < 2 ^ 64;
  ps_inputs : length (Proof.public_inputs proof) = Size.NUM_PUBLIC_INPUTS_FROM_STATE_ELEMENTS L /\ Forall repr (Proof.public_inputs proof);
  ps_caps : Forall (caps_wf (Size.TREE_CAP_SIZE P) Size.NUM_COSETS)
    [Proof.setup_tree_caps proof; Proof.witness_tree_caps proof; Proof.memory_tree_caps proof;
     Proof.stage_2_tree_caps proof; Proof.quotient_tree_caps proof];
  ps_memory : memory_challenges_wf (memory_argument (ExternalValues.challenges (Proof.external_values proof)));
  ps_delegation : let c := option_list (delegation_argument (ExternalValues.challenges (Proof.external_values proof))) in
    length c = Size.NUM_DELEGATION_CHALLENGES L /\ Forall delegation_challenges_wf c;
  ps_boundary : boundary_values_wf (ExternalValues.aux_boundary_values (Proof.external_values proof));
  ps_memory_accumulator : fwf (Proof.memory_grand_product_accumulator proof);
  ps_delegation_accumulator : elements_wf (Size.NUM_DELEGATION_CHALLENGES L) (option_list (Proof.delegation_argument_accumulator proof));
  ps_openings : elements_wf (Size.NUM_OPENINGS_AT_Z L + Size.NUM_OPENINGS_AT_Z_OMEGA L) (Proof.evaluations_at_random_points proof);
  ps_oracles : length (Proof.deep_poly_caps proof :: Proof.intermediate_fri_oracle_caps proof) = Size.NUM_FRI_STEPS_WITH_ORACLES L P /\
    Forall (caps_wf (Size.TREE_CAP_SIZE P) Size.NUM_COSETS) (Proof.deep_poly_caps proof :: Proof.intermediate_fri_oracle_caps proof);
  ps_last_leafs : let leafs := Proof.last_fri_step_plain_leaf_values proof in
    length leafs = (if Size.LAST_FRI_STEP_EXPOSE_LEAFS L P then Size.NUM_COSETS else 0%nat) /\
    Forall (elements_wf (Size.LAST_FRI_STEP_LEAFS_TOTAL_SIZE_PER_COSET L P)) leafs;
  ps_monomials : elements_wf (Size.FRI_FINAL_DEGREE P) (Proof.final_monomial_form proof);
}.

(** What the skeleton has to hold for a proof *)
Record skeleton_holds (L : CompiledLayout) (P : Parameters) (proof : Proof.t) (image : list Z) : Prop := {
  sh_sequence : Skeleton.get_circuit_sequence_idx L P image = Proof.circuit_sequence proof;
  sh_delegation_type : Skeleton.get_delegation_type L P image = Proof.delegation_type proof;
  sh_inputs : Skeleton.get_public_inputs L P image = map to_reduced_u32 (Proof.public_inputs proof);
  sh_setup : Skeleton.get_caps L P image Skeleton.setup_caps = Proof.setup_tree_caps proof;
  sh_memory_challenges : Skeleton.get_memory_argument_challenges L P image =
    canonical_memory (memory_argument (ExternalValues.challenges (Proof.external_values proof)));
  sh_delegation_challenges : Skeleton.get_delegation_argument_challenges L P image =
    map canonical_delegation (option_list (delegation_argument (ExternalValues.challenges (Proof.external_values proof))));
  sh_boundary : Skeleton.get_aux_boundary_values L P image =
    if Size.has_inits_and_teardowns L then [canonical_boundary (ExternalValues.aux_boundary_values (Proof.external_values proof))] else [];
  sh_witness : Skeleton.get_caps L P image Skeleton.witness_caps = Proof.witness_tree_caps proof;
  sh_memory : Skeleton.get_caps L P image Skeleton.memory_caps = Proof.memory_tree_caps proof;
  sh_stage_2 : Skeleton.get_caps L P image Skeleton.stage_2_caps = Proof.stage_2_tree_caps proof;
  sh_memory_accumulator : Skeleton.get_memory_grand_product_accumulator L P image =
    canonical (Proof.memory_grand_product_accumulator proof);
  sh_delegation_accumulator : Skeleton.get_elements L P image Skeleton.delegation_argument_accumulator =
    map canonical (option_list (Proof.delegation_argument_accumulator proof));
  sh_quotient : Skeleton.get_caps L P image Skeleton.quotient_caps = Proof.quotient_tree_caps proof;
  sh_openings : Skeleton.get_elements L P image Skeleton.openings_at_z ++ Skeleton.get_elements L P image Skeleton.openings_at_z_omega =
    map canonical (Proof.evaluations_at_random_points proof);
  sh_oracles : Skeleton.get_fri_intermediate_oracles L P image = Proof.deep_poly_caps proof :: Proof.intermediate_fri_oracle_caps proof;
  sh_last_leafs : Size.LAST_FRI_STEP_EXPOSE_LEAFS L P = true ->
    Skeleton.get_fri_final_step_leafs L P image = map (map canonical) (Proof.last_fri_step_plain_leaf_values proof);
  sh_monomials : Skeleton.get_elements L P image Skeleton.monomial_coeffs = map canonical (Proof.final_monomial_form proof);
  sh_nonce : Skeleton.get_pow_nonce L P image = Proof.pow_nonce proof;
}.

(** A field's words in the concatenation of all of them *)
Lemma slice_of_field {F} `{EqDecision F} (g : F -> list Z) (fields : struct_layout F) rest f :
  Forall (fun fn => length (g (fst fn)) = snd fn) fields -> f ∈ map fst fields ->
  take (field_size fields f) (drop (offset_of fields f) (concat (map (fun fn => g (fst fn)) fields) ++ rest)) = g f /\
  length (g f) = field_size fields f.
Proof.
  induction 1 as [|[h n] fields Hn Hl IH]; intros Hin; [inversion Hin|]. cbn [field_size offset_of map concat fst snd] in *.
  rewrite <- app_assoc. destruct (decide (h = f)) as [->|Hne].
  - rewrite drop_0, <- Hn, take_app_length. auto.
  - apply elem_of_cons in Hin as [->|Hin]; [congruence|]. rewrite <- Hn, <- drop_drop, drop_app_length. apply IH, Hin.
Qed.

Lemma size_of_fields {F} (g : F -> list Z) (fields : struct_layout F) : Forall (fun fn => length (g (fst fn)) = snd fn) fields ->
  length (concat (map (fun fn => g (fst fn)) fields)) = size_of fields.
Proof.
  induction 1 as [|[h n] fields Hn Hl IH]; [reflexivity|]. cbn [map concat size_of fst snd] in *. rewrite length_app, IH, Hn. reflexivity.
Qed.

Section ReadBack.
Import Skeleton SkeletonSpec.
Context (L : CompiledLayout) (P : Parameters) (proof : Proof.t) (Hp : proof_shape L P proof).
Notation lazy_init := (Size.has_inits_and_teardowns L).
Notation of_proof := (field_of_proof L proof lazy_init).
Notation size f := (field_size (fields L P) f).

Lemma length_option_words {A} (f : A -> list Z) k (o : option A) : (forall x, length (f x) = k) ->
  length (option_words f o) = (k * length (option_list o))%nat.
Proof. intros Hf. destruct o; cbn; rewrite ?Hf; lia. Qed.

Lemma caps_length caps : caps_wf (Size.TREE_CAP_SIZE P) Size.NUM_COSETS caps -> length (flatten_caps caps) = cap_set_size P.
Proof. intros Hc. rewrite (length_flatten_caps _ _ _ Hc). reflexivity. Qed.

Lemma field_lengths : Forall (fun fn => length (of_proof (fst fn)) = snd fn) (read_fields L P).
Proof.
  destruct Hp. unfold read_fields, fields. cbn [tl].
  repeat match goal with H : Forall _ (_ :: _) |- _ => apply Forall_cons in H as [? ?] end.
  repeat apply Forall_cons_2; cbn [fst snd field_of_proof]; rewrite ?length_map;
    auto using caps_length; try (destruct ps_inputs0; assumption).
  all: try easy.
  - rewrite flatten_memory_elements, length_flatten_elements, length_app. destruct ps_memory0 as [[-> _] _]. reflexivity.
  - destruct ps_delegation0 as [Hl Hw]. rewrite <- Hl. destruct (delegation_argument _) as [c|]; [|cbn; lia].
    cbn [option_words]. apply Forall_inv in Hw as [[Hc _] _].
    rewrite flatten_delegation_elements, length_flatten_elements, length_app, Hc. reflexivity.
  - unfold Size.NUM_AUX_BOUNDARY_VALUES. destruct lazy_init; [|cbn; lia]. apply boundary_values_roundtrip in ps_boundary0 as (_ & -> & _). reflexivity.
  - destruct ps_delegation_accumulator0 as [<- _]. apply length_option_words. reflexivity.
  - destruct ps_openings0 as [Hl _]. rewrite length_flatten_elements, length_take. lia.
  - destruct ps_openings0 as [Hl _]. rewrite length_flatten_elements, length_drop. lia.
  - destruct ps_oracles0 as [Hl Hc]. rewrite <- Hl, <- (length_map flatten_caps). apply length_concat_const.
    apply Forall_map. eapply Forall_impl; [exact Hc | intros c; apply caps_length].
  - destruct ps_last_leafs0 as [Hl Hc].
    rewrite (length_concat_const (4 * Size.LAST_FRI_STEP_LEAFS_TOTAL_SIZE_PER_COSET L P)), length_map, Hl.
    + unfold Size.LAST_FRI_STEP_EXPOSE_LEAFS, Size.LAST_FRI_STEP_LEAFS_TOTAL_SIZE_PER_COSET.
      unfold Size.compute_last_fri_folding_step_properties. destruct (_ <=? _)%nat; cbn [fst snd]; lia.
    + apply Forall_map. eapply Forall_impl; [exact Hc|]. intros els [He _]. rewrite length_flatten_elements, He. reflexivity.
  - destruct ps_monomials0 as [Hl _]. rewrite length_flatten_elements, Hl. reflexivity.
Qed.

Lemma norm_field f : reduced f = true -> map (norm true) (of_proof f) = of_proof f.
Proof.
  destruct Hp. intros Hr. destruct f; try discriminate Hr; cbn [field_of_proof].
  - apply norm_reduced_list, ps_inputs0.
  - rewrite flatten_memory_elements. apply norm_elements. destruct ps_memory0 as [[_ Hw] Hg]. apply Forall_app. auto.
  - destruct ps_delegation0 as [_ Hw]. destruct (delegation_argument _) as [c|]; [|reflexivity]. cbn [option_words].
    apply Forall_inv in Hw as [[_ Hw] Hg]. rewrite flatten_delegation_elements. apply norm_elements, Forall_app. auto.
  - destruct lazy_init; [apply boundary_values_roundtrip, ps_boundary0 | reflexivity].
  - apply norm_reduced_list, element_coeffs, ps_memory_accumulator0.
  - destruct ps_delegation_accumulator0 as [_ Hw]. destruct (Proof.delegation_argument_accumulator proof) as [x|]; [|reflexivity].
    apply Forall_inv in Hw. apply norm_reduced_list, element_coeffs, Hw.
  - apply norm_elements, Forall_take, ps_openings0.
  - apply norm_elements, Forall_drop, ps_openings0.
  - apply norm_elements, ps_monomials0.
Qed.

Notation flat := (flatten_proof_for_skeleton proof lazy_init).

Lemma flat_length : length flat = read_size L P.
Proof. rewrite (flatten_fields L P). apply size_of_fields, field_lengths. Qed.

(** Each field of the image holds the words meant for it. *)
Lemma image_field this rest f : (TOTAL_U32_WORDS L P <= length this)%nat -> f <> padding ->
  words_of_field (fields L P) f (image_of L P this (flat ++ rest)) = of_proof f.
Proof.
  intros Ht Hf. pose proof (total_words L P) as Et.
  rewrite field_words by (rewrite ?length_app, ?flat_length; auto; lia). rewrite (flatten_fields L P).
  assert (Hin : f ∈ map fst (read_fields L P))
    by (destruct f; try congruence; unfold read_fields, fields; cbn [map fst tl]; set_solver).
  destruct (slice_of_field of_proof (read_fields L P) rest f field_lengths Hin) as [E _].
  assert (Eo : (offset L P f - START_U32_WORDS L P = offset_of (read_fields L P) f)%nat).
  { assert (E0 : START_U32_WORDS L P = Size.SKELETON_PADDING L).
    { unfold START_U32_WORDS, offset, fields. cbn [offset_of]. rewrite decide_False, decide_True by congruence. lia. }
    rewrite E0. unfold offset, read_fields, fields. cbn [offset_of tl]. rewrite decide_False by congruence. lia. }
  assert (Es : size f = field_size (read_fields L P) f)
    by (unfold read_fields, fields; cbn [field_size tl]; rewrite decide_False by congruence; reflexivity).
  rewrite Eo, Es, E. destruct (reduced f) eqn:Er; [apply norm_field, Er | apply map_id].
Qed.

Lemma caps_roundtrip caps : caps_wf (Size.TREE_CAP_SIZE P) Size.NUM_COSETS caps ->
  caps_of_words (Size.TREE_CAP_SIZE P) Size.NUM_COSETS (flatten_caps caps) = caps.
Proof. intros Hc. rewrite <- (app_nil_r (flatten_caps caps)). apply caps_of_flattened, Hc. Qed.

Lemma arrays_roundtrip {A B} (enc : A -> list Z) (dec : list Z -> B) (target : A -> B) k (l : list A) :
  Forall (fun x => length (enc x) = k /\ dec (enc x) = target x) l ->
  map dec (array_of_words (length l) k (concat (map enc l))) = map target l.
Proof.
  intros Hl. rewrite <- (length_map enc), <- (app_nil_r (concat (map enc l))), array_of_concat, map_map.
  - apply map_ext_in. intros x Hin. rewrite List.Forall_forall in Hl. apply Hl, Hin.
  - apply Forall_map. eapply Forall_impl; [exact Hl | cbn; tauto].
Qed.

Lemma nonce_words n : 0 <= n < 2 ^ 64 -> u32 n + 2 ^ 32 * u32 (Z.shiftr n 32) = n.
Proof.
  intros Hn. unfold u32. rewrite Z.shiftr_div_pow2 by lia. rewrite (Z.mod_small (n / 2 ^ 32)).
  - pose proof (Z.div_mod n (2 ^ 32) ltac:(lia)). lia.
  - split; [apply Z.div_pos; lia | apply Z.div_lt_upper_bound; lia].
Qed.

Lemma one_word {A} (f : A -> list Z) (o : option A) : option_words f o = concat (map f (option_list o)).
Proof. destruct o; cbn; [symmetry; apply app_nil_r | reflexivity]. Qed.

Lemma read_back this rest : (TOTAL_U32_WORDS L P <= length this)%nat ->
  skeleton_holds L P proof (image_of L P this (flat ++ rest)).
Proof.
  intros Ht. pose proof (image_field this rest) as Ef. destruct Hp.
  repeat match goal with H : Forall _ (_ :: _) |- _ => apply Forall_cons in H as [? ?] end.
  constructor;
    unfold get_circuit_sequence_idx, get_delegation_type, get_public_inputs, get_caps, get_memory_argument_challenges,
      get_delegation_argument_challenges, get_aux_boundary_values, get_memory_grand_product_accumulator, get_elements,
      get_fri_intermediate_oracles, get_fri_final_step_leafs, get_pow_nonce;
    rewrite !Ef by (discriminate || exact Ht); cbn [field_of_proof]; auto using caps_roundtrip.
  - apply u32_small. unfold is_u32. lia.
  - apply u32_small. unfold is_u32. lia.
  - apply memory_challenges_roundtrip, ps_memory0.
  - destruct ps_delegation0 as [Hl Hw]. rewrite one_word, <- Hl. apply arrays_roundtrip.
    eapply Forall_impl; [exact Hw|]. intros c Hc. split; [|apply delegation_challenges_roundtrip, Hc].
    destruct Hc as [[Hc _] _]. rewrite flatten_delegation_elements, length_flatten_elements, length_app, Hc. reflexivity.
  - apply boundary_values_roundtrip in ps_boundary0 as (E & El & _). unfold Size.NUM_AUX_BOUNDARY_VALUES.
    destruct lazy_init; [|reflexivity]. change (Z.to_nat (b2z true)) with 1%nat.
    cbn [array_of_words map]. rewrite <- El, take_ge, E by lia. reflexivity.
  - rewrite one_word. apply ext4_chunks_flatten.
  - rewrite !ext4_chunks_flatten, <- map_app, take_drop. reflexivity.
  - destruct ps_oracles0 as [Hl Hc]. rewrite <- Hl. rewrite <- (map_id (_ :: _)) at 3. apply arrays_roundtrip.
    eapply Forall_impl; [exact Hc|]. intros c Hw. split; [apply caps_length, Hw | apply caps_roundtrip, Hw].
  - intros He. destruct ps_last_leafs0 as [Hl Hc]. rewrite He in Hl. rewrite <- Hl. apply arrays_roundtrip.
    eapply Forall_impl; [exact Hc|]. intros els [Hn _]. split; [rewrite length_flatten_elements, Hn; reflexivity | apply ext4_chunks_flatten].
  - apply ext4_chunks_flatten.
  - apply nonce_words, ps_nonce0.
Qed.

Lemma flattened_skeleton this rest : (TOTAL_U32_WORDS L P <= length this)%nat ->
  skeleton_of L P this (flat ++ rest) = Some (image_of L P this (flat ++ rest), rest).
Proof.
  intros Ht. unfold skeleton_of. destruct (read_back this rest Ht). unfold short. rewrite sh_sequence0, sh_delegation_type0.
  assert (Hs : forall x, 0 <= x < 2 ^ 16 -> (Z.land x 0xffff0000 =? 0) = true) by (intros x Hx; apply high_bits_clear; lia).
  rewrite !Hs by (destruct Hp; assumption).
  replace (read_size L P <=? length (flat ++ rest))%nat with true by (symmetry; apply Nat.leb_le; rewrite length_app, flat_length; lia).
  cbn [andb]. rewrite <- flat_length, drop_app_length. reflexivity.
Qed.
End ReadBack.

(** ** Queries that open *)

Definition leaf_words (q : ProofQuery) : list Z := map to_reduced_u32 (leaf_content q).

(** The query's path leads from its leaf to the cap of its coset. *)
Definition opens (coset_index index : Z) (depth : nat) (q : ProofQuery) (caps : list MerkleTreeCap) : Prop :=
  verifiable (leaf_words q) /\ Forall is_digest (merkle_proof q) /\ length (merkle_proof q) = depth /\
  exists digests : list Digest, (map cap caps : list (list Digest)) !! Z.to_nat coset_index = Some digests /\
    digests !! Z.to_nat (Z.shiftr index (Z.of_nat depth)) = Some (path_root (words_hash true (leaf_words q)) index (merkle_proof q)).

Fixpoint fri_opens (coset_index : Z) (schedule : list nat) (oracles : list (list MerkleTreeCap)) (queries : list ProofQuery)
    (index : Z) (depth : nat) : Prop :=
  match schedule, oracles, queries with
  | n :: schedule', caps :: oracles', q :: queries' =>
      let index := Z.shiftr index (Z.of_nat n) in
      length (leaf_content q) = (4 * 2 ^ n)%nat /\ Forall repr (leaf_content q) /\ opens coset_index index (depth - n) q caps /\
      fri_opens coset_index schedule' oracles' queries' index (depth - n)
  | _, [], [] => True
  | _, _, _ => False
  end.

Definition fri_queries (q : QuerySet) : list ProofQuery := initial_fri_query q :: intermediate_fri_queries q.

Definition tree_leaf_ok (width : nat) (q : ProofQuery) : Prop := length (leaf_content q) = width /\ Forall repr (leaf_content q).

Record query_shape (L : CompiledLayout) (P : Parameters) (proof : Proof.t) (q : QuerySet) : Prop := {
  qs_index : 0 <= query_index (witness_query q) < 2 ^ Z.of_nat (Size.BITS_FOR_QUERY_INDEX L);
  qs_indexes : Forall (fun other => query_index other = query_index (witness_query q))
    [memory_query q; stage_2_query q; quotient_query q; setup_query q];
  qs_setup_leaf : tree_leaf_ok (Size.LEAF_SIZE_SETUP L) (setup_query q);
  qs_witness_leaf : tree_leaf_ok (Size.LEAF_SIZE_WITNESS_TREE L) (witness_query q);
  qs_memory_leaf : tree_leaf_ok (Size.LEAF_SIZE_MEMORY_TREE L) (memory_query q);
  qs_stage_2_leaf : tree_leaf_ok (Size.LEAF_SIZE_STAGE_2 L) (stage_2_query q);
  qs_quotient_leaf : tree_leaf_ok Size.LEAF_SIZE_QUOTIENT (quotient_query q);
  qs_opens : let index := query_index (witness_query q) in
    let tree_index := Z.land index (Size.TREE_INDEX_MASK L) in
    let coset_index := Z.shiftr index (Z.of_nat (Size.TRACE_LEN_LOG2 L)) in
    let depth := Size.DEFAULT_MERKLE_PATH_LENGTH L P in
    let opened := opens coset_index tree_index depth in
    opened (setup_query q) (Proof.setup_tree_caps proof) /\ opened (witness_query q) (Proof.witness_tree_caps proof) /\
    opened (memory_query q) (Proof.memory_tree_caps proof) /\ opened (stage_2_query q) (Proof.stage_2_tree_caps proof) /\
    opened (quotient_query q) (Proof.quotient_tree_caps proof) /\
    fri_opens coset_index (Size.FRI_FOLDING_SCHEDULE P) (Proof.deep_poly_caps proof :: Proof.intermediate_fri_oracle_caps proof)
      (fri_queries q) tree_index depth;
  qs_fri_leafs : sum_list (map (fun q => length (leaf_content q)) (fri_queries q)) = Size.TOTAL_FRI_LEAFS_SIZES L P;
}.

Lemma popened_ok coset_index index depth q caps rest : opens coset_index index depth q caps ->
  popened coset_index index depth (leaf_words q) caps (concat (merkle_proof q) ++ rest) = Some (tt, rest).
Proof.
  intros ((Hne & H16 & Hsize) & Hd & <- & digests & E1 & E2). unfold popened, pbind, verdict.
  destruct (siblings_of_path (merkle_proof q) rest Hd) as (Es & Ed & Hl).
  destruct (Nat.eqb_spec (length (leaf_words q)) 0) as [E0|_]; [apply nil_length_inv in E0; contradiction|].
  destruct (Nat.eqb_spec (length (leaf_words q)) 16); [contradiction|]. cbn [orb].
  destruct (Nat.ltb_spec (length (concat (merkle_proof q) ++ rest)) (8 * length (merkle_proof q))); [lia|].
  rewrite E1. cbn [mbind option_bind]. rewrite E2. cbn [mbind option_bind].
  rewrite Es, Ed, bool_decide_eq_true_2 by reflexivity. reflexivity.
Qed.

(** The leafs of the steps and then their paths *)
Lemma pfri_ok coset_index schedule : forall oracles queries index depth rest,
  fri_opens coset_index schedule oracles queries index depth ->
  QuerySpec.pfri_inclusions coset_index schedule oracles index depth (concat (map leaf_words queries))
    (concat (map (fun q => concat (merkle_proof q)) queries) ++ rest) = Some (tt, rest).
Proof.
  induction schedule as [|n schedule IH]; intros [|caps oracles] [|q queries] index depth rest Hf; try contradiction; try reflexivity.
  cbn [fri_opens] in Hf. destruct Hf as (Hl & _ & Ho & Hf). cbn [QuerySpec.pfri_inclusions map concat]. unfold pbind at 1.
  assert (Hw : length (leaf_words q) = (4 * 2 ^ n)%nat) by (unfold leaf_words; rewrite length_map; exact Hl).
  rewrite <- Hw, take_app_length, drop_app_length, <- app_assoc, popened_ok by exact Ho. cbn [mbind option_bind]. apply IH, Hf.
Qed.

Definition index_of (q : QuerySet) : Z := query_index (witness_query q).

Section QueryFields.
Import Query.
Context (L : CompiledLayout) (P : Parameters) (proof : Proof.t) (q : QuerySet).

Definition field_of_query (f : field) : list Z :=
  match f with
  | query_index => [index_of q]
  | setup_leaf => leaf_words (setup_query q)
  | witness_leaf => leaf_words (witness_query q)
  | memory_leaf => leaf_words (memory_query q)
  | stage_2_leaf => leaf_words (stage_2_query q)
  | quotient_leaf => leaf_words (quotient_query q)
  | fri_oracles_leafs => concat (map leaf_words (fri_queries q))
  end.

Definition query_paths : list Z :=
  concat (map (fun q => concat (merkle_proof q))
    ([setup_query q; witness_query q; memory_query q; stage_2_query q; quotient_query q] ++ fri_queries q)).

Notation field_words := (concat (map (fun fn => field_of_query (fst fn)) (fields L P))).

Lemma flatten_query_words : Forall (fun other => Flattener.query_index other = index_of q)
    [memory_query q; stage_2_query q; quotient_query q; setup_query q] ->
  flatten_query q = Some (field_words ++ query_paths).
Proof.
  intros Hi. do 4 (apply Forall_cons in Hi as [? Hi]). unfold flatten_query. fold (index_of q).
  replace (_ && _ && _ && _) with true by (symmetry; rewrite !andb_true_iff, !Z.eqb_eq; auto).
  rewrite !flatten_leaf_into_ok.
  rewrite (fold_left_ext (fun dst el => flatten_leaf_into (leaf_content el) dst) (fun dst el => dst ++ leaf_words el)) by (intros; apply flatten_leaf_into_ok).
  rewrite fold_left_app_concat, !flatten_merkle_path_into_ok.
  rewrite (fold_left_ext (fun dst el => flatten_merkle_path_into (merkle_proof el) dst) (fun dst el => dst ++ concat (merkle_proof el))) by (intros; apply flatten_merkle_path_into_ok).
  rewrite fold_left_app_concat. unfold query_paths, fri_queries. cbn [map concat fields fst field_of_query app].
  unfold fri_queries. cbn [map concat]. fold (leaf_words (setup_query q)) (leaf_words (witness_query q)) (leaf_words (memory_query q))
    (leaf_words (stage_2_query q)) (leaf_words (quotient_query q)) (leaf_words (initial_fri_query q)).
  rewrite <- ?app_assoc, ?app_nil_r. rewrite <- ?app_assoc. reflexivity.
Qed.

Context (Hq : query_shape L P proof q).

Lemma query_field_lengths : Forall (fun fn => length (field_of_query (fst fn)) = snd fn) (fields L P).
Proof.
  destruct Hq. unfold fields. repeat apply Forall_cons_2; cbn [fst snd field_of_query]; unfold leaf_words; rewrite ?length_map;
    try (apply qs_setup_leaf0 || apply qs_witness_leaf0 || apply qs_memory_leaf0 || apply qs_stage_2_leaf0 || apply qs_quotient_leaf0);
    auto.
  rewrite <- qs_fri_leafs0. clear. induction (fri_queries q) as [|x l IH]; [reflexivity|].
  cbn [map concat sum_list]. rewrite length_app, IH. unfold leaf_words. rewrite length_map. reflexivity.
Qed.

Lemma fri_leafs_repr schedule : forall coset_index oracles queries index depth,
  fri_opens coset_index schedule oracles queries index depth -> Forall (fun q => Forall repr (leaf_content q)) queries.
Proof.
  induction schedule as [|n schedule IH]; intros coset_index [|caps oracles] [|x queries] index depth Hf; try contradiction; constructor.
  - apply Hf.
  - eapply IH, Hf.
Qed.

Lemma norm_leaf b (x : ProofQuery) : Forall repr (leaf_content x) -> map (norm b) (leaf_words x) = leaf_words x.
Proof. apply norm_reduced_list. Qed.

Lemma norm_leafs (l : list ProofQuery) : Forall (fun x => Forall repr (leaf_content x)) l ->
  map (norm true) (concat (map leaf_words l)) = concat (map leaf_words l).
Proof. induction 1 as [|x l Hx Hl IH]; [reflexivity|]. cbn [map concat]. rewrite map_app, IH, norm_leaf by exact Hx. reflexivity. Qed.

(** The query's fields, read after the skeleton *)
Lemma query_read_back skeleton this rest : (TOTAL_U32_WORDS L P <= length this)%nat -> skeleton_holds L P proof skeleton ->
  exists image, QuerySpec.query_of L P skeleton this (field_words ++ query_paths ++ rest) = Some (image, rest) /\
    get_query_index L P image = index_of q /\ (forall f, f <> query_index -> leaf L P f image = field_of_query f).
Proof.
  intros Ht Hs. pose proof query_field_lengths as Hl. pose proof (size_of_fields field_of_query (fields L P) Hl) as Hsize.
  set (image := field_words ++ drop (TOTAL_U32_WORDS L P) this). exists image.
  assert (Hf : forall f, words_of_field (fields L P) f image = field_of_query f).
  { intros f. apply slice_of_field; [exact Hl|]. destruct f; unfold fields; cbn [map fst]; set_solver. }
  split; [|split; [unfold get_query_index; rewrite Hf; reflexivity | intros f _; apply Hf]].
  set (leafs := concat (map (fun fn => field_of_query (fst fn)) (tl (fields L P)))).
  assert (Ew : field_words = index_of q :: leafs) by reflexivity.
  assert (Hll : length leafs = (TOTAL_U32_WORDS L P - 1)%nat).
  { apply (f_equal length) in Ew. rewrite Hsize in Ew. unfold TOTAL_U32_WORDS. rewrite Ew. cbn [length]. lia. }
  destruct Hq. destruct qs_opens0 as (O1 & O2 & O3 & O4 & O5 & Of). destruct Hs.
  assert (Hn : QuerySpec.query_image L P this (index_of q) leafs = image).
  { unfold QuerySpec.query_image, image. rewrite Ew. cbn [app]. do 2 f_equal.
    unfold leafs, fields. cbn [tl map concat fst field_of_query]. rewrite !map_app.
    rewrite !norm_leaf by (apply qs_setup_leaf0 || apply qs_witness_leaf0 || apply qs_memory_leaf0 || apply qs_stage_2_leaf0 || apply qs_quotient_leaf0).
    rewrite norm_leafs by (eapply fri_leafs_repr, Of). reflexivity. }
  rewrite Ew. unfold QuerySpec.query_of. cbn [app]. unfold pbind at 1. cbn [pword mbind option_bind].
  unfold pbind at 1, pguard. replace (_ <? _) with true by (symmetry; apply Z.ltb_lt, qs_index0). cbn [pret mbind option_bind].
  unfold pbind at 1, ptake. rewrite <- Hll.
  replace (_ <=? _)%nat with true by (symmetry; apply Nat.leb_le; rewrite length_app; lia).
  rewrite take_app_length, drop_app_length. cbn [mbind option_bind]. cbv zeta. rewrite Hn. unfold leaf. rewrite !Hf.
  unfold query_paths. cbn [app map concat field_of_query]. rewrite <- !app_assoc, sh_setup0, sh_witness0, sh_memory0, sh_stage_3, sh_quotient0, sh_oracles0.
  do 5 (unfold pbind at 1; rewrite popened_ok by assumption; cbn [mbind option_bind]).
  unfold pbind at 1. rewrite pfri_ok by exact Of. reflexivity.
Qed.
End QueryFields.

(** ** Reading a flattened proof *)

(** The start of [verify_with_configuration]: the skeleton, then the queries *)
Definition read_proof {H} (L : CompiledLayout) (P : Parameters) (V : LeafInclusionVerifier H) (skeleton : list Z)
    (queries : list (list Z)) : vprog H (list Z * list (list Z)) :=
  let! skeleton := Skeleton.fill L P skeleton in
  let! queries := Query.fill_array L P V skeleton queries in
  ret (skeleton, queries).

Record query_holds (L : CompiledLayout) (P : Parameters) (q : QuerySet) (image : list Z) : Prop := {
  qh_index : Query.get_query_index L P image = query_index (witness_query q);
  qh_setup : Query.leaf L P Query.setup_leaf image = leaf_words (setup_query q);
  qh_witness : Query.leaf L P Query.witness_leaf image = leaf_words (witness_query q);
  qh_memory : Query.leaf L P Query.memory_leaf image = leaf_words (memory_query q);
  qh_stage_2 : Query.leaf L P Query.stage_2_leaf image = leaf_words (stage_2_query q);
  qh_quotient : Query.leaf L P Query.quotient_leaf image = leaf_words (quotient_query q);
  qh_fri : Query.leaf L P Query.fri_oracles_leafs image = concat (map leaf_words (fri_queries q));
}.

Definition read_sizes (L : CompiledLayout) (P : Parameters) (skeleton : list Z) (queries : list (list Z)) : Prop :=
  QuerySpec.leafs_fit L P /\ (Skeleton.TOTAL_U32_WORDS L P <= length skeleton)%nat /\
  Forall (fun q => (Query.TOTAL_U32_WORDS L P <= length q)%nat) queries.

Lemma follows_skeleton {H} `{LawfulHasher H} L P this : (Skeleton.TOTAL_U32_WORDS L P <= length this)%nat ->
  follows (Skeleton.fill L P this) (SkeletonSpec.skeleton_of L P this).
Proof.
  intros Ht s Hw. pose proof (SkeletonSpec.fill_ok L P this s Ht) as E.
  destruct (SkeletonSpec.skeleton_of L P this (oracle s)) as [[image rest]|]; eauto.
Qed.

Lemma length_image_of L P this ws : (SkeletonSpec.read_size L P <= length ws)%nat -> (Skeleton.TOTAL_U32_WORDS L P <= length this)%nat ->
  length (SkeletonSpec.image_of L P this ws) = length this.
Proof.
  intros Hw Ht. pose proof (SkeletonSpec.total_words L P). unfold SkeletonSpec.image_of.
  rewrite !length_app, length_take, length_struct_words, length_drop by exact Hw. fold (SkeletonSpec.read_size L P). lia.
Qed.

(** What is read, as a parser *)
Definition proof_of (L : CompiledLayout) (P : Parameters) (skeleton : list Z) (queries : list (list Z)) : parser (list Z * list (list Z)) :=
  parse skeleton := SkeletonSpec.skeleton_of L P skeleton in
  parse queries := QuerySpec.queries_of L P skeleton queries in
  pret (skeleton, queries).

Lemma follows_read_proof {H} `{LawfulHasher H} L P V skeleton queries : lawful_verifier V -> read_sizes L P skeleton queries ->
  follows (read_proof L P V skeleton queries) (proof_of L P skeleton queries).
Proof.
  intros HV (Hfit & Hs & Hq) s Hw. unfold read_proof, proof_of. pose proof (follows_skeleton L P skeleton Hs s Hw) as Es.
  unfold pbind at 1. destruct (SkeletonSpec.skeleton_of L P skeleton (oracle s)) as [[image rest]|] eqn:Ei; cbn [mbind option_bind].
  2:{ destruct Es as [msg Es]. exists msg. unfold bind. rewrite Es. reflexivity. }
  destruct Es as (h' & Es & Hw'). assert (Hi : (Skeleton.TOTAL_U32_WORDS L P <= length image)%nat).
  { unfold SkeletonSpec.skeleton_of in Ei. destruct (Nat.leb_spec (SkeletonSpec.read_size L P) (length (oracle s))); [|discriminate].
    cbn [andb] in Ei. destruct (SkeletonSpec.short _ _ _); [|discriminate]. injection Ei as <- _. rewrite length_image_of; auto. }
  pose proof (follows_bind _ _ _ _ (QuerySpec.follows_fill_array L P V HV image queries Hfit Hi Hq)
    (fun queries => follows_ret (image, queries)) {| hasher := h'; oracle := rest |} Hw') as Eq. cbn [oracle] in Eq.
  rewrite !(bind_step _ _ _ _ _ Es). exact Eq.
Qed.

Lemma queries_read_back L P proof skeleton queries : skeleton_holds L P proof skeleton ->
  Forall (query_shape L P proof) queries -> forall dst rest acc, length dst = length queries ->
  Forall (fun q => (Query.TOTAL_U32_WORDS L P <= length q)%nat) dst ->
  exists words images, flatten_queries queries acc = Some (acc ++ words) /\
    QuerySpec.queries_of L P skeleton dst (words ++ rest) = Some (images, rest) /\ Forall2 (query_holds L P) queries images.
Proof.
  intros Hs. induction 1 as [|q queries Hq Hqs IH]; intros [|this dst] rest acc Hl Hd; try discriminate Hl.
  { exists [], []. rewrite app_nil_r. auto. }
  apply Forall_cons in Hd as [Ht Hd]. injection Hl as Hl. cbn [flatten_queries].
  rewrite (flatten_query_words L P q) by apply Hq. cbn [mbind option_bind].
  match goal with |- context [flatten_queries queries (acc ++ ?x)] => set (words := x) end.
  destruct (IH dst rest (acc ++ words) Hl Hd) as (more & images & E1 & E2 & H2).
  destruct (query_read_back L P proof q Hq skeleton this (more ++ rest) Ht Hs) as (image & E3 & Ei & Ef).
  exists (words ++ more), (image :: images). split; [rewrite E1, app_assoc; reflexivity|]. split.
  - cbn [QuerySpec.queries_of]. unfold pbind at 1. unfold words. rewrite <- !app_assoc, E3. cbn [mbind option_bind].
    unfold pbind at 1. rewrite E2. reflexivity.
  - constructor; [|exact H2]. constructor; [exact Ei | apply Ef; discriminate ..].
Qed.

(** C8: a proof that has the shape the circuit's layout asks for and whose queries
    open under its caps can be flattened, and the verifier that reads these
    words gets every field of the proof back, opens all of its leafs, and leaves
    what follows the proof in the source. *)
Theorem flattened_proof_is_read {H} `{LawfulHasher H} (V : LeafInclusionVerifier H) L P proof skeleton queries h rest :
  lawful_verifier V -> read_sizes L P skeleton queries -> h_wf h -> proof_shape L P proof ->
  Forall (query_shape L P proof) (Proof.queries proof) -> length queries = length (Proof.queries proof) ->
  exists words image images h',
    flatten_full_proof proof (Size.has_inits_and_teardowns L) = Some words /\
    read_proof L P V skeleton queries {| hasher := h; oracle := words ++ rest |} = Ok (image, images) {| hasher := h'; oracle := rest |} /\
    skeleton_holds L P proof image /\ Forall2 (query_holds L P) (Proof.queries proof) images.
Proof.
  intros HV Hsizes Hw Hp Hq Hl. pose proof Hsizes as (_ & Hs & Hd).
  set (flat := flatten_proof_for_skeleton proof (Size.has_inits_and_teardowns L)).
  set (image more := SkeletonSpec.image_of L P skeleton (flat ++ more)).
  assert (Hi : forall more, skeleton_holds L P proof (image more)) by (intros more; apply read_back; auto).
  destruct (queries_read_back L P proof (image []) (Proof.queries proof) (Hi []) Hq queries rest flat Hl Hd)
    as (words & images0 & E1 & _).
  destruct (queries_read_back L P proof (image (words ++ rest)) (Proof.queries proof) (Hi _) Hq queries rest flat Hl Hd)
    as (words' & images & E1' & E2 & H2).
  assert (words' = words) as -> by (rewrite E1 in E1'; injection E1' as E; apply app_inv_head in E; congruence).
  pose proof (follows_read_proof L P V skeleton queries HV Hsizes {| hasher := h; oracle := (flat ++ words) ++ rest |} Hw) as Ef.
  cbn [oracle] in Ef. unfold proof_of in Ef. unfold pbind at 1 in Ef. rewrite <- app_assoc in Ef.
  rewrite (flattened_skeleton L P proof Hp skeleton _ Hs) in Ef. cbn [mbind option_bind] in Ef. unfold pbind at 1 in Ef.
  fold flat (image (words ++ rest)) in Ef. rewrite E2 in Ef. destruct Ef as (h' & Ef & _).
  exists (flat ++ words), (image (words ++ rest)), images, h'. rewrite <- app_assoc. auto.
Qed.

(** ** A proof of the small circuit *)

(** Trees with only zeros: every node of a level has the same digest. *)
Definition zero_node (width k : nat) : Digest := Nat.iter k (fun d => compress d d) (words_hash true (replicate width 0)).
Definition zero_tree_caps (width depth : nat) : list MerkleTreeCap := replicate 2 {| cap := [zero_node width depth] |}.
Definition zero_query (width depth : nat) (index : Z) : ProofQuery :=
  {| query_index := index; tree_index := Z.land index 3; leaf_content := replicate width 0;
     merkle_proof := map (zero_node width) (seq 0 depth) |}.
Definition zero_query_set (index : Z) : QuerySet :=
  {| witness_query := zero_query 2 2 index; memory_query := zero_query 2 2 index; setup_query := zero_query 1 2 index;
     stage_2_query := zero_query 8 2 index; quotient_query := zero_query 4 2 index;
     initial_fri_query := zero_query 8 1 index; intermediate_fri_queries := [] |}.
Definition zero_external_values : ExternalValues.t :=
  let zeros := replicate REGISTER_SIZE 0 in
  {| ExternalValues.challenges :=
       {| memory_argument := {| memory_argument_linearization_challenges := replicate 6 ZERO; memory_argument_gamma := ZERO |};
          delegation_argument :=
            Some {| delegation_argument_linearization_challenges := replicate 3 ZERO; delegation_argument_gamma := ZERO |} |};
     ExternalValues.aux_boundary_values :=
       {| lazy_init_first_row := zeros; teardown_value_first_row := zeros; teardown_timestamp_first_row := zeros;
          lazy_init_one_before_last_row := zeros; teardown_value_one_before_last_row := zeros;
          teardown_timestamp_one_before_last_row := zeros |} |}.
Definition zero_proof (nonce index : Z) : Proof.t := {|
  Proof.external_values := zero_external_values; Proof.public_inputs := replicate 4 0;
  Proof.witness_tree_caps := zero_tree_caps 2 2; Proof.memory_tree_caps := zero_tree_caps 2 2;
  Proof.setup_tree_caps := zero_tree_caps 1 2; Proof.stage_2_tree_caps := zero_tree_caps 8 2;
  Proof.memory_grand_product_accumulator := ZERO; Proof.delegation_argument_accumulator := Some ZERO;
  Proof.quotient_tree_caps := zero_tree_caps 4 2; Proof.evaluations_at_random_points := replicate 13 ZERO;
  Proof.deep_poly_caps := zero_tree_caps 8 1; Proof.intermediate_fri_oracle_caps := [];
  Proof.last_fri_step_plain_leaf_values := []; Proof.final_monomial_form := replicate 2 ZERO;
  Proof.queries := [zero_query_set index]; Proof.pow_nonce := nonce; Proof.circuit_sequence := 0; Proof.delegation_type := 0;
|}.
Definition skeleton_memory : list Z := replicate 230 0.
Definition query_memory : list (list Z) := [replicate 26 0].

Lemma zeros_repr n : Forall repr (replicate n 0).
Proof. apply Forall_replicate. unfold repr, ORDER. lia. Qed.
Lemma zeros_wf n : elements_wf n (replicate n ZERO).
Proof. split; [apply length_replicate | apply Forall_replicate, ZERO_ok]. Qed.
Lemma zero_node_digest width k : is_digest (zero_node width k).
Proof. destruct k; [apply length_words_hash | reflexivity]. Qed.
Lemma zero_tree_caps_wf width depth : caps_wf 1 2 (zero_tree_caps width depth).
Proof. split; [reflexivity|]. apply Forall_replicate. split; [reflexivity|]. constructor; [apply zero_node_digest | constructor]. Qed.

Lemma zero_proof_shape nonce index : 0 <= nonce < 2 ^ 64 -> proof_shape sample_layout sample_parameters (zero_proof nonce index).
Proof.
  intros Hn. assert (Hl : limbs_wf (replicate REGISTER_SIZE 0)) by (split; [reflexivity | apply zeros_repr]).
  assert (Hz : fwf (ZERO : Mersenne31Quartic)) by apply ZERO_ok.
  constructor; cbn [zero_proof Proof.circuit_sequence Proof.delegation_type Proof.pow_nonce]; try lia;
    try (repeat apply Forall_cons_2; try apply Forall_nil_2; apply zero_tree_caps_wf).
  - split; [reflexivity | apply zeros_repr].
  - split; [apply (zeros_wf 6) | exact Hz].
  - split; [reflexivity|]. constructor; [split; [apply (zeros_wf 3) | exact Hz] | constructor].
  - split_and!; exact Hl.
  - exact Hz.
  - apply (zeros_wf 1).
  - apply (zeros_wf 13).
  - split; [reflexivity|]. constructor; [apply zero_tree_caps_wf | constructor].
  - split; [reflexivity | constructor].
  - apply (zeros_wf 2).
Qed.

(** Wherever the leaf is, its path leads to the same root. *)
Lemma zero_root width depth : forall k index,
  path_root (zero_node width k) index (map (zero_node width) (seq k depth)) = zero_node width (k + depth).
Proof.
  induction depth as [|depth IH]; intros k index; [rewrite Nat.add_0_r; reflexivity|]. cbn [seq map path_root].
  rewrite <- Nat.add_succ_comm, <- (IH (S k) (Z.shiftr index 1)). destruct (Z.odd index); reflexivity.
Qed.

Lemma zero_opens width depth index coset_index tree_index : (0 < width < 16)%nat -> 0 <= coset_index < 2 ->
  0 <= tree_index < 2 ^ Z.of_nat depth -> opens coset_index tree_index depth (zero_query width depth index) (zero_tree_caps width depth).
Proof.
  intros Hwidth Hc Ht. assert (El : leaf_words (zero_query width depth index) = replicate width 0)
    by (unfold leaf_words; cbn [zero_query leaf_content]; induction width as [|[|width] IH]; [lia | reflexivity|]; cbn [replicate map] in *; rewrite IH by lia; reflexivity).
  unfold opens. rewrite El. cbn [zero_query merkle_proof]. split_and!.
  - split_and!; [destruct width; [lia | discriminate] | rewrite length_replicate; lia | rewrite length_replicate; lia].
  - apply Forall_map, List.Forall_forall. intros k _. apply zero_node_digest.
  - rewrite length_map, length_seq. reflexivity.
  - exists [zero_node width depth]. split.
    + assert (Hcase : coset_index = 0 \/ coset_index = 1) by lia. destruct Hcase as [-> | ->]; reflexivity.
    + rewrite Z.shiftr_div_pow2, Z.div_small by lia. exact (f_equal Some (eq_sym (zero_root width depth 0 tree_index))).
Qed.

Lemma zero_query_shape nonce index : 0 <= index < 8 ->
  query_shape sample_layout sample_parameters (zero_proof nonce index) (zero_query_set index).
Proof.
  intros Hi. assert (Hleaf : forall width depth, tree_leaf_ok width (zero_query width depth index))
    by (intros; split; [apply length_replicate | apply zeros_repr]).
  assert (Hc : 0 <= Z.shiftr index (Z.of_nat 2) < 2)
    by (rewrite Z.shiftr_div_pow2 by lia; split; [apply Z.div_pos; lia | apply Z.div_lt_upper_bound; lia]).
  assert (Ht : 0 <= Z.land index 3 < 4) by (change 3 with (Z.ones 2); rewrite Z.land_ones by lia; apply Z.mod_pos_bound; lia).
  assert (Ht1 : 0 <= Z.shiftr (Z.land index 3) 1 < 2)
    by (rewrite Z.shiftr_div_pow2 by lia; split; [apply Z.div_pos; lia | apply Z.div_lt_upper_bound; lia]).
  constructor; cbn [zero_query_set witness_query memory_query setup_query stage_2_query quotient_query]; try apply Hleaf.
  - exact Hi.
  - cbn [zero_query query_index]. do 4 (apply Forall_cons_2; [reflexivity|]). apply Forall_nil_2.
  - cbv zeta. split_and!; try (apply zero_opens; [lia | exact Hc | exact Ht]).
    split; [reflexivity|]. split; [apply zeros_repr|]. split; [|exact I]. apply zero_opens; [lia | exact Hc | exact Ht1].
  - reflexivity.
Qed.

Lemma flattened_proof_is_read_witness : exists words image images h',
  flatten_full_proof (zero_proof 7 5) true = Some words /\
  read_proof sample_layout sample_parameters (Blake2sForEverythingVerifier Baseline.Blake2sState) skeleton_memory query_memory
    {| hasher := Baseline.new; oracle := words ++ [42] |} = Ok (image, images) {| hasher := h'; oracle := [42] |} /\
  skeleton_holds sample_layout sample_parameters (zero_proof 7 5) image /\
  Forall2 (query_holds sample_layout sample_parameters) (Proof.queries (zero_proof 7 5)) images.
Proof.
  apply (flattened_proof_is_read (Blake2sForEverythingVerifier Baseline.Blake2sState) sample_layout sample_parameters
           (zero_proof 7 5) skeleton_memory query_memory Baseline.new [42]).
  - apply for_everything_lawful.
  - split; [reflexivity|]. split; [apply Nat.leb_le; reflexivity | constructor; [apply Nat.leb_le; reflexivity | constructor]].
  - split; reflexivity.
  - apply zero_proof_shape. lia.
  - constructor; [apply zero_query_shape; lia | constructor].
  - reflexivity.
Defined.
