(* ===== verification/CircuitVerifier.v ===== *)
(** * The verifier of a circuit

    [verifier/src/lib.rs]: [verify_with_configuration], with the bits that
    [verifier_common/src/structs.rs] reads the query indexes from.  The
    evaluation of the quotient at [z] is generated code: [evaluate_quotient] is an
    argument here.  A [None] is a failed assertion.  [modular_ext4_ops] is the
    build with a fused multiply-add ([PREFER_FMA]). *)
From stdpp Require Import base list sets strings.
From Stdlib Require Import ZArith Lia.
From S2P Require Import Prelude MachineInt Field FieldExt FieldTraits Powers Ntt Fft Fri Deep Blake2s Hasher.
From S2P Require Import Worker BitReverse Transcript Challenges MerkleTree LeafInclusion Skeleton Flattener FullStatement.

Import Quartic (Mersenne31Quartic).
Import Complex (Mersenne31Complex, TWO_ADICITY_GENERATORS, TWO_ADICITY_GENERATORS_INVERSED).

#[local] Opaque Nat.pow mixing_function Rfc.round.

(** ** Query indexes *)

Record BitSource : Type := { u32_values : list Z; bit_index : nat }.

Definition new_bit_source (u32_values : list Z) : BitSource := {| u32_values := u32_values; bit_index := 0 |}.

(** [BitSource::next] *)
Definition next_bit (self : BitSource) : option (bool * BitSource) :=
  if (length (u32_values self) * 32 <=? bit_index self)%nat then None
  else
    let word_index := (bit_index self / 32)%nat in
    let bit_in_word := (bit_index self mod 32)%nat in
    let bit := negb (Z.land (get (u32_values self) word_index) (Z.shiftl 1 (Z.of_nat bit_in_word)) =? 0) in
    Some (bit, {| u32_values := u32_values self; bit_index := S (bit_index self) |}).

(** [for i in 0..num_bits] *)
Fixpoint assemble_loop (n i : nat) (result : Z) (bit_source : BitSource) : option (Z * BitSource) :=
  match n with
  | O => Some (result, bit_source)
  | S n' =>
      '(bit, bit_source) ← next_bit bit_source;
      assemble_loop n' (S i) (Z.lor result (Z.shiftl (b2z bit) (Z.of_nat i))) bit_source
  end.
Definition assemble_query_index (num_bits : nat) (bit_source : BitSource) : option (Z * BitSource) :=
  if (num_bits <=? 64)%nat then assemble_loop num_bits 0 0 bit_source else None.

Definition bitreverse_for_bitlength (num : Z) (bitlength : nat) : Z := Z.shiftr (bitrev 32 num) (32 - Z.of_nat bitlength).

(** ** The transcript *)

Definition NUM_LOOKUP_ARGUMENT_LINEARIZATION_CHALLENGES : nat := 3.

Record TranscriptChallenges : Type := {
  lookup_argument_linearization_challenges : list Mersenne31Quartic;
  lookup_argument_gamma : Mersenne31Quartic;
  quotient_alpha : Mersenne31Quartic;
  quotient_beta : Mersenne31Quartic;
  z : Mersenne31Quartic;
  deep_poly_alpha : Mersenne31Quartic;
  folding_challenges : list Mersenne31Quartic;
  indexes_bits : list Z;
}.

Section TranscriptRun.
Context {H : Type} `{Blake2sHasher H} (L : CompiledLayout) (P : Parameters).

(** The words for [n] elements, in whole digests, into an uninitialised array *)
Definition draw_elements (n : nat) (seed : Seed) : hprog H (Seed * list Mersenne31Quartic) :=
  let! (seed, transcript_challenges) := draw_randomness_using_hasher seed
    (replicate (next_multiple_of (n * 4) BLAKE2S_DIGEST_SIZE_U32_WORDS) 0) in
  ret (seed, challenge_chunks transcript_challenges).

(** A commitment and one element drawn after it *)
Definition commit_and_draw (seed : Seed) (input : list Z) : hprog H (Seed * Mersenne31Quartic) :=
  let! seed := commit_with_seed_using_hasher seed input in
  let! (seed, it) := draw_elements 1 seed in
  let! (element, _) := next it in
  ret (seed, element).

Fixpoint fri_challenges (seed : Seed) (oracles : list (list Z)) : hprog H (Seed * list Mersenne31Quartic) :=
  match oracles with
  | [] => ret (seed, [])
  | caps :: rest =>
      let! (seed, challenge) := commit_and_draw seed caps in
      let! (seed, challenges) := fri_challenges seed rest in
      ret (seed, challenge :: challenges)
  end.

Definition run_transcript (skeleton : list Z) : hprog H TranscriptChallenges :=
  let! seed := commit_initial_using_hasher (Skeleton.transcript_elements_before_stage2 L P skeleton) in
  let! (seed, it) := draw_elements (NUM_LOOKUP_ARGUMENT_LINEARIZATION_CHALLENGES + 1) seed in
  let! (lookup_argument_linearization_challenges, it) := next_n NUM_LOOKUP_ARGUMENT_LINEARIZATION_CHALLENGES it in
  let! (lookup_argument_gamma, _) := next it in
  let! seed := commit_with_seed_using_hasher seed (Skeleton.transcript_elements_stage2_to_stage3 L P skeleton) in
  let! (seed, it) := draw_elements 2 seed in
  let! (quotient_alpha, it) := next it in
  let! (quotient_beta, _) := next it in
  let! (seed, z) := commit_and_draw seed (Skeleton.transcript_elements_stage3_to_stage4 L P skeleton) in
  let! (seed, deep_poly_alpha) := commit_and_draw seed (Skeleton.transcript_elements_evaluations_at_z L P skeleton) in
  let! (seed, challenges) := fri_challenges seed (Skeleton.transcript_elements_fri_intermediate_oracles L P skeleton) in
  let! (seed, challenges) :=
    (if Size.LAST_FRI_STEP_EXPOSE_LEAFS L P then
       let! (seed, dst) := commit_and_draw seed (Skeleton.transcript_elements_last_fri_step_leaf_values L P skeleton) in
       ret (seed, challenges ++ [dst])
     else ret (seed, challenges)) in
  let! seed := commit_with_seed_using_hasher seed (Skeleton.transcript_elements_monomial_coefficients L P skeleton) in
  let! seed := verify_pow_using_hasher seed (Skeleton.get_pow_nonce L P skeleton) (Z.of_nat (POW_BITS P)) in
  let! (seed, indexes_bits) := draw_randomness_using_hasher seed (replicate (Size.NUM_REQUIRED_WORDS_FOR_QUERY_INDEXES L P) 0) in
  ret {| lookup_argument_linearization_challenges := lookup_argument_linearization_challenges;
         lookup_argument_gamma := lookup_argument_gamma; quotient_alpha := quotient_alpha; quotient_beta := quotient_beta;
         z := z; deep_poly_alpha := deep_poly_alpha; folding_challenges := challenges; indexes_bits := indexes_bits |}.
End TranscriptRun.

(** ** The quotient at [z] *)

Record ProofAuxValues : Type := {
  memory_grand_product_accumulator_final_value : Mersenne31Quartic;
  delegation_argument_accumulator_sum : Mersenne31Quartic;
}.

(** The arguments of [evaluate_quotient]; in a next row, [None] is an element
    that is not initialised. *)
Module Quotient.
Record arguments : Type := {
  at_z : Mersenne31Quartic;
  witness : list Mersenne31Quartic;
  memory : list Mersenne31Quartic;
  setup : list Mersenne31Quartic;
  stage_2 : list Mersenne31Quartic;
  witness_next_row : list (option Mersenne31Quartic);
  memory_next_row : list (option Mersenne31Quartic);
  stage_2_next_row : list (option Mersenne31Quartic);
  alpha : Mersenne31Quartic;
  beta : Mersenne31Quartic;
  divisors : list Mersenne31Quartic;
  lookup_linearization_challenges : list Mersenne31Quartic;
  lookup_gamma : Mersenne31Quartic;
  lookup_two_gamma : Mersenne31Quartic;
  memory_linearization_challenges : list Mersenne31Quartic;
  memory_gamma : Mersenne31Quartic;
  delegation_linearization_challenges : list Mersenne31Quartic;
  delegation_gamma : Mersenne31Quartic;
  public_inputs : list Mersenne31Field;
  aux_proof_values : ProofAuxValues;
  aux_boundary_values : AuxArgumentsBoundaryValues;
  memory_timestamp_high_from_circuit_sequence : Mersenne31Field;
  delegation_type : Mersenne31Field;
  delegation_argument_interpolant_linear_coeff : Mersenne31Quartic;
}.
End Quotient.

Definition default_delegation_challenges : ExternalDelegationArgumentChallenges :=
  {| delegation_argument_linearization_challenges := replicate NUM_DELEGATION_ARGUMENT_LINEARIZATION_CHALLENGES ZERO;
     delegation_argument_gamma := ZERO |}.
Definition default_boundary_values : AuxArgumentsBoundaryValues :=
  let zeros := replicate REGISTER_SIZE 0 in
  {| lazy_init_first_row := zeros; teardown_value_first_row := zeros; teardown_timestamp_first_row := zeros;
     lazy_init_one_before_last_row := zeros; teardown_value_one_before_last_row := zeros;
     teardown_timestamp_one_before_last_row := zeros |}.

(** [[T]::split_at] *)
Definition split_at {A} (n : nat) (l : list A) : option (list A * list A) :=
  if (n <=? length l)%nat then Some (take n l, drop n l) else None.

(** [for (index, element) in indexes.iter().zip(set.iter()) { row[*index] = *element }] *)
Fixpoint scatter (indexes : list nat) (set : list Mersenne31Quartic) (row : list (option Mersenne31Quartic))
    : option (list (option Mersenne31Quartic)) :=
  match indexes, set with
  | index :: indexes', element :: set' =>
      if (index <? length row)%nat then scatter indexes' set' (<[index := Some element]> row) else None
  | _, _ => Some row
  end.

(** The six divisors, from one batch inversion *)
Definition quotient_divisors (trace_len_log2 : nat) (z : Mersenne31Quartic) : option (list Mersenne31Quartic) :=
  omega_inv ← mjoin (TWO_ADICITY_GENERATORS_INVERSED !! trace_len_log2);
  omega_inv_squared ← mjoin (TWO_ADICITY_GENERATORS_INVERSED !! (trace_len_log2 - 1)%nat);
  let vanishing := sub_assign_base (exp_power_of_2 z trace_len_log2) (ONE : Mersenne31Field) in
  let z_minus_omega_inv := sub_assign_base z omega_inv in
  let z_minus_omega_inv_squared := sub_assign_base z omega_inv_squared in
  let first_row_to_inverse := sub_assign_base z (ONE : Mersenne31Field) in
  let one_before_last_row_to_inverse := sub_assign_base z omega_inv_squared in
  let last_row_to_inverse := sub_assign_base z omega_inv in
  '(inversed, all_non_zero) ← batch_inverse_checked
     [z; vanishing; first_row_to_inverse; one_before_last_row_to_inverse; last_row_to_inverse];
  if (all_non_zero : bool) then
    match inversed with
    | [z_inv; vanishing_inv; first_row; one_before_last_row; last_row] =>
        let everywhere_except_last := mul_assign z_minus_omega_inv vanishing_inv in
        let everywhere_except_last_two_rows := mul_assign everywhere_except_last z_minus_omega_inv_squared in
        let last_row_and_zero := mul_assign last_row z_inv in
        Some [everywhere_except_last; everywhere_except_last_two_rows; first_row; one_before_last_row; last_row; last_row_and_zero]
    | _ => None
    end
  else None.

Section Verify.
Context (modular_ext4_ops : bool) (evaluate_quotient : Quotient.arguments -> Mersenne31Quartic).
Context (L : CompiledLayout) (P : Parameters).

(** The arguments of the evaluation, and the opening it is compared with *)
Definition quotient_arguments (skeleton : list Z) (c : TranscriptChallenges) : option (Quotient.arguments * Mersenne31Quartic) :=
  omega ← TWO_ADICITY_GENERATORS !! Size.TRACE_LEN_LOG2 L;
  '(setup, rest) ← split_at (Size.NUM_SETUP_OPENINGS L) (Skeleton.get_elements L P skeleton Skeleton.openings_at_z);
  '(witness, rest) ← split_at (Size.NUM_WITNESS_OPENINGS L) rest;
  '(memory, rest) ← split_at (Size.NUM_MEMORY_OPENINGS L) rest;
  '(stage_2, rest) ← split_at (Size.NUM_STAGE2_OPENINGS L) rest;
  match rest with
  | [quotient_opening] =>
      '(witness_next_row_set, rest) ← split_at (Size.NUM_WITNESS_OPENING_NEXT_ROW L)
                                        (Skeleton.get_elements L P skeleton Skeleton.openings_at_z_omega);
      '(memory_next_row_set, rest) ← split_at (Size.NUM_MEMORY_OPENING_NEXT_ROW L) rest;
      match rest with
      | [stage_2_next] =>
          witness_next_row ← scatter (Size.WITNESS_NEXT_ROW_OPENING_INDEXES L) witness_next_row_set
                               (replicate (Size.NUM_WITNESS_OPENINGS L) None);
          memory_next_row ← scatter (Size.MEMORY_NEXT_ROW_OPENING_INDEXES L) memory_next_row_set
                              (replicate (Size.NUM_MEMORY_OPENINGS L) None);
          stage_2_next_row ← scatter [Size.MEMORY_GRAND_PRODUCT_ACCUMULATOR_POLY_INDEX L] [stage_2_next]
                               (replicate (Size.NUM_STAGE2_OPENINGS L) None);
          divisors ← quotient_divisors (Size.TRACE_LEN_LOG2 L) (z c);
          let accumulators := Skeleton.get_elements L P skeleton Skeleton.delegation_argument_accumulator in
          let delegation_argument_accumulator_sum := nth 0 accumulators ZERO in
          let delegation := nth 0 (Skeleton.get_delegation_argument_challenges L P skeleton) default_delegation_challenges in
          let boundary := nth 0 (Skeleton.get_aux_boundary_values L P skeleton) default_boundary_values in
          let circuit_sequence_idx := Skeleton.get_circuit_sequence_idx L P skeleton in
          let shift := Z.of_nat (Size.CIRCUIT_SEQUENCE_BITS_SHIFT L) in
          if circuit_sequence_idx <=? Z.shiftr 0xffffffff shift then
            let memory_challenges := Skeleton.get_memory_argument_challenges L P skeleton in
            Some ({| Quotient.at_z := z c; Quotient.witness := witness; Quotient.memory := memory; Quotient.setup := setup;
                     Quotient.stage_2 := stage_2; Quotient.witness_next_row := witness_next_row;
                     Quotient.memory_next_row := memory_next_row; Quotient.stage_2_next_row := stage_2_next_row;
                     Quotient.alpha := quotient_alpha c; Quotient.beta := quotient_beta c; Quotient.divisors := divisors;
                     Quotient.lookup_linearization_challenges := lookup_argument_linearization_challenges c;
                     Quotient.lookup_gamma := lookup_argument_gamma c; Quotient.lookup_two_gamma := double (lookup_argument_gamma c);
                     Quotient.memory_linearization_challenges := memory_argument_linearization_challenges memory_challenges;
                     Quotient.memory_gamma := memory_argument_gamma memory_challenges;
                     Quotient.delegation_linearization_challenges := delegation_argument_linearization_challenges delegation;
                     Quotient.delegation_gamma := delegation_argument_gamma delegation;
                     Quotient.public_inputs := Skeleton.get_public_inputs L P skeleton;
                     Quotient.aux_proof_values :=
                       {| memory_grand_product_accumulator_final_value := Skeleton.get_memory_grand_product_accumulator L P skeleton;
                          delegation_argument_accumulator_sum := delegation_argument_accumulator_sum |};
                     Quotient.aux_boundary_values := boundary;
                     Quotient.memory_timestamp_high_from_circuit_sequence := shl32 circuit_sequence_idx shift;
                     Quotient.delegation_type := Skeleton.get_delegation_type L P skeleton;
                     Quotient.delegation_argument_interpolant_linear_coeff :=
                       negate (mul_assign_by_base delegation_argument_accumulator_sum omega) |}, quotient_opening)
          else None
      | _ => None
      end
  | _ => None
  end.

Definition check_quotient (skeleton : list Z) (c : TranscriptChallenges) : option unit :=
  '(arguments, quotient_opening) ← quotient_arguments skeleton c;
  if feq (evaluate_quotient arguments) quotient_opening then Some tt else None.

(** ** One query *)

Definition fri_parameters (skeleton : list Z) (c : TranscriptChallenges) (coset_index : Z) : FriParameters := {|
  Fri.FRI_FOLDING_SCHEDULE := Size.FRI_FOLDING_SCHEDULE P;
  Fri.LAST_FRI_STEP_EXPOSE_LEAFS := Size.LAST_FRI_STEP_EXPOSE_LEAFS L P;
  Fri.fri_folding_challenges := folding_challenges c;
  Fri.fri_final_step_leafs := nth (Z.to_nat coset_index) (Skeleton.get_fri_final_step_leafs L P skeleton) [];
  Fri.monomial_coeffs := Skeleton.get_elements L P skeleton Skeleton.monomial_coeffs;
|}.

(** The values at 0 and 1 of the four arrays of factors of the cosets *)
Definition coset_factor (table : list (option Mersenne31Complex)) (k : nat) (coset_index : Z) : option Mersenne31Complex :=
  if coset_index =? 0 then Some ONE else if coset_index =? 1 then mjoin (table !! k) else None.

Definition check_query (skeleton : list Z) (c : TranscriptChallenges) (query : list Z) (query_index : Z) : option unit :=
  if Query.get_query_index L P query =? query_index then
    let t := Size.TRACE_LEN_LOG2 L in
    let tree_index := Z.land query_index (Size.TREE_INDEX_MASK L) in
    let domain_index := bitreverse_for_bitlength tree_index t in
    let coset_index := Z.shiftr query_index (Z.of_nat t) in
    omega ← TWO_ADICITY_GENERATORS !! t;
    tau ← coset_factor (map Some TWO_ADICITY_GENERATORS) (t + Size.FRI_FACTOR_LOG2) coset_index;
    tau_inv ← coset_factor TWO_ADICITY_GENERATORS_INVERSED (t + Size.FRI_FACTOR_LOG2) coset_index;
    tau_in_domain_by_half ← coset_factor (map Some TWO_ADICITY_GENERATORS) (t + Size.FRI_FACTOR_LOG2 - (t - 1)) coset_index;
    tau_in_domain_by_half_inversed ← coset_factor TWO_ADICITY_GENERATORS_INVERSED (t + Size.FRI_FACTOR_LOG2 - (t - 1)) coset_index;
    let evaluation_point := mul_assign (pow omega domain_index) tau in
    let z_omega := mul_assign_by_base (z c) omega in
    '(inversed, all_nonzero) ← batch_inverse_checked
       [sub_assign_base (z c) evaluation_point; sub_assign_base z_omega evaluation_point];
    match (all_nonzero : bool), inversed with
    | true, [divisor_for_z; divisor_for_z_omega] =>
        expected_value ← deep_value modular_ext4_ops (deep_layout L)
          (Skeleton.get_elements L P skeleton Skeleton.openings_at_z)
          (Skeleton.get_elements L P skeleton Skeleton.openings_at_z_omega) (deep_poly_alpha c) (Query.row L P query)
          divisor_for_z divisor_for_z_omega tau_in_domain_by_half tau_in_domain_by_half_inversed;
        fri_query modular_ext4_ops (fri_parameters skeleton c coset_index) tau_in_domain_by_half tau_in_domain_by_half_inversed
          {| expected_value := expected_value; evaluation_point := evaluation_point; domain_size_log_2 := t;
             domain_index := domain_index; Fri.tree_index := tree_index; offset_inv := tau_inv |}
          (Query.leaf L P Query.fri_oracles_leafs query)
    | _, _ => None
    end
  else None.

(** [for query_round in 0..NUM_QUERIES] *)
Fixpoint check_queries (skeleton : list Z) (c : TranscriptChallenges) (queries : list (list Z)) (bit_iterator : BitSource)
    : option unit :=
  match queries with
  | [] => Some tt
  | query :: rest =>
      '(query_index, bit_iterator) ← assemble_query_index (Size.BITS_FOR_QUERY_INDEX L) bit_iterator;
      _ ← check_query skeleton c query (u32 query_index);
      check_queries skeleton c rest bit_iterator
  end.

(** ** The result *)

(** A field of the destination, an array of [n] elements *)
Definition array {A} (n : nat) (l : list A) : list A := take n l.

Definition write_output (skeleton : list Z) (dst : ProofOutput) : ProofOutput :=
  let delegations := Size.NUM_DELEGATION_CHALLENGES L in
  {| setup_caps := Skeleton.get_caps L P skeleton Skeleton.setup_caps;
     memory_caps := Skeleton.get_caps L P skeleton Skeleton.memory_caps;
     memory_challenges := Skeleton.get_memory_argument_challenges L P skeleton;
     delegation_challenges := if (0 <? delegations)%nat then Skeleton.get_delegation_argument_challenges L P skeleton
                              else array delegations (delegation_challenges dst);
     lazy_init_boundary_values := if (0 <? Size.NUM_AUX_BOUNDARY_VALUES L)%nat then Skeleton.get_aux_boundary_values L P skeleton
                                  else array (Size.NUM_AUX_BOUNDARY_VALUES L) (lazy_init_boundary_values dst);
     memory_grand_product_accumulator := Skeleton.get_memory_grand_product_accumulator L P skeleton;
     delegation_argument_accumulator := if (0 <? delegations)%nat
                                        then Skeleton.get_elements L P skeleton Skeleton.delegation_argument_accumulator
                                        else array delegations (delegation_argument_accumulator dst);
     circuit_sequence := Skeleton.get_circuit_sequence_idx L P skeleton;
     delegation_type := Skeleton.get_delegation_type L P skeleton |}.

Definition write_inputs (skeleton : list Z) (dst : ProofPublicInputs) : ProofPublicInputs :=
  let n := Size.NUM_STATE_ELEMENTS L in
  if (0 <? n)%nat then
    let inputs := Skeleton.get_public_inputs L P skeleton in
    {| input_state_variables := take n inputs; output_state_variables := take n (drop n inputs) |}
  else {| input_state_variables := array n (input_state_variables dst); output_state_variables := array n (output_state_variables dst) |}.

(** ** Verification *)

Context {H : Type} `{Blake2sHasher H} (V : LeafInclusionVerifier H).
(** Uninitialised memory of the two hashers, the skeleton and the queries *)
Context (verifier_slot transcript_slot : H) (skeleton_slot : list Z) (query_slots : list (list Z)).

Definition lift {A} (o : option A) : vprog H A := match o with Some a => ret a | None => panic "assertion failed" end.
(** A computation with the hasher of the transcript *)
Definition with_transcript {A} (m : hprog H A) : vprog H A := fun s =>
  match m (h_new transcript_slot) with Ok a _ => Ok a s | Trapped e _ => Trapped e s | Panic msg => Panic msg end.

Definition verify_proof (proof_state_dst : ProofOutput) (proof_input_dst : ProofPublicInputs)
    : vprog H (ProofOutput * ProofPublicInputs) :=
  let! (skeleton, queries) := read_proof L P V skeleton_slot query_slots in
  let! c := with_transcript (run_transcript L P skeleton) in
  let! _ := lift (check_quotient skeleton c) in
  let! _ := lift (check_queries skeleton c queries (new_bit_source (drop 1 (indexes_bits c)))) in
  ret (write_output skeleton proof_state_dst, write_inputs skeleton proof_input_dst).

Definition verify_with_configuration : VerifierFunctionPointer := fun proof_state_dst proof_input_dst o =>
  match verify_proof proof_state_dst proof_input_dst {| hasher := lv_new V verifier_slot; oracle := o |} with
  | Ok r s => Ok r (oracle s)
  | Trapped e s => Trapped e (oracle s)
  | Panic msg => Panic msg
  end.
End Verify.
