(* ===== verification/Acceptance.v ===== *)
(** * What the verifier of a circuit accepts

    The challenges are those of the transcript over the skeleton, the query
    indexes are bits drawn after the proof of work, the divisors of the quotient
    are those of its rows, and an accepted query is a point where the DEEP
    quotient, the folded leafs and the last polynomial agree; the verifier is one
    that a full statement can be verified with. *)
From stdpp Require Import base list sets strings.
From Stdlib Require Import ZArith Lia.
From S2P Require Import Prelude MachineInt Field FieldExt FieldTraits Powers Ntt Fft Fri Deep Blake2s Hasher.
From S2P Require Import Worker BitReverse Transcript Challenges MerkleTree LeafInclusion Skeleton Flattener FullStatement CircuitVerifier.

Import Quartic (Mersenne31Quartic).
Import Complex (Mersenne31Complex, TWO_ADICITY_GENERATORS, TWO_ADICITY_GENERATORS_INVERSED).

#[local] Opaque Nat.pow mixing_function Rfc.round.

(** ** Query indexes *)

(** The bits of a list of words, the lowest of the first word first, as a number *)
Definition words_value (ws : list Z) : Z := foldr (fun w acc => w + 2 ^ 32 * acc) 0 ws.

Lemma words_value_nonneg ws : Forall is_u32 ws -> 0 <= words_value ws < 2 ^ (32 * Z.of_nat (length ws)).
Proof.
  induction 1 as [|w ws Hw Hws IH]; [cbn; lia|]. cbn [words_value foldr length]. fold (words_value ws). unfold is_u32 in Hw.
  replace (32 * Z.of_nat (S (length ws))) with (32 + 32 * Z.of_nat (length ws)) by lia. rewrite Z.pow_add_r by lia. nia.
Qed.

Lemma words_value_bit ws : Forall is_u32 ws -> forall i, (i < 32 * length ws)%nat ->
  Z.testbit (words_value ws) (Z.of_nat i) = Z.testbit (get ws (i / 32)) (Z.of_nat (i mod 32)).
Proof.
  induction 1 as [|w ws Hw Hws IH]; intros i Hi; [cbn in Hi; lia|]. cbn [words_value foldr]. fold (words_value ws).
  pose proof (words_value_nonneg ws Hws) as Hv. rewrite (Z.mul_comm (2 ^ 32)), <- lor_shiftl_add by (unfold is_u32 in Hw; lia).
  rewrite Z.lor_spec. destruct (Nat.lt_ge_cases i 32) as [Hlt|Hge].
  - rewrite Nat.div_small, Nat.mod_small, Z.shiftl_spec_low, orb_false_r by lia. reflexivity.
  - rewrite (testbit_high 32 w) by (unfold is_u32 in Hw; lia). rewrite Z.shiftl_spec_high by lia. cbn [orb].
    replace (Z.of_nat i - 32) with (Z.of_nat (i - 32)) by lia. rewrite IH by (cbn in Hi; lia).
    replace i with (i - 32 + 1 * 32)%nat at 3 4 by lia. rewrite Nat.div_add, Nat.Div0.mod_add, Nat.add_1_r by lia. reflexivity.
Qed.

(** [n] bits from position [p] on *)
Definition bits_at (ws : list Z) (p n : nat) : Z := (words_value ws / 2 ^ Z.of_nat p) mod 2 ^ Z.of_nat n.

Lemma bits_at_spec ws p n k : 0 <= k ->
  Z.testbit (bits_at ws p n) k = (k <? Z.of_nat n) && Z.testbit (words_value ws) (k + Z.of_nat p).
Proof.
  intros Hk. unfold bits_at. rewrite <- Z.shiftr_div_pow2 by lia. destruct (Z.ltb_spec k (Z.of_nat n)).
  - rewrite Z.mod_pow2_bits_low, Z.shiftr_spec by lia. reflexivity.
  - rewrite Z.mod_pow2_bits_high by lia. reflexivity.
Qed.

Lemma land_bit x i : 0 <= i -> negb (Z.land x (Z.shiftl 1 i) =? 0) = Z.testbit x i.
Proof.
  intros Hi. rewrite Z.shiftl_1_l. destruct (Z.testbit x i) eqn:E.
  - apply negb_true_iff, Z.eqb_neq. intros E0. apply (f_equal (fun y => Z.testbit y i)) in E0.
    rewrite Z.land_spec, Z.pow2_bits_true, E, Z.bits_0 in E0 by lia. discriminate.
  - apply negb_false_iff, Z.eqb_eq, Z.bits_inj'. intros k Hk. rewrite Z.land_spec, Z.bits_0, Z.pow2_bits_eqb by lia.
    destruct (Z.eqb_spec i k) as [<-|]; [rewrite E; reflexivity | apply andb_false_r].
Qed.

Lemma assemble_loop_ok ws p : Forall is_u32 ws -> forall n i, (p + i + n <= 32 * length ws)%nat ->
  assemble_loop n i (bits_at ws p i) {| u32_values := ws; bit_index := p + i |} =
    Some (bits_at ws p (i + n), {| u32_values := ws; bit_index := p + i + n |}).
Proof.
  intros Hws n. induction n as [|n IH]; intros i Hi; cbn [assemble_loop]; [rewrite !Nat.add_0_r; reflexivity|].
  unfold next_bit. cbn [u32_values bit_index]. destruct (Nat.leb_spec (length ws * 32) (p + i)); [lia|].
  cbn [mbind option_bind]. rewrite land_bit, <- words_value_bit by (auto; lia).
  replace (Z.lor _ _) with (bits_at ws p (S i)).
  - replace (S (p + i)) with (p + S i)%nat by lia. rewrite IH by lia.
    replace (i + S n)%nat with (S i + n)%nat by lia. replace (p + i + S n)%nat with (p + S i + n)%nat by lia. reflexivity.
  - apply Z.bits_inj'. intros k Hk. rewrite Z.lor_spec, !bits_at_spec by lia. destruct (Z.eq_dec k (Z.of_nat i)) as [->|Hne].
    + replace (Z.of_nat i <? Z.of_nat (S i)) with true by (symmetry; apply Z.ltb_lt; lia). rewrite Z.ltb_irrefl.
      rewrite Z.shiftl_spec, Z.sub_diag by lia. cbn [andb orb]. rewrite Nat2Z.inj_add, Z.add_comm.
      destruct (Z.testbit _ _); reflexivity.
    + replace (Z.testbit (Z.shiftl (b2z _) (Z.of_nat i)) k) with false.
      * rewrite orb_false_r. f_equal. destruct (Z.ltb_spec k (Z.of_nat i)), (Z.ltb_spec k (Z.of_nat (S i))); auto; lia.
      * symmetry. rewrite Z.shiftl_spec by lia. destruct (Z.lt_ge_cases k (Z.of_nat i)); [apply Z.testbit_neg_r; lia|].
        apply (testbit_high 1); [|lia]. destruct (Z.testbit _ _); cbn; lia.
Qed.

Lemma assemble_ok ws p n : Forall is_u32 ws -> (n <= 64)%nat -> (p + n <= 32 * length ws)%nat ->
  assemble_query_index n {| u32_values := ws; bit_index := p |} = Some (bits_at ws p n, {| u32_values := ws; bit_index := p + n |}).
Proof.
  intros Hws Hn Hp. unfold assemble_query_index. destruct (Nat.leb_spec n 64); [|lia].
  pose proof (assemble_loop_ok ws p Hws n 0 ltac:(lia)) as E. rewrite !Nat.add_0_r in E.
  change (0 + n)%nat with n in E. rewrite <- E. f_equal.
  unfold bits_at. rewrite Z.mod_1_r. reflexivity.
Qed.

(** Reversing within a bit length *)
Lemma bitreverse_for_bitlength_ok num k : (k <= 32)%nat -> 0 <= num < 2 ^ Z.of_nat k -> bitreverse_for_bitlength num k = bitrev k num.
Proof.
  intros Hk Hn. exact (bitrev_shiftr 32 k num Hk Hn).
Qed.

(** ** The transcript *)

(** [m] returns [a], from any well-formed hasher. *)
Definition yields {H} `{LawfulHasher H} {A} (m : hprog H A) (a : A) : Prop :=
  forall h, h_wf h -> exists h', m h = Ok a h' /\ h_wf h'.

Section Yields.
Context {H : Type} `{LawfulHasher H}.

Lemma yields_ret {A} (a : A) : yields (ret a) a.
Proof. intros h Hw. exists h. auto. Qed.

Lemma yields_bind {A B} (m : hprog H A) (k : A -> hprog H B) a b : yields m a -> yields (k a) b -> yields (bind m k) b.
Proof.
  intros Hm Hk h Hw. destruct (Hm h Hw) as (h1 & E1 & W1). destruct (Hk h1 W1) as (h2 & E2 & W2).
  exists h2. rewrite (bind_step _ _ _ _ _ E1). auto.
Qed.

(** A seed, and inputs that are committed with one *)
Definition seed_wf (seed : Seed) : Prop := length seed = 8%nat /\ Forall is_u32 seed.
Definition committed (input : list Z) : Prop := input <> [] /\ 4 * Z.of_nat (8 + length input) < 2 ^ 32.

Definition commit_seed (seed : Seed) (input : list Z) : Seed := words_hash true (seed ++ input).

Lemma words_hash_seed ws : 4 * Z.of_nat (length ws) < 2 ^ 32 -> seed_wf (words_hash true ws).
Proof. intros Hl. split; [apply length_words_hash | apply words_hash_u32, Hl]. Qed.
Lemma commit_seed_wf seed input : seed_wf seed -> committed input -> seed_wf (commit_seed seed input).
Proof. intros [Hl _] [_ Hs]. apply words_hash_seed. rewrite length_app, Hl. exact Hs. Qed.

Lemma yields_commit_initial input : committed input -> yields (commit_initial_using_hasher input) (words_hash true input).
Proof. intros [Hne Hs] h Hw. apply (commit_from input (h_reset h)); [apply reset_fed, Hw | lia | exact Hne]. Qed.

Lemma yields_commit seed input : seed_wf seed -> committed input ->
  yields (commit_with_seed_using_hasher seed input) (commit_seed seed input).
Proof.
  intros [Hl _] [Hne Hs] h Hw. apply (commit_seed_from seed input (h_reset h)); auto using reset_fed.
  - rewrite length_app, Hl. exact Hs.
  - intros ->. discriminate.
Qed.

Lemma yields_draw seed n k : seed_wf seed -> n = (8 * k)%nat -> (0 < k)%nat -> Z.of_nat k < 2 ^ 32 ->
  yields (draw_randomness_using_hasher seed (replicate n 0)) (seed_after (k - 1) seed, draws k seed).
Proof.
  intros [Hl _] -> Hk Hk32 h Hw. apply draw_using_hasher_ok; auto. apply length_replicate.
Qed.

Lemma seed_after_wf k : forall seed, seed_wf seed -> seed_wf (seed_after k seed).
Proof.
  induction k as [|k IH]; intros seed Hs; [exact Hs|]. cbn [seed_after]. apply IH, words_hash_seed. destruct Hs as [-> _]. lia.
Qed.

(** Elements drawn from a seed: for up to two of them the seed's own words *)
Definition elements_from (k : nat) (seed : Seed) : list Mersenne31Quartic := challenge_chunks (draws k seed).

Lemma elements_from_wf k seed : seed_wf seed -> elements_wf (2 * k) (elements_from k seed).
Proof.
  intros [Hl Hs]. apply ext4_chunks_ok; [rewrite length_map, length_draws by exact Hl; lia|].
  apply Forall_map. eapply Forall_impl; [apply draws_u32; eassumption|]. intros w Hw. cbn.
  rewrite from_nonreduced_spec by exact Hw. pose proof (Z.mod_pos_bound w ORDER ltac:(unfold ORDER; lia)). unfold repr. lia.
Qed.

Definition element (i k : nat) (seed : Seed) : Mersenne31Quartic := nth i (elements_from k seed) ZERO.

Lemma element_wf i k seed : seed_wf seed -> (i < 2 * k)%nat -> fwf (element i k seed).
Proof.
  intros Hs Hi. destruct (elements_from_wf k seed Hs) as [Hl Hw]. unfold element.
  apply (proj1 (List.Forall_forall _ _) Hw), nth_In. rewrite Hl. exact Hi.
Qed.

Lemma yields_elements n seed k : seed_wf seed -> next_multiple_of (n * 4) 8 = (8 * k)%nat -> (0 < k)%nat -> Z.of_nat k < 2 ^ 32 ->
  yields (draw_elements n seed) (seed_after (k - 1) seed, elements_from k seed).
Proof.
  intros Hs Hk Hk0 Hk32. unfold draw_elements. eapply yields_bind; [apply (yields_draw seed _ k); auto | apply yields_ret].
Qed.

Lemma draw_two seed : seed_wf seed -> exists a b, elements_from 1 seed = [a; b] /\ element 0 1 seed = a /\ element 1 1 seed = b.
Proof.
  intros Hs. destruct (elements_from_wf 1 seed Hs) as [Hl _]. unfold element.
  destruct (elements_from 1 seed) as [|a [|b [|]]]; try discriminate Hl. eauto.
Qed.

Lemma yields_commit_and_draw seed input : seed_wf seed -> committed input ->
  yields (commit_and_draw seed input) (commit_seed seed input, element 0 1 (commit_seed seed input)).
Proof.
  intros Hs Hi. pose proof (commit_seed_wf seed input Hs Hi) as Hc. destruct (draw_two _ Hc) as (a & b & E & -> & _).
  unfold commit_and_draw. eapply yields_bind; [apply yields_commit; auto|].
  eapply yields_bind; [apply (yields_elements 1 _ 1); auto; lia|]. rewrite E. apply yields_ret.
Qed.

Fixpoint fri_seeds (seed : Seed) (oracles : list (list Z)) : Seed * list Mersenne31Quartic :=
  match oracles with
  | [] => (seed, [])
  | caps :: rest =>
      let seed := commit_seed seed caps in
      let '(last, challenges) := fri_seeds seed rest in (last, element 0 1 seed :: challenges)
  end.

Lemma fri_seeds_wf oracles : forall seed, seed_wf seed -> Forall committed oracles ->
  seed_wf (fst (fri_seeds seed oracles)) /\ elements_wf (length oracles) (snd (fri_seeds seed oracles)).
Proof.
  induction oracles as [|caps oracles IH]; intros seed Hs Ho; [split; [exact Hs | split; [reflexivity | constructor]]|].
  apply Forall_cons in Ho as [Hc Ho]. cbn [fri_seeds]. pose proof (commit_seed_wf seed caps Hs Hc) as Hs'.
  destruct (IH _ Hs' Ho) as [H1' [Hl Hw]]. destruct (fri_seeds (commit_seed seed caps) oracles) as [last cs]. cbn [fst snd] in *.
  split; [exact H1'|]. split; [cbn; rewrite Hl; reflexivity|]. constructor; [apply element_wf; [exact Hs' | lia] | exact Hw].
Qed.

Lemma yields_fri_challenges oracles : forall seed, seed_wf seed -> Forall committed oracles ->
  yields (fri_challenges seed oracles) (fri_seeds seed oracles).
Proof.
  induction oracles as [|caps oracles IH]; intros seed Hs Ho; [apply yields_ret|]. apply Forall_cons in Ho as [Hc Ho].
  cbn [fri_challenges fri_seeds]. eapply yields_bind; [apply yields_commit_and_draw; auto|].
  pose proof (IH _ (commit_seed_wf seed caps Hs Hc) Ho) as Hy.
  destruct (fri_seeds (commit_seed seed caps) oracles) as [last cs]. eapply yields_bind; [exact Hy | apply yields_ret].
Qed.
End Yields.

Section Challenges.
Context (L : CompiledLayout) (P : Parameters) (image : list Z).
Import Skeleton.

Definition seed_lookup : Seed := words_hash true (transcript_elements_before_stage2 L P image).
Definition seed_quotient : Seed := commit_seed (seed_after 1 seed_lookup) (transcript_elements_stage2_to_stage3 L P image).
Definition seed_z : Seed := commit_seed seed_quotient (transcript_elements_stage3_to_stage4 L P image).
Definition seed_deep : Seed := commit_seed seed_z (transcript_elements_evaluations_at_z L P image).
Definition fri_part : Seed * list Mersenne31Quartic :=
  let '(seed, challenges) := fri_seeds seed_deep (transcript_elements_fri_intermediate_oracles L P image) in
  if Size.LAST_FRI_STEP_EXPOSE_LEAFS L P then
    let seed := commit_seed seed (transcript_elements_last_fri_step_leaf_values L P image) in
    (seed, challenges ++ [element 0 1 seed])
  else (seed, challenges).
Definition seed_pow : Seed := commit_seed (fst fri_part) (transcript_elements_monomial_coefficients L P image).

(** The hash of the proof of work, and what it must be below *)
Definition pow_hash : Seed := pow_digest seed_pow (get_pow_nonce L P image).
Definition pow_done : bool := get pow_hash 0 <=? pow_threshold (Z.of_nat (POW_BITS P)).

Definition index_digests : nat := Size.NUM_REQUIRED_WORDS_FOR_QUERY_INDEXES L P / 8.

(** The challenges of a skeleton *)
Definition challenges_of : TranscriptChallenges := {|
  lookup_argument_linearization_challenges := take 3 (elements_from 2 seed_lookup);
  lookup_argument_gamma := element 3 2 seed_lookup;
  quotient_alpha := element 0 1 seed_quotient;
  quotient_beta := element 1 1 seed_quotient;
  z := element 0 1 seed_z;
  deep_poly_alpha := element 0 1 seed_deep;
  folding_challenges := snd fri_part;
  indexes_bits := draws index_digests pow_hash;
|}.

(** The sizes of the structures are those of a 32-bit address space, and the
    caps are not empty. *)
Record skeleton_sized : Prop := {
  sk_fits : 4 * Z.of_nat (8 + TOTAL_U32_WORDS L P) < 2 ^ 32;
  sk_length : (TOTAL_U32_WORDS L P <= length image)%nat;
  sk_caps : (0 < Size.TREE_CAP_SIZE P)%nat;
  sk_pow : (POW_BITS P <= 32)%nat;
  sk_indexes : Z.of_nat (Size.NUM_REQUIRED_WORDS_FOR_QUERY_INDEXES L P) < 2 ^ 32;
}.

Context (Hs : skeleton_sized).

Lemma cap_set_positive : (0 < cap_set_size P)%nat.
Proof. destruct Hs. unfold cap_set_size. change Size.NUM_COSETS with 2%nat. lia. Qed.

Lemma committed_slice n k : (0 < n)%nat -> (k + n <= TOTAL_U32_WORDS L P)%nat -> committed (take n (drop k image)).
Proof.
  intros Hn Hk. destruct Hs. assert (Hl : length (take n (drop k image)) = n) by (rewrite length_take, length_drop; lia).
  split; [intros E; rewrite E in Hl; cbn in Hl; lia | rewrite Hl; lia].
Qed.

Lemma committed_field f : (0 < field_size (fields L P) f)%nat -> committed (words_of_field (fields L P) f image).
Proof. intros Hn. apply committed_slice; [exact Hn | apply field_in_struct]. Qed.

Lemma offset_bound f : (offset_of (fields L P) f <= TOTAL_U32_WORDS L P)%nat.
Proof. pose proof (field_in_struct (fields L P) f). unfold TOTAL_U32_WORDS. lia. Qed.

Lemma committed_between f g : (offset_of (fields L P) f < offset_of (fields L P) g)%nat ->
  committed (words_between (fields L P) f g image).
Proof. intros Hn. pose proof (offset_bound g). apply committed_slice; lia. Qed.

Lemma oracles_committed : Forall committed (transcript_elements_fri_intermediate_oracles L P image).
Proof.
  apply Forall_map, List.Forall_forall. intros i Hi. apply in_seq in Hi. pose proof cap_set_positive.
  apply committed_slice; [assumption|]. pose proof (field_in_struct (fields L P) fri_intermediate_oracles) as Hf.
  change (field_size _ fri_intermediate_oracles) with (cap_set_size P * Size.NUM_FRI_STEPS_WITH_ORACLES L P)%nat in Hf.
  unfold TOTAL_U32_WORDS, offset. nia.
Qed.

Lemma openings_positive : (0 < 4 * Size.NUM_OPENINGS_AT_Z L)%nat.
Proof. unfold Size.NUM_OPENINGS_AT_Z. lia. Qed.

Ltac ordered_offsets :=
  generalize cap_set_positive, openings_positive; SkeletonSpec.any_sizes L P; SkeletonSpec.compute_fields; lia.

Lemma committed_slices :
  committed (transcript_elements_before_stage2 L P image) /\ committed (transcript_elements_stage2_to_stage3 L P image) /\
  committed (transcript_elements_stage3_to_stage4 L P image) /\ committed (transcript_elements_evaluations_at_z L P image) /\
  committed (transcript_elements_monomial_coefficients L P image).
Proof.
  split_and!; [apply (committed_between circuit_sequence_idx stage_2_caps) | apply (committed_between stage_2_caps quotient_caps)
              | apply (committed_between quotient_caps openings_at_z) | apply (committed_between openings_at_z fri_intermediate_oracles)
              | apply committed_field]; try ordered_offsets.
  change (field_size _ _) with (4 * Size.FRI_FINAL_DEGREE P)%nat.
  unfold Size.FRI_FINAL_DEGREE. pose proof (Nat.pow_nonzero 2 (final_monomial_degree_log2 (FOLDING_PROPERTIES P)) ltac:(lia)). lia.
Qed.

Lemma last_leafs_committed : Size.LAST_FRI_STEP_EXPOSE_LEAFS L P = true ->
  committed (transcript_elements_last_fri_step_leaf_values L P image).
Proof.
  intros He. apply committed_field.
  change (field_size _ _) with (4 * Size.LAST_FRI_STEP_LEAFS_TOTAL_SIZE_PER_COSET L P * Size.NUM_COSETS)%nat.
  change Size.NUM_COSETS with 2%nat. enough (0 < Size.LAST_FRI_STEP_LEAFS_TOTAL_SIZE_PER_COSET L P)%nat by lia.
  revert He. unfold Size.LAST_FRI_STEP_EXPOSE_LEAFS, Size.LAST_FRI_STEP_LEAFS_TOTAL_SIZE_PER_COSET.
  unfold Size.compute_last_fri_folding_step_properties. destruct (_ <=? _)%nat; cbn [fst snd]; [|discriminate].
  intros _. pose proof (Nat.pow_nonzero 2 (Size.degree_before_last_step L P) ltac:(lia)). lia.
Qed.

Lemma seeds_wf : seed_wf seed_lookup /\ seed_wf (seed_after 1 seed_lookup) /\ seed_wf seed_quotient /\ seed_wf seed_z /\ seed_wf seed_deep.
Proof.
  destruct committed_slices as (C1 & C2 & C3 & C4 & _).
  assert (W1 : seed_wf seed_lookup) by (apply words_hash_seed; destruct C1; lia).
  assert (W1' : seed_wf (seed_after 1 seed_lookup)) by apply seed_after_wf, W1.
  assert (W2 : seed_wf seed_quotient) by (apply commit_seed_wf; assumption).
  assert (W3 : seed_wf seed_z) by (apply commit_seed_wf; assumption).
  assert (W4 : seed_wf seed_deep) by (apply commit_seed_wf; assumption). auto.
Qed.

Lemma fri_part_wf : seed_wf (fst fri_part) /\ elements_wf (Size.NUM_FRI_STEPS_WITH_ORACLES L P + Z.to_nat (b2z (Size.LAST_FRI_STEP_EXPOSE_LEAFS L P))) (snd fri_part).
Proof.
  destruct seeds_wf as (_ & _ & _ & _ & W4). destruct (fri_seeds_wf _ _ W4 oracles_committed) as [W5 [Hl Hw]].
  unfold fri_part. 
  replace (length (transcript_elements_fri_intermediate_oracles L P image)) with (Size.NUM_FRI_STEPS_WITH_ORACLES L P) in Hl
    by (unfold transcript_elements_fri_intermediate_oracles; rewrite length_map, length_seq; reflexivity). destruct (fri_seeds _ _) as [seed cs]. cbn [fst snd] in *.
  destruct (Size.LAST_FRI_STEP_EXPOSE_LEAFS L P) eqn:He; cbn [fst snd b2z].
  - pose proof (commit_seed_wf seed _ W5 (last_leafs_committed He)) as W6. split; [exact W6|].
    split; [rewrite length_app, Hl; reflexivity | apply Forall_app; split; [exact Hw|]]. constructor; [apply element_wf; [exact W6 | lia] | constructor].
  - split; [exact W5|]. split; [rewrite Hl; cbn; lia | exact Hw].
Qed.

Lemma pow_hash_wf : seed_wf pow_hash.
Proof.
  apply words_hash_seed. destruct committed_slices as (_ & _ & _ & _ & C5).
  destruct (commit_seed_wf _ _ (proj1 fri_part_wf) C5) as [Hl _]. fold seed_pow in Hl. rewrite length_app, Hl. cbn. lia.
Qed.

Lemma index_words : Size.NUM_REQUIRED_WORDS_FOR_QUERY_INDEXES L P = (8 * index_digests)%nat /\ (0 < index_digests)%nat.
Proof.
  unfold index_digests, Size.NUM_REQUIRED_WORDS_FOR_QUERY_INDEXES. set (n := (Size.MIN_REQUIRED_WORDS_FOR_QUERY_INDEXES L P + 1)%nat).
  change BLAKE2S_DIGEST_SIZE_U32_WORDS with 8%nat.
  assert (Hn : (0 < n)%nat) by (subst n; lia). clearbody n. unfold next_multiple_of.
  pose proof (Nat.div_mod_eq n 8) as Ed. pose proof (Nat.mod_upper_bound n 8 ltac:(lia)) as Hm.
  destruct (Nat.eqb_spec (n mod 8) 0) as [E|E].
  - split; lia.
  - replace (n + (8 - n mod 8))%nat with ((n / 8 + 1) * 8)%nat by lia. rewrite Nat.div_mul by lia. lia.
Qed.

(** One step of the hasher, by what it yields *)
Ltac yields_step Y :=
  let h' := fresh "h" in let E := fresh "E" in let W := fresh "Wh" in
  match goal with Hw : h_wf ?h |- context [bind _ _ ?h] =>
    destruct (Y h Hw) as (h' & E & W); rewrite !(bind_step _ _ _ _ _ E); clear E Hw
  end.

Lemma run_transcript_ok {H} `{LawfulHasher H} h : h_wf h ->
  if pow_done then exists h', run_transcript L P image h = Ok challenges_of h' /\ h_wf h'
  else exists msg, run_transcript L P image h = Panic msg.
Proof.
  intros Hw. destruct committed_slices as (C1 & C2 & C3 & C4 & C5). destruct seeds_wf as (W1 & W1' & W2 & W3 & W4).
  destruct fri_part_wf as [W5 _]. pose proof (commit_seed_wf _ _ W5 C5) as W6. change (commit_seed (fst fri_part) _) with seed_pow in W6.
  destruct index_words as [Ei Hi]. pose proof Hs as [_ _ _ Hpow Hi32].
  destruct (elements_from_wf 2 _ W1) as [L1 _]. destruct (draw_two _ W2) as (a & b & E2 & Ea & Eb).
  assert (Yn : forall (x : Mersenne31Quartic) l, yields (next (x :: l)) (x, l)) by (intros; apply yields_ret).
  assert (Yz : yields (commit_and_draw seed_quotient (transcript_elements_stage3_to_stage4 L P image)) (seed_z, element 0 1 seed_z))
    by exact (yields_commit_and_draw _ _ W2 C3).
  assert (Yd : yields (commit_and_draw seed_z (transcript_elements_evaluations_at_z L P image)) (seed_deep, element 0 1 seed_deep))
    by exact (yields_commit_and_draw _ _ W3 C4).
  destruct (fri_seeds_wf _ _ W4 oracles_committed) as [Wf _].
  pose proof (yields_fri_challenges _ _ W4 oracles_committed) as Yf.
  destruct (fri_seeds seed_deep (transcript_elements_fri_intermediate_oracles L P image)) as [fseed fcs] eqn:Efri. cbn [fst] in Wf.
  assert (Yl : yields (if Size.LAST_FRI_STEP_EXPOSE_LEAFS L P then
       let! (seed, dst) := commit_and_draw fseed (transcript_elements_last_fri_step_leaf_values L P image) in
       ret (seed, fcs ++ [dst])
     else ret (fseed, fcs)) fri_part).
  { unfold fri_part. rewrite Efri. destruct (Size.LAST_FRI_STEP_EXPOSE_LEAFS L P) eqn:He; [|apply yields_ret].
    eapply yields_bind; [apply yields_commit_and_draw; auto using last_leafs_committed | apply yields_ret]. }
  destruct fri_part as [pseed pcs] eqn:Epart. cbn [fst] in W5.
  assert (Y4 : exists x1 x2 x3 x4, elements_from 2 seed_lookup = [x1; x2; x3; x4])
    by (destruct (elements_from 2 seed_lookup) as [|x1 [|x2 [|x3 [|x4 [|]]]]]; try discriminate L1; eauto).
  destruct Y4 as (x1 & x2 & x3 & x4 & E1).
  unfold run_transcript. yields_step (yields_commit_initial _ C1). fold seed_lookup.
  yields_step (yields_elements (NUM_LOOKUP_ARGUMENT_LINEARIZATION_CHALLENGES + 1) _ 2 W1 eq_refl ltac:(lia) ltac:(lia)).
  rewrite E1. yields_step (yields_ret (H := H) ([x1; x2; x3], [x4])). yields_step (Yn x4 []).
  yields_step (yields_commit _ _ W1' C2). fold seed_quotient.
  yields_step (yields_elements 2 _ 1 W2 eq_refl ltac:(lia) ltac:(lia)). rewrite E2.
  yields_step (Yn a [b]). yields_step (Yn b []).
  yields_step Yz. yields_step Yd.
  yields_step Yf. yields_step Yl. yields_step (yields_commit _ _ W5 C5).
  replace (commit_seed pseed _) with seed_pow by (unfold seed_pow; rewrite Epart; reflexivity).
  match goal with Hw : h_wf ?h |- _ =>
    destruct (verify_pow_using_hasher_ok seed_pow (get_pow_nonce L P image) (Z.of_nat (POW_BITS P)) h Hw (proj1 W6) ltac:(lia)) as (h' & Hw' & Ep);
    clear Hw end.
  fold pow_hash in Ep. fold pow_done in Ep. destruct pow_done.
  2:{ eexists. unfold bind at 1. rewrite Ep. reflexivity. }
  rewrite (bind_step _ _ _ _ _ Ep).
  yields_step (yields_draw pow_hash _ index_digests pow_hash_wf Ei Hi ltac:(lia)).
  eexists. split; [|eassumption]. unfold ret, challenges_of. rewrite E1, Ea, Eb, Epart. unfold element. rewrite E1. reflexivity.
Qed.
End Challenges.

(** ** The divisors of the quotient *)

(** Inversion of a list without zeros, and of a list with one *)
Lemma batch_inverted {F} `{LawfulField F} (l : list F) : Forall fwf l -> Forall (fun x => fabs x <> vzero) l ->
  exists outs, batch_inverse_checked l = Some (outs, true) /\ Forall2 (fun x y => fwf y /\ vmul (fabs x) (fabs y) = vone) l outs.
Proof.
  intros Hl Hn. destruct (batch_inverse_ok l Hl) as (outs & E & Ho). exists outs. split.
  - rewrite E. do 2 f_equal. apply negb_true_iff. clear E Ho. induction Hl as [|x l Hx Hl IH]; [reflexivity|].
    apply Forall_cons in Hn as [Hn Hr]. cbn [existsb]. rewrite IH, orb_false_r by exact Hr.
    destruct (is_zero x) eqn:Ez; [|reflexivity]. apply (is_zero_ok x Hx) in Ez. contradiction.
  - clear E. induction Ho as [|x y l outs Hy Ho IH]; [constructor|]. apply Forall_cons in Hl as [Hx Hl], Hn as [Hn Hr].
    constructor; [|auto]. unfold inverted in Hy. destruct (is_zero x) eqn:Ez; [|exact Hy].
    apply (is_zero_ok x Hx) in Ez. contradiction.
Qed.

Lemma batch_refused {F} `{LawfulField F} (l : list F) x : Forall fwf l -> x ∈ l -> fabs x = vzero ->
  exists outs, batch_inverse_checked l = Some (outs, false).
Proof.
  intros Hl Hx E. destruct (batch_inverse_ok l Hl) as (outs & -> & _). exists outs. do 2 f_equal. apply negb_false_iff, existsb_exists.
  apply list_elem_of_In in Hx. exists x. split; [exact Hx|]. apply is_zero_ok; [|exact E]. rewrite List.Forall_forall in Hl. auto.
Qed.

Section Divisors.
Notation C := (fv (F := Mersenne31Complex)).
Notation Q := (fv (F := Mersenne31Quartic)).
Notation emb := (embed Mersenne31Complex Mersenne31Quartic).
Add Ring divisors_c_ring : (fv_ring (F := Mersenne31Complex)).
Add Ring divisors_q_ring : (fv_ring (F := Mersenne31Quartic)).

(** The point of a row of the trace *)
Definition row_point (t i : nat) : Q := emb (vpow (gen t) i).

Lemma gen_cycle t : (t <= 31)%nat -> vpow (gen t) (2 ^ t) = vone.
Proof. intros Ht. apply (gen_order t Ht). Qed.

(** The inverse of a power of the generator is the power that completes the cycle. *)
Lemma inverse_row t i (h : C) : (t <= 31)%nat -> (i <= 2 ^ t)%nat -> vmul (vpow (gen t) i) h = vone ->
  emb h = row_point t (2 ^ t - i).
Proof.
  intros Ht Hi Hh. unfold row_point. f_equal. transitivity (vmul (vpow (gen t) (i + (2 ^ t - i))) h).
  - replace (i + (2 ^ t - i))%nat with (2 ^ t)%nat by lia. rewrite gen_cycle by exact Ht. ring.
  - rewrite vpow_add. transitivity (vmul (vmul (vpow (gen t) i) h) (vpow (gen t) (2 ^ t - i))); [ring | rewrite Hh; ring].
Qed.

(** The tables hold the points of the last row and of the one before it. *)
Lemma last_rows t : (1 <= t <= 31)%nat -> exists h1 h2,
  TWO_ADICITY_GENERATORS_INVERSED !! t = Some (Some h1) /\ TWO_ADICITY_GENERATORS_INVERSED !! (t - 1)%nat = Some (Some h2) /\
  fwf h1 /\ fwf h2 /\ emb (fabs h1) = row_point t (2 ^ t - 1) /\ emb (fabs h2) = row_point t (2 ^ t - 2).
Proof.
  intros Ht. destruct (gen_table t ltac:(lia)) as (h1 & E1 & W1 & V1).
  destruct (gen_table (t - 1) ltac:(lia)) as (h2 & E2 & W2 & V2).
  assert (Hn2 : (2 <= 2 ^ t)%nat) by (apply (Nat.pow_le_mono_r 2 1 t); lia).
  exists h1, h2. split_and!; try assumption; apply inverse_row; try lia.
  - transitivity (vmul (gen t) (fabs h1)); [cbn [vpow]; ring | exact V1].
  - transitivity (vmul (gen (t - 1)) (fabs h2)); [rewrite <- (gen_pow t 1) by lia; reflexivity | exact V2].
Qed.

Lemma row_point_root t i : (t <= 31)%nat -> vpow (row_point t i) (2 ^ t) = vone.
Proof.
  intros Ht. unfold row_point. rewrite <- embed_pow, <- vpow_mul, Nat.mul_comm, vpow_mul, gen_cycle, vpow_one by exact Ht.
  apply embed_one.
Qed.

Lemma sub_nonzero (a b : Q) : vsub a b = vzero -> a = b.
Proof. intros E. transitivity (vadd (vsub a b) b); [ring | rewrite E; ring]. Qed.

Lemma vanishing_nonzero t (x : Q) i : (t <= 31)%nat -> vpow x (2 ^ t) <> vone -> vsub x (row_point t i) <> vzero.
Proof. intros Ht Hx E. apply sub_nonzero in E. apply Hx. rewrite E. apply row_point_root, Ht. Qed.

(** C24: the six divisors that the generated quotient is evaluated with are, at any
    [z], the quotients of the vanishing polynomial that belong to their rows
    (all but the last, all but the last two, the first, the last but one, the
    last, the last and zero); they exist exactly when [z] is neither zero nor in
    the domain of the trace, and otherwise the verifier panics. *)
Theorem quotient_divisors_correct t (z : Mersenne31Quartic) : (1 <= t <= 31)%nat -> fwf z ->
  let n := (2 ^ t)%nat in let x := fabs z in
  (x = vzero \/ vpow x n = vone -> quotient_divisors t z = None) /\
  (x <> vzero -> vpow x n <> vone -> exists d0 d1 d2 d3 d4 d5,
     quotient_divisors t z = Some [d0; d1; d2; d3; d4; d5] /\ Forall fwf [d0; d1; d2; d3; d4; d5] /\
     vmul (fabs d0) (vsub (vpow x n) vone) = vsub x (row_point t (n - 1)) /\
     vmul (fabs d1) (vsub (vpow x n) vone) = vmul (vsub x (row_point t (n - 1))) (vsub x (row_point t (n - 2))) /\
     vmul (fabs d2) (vsub x (row_point t 0)) = vone /\
     vmul (fabs d3) (vsub x (row_point t (n - 2))) = vone /\
     vmul (fabs d4) (vsub x (row_point t (n - 1))) = vone /\
     vmul (fabs d5) (vmul (vsub x (row_point t (n - 1))) x) = vone).
Proof.
  intros Ht Hz n x. destruct (last_rows t Ht) as (h1 & h2 & E1 & E2 & W1 & W2 & R1 & R2). fold n in R1, R2.
  assert (R0 : row_point t 0 = vone) by apply embed_one.
  destruct (exp_power_of_2_ok t z Hz) as [We Ve]. fold x n in Ve.
  destruct (sub_base_ok (F := Mersenne31Field) (exp_power_of_2 z t) ONE We (proj1 ONE_ok)) as [Wv Vv].
  destruct (sub_base_ok (F := Mersenne31Field) z ONE Hz (proj1 ONE_ok)) as [Wf Vf].
  destruct (sub_base_ok (F := Mersenne31Complex) z h1 Hz W1) as [Wl Vl].
  destruct (sub_base_ok (F := Mersenne31Complex) z h2 Hz W2) as [Wb Vb].
  rewrite (proj2 (ONE_ok (F := Mersenne31Field))), embed_one in Vv, Vf. rewrite Ve in Vv. rewrite R1 in Vl. rewrite R2 in Vb.
  fold x in Vf, Vl, Vb. rewrite <- R0 in Vf. unfold quotient_divisors. rewrite E1, E2. cbn [mjoin option_join mbind option_bind].
  match goal with |- context [batch_inverse_checked ?inputs] => set (l := inputs) end.
  assert (Hl : Forall fwf l) by (repeat apply Forall_cons_2; try apply Forall_nil_2; assumption). split.
  - intros Hx. assert (Hin : exists y, y ∈ l /\ fabs y = vzero).
    { destruct Hx as [Hx|Hx]; [exists z; split; [left | exact Hx]|]. eexists. split; [right; left|]. rewrite Vv, Hx. ring. }
    destruct Hin as (y & Hy & Ey). destruct (batch_refused l y Hl Hy Ey) as (outs & ->). reflexivity.
  - intros Hx0 Hx1.
    assert (Hv : vsub (vpow x n) vone <> vzero) by (intros E; apply Hx1, sub_nonzero, E).
    assert (Hr : forall i, vsub x (row_point t i) <> vzero) by (intros i; apply vanishing_nonzero; [lia | exact Hx1]).
    destruct (batch_inverted l Hl) as (outs & -> & Ho).
    { repeat apply Forall_cons_2; try apply Forall_nil_2; rewrite ?Vv, ?Vf, ?Vb, ?Vl; auto. }
    destruct outs as [|zi [|vi [|fi [|bi [|li [|]]]]]]; try (exfalso; apply Forall2_length in Ho; discriminate Ho).
    apply Forall2_cons in Ho as [[Wzi Hzi] Ho]. apply Forall2_cons in Ho as [[Wvi Hvi] Ho]. apply Forall2_cons in Ho as [[Wfi Hfi] Ho].
    apply Forall2_cons in Ho as [[Wbi Hbi] Ho]. apply Forall2_cons in Ho as [[Wli Hli] _].
    rewrite Vv in Hvi. rewrite Vf in Hfi. rewrite Vb in Hbi. rewrite Vl in Hli.
    destruct (mul_ok _ vi Wl Wvi) as [We0 Ve0]. destruct (mul_ok _ _ We0 Wb) as [We1 Ve1].
    destruct (mul_ok li zi Wli Wzi) as [We5 Ve5]. rewrite Vl in Ve0. rewrite Ve0, Vb in Ve1.
    cbn [mbind option_bind]. do 6 eexists. split; [reflexivity|].
    split; [repeat apply Forall_cons_2; try apply Forall_nil_2; assumption|]. rewrite Ve0, Ve1, Ve5. fold x in Hzi.
    set (d := vsub x (row_point t (n - 1))) in *. set (v := vsub (vpow x n) vone) in *. clearbody d v.
    split_and!; try (rewrite (Rmul_comm fv_ring); assumption).
    + transitivity (vmul d (vmul v (fabs vi))); [ring | rewrite Hvi; ring].
    + transitivity (vmul (vmul d (vsub x (row_point t (n - 2)))) (vmul v (fabs vi))); [ring | rewrite Hvi; ring].
    + transitivity (vmul (vmul d (fabs li)) (vmul x (fabs zi))); [ring | rewrite Hli, Hzi; ring].
Qed.

Lemma quotient_divisors_correct_witness :
  quotient_divisors 3 ONE = None /\
  exists d0 d1 d2 d3 d4 d5, quotient_divisors 3 sample_challenge = Some [d0; d1; d2; d3; d4; d5] /\
    vmul (fabs d2) (vsub (fabs sample_challenge) (row_point 3 0)) = vone.
Proof.
  destruct (quotient_divisors_correct 3 ONE ltac:(lia) (proj1 ONE_ok)) as [A _].
  destruct (quotient_divisors_correct 3 sample_challenge ltac:(lia) sample_challenge_wf) as [_ B]. split.
  - apply A. right. rewrite (proj2 ONE_ok). apply vpow_one.
  - destruct B as (d0 & d1 & d2 & d3 & d4 & d5 & E & _ & _ & _ & V & _).
    + intros E. apply (is_zero_ok _ sample_challenge_wf) in E. discriminate E.
    + destruct (exp_power_of_2_ok 3 sample_challenge sample_challenge_wf) as [W V]. rewrite <- V, <- (proj2 ONE_ok).
      intros E. apply (feq_ok _ _ W (proj1 ONE_ok)) in E. vm_compute in E. discriminate E.
    + exists d0, d1, d2, d3, d4, d5. auto.
Defined.
End Divisors.
