(* ===== verification/QueryStatement.v ===== *)
(** * What an accepted query establishes

    One query of [verify_with_configuration]: the point it names, the value of
    the DEEP polynomial there, and the FRI steps that start from it. *)
From stdpp Require Import base list sets strings.
From Stdlib Require Import ZArith Lia.
From S2P Require Import Prelude MachineInt Field FieldExt FieldTraits Powers Ntt Fft Fri Deep FriChain Blake2s Hasher.
From S2P Require Import Worker BitReverse Transcript Challenges MerkleTree LeafInclusion Skeleton Flattener FullStatement CircuitVerifier Acceptance.

Import Quartic (Mersenne31Quartic).
Import Complex (Mersenne31Complex, TWO_ADICITY_GENERATORS, TWO_ADICITY_GENERATORS_INVERSED).

#[local] Opaque Nat.pow mixing_function Rfc.round.

Section Query.
Notation C := (fv (F := Mersenne31Complex)).
Notation Q := (fv (F := Mersenne31Quartic)).
Notation emb := (embed Mersenne31Complex Mersenne31Quartic).
Add Ring query_c_ring : (fv_ring (F := Mersenne31Complex)).
Add Ring query_q_ring : (fv_ring (F := Mersenne31Quartic)).

(** ** The point of a query *)

Section Point.
Context (t : nat) (index : Z).

Definition in_first_coset : bool := Z.shiftr index (Z.of_nat t) =? 0.
(** The shift of the coset, its power that the leafs carry, and that power's
    inverse *)
Definition coset_shift : C := if in_first_coset then vone else gen (t + 1).
Definition coset_half : Q := if in_first_coset then vone else row_point 2 1.
Definition coset_half_inv : Q := if in_first_coset then vone else row_point 2 3.
(** The row, in the order of the domain *)
Definition query_row : Z := bitrev t (index mod 2 ^ Z.of_nat t).
Definition query_point : Q := emb (vmul coset_shift (vpow (gen t) (Z.to_nat query_row))).

Lemma coset_cases : 0 <= index < 2 ^ Z.of_nat (t + 1) -> Z.shiftr index (Z.of_nat t) = 0 \/ Z.shiftr index (Z.of_nat t) = 1.
Proof.
  intros Hi. rewrite Z.shiftr_div_pow2 by lia. assert (Hp : 0 < 2 ^ Z.of_nat t) by lia.
  assert (index / 2 ^ Z.of_nat t < 2).
  { apply Z.div_lt_upper_bound; [lia|]. rewrite <- (Z.pow_1_r 2) at 2. rewrite <- Z.pow_add_r by lia. replace (Z.of_nat t + 1) with (Z.of_nat (t + 1)) by lia. lia. }
  pose proof (Z.div_pos index (2 ^ Z.of_nat t) ltac:(lia) Hp). lia.
Qed.
End Point.

Lemma generators_lookup k : (k <= 31)%nat -> exists g, TWO_ADICITY_GENERATORS !! k = Some g /\ reps g (gen k).
Proof. intros Hk. rewrite generator_lookup by exact Hk. eexists. split; [reflexivity|]. apply exp_power_of_2_ok, generator_wf. Qed.

(** The factors of the two cosets, from the tables *)
Lemma coset_factors_ok k i : (k <= 31)%nat -> i = 0 \/ i = 1 -> exists g h,
  coset_factor (map Some TWO_ADICITY_GENERATORS) k i = Some g /\ coset_factor TWO_ADICITY_GENERATORS_INVERSED k i = Some h /\
  reps g (if i =? 0 then vone else gen k) /\ fwf h /\ vmul (if i =? 0 then vone else gen k) (fabs h) = vone.
Proof.
  intros Hk Hi. unfold coset_factor. destruct Hi as [-> | ->]; cbn [Z.eqb].
  - destruct (ONE_ok (F := Mersenne31Complex)) as [W V]. exists ONE, ONE. split; [reflexivity|]. split; [reflexivity|].
    split; [split; assumption|]. split; [exact W|]. rewrite V. ring.
  - change (1 =? 0) with false. change (1 =? 1) with true. destruct (generators_lookup k Hk) as (g & Eg & Rg).
    destruct (gen_table k Hk) as (h & Eh & Wh & Hh). exists g, h.
    change (map Some TWO_ADICITY_GENERATORS) with (Some <$> TWO_ADICITY_GENERATORS). rewrite list_lookup_fmap, Eg, Eh. auto.
Qed.

Lemma query_position t index : (t + 1 <= 31)%nat -> 0 <= index < 2 ^ Z.of_nat (t + 1) -> forall v omega tau tau_inv,
  reps omega (gen t) -> reps tau (coset_shift t index) -> fwf tau_inv -> vmul (coset_shift t index) (fabs tau_inv) = vone ->
  fri_position {| expected_value := v; evaluation_point := mul_assign (pow omega (query_row t index)) tau; domain_size_log_2 := t;
                  domain_index := query_row t index; Fri.tree_index := index mod 2 ^ Z.of_nat t; offset_inv := tau_inv |}
    t (coset_shift t index).
Proof.
  intros Ht Hi v omega tau tau_inv [Wo Vo] Rt Wi Hinv. pose proof (Z.mod_pos_bound index (2 ^ Z.of_nat t) ltac:(lia)) as Hm.
  pose proof (bitrev_bound t (index mod 2 ^ Z.of_nat t)) as Hb. fold (query_row t index) in Hb.
  assert (Hp : 2 ^ Z.of_nat t <= 2 ^ 32) by (apply Z.pow_le_mono_r; lia).
  assert (Hu : is_u32 (query_row t index)) by (unfold is_u32; lia).
  split; [reflexivity|]. split; [lia|]. split; [exact Hb|]. split; [symmetry; apply bitrev_involutive, Hm|]. split; [|auto].
  cbn [evaluation_point domain_index]. pose proof (reps_pow omega _ Wo Hu) as Rp. rewrite Vo in Rp.
  pose proof (reps_mul _ _ _ _ Rp Rt) as [W V]. split; [exact W|]. rewrite V. ring.
Qed.

(** ** Divisors *)

Lemma unit_nonzero (a b : Q) : vmul a b = vone -> a <> vzero.
Proof. intros Hab ->. apply (fv_nontrivial (F := Mersenne31Quartic)). rewrite <- Hab. ring. Qed.

Lemma inverse_unique (a b b' : Q) : vmul a b = vone -> vmul a b' = vone -> b = b'.
Proof.
  intros Hb Hb'. transitivity (vmul b (vmul a b')); [rewrite Hb'; ring|].
  transitivity (vmul (vmul a b) b'); [ring | rewrite Hb; ring].
Qed.

(** Two divisors are inverted together, or one of them has no inverse. *)
Lemma two_divisors (a b : Mersenne31Quartic) va vb : reps a va -> reps b vb ->
  (exists outs, batch_inverse_checked [a; b] = Some (outs, false) /\ forall u v, vmul va u = vone -> vmul vb v = vone -> False) \/
  (exists u v, batch_inverse_checked [a; b] = Some ([u; v], true) /\ fwf u /\ fwf v /\ vmul va (fabs u) = vone /\ vmul vb (fabs v) = vone).
Proof.
  intros [Wa <-] [Wb <-]. assert (Hl : Forall fwf [a; b]) by (repeat apply Forall_cons_2; try apply Forall_nil_2; assumption).
  pose proof (is_zero_ok a Wa) as Ha. pose proof (is_zero_ok b Wb) as Hb.
  destruct (is_zero a) eqn:Ea; [|destruct (is_zero b) eqn:Eb].
  - left. destruct (batch_refused [a; b] a Hl ltac:(left) (proj1 Ha eq_refl)) as (outs & ->). exists outs. split; [reflexivity|].
    intros u v Hu _. exact (unit_nonzero _ _ Hu (proj1 Ha eq_refl)).
  - left. destruct (batch_refused [a; b] b Hl ltac:(right; left) (proj1 Hb eq_refl)) as (outs & ->). exists outs. split; [reflexivity|].
    intros u v _ Hv. exact (unit_nonzero _ _ Hv (proj1 Hb eq_refl)).
  - right. destruct (batch_inverted [a; b] Hl) as (outs & -> & Ho).
    { repeat apply Forall_cons_2; try apply Forall_nil_2; intros E; [apply Ha in E | apply Hb in E]; discriminate. }
    destruct outs as [|u [|v [|]]]; try (exfalso; apply Forall2_length in Ho; discriminate Ho).
    apply Forall2_cons in Ho as [[Wu Hu] Ho]. apply Forall2_cons in Ho as [[Wv Hv] _]. exists u, v. auto.
Qed.

(** ** The DEEP polynomial *)

(** Sums over the columns of powers of the challenge times differences between
    openings and row, divided *)
Definition deep_sum (a dz dzw half : Q) (oz ozw rz rzw : list Q) : Q :=
  vadd (vmul (vsub (vcomb a oz) (vmul (vcomb a rz) half)) dz)
       (vmul (vmul (vpow a (length oz)) (vsub (vcomb a ozw) (vmul (vcomb a rzw) half))) dzw).

(** The columns' values in the row of a query, and those of the next row that
    are opened *)
Definition row_values (layout : VerifierLayout) (row : QueryRow) (half_inv : Q) (rz rzw : list Q) : Prop :=
  exists quotient leaf_el witness_next memory_next,
    Quartic.from_array_of_base (quotient_leaf row) = Some quotient /\
    pick (witness_leaf row) (WITNESS_NEXT_ROW_OPENING_INDEXES layout) = Some witness_next /\
    pick (memory_leaf row) (MEMORY_NEXT_ROW_OPENING_INDEXES layout) = Some memory_next /\
    accumulator_leaf_el layout row = Some leaf_el /\
    rz = row_at_z layout row half_inv quotient /\ rzw = row_at_z_omega witness_next memory_next leaf_el.

Context (L : CompiledLayout) (P : Parameters).

(** The layout's indexes are those of columns, and the columns of stage 2 over
    the extension are its last ones. *)
Record layout_consistent : Prop := {
  lc_base : (stage_2_base_field_polys L <= stage_2_width L)%nat;
  lc_ext : stage_2_width L = (stage_2_ext4_polys_offset L + 4 * stage_2_ext4_field_polys L)%nat;
  lc_accumulator : (Size.MEMORY_GRAND_PRODUCT_ACCUMULATOR_POLY_INDEX L - stage_2_base_field_polys L < stage_2_ext4_field_polys L)%nat;
  lc_witness_next : Forall (fun i => i < witness_width L)%nat (Size.WITNESS_NEXT_ROW_OPENING_INDEXES L);
  lc_memory_next : Forall (fun i => i < memory_width L)%nat (Size.MEMORY_NEXT_ROW_OPENING_INDEXES L);
  lc_next_rows : (length (Size.WITNESS_NEXT_ROW_OPENING_INDEXES L) + length (Size.MEMORY_NEXT_ROW_OPENING_INDEXES L) + 1 =
    Size.NUM_OPENINGS_AT_Z_OMEGA L)%nat;
}.

(** The words of a query, reduced *)
Definition query_reduced (query : list Z) : Prop :=
  (Query.TOTAL_U32_WORDS L P <= length query)%nat /\
  forall f, f <> Query.query_index -> Forall repr (Query.leaf L P f query).

Lemma leaf_length f query : query_reduced query -> length (Query.leaf L P f query) = field_size (Query.fields L P) f.
Proof.
  intros [Hl _]. apply length_words_of_field. pose proof (field_in_struct (Query.fields L P) f). unfold Query.TOTAL_U32_WORDS in Hl. lia.
Qed.

Lemma pick_ok (l : list Mersenne31Field) indexes : Forall (fun i => i < length l)%nat indexes ->
  exists out, pick l indexes = Some out /\ length out = length indexes.
Proof.
  induction 1 as [|i indexes Hi Hl (out & E & En)]; [exists []; auto|]. destruct (lookup_lt_is_Some_2 l i Hi) as [x Ex].
  exists (x :: out). unfold pick in *. cbn [mapM]. rewrite Ex. cbn [mbind option_bind]. rewrite E. cbn. auto.
Qed.

(** A query of the circuit has the columns of the layout. *)
Lemma row_values_exist query half_inv : layout_consistent -> query_reduced query ->
  query_wf (deep_layout L) (Query.row L P query) /\
  exists quotient leaf_el witness_next memory_next, let row := Query.row L P query in
    Quartic.from_array_of_base (quotient_leaf row) = Some quotient /\
    pick (witness_leaf row) (WITNESS_NEXT_ROW_OPENING_INDEXES (deep_layout L)) = Some witness_next /\
    pick (memory_leaf row) (MEMORY_NEXT_ROW_OPENING_INDEXES (deep_layout L)) = Some memory_next /\
    accumulator_leaf_el (deep_layout L) row = Some leaf_el /\
    length (row_at_z (deep_layout L) row half_inv quotient) = Size.NUM_OPENINGS_AT_Z L /\
    length (row_at_z_omega witness_next memory_next leaf_el) = Size.NUM_OPENINGS_AT_Z_OMEGA L.
Proof.
  intros [Hb He Ha Hw Hm Hn] Hq. pose proof (fun f => leaf_length f query Hq) as Hlen. destruct Hq as [_ Hr].
  assert (Hwf : query_wf (deep_layout L) (Query.row L P query)).
  { unfold query_wf. cbn [Query.row setup_leaf witness_leaf memory_leaf stage_2_leaf quotient_leaf deep_layout num_base_field_polys
      ext4_polys_offset]. rewrite (Hlen Query.stage_2_leaf). split_and!; try (apply Hr; discriminate).
    - exact Hb.
    - change (stage_2_ext4_polys_offset L <= stage_2_width L)%nat. lia. }
  split; [exact Hwf|]. cbv zeta. destruct Hwf as (_ & _ & _ & Ws & _).
  cbn [Query.row setup_leaf witness_leaf memory_leaf stage_2_leaf quotient_leaf deep_layout WITNESS_NEXT_ROW_OPENING_INDEXES
    MEMORY_NEXT_ROW_OPENING_INDEXES] in *. unfold accumulator_leaf_el, row_at_z, row_at_z_omega.
  cbn [Query.row setup_leaf witness_leaf memory_leaf stage_2_leaf quotient_leaf deep_layout num_base_field_polys ext4_polys_offset
    MEMORY_GRAND_PRODUCT_ACCUMULATOR_POLY_INDEX].
  pose proof (Hlen Query.setup_leaf : _ = setup_width L) as H1'. pose proof (Hlen Query.witness_leaf : _ = witness_width L) as H2'.
  pose proof (Hlen Query.memory_leaf : _ = memory_width L) as H3'. pose proof (Hlen Query.stage_2_leaf : _ = stage_2_width L) as H4'.
  pose proof (Hlen Query.quotient_leaf : _ = 4%nat) as H5'. clear Hlen Hr.
  set (s2 := Query.leaf L P Query.stage_2_leaf query) in *. set (wl := Query.leaf L P Query.witness_leaf query) in *.
  set (ml := Query.leaf L P Query.memory_leaf query) in *. set (ql := Query.leaf L P Query.quotient_leaf query) in *.
  destruct ql as [|q0 [|q1 [|q2 [|q3 [|]]]]]; try discriminate H5'.
  destruct (pick_ok wl (Size.WITNESS_NEXT_ROW_OPENING_INDEXES L)) as (wn & Ew & Lw); [rewrite H2'; exact Hw|].
  destruct (pick_ok ml (Size.MEMORY_NEXT_ROW_OPENING_INDEXES L)) as (mn & Em & Lm); [rewrite H3'; exact Hm|].
  set (k := (Size.MEMORY_GRAND_PRODUCT_ACCUMULATOR_POLY_INDEX L - stage_2_base_field_polys L)%nat) in *.
  destruct (ext4_chunks_ok (stage_2_ext4_field_polys L - k) (drop (stage_2_ext4_polys_offset L + k * 4) s2)) as [La _];
    [rewrite length_drop, H4'; lia | apply Forall_drop, Ws|].
  destruct (ext4_chunks_ok (stage_2_ext4_field_polys L) (drop (stage_2_ext4_polys_offset L) s2)) as [Lc _];
    [rewrite length_drop, H4'; lia | apply Forall_drop, Ws|].
  destruct (ext4_chunks (drop (stage_2_ext4_polys_offset L + k * 4) s2)) as [|el els]; [cbn in La; lia|].
  eexists _, el, wn, mn. do 4 (split; [eassumption || reflexivity|]).
  rewrite !length_app, !length_map, length_take, Lc, Lw, Lm, H1', H2', H3', H4'. cbn [length].
  unfold Size.NUM_OPENINGS_AT_Z. split; lia.
Qed.

(** ** The check of a query *)
Section Check.
Import Skeleton.
Context (image : list Z) (c : TranscriptChallenges) (query : list Z) (index : Z).
Notation t := (Size.TRACE_LEN_LOG2 L).

(** Well-formed data: the words that are read as field elements, and the values
    of the last FRI step, which are not reduced when they are read *)
Record checkable : Prop := {
  ck_trace : (1 <= t)%nat /\ (t + 1 <= 31)%nat;
  ck_index : 0 <= index < 2 ^ Z.of_nat (t + 1);
  ck_layout : layout_consistent;
  ck_query : query_reduced query;
  ck_openings : elements_wf (Size.NUM_OPENINGS_AT_Z L) (get_elements L P image openings_at_z);
  ck_openings_omega : elements_wf (Size.NUM_OPENINGS_AT_Z_OMEGA L) (get_elements L P image openings_at_z_omega);
  ck_openings_count : is_u32 (Z.of_nat (Size.NUM_OPENINGS_AT_Z L));
  ck_monomials : elements_wf (Size.FRI_FINAL_DEGREE P) (get_elements L P image monomial_coeffs);
  ck_z : fwf (z c);
  ck_alpha : fwf (deep_poly_alpha c);
  ck_challenges : Forall fwf (folding_challenges c);
  ck_exposed : Forall (Forall fwf) (get_fri_final_step_leafs L P image);
  ck_steps : Forall (fun n => 0 < n <= 5)%nat (Size.FRI_FOLDING_SCHEDULE P);
  ck_degree : (sum_list (Size.FRI_FOLDING_SCHEDULE P) <= t)%nat;
}.

(** The point is neither [z] nor [z * omega]; the DEEP polynomial's value there
    starts a chain of FRI steps. *)
Definition query_consistent : Prop :=
  let x := query_point t index in
  Query.get_query_index L P query = index /\
  exists dz dzw rz rzw,
    vmul (vsub (fabs (z c)) x) dz = vone /\ vmul (vsub (vmul (fabs (z c)) (row_point t 1)) x) dzw = vone /\
    row_values (deep_layout L) (Query.row L P query) (coset_half_inv t index) rz rzw /\
    fri_chain (fri_parameters L P image c (Z.shiftr index (Z.of_nat t))) (coset_half t index) (Size.FRI_FOLDING_SCHEDULE P) 0
      (Query.leaf L P Query.fri_oracles_leafs query) (query_row t index) t (coset_shift t index) x
      (vmul (deep_sum (fabs (deep_poly_alpha c)) dz dzw (coset_half t index)
                      (map fabs (get_elements L P image openings_at_z)) (map fabs (get_elements L P image openings_at_z_omega)) rz rzw)
            (coset_half_inv t index)).

(** The values the check starts from, with the factors of the coset *)
Lemma tree_mask : (t <= 31)%nat -> Z.land index (Size.TREE_INDEX_MASK L) = index mod 2 ^ Z.of_nat t.
Proof.
  intros Ht. unfold Size.TREE_INDEX_MASK. rewrite Z.shiftl_1_l, <- land_low. f_equal. unfold wsub. apply u32_small. unfold is_u32.
  pose proof (Z.pow_le_mono_r 2 (Z.of_nat t) 31 ltac:(lia) ltac:(lia)). change (2 ^ 31) with 2147483648 in *. lia.
Qed.

Context (Hck : checkable).

Lemma half_factors : exists half half_inv,
  coset_factor (map Some TWO_ADICITY_GENERATORS) (t + Size.FRI_FACTOR_LOG2 - (t - 1)) (Z.shiftr index (Z.of_nat t)) = Some half /\
  coset_factor TWO_ADICITY_GENERATORS_INVERSED (t + Size.FRI_FACTOR_LOG2 - (t - 1)) (Z.shiftr index (Z.of_nat t)) = Some half_inv /\
  fwf half /\ fwf half_inv /\ emb (fabs half) = coset_half t index /\ emb (fabs half_inv) = coset_half_inv t index.
Proof.
  destruct Hck as [[Ht Ht'] Hi]. replace (t + Size.FRI_FACTOR_LOG2 - (t - 1))%nat with 2%nat by (change Size.FRI_FACTOR_LOG2 with 1%nat; lia).
  pose proof (coset_cases t index Hi) as Hc. destruct (coset_factors_ok 2 _ ltac:(lia) Hc) as (g & h & Eg & Eh & [Wg Vg] & Wh & Hgh).
  exists g, h. rewrite Vg. split_and!; try assumption; unfold coset_half, coset_half_inv, in_first_coset.
  - destruct (_ =? 0); [apply embed_one|]. unfold row_point. cbn [vpow]. rewrite (Rmul_comm fv_ring), (Rmul_1_l fv_ring). reflexivity.
  - destruct (_ =? 0).
    + rewrite (Rmul_1_l fv_ring) in Hgh. rewrite Hgh. apply embed_one.
    + assert (E : (2 ^ 2 = 4)%nat) by reflexivity. assert (E3 : (3 = 2 ^ 2 - 1)%nat) by lia. rewrite E3.
      apply (inverse_row 2 1); [lia | lia|]. transitivity (vmul (gen 2) (fabs h)); [cbn [vpow]; ring | exact Hgh].
Qed.

Notation params := (fri_parameters L P image c (Z.shiftr index (Z.of_nat t))).

Lemma query_chain_wf : chain_wf params (Size.FRI_FOLDING_SCHEDULE P) t (Query.leaf L P Query.fri_oracles_leafs query).
Proof.
  destruct Hck. constructor; try assumption.
  - apply ck_query0. discriminate.
  - cbn [fri_parameters Fri.fri_final_step_leafs]. destruct (nth_in_or_default (Z.to_nat (Z.shiftr index (Z.of_nat t)))
      (get_fri_final_step_leafs L P image) []) as [Hin | ->]; [|constructor].
    rewrite List.Forall_forall in ck_exposed0. apply ck_exposed0, Hin.
Qed.

(** From the value of the DEEP polynomial on *)
Lemma query_value_iff modular_ext4_ops omega tau tau_inv half half_inv dz dzw :
  reps omega (gen t) -> reps tau (coset_shift t index) -> fwf tau_inv -> vmul (coset_shift t index) (fabs tau_inv) = vone ->
  fwf half -> fwf half_inv -> emb (fabs half) = coset_half t index -> emb (fabs half_inv) = coset_half_inv t index ->
  fwf dz -> fwf dzw ->
  (expected_value ← deep_value modular_ext4_ops (deep_layout L) (get_elements L P image openings_at_z)
     (get_elements L P image openings_at_z_omega) (deep_poly_alpha c) (Query.row L P query) dz dzw half half_inv;
   fri_query modular_ext4_ops params half half_inv
     {| expected_value := expected_value; evaluation_point := mul_assign (pow omega (query_row t index)) tau; domain_size_log_2 := t;
        domain_index := query_row t index; Fri.tree_index := index mod 2 ^ Z.of_nat t; offset_inv := tau_inv |}
     (Query.leaf L P Query.fri_oracles_leafs query)) = Some tt <->
  exists rz rzw, row_values (deep_layout L) (Query.row L P query) (coset_half_inv t index) rz rzw /\
    fri_chain params (coset_half t index) (Size.FRI_FOLDING_SCHEDULE P) 0
      (Query.leaf L P Query.fri_oracles_leafs query) (query_row t index) t (coset_shift t index) (query_point t index)
      (vmul (deep_sum (fabs (deep_poly_alpha c)) (fabs dz) (fabs dzw) (coset_half t index)
                      (map fabs (get_elements L P image openings_at_z)) (map fabs (get_elements L P image openings_at_z_omega)) rz rzw)
            (coset_half_inv t index)).
Proof.
  intros Ro Rt Wti Hti Wh Whi Eh Ehi Wdz Wdzw. pose proof query_chain_wf as Hchain.
  destruct Hck as [[Ht Ht'] Hi Hlayout Hquery [Hoz Woz] [Hozw Wozw] Hu [Hm Wm] Wz Wa _ _ _ _].
  destruct (row_values_exist query (coset_half_inv t index) Hlayout Hquery) as (Hq & quotient & leaf_el & wn & mn & E1 & E2 & E3 & E4 & Lz & Lzw).
  rewrite <- Hoz in Lz. rewrite <- Hozw in Lzw. rewrite <- Ehi in Lz.
  destruct (deep_value_ok (deep_layout L) (Query.row L P query) Hq _ _ Woz Wozw _ dz dzw Wa Wdz Wdzw half half_inv Wh Whi
    quotient leaf_el wn mn E1 E2 E3 E4 Lz Lzw modular_ext4_ops ltac:(rewrite Hoz; exact Hu)) as (v & -> & [Wv Vv]).
  cbn [mbind option_bind].
  rewrite (fri_query_iff modular_ext4_ops params half half_inv _ _ t (coset_shift t index)
    (query_position t index Ht' Hi v omega tau tau_inv Ro Rt Wti Hti) Wv Wh Whi Hchain); [| exact Wm |].
  2:{ cbn [fri_parameters Fri.monomial_coeffs]. intros E. rewrite E in Hm. unfold Size.FRI_FINAL_DEGREE in Hm. cbn [length] in Hm.
      pose proof (Nat.pow_nonzero 2 (final_monomial_degree_log2 (FOLDING_PROPERTIES P)) ltac:(lia)). lia. }
  pose proof (query_position t index Ht' Hi v omega tau tau_inv Ro Rt Wti Hti) as (_ & _ & _ & _ & [_ Ve] & _).
  cbn [expected_value evaluation_point domain_index fri_parameters Fri.FRI_FOLDING_SCHEDULE] in *. rewrite Ve, Eh, Ehi, Vv.
  fold (query_point t index).
  assert (Esum : deep_quotient (deep_layout L) (Query.row L P query) (get_elements L P image openings_at_z)
      (get_elements L P image openings_at_z_omega) (deep_poly_alpha c) dz dzw half half_inv quotient leaf_el wn mn =
    deep_sum (fabs (deep_poly_alpha c)) (fabs dz) (fabs dzw) (coset_half t index) (map fabs (get_elements L P image openings_at_z))
      (map fabs (get_elements L P image openings_at_z_omega)) (row_at_z (deep_layout L) (Query.row L P query) (coset_half_inv t index) quotient)
      (row_at_z_omega wn mn leaf_el)) by (unfold deep_quotient, deep_sum; rewrite length_map, Eh, Ehi; reflexivity).
  rewrite Esum. split.
  - intros Hc. eexists _, _. split; [|exact Hc]. exists quotient, leaf_el, wn, mn. auto 10.
  - intros (rz & rzw & (q' & l' & w' & m' & F1 & F2 & F3 & F4 & -> & ->) & Hc).
    rewrite E1 in F1. rewrite E2 in F2. rewrite E3 in F3. rewrite E4 in F4. injection F1 as <-. injection F2 as <-.
    injection F3 as <-. injection F4 as <-. exact Hc.
Qed.

Lemma check_query_iff modular_ext4_ops : check_query modular_ext4_ops L P image c query index = Some tt <-> query_consistent.
Proof.
  pose proof query_value_iff as Hvalue. destruct half_factors as (half & half_inv & Eh & Ehi & Wh & Whi & Vh & Vhi).
  destruct Hck as [[Ht Ht'] Hi _ _ _ _ _ _ Wz _ _ _ _ _]. unfold check_query, query_consistent.
  destruct (Z.eqb_spec (Query.get_query_index L P query) index) as [Eq|Hne]; [|split; [discriminate | intros [E _]; contradiction]].
  destruct (generators_lookup t ltac:(lia)) as (omega & Eo & Ro). rewrite Eo. cbn [mbind option_bind].
  destruct (coset_factors_ok (t + 1) _ Ht' (coset_cases t index Hi)) as (tau & tau_inv & Et & Eti & Rt & Wti & Hti).
  change (t + Size.FRI_FACTOR_LOG2)%nat with (t + 1)%nat in *. rewrite Et, Eti, Eh, Ehi. cbn [mbind option_bind].
  rewrite tree_mask, bitreverse_for_bitlength_ok by (try apply Z.mod_pos_bound; lia). fold (query_row t index).
  change (if Z.shiftr index (Z.of_nat t) =? 0 then vone else gen (t + 1)) with (coset_shift t index) in Rt, Hti.
  pose proof (query_position t index Ht' Hi ZERO omega tau tau_inv Ro Rt Wti Hti) as (_ & _ & _ & _ & [Wp Vp] & _).
  cbn [evaluation_point domain_index] in Wp, Vp. set (point := mul_assign (pow omega (query_row t index)) tau) in *.
  destruct (sub_base_ok (F := Mersenne31Complex) (z c) point Wz Wp) as [W1 V1].
  destruct (mul_by_base_ok (F := Mersenne31Complex) (z c) omega Wz (proj1 Ro)) as [Wzo Vzo].
  destruct (sub_base_ok (F := Mersenne31Complex) (mul_assign_by_base (z c) omega) point Wzo Wp) as [W2 V2].
  assert (Er : emb (gen t) = row_point t 1) by (unfold row_point; cbn [vpow]; rewrite (Rmul_comm fv_ring), (Rmul_1_l fv_ring); reflexivity).
  rewrite Vzo, (proj2 Ro), Er in V2. rewrite Vp in V1, V2. fold (query_point t index) in V1, V2.
  destruct (two_divisors _ _ _ _ (conj W1 V1) (conj W2 V2)) as [(outs & -> & Hno)|(dz & dzw & -> & Wdz & Wdzw & Hdz & Hdzw)].
  - split; [discriminate|]. intros (_ & dz & dzw & rz & rzw & Hdz & Hdzw & _). destruct (Hno _ _ Hdz Hdzw).
  - etransitivity; [exact (Hvalue modular_ext4_ops omega tau tau_inv half half_inv dz dzw Ro Rt Wti Hti Wh Whi Vh Vhi Wdz Wdzw)|]. split.
    + intros (rz & rzw & Hr & Hc). split; [exact Eq|]. exists (fabs dz), (fabs dzw), rz, rzw. auto.
    + intros (_ & dz' & dzw' & rz & rzw & Hdz' & Hdzw' & Hr & Hc). exists rz, rzw. split; [exact Hr|].
      rewrite (inverse_unique _ _ _ Hdz Hdz'), (inverse_unique _ _ _ Hdzw Hdzw'). exact Hc.
Qed.
End Check.
End Query.
