(* ===== verification/CircuitStatement.v ===== *)
(** * The statement that a circuit's verifier establishes

    [verify_with_configuration] accepts exactly the proofs that pass every check
    at the challenges of their own transcript, and it is a verifier that
    [verify_full_statement] can call: [circuit_verifier_ok]. *)
From stdpp Require Import base list sets strings.
From Stdlib Require Import ZArith Lia.
From S2P Require Import Prelude MachineInt Field FieldExt FieldTraits Powers Ntt Fft Fri Deep FriChain Blake2s Hasher.
From S2P Require Import Worker BitReverse Transcript Challenges MerkleTree LeafInclusion Skeleton Flattener FullStatement CircuitVerifier Acceptance QueryStatement.

Import Quartic (Mersenne31Quartic).
Import Complex (Mersenne31Complex, TWO_ADICITY_GENERATORS, TWO_ADICITY_GENERATORS_INVERSED).

#[local] Opaque Nat.pow mixing_function Rfc.round.

(** ** What is read *)

Lemma prefix_drop {A} n (a : A) (ws : list Z) b rest : Some (a, drop n ws) = Some (b, rest) -> exists used, ws = used ++ rest.
Proof. intros E. injection E as _ <-. exists (take n ws). symmetry. apply take_drop. Qed.

Lemma prefix_skeleton L P this : prefix_parser (SkeletonSpec.skeleton_of L P this).
Proof. intros ws a rest E. unfold SkeletonSpec.skeleton_of in E. destruct (_ && _); [|discriminate]. eapply prefix_drop, E. Qed.

Lemma prefix_opened coset_index index depth leaf caps : prefix_parser (popened coset_index index depth leaf caps).
Proof.
  apply prefix_pbind; [|intros b; apply prefix_pguard]. intros ws a rest E. unfold verdict in E.
  destruct (_ || _); [discriminate|]. destruct (_ <? _)%nat; [discriminate|].
  apply bind_Some in E as (cap & _ & E). apply bind_Some in E as (digest & _ & E). eapply prefix_drop, E.
Qed.

Create HintDb parsers.
#[local] Hint Resolve prefix_pret prefix_pguard prefix_pword prefix_ptake prefix_skeleton prefix_opened : parsers.

Lemma prefix_fri_inclusions coset_index schedule : forall oracles index depth leafs,
  prefix_parser (QuerySpec.pfri_inclusions coset_index schedule oracles index depth leafs).
Proof.
  induction schedule as [|n schedule IH]; intros [|caps oracles] index depth leafs; try apply prefix_pret.
  cbn [QuerySpec.pfri_inclusions]. apply prefix_pbind; [apply prefix_opened | intros ?; apply IH].
Qed.
#[local] Hint Resolve prefix_fri_inclusions : parsers.

Lemma prefix_queries L P skeleton dst : prefix_parser (QuerySpec.queries_of L P skeleton dst).
Proof.
  induction dst as [|this dst IH]; [apply prefix_pret|]. apply prefix_pbind.
  - unfold QuerySpec.query_of. repeat (apply prefix_pbind; [auto with parsers | intros ?]). auto with parsers.
  - intros image. apply prefix_pbind; [exact IH | intros images; apply prefix_pret].
Qed.

Lemma prefix_proof L P skeleton queries : prefix_parser (proof_of L P skeleton queries).
Proof.
  apply prefix_pbind; [apply prefix_skeleton|]. intros image. apply prefix_pbind; [apply prefix_queries | auto with parsers].
Qed.

(** The skeleton that is read is as long as the memory it is read into, and
    there is one query for each slot. *)
Lemma skeleton_image L P this ws image rest : (Skeleton.TOTAL_U32_WORDS L P <= length this)%nat ->
  SkeletonSpec.skeleton_of L P this ws = Some (image, rest) ->
  image = SkeletonSpec.image_of L P this ws /\ (SkeletonSpec.read_size L P <= length ws)%nat /\ length image = length this.
Proof.
  intros Ht E. unfold SkeletonSpec.skeleton_of in E.
  destruct (Nat.leb_spec (SkeletonSpec.read_size L P) (length ws)) as [Hl|]; [|discriminate].
  cbn [andb] in E. destruct (SkeletonSpec.short _ _ _); [|discriminate]. injection E as <- _.
  split; [reflexivity|]. split; [exact Hl | apply length_image_of; assumption].
Qed.

Lemma queries_count L P skeleton dst : forall ws images rest,
  QuerySpec.queries_of L P skeleton dst ws = Some (images, rest) -> length images = length dst.
Proof.
  induction dst as [|this dst IH]; intros ws images rest E; [injection E as <- _; reflexivity|].
  cbn [QuerySpec.queries_of] in E. unfold pbind at 1 in E. destruct (QuerySpec.query_of _ _ _ _ ws) as [[image r]|]; [|discriminate].
  cbn [mbind option_bind] in E. unfold pbind at 1 in E. destruct (QuerySpec.queries_of L P skeleton dst r) as [[more r']|] eqn:Eq; [|discriminate].
  cbn [mbind option_bind] in E. injection E as <- _. cbn [length]. f_equal. eapply IH, Eq.
Qed.

Lemma proof_read L P this dst o image images o' : (Skeleton.TOTAL_U32_WORDS L P <= length this)%nat ->
  proof_of L P this dst o = Some ((image, images), o') ->
  (exists ws, (SkeletonSpec.read_size L P <= length ws)%nat /\ image = SkeletonSpec.image_of L P this ws) /\
  length image = length this /\ length images = length dst.
Proof.
  intros Ht E. unfold proof_of in E. unfold pbind at 1 in E.
  destruct (SkeletonSpec.skeleton_of L P this o) as [[image' r]|] eqn:Es; [|discriminate]. cbn [mbind option_bind] in E.
  unfold pbind at 1 in E. destruct (QuerySpec.queries_of L P image' dst r) as [[images' r']|] eqn:Eq; [|discriminate].
  cbn [mbind option_bind] in E. injection E as -> -> _. destruct (skeleton_image L P this o image r Ht Es) as (Ei & Hl & Hn).
  split; [eauto|]. split; [exact Hn | eapply queries_count, Eq].
Qed.

(** ** Acceptance *)

(** The sizes the verifier is compiled with: structures in 32-bit memory, and
    enough bits for the indexes beside the word of the proof of work *)
Record verifier_sized (L : CompiledLayout) (P : Parameters) : Prop := {
  vs_leafs : QuerySpec.leafs_fit L P;
  vs_fits : 4 * Z.of_nat (8 + Skeleton.TOTAL_U32_WORDS L P) < 2 ^ 32;
  vs_caps : (0 < Size.TREE_CAP_SIZE P)%nat;
  vs_pow : (POW_BITS P <= 32)%nat;
  vs_index : (Size.BITS_FOR_QUERY_INDEX L <= 32)%nat;
  vs_index_bits : (Size.BITS_FOR_QUERY_INDEX L * Size.NUM_QUERIES P <= 32 * (Size.NUM_REQUIRED_WORDS_FOR_QUERY_INDEXES L P - 1))%nat;
  vs_index_words : Z.of_nat (Size.NUM_REQUIRED_WORDS_FOR_QUERY_INDEXES L P) < 2 ^ 32;
}.

(** Memory for the skeleton and the queries *)
Record slots_sized (L : CompiledLayout) (P : Parameters) (skeleton : list Z) (queries : list (list Z)) : Prop := {
  ss_skeleton : length skeleton = Skeleton.TOTAL_U32_WORDS L P;
  ss_count : length queries = Size.NUM_QUERIES P;
  ss_queries : Forall (fun q => length q = Query.TOTAL_U32_WORDS L P) queries;
}.

Section Accepts.
Context (modular_ext4_ops : bool) (evaluate_quotient : Quotient.arguments -> Mersenne31Quartic).
Context (L : CompiledLayout) (P : Parameters).

(** The index of query [i]: bits of the words that were drawn after the proof of
    work, but for the first word *)
Definition drawn_index (image : list Z) (i : nat) : Z :=
  let k := Size.BITS_FOR_QUERY_INDEX L in bits_at (drop 1 (indexes_bits (challenges_of L P image))) (i * k) k.

Record accepted (image : list Z) (images : list (list Z)) : Prop := {
  ac_work : pow_done L P image = true;
  ac_quotient : exists arguments opening, quotient_arguments L P image (challenges_of L P image) = Some (arguments, opening) /\
    feq (evaluate_quotient arguments) opening = true;
  ac_queries : forall i query, images !! i = Some query ->
    check_query modular_ext4_ops L P image (challenges_of L P image) query (drawn_index image i) = Some tt;
}.

Lemma check_quotient_iff image c : check_quotient evaluate_quotient L P image c = Some tt <->
  exists arguments opening, quotient_arguments L P image c = Some (arguments, opening) /\ feq (evaluate_quotient arguments) opening = true.
Proof.
  unfold check_quotient. destruct (quotient_arguments L P image c) as [[arguments opening]|]; cbn [mbind option_bind].
  - destruct (feq _ _) eqn:E; split.
    + intros _. exists arguments, opening. auto.
    + reflexivity.
    + discriminate.
    + intros (a & b & Ea & Eb). injection Ea as <- <-. congruence.
  - split; [discriminate | intros (a & b & Ea & _); discriminate].
Qed.

Lemma check_queries_iff image c ws queries : Forall is_u32 ws -> (Size.BITS_FOR_QUERY_INDEX L <= 32)%nat -> forall p,
  (p + Size.BITS_FOR_QUERY_INDEX L * length queries <= 32 * length ws)%nat ->
  check_queries modular_ext4_ops L P image c queries {| u32_values := ws; bit_index := p |} = Some tt <->
  forall i query, queries !! i = Some query ->
    check_query modular_ext4_ops L P image c query (bits_at ws (p + i * Size.BITS_FOR_QUERY_INDEX L) (Size.BITS_FOR_QUERY_INDEX L)) = Some tt.
Proof.
  intros Hws Hk. induction queries as [|query queries IH]; intros p Hp; [split; [intros _ i q Hq; discriminate | reflexivity]|].
  cbn [length] in Hp. cbn [check_queries]. rewrite assemble_ok by (auto; lia). cbn [mbind option_bind].
  assert (Hb : u32 (bits_at ws p (Size.BITS_FOR_QUERY_INDEX L)) = bits_at ws p (Size.BITS_FOR_QUERY_INDEX L)).
  { unfold u32. apply Z.mod_small. unfold bits_at. set (k := Size.BITS_FOR_QUERY_INDEX L) in *.
    pose proof (Z.mod_pos_bound (words_value ws / 2 ^ Z.of_nat p) (2 ^ Z.of_nat k) ltac:(lia)).
    pose proof (Z.pow_le_mono_r 2 (Z.of_nat k) 32 ltac:(lia) ltac:(lia)). lia. }
  rewrite Hb. specialize (IH (p + Size.BITS_FOR_QUERY_INDEX L)%nat ltac:(lia)). split.
  - intros E. destruct (check_query _ _ _ _ _ query _) as [[]|] eqn:Eq; [|discriminate]. cbn [mbind option_bind] in E.
    intros [|i] q Hq; [injection Hq as <-; rewrite Nat.add_0_r; exact Eq|].
    replace (p + S i * _)%nat with (p + Size.BITS_FOR_QUERY_INDEX L + i * Size.BITS_FOR_QUERY_INDEX L)%nat by lia. apply IH; assumption.
  - intros Hq. pose proof (Hq 0%nat query eq_refl) as E0. rewrite Nat.add_0_r in E0. rewrite E0. cbn [mbind option_bind].
    apply IH. intros i q Hi. specialize (Hq (S i) q Hi).
    replace (p + S i * _)%nat with (p + Size.BITS_FOR_QUERY_INDEX L + i * Size.BITS_FOR_QUERY_INDEX L)%nat in Hq by lia. exact Hq.
Qed.

Context (Hsized : verifier_sized L P).

Lemma image_sized image : length image = Skeleton.TOTAL_U32_WORDS L P -> skeleton_sized L P image.
Proof. intros Hl. destruct Hsized. constructor; try assumption. lia. Qed.

Lemma accepted_iff image images : length image = Skeleton.TOTAL_U32_WORDS L P -> length images = Size.NUM_QUERIES P ->
  let c := challenges_of L P image in
  accepted image images <-> pow_done L P image = true /\ check_quotient evaluate_quotient L P image c = Some tt /\
    check_queries modular_ext4_ops L P image c images (new_bit_source (drop 1 (indexes_bits c))) = Some tt.
Proof.
  intros Hl Hi c. pose proof (image_sized image Hl) as Hs.
  destruct (index_words L P) as [Ei _]. destruct (pow_hash_wf L P image Hs) as [Wl Wu].
  assert (Hu : Forall is_u32 (drop 1 (indexes_bits c))) by (apply Forall_drop, draws_u32; assumption).
  assert (Hn : length (drop 1 (indexes_bits c)) = (Size.NUM_REQUIRED_WORDS_FOR_QUERY_INDEXES L P - 1)%nat).
  { rewrite length_drop. f_equal. unfold c, challenges_of. cbn [indexes_bits]. rewrite length_draws by exact Wl. lia. }
  assert (Eq := check_queries_iff image c _ images Hu (vs_index _ _ Hsized) 0
    ltac:(rewrite Hn, Hi; exact (vs_index_bits _ _ Hsized))).
  unfold new_bit_source. rewrite Eq, check_quotient_iff. cbn [Nat.add]. split; [intros []; auto | intros (A & B & D); constructor; auto].
Qed.

Context {H : Type} `{LawfulHasher H} (V : LeafInclusionVerifier H) (HV : lawful_verifier V).
Context (verifier_slot transcript_slot : H) (Hvs : h_wf verifier_slot) (Hts : h_wf transcript_slot).
Context (skeleton_slot : list Z) (query_slots : list (list Z)) (Hslots : slots_sized L P skeleton_slot query_slots).

Notation verify := (verify_with_configuration modular_ext4_ops evaluate_quotient L P V verifier_slot transcript_slot
                      skeleton_slot query_slots).

Lemma verify_iff dst inp o out pub o' : verify dst inp o = Ok (out, pub) o' <->
  exists image images, proof_of L P skeleton_slot query_slots o = Some ((image, images), o') /\ accepted image images /\
    out = write_output L P image dst /\ pub = write_inputs L P image inp.
Proof.
  destruct Hslots as [Hss Hsc Hsq]. pose proof (lv_new_ok V HV _ Hvs) as Hw.
  assert (Hsizes : read_sizes L P skeleton_slot query_slots).
  { split; [apply Hsized|]. split; [lia|]. eapply Forall_impl; [exact Hsq | cbn; lia]. }
  pose proof (follows_read_proof L P V skeleton_slot query_slots HV Hsizes {| hasher := lv_new V verifier_slot; oracle := o |} Hw) as Er.
  unfold verify_with_configuration, verify_proof. cbn [oracle] in Er.
  destruct (proof_of L P skeleton_slot query_slots o) as [[[image images] rest]|] eqn:Ep.
  2:{ destruct Er as [msg Er]. unfold bind. rewrite Er. split; [discriminate | intros (? & ? & E & _); discriminate]. }
  destruct Er as (h' & Er & _). rewrite (bind_step _ _ _ _ _ Er).
  destruct (proof_read L P _ _ _ _ _ _ (proj1 (proj2 Hsizes)) Ep) as (_ & Hl & Hc). rewrite Hss in Hl. rewrite Hsc in Hc.
  pose proof (run_transcript_ok L P image (image_sized image Hl) (h_new transcript_slot) (proj1 (h_new_ok _ Hts))) as Et.
  pose proof (accepted_iff image images Hl Hc) as Ha. cbv zeta in Ha.
  unfold with_transcript. unfold bind at 1. destruct (pow_done L P image).
  2:{ destruct Et as [msg Et]. rewrite Et. split; [discriminate|]. intros (im & ims & E & Ac & _). injection E as <- <- <-.
      apply Ha in Ac. destruct Ac. discriminate. }
  destruct Et as (h2 & Et & _). rewrite Et. set (c := challenges_of L P image) in *.
  destruct (check_quotient evaluate_quotient L P image c) as [[]|] eqn:Eq.
  2:{ split; [discriminate|]. intros (im & ims & E & Ac & _). injection E as <- <- <-. apply Ha in Ac. destruct Ac as (_ & Ac & _). discriminate. }
  cbn [lift]. rewrite bind_ret_l.
  destruct (check_queries modular_ext4_ops L P image c images _) as [[]|] eqn:Es.
  2:{ split; [discriminate|]. intros (im & ims & E & Ac & _). injection E as <- <- <-. apply Ha in Ac. destruct Ac as (_ & _ & Ac). discriminate. }
  cbn [lift]. rewrite bind_ret_l. cbn [ret]. split.
  - intros E. injection E as <- <- <-. exists image, images. split; [reflexivity|]. split; [apply Ha; auto | auto].
  - intros (im & ims & E & _ & -> & ->). injection E as <- <- <-. reflexivity.
Qed.

(** C6: the verifier returns exactly when the source starts with a skeleton and
    queries whose leafs all open under the skeleton's caps, the nonce passes the
    proof of work of the skeleton's own transcript, the evaluated quotient is the
    opened one, and every query passes its check at the index that the
    transcript draws for it; it leaves the rest of the source and writes what
    the skeleton holds. *)
Theorem verifier_accepts_iff dst inp o out pub o' : verify dst inp o = Ok (out, pub) o' <->
  exists image images, proof_of L P skeleton_slot query_slots o = Some ((image, images), o') /\ accepted image images /\
    out = write_output L P image dst /\ pub = write_inputs L P image inp.
Proof. apply verify_iff. Qed.
End Accepts.

(** ** The interface to the full statement *)
Section Interface.
Context (L : CompiledLayout) (P : Parameters).
Import Skeleton SkeletonSpec.

Lemma norm_repr ws : Forall repr (map (norm true) ws).
Proof.
  apply Forall_map, List.Forall_forall. intros w _. unfold norm, repr. pose proof (Z.mod_pos_bound w ORDER ltac:(unfold ORDER; lia)). lia.
Qed.

Context (this ws : list Z) (Ht : (TOTAL_U32_WORDS L P <= length this)%nat) (Hws : (read_size L P <= length ws)%nat).
Notation image := (image_of L P this ws).

Lemma field_repr f : reduced f = true -> Forall repr (words_of_field (fields L P) f image).
Proof.
  intros Hr. pose proof (total_words L P). rewrite field_words; [rewrite Hr; apply norm_repr | intros ->; discriminate Hr | exact Hws | lia].
Qed.

Lemma field_length f : length (words_of_field (fields L P) f image) = field_size (fields L P) f.
Proof.
  apply length_words_of_field. rewrite length_image_of by assumption. pose proof (field_in_struct (fields L P) f) as Hf.
  unfold TOTAL_U32_WORDS in Ht. lia.
Qed.

Lemma field_elements f n : reduced f = true -> field_size (fields L P) f = (4 * n)%nat -> elements_wf n (get_elements L P image f).
Proof. intros Hr Hs. apply ext4_chunks_ok; [rewrite field_length; exact Hs | apply field_repr, Hr]. Qed.

(** Equal pieces of a field, each decoded *)
Lemma field_array {A} (dec : list Z -> A) (wf : A -> Prop) f n size : reduced f = true -> field_size (fields L P) f = (size * n)%nat ->
  (forall piece, length piece = size -> Forall repr piece -> wf (dec piece)) ->
  let l := map dec (array_of_words n size (words_of_field (fields L P) f image)) in length l = n /\ Forall wf l.
Proof.
  intros Hr Hs Hd l. split; [unfold l; rewrite length_map; apply length_array_of_words|]. apply Forall_map.
  assert (H1' : Forall (fun e => length e = size) (array_of_words n size (words_of_field (fields L P) f image)))
    by (apply array_of_words_sizes; rewrite field_length, Hs; lia).
  pose proof (Forall_array_of_words _ n size _ (field_repr f Hr)) as H2'.
  apply List.Forall_forall. intros e He. rewrite List.Forall_forall in H1', H2'. apply Hd; auto.
Qed.

Lemma head_elements_wf k els : elements_wf (k + 1) els -> elements_wf k (take k els) /\ fwf (nth k els ZERO).
Proof.
  intros [Hl Hw]. split; [split; [rewrite length_take; lia | apply Forall_take, Hw]|].
  apply (proj1 (List.Forall_forall _ _) Hw), nth_In. lia.
Qed.

Lemma memory_words_wf piece : length piece = memory_challenges_size -> Forall repr piece ->
  memory_challenges_wf (memory_challenges_of_words piece).
Proof. intros Hl Hr. apply head_elements_wf, ext4_chunks_ok; assumption. Qed.
Lemma delegation_words_wf piece : length piece = delegation_challenges_size -> Forall repr piece ->
  delegation_challenges_wf (delegation_challenges_of_words piece).
Proof. intros Hl Hr. apply head_elements_wf, ext4_chunks_ok; assumption. Qed.
Lemma boundary_words_wf piece : length piece = boundary_values_size -> Forall repr piece ->
  boundary_values_wf (boundary_values_of_words piece).
Proof.
  intros Hl Hr. change boundary_values_size with 12%nat in Hl. unfold boundary_values_wf, boundary_values_of_words, limbs_wf.
  change REGISTER_SIZE with 2%nat. cbn [lazy_init_first_row teardown_value_first_row teardown_timestamp_first_row
    lazy_init_one_before_last_row teardown_value_one_before_last_row teardown_timestamp_one_before_last_row].
  split_and!; try (rewrite length_take, length_drop, (Hl : @length Mersenne31Field piece = 12%nat); reflexivity);
    apply Forall_take, Forall_drop, Hr.
Qed.

Context (Hcaps : Size.TREE_CAP_SIZE P = 64%nat) (Hdelegations : Size.NUM_DELEGATION_CHALLENGES L = 1%nat).

Lemma output_caps_wf f : field_size (fields L P) f = cap_set_size P -> caps_wf CAP_SIZE NUM_COSETS (get_caps L P image f).
Proof.
  intros Hf. unfold get_caps. rewrite Hcaps. apply caps_of_words_wf. rewrite field_length, Hf. unfold cap_set_size. rewrite Hcaps.
  change NUM_COSETS with 2%nat. change Size.NUM_COSETS with 2%nat. lia.
Qed.

Lemma written_output_wf dst : output_wf (Size.NUM_AUX_BOUNDARY_VALUES L) (write_output L P image dst).
Proof.
  unfold output_wf, write_output. rewrite Hdelegations. change (0 <? 1)%nat with true. cbn [Challenges.setup_caps Challenges.memory_caps memory_challenges delegation_challenges lazy_init_boundary_values
    Challenges.memory_grand_product_accumulator Challenges.delegation_argument_accumulator].
  split_and!; try (apply output_caps_wf; reflexivity).
  - apply memory_words_wf; [apply field_length | apply field_repr; reflexivity].
  - unfold get_delegation_argument_challenges. rewrite length_map, length_array_of_words. exact Hdelegations.
  - apply (field_array delegation_challenges_of_words delegation_challenges_wf delegation_argument_challenges); auto using delegation_words_wf.
  - destruct (Nat.ltb_spec 0 (Size.NUM_AUX_BOUNDARY_VALUES L)) as [|E].
    + unfold get_aux_boundary_values. rewrite length_map, length_array_of_words. reflexivity.
    + replace (Size.NUM_AUX_BOUNDARY_VALUES L) with 0%nat by lia. reflexivity.
  - destruct (Nat.ltb_spec 0 (Size.NUM_AUX_BOUNDARY_VALUES L)) as [|E].
    + apply (field_array boundary_values_of_words boundary_values_wf aux_boundary_values); auto using boundary_words_wf.
    + replace (Size.NUM_AUX_BOUNDARY_VALUES L) with 0%nat by lia. constructor.
  - apply (head_elements_wf 0), (field_elements memory_grand_product_accumulator 1); reflexivity.
  - apply field_elements; [reflexivity|]. change (field_size _ _) with (4 * Size.NUM_DELEGATION_CHALLENGES L)%nat. rewrite Hdelegations. reflexivity.
Qed.

Lemma written_inputs_wf dst : inputs_wf (Size.NUM_STATE_ELEMENTS L) (write_inputs L P image dst).
Proof.
  unfold inputs_wf, write_inputs. set (n := Size.NUM_STATE_ELEMENTS L).
  assert (Hl : length (get_public_inputs L P image) = (n * 2)%nat) by apply (field_length public_inputs).
  assert (Hr : Forall repr (get_public_inputs L P image)) by (apply field_repr; reflexivity).
  destruct (Nat.ltb_spec 0 n) as [|E]; cbn [input_state_variables output_state_variables].
  - rewrite !length_take, length_drop, Hl. split_and!; try lia; auto using Forall_take, Forall_drop.
  - replace n with 0%nat by lia. split_and!; constructor.
Qed.
End Interface.

Lemma write_output_fresh L P image b b' : write_output L P image b = write_output L P image b'.
Proof.
  unfold write_output, array. f_equal; destruct (Nat.ltb_spec 0 (Size.NUM_DELEGATION_CHALLENGES L)) as [|E];
    destruct (Nat.ltb_spec 0 (Size.NUM_AUX_BOUNDARY_VALUES L)) as [|E']; try reflexivity.
  all: try (replace (Size.NUM_DELEGATION_CHALLENGES L) with 0%nat by lia); try reflexivity.
  all: replace (Size.NUM_AUX_BOUNDARY_VALUES L) with 0%nat by lia; reflexivity.
Qed.

Lemma write_inputs_fresh L P image b b' : write_inputs L P image b = write_inputs L P image b'.
Proof.
  unfold write_inputs, array. destruct (Nat.ltb_spec 0 (Size.NUM_STATE_ELEMENTS L)) as [|E]; [reflexivity|].
  replace (Size.NUM_STATE_ELEMENTS L) with 0%nat by lia. reflexivity.
Qed.

(** C7: the verifier of a circuit with caps of 64 digests and a delegation
    argument is one that the full statement can be verified with: what it
    returns does not depend on what the output structures held, it fills them
    with field elements in the sizes the full statement expects, and it takes
    its words from the front of the source. *)
Theorem verifier_discharges_interface {H} `{LawfulHasher H} (V : LeafInclusionVerifier H) modular_ext4_ops evaluate_quotient L P
    verifier_slot transcript_slot skeleton_slot query_slots :
  verifier_sized L P -> Size.TREE_CAP_SIZE P = 64%nat -> Size.NUM_DELEGATION_CHALLENGES L = 1%nat -> lawful_verifier V ->
  h_wf verifier_slot -> h_wf transcript_slot -> slots_sized L P skeleton_slot query_slots ->
  circuit_verifier_ok (Size.NUM_AUX_BOUNDARY_VALUES L) (Size.NUM_STATE_ELEMENTS L)
    (verify_with_configuration modular_ext4_ops evaluate_quotient L P V verifier_slot transcript_slot skeleton_slot query_slots).
Proof.
  intros Hsized Hcaps Hd HV Hvs Hts Hslots. pose proof (verify_iff modular_ext4_ops evaluate_quotient L P Hsized V HV
    verifier_slot transcript_slot Hvs Hts skeleton_slot query_slots Hslots) as Hv.
  assert (Ht : (Skeleton.TOTAL_U32_WORDS L P <= length skeleton_slot)%nat) by (destruct Hslots; lia). constructor.
  - intros b p b' p' o. unfold verify_with_configuration.
    assert (E : forall s, verify_proof modular_ext4_ops evaluate_quotient L P V transcript_slot skeleton_slot query_slots b p s =
                          verify_proof modular_ext4_ops evaluate_quotient L P V transcript_slot skeleton_slot query_slots b' p' s).
    { intros s. unfold verify_proof. repeat (apply bind_ext; intros [] ? || intros ? ?).
      rewrite (write_output_fresh L P _ b b'), (write_inputs_fresh L P _ p p'). reflexivity. }
    rewrite E. reflexivity.
  - intros b p o out pub o' E. apply Hv in E as (image & images & Ep & _ & -> & ->).
    destruct (proof_read L P _ _ _ _ _ _ Ht Ep) as ((ws & Hws & ->) & _).
    split; [apply written_output_wf | apply written_inputs_wf]; assumption.
  - intros b p o [out pub] o' E. apply Hv in E as (image & images & Ep & _). eapply prefix_proof, Ep.
Qed.

(** ** What an accepted proof establishes *)

Lemma query_image_reduced L P this index leafs : length leafs = (Query.TOTAL_U32_WORDS L P - 1)%nat ->
  query_reduced L P (QuerySpec.query_image L P this index leafs).
Proof.
  intros Hl. assert (Ht : (1 <= Query.TOTAL_U32_WORDS L P)%nat) by (unfold Query.TOTAL_U32_WORDS, Query.fields; cbn [size_of]; lia).
  unfold QuerySpec.query_image. split; [cbn [length]; rewrite length_app, length_map; lia|].
  intros f Hf. unfold Query.leaf, words_of_field. pose proof (field_in_struct (Query.fields L P) f) as Hs.
  assert (Ho : exists k, offset_of (Query.fields L P) f = S k).
  { unfold Query.fields. cbn [offset_of]. rewrite decide_False by congruence. eexists. reflexivity. }
  destruct Ho as [k Ek]. rewrite Ek in *. fold (Query.TOTAL_U32_WORDS L P) in Hs. cbn [drop].
  rewrite drop_app_le, take_app_le by (rewrite ?length_drop, length_map; lia).
  apply Forall_take, Forall_drop, norm_repr.
Qed.

Lemma queries_reduced L P skeleton dst : forall ws images rest, QuerySpec.queries_of L P skeleton dst ws = Some (images, rest) ->
  Forall (query_reduced L P) images.
Proof.
  induction dst as [|this dst IH]; intros ws images rest E; [injection E as <- _; constructor|].
  cbn [QuerySpec.queries_of] in E. unfold pbind at 1 in E. apply bind_Some in E as ([image r] & Eq & E).
  unfold pbind at 1 in E. apply bind_Some in E as ([more r'] & Em & E). injection E as <- _. constructor; [|eapply IH, Em].
  unfold QuerySpec.query_of in Eq. unfold pbind at 1 in Eq. apply bind_Some in Eq as ([index r1] & _ & Eq).
  unfold pbind at 1 in Eq. apply bind_Some in Eq as ([[] r2] & _ & Eq).
  unfold pbind at 1 in Eq. apply bind_Some in Eq as ([leafs r3] & El & Eq). cbv zeta in Eq.
  do 6 (unfold pbind at 1 in Eq; apply bind_Some in Eq as ([[] ?] & _ & Eq)). injection Eq as <- _.
  apply query_image_reduced. unfold ptake in El. destruct (Nat.leb_spec (Query.TOTAL_U32_WORDS L P - 1) (length r2)) as [Hle|]; [|discriminate].
  assert (E1 : take (Query.TOTAL_U32_WORDS L P - 1) r2 = leafs) by congruence. rewrite <- E1, length_take. lia.
Qed.

Lemma proof_queries_reduced L P this dst o image images o' : proof_of L P this dst o = Some ((image, images), o') ->
  Forall (query_reduced L P) images.
Proof.
  intros E. unfold proof_of in E. unfold pbind at 1 in E. apply bind_Some in E as ([image' r] & _ & E).
  unfold pbind at 1 in E. apply bind_Some in E as ([images' r'] & Eq & E). injection E as -> -> _. eapply queries_reduced, Eq.
Qed.

(** The layouts and folding steps the verifier's arithmetic is made for *)
Record circuit_consistent (L : CompiledLayout) (P : Parameters) : Prop := {
  cc_trace : (1 <= Size.TRACE_LEN_LOG2 L <= 30)%nat;
  cc_layout : layout_consistent L;
  cc_openings : is_u32 (Z.of_nat (Size.NUM_OPENINGS_AT_Z L));
  cc_steps : Forall (fun n => 0 < n <= 5)%nat (Size.FRI_FOLDING_SCHEDULE P);
  cc_degree : (sum_list (Size.FRI_FOLDING_SCHEDULE P) <= Size.TRACE_LEN_LOG2 L)%nat;
}.

Section Consistency.
Context (L : CompiledLayout) (P : Parameters) (Hsized : verifier_sized L P) (Hcircuit : circuit_consistent L P).

Lemma drawn_index_bound image i : 0 <= drawn_index L P image i < 2 ^ Z.of_nat (Size.TRACE_LEN_LOG2 L + 1).
Proof. unfold drawn_index, bits_at. apply Z.mod_pos_bound. change (Size.BITS_FOR_QUERY_INDEX L) with (Size.TRACE_LEN_LOG2 L + 1)%nat. lia. Qed.

Lemma read_query_checkable this ws i query : length this = Skeleton.TOTAL_U32_WORDS L P -> (SkeletonSpec.read_size L P <= length ws)%nat ->
  let image := SkeletonSpec.image_of L P this ws in
  query_reduced L P query -> Forall (Forall fwf) (Skeleton.get_fri_final_step_leafs L P image) ->
  checkable L P image (challenges_of L P image) query (drawn_index L P image i).
Proof.
  intros Ht Hws image Hq Hex. destruct Hcircuit as [Htrace Hlayout Hu Hsteps Hdeg].
  assert (Hi : length image = Skeleton.TOTAL_U32_WORDS L P) by (unfold image; rewrite length_image_of; lia).
  pose proof (image_sized L P Hsized image Hi) as Hs.
  destruct (seeds_wf L P image Hs) as (_ & _ & _ & Wz & Wd). destruct (fri_part_wf L P image Hs) as [_ [_ Wf]].
  assert (Ht' : (Skeleton.TOTAL_U32_WORDS L P <= length this)%nat) by lia.
  constructor; try assumption; try (apply field_elements; (reflexivity || assumption)).
  - lia.
  - apply drawn_index_bound.
  - apply element_wf; [exact Wz | lia].
  - apply element_wf; [exact Wd | lia].
Qed.

Context (modular_ext4_ops : bool) (evaluate_quotient : Quotient.arguments -> Mersenne31Quartic).
Context {H : Type} `{LawfulHasher H} (V : LeafInclusionVerifier H) (HV : lawful_verifier V).
Context (verifier_slot transcript_slot : H) (Hvs : h_wf verifier_slot) (Hts : h_wf transcript_slot).
Context (skeleton_slot : list Z) (query_slots : list (list Z)) (Hslots : slots_sized L P skeleton_slot query_slots).

(** C5: when the verifier returns, the words it took are a skeleton and queries,
    one for each index that the skeleton's transcript draws, and (the exposed
    values of the last FRI step being reduced) each query is consistent: its
    point is outside of the opening points, and the value of the DEEP polynomial
    that its opened leafs and the openings determine starts a chain of FRI steps
    through interpolants of its leafs that ends in the polynomial in monomial
    form. *)
Theorem accepted_proof_is_consistent dst inp o out pub o' :
  verify_with_configuration modular_ext4_ops evaluate_quotient L P V verifier_slot transcript_slot skeleton_slot query_slots
    dst inp o = Ok (out, pub) o' ->
  exists image images, proof_of L P skeleton_slot query_slots o = Some ((image, images), o') /\ length images = Size.NUM_QUERIES P /\
    (Forall (Forall fwf) (Skeleton.get_fri_final_step_leafs L P image) -> forall i query, images !! i = Some query ->
     query_consistent L P image (challenges_of L P image) query (drawn_index L P image i)).
Proof.
  intros E. apply (verify_iff modular_ext4_ops evaluate_quotient L P Hsized V HV) in E as (image & images & Ep & Ha & _); try assumption.
  destruct Hslots as [Hss Hsc _]. destruct (proof_read L P _ _ _ _ _ _ ltac:(rewrite Hss; reflexivity) Ep) as ((ws & Hws & Ei) & _ & Hn).
  exists image, images. split; [exact Ep|]. split; [rewrite Hn; exact Hsc|]. intros Hex i query Hq.
  pose proof (Forall_lookup_1 _ _ _ _ (proof_queries_reduced _ _ _ _ _ _ _ _ Ep) Hq) as Hr. subst image.
  apply (check_query_iff L P _ _ query _ (read_query_checkable skeleton_slot ws i query Hss Hws Hr Hex) modular_ext4_ops).
  apply (ac_queries _ _ _ _ _ _ Ha), Hq.
Qed.
End Consistency.

(** ** Instances *)

Definition empty_output : ProofOutput :=
  {| setup_caps := []; memory_caps := [];
     memory_challenges := {| memory_argument_linearization_challenges := []; memory_argument_gamma := ZERO |};
     delegation_challenges := []; lazy_init_boundary_values := []; memory_grand_product_accumulator := ZERO;
     delegation_argument_accumulator := []; circuit_sequence := 0; Challenges.delegation_type := 0 |}.
Definition empty_inputs : ProofPublicInputs := {| input_state_variables := []; output_state_variables := [] |}.

(** The verifier of the small circuit, for a quotient that is zero *)
Definition sample_verifier : VerifierFunctionPointer :=
  verify_with_configuration false (fun _ => ZERO) sample_layout sample_parameters
    (Blake2sForEverythingVerifier Baseline.Blake2sState) Baseline.new Baseline.new skeleton_memory query_memory.

Definition sample_accepts (words : list Z) : bool :=
  match sample_verifier empty_output empty_inputs (words ++ [42]) with Ok _ o => bool_decide (o = [42]) | _ => false end.

Lemma zero_proof_accepted : from_option sample_accepts false (flatten_full_proof (zero_proof 4 3) true) = true.
Proof. vm_compute. reflexivity. Qed.

Lemma sample_verification : exists words out pub, flatten_full_proof (zero_proof 4 3) true = Some words /\
  sample_verifier empty_output empty_inputs (words ++ [42]) = Ok (out, pub) [42].
Proof.
  pose proof zero_proof_accepted as E. destruct (flatten_full_proof (zero_proof 4 3) true) as [words|]; [|discriminate].
  cbn [from_option] in E. unfold sample_accepts in E.
  destruct (sample_verifier empty_output empty_inputs (words ++ [42])) as [[out pub] o| |] eqn:Ev; try discriminate.
  apply bool_decide_eq_true in E. subst o.
  exists words, out, pub. auto.
Qed.

Lemma sample_sized : verifier_sized sample_layout sample_parameters.
Proof. constructor; try (apply Nat.leb_le); reflexivity. Qed.
Lemma sample_slots : slots_sized sample_layout sample_parameters skeleton_memory query_memory.
Proof. repeat constructor. Qed.
Lemma baseline_wf : h_wf Baseline.new.
Proof. split; reflexivity. Qed.

Lemma verifier_accepts_iff_witness : exists words image images,
  flatten_full_proof (zero_proof 4 3) true = Some words /\
  proof_of sample_layout sample_parameters skeleton_memory query_memory (words ++ [42]) = Some ((image, images), [42]) /\
  accepted false (fun _ => ZERO) sample_layout sample_parameters image images.
Proof.
  destruct sample_verification as (words & out & pub & Ew & Ev).
  apply (verifier_accepts_iff false (fun _ => ZERO) sample_layout sample_parameters sample_sized _ for_everything_lawful
           Baseline.new Baseline.new baseline_wf baseline_wf skeleton_memory query_memory sample_slots) in Ev.
  destruct Ev as (image & images & Ep & Ha & _). exists words, image, images. auto.
Defined.

Lemma sample_consistent : circuit_consistent sample_layout sample_parameters.
Proof.
  constructor.
  - split; apply Nat.leb_le; reflexivity.
  - constructor; try (apply Nat.leb_le; reflexivity); try reflexivity; repeat constructor.
  - vm_compute. split; [discriminate | reflexivity].
  - repeat constructor.
  - apply Nat.leb_le. reflexivity.
Qed.

Lemma sample_exposed image : Forall (Forall fwf) (Skeleton.get_fri_final_step_leafs sample_layout sample_parameters image).
Proof.
  unfold Skeleton.get_fri_final_step_leafs. change (4 * Size.LAST_FRI_STEP_LEAFS_TOTAL_SIZE_PER_COSET sample_layout sample_parameters)%nat with 0%nat.
  change Size.NUM_COSETS with 2%nat. repeat constructor.
Qed.

Lemma accepted_proof_is_consistent_witness : exists words image query,
  flatten_full_proof (zero_proof 4 3) true = Some words /\
  proof_of sample_layout sample_parameters skeleton_memory query_memory (words ++ [42]) = Some ((image, [query]), [42]) /\
  query_consistent sample_layout sample_parameters image (challenges_of sample_layout sample_parameters image) query
    (drawn_index sample_layout sample_parameters image 0).
Proof.
  destruct sample_verification as (words & out & pub & Ew & Ev).
  destruct (accepted_proof_is_consistent sample_layout sample_parameters sample_sized sample_consistent false (fun _ => ZERO) _
    for_everything_lawful Baseline.new Baseline.new baseline_wf baseline_wf skeleton_memory query_memory sample_slots _ _ _ _ _ _ Ev)
    as (image & images & Ep & Hn & Hc).
  destruct images as [|query [|]]; try discriminate Hn. exists words, image, query.
  split; [exact Ew|]. split; [exact Ep | exact (Hc (sample_exposed image) 0%nat query eq_refl)].
Defined.

(** A circuit of 2^22 rows *)
Definition large_layout : CompiledLayout := {|
  trace_len_log2 := 22; setup_width := 5; witness_width := 9; memory_width := 7; stage_2_width := 12;
  public_inputs_len := 4; state_linkage_witness_columns := [0; 1]%nat; has_delegation_request := true;
  has_delegation_processor := false; lazy_init_addresses_start := Some 0%nat; shuffle_ram_access_sets_len := 3;
  stage_2_base_field_polys := 4; stage_2_ext4_field_polys := 2; stage_2_ext4_polys_offset := 4;
  memory_argument_polys_start := 4; memory_argument_polys_len := 2;
|}.
Definition large_parameters : Parameters := default sample_parameters (concrete_parameters large_layout).

Lemma verifier_discharges_interface_witness : circuit_verifier_ok 1 2
  (verify_with_configuration true (fun _ => ZERO) large_layout large_parameters (Blake2sForEverythingVerifier Baseline.Blake2sState)
     Baseline.new Baseline.new (replicate (Skeleton.TOTAL_U32_WORDS large_layout large_parameters) 0)
     (replicate (Size.NUM_QUERIES large_parameters) (replicate (Query.TOTAL_U32_WORDS large_layout large_parameters) 0))).
Proof.
  apply (verifier_discharges_interface (Blake2sForEverythingVerifier Baseline.Blake2sState) true (fun _ => ZERO) large_layout large_parameters).
  - constructor; try (apply Nat.leb_le); vm_compute; reflexivity.
  - vm_compute. reflexivity.
  - reflexivity.
  - apply for_everything_lawful.
  - apply baseline_wf.
  - apply baseline_wf.
  - constructor; [apply length_replicate | apply length_replicate | apply Forall_replicate, length_replicate].
Defined.
