(* ===== verification/Layouts.v ===== *)
(** * The circuits of the program

    [circuit_defs/*/verifier/src/generated/circuit_layout.rs] and
    [verifier/src/generated/circuit_layout.rs]: what the verifier's constants
    take from the compiled layouts of the seven circuits and of the template the
    verifiers are made from, and from [cs/src/definitions] the types of these
    layouts.  The lookups, constraints and columns that only the generated
    quotient reads are left out; of the accesses to memory the number is kept,
    and of the delegation layouts whether there is one.

    With these layouts every hypothesis on sizes of the theorems about the
    verifier is discharged for the circuits that exist. *)
From stdpp Require Import base list sets strings.
From Stdlib Require Import ZArith Lia.
From S2P Require Import Prelude MachineInt Field Fri Deep Blake2s Hasher Transcript Challenges MerkleTree LeafInclusion.
From S2P Require Import Skeleton Flattener FullStatement CircuitVerifier Acceptance QueryStatement CircuitStatement.

#[local] Open Scope nat_scope.

(** [ColumnSet] and [AlignedColumnSet], of a width that the field's type gives *)
Record ColumnSet : Type := columns { start : nat; num_elements : nat }.

(** ** The layout of stage 2 *)
Record OptimizedOraclesForLookupWidth1 : Type := {
  num_pairs : nat;
  base_field_oracles : ColumnSet;
  ext_4_field_oracles : ColumnSet;
}.

Record LookupAndMemoryArgumentLayout : Type := {
  intermediate_polys_for_range_check_16 : OptimizedOraclesForLookupWidth1;
  remainder_for_range_check_16 : option ColumnSet;
  lazy_init_address_range_check_16 : option OptimizedOraclesForLookupWidth1;
  intermediate_polys_for_timestamp_range_checks : OptimizedOraclesForLookupWidth1;
  intermediate_polys_for_generic_lookup : ColumnSet;
  intermediate_poly_for_range_check_16_multiplicity : ColumnSet;
  intermediate_poly_for_timestamp_range_check_multiplicity : ColumnSet;
  intermediate_polys_for_generic_multiplicities : ColumnSet;
  delegation_processing_aux_poly : option ColumnSet;
  intermediate_polys_for_memory_argument : ColumnSet;
  ext4_polys_offset : nat;
  stage_2_total_width : nat;
}.



(** ** The layout of a circuit *)
Record ShuffleRamInitAndTeardownLayout : Type := {
  lazy_init_addresses_columns : ColumnSet;
  lazy_teardown_values_columns : ColumnSet;
  lazy_teardown_timestamps_columns : ColumnSet;
}.

Record CompiledMemorySubtree : Type := {
  shuffle_ram_inits_and_teardowns : option ShuffleRamInitAndTeardownLayout;
  shuffle_ram_access_sets : nat;       (* their number *)
  delegation_request_layout : bool;    (* [is_some] *)
  delegation_processor_layout : bool;  (* [is_some] *)
  memory_total_width : nat;
}.

(** The columns of the linkage constraints and of the public inputs are all of
    the witness tree. *)
Record VerifierCompiledCircuitArtifact : Type := {
  witness_total_width : nat;
  memory_layout : CompiledMemorySubtree;
  setup_total_width : nat;
  stage_2_layout : LookupAndMemoryArgumentLayout;
  state_linkage_constraints : list (nat * nat);
  public_inputs : list nat;
  artifact_trace_len_log2 : nat;
}.


(** ** The generated layouts *)

Module RiscVCycles.
Definition COMPILED_STAGE_2_LAYOUT : LookupAndMemoryArgumentLayout := {|
  intermediate_polys_for_range_check_16 :=
    {| num_pairs := 6; base_field_oracles := columns 0 6; ext_4_field_oracles := columns 12 6 |};
  remainder_for_range_check_16 := None;
  lazy_init_address_range_check_16 :=
    Some {| num_pairs := 1; base_field_oracles := columns 6 1; ext_4_field_oracles := columns 36 1 |};
  intermediate_polys_for_timestamp_range_checks :=
    {| num_pairs := 3; base_field_oracles := columns 7 3; ext_4_field_oracles := columns 40 3 |};
  intermediate_polys_for_generic_lookup := columns 52 17;
  intermediate_poly_for_range_check_16_multiplicity := columns 120 1;
  intermediate_poly_for_timestamp_range_check_multiplicity := columns 124 1;
  intermediate_polys_for_generic_multiplicities := columns 128 2;
  delegation_processing_aux_poly := Some (columns 136 1);
  intermediate_polys_for_memory_argument := columns 140 5;
  ext4_polys_offset := 12;
  stage_2_total_width := 160;
|}.
Definition COMPILED_MEMORY_LAYOUT : CompiledMemorySubtree := {|
  shuffle_ram_inits_and_teardowns := Some {| lazy_init_addresses_columns := columns 0 1; lazy_teardown_values_columns := columns 2 1;
    lazy_teardown_timestamps_columns := columns 4 1 |};
  shuffle_ram_access_sets := 3; delegation_request_layout := true; delegation_processor_layout := false;
  memory_total_width := 30;
|}.
Definition VERIFIER_COMPILED_LAYOUT : VerifierCompiledCircuitArtifact := {|
  witness_total_width := 192;
  memory_layout := COMPILED_MEMORY_LAYOUT;
  setup_total_width := 12;
  stage_2_layout := COMPILED_STAGE_2_LAYOUT;
  state_linkage_constraints := [(190, 16); (191, 75)];
  public_inputs := [16; 75; 190; 191];
  artifact_trace_len_log2 := 22;
|}.
End RiscVCycles.

Module MachineWithoutSignedMulDiv.
Definition COMPILED_STAGE_2_LAYOUT : LookupAndMemoryArgumentLayout := {|
  intermediate_polys_for_range_check_16 :=
    {| num_pairs := 6; base_field_oracles := columns 0 6; ext_4_field_oracles := columns 12 6 |};
  remainder_for_range_check_16 := None;
  lazy_init_address_range_check_16 :=
    Some {| num_pairs := 1; base_field_oracles := columns 6 1; ext_4_field_oracles := columns 36 1 |};
  intermediate_polys_for_timestamp_range_checks :=
    {| num_pairs := 3; base_field_oracles := columns 7 3; ext_4_field_oracles := columns 40 3 |};
  intermediate_polys_for_generic_lookup := columns 52 17;
  intermediate_poly_for_range_check_16_multiplicity := columns 120 1;
  intermediate_poly_for_timestamp_range_check_multiplicity := columns 124 1;
  intermediate_polys_for_generic_multiplicities := columns 128 2;
  delegation_processing_aux_poly := Some (columns 136 1);
  intermediate_polys_for_memory_argument := columns 140 5;
  ext4_polys_offset := 12;
  stage_2_total_width := 160;
|}.
Definition COMPILED_MEMORY_LAYOUT : CompiledMemorySubtree := {|
  shuffle_ram_inits_and_teardowns := Some {| lazy_init_addresses_columns := columns 0 1; lazy_teardown_values_columns := columns 2 1;
    lazy_teardown_timestamps_columns := columns 4 1 |};
  shuffle_ram_access_sets := 3; delegation_request_layout := true; delegation_processor_layout := false;
  memory_total_width := 30;
|}.
Definition VERIFIER_COMPILED_LAYOUT : VerifierCompiledCircuitArtifact := {|
  witness_total_width := 164;
  memory_layout := COMPILED_MEMORY_LAYOUT;
  setup_total_width := 12;
  stage_2_layout := COMPILED_STAGE_2_LAYOUT;
  state_linkage_constraints := [(162, 16); (163, 73)];
  public_inputs := [16; 73; 162; 163];
  artifact_trace_len_log2 := 22;
|}.
End MachineWithoutSignedMulDiv.

Module ReducedRiscVMachine.
Definition COMPILED_STAGE_2_LAYOUT : LookupAndMemoryArgumentLayout := {|
  intermediate_polys_for_range_check_16 :=
    {| num_pairs := 5; base_field_oracles := columns 0 5; ext_4_field_oracles := columns 12 5 |};
  remainder_for_range_check_16 := None;
  lazy_init_address_range_check_16 :=
    Some {| num_pairs := 1; base_field_oracles := columns 5 1; ext_4_field_oracles := columns 32 1 |};
  intermediate_polys_for_timestamp_range_checks :=
    {| num_pairs := 3; base_field_oracles := columns 6 3; ext_4_field_oracles := columns 36 3 |};
  intermediate_polys_for_generic_lookup := columns 48 11;
  intermediate_poly_for_range_check_16_multiplicity := columns 92 1;
  intermediate_poly_for_timestamp_range_check_multiplicity := columns 96 1;
  intermediate_polys_for_generic_multiplicities := columns 100 2;
  delegation_processing_aux_poly := Some (columns 108 1);
  intermediate_polys_for_memory_argument := columns 112 5;
  ext4_polys_offset := 12;
  stage_2_total_width := 132;
|}.
Definition COMPILED_MEMORY_LAYOUT : CompiledMemorySubtree := {|
  shuffle_ram_inits_and_teardowns := Some {| lazy_init_addresses_columns := columns 0 1; lazy_teardown_values_columns := columns 2 1;
    lazy_teardown_timestamps_columns := columns 4 1 |};
  shuffle_ram_access_sets := 3; delegation_request_layout := true; delegation_processor_layout := false;
  memory_total_width := 30;
|}.
Definition VERIFIER_COMPILED_LAYOUT : VerifierCompiledCircuitArtifact := {|
  witness_total_width := 117;
  memory_layout := COMPILED_MEMORY_LAYOUT;
  setup_total_width := 12;
  stage_2_layout := COMPILED_STAGE_2_LAYOUT;
  state_linkage_constraints := [(115, 4); (116, 49)];
  public_inputs := [4; 49; 115; 116];
  artifact_trace_len_log2 := 22;
|}.
End ReducedRiscVMachine.

Module ReducedRiscVLog23Machine.
Definition COMPILED_STAGE_2_LAYOUT : LookupAndMemoryArgumentLayout := {|
  intermediate_polys_for_range_check_16 :=
    {| num_pairs := 5; base_field_oracles := columns 0 5; ext_4_field_oracles := columns 12 5 |};
  remainder_for_range_check_16 := None;
  lazy_init_address_range_check_16 :=
    Some {| num_pairs := 1; base_field_oracles := columns 5 1; ext_4_field_oracles := columns 32 1 |};
  intermediate_polys_for_timestamp_range_checks :=
    {| num_pairs := 3; base_field_oracles := columns 6 3; ext_4_field_oracles := columns 36 3 |};
  intermediate_polys_for_generic_lookup := columns 48 11;
  intermediate_poly_for_range_check_16_multiplicity := columns 92 1;
  intermediate_poly_for_timestamp_range_check_multiplicity := columns 96 1;
  intermediate_polys_for_generic_multiplicities := columns 100 1;
  delegation_processing_aux_poly := Some (columns 104 1);
  intermediate_polys_for_memory_argument := columns 108 5;
  ext4_polys_offset := 12;
  stage_2_total_width := 128;
|}.
Definition COMPILED_MEMORY_LAYOUT : CompiledMemorySubtree := {|
  shuffle_ram_inits_and_teardowns := Some {| lazy_init_addresses_columns := columns 0 1; lazy_teardown_values_columns := columns 2 1;
    lazy_teardown_timestamps_columns := columns 4 1 |};
  shuffle_ram_access_sets := 3; delegation_request_layout := true; delegation_processor_layout := false;
  memory_total_width := 30;
|}.
Definition VERIFIER_COMPILED_LAYOUT : VerifierCompiledCircuitArtifact := {|
  witness_total_width := 116;
  memory_layout := COMPILED_MEMORY_LAYOUT;
  setup_total_width := 8;
  stage_2_layout := COMPILED_STAGE_2_LAYOUT;
  state_linkage_constraints := [(114, 3); (115, 48)];
  public_inputs := [3; 48; 114; 115];
  artifact_trace_len_log2 := 23;
|}.
End ReducedRiscVLog23Machine.

Module FinalReducedRiscVMachine.
Definition COMPILED_STAGE_2_LAYOUT : LookupAndMemoryArgumentLayout := {|
  intermediate_polys_for_range_check_16 :=
    {| num_pairs := 5; base_field_oracles := columns 0 5; ext_4_field_oracles := columns 12 5 |};
  remainder_for_range_check_16 := None;
  lazy_init_address_range_check_16 :=
    Some {| num_pairs := 1; base_field_oracles := columns 5 1; ext_4_field_oracles := columns 32 1 |};
  intermediate_polys_for_timestamp_range_checks :=
    {| num_pairs := 3; base_field_oracles := columns 6 3; ext_4_field_oracles := columns 36 3 |};
  intermediate_polys_for_generic_lookup := columns 48 11;
  intermediate_poly_for_range_check_16_multiplicity := columns 92 1;
  intermediate_poly_for_timestamp_range_check_multiplicity := columns 96 1;
  intermediate_polys_for_generic_multiplicities := columns 100 1;
  delegation_processing_aux_poly := Some (columns 104 1);
  intermediate_polys_for_memory_argument := columns 108 5;
  ext4_polys_offset := 12;
  stage_2_total_width := 128;
|}.
Definition COMPILED_MEMORY_LAYOUT : CompiledMemorySubtree := {|
  shuffle_ram_inits_and_teardowns := Some {| lazy_init_addresses_columns := columns 0 1; lazy_teardown_values_columns := columns 2 1;
    lazy_teardown_timestamps_columns := columns 4 1 |};
  shuffle_ram_access_sets := 3; delegation_request_layout := true; delegation_processor_layout := false;
  memory_total_width := 30;
|}.
Definition VERIFIER_COMPILED_LAYOUT : VerifierCompiledCircuitArtifact := {|
  witness_total_width := 116;
  memory_layout := COMPILED_MEMORY_LAYOUT;
  setup_total_width := 8;
  stage_2_layout := COMPILED_STAGE_2_LAYOUT;
  state_linkage_constraints := [(114, 3); (115, 48)];
  public_inputs := [3; 48; 114; 115];
  artifact_trace_len_log2 := 25;
|}.
End FinalReducedRiscVMachine.

Module Blake2WithCompression.
Definition COMPILED_STAGE_2_LAYOUT : LookupAndMemoryArgumentLayout := {|
  intermediate_polys_for_range_check_16 :=
    {| num_pairs := 16; base_field_oracles := columns 0 16; ext_4_field_oracles := columns 60 16 |};
  remainder_for_range_check_16 := None;
  lazy_init_address_range_check_16 := None;
  intermediate_polys_for_timestamp_range_checks :=
    {| num_pairs := 44; base_field_oracles := columns 16 44; ext_4_field_oracles := columns 124 44 |};
  intermediate_polys_for_generic_lookup := columns 300 208;
  intermediate_poly_for_range_check_16_multiplicity := columns 1132 1;
  intermediate_poly_for_timestamp_range_check_multiplicity := columns 1136 1;
  intermediate_polys_for_generic_multiplicities := columns 1140 1;
  delegation_processing_aux_poly := Some (columns 1144 1);
  intermediate_polys_for_memory_argument := columns 1148 45;
  ext4_polys_offset := 60;
  stage_2_total_width := 1328;
|}.
Definition COMPILED_MEMORY_LAYOUT : CompiledMemorySubtree := {|
  shuffle_ram_inits_and_teardowns := None;
  shuffle_ram_access_sets := 0; delegation_request_layout := false; delegation_processor_layout := true;
  memory_total_width := 243;
|}.
Definition VERIFIER_COMPILED_LAYOUT : VerifierCompiledCircuitArtifact := {|
  witness_total_width := 647;
  memory_layout := COMPILED_MEMORY_LAYOUT;
  setup_total_width := 6;
  stage_2_layout := COMPILED_STAGE_2_LAYOUT;
  state_linkage_constraints := [];
  public_inputs := [];
  artifact_trace_len_log2 := 20;
|}.
End Blake2WithCompression.

Module BigintWithControl.
Definition COMPILED_STAGE_2_LAYOUT : LookupAndMemoryArgumentLayout := {|
  intermediate_polys_for_range_check_16 :=
    {| num_pairs := 17; base_field_oracles := columns 0 17; ext_4_field_oracles := columns 36 17 |};
  remainder_for_range_check_16 := None;
  lazy_init_address_range_check_16 := None;
  intermediate_polys_for_timestamp_range_checks :=
    {| num_pairs := 19; base_field_oracles := columns 17 19; ext_4_field_oracles := columns 104 19 |};
  intermediate_polys_for_generic_lookup := columns 180 61;
  intermediate_poly_for_range_check_16_multiplicity := columns 424 1;
  intermediate_poly_for_timestamp_range_check_multiplicity := columns 428 1;
  intermediate_polys_for_generic_multiplicities := columns 432 1;
  delegation_processing_aux_poly := Some (columns 436 1);
  intermediate_polys_for_memory_argument := columns 440 20;
  ext4_polys_offset := 36;
  stage_2_total_width := 520;
|}.
Definition COMPILED_MEMORY_LAYOUT : CompiledMemorySubtree := {|
  shuffle_ram_inits_and_teardowns := None;
  shuffle_ram_access_sets := 0; delegation_request_layout := false; delegation_processor_layout := true;
  memory_total_width := 98;
|}.
Definition VERIFIER_COMPILED_LAYOUT : VerifierCompiledCircuitArtifact := {|
  witness_total_width := 258;
  memory_layout := COMPILED_MEMORY_LAYOUT;
  setup_total_width := 6;
  stage_2_layout := COMPILED_STAGE_2_LAYOUT;
  state_linkage_constraints := [];
  public_inputs := [];
  artifact_trace_len_log2 := 21;
|}.
End BigintWithControl.

Module VerifierTemplate.
Definition COMPILED_STAGE_2_LAYOUT : LookupAndMemoryArgumentLayout := {|
  intermediate_polys_for_range_check_16 :=
    {| num_pairs := 8; base_field_oracles := columns 0 8; ext_4_field_oracles := columns 12 8 |};
  remainder_for_range_check_16 := None;
  lazy_init_address_range_check_16 :=
    Some {| num_pairs := 1; base_field_oracles := columns 8 1; ext_4_field_oracles := columns 44 1 |};
  intermediate_polys_for_timestamp_range_checks :=
    {| num_pairs := 3; base_field_oracles := columns 9 3; ext_4_field_oracles := columns 48 3 |};
  intermediate_polys_for_generic_lookup := columns 60 20;
  intermediate_poly_for_range_check_16_multiplicity := columns 140 1;
  intermediate_poly_for_timestamp_range_check_multiplicity := columns 144 1;
  intermediate_polys_for_generic_multiplicities := columns 148 2;
  delegation_processing_aux_poly := Some (columns 156 1);
  intermediate_polys_for_memory_argument := columns 160 5;
  ext4_polys_offset := 12;
  stage_2_total_width := 180;
|}.
Definition COMPILED_MEMORY_LAYOUT : CompiledMemorySubtree := {|
  shuffle_ram_inits_and_teardowns := Some {| lazy_init_addresses_columns := columns 0 1; lazy_teardown_values_columns := columns 2 1;
    lazy_teardown_timestamps_columns := columns 4 1 |};
  shuffle_ram_access_sets := 3; delegation_request_layout := true; delegation_processor_layout := false;
  memory_total_width := 30;
|}.
Definition VERIFIER_COMPILED_LAYOUT : VerifierCompiledCircuitArtifact := {|
  witness_total_width := 223;
  memory_layout := COMPILED_MEMORY_LAYOUT;
  setup_total_width := 12;
  stage_2_layout := COMPILED_STAGE_2_LAYOUT;
  state_linkage_constraints := [(221, 20); (222, 88)];
  public_inputs := [20; 88; 221; 222];
  artifact_trace_len_log2 := 20;
|}.
End VerifierTemplate.


(** ** Their sizes *)






