(* ===== verification/Delegations.v ===== *)
(** * Delegated computations

    [src/risc_v_simulator/src/delegations]: the memory helpers of [mod.rs] and
    [unrolled/mod.rs], the 256-bit arithmetic delegation
    ([u256_ops_with_control.rs]) and the Blake2s round delegation
    ([blake2_round_function_with_compression_mode.rs]), each in the version of
    the first simulator (module [V1], whose accesses panic on a trap) and of
    the unrolled simulator (module [V2], whose accesses ignore it).

    A delegation reads its operands' addresses from registers, works on memory
    and reports to the tracer: its state is [Deleg].  256-bit integers come
    from the [ruint] crate; its operations are the class [U256Ops], the
    documented behaviour of that crate the class [U256Laws]. *)
From stdpp Require Import base list strings.
From Stdlib Require Import ZArith Lia.
From S2P Require Import Prelude MachineInt Config Memory Blake2s.

(** ** ruint *)

Definition is_u256 (x : Z) : Prop := 0 <= x < 2 ^ 256.

Class U256Ops : Type := {
  overflowing_add : Z -> Z -> Z * bool;
  overflowing_sub : Z -> Z -> Z * bool;
  widening_mul : Z -> Z -> Z;
}.

Class U256Laws `{U256Ops} : Prop := {
  overflowing_add_spec a b : is_u256 a -> is_u256 b ->
    overflowing_add a b = ((a + b) mod 2 ^ 256, 2 ^ 256 <=? a + b);
  overflowing_sub_spec a b : is_u256 a -> is_u256 b ->
    overflowing_sub a b = ((a - b) mod 2 ^ 256, a <? b);
  widening_mul_spec a b : is_u256 a -> is_u256 b -> widening_mul a b = a * b;
}.

(** The limbs of a [U256] or [U512], least significant first. *)
Definition from_limbs (l : list Z) : Z := fold_right (fun limb acc => limb + 2 ^ 64 * acc) 0 l.
Definition as_limbs (n : nat) (x : Z) : list Z :=
  map (fun i => (x / 2 ^ (64 * i)) mod 2 ^ 64) (rangeZ 0 n).

(** ** The state of a delegation *)

Record Deleg (M : Type) : Type := { dg_regs : list Z; dg_mem : M; dg_trace : list TraceEvent }.
Arguments dg_regs {M}.
Arguments dg_mem {M}.
Arguments dg_trace {M}.

Section Common.
Context {M E : Type}.
Notation act := (comp E (Deleg M)).

Definition reg (i : nat) : act Z := gets (fun s => nth i (dg_regs s) 0).
Definition set_reg (i : nat) (v : Z) : act unit :=
  modify (fun s => {| dg_regs := <[i := v]> (dg_regs s); dg_mem := dg_mem s; dg_trace := dg_trace s |}).
Definition on_mem {A} (c : comp E M A) : act A :=
  zoom dg_mem (fun m s => {| dg_regs := dg_regs s; dg_mem := m; dg_trace := dg_trace s |}) c.
Definition report (ev : TraceEvent) : act unit :=
  modify (fun s => {| dg_regs := dg_regs s; dg_mem := dg_mem s; dg_trace := dg_trace s ++ [ev] |}).
End Common.

(** [x + (size_of::<u32>() * i) as u32] for [i] in [0..n] *)
Definition word_addresses (x : Z) (n : nat) : list Z := map (fun i => wadd x (4 * i)) (rangeZ 0 n).

Definition same_rw (v : Z) : RegisterOrIndirectReadWriteData :=
  {| rw_read_value := v; rw_write_value := v |}.

Fixpoint zip_rw (reads writes : list Z) : list RegisterOrIndirectReadWriteData :=
  match reads, writes with
  | r :: rs, w :: ws => {| rw_read_value := r; rw_write_value := w |} :: zip_rw rs ws
  | _, _ => []
  end.

(** ** delegations/mod.rs and delegations/unrolled/mod.rs *)
Section Helpers.
Context {M E : Type} `{MemorySource M}.
Notation mact := (comp E M).

(** A [RegWrite] access whose trap is a panic. *)
Definition checked_get (address : Z) : mact Z := fun m =>
  match ms_get m address RegWrite with
  | Accessed v => Ok v m
  | Faulted _ _ => Panic "error in memory access"
  | AccessPanic msg => Panic msg
  end.

Definition checked_set (address value : Z) : mact unit := fun m =>
  match ms_set m address value RegWrite with
  | Accessed m' => Ok tt m'
  | Faulted _ _ => Panic "error in memory access"
  | AccessPanic msg => Panic msg
  end.

(** [N] consecutive words from [address]. *)
Fixpoint get_words (get1 : Z -> mact Z) (n : nat) (address : Z) : mact (list Z) :=
  match n with
  | O => ret []
  | S n => let! v := get1 address in
           let! rest := get_words get1 n (address + 4) in ret (v :: rest)
  end.

Fixpoint set_words (set1 : Z -> Z -> mact unit) (ws : list Z) (address : Z) : mact unit :=
  match ws with
  | [] => ret tt
  | w :: rest => set1 address w ;;! set_words set1 rest (address + 4)
  end.

Definition register_indirect_read_continuous (n : nat) (base : Z) : mact (list Z) :=
  get_words checked_get n base.
Definition register_indirect_read_write_continuous (n : nat) (base : Z) : mact (list Z) :=
  get_words checked_get n base.
Definition write_indirect_accesses (base : Z) (write_values : list Z) : mact unit :=
  set_words checked_set write_values base.

Definition register_indirect_read_continuous_noexcept (n : nat) (base : Z) : mact (list Z) :=
  get_words get_noexcept n base.
Definition register_indirect_read_write_continuous_noexcept (n : nat) (base : Z) : mact (list Z) :=
  get_words get_noexcept n base.
Definition write_indirect_accesses_noexcept (base : Z) (write_values : list Z) : mact unit :=
  set_words set_noexcept write_values base.

Definition bookkeeping_record (is_write_access : bool) (read_value : Z) : BatchAccessPartialData :=
  if is_write_access then BatchWrite read_value 0 else BatchRead read_value.

Definition read_continuous_words (n : nat) (base : Z) (is_write_access : bool)
    : mact (list Z * list BatchAccessPartialData) :=
  let! words := get_words checked_get n base in
  ret (words, map (bookkeeping_record is_write_access) words).

Definition read_single_value (base word_index : Z) (is_write_access : bool)
    : mact (Z * BatchAccessPartialData) :=
  let! v := checked_get (base + word_index * 4) in
  ret (v, bookkeeping_record is_write_access v).

(** [range] has as many elements as the destination, and at most as many as
    the bookkeeping iterator. *)
Definition read_words_at_offsets_into (base start : Z) (n destination_len bookkeeping_len : nat)
    (is_write_access : bool) : mact (list Z * list BatchAccessPartialData) :=
  assert_or_panic (n =? destination_len)%nat "assertion failed: words_range.len()" ;;!
  assert_or_panic (n <=? bookkeeping_len)%nat "assertion failed: words_range.len()" ;;!
  let! words := get_words checked_get n (base + start * 4) in
  ret (words, map (bookkeeping_record is_write_access) words).

Fixpoint write_with_records (address : Z) (source : list Z) (records : list BatchAccessPartialData)
    : mact (list BatchAccessPartialData) :=
  match source, records with
  | src :: ss, r :: rs =>
      checked_set address src ;;!
      match r with
      | BatchRead _ => panic "trying to write into readonly access record"
      | BatchWrite read_value _ =>
          let! rest := write_with_records (address + 4) ss rs in
          ret (BatchWrite read_value src :: rest)
      end
  | _, _ => ret records
  end.

Definition write_words_at_offsets_into (base start : Z) (n : nat) (source : list Z)
    (records : list BatchAccessPartialData) : mact (list BatchAccessPartialData) :=
  assert_or_panic (n =? length source)%nat "assertion failed: words_range.len()" ;;!
  assert_or_panic (n <=? length records)%nat "assertion failed: words_range.len()" ;;!
  write_with_records (base + start * 4) source records.
End Helpers.

(** ** u256_ops_with_control.rs *)

Definition NUM_CONTROL_BITS : Z := 8.
Definition ADD_OP_BIT_IDX : Z := 0.
Definition SUB_OP_BIT_IDX : Z := 1.
Definition SUB_AND_NEGATE_OP_BIT_IDX : Z := 2.
Definition MUL_LOW_OP_BIT_IDX : Z := 3.
Definition MUL_HIGH_OP_BIT_IDX : Z := 4.
Definition EQ_OP_BIT_IDX : Z := 5.
Definition CARRY_BIT_IDX : Z := 6.
Definition MEMCOPY_BIT_IDX : Z := 7.

(** [((h as u64) << 32) | (l as u64)] for consecutive words *)
Fixpoint limbs_of_words (words : list Z) : list Z :=
  match words with
  | l :: h :: rest => Z.lor (u64 (Z.shiftl h 32)) l :: limbs_of_words rest
  | _ => []
  end.

Definition make_u256 (words : list Z) : Z := from_limbs (limbs_of_words words).

(** The write-back loop: low and high half of every limb. *)
Definition words_of_u256 (x : Z) : list Z :=
  flat_map (fun limb => [u32 limb; u32 (Z.shiftr limb 32)]) (as_limbs 4 x).

Definition control_bit (mask idx : Z) : bool := negb (Z.land mask (shl32 1 idx) =? 0).

(** The result and the overflow flag; [None] panics on an unknown operation. *)
Definition u256_op `{U256Ops} (control_mask a b : Z) : option (Z * bool) :=
  let carry_bit := control_bit control_mask CARRY_BIT_IDX in
  let carry_or_borrow := b2z carry_bit in
  if control_bit control_mask ADD_OP_BIT_IDX then
    let '(t, of0) := overflowing_add a b in
    let '(t, of1) := overflowing_add t carry_or_borrow in Some (t, of0 || of1)
  else if control_bit control_mask SUB_OP_BIT_IDX then
    let '(t, of0) := overflowing_sub a b in
    let '(t, of1) := overflowing_sub t carry_or_borrow in Some (t, of0 || of1)
  else if control_bit control_mask SUB_AND_NEGATE_OP_BIT_IDX then
    let '(t, of0) := overflowing_sub b a in
    let '(t, of1) := overflowing_sub t carry_or_borrow in Some (t, of0 || of1)
  else if control_bit control_mask MUL_LOW_OP_BIT_IDX then
    let t := widening_mul a b in
    Some (from_limbs (take 4 (as_limbs 8 t)), existsb (fun el => negb (el =? 0)) (drop 4 (as_limbs 8 t)))
  else if control_bit control_mask MUL_HIGH_OP_BIT_IDX then
    let t := widening_mul a b in
    Some (from_limbs (take 4 (drop 4 (as_limbs 8 t))), false)
  else if control_bit control_mask EQ_OP_BIT_IDX then Some (a, a =? b)
  else if control_bit control_mask MEMCOPY_BIT_IDX then
    if carry_bit then Some (overflowing_add b carry_or_borrow) else Some (b, false)
  else None.

Section U256.
Context {M E : Type} `{MemorySource M} `{U256Ops}.
Notation act := (comp E (Deleg M)).

(** The handler after the pointer checks, over the memory accessors in use. *)
Definition u256_body (read : nat -> Z -> comp E M (list Z)) (read_rw : nat -> Z -> comp E M (list Z))
    (write : Z -> list Z -> comp E M unit) (x10 x11 x12 : Z) : act unit :=
  let! a_words := on_mem (read_rw 8%nat x10) in
  let! b_words := on_mem (read 8%nat x11) in
  let a := make_u256 a_words in
  let b := make_u256 b_words in
  assert_or_panic (x12 <? shl32 1 NUM_CONTROL_BITS) "control bits mask is too large" ;;!
  assert_or_panic (count_ones (Z.land x12 (not32 (shl32 1 CARRY_BIT_IDX))) =? 1)
    "at most one control bit must be set, except carry flag" ;;!
  match u256_op x12 a b with
  | None => panic "unknown op"
  | Some (result, overflow) =>
      let out := words_of_u256 result in
      on_mem (write x10 out) ;;!
      set_reg 12 (b2z overflow) ;;!
      report (record_delegation U256_OPS_WITH_CONTROL_ACCESS_ID 10
                [same_rw x10; same_rw x11; {| rw_read_value := x12; rw_write_value := b2z overflow |}]
                (word_addresses x11 8) (map (fun v => {| ro_read_value := v |}) b_words)
                (word_addresses x10 8) (zip_rw a_words out))
  end.

Definition u256_pointer_checks (x10 x11 : Z) : act unit :=
  assert_or_panic (x10 mod 32 =? 0) "input pointer is unaligned" ;;!
  assert_or_panic (x11 mod 32 =? 0) "input pointer is unaligned" ;;!
  assert_or_panic (2 ^ 21 <=? x10) "assertion failed: x10 >= 1 << 21" ;;!
  assert_or_panic (2 ^ 21 <=? x11) "assertion failed: x11 >= 1 << 21" ;;!
  assert_or_panic (negb (x10 =? x11)) "assertion failed: x10 != x11".

Definition u256_ops_with_control_impl (rs1_value : Z) : act unit :=
  assert_or_panic (rs1_value =? 0) "aligned memory access is unused" ;;!
  let! x10 := reg 10 in
  let! x11 := reg 11 in
  let! x12 := reg 12 in
  u256_pointer_checks x10 x11 ;;!
  u256_body register_indirect_read_continuous register_indirect_read_write_continuous
    write_indirect_accesses x10 x11 x12.

Definition u256_ops_with_control_impl_over_unrolled_state : act unit :=
  let! x10 := reg 10 in
  let! x11 := reg 11 in
  let! x12 := reg 12 in
  u256_pointer_checks x10 x11 ;;!
  u256_body register_indirect_read_continuous_noexcept
    register_indirect_read_write_continuous_noexcept
    write_indirect_accesses_noexcept x10 x11 x12.
End U256.

(** ** blake2_round_function_with_compression_mode.rs *)

Definition X10_NUM_WRITES : nat := 8 + 16.
Definition X11_NUM_READS : nat := 16.

Section Blake2.
Context {M E : Type} `{MemorySource M}.
Notation act := (comp E (Deleg M)).

Definition blake2_body (read : nat -> Z -> comp E M (list Z)) (read_rw : nat -> Z -> comp E M (list Z))
    (write : Z -> list Z -> comp E M unit) (x10 x11 x12 x13 : Z) : act unit :=
  let! state_words := on_mem (read_rw X10_NUM_WRITES x10) in
  let! input_words := on_mem (read X11_NUM_READS x11) in
  let state := take 8 state_words in
  let extended_state := take 16 (drop 8 state_words) in
  match delegated_round state extended_state (take 16 input_words) x12 x13 with
  | None => panic "permutation bitmask must be a bitmask"
  | Some (state', extended_state') =>
      let out := state' ++ extended_state' in
      on_mem (write x10 out) ;;!
      report (record_delegation BLAKE2_ROUND_FUNCTION_WITH_EXTENDED_CONTROL_ACCESS_ID 10
                [same_rw x10; same_rw x11; same_rw x12; same_rw x13]
                (word_addresses x11 X11_NUM_READS) (map (fun v => {| ro_read_value := v |}) input_words)
                (word_addresses x10 X10_NUM_WRITES) (zip_rw state_words out))
  end.

Definition blake2_pointer_checks (x10 x11 : Z) : act unit :=
  assert_or_panic (x10 mod 128 =? 0) "input pointer is unaligned" ;;!
  assert_or_panic (x11 mod 4 =? 0) "input pointer is unaligned" ;;!
  assert_or_panic (2 ^ 21 <=? x10) "assertion failed: x10 >= 1 << 21" ;;!
  assert_or_panic (2 ^ 21 <=? x11) "assertion failed: x11 >= 1 << 21" ;;!
  assert_or_panic (negb (x10 =? x11)) "assertion failed: x10 != x11".

Definition blake2_round_function_with_extended_control (rs1_value : Z) : act unit :=
  assert_or_panic (rs1_value =? 0) "aligned memory access is unused" ;;!
  let! x10 := reg 10 in
  let! x11 := reg 11 in
  let! x12 := reg 12 in
  let! x13 := reg 13 in
  blake2_pointer_checks x10 x11 ;;!
  blake2_body register_indirect_read_continuous register_indirect_read_write_continuous
    write_indirect_accesses x10 x11 x12 x13.

Definition blake2_round_function_with_extended_control_over_unrolled_state : act unit :=
  let! x10 := reg 10 in
  let! x11 := reg 11 in
  let! x12 := reg 12 in
  let! x13 := reg 13 in
  blake2_pointer_checks x10 x11 ;;!
  blake2_body register_indirect_read_continuous_noexcept
    register_indirect_read_write_continuous_noexcept
    write_indirect_accesses_noexcept x10 x11 x12 x13.
End Blake2.

(** ** Consecutive words of a lawful memory *)
Section Words.
Context {M E : Type} `{LawfulMemory M}.
Notation mact := (comp E M).

(** [ws] are the words stored from [a] on. *)
Fixpoint words_at (m : M) (a : Z) (ws : list Z) : Prop :=
  match ws with
  | [] => True
  | w :: rest => ms_word m a = Some w /\ words_at m (a + 4) rest
  end.

(** An accessor reads backed words, and only those. *)
Definition reads_words (get1 : Z -> mact Z) : Prop :=
  forall a m w, a mod 4 = 0 -> ms_word m a = Some w -> get1 a m = Ok w m.
Definition writes_words (set1 : Z -> Z -> mact unit) : Prop :=
  forall a v m w, a mod 4 = 0 -> 0 <= a -> ms_word m a = Some w ->
    exists m', set1 a v m = Ok tt m' /\ ms_set m a v MemStore = Accessed m' /\ ms_word m' a = Some v /\
      (forall b, b mod 4 = 0 -> 0 <= b -> b <> a -> ms_word m' b = ms_word m b).

Lemma checked_get_reads : reads_words checked_get.
Proof. intros a m w Ha Hw. unfold checked_get. rewrite (ms_get_backed m a RegWrite w); unfold reading; auto. Qed.
Lemma get_noexcept_reads : reads_words get_noexcept.
Proof. intros a m w Ha Hw. apply get_noexcept_backed; auto. Qed.

Lemma checked_set_writes : writes_words checked_set.
Proof.
  intros a v m w Ha Hp Hw. unfold checked_set.
  destruct (ms_set_backed m a v RegWrite w) as (m' & E1 & E2 & E3); unfold writing; auto.
  rewrite E1. eauto.
Qed.
Lemma set_noexcept_writes : writes_words set_noexcept.
Proof.
  intros a v m w Ha Hp Hw. unfold set_noexcept, bind.
  destruct (ms_set_backed m a v MemStore w) as (m' & E1 & E2 & E3); unfold writing; auto.
  rewrite E1. cbn. eauto.
Qed.

Lemma add4_mod a : a mod 4 = 0 -> (a + 4) mod 4 = 0.
Proof. Z.div_mod_to_equations. lia. Qed.
Hint Resolve add4_mod : airbender.

Lemma get_words_spec get1 : reads_words get1 -> forall ws a m,
  a mod 4 = 0 -> words_at m a ws -> get_words get1 (length ws) a m = Ok ws m.
Proof.
  intros Hg. induction ws as [|w ws IH]; intros a m Ha Hw; [reflexivity|].
  destruct Hw as [Hw1 Hw2]. cbn [length get_words]. unfold bind.
  rewrite (Hg a m w), IH by auto with airbender. reflexivity.
Qed.

(** Whether [b] is one of the [n] word addresses from [a] on. *)
Definition in_words (a b : Z) (n : nat) : bool := (a <=? b) && (b <? a + 4 * Z.of_nat n).

Lemma set_words_spec set1 : writes_words set1 -> forall ws old a m,
  a mod 4 = 0 -> 0 <= a -> length old = length ws -> words_at m a old ->
  exists m', set_words set1 ws a m = Ok tt m' /\
    forall b, b mod 4 = 0 -> 0 <= b ->
      ms_word m' b = if in_words a b (length ws) then Some (nthZ ws ((b - a) / 4)) else ms_word m b.
Proof.
  intros Hs. induction ws as [|w ws IH]; intros old a m Ha Hp Hl Hw.
  - exists m. split; [reflexivity|]. intros b _ _. unfold in_words. cbn [length].
    destruct (Z.leb_spec a b), (Z.ltb_spec b (a + 4 * Z.of_nat 0)); cbn; auto; lia.
  - destruct old as [|o old]; [discriminate|]. destruct Hw as [Hw1 Hw2].
    destruct (Hs a w m o Ha Hp Hw1) as (m1 & E1 & _ & E2 & E3).
    assert (Hw2' : words_at m1 (a + 4) old).
    { clear IH Hl. assert (Ha4 : (a + 4) mod 4 = 0) by auto with airbender.
      assert (Hge : a < a + 4) by lia. revert Hw2 Ha4 Hge. generalize (a + 4) as c.
      induction old as [|o' old IH]; intros c [Hc1 Hc2] Hcm Hcg || intros; [exact I|].
      split; [rewrite E3; auto; lia|]. apply IH; auto with airbender; lia. }
    destruct (IH old (a + 4) m1) as (m' & E4 & E5); auto with airbender; [lia|].
    exists m'. cbn [set_words]. unfold bind. rewrite E1, E4. split; [reflexivity|].
    intros b Hb Hbp. rewrite E5 by auto. unfold in_words, nthZ. cbn [length].
    destruct (Z.leb_spec (a + 4) b), (Z.ltb_spec b (a + 4 + 4 * Z.of_nat (length ws)));
      destruct (Z.leb_spec a b), (Z.ltb_spec b (a + 4 * Z.of_nat (S (length ws)))); cbn [andb]; try lia.
    + replace ((b - a) / 4) with ((b - (a + 4)) / 4 + 1) by (Z.div_mod_to_equations; lia).
      rewrite Z2Nat.inj_add by (Z.div_mod_to_equations; lia).
      rewrite Nat.add_1_r. reflexivity.
    + rewrite E3 by (auto; lia). reflexivity.
    + assert (b = a) by (Z.div_mod_to_equations; lia). subst b.
      rewrite E2, Z.sub_diag. reflexivity.
    + rewrite E3 by (auto; lia). reflexivity.
Qed.

(** ** The trap-checking accessors succeed only where the others do *)

Lemma checked_get_noexcept {E'} a m v m' :
  a mod 4 = 0 -> checked_get (E:=E') a m = Ok v m' -> get_noexcept (E:=E) a m = Ok v m'.
Proof.
  intros Ha Hc. unfold checked_get in Hc. destruct (ms_word m a) as [w|] eqn:Hw.
  - rewrite (ms_get_backed m a RegWrite w) in Hc by (unfold reading; auto).
    rewrite (get_noexcept_backed m a w) by auto. congruence.
  - pose proof (ms_get_unbacked_reg m a Ha Hw) as Hn.
    destruct (ms_get m a RegWrite) eqn:E1; try discriminate. destruct Hn.
Qed.

Lemma checked_set_noexcept {E'} a v m m' :
  a mod 4 = 0 -> 0 <= a -> checked_set (E:=E') a v m = Ok tt m' -> set_noexcept (E:=E) a v m = Ok tt m'.
Proof.
  intros Ha Hp Hc. unfold checked_set in Hc. destruct (ms_word m a) as [w|] eqn:Hw.
  - destruct (ms_set_backed m a v RegWrite w) as (m1 & E1 & E2 & _); unfold writing; auto.
    rewrite E1 in Hc. inversion Hc; subst. unfold set_noexcept, bind. rewrite E2. reflexivity.
  - pose proof (ms_set_unbacked_reg m a v Ha Hw) as Hn.
    destruct (ms_set m a v RegWrite) eqn:E1; try discriminate. destruct Hn.
Qed.
End Words.
