(* ===== verification/DelegationSpec.v ===== *)
(** * What the delegations compute

    The 256-bit delegation against integer arithmetic, its memory-level
    contract, and the agreement of the two simulators' versions of both
    delegations. *)
From stdpp Require Import base list strings.
From Stdlib Require Import ZArith Lia.
From S2P Require Import Prelude MachineInt Decoder Config Memory Blake2s Delegations.

(** ** Limbs *)

Definition is_limb (x : Z) : Prop := 0 <= x < 2 ^ 64.

Lemma map_rangeZ_shift {A} (f : Z -> A) n : forall lo,
  map f (rangeZ (lo + 1) n) = map (fun i => f (i + 1)) (rangeZ lo n).
Proof. induction n as [|n IH]; intros lo; cbn; [reflexivity|]. f_equal. apply IH. Qed.

Lemma as_limbs_succ n x : as_limbs (S n) x = x mod 2 ^ 64 :: as_limbs n (x / 2 ^ 64).
Proof.
  unfold as_limbs. cbn [rangeZ map]. rewrite Z.mul_0_r, Z.pow_0_r, Z.div_1_r. f_equal.
  rewrite map_rangeZ_shift. apply map_ext_in. intros i Hi.
  apply rangeZ_spec in Hi. rewrite Z.div_div by lia.
  rewrite <- Z.pow_add_r by lia. do 3 f_equal. lia.
Qed.

Lemma from_limbs_as_limbs n : forall x, from_limbs (as_limbs n x) = x mod 2 ^ (64 * Z.of_nat n).
Proof.
  induction n as [|n IH]; intros x.
  - cbn. rewrite Z.mod_1_r. reflexivity.
  - rewrite as_limbs_succ. cbn [from_limbs fold_right]. fold (from_limbs (as_limbs n (x / 2 ^ 64))).
    rewrite IH. replace (64 * Z.of_nat (S n)) with (64 + 64 * Z.of_nat n) by lia.
    rewrite Z.pow_add_r, Z.rem_mul_r by lia. reflexivity.
Qed.

Lemma as_limbs_from_limbs l : Forall is_limb l -> as_limbs (length l) (from_limbs l) = l.
Proof.
  induction 1 as [|x l Hx Hl IH]; [reflexivity|]. cbn [length]. rewrite as_limbs_succ.
  cbn [from_limbs fold_right]. fold (from_limbs l). unfold is_limb in Hx.
  replace ((x + 2 ^ 64 * from_limbs l) mod 2 ^ 64) with x
    by (apply Z.mod_unique with (from_limbs l); lia).
  replace ((x + 2 ^ 64 * from_limbs l) / 2 ^ 64) with (from_limbs l)
    by (apply Z.div_unique with x; lia).
  rewrite IH. reflexivity.
Qed.

Lemma as_limbs_8 x : as_limbs 8 x = as_limbs 4 x ++ as_limbs 4 (x / 2 ^ 256).
Proof.
  rewrite !as_limbs_succ. cbn [app]. change (as_limbs 0 (x / 2 ^ 64 / 2 ^ 64 / 2 ^ 64 / 2 ^ 64)) with (@nil Z).
  rewrite !Z.div_div by lia. reflexivity.
Qed.

Lemma length_as_limbs n x : length (as_limbs n x) = n.
Proof. unfold as_limbs. rewrite length_map. apply length_rangeZ. Qed.

Lemma from_limbs_nonzero l :
  Forall is_limb l -> existsb (fun el => negb (el =? 0)) l = negb (from_limbs l =? 0).
Proof.
  induction 1 as [|x l Hx Hl IH]; [reflexivity|]. cbn [existsb from_limbs fold_right].
  fold (from_limbs l). rewrite IH. unfold is_limb in Hx.
  assert (0 <= from_limbs l).
  { clear -Hl. induction Hl as [|y l Hy Hl IH]; cbn; [lia|]. fold (from_limbs l). unfold is_limb in Hy. lia. }
  destruct (Z.eqb_spec x 0), (Z.eqb_spec (from_limbs l) 0), (Z.eqb_spec (x + 2 ^ 64 * from_limbs l) 0);
    cbn; auto; lia.
Qed.

Lemma as_limbs_are_limbs n x : Forall is_limb (as_limbs n x).
Proof.
  unfold as_limbs. apply List.Forall_forall. intros y Hy. apply in_map_iff in Hy.
  destruct Hy as (i & <- & _). apply Z.mod_pos_bound. lia.
Qed.

(** ** Words *)

Lemma limb_of_words l h : is_u32 l -> is_u32 h -> Z.lor (u64 (Z.shiftl h 32)) l = l + h * 2 ^ 32.
Proof.
  unfold is_u32. intros Hl Hh. rewrite Z.shiftl_mul_pow2, u64_small by (unfold is_u64; lia).
  rewrite Z.lor_comm, lor_add_disjoint by lia. reflexivity.
Qed.

Lemma limb_split x : is_limb x ->
  Z.lor (u64 (Z.shiftl (u32 (Z.shiftr x 32)) 32)) (u32 x) = x.
Proof.
  intros Hx. rewrite limb_of_words by apply u32_range. rewrite Z.shiftr_div_pow2 by lia.
  unfold u32, is_limb in *. Z.div_mod_to_equations. lia.
Qed.

Definition word_halves (x : Z) : list Z := [u32 x; u32 (Z.shiftr x 32)].

Lemma limbs_of_word_halves l : Forall is_limb l -> limbs_of_words (flat_map word_halves l) = l.
Proof.
  induction 1 as [|x l Hx Hl IH]; [reflexivity|]. cbn [flat_map word_halves app limbs_of_words].
  rewrite IH, limb_split by auto. reflexivity.
Qed.

Lemma make_words_u256 x : is_u256 x -> make_u256 (words_of_u256 x) = x.
Proof.
  intros Hx. unfold make_u256, words_of_u256.
  change (fun limb => [u32 limb; u32 (Z.shiftr limb 32)]) with word_halves.
  rewrite limbs_of_word_halves by apply as_limbs_are_limbs.
  rewrite from_limbs_as_limbs. apply Z.mod_small. exact Hx.
Qed.

Lemma limbs_of_words_limbs : forall n ws, length ws = (2 * n)%nat -> Forall is_u32 ws ->
  Forall is_limb (limbs_of_words ws) /\ length (limbs_of_words ws) = n /\
  flat_map word_halves (limbs_of_words ws) = ws.
Proof.
  induction n as [|n IH]; intros ws Hl Hw.
  - destruct ws; [cbn; auto|discriminate].
  - destruct ws as [|l [|h ws]]; try (cbn in Hl; lia).
    inversion Hw as [|? ? Hl' Hw']; subst. inversion Hw' as [|? ? Hh Hws]; subst.
    destruct (IH ws) as (I1 & I2 & I3); [cbn in Hl; lia|auto|].
    cbn [limbs_of_words]. rewrite limb_of_words by auto. unfold is_u32 in *. split_and!.
    + constructor; auto. unfold is_limb. lia.
    + cbn. lia.
    + cbn [flat_map word_halves app]. rewrite I3, Z.shiftr_div_pow2 by lia. f_equal; [|f_equal].
      * unfold u32. symmetry. apply Z.mod_unique with h; lia.
      * unfold u32. replace ((l + h * 2 ^ 32) / 2 ^ 32) with h by (apply Z.div_unique with l; lia).
        apply Z.mod_small; lia.
Qed.

Lemma from_limbs_range l : Forall is_limb l -> 0 <= from_limbs l < 2 ^ (64 * Z.of_nat (length l)).
Proof.
  induction 1 as [|x l Hx Hl IH]; [cbn; lia|]. cbn [from_limbs fold_right length].
  fold (from_limbs l). unfold is_limb in Hx.
  replace (64 * Z.of_nat (S (length l))) with (64 + 64 * Z.of_nat (length l)) by lia.
  rewrite Z.pow_add_r by lia. nia.
Qed.

Lemma make_u256_range ws : length ws = 8%nat -> Forall is_u32 ws -> is_u256 (make_u256 ws).
Proof.
  intros Hl Hw. destruct (limbs_of_words_limbs 4 ws Hl Hw) as (H1 & H2 & _).
  pose proof (from_limbs_range _ H1) as H. rewrite H2 in H. exact H.
Qed.

Lemma words_make_u256 ws : length ws = 8%nat -> Forall is_u32 ws -> words_of_u256 (make_u256 ws) = ws.
Proof.
  intros Hl Hw. destruct (limbs_of_words_limbs 4 ws Hl Hw) as (H1 & H2 & H3).
  unfold words_of_u256, make_u256. rewrite <- H2 at 1. rewrite as_limbs_from_limbs by auto. exact H3.
Qed.

Lemma length_words_of_u256 x : length (words_of_u256 x) = 8%nat.
Proof. reflexivity. Qed.

(** ** The operations *)

Inductive u256_operation : Type :=
| OpAdd | OpSub | OpSubNegate | OpMulLow | OpMulHigh | OpEq | OpMemcopy.

Definition op_bit (op : u256_operation) : Z :=
  match op with
  | OpAdd => 0 | OpSub => 1 | OpSubNegate => 2 | OpMulLow => 3 | OpMulHigh => 4
  | OpEq => 5 | OpMemcopy => 7
  end.

Definition u256_control (op : u256_operation) (carry : bool) : Z :=
  2 ^ op_bit op + (if carry then 64 else 0).

(** The result and flag as integer arithmetic: additions and subtractions
    take a carry or borrow in and give one out. *)
Definition u256_spec (op : u256_operation) (carry : bool) (a b : Z) : Z * bool :=
  let c := b2z carry in
  match op with
  | OpAdd => ((a + b + c) mod 2 ^ 256, 2 ^ 256 <=? a + b + c)
  | OpSub => ((a - b - c) mod 2 ^ 256, a - b - c <? 0)
  | OpSubNegate => ((b - a - c) mod 2 ^ 256, b - a - c <? 0)
  | OpMulLow => ((a * b) mod 2 ^ 256, 2 ^ 256 <=? a * b)
  | OpMulHigh => ((a * b) / 2 ^ 256, false)
  | OpEq => (a, a =? b)
  | OpMemcopy => ((b + c) mod 2 ^ 256, 2 ^ 256 <=? b + c)
  end.

Section Arithmetic.
Context `{U256Laws}.

Lemma carry_is_u256 c : is_u256 (b2z c).
Proof. destruct c; unfold is_u256; cbn; lia. Qed.

Lemma mod_is_u256 x : is_u256 (x mod 2 ^ 256).
Proof. apply Z.mod_pos_bound. lia. Qed.

Lemma mod_wrap x q : 0 <= x + q * 2 ^ 256 < 2 ^ 256 -> x mod 2 ^ 256 = x + q * 2 ^ 256.
Proof. intros Hx. symmetry. apply Z.mod_unique with (- q); lia. Qed.

Lemma add_with_carry a b c : is_u256 a -> is_u256 b ->
  (let '(t, of0) := overflowing_add a b in
   let '(t, of1) := overflowing_add t (b2z c) in (t, of0 || of1)) =
  ((a + b + b2z c) mod 2 ^ 256, 2 ^ 256 <=? a + b + b2z c).
Proof.
  intros Ha Hb. rewrite overflowing_add_spec by auto.
  rewrite overflowing_add_spec by auto using mod_is_u256, carry_is_u256.
  rewrite Z.add_mod_idemp_l by lia. f_equal.
  pose proof (carry_is_u256 c). assert (b2z c <= 1) by (destruct c; cbn; lia).
  unfold is_u256 in *.
  destruct (Z.leb_spec (2 ^ 256) (a + b)).
  - rewrite (mod_wrap (a + b) (-1)) by lia.
    destruct (Z.leb_spec (2 ^ 256) (a + b + -1 * 2 ^ 256 + b2z c)),
      (Z.leb_spec (2 ^ 256) (a + b + b2z c)); cbn; auto; lia.
  - rewrite (Z.mod_small (a + b)) by lia. reflexivity.
Qed.

Lemma sub_with_borrow a b c : is_u256 a -> is_u256 b ->
  (let '(t, of0) := overflowing_sub a b in
   let '(t, of1) := overflowing_sub t (b2z c) in (t, of0 || of1)) =
  ((a - b - b2z c) mod 2 ^ 256, a - b - b2z c <? 0).
Proof.
  intros Ha Hb. rewrite overflowing_sub_spec by auto.
  rewrite overflowing_sub_spec by auto using mod_is_u256, carry_is_u256.
  rewrite Zminus_mod_idemp_l. f_equal.
  pose proof (carry_is_u256 c). assert (b2z c <= 1) by (destruct c; cbn; lia).
  unfold is_u256 in *.
  destruct (Z.ltb_spec a b).
  - rewrite (mod_wrap (a - b) 1) by lia.
    destruct (Z.ltb_spec (a - b + 1 * 2 ^ 256) (b2z c)), (Z.ltb_spec (a - b - b2z c) 0); cbn; auto; lia.
  - rewrite (Z.mod_small (a - b)) by lia.
    destruct (Z.ltb_spec (a - b) (b2z c)), (Z.ltb_spec (a - b - b2z c) 0); cbn; auto; lia.
Qed.

Lemma u256_op_arith op carry a b : is_u256 a -> is_u256 b ->
  u256_op (u256_control op carry) a b = Some (u256_spec op carry a b).
Proof.
  intros Ha Hb.
  assert (Hm : 0 <= a * b / 2 ^ 256 < 2 ^ 256).
  { unfold is_u256 in *. split; [apply Z.div_pos; nia|]. apply Z.div_lt_upper_bound; nia. }
  assert (E : u256_op (u256_control op carry) a b =
    match op with
    | OpAdd => let '(t, of0) := overflowing_add a b in
               let '(t, of1) := overflowing_add t (b2z carry) in Some (t, of0 || of1)
    | OpSub => let '(t, of0) := overflowing_sub a b in
               let '(t, of1) := overflowing_sub t (b2z carry) in Some (t, of0 || of1)
    | OpSubNegate => let '(t, of0) := overflowing_sub b a in
               let '(t, of1) := overflowing_sub t (b2z carry) in Some (t, of0 || of1)
    | OpMulLow => let t := widening_mul a b in
        Some (from_limbs (take 4 (as_limbs 8 t)),
              existsb (fun el => negb (el =? 0)) (drop 4 (as_limbs 8 t)))
    | OpMulHigh => let t := widening_mul a b in Some (from_limbs (take 4 (drop 4 (as_limbs 8 t))), false)
    | OpEq => Some (a, a =? b)
    | OpMemcopy => if carry then Some (overflowing_add b (b2z carry)) else Some (b, false)
    end) by (destruct op, carry; reflexivity).
  rewrite E. clear E. destruct op; cbn [u256_spec].
  - rewrite <- (add_with_carry a b carry) by auto.
    destruct (overflowing_add a b) as [t ?]. destruct (overflowing_add t (b2z carry)). reflexivity.
  - rewrite <- (sub_with_borrow a b carry) by auto.
    destruct (overflowing_sub a b) as [t ?]. destruct (overflowing_sub t (b2z carry)). reflexivity.
  - rewrite <- (sub_with_borrow b a carry) by auto.
    destruct (overflowing_sub b a) as [t ?]. destruct (overflowing_sub t (b2z carry)). reflexivity.
  - cbv zeta. rewrite widening_mul_spec, as_limbs_8 by auto.
    rewrite (take_app_length' (as_limbs 4 (a * b))), (drop_app_length' (as_limbs 4 (a * b))) by reflexivity.
    rewrite from_limbs_as_limbs, from_limbs_nonzero by apply as_limbs_are_limbs.
    rewrite from_limbs_as_limbs. change (64 * Z.of_nat 4) with 256.
    rewrite (Z.mod_small (a * b / 2 ^ 256)) by auto. do 2 f_equal.
    destruct (Z.leb_spec (2 ^ 256) (a * b)).
    + assert (1 <= a * b / 2 ^ 256) by (apply Z.div_le_lower_bound; lia).
      destruct (Z.eqb_spec (a * b / 2 ^ 256) 0); [lia|reflexivity].
    + rewrite Z.div_small by (unfold is_u256 in *; nia). reflexivity.
  - cbv zeta. rewrite widening_mul_spec, as_limbs_8 by auto.
    rewrite (drop_app_length' (as_limbs 4 (a * b))) by reflexivity.
    change (take 4 (as_limbs 4 (a * b / 2 ^ 256))) with (as_limbs 4 (a * b / 2 ^ 256)).
    rewrite from_limbs_as_limbs. change (64 * Z.of_nat 4) with 256.
    rewrite (Z.mod_small (a * b / 2 ^ 256)) by auto. reflexivity.
  - reflexivity.
  - destruct carry; cbn [b2z].
    + rewrite overflowing_add_spec by (auto; unfold is_u256; lia). reflexivity.
    + rewrite Z.add_0_r. unfold is_u256 in Hb. rewrite Z.mod_small by lia.
      destruct (Z.leb_spec (2 ^ 256) b); [lia|reflexivity].
Qed.

Lemma u256_spec_range op carry a b : is_u256 a -> is_u256 b -> is_u256 (fst (u256_spec op carry a b)).
Proof.
  intros Ha Hb. destruct op; cbn [u256_spec fst]; auto using mod_is_u256.
  unfold is_u256 in *. split; [apply Z.div_pos; nia|]. apply Z.div_lt_upper_bound; nia.
Qed.
End Arithmetic.

(** The assertions on the control register accept exactly these masks. *)
Lemma accepted_masks : forall x12, 0 <= x12 ->
  x12 <? shl32 1 NUM_CONTROL_BITS = true ->
  count_ones (Z.land x12 (not32 (shl32 1 CARRY_BIT_IDX))) =? 1 = true ->
  exists op carry, x12 = u256_control op carry.
Proof.
  intros x12 Hp Hlt Hc. apply Z.ltb_lt in Hlt. change (shl32 1 NUM_CONTROL_BITS) with 256 in Hlt.
  assert (Hall : forallb (fun x => implb (count_ones (Z.land x (not32 (shl32 1 CARRY_BIT_IDX))) =? 1)
    (existsb (fun op => (x =? u256_control op true) || (x =? u256_control op false))
       [OpAdd; OpSub; OpSubNegate; OpMulLow; OpMulHigh; OpEq; OpMemcopy])) (rangeZ 0 256) = true)
    by (vm_compute; reflexivity).
  rewrite forallb_forall in Hall. specialize (Hall x12 ltac:(apply rangeZ_spec; lia)).
  rewrite Hc in Hall. cbn [implb] in Hall. apply existsb_exists in Hall.
  destruct Hall as (op & _ & Hop). apply orb_prop in Hop.
  destruct Hop as [Hop | Hop]; apply Z.eqb_eq in Hop; eauto.
Qed.

(** ** Memory-level contract of the 256-bit delegation *)
Section Contract.
Context {M E : Type} `{LawfulMemory M} `{U256Laws}.

Lemma bind_reg {B} i (k : Z -> comp E (Deleg M) B) s : bind (reg i) k s = k (nth i (dg_regs s) 0) s.
Proof. reflexivity. Qed.

Lemma bind_assert_true {S B} msg (k : unit -> comp E S B) s :
  bind (assert_or_panic true msg) k s = k tt s.
Proof. reflexivity. Qed.

Lemma on_mem_ok {A} (c : comp E M A) (s : Deleg M) a m' :
  c (dg_mem s) = Ok a m' ->
  on_mem c s = Ok a {| dg_regs := dg_regs s; dg_mem := m'; dg_trace := dg_trace s |}.
Proof. unfold on_mem, zoom. intros ->. reflexivity. Qed.

Definition good_pointers (x10 x11 : Z) : Prop :=
  x10 mod 32 = 0 /\ x11 mod 32 = 0 /\ 2 ^ 21 <= x10 /\ 2 ^ 21 <= x11 /\ x10 <> x11.

Lemma u256_pointer_checks_ok x10 x11 (s : Deleg M) :
  good_pointers x10 x11 -> u256_pointer_checks (E:=E) x10 x11 s = Ok tt s.
Proof.
  intros (H10 & H11 & L10 & L11 & Hne). unfold u256_pointer_checks, bind, assert_or_panic.
  rewrite H10, H11. apply Z.leb_le in L10, L11. apply Z.eqb_neq in Hne. rewrite L10, L11, Hne.
  reflexivity.
Qed.

Lemma mod_32_4 x : x mod 32 = 0 -> x mod 4 = 0.
Proof. intros. Z.div_mod_to_equations. lia. Qed.

Lemma deleg_eta (s : Deleg M) :
  {| dg_regs := dg_regs s; dg_mem := dg_mem s; dg_trace := dg_trace s |} = s.
Proof. destruct s; reflexivity. Qed.

Lemma accepted_control op carry :
  (u256_control op carry <? shl32 1 NUM_CONTROL_BITS) = true /\
  (count_ones (Z.land (u256_control op carry) (not32 (shl32 1 CARRY_BIT_IDX))) =? 1) = true.
Proof. destruct op, carry; split; reflexivity. Qed.

(** C14: For well-formed pointers, a one-operation control word and operands in
    backed memory, the 256-bit delegation completes; it stores the exact
    integer result (sum, difference, reversed difference, low or high product,
    comparison or copy, with carry or borrow in) over the first operand, puts
    the carry, borrow, overflow or equality flag in x12, and changes no other
    word of memory and no other register. *)
Theorem u256_delegation_contract (s : Deleg M) x10 x11 op carry a_words b_words :
  good_pointers x10 x11 ->
  nth 10 (dg_regs s) 0 = x10 -> nth 11 (dg_regs s) 0 = x11 ->
  nth 12 (dg_regs s) 0 = u256_control op carry ->
  length a_words = 8%nat -> length b_words = 8%nat ->
  Forall is_u32 a_words -> Forall is_u32 b_words ->
  words_at (dg_mem s) x10 a_words -> words_at (dg_mem s) x11 b_words ->
  let '(result, flag) := u256_spec op carry (make_u256 a_words) (make_u256 b_words) in
  exists s', u256_ops_with_control_impl_over_unrolled_state (E:=E) s = Ok tt s' /\
    dg_regs s' = <[12%nat := b2z flag]> (dg_regs s) /\
    forall b, b mod 4 = 0 -> 0 <= b ->
      ms_word (dg_mem s') b =
        if in_words x10 b 8 then Some (nthZ (words_of_u256 result) ((b - x10) / 4))
        else ms_word (dg_mem s) b.
Proof.
  intros Hptr Hx10 Hx11 Hx12 La Lb Ua Ub Wa Wb.
  destruct (u256_spec op carry (make_u256 a_words) (make_u256 b_words)) as [result flag] eqn:Hspec.
  pose proof Hptr as (M10 & M11 & L10 & _ & _).
  unfold u256_ops_with_control_impl_over_unrolled_state.
  rewrite !bind_reg.
  rewrite Hx10, Hx11, Hx12.
  rewrite (bind_step _ _ s tt s) by (apply u256_pointer_checks_ok; auto).
  unfold u256_body, register_indirect_read_write_continuous_noexcept,
    register_indirect_read_continuous_noexcept, write_indirect_accesses_noexcept.
  rewrite (bind_step _ _ s a_words s).
  2: { rewrite <- (deleg_eta s) at 2. apply on_mem_ok. rewrite <- La.
       apply get_words_spec; auto using get_noexcept_reads, mod_32_4. }
  rewrite (bind_step _ _ s b_words s).
  2: { rewrite <- (deleg_eta s) at 2. apply on_mem_ok. rewrite <- Lb.
       apply get_words_spec; auto using get_noexcept_reads, mod_32_4. }
  destruct (accepted_control op carry) as [-> ->].
  rewrite !bind_assert_true.
  rewrite u256_op_arith, Hspec by auto using make_u256_range.
  destruct (set_words_spec (E:=E) set_noexcept set_noexcept_writes (words_of_u256 result) a_words x10 (dg_mem s))
    as (m' & Hset & Hword); auto using mod_32_4; [lia|].
  erewrite bind_step by (apply on_mem_ok; exact Hset).
  eexists. split; [reflexivity|]. split; [reflexivity|]. exact Hword.
Qed.
End Contract.

(** A concrete [ruint]: the operations computed on integers. *)
#[export] Instance ruint_ops : U256Ops := {
  overflowing_add a b := ((a + b) mod 2 ^ 256, 2 ^ 256 <=? a + b);
  overflowing_sub a b := ((a - b) mod 2 ^ 256, a <? b);
  widening_mul a b := a * b;
}.

#[export] Instance ruint_laws : U256Laws.
Proof. split; reflexivity. Qed.

Definition sample_deleg : Deleg FlatMemory :=
  {| dg_regs := <[12%nat := u256_control OpAdd true]>
                  (<[11%nat := 2 ^ 21 + 32]> (<[10%nat := 2 ^ 21]> (replicate 32 0)));
     dg_mem := fun a => if a <? 2 ^ 21 + 32 then 2 ^ 32 - 1 else 7;
     dg_trace := [] |}.

Lemma u256_delegation_contract_witness :
  exists s', u256_ops_with_control_impl_over_unrolled_state (E:=Empty_set) sample_deleg = Ok tt s' /\
    nth 12 (dg_regs s') 0 = 1 /\ ms_word (dg_mem s') (2 ^ 21) = Some 7.
Proof.
  destruct (u256_delegation_contract (E:=Empty_set) sample_deleg (2 ^ 21) (2 ^ 21 + 32) OpAdd true
              (replicate 8 (2 ^ 32 - 1)) (replicate 8 7)) as (s' & H1 & H2 & H3).
  - unfold good_pointers. split_and!; (reflexivity || lia).
  - reflexivity.
  - reflexivity.
  - reflexivity.
  - reflexivity.
  - reflexivity.
  - repeat constructor; unfold is_u32; lia.
  - repeat constructor; unfold is_u32; lia.
  - cbn. split_and!; auto.
  - cbn. split_and!; auto.
  - exists s'. split; [exact H1|]. split; [rewrite H2; reflexivity|].
    rewrite H3 by (reflexivity || lia). reflexivity.
Defined.

(** ** The checked version succeeds only where the unrolled one does *)
Section Refines.
Context {M E1 E2 : Type} `{LawfulMemory M} `{U256Ops}.

(** [c2] completes with the same result and state whenever [c1] completes. *)
Definition completes_as {S A} (c1 : comp E1 S A) (c2 : comp E2 S A) : Prop :=
  forall s a s', c1 s = Ok a s' -> c2 s = Ok a s'.

Lemma completes_bind {S A B} (c1 : comp E1 S A) c2 (k1 : A -> comp E1 S B) k2 :
  completes_as c1 c2 -> (forall a, completes_as (k1 a) (k2 a)) -> completes_as (bind c1 k1) (bind c2 k2).
Proof.
  intros Hc Hk s b s' Hb. apply bind_ok in Hb. destruct Hb as (a & s1 & Hc1 & Hk1).
  unfold bind. rewrite (Hc _ _ _ Hc1). apply Hk. exact Hk1.
Qed.

Lemma completes_assert {S} b msg :
  completes_as (S:=S) (assert_or_panic b msg) (assert_or_panic b msg).
Proof. destruct b; intros s a s' Ha; inversion Ha; reflexivity. Qed.

Lemma completes_ret {S A} (a : A) : completes_as (S:=S) (ret a) (ret a).
Proof. intros s b s' Hb. inversion Hb. reflexivity. Qed.

Lemma completes_gets {S A} (f : S -> A) : completes_as (gets f) (gets f).
Proof. intros s b s' Hb. inversion Hb. reflexivity. Qed.

Lemma completes_modify {S} (f : S -> S) : completes_as (modify f) (modify f).
Proof. intros s b s' Hb. inversion Hb. reflexivity. Qed.

Lemma completes_panic {S A} msg1 msg2 : completes_as (S:=S) (A:=A) (panic msg1) (panic msg2).
Proof. intros s b s' Hb. discriminate. Qed.

Lemma completes_zoom {S T A} (g : T -> S) p (c1 : comp E1 S A) c2 :
  completes_as c1 c2 -> completes_as (zoom g p c1) (zoom g p c2).
Proof.
  intros Hc t a t' Hz. apply zoom_ok in Hz. destruct Hz as (s & Hs & ->).
  unfold zoom. rewrite (Hc _ _ _ Hs). reflexivity.
Qed.

Lemma completes_get_words n : forall a : Z, a mod 4 = 0 ->
  completes_as (get_words (M:=M) checked_get n a) (get_words get_noexcept n a).
Proof.
  induction n as [|n IH]; intros a Ha; cbn [get_words]; [apply completes_ret|].
  apply completes_bind.
  - intros m v m' Hg. eapply checked_get_noexcept; eauto.
  - intros v. apply completes_bind; [apply IH; Z.div_mod_to_equations; lia|].
    intros rest. apply completes_ret.
Qed.

Lemma completes_set_words ws : forall a : Z, a mod 4 = 0 -> 0 <= a ->
  completes_as (set_words (M:=M) checked_set ws a) (set_words set_noexcept ws a).
Proof.
  induction ws as [|w ws IH]; intros a Ha Hp; cbn [set_words]; [apply completes_ret|].
  apply completes_bind.
  - intros m [] m' Hg. eapply checked_set_noexcept; eauto.
  - intros _. apply IH; [Z.div_mod_to_equations; lia|lia].
Qed.

(** Bind on the left over a check that pins down a fact used on the right. *)
Lemma completes_assert_bind {S A} (b : bool) msg (k1 : comp E1 S A) k2 :
  (b = true -> completes_as k1 k2) ->
  completes_as (assert_or_panic b msg ;;! k1) (assert_or_panic b msg ;;! k2).
Proof.
  intros Hk. destruct b.
  - apply completes_bind; [apply completes_assert | intros _; auto].
  - intros s a s' Hs. discriminate.
Qed.

Lemma completes_bind_assoc {S A B C} (c1 : comp E1 S A) (f1 : A -> comp E1 S B) (g1 : B -> comp E1 S C)
    (c2 : comp E2 S A) (f2 : A -> comp E2 S B) g2 :
  completes_as (bind c1 (fun x => bind (f1 x) g1)) (bind c2 (fun x => bind (f2 x) g2)) ->
  completes_as (bind (bind c1 f1) g1) (bind (bind c2 f2) g2).
Proof.
  intros Hc s a s' Hs. specialize (Hc s a s'). unfold bind in *.
  destruct (c1 s), (c2 s); auto.
Qed.

Hint Resolve completes_ret completes_gets completes_modify completes_panic completes_assert
  completes_zoom completes_get_words completes_set_words : airbender.

Lemma u256_impl_completes rs1_value :
  completes_as (u256_ops_with_control_impl (M:=M) rs1_value)
    u256_ops_with_control_impl_over_unrolled_state.
Proof.
  intros s0 a0 s0' Hs0. unfold u256_ops_with_control_impl in Hs0.
  apply bind_ok in Hs0. destruct Hs0 as ([] & s1 & Hassert & Hs0).
  apply assert_ok in Hassert. destruct Hassert as [_ ->]. revert s0 a0 s0' Hs0.
  unfold u256_ops_with_control_impl_over_unrolled_state.
  do 3 (apply completes_bind; [apply completes_gets | intros ?]).
  unfold u256_pointer_checks.
  do 4 (apply completes_bind_assoc; apply completes_assert_bind; intros ?).
  apply completes_assert_bind; intros ?. bool_hyps.
  unfold u256_body, on_mem, register_indirect_read_write_continuous, register_indirect_read_continuous,
    register_indirect_read_write_continuous_noexcept, register_indirect_read_continuous_noexcept,
    write_indirect_accesses, write_indirect_accesses_noexcept.
  apply completes_bind; [auto using mod_32_4 with airbender | intros aw].
  apply completes_bind; [auto using mod_32_4 with airbender | intros bw].
  do 2 (apply completes_assert_bind; intros ?).
  destruct (u256_op _ _ _) as [[r f]|]; [|apply completes_panic].
  apply completes_bind; [apply completes_zoom, completes_set_words; [auto using mod_32_4 | lia] | intros _].
  apply completes_bind; [apply completes_modify | intros _]. apply completes_modify.
Qed.

Lemma blake2_impl_completes rs1_value :
  completes_as (blake2_round_function_with_extended_control (M:=M) rs1_value)
    blake2_round_function_with_extended_control_over_unrolled_state.
Proof.
  intros s0 a0 s0' Hs0. unfold blake2_round_function_with_extended_control in Hs0.
  apply bind_ok in Hs0. destruct Hs0 as ([] & s1 & Hassert & Hs0).
  apply assert_ok in Hassert. destruct Hassert as [_ ->]. revert s0 a0 s0' Hs0.
  unfold blake2_round_function_with_extended_control_over_unrolled_state.
  do 4 (apply completes_bind; [apply completes_gets | intros ?]).
  unfold blake2_pointer_checks.
  do 4 (apply completes_bind_assoc; apply completes_assert_bind; intros ?).
  apply completes_assert_bind; intros ?. bool_hyps.
  assert (Hm : forall x, x mod 128 = 0 -> x mod 4 = 0) by (intros; Z.div_mod_to_equations; lia).
  unfold blake2_body, on_mem, register_indirect_read_write_continuous, register_indirect_read_continuous,
    register_indirect_read_write_continuous_noexcept, register_indirect_read_continuous_noexcept,
    write_indirect_accesses, write_indirect_accesses_noexcept.
  apply completes_bind; [auto with airbender | intros aw].
  apply completes_bind; [auto with airbender | intros bw].
  destruct (delegated_round _ _ _ _ _) as [[st ext]|]; [|apply completes_panic].
  apply completes_bind; [apply completes_zoom, completes_set_words; [auto | lia] | intros _].
  apply completes_modify.
Qed.
End Refines.
