(* ===== verification/Cycle.v ===== *)
(** * The state both simulators share

    Registers and program counter ([RiscV32ObservableState]), the memory, the
    tracer and the non-determinism source a cycle is given, and the
    [CYCLE_MARKER] thread-local of [src/risc_v_simulator/src/cycle/state.rs]
    (feature [cycle_marker], modelled as enabled).  [decoded] is the value of
    a decoding [match]: an arm that computes, an arm that rejects the opcode
    (a panic in the unrolled simulator, an illegal-instruction trap in the
    first one), or the [unreachable_unchecked] arm. *)
From stdpp Require Import base list gmap strings.
From Stdlib Require Import ZArith Lia.
From S2P Require Import Prelude MachineInt Memory Delegations.

(** ** Cycle markers *)

Record Mark : Type := { cycles : Z; delegations : gmap Z Z }.

(** What happened between two marks. *)
Definition diff (self before : Mark) : Mark := {|
  cycles := u64 (cycles self - cycles before);
  delegations := map_imap (fun id current_count =>
    match delegations before !! id with
    | Some previous_count =>
        let d := u64 (current_count - previous_count) in if d =? 0 then None else Some d
    | None => Some current_count
    end) (delegations self);
|}.

Record CycleMarker : Type := {
  cycle_counter : Z;
  markers : list Mark;
  delegation_counter : gmap Z Z;
}.

Definition CycleMarker_new : CycleMarker :=
  {| cycle_counter := 0; markers := []; delegation_counter := ∅ |}.

Definition CycleMarker_add_marker (cm : CycleMarker) : CycleMarker := {|
  cycle_counter := cycle_counter cm;
  markers := markers cm ++ [{| cycles := cycle_counter cm; delegations := delegation_counter cm |}];
  delegation_counter := delegation_counter cm;
|}.

Definition CycleMarker_add_delegation (id : Z) (cm : CycleMarker) : CycleMarker := {|
  cycle_counter := cycle_counter cm;
  markers := markers cm;
  delegation_counter :=
    <[ id := match delegation_counter cm !! id with Some n => u64 (n + 1) | None => 1 end ]>
      (delegation_counter cm);
|}.

Definition incr_cycle_counter (cm : CycleMarker) : CycleMarker := {|
  cycle_counter := u64 (cycle_counter cm + 1);
  markers := markers cm;
  delegation_counter := delegation_counter cm;
|}.

(** ** Decoding results *)

Inductive decoded (A : Type) : Type := Decoded (a : A) | Unknown | Unreachable.
Arguments Decoded {A} a.
Arguments Unknown {A}.
Arguments Unreachable {A}.

(** [if Config::FLAG { value } else { reject }] *)
Definition when {A} (flag : bool) (d : decoded A) : decoded A := if flag then d else Unknown.

(** ** The shared state *)

Definition NUM_REGISTERS : nat := 32.

Record Core (M ND : Type) : Type := {
  observable : RiscV32ObservableState;
  memory_source : M;
  non_determinism_source : ND;
  tracer : list TraceEvent;
  cycle_marker : CycleMarker;
}.
Arguments observable {M ND}.
Arguments memory_source {M ND}.
Arguments non_determinism_source {M ND}.
Arguments tracer {M ND}.
Arguments cycle_marker {M ND}.

Definition initial_observable (initial_pc : Z) : RiscV32ObservableState :=
  {| registers := replicate NUM_REGISTERS 0; pc := initial_pc |}.

Section Core.
Context {M ND : Type}.

Definition with_observable (o : RiscV32ObservableState) (c : Core M ND) : Core M ND :=
  {| observable := o; memory_source := memory_source c;
     non_determinism_source := non_determinism_source c; tracer := tracer c;
     cycle_marker := cycle_marker c |}.
Definition with_nd (nd : ND) (c : Core M ND) : Core M ND :=
  {| observable := observable c; memory_source := memory_source c;
     non_determinism_source := nd; tracer := tracer c; cycle_marker := cycle_marker c |}.
Definition with_memory (m : M) (events : list TraceEvent) (c : Core M ND) : Core M ND :=
  {| observable := observable c; memory_source := m;
     non_determinism_source := non_determinism_source c; tracer := tracer c ++ events;
     cycle_marker := cycle_marker c |}.
Definition with_marker (f : CycleMarker -> CycleMarker) (c : Core M ND) : Core M ND :=
  {| observable := observable c; memory_source := memory_source c;
     non_determinism_source := non_determinism_source c; tracer := tracer c;
     cycle_marker := f (cycle_marker c) |}.
Definition with_events (events : list TraceEvent) (c : Core M ND) : Core M ND :=
  {| observable := observable c; memory_source := memory_source c;
     non_determinism_source := non_determinism_source c; tracer := tracer c ++ events;
     cycle_marker := cycle_marker c |}.

Definition register_of (i : Z) (c : Core M ND) : Z := nthZ (registers (observable c)) i.
Definition with_register (i v : Z) (c : Core M ND) : Core M ND :=
  with_observable {| registers := <[Z.to_nat i := v]> (registers (observable c));
                     pc := pc (observable c) |} c.
Definition with_pc (v : Z) (c : Core M ND) : Core M ND :=
  with_observable {| registers := registers (observable c); pc := v |} c.

(** Views of the core for the memory accessors and for the delegations.  The
    tracer only receives events, so a view starts with none and hands back
    those it produced. *)
Definition as_deleg (c : Core M ND) : Deleg M :=
  {| dg_regs := registers (observable c); dg_mem := memory_source c; dg_trace := [] |}.
Definition put_deleg (d : Deleg M) (c : Core M ND) : Core M ND :=
  with_observable {| registers := dg_regs d; pc := pc (observable c) |}
    (with_memory (dg_mem d) (dg_trace d) c).
Definition as_memtrace (c : Core M ND) : MemTrace M :=
  {| mt_mem := memory_source c; mt_trace := [] |}.
Definition put_memtrace (mt : MemTrace M) (c : Core M ND) : Core M ND :=
  with_memory (mt_mem mt) (mt_trace mt) c.
Definition put_memory (m : M) (c : Core M ND) : Core M ND := with_memory m [] c.

(** Equal up to the events the tracer received. *)
Definition same_but_trace (c c' : Core M ND) : Prop :=
  observable c = observable c' /\ memory_source c = memory_source c' /\
  non_determinism_source c = non_determinism_source c' /\ cycle_marker c = cycle_marker c'.
End Core.

(** 32 words, of which [x0] is zero; and a word-aligned pc. *)
Definition regs_wf (regs : list Z) : Prop :=
  length regs = NUM_REGISTERS /\ Forall is_u32 regs /\ nthZ regs 0 = 0.

Definition observable_wf (o : RiscV32ObservableState) : Prop :=
  regs_wf (registers o) /\ is_u32 (pc o) /\ pc o mod 4 = 0.

Lemma regs_wf_nth regs i : regs_wf regs -> is_u32 (nthZ regs i).
Proof.
  intros (_ & Hu & _). unfold nthZ. apply Forall_nth_default; [exact Hu|]. unfold is_u32. lia.
Qed.

(** A register write that keeps [x0] at zero. *)
Lemma regs_wf_insert regs i v :
  0 <= i -> regs_wf regs -> is_u32 v -> regs_wf (<[Z.to_nat i := if i =? 0 then 0 else v]> regs).
Proof.
  intros Hi (Hl & Hu & Hz) Hv. split_and!.
  - rewrite length_insert. exact Hl.
  - apply Forall_insert_list; [exact Hu|]. case_if; auto. unfold is_u32; lia.
  - unfold nthZ in *. case_if; bool_hyps.
    + subst. rewrite nth_insert_eq; [reflexivity|]. rewrite Hl. unfold NUM_REGISTERS. lia.
    + rewrite nth_insert_ne; [exact Hz|]. lia.
Qed.

Lemma initial_observable_wf a : is_u32 a -> a mod 4 = 0 -> observable_wf (initial_observable a).
Proof.
  intros Ha Hm. split; [|auto]. split; [reflexivity|]. split; [|reflexivity].
  apply Forall_replicate. unfold is_u32. lia.
Qed.
