(* ===== verification/StateNew.v ===== *)
(** * The unrolled simulator

    [src/risc_v_simulator/src/cycle/state_new.rs]: [cycle] and [run_cycles] of
    [RiscV32StateForUnrolledProver], with every opcode arm, and the delegation
    dispatch of [DelegationCSRProcessor].  The simulator has no traps: what it
    does not support panics, so the error type is empty. *)
From stdpp Require Import base list gmap strings.
From Stdlib Require Import ZArith Lia.
From S2P Require Import Prelude MachineInt Decoder Field Config Memory NonDeterminism.
From S2P Require Import Delegations Cycle.

(** ** Values computed by the opcode arms *)
Module V2.

Definition branch_condition (funct3 rs1_value rs2_value : Z) : decoded bool :=
  match funct3 with
  | 0 => Decoded (rs1_value =? rs2_value)
  | 1 => Decoded (negb (rs1_value =? rs2_value))
  | 4 => Decoded (to_i32 rs1_value <? to_i32 rs2_value)
  | 5 => Decoded (to_i32 rs2_value <=? to_i32 rs1_value)
  | 6 => Decoded (rs1_value <? rs2_value)
  | 7 => Decoded (rs2_value <=? rs1_value)
  | _ => Unknown
  end.

Definition op_imm_value (C : MachineConfig) (funct3 funct7 operand_1 operand_2 : Z) : decoded Z :=
  let shift := Z.land operand_2 0x1f in
  match funct3 with
  | 0 => Decoded (wadd operand_1 operand_2)
  | 1 => if funct7 =? SLL_FUNCT7 then Decoded (shl32 operand_1 shift) else Unknown
  | 5 => if funct7 =? SRL_FUNCT7 then Decoded (shr32 operand_1 shift)
         else if funct7 =? SRA_FUNCT7 then
           when (SUPPORT_SRA C) (Decoded (u32 (Z.shiftr (to_i32 operand_1) shift)))
         else if funct7 =? ROT_FUNCT7 then
           when (SUPPORT_ROT C) (Decoded (rotr32 operand_1 shift))
         else Unknown
  | 2 => Decoded (b2z (to_i32 operand_1 <? to_i32 operand_2))
  | 3 => Decoded (b2z (operand_1 <? operand_2))
  | 4 => Decoded (Z.lxor operand_1 operand_2)
  | 6 => Decoded (Z.lor operand_1 operand_2)
  | 7 => Decoded (Z.land operand_1 operand_2)
  | _ => Unknown
  end.

Definition mul_div_value (C : MachineConfig) (funct3 operand_1 operand_2 : Z) : decoded Z :=
  let s1 := to_i32 operand_1 in
  let s2 := to_i32 operand_2 in
  match funct3 with
  | 0 => when (SUPPORT_MUL C) (Decoded (u32 (s1 * s2)))
  | 1 => when (SUPPORT_MUL C && SUPPORT_SIGNED_MUL C)
           (Decoded (u32 (Z.shiftr (to_i64 (u64 (s1 * s2))) 32)))
  | 2 => when (SUPPORT_MUL C && SUPPORT_SIGNED_MUL C)
           (Decoded (u32 (Z.shiftr (to_i64 (u64 (s1 * operand_2))) 32)))
  | 3 => when (SUPPORT_MUL C) (Decoded (u32 (Z.shiftr (u64 (operand_1 * operand_2)) 32)))
  | 4 => when (SUPPORT_DIV C && SUPPORT_SIGNED_DIV C)
           (Decoded (if operand_2 =? 0 then u32 (-1)
                     else if (s1 =? - 2 ^ 31) && (s2 =? -1) then operand_1
                     else u32 (Z.quot s1 s2)))
  | 5 => when (SUPPORT_DIV C)
           (Decoded (if operand_2 =? 0 then 0xffffffff else operand_1 / operand_2))
  | 6 => when (SUPPORT_DIV C && SUPPORT_SIGNED_DIV C)
           (Decoded (if operand_2 =? 0 then operand_1
                     else if (s1 =? - 2 ^ 31) && (s2 =? -1) then 0
                     else u32 (Z.rem s1 s2)))
  | 7 => when (SUPPORT_DIV C)
           (Decoded (if operand_2 =? 0 then operand_1 else operand_1 mod operand_2))
  | _ => Unreachable
  end.

Definition op_value (C : MachineConfig) (funct3 funct7 operand_1 operand_2 : Z) : decoded Z :=
  let shift := Z.land operand_2 0x1f in
  match funct3 with
  | 0 => if funct7 =? 0 then Decoded (wadd operand_1 operand_2)
         else if funct7 =? SUB_FUNCT7 then Decoded (wsub operand_1 operand_2)
         else Unknown
  | 1 => if funct7 =? SLL_FUNCT7 then Decoded (shl32 operand_1 shift)
         else if funct7 =? ROT_FUNCT7 then
           when (SUPPORT_ROT C) (Decoded (rotl32 operand_1 shift))
         else Unknown
  | 5 => if funct7 =? SRL_FUNCT7 then Decoded (shr32 operand_1 shift)
         else if funct7 =? SRA_FUNCT7 then
           when (SUPPORT_SRA C) (Decoded (u32 (Z.shiftr (to_i32 operand_1) shift)))
         else if funct7 =? ROT_FUNCT7 then
           when (SUPPORT_ROT C) (Decoded (rotr32 operand_1 shift))
         else Unknown
  | 2 => Decoded (b2z (to_i32 operand_1 <? to_i32 operand_2))
  | 3 => Decoded (b2z (operand_1 <? operand_2))
  | 4 => Decoded (Z.lxor operand_1 operand_2)
  | 6 => Decoded (Z.lor operand_1 operand_2)
  | 7 => Decoded (Z.land operand_1 operand_2)
  | _ => Unknown
  end.

(** The bytes a LOAD reads. *)
Definition load_size (funct3 : Z) : decoded Z :=
  match funct3 with
  | 0 | 4 => Decoded 1
  | 1 | 5 => Decoded 2
  | 2 => Decoded 4
  | _ => Unknown
  end.

Definition extended_load (C : MachineConfig) (funct3 ram_read_value : Z) : decoded Z :=
  if SUPPORT_SIGNED_LOAD C then
    match funct3 with
    | 0 => Decoded (sign_extend_8 ram_read_value)
    | 1 => Decoded (sign_extend_16 ram_read_value)
    | 2 => Decoded ram_read_value
    | 4 => Decoded (zero_extend_8 ram_read_value)
    | 5 => Decoded (zero_extend_16 ram_read_value)
    | _ => Unreachable
    end
  else
    match funct3 with
    | 0 | 1 => Unknown
    | 2 => Decoded ram_read_value
    | 4 => Decoded (zero_extend_8 ram_read_value)
    | 5 => Decoded (zero_extend_16 ram_read_value)
    | _ => Unreachable
    end.

(** [1 << a] for the accepted STOREs. *)
Definition store_size (funct3 : Z) : decoded Z :=
  match funct3 with 0 => Decoded 1 | 1 => Decoded 2 | 2 => Decoded 4 | _ => Unknown end.

Definition MOP_FUNCT7_TEST : Z := 65.

Definition mop_number (funct7 : Z) : Z :=
  Z.lor (Z.shiftr (Z.land funct7 6) 1) (Z.shiftr (Z.land funct7 32) 5).

Definition mop_value (funct7 rs1_value rs2_value : Z) : decoded Z :=
  let operand_1 := from_nonreduced_u32 rs1_value in
  let operand_2 := from_nonreduced_u32 rs2_value in
  match mop_number funct7 with
  | 0 => Decoded (to_reduced_u32 (add_mod operand_1 operand_2))
  | 1 => Decoded (to_reduced_u32 (sub_mod operand_1 operand_2))
  | 2 => Decoded (to_reduced_u32 (mul_mod operand_1 operand_2))
  | _ => Unknown
  end.

(** ** The delegation dispatch *)

(** [DelegationCSRProcessor::process_write] *)
Class DelegationCSRProcessor (M : Type) : Type := {
  process_write : Z -> comp Empty_set (Deleg M) unit;
}.

Definition NoExtraCSRs_processor (M : Type) : DelegationCSRProcessor M :=
  {| process_write _ := panic "Unsupported CSR index" |}.

Definition DelegationsCSRProcessor_process_write {M} `{MemorySource M} `{U256Ops} (csr_index : Z)
    : comp Empty_set (Deleg M) unit :=
  if csr_index =? BLAKE2_ROUND_FUNCTION_WITH_EXTENDED_CONTROL_ACCESS_ID
  then blake2_round_function_with_extended_control_over_unrolled_state
  else if csr_index =? U256_OPS_WITH_CONTROL_ACCESS_ID
  then u256_ops_with_control_impl_over_unrolled_state
  else panic "Unsupported CSR".

Definition DelegationsCSRProcessor {M} `{MemorySource M} `{U256Ops} : DelegationCSRProcessor M :=
  {| process_write := DelegationsCSRProcessor_process_write |}.

(** ** The cycle *)
Section Cycle.
Context {M ND : Type} `{MemorySource M} `{NonDeterminismCSRSource ND M}
  {CSR : DelegationCSRProcessor M} (C : MachineConfig).
Notation act := (comp Empty_set (Core M ND)).

Definition initial (initial_pc : Z) : RiscV32ObservableState := initial_observable initial_pc.

Definition get_register (reg_idx : Z) : act Z := gets (register_of reg_idx).

(** Returns the previous value. *)
Definition set_register (reg_idx value : Z) : act Z :=
  let value := if reg_idx =? 0 then 0 else value in
  let! existing := gets (register_of reg_idx) in
  modify (with_register reg_idx value) ;;!
  ret existing.

Definition trace (ev : TraceEvent) : act unit := modify (with_events [ev]).
Definition add_marker : act unit := modify (with_marker CycleMarker_add_marker).
Definition add_delegation (id : Z) : act unit :=
  modify (with_marker (CycleMarker_add_delegation id)).
Definition count_new_cycle_for_markers : act unit := modify (with_marker incr_cycle_counter).

Definition on_memory {A} (c : comp Empty_set M A) : act A := zoom memory_source put_memory c.

Definition decoder_step : act Z :=
  let! address := gets (fun c => pc (observable c)) in on_memory (Panicking.opcode_read address).

Definition or_panic {A} (d : decoded A) : act A :=
  match d with Decoded a => ret a | Unknown => panic "Unknown opcode" | Unreachable => panic UB end.

(** [let rd_old_value = self.set_register(..); tracer.trace_rd_write(..)] *)
Definition write_rd (rd rd_value : Z) : act unit :=
  let! rd_old_value := set_register rd rd_value in
  trace (trace_rd_write rd rd_old_value rd_value).

Definition jump (jmp_addr : Z) : act unit :=
  if negb (Z.land jmp_addr 3 =? 0) then panic "Unaligned jump address"
  else modify (with_pc jmp_addr).

Definition exec_lui (opcode rd : Z) : act unit := write_rd rd (UTypeOpcode.imm opcode).

Definition exec_auipc (opcode pc rd : Z) : act unit := write_rd rd (wadd pc (UTypeOpcode.imm opcode)).

Definition exec_jal (opcode pc_ rd : Z) : act unit :=
  let imm := sign_extend (JTypeOpcode.imm opcode) 21 in
  let! rd_value := gets (fun c => pc (observable c)) in
  jump (wadd pc_ imm) ;;!
  write_rd rd rd_value.

Definition exec_jalr (opcode rd rs1_value : Z) : act unit :=
  let imm := sign_extend (ITypeOpcode.imm opcode) 12 in
  let! rd_value := gets (fun c => pc (observable c)) in
  jump (Z.land (wadd rs1_value imm) (not32 1)) ;;!
  write_rd rd rd_value.

Definition exec_branch (opcode pc funct3 rs1_value rs2_value : Z) : act unit :=
  let imm := sign_extend (BTypeOpcode.imm opcode) 13 in
  let jmp_addr := wadd pc imm in
  let! should_jump := or_panic (branch_condition funct3 rs1_value rs2_value) in
  (if should_jump then jump jmp_addr else ret tt) ;;!
  let! rd_old_value := get_register 0 in
  trace (trace_rd_write 0 rd_old_value 0).

Definition exec_op_imm (opcode rd funct3 funct7 rs1_value : Z) : act unit :=
  let operand_2 := sign_extend (ITypeOpcode.imm opcode) 12 in
  let! rd_value := or_panic (op_imm_value C funct3 funct7 rs1_value operand_2) in
  write_rd rd rd_value.

Definition exec_op (rd funct3 funct7 rs1_value rs2_value : Z) : act unit :=
  let! rd_value := or_panic (if funct7 =? M_EXT_FUNCT7
                             then mul_div_value C funct3 rs1_value rs2_value
                             else op_value C funct3 funct7 rs1_value rs2_value) in
  write_rd rd rd_value.

Definition exec_load (opcode rd funct3 rs1_value : Z) : act unit :=
  let imm := sign_extend (ITypeOpcode.imm opcode) 12 in
  let load_address := wadd rs1_value imm in
  let! num_bytes := or_panic (load_size funct3) in
  let! (aligned_ram_read_value, ram_read_value) :=
    on_memory (Panicking.mem_read C load_address num_bytes) in
  trace (trace_ram_read (Z.land load_address (not32 3)) aligned_ram_read_value) ;;!
  let! rd_value := (match extended_load C funct3 ram_read_value with
                    | Unknown => panic "Sign extension not enabled for LOAD"
                    | d => or_panic d
                    end) in
  write_rd rd rd_value.

Definition exec_store (opcode funct3 rs1_value rs2_value : Z) : act unit :=
  let imm := sign_extend (STypeOpcode.imm opcode) 12 in
  let store_address := wadd rs1_value imm in
  let! store_length := or_panic (store_size funct3) in
  let! (aligned_ram_old_value, aligned_ram_write_value) :=
    on_memory (Panicking.mem_write C store_address rs2_value store_length) in
  trace (trace_ram_read_write (Z.land store_address (not32 3))
           aligned_ram_old_value aligned_ram_write_value).

(** [non_determinism_source.read()] and [.write_with_memory_access()] *)
Definition nd_source_read : act Z := fun c =>
  let '(v, nd) := nd_read (non_determinism_source c) in Ok v (with_nd nd c).
Definition nd_source_write (value : Z) : act unit :=
  modify (fun c => with_nd (nd_write_with_memory_access (non_determinism_source c)
                              (memory_source c) value) c).

(** The read half of a CSRRW. *)
Definition csr_read (csr_number rd : Z) : act Z :=
  if csr_number =? NON_DETERMINISM_CSR then
    let! rd_value := (if SHOULD_MOCK_READS_BEFORE_WRITES (ND:=ND) (M:=M) && (rd =? 0)
                      then ret 0 else nd_source_read) in
    trace (trace_non_determinism_read rd_value) ;;! ret rd_value
  else ret 0.

(** The write half; it returns [delegation_type]. *)
Definition csr_write (csr_number formal_rs1 rs1_value : Z) : act Z :=
  if csr_number =? NON_DETERMINISM_CSR then
    (if SHOULD_IGNORE_WRITES_AFTER_READS (ND:=ND) (M:=M) && (formal_rs1 =? 0)
     then ret tt else nd_source_write rs1_value) ;;!
    trace (trace_non_determinism_write rs1_value) ;;!
    ret (u16 NON_DETERMINISM_CSR)
  else if csr_number =? MARKER_CSR then add_marker ;;! ret 0
  else
    add_delegation csr_number ;;!
    zoom as_deleg put_deleg (process_write (u16 csr_number)) ;;!
    ret (u16 csr_number).

Definition exec_mop (rd funct7 rs1_value rs2_value : Z) : act unit :=
  if SUPPORT_MOPS C && (Z.land funct7 MOP_FUNCT7_TEST =? MOP_FUNCT7_TEST) then
    let! rd_value := or_panic (mop_value funct7 rs1_value rs2_value) in
    write_rd rd rd_value
  else ret tt.

Definition exec_csr (opcode rd funct3 formal_rs1 rs1_value : Z) : act unit :=
  assert_or_panic (negb (SUPPORT_STANDARD_CSRS C)) "assertion failed: SUPPORT_STANDARD_CSRS" ;;!
  assert_or_panic (SUPPORT_ONLY_CSRRW C) "assertion failed: SUPPORT_ONLY_CSRRW" ;;!
  let csr_number := ITypeOpcode.imm opcode in
  let! rd_value := csr_read csr_number rd in
  if negb (funct3 =? 1) then panic "Unknown opcode"
  else
    let! delegation_type := csr_write csr_number formal_rs1 rs1_value in
    assert_or_panic ((delegation_type =? u16 NON_DETERMINISM_CSR) || (rd_value =? 0))
      "assertion failed: rd_value == 0" ;;!
    write_rd rd rd_value.

Definition exec_system (opcode rd funct3 funct7 formal_rs1 rs1_value rs2_value : Z) : act unit :=
  if funct3 =? 4 then exec_mop rd funct7 rs1_value rs2_value
  else if negb (Z.land funct3 3 =? 0) then exec_csr opcode rd funct3 formal_rs1 rs1_value
  else panic "Unknown opcode".

(** [match op { .. }] *)
Definition execute (opcode pc rs1_value rs2_value : Z) : act unit :=
  let rd := get_rd_bits opcode in
  let formal_rs1 := get_formal_rs1_bits opcode in
  let op := get_opcode_bits opcode in
  let funct3 := funct3_bits opcode in
  let funct7 := funct7_bits opcode in
  if op =? OPCODE_LUI then exec_lui opcode rd
  else if op =? OPCODE_AUIPC then exec_auipc opcode pc rd
  else if op =? OPCODE_JAL then exec_jal opcode pc rd
  else if op =? OPCODE_JALR then exec_jalr opcode rd rs1_value
  else if op =? OPCODE_BRANCH then exec_branch opcode pc funct3 rs1_value rs2_value
  else if op =? OP_IMM_SUBMASK then exec_op_imm opcode rd funct3 funct7 rs1_value
  else if op =? OP_SUBMASK then exec_op rd funct3 funct7 rs1_value rs2_value
  else if op =? OPCODE_LOAD then exec_load opcode rd funct3 rs1_value
  else if op =? OPCODE_STORE then exec_store opcode funct3 rs1_value rs2_value
  else if op =? OPCODE_SYSTEM then exec_system opcode rd funct3 funct7 formal_rs1 rs1_value rs2_value
  else panic "Unknown opcode".

Definition cycle : act bool :=
  let! start := gets observable in
  trace (at_cycle_start start) ;;!
  let! opcode := decoder_step in
  let formal_rs1 := get_formal_rs1_bits opcode in
  let formal_rs2 := get_formal_rs2_bits opcode in
  let pc_ := pc start in
  modify (with_pc (wadd pc_ 4)) ;;!
  let! rs1_value := get_register formal_rs1 in
  trace (trace_rs1_read formal_rs1 rs1_value) ;;!
  let! rs2_value := (if negb (get_opcode_bits opcode =? OPCODE_LOAD) then
                       let! rs2_value := get_register formal_rs2 in
                       trace (trace_rs2_read formal_rs2 rs2_value) ;;!
                       ret rs2_value
                     else ret 0) in
  execute opcode pc_ rs1_value rs2_value ;;!
  count_new_cycle_for_markers ;;!
  let! final := gets observable in
  trace (at_cycle_end final) ;;!
  ret (pc final =? pc_).

Fixpoint run_cycles (num_cycles : nat) (finished_execution : bool) : act bool :=
  match num_cycles with
  | O => ret finished_execution
  | S n =>
      let! finished := cycle in
      run_cycles n (if finished then true else finished_execution)
  end.
End Cycle.
End V2.

(** ** The field instructions *)

(** funct7 of [mop.rr.n], as the Zimop extension encodes the number [n]. *)
Definition mop_rr_funct7 (n : Z) : Z := 0x41 + 2 * (n mod 4) + 0x20 * (n / 4).

(** C38: [mop.rr.0], [mop.rr.1] and [mop.rr.2] add, subtract and multiply their
    operands, any words at all, in the Mersenne-31 field and give the canonical
    representative; [mop.rr.3], [.6] and [.7] are refused.  Bit 2 of the number
    lands on bit 0, so [mop.rr.4] and [mop.rr.5] are executed as subtractions
    too. *)
Theorem mop_is_field_arithmetic n a b : 0 <= n < 8 -> is_u32 a -> is_u32 b ->
  V2.mop_value (mop_rr_funct7 n) a b =
    match n with
    | 0 => Decoded ((a + b) mod ORDER)
    | 1 | 4 | 5 => Decoded ((a - b) mod ORDER)
    | 2 => Decoded ((a * b) mod ORDER)
    | _ => Unknown
    end.
Proof.
  intros Hn Ha Hb. unfold V2.mop_value. cbv zeta. rewrite !from_nonreduced_spec by auto.
  assert (Hr : forall x, repr (x mod ORDER)).
  { intros x. pose proof (Z.mod_pos_bound x ORDER ltac:(reflexivity)). unfold repr. lia. }
  rewrite to_reduced_add, to_reduced_sub, to_reduced_mul by auto.
  rewrite <- Zplus_mod, <- Zminus_mod, <- Zmult_mod.
  assert (Hcase : n = 0 \/ n = 1 \/ n = 2 \/ n = 3 \/ n = 4 \/ n = 5 \/ n = 6 \/ n = 7) by lia.
  decompose [or] Hcase; subst n; reflexivity.
Qed.

Lemma mop_is_field_arithmetic_witness :
  V2.mop_value (mop_rr_funct7 2) (2 ^ 31) (2 ^ 32 - 1) = Decoded 1 /\
  V2.mop_value (mop_rr_funct7 4) 0 1 = Decoded (ORDER - 1).
Proof.
  split.
  - rewrite (mop_is_field_arithmetic 2 (2 ^ 31) (2 ^ 32 - 1)) by (unfold is_u32; lia). reflexivity.
  - rewrite (mop_is_field_arithmetic 4 0 1) by (unfold is_u32; lia). reflexivity.
Defined.
