(* ===== verification/State.v ===== *)
(** * The first simulator

    [src/risc_v_simulator/src/cycle/state.rs]: [cycle] and [cycle_ext] of
    [RiscV32State], with privilege modes, address translation, machine-mode
    trap registers, the standard CSRs and exception handling, and the
    delegation dispatch of [delegations/mod.rs].  Leaving the ['cycle_block]
    with a trap is [Trapped]; [recover] is the code after the block. *)
From stdpp Require Import base list gmap strings.
From Stdlib Require Import ZArith Lia.
From S2P Require Import Prelude MachineInt Decoder Field StatusRegisters Config Memory.
From S2P Require Import NonDeterminism Mmu Delegations Cycle.

Module V1.

(** ** Registers of the machine mode *)

Record TrapStateRegisters : Type := { status : Z; ie : Z; ip : Z }.
Record TrapSetupRegisters : Type := { tvec : Z }.
Record TrapHandlingRegisters : Type := { scratch : Z; epc : Z; cause : Z; tval : Z }.
Record ModeStatusAndTrapRegisters : Type := {
  state : TrapStateRegisters;
  setup : TrapSetupRegisters;
  handling : TrapHandlingRegisters;
}.

Definition set_status (v : Z) (r : ModeStatusAndTrapRegisters) : ModeStatusAndTrapRegisters :=
  {| state := {| status := v; ie := ie (state r); ip := ip (state r) |};
     setup := setup r; handling := handling r |}.
Definition set_ie (v : Z) (r : ModeStatusAndTrapRegisters) : ModeStatusAndTrapRegisters :=
  {| state := {| status := status (state r); ie := v; ip := ip (state r) |};
     setup := setup r; handling := handling r |}.
Definition set_ip (v : Z) (r : ModeStatusAndTrapRegisters) : ModeStatusAndTrapRegisters :=
  {| state := {| status := status (state r); ie := ie (state r); ip := v |};
     setup := setup r; handling := handling r |}.
Definition set_tvec (v : Z) (r : ModeStatusAndTrapRegisters) : ModeStatusAndTrapRegisters :=
  {| state := state r; setup := {| tvec := v |}; handling := handling r |}.
Definition set_handling (h : TrapHandlingRegisters) (r : ModeStatusAndTrapRegisters)
    : ModeStatusAndTrapRegisters :=
  {| state := state r; setup := setup r; handling := h |}.
Definition set_scratch (v : Z) (r : ModeStatusAndTrapRegisters) : ModeStatusAndTrapRegisters :=
  let h := handling r in
  set_handling {| scratch := v; epc := epc h; cause := cause h; tval := tval h |} r.
Definition set_epc (v : Z) (r : ModeStatusAndTrapRegisters) : ModeStatusAndTrapRegisters :=
  let h := handling r in
  set_handling {| scratch := scratch h; epc := v; cause := cause h; tval := tval h |} r.
Definition set_cause (v : Z) (r : ModeStatusAndTrapRegisters) : ModeStatusAndTrapRegisters :=
  let h := handling r in
  set_handling {| scratch := scratch h; epc := epc h; cause := v; tval := tval h |} r.
Definition set_tval (v : Z) (r : ModeStatusAndTrapRegisters) : ModeStatusAndTrapRegisters :=
  let h := handling r in
  set_handling {| scratch := scratch h; epc := epc h; cause := cause h; tval := v |} r.

(** [RiscV32State] together with what [cycle_ext] is given: the state the
    simulators share is [core]. *)
Record RiscV32State (M ND MMU : Type) : Type := {
  core : Core M ND;
  extra_flags : Z;
  timer : Z;
  timer_match : Z;
  machine_mode_trap_data : ModeStatusAndTrapRegisters;
  sapt : Z;
  mmu : MMU;
}.
Arguments core {M ND MMU}.
Arguments extra_flags {M ND MMU}.
Arguments timer {M ND MMU}.
Arguments timer_match {M ND MMU}.
Arguments machine_mode_trap_data {M ND MMU}.
Arguments sapt {M ND MMU}.
Arguments mmu {M ND MMU}.

Section Update.
Context {M ND MMU : Type}.
Notation St := (RiscV32State M ND MMU).
Definition with_core (f : Core M ND -> Core M ND) (s : St) : St :=
  {| core := f (core s); extra_flags := extra_flags s; timer := timer s;
     timer_match := timer_match s; machine_mode_trap_data := machine_mode_trap_data s;
     sapt := sapt s; mmu := mmu s |}.
Definition with_extra_flags (f : Z -> Z) (s : St) : St :=
  {| core := core s; extra_flags := f (extra_flags s); timer := timer s;
     timer_match := timer_match s; machine_mode_trap_data := machine_mode_trap_data s;
     sapt := sapt s; mmu := mmu s |}.
Definition with_trap_data (f : ModeStatusAndTrapRegisters -> ModeStatusAndTrapRegisters) (s : St) : St :=
  {| core := core s; extra_flags := extra_flags s; timer := timer s;
     timer_match := timer_match s; machine_mode_trap_data := f (machine_mode_trap_data s);
     sapt := sapt s; mmu := mmu s |}.
Definition with_sapt (v : Z) (s : St) : St :=
  {| core := core s; extra_flags := extra_flags s; timer := timer s;
     timer_match := timer_match s; machine_mode_trap_data := machine_mode_trap_data s;
     sapt := v; mmu := mmu s |}.
Definition with_mmu (v : MMU) (s : St) : St :=
  {| core := core s; extra_flags := extra_flags s; timer := timer s;
     timer_match := timer_match s; machine_mode_trap_data := machine_mode_trap_data s;
     sapt := sapt s; mmu := v |}.
End Update.

Definition initial_trap_data : ModeStatusAndTrapRegisters := {|
  state := {| status := 0; ie := 0; ip := 0 |};
  setup := {| tvec := 0 |};
  handling := {| scratch := 0; epc := 0; cause := 0; tval := 0 |};
|}.

Definition initial {M ND MMU} (initial_pc : Z) (m : M) (nd : ND) (mmu_ : MMU) : RiscV32State M ND MMU := {|
  core := {| observable := initial_observable initial_pc; memory_source := m;
             non_determinism_source := nd; tracer := []; cycle_marker := CycleMarker_new |};
  extra_flags := ExtraFlags.set_mode 0 Machine;
  timer := 0;
  timer_match := 2 ^ 64 - 1;
  machine_mode_trap_data := initial_trap_data;
  sapt := 0;
  mmu := mmu_;
|}.

(** ** Values computed by the opcode arms *)

Definition branch_condition (funct3 rs1 rs2 : Z) : decoded bool :=
  match funct3 with
  | 0 => Decoded (rs1 =? rs2)
  | 1 => Decoded (negb (rs1 =? rs2))
  | 4 => Decoded (to_i32 rs1 <? to_i32 rs2)
  | 5 => Decoded (to_i32 rs2 <=? to_i32 rs1)
  | 6 => Decoded (rs1 <? rs2)
  | 7 => Decoded (rs2 <=? rs1)
  | _ => Unknown
  end.

Definition mul_div_value (C : MachineConfig) (funct3 operand_1 operand_2 : Z) : decoded Z :=
  let s1 := to_i32 operand_1 in
  let s2 := to_i32 operand_2 in
  match funct3 with
  | 0 => when (SUPPORT_MUL C) (Decoded (u32 (s1 * s2)))
  | 1 => when (SUPPORT_MUL C && SUPPORT_SIGNED_MUL C)
           (Decoded (u32 (Z.shiftr (to_i64 (u64 (s1 * s2))) 32)))
  | 2 => when (SUPPORT_MUL C && SUPPORT_SIGNED_MUL C)
           (Decoded (u32 (Z.shiftr (to_i64 (u64 (s1 * operand_2))) 32)))
  | 3 => when (SUPPORT_MUL C) (Decoded (u32 (Z.shiftr (u64 (operand_1 * operand_2)) 32)))
  | 4 => when (SUPPORT_DIV C && SUPPORT_SIGNED_DIV C)
           (Decoded (if operand_2 =? 0 then u32 (-1)
                     else if (s1 =? - 2 ^ 31) && (s2 =? -1) then operand_1
                     else u32 (Z.quot s1 s2)))
  | 5 => when (SUPPORT_DIV C)
           (Decoded (if operand_2 =? 0 then 0xffffffff else operand_1 / operand_2))
  | 6 => when (SUPPORT_DIV C && SUPPORT_SIGNED_DIV C)
           (Decoded (if operand_2 =? 0 then operand_1
                     else if (s1 =? - 2 ^ 31) && (s2 =? -1) then 0
                     else u32 (Z.rem s1 s2)))
  | 7 => when (SUPPORT_DIV C)
           (Decoded (if operand_2 =? 0 then operand_1 else operand_1 mod operand_2))
  | _ => Unreachable
  end.

Definition ARITHMETIC_SHIFT_RIGHT_TEST_MASK : Z := 0x40000000.
Definition SUB_TEST_MASK : Z := 0x40000000.
Definition ROTATE_MASK : Z := 0x60000000.

(** The basic set, before the encoding is validated. *)
Definition op_value (C : MachineConfig) (is_r_type : bool) (instr funct3 operand_1 operand_2 : Z)
    : decoded Z :=
  let shift := Z.land operand_2 0x1f in
  match funct3 with
  | 0 => if is_r_type && negb (Z.land instr SUB_TEST_MASK =? 0)
         then Decoded (wsub operand_1 operand_2) else Decoded (wadd operand_1 operand_2)
  | 1 => if negb (Z.land instr ROTATE_MASK =? 0)
         then when (SUPPORT_ROT C) (Decoded (rotl32 operand_1 shift))
         else Decoded (shl32 operand_1 shift)
  | 2 => Decoded (b2z (to_i32 operand_1 <? to_i32 operand_2))
  | 3 => Decoded (b2z (operand_1 <? operand_2))
  | 4 => Decoded (Z.lxor operand_1 operand_2)
  | 5 => if Z.land instr ROTATE_MASK =? ROTATE_MASK
         then when (SUPPORT_ROT C) (Decoded (rotr32 operand_1 shift))
         else if negb (Z.land instr ARITHMETIC_SHIFT_RIGHT_TEST_MASK =? 0)
         then when (SUPPORT_SRA C) (Decoded (u32 (Z.shiftr (to_i32 operand_1) shift)))
         else Decoded (shr32 operand_1 shift)
  | 6 => Decoded (Z.lor operand_1 operand_2)
  | 7 => Decoded (Z.land operand_1 operand_2)
  | _ => Unreachable
  end.

Definition valid_encoding (is_r_type : bool) (funct3 funct7 : Z) : bool :=
  if negb is_r_type then
    match funct3 with
    | 1 => (funct7 =? 0) || (funct7 =? 48)
    | 5 => (funct7 =? 0) || (funct7 =? 32) || (funct7 =? 48)
    | _ => true
    end
  else
    match funct3 with
    | 0 | 5 => (funct7 =? 0) || (funct7 =? 32)
    | _ => funct7 =? 0
    end.

Definition load_size (funct3 : Z) : decoded Z :=
  match funct3 with
  | 0 | 4 => Decoded 1
  | 1 | 5 => Decoded 2
  | 2 => Decoded 4
  | _ => Unknown
  end.

Definition extended_load (C : MachineConfig) (funct3 operand : Z) : decoded Z :=
  if SUPPORT_SIGNED_LOAD C then
    match funct3 with
    | 0 => Decoded (sign_extend_8 operand)
    | 1 => Decoded (sign_extend_16 operand)
    | 2 => Decoded operand
    | 4 => Decoded (zero_extend_8 operand)
    | 5 => Decoded (zero_extend_16 operand)
    | _ => Unreachable
    end
  else
    match funct3 with
    | 0 => Unknown
    | 1 => Unknown
    | 2 => Decoded operand
    | 4 => Decoded (zero_extend_8 operand)
    | 5 => Decoded (zero_extend_16 operand)
    | _ => Unreachable
    end.

Definition store_size (funct3 : Z) : decoded Z :=
  match funct3 with 0 => Decoded 1 | 1 => Decoded 2 | 2 => Decoded 4 | _ => Unknown end.

(** The value a CSR instruction writes. *)
Definition csr_write_val (C : MachineConfig) (funct3 ret_val rs1 rs1_as_imm : Z) : decoded Z :=
  if negb (SUPPORT_ONLY_CSRRW C) then
    match funct3 with
    | 1 => Decoded rs1
    | 2 => Decoded (Z.lor ret_val rs1)
    | 3 => Decoded (Z.land ret_val (not32 rs1))
    | 5 => Decoded rs1_as_imm
    | 6 => Decoded (Z.lor ret_val rs1_as_imm)
    | 7 => Decoded (Z.land ret_val (not32 rs1_as_imm))
    | _ => Unknown
    end
  else match funct3 with 1 => Decoded rs1 | _ => Unknown end.

Definition MOP_FUNCT7_TEST : Z := 65.

Definition mop_number (funct7 : Z) : Z :=
  Z.lor (Z.shiftr (Z.land funct7 6) 1) (Z.shiftr (Z.land funct7 32) 5).

Definition mop_value (C : MachineConfig) (funct7 rs1 rs2 : Z) : decoded Z :=
  if Z.land funct7 MOP_FUNCT7_TEST =? MOP_FUNCT7_TEST then
    when (SUPPORT_MOPS C)
      (let operand_1 := from_nonreduced_u32 rs1 in
       let operand_2 := from_nonreduced_u32 rs2 in
       match mop_number funct7 with
       | 0 => Decoded (to_reduced_u32 (add_mod operand_1 operand_2))
       | 1 => Decoded (to_reduced_u32 (sub_mod operand_1 operand_2))
       | 2 => Decoded (to_reduced_u32 (mul_mod operand_1 operand_2))
       | _ => Unknown
       end)
  else Unknown.

(** ** The CSR processors *)

(** [CustomCSRProcessor]; a read returns [ret_val]. *)
Class CustomCSRProcessor (M : Type) : Type := {
  process_read : Z -> Z -> Z -> comp TrapReason (Deleg M) Z;
  process_write : Z -> Z -> Z -> comp TrapReason (Deleg M) unit;
}.

Definition NoExtraCSRs_processor (M : Type) : CustomCSRProcessor M := {|
  process_read _ _ _ := trap_with IllegalInstruction;
  process_write _ _ _ := trap_with IllegalInstruction;
|}.

Definition DelegationsCSRProcessor_process_read {M} (csr_index rs1_value zimm : Z)
    : comp TrapReason (Deleg M) Z :=
  if csr_index =? BLAKE2_ROUND_FUNCTION_WITH_EXTENDED_CONTROL_ACCESS_ID then ret 0
  else if csr_index =? U256_OPS_WITH_CONTROL_ACCESS_ID then ret 0
  else trap_with IllegalInstruction.

Definition DelegationsCSRProcessor_process_write {M} `{MemorySource M} `{U256Ops}
    (csr_index rs1_value zimm : Z) : comp TrapReason (Deleg M) unit :=
  if csr_index =? BLAKE2_ROUND_FUNCTION_WITH_EXTENDED_CONTROL_ACCESS_ID
  then blake2_round_function_with_extended_control rs1_value
  else if csr_index =? U256_OPS_WITH_CONTROL_ACCESS_ID
  then u256_ops_with_control_impl rs1_value
  else trap_with IllegalInstruction.

Definition DelegationsCSRProcessor {M} `{MemorySource M} `{U256Ops} : CustomCSRProcessor M := {|
  process_read := DelegationsCSRProcessor_process_read;
  process_write := DelegationsCSRProcessor_process_write;
|}.

(** ** The cycle *)

(** The code after a block that may be left with a trap. *)
Definition recover {E E' S A} (c : comp E S A) (handler : E -> comp E' S A) : comp E' S A :=
  fun s => match c s with
           | Ok a s' => Ok a s'
           | Trapped e s' => handler e s'
           | Panic msg => Panic msg
           end.

Definition map_trap {E E' S A} (f : E -> E') (c : comp E S A) : comp E' S A :=
  recover c (fun e => trap_with (f e)).

(** [trap: &mut TrapReason] of a trait method, checked right after the call. *)
Definition trapping {S A} (a : access A) : comp TrapReason S A :=
  match a with
  | Accessed v => ret v
  | Faulted t _ => trap_with t
  | AccessPanic msg => panic msg
  end.

Section Cycle.
Context {M ND MMU : Type} `{MemorySource M} `{NonDeterminismCSRSource ND M}
  `{MMUImplementation MMU M} {CSR : CustomCSRProcessor M} (C : MachineConfig).
Notation St := (RiscV32State M ND MMU).

Section Basic.
Context {E : Type}.
Definition on_core {A} (c : comp E (Core M ND) A) : comp E St A :=
  zoom core (fun k => with_core (fun _ => k)) c.
Definition trace (ev : TraceEvent) : comp E St unit := modify (with_core (with_events [ev])).
Definition add_marker : comp E St unit := modify (with_core (with_marker CycleMarker_add_marker)).
Definition add_delegation (id : Z) : comp E St unit :=
  modify (with_core (with_marker (CycleMarker_add_delegation id))).
Definition count_new_cycle_for_markers : comp E St unit :=
  modify (with_core (with_marker incr_cycle_counter)).

Definition get_first_register (reg_idx : Z) : comp E St Z :=
  let! res := gets (fun s => register_of reg_idx (core s)) in
  trace (trace_rs1_read reg_idx res) ;;! ret res.

Definition get_second_register (reg_idx : Z) : comp E St Z :=
  let! res := gets (fun s => register_of reg_idx (core s)) in
  trace (trace_rs2_read reg_idx res) ;;! ret res.

Definition set_register (reg_idx value : Z) : comp E St unit :=
  let value := if reg_idx =? 0 then 0 else value in
  let! read_value := gets (fun s => register_of reg_idx (core s)) in
  modify (with_core (with_register reg_idx value)) ;;!
  trace (trace_rd_write reg_idx read_value value).
End Basic.

Notation act := (comp TrapReason St).

Definition on_memtrace {A} (c : comp TrapReason (MemTrace M) A) : act A :=
  on_core (zoom as_memtrace put_memtrace c).
Definition on_deleg {A} (c : comp TrapReason (Deleg M) A) : act A :=
  on_core (zoom as_deleg put_deleg c).

Definition or_illegal {A} (d : decoded A) : act A :=
  match d with Decoded a => ret a | Unknown => trap_with IllegalInstruction | Unreachable => panic UB end.

Definition translate (virt_address : Z) (mode : Mode) (access_type : AccessType) : act Z :=
  let! unit_ := gets mmu in on_memtrace (map_virtual_to_physical unit_ virt_address mode access_type).

(** Destination register, value written back and [pc] before the final
    increment. *)
Definition completion : Type := Z * Z * Z.

Definition jump_target (jmp_addr : Z) : act Z :=
  if negb (Z.land jmp_addr 3 =? 0) then trap_with InstructionAddressMisaligned else ret jmp_addr.

Definition exec_lui (instr pc rd : Z) : act completion := ret (rd, UTypeOpcode.imm instr, pc).

Definition exec_auipc (instr pc rd : Z) : act completion :=
  ret (rd, wadd pc (UTypeOpcode.imm instr), pc).

Definition exec_jal (instr pc rd : Z) : act completion :=
  let rel_addr := sign_extend (JTypeOpcode.imm instr) 21 in
  let ret_val := wadd pc 4 in
  let! target := jump_target (wadd (wsub pc 4) rel_addr) in
  ret (rd, ret_val, target).

Definition exec_jalr (instr pc rd rs1 : Z) : act completion :=
  let imm := sign_extend (ITypeOpcode.imm instr) 12 in
  let ret_val := wadd pc 4 in
  let! target := jump_target (wsub (Z.land (wadd rs1 imm) (not32 1)) 4) in
  ret (rd, ret_val, target).

Definition exec_branch (instr pc rs1 rs2 : Z) : act completion :=
  let imm := sign_extend (BTypeOpcode.imm instr) 13 in
  let dst := wsub (wadd pc imm) 4 in
  let funct3 := BTypeOpcode.funct3 instr in
  let! should_jump := or_illegal (branch_condition funct3 rs1 rs2) in
  if should_jump : bool then let! target := jump_target dst in ret (0, 0, target)
  else ret (0, 0, pc).

Definition exec_load (mode : Mode) (instr pc rd rs1 : Z) : act completion :=
  let imm := sign_extend (ITypeOpcode.imm instr) 12 in
  let virtual_address := wadd rs1 imm in
  let! operand_phys_address := translate virtual_address mode MemLoad in
  let funct3 := ITypeOpcode.funct3 instr in
  let! num_bytes := or_illegal (load_size funct3) in
  let! operand := on_memtrace (Trapping.mem_read C operand_phys_address num_bytes MemLoad) in
  let! ret_val := or_illegal (extended_load C funct3 operand) in
  ret (rd, ret_val, pc).

Definition exec_store (mode : Mode) (instr pc rs1 rs2 : Z) : act completion :=
  let imm := sign_extend (STypeOpcode.imm instr) 12 in
  let virtual_address := wadd imm rs1 in
  let! operand_phys_address := translate virtual_address mode MemStore in
  let funct3 := STypeOpcode.funct3 instr in
  let! store_length := or_illegal (store_size funct3) in
  on_memtrace (Trapping.mem_write C operand_phys_address rs2 store_length) ;;!
  ret (0, 0, pc).

Definition TEST_REG_REG_MASK : Z := 0x20.

Definition exec_op (instr pc rd rs1 rs2 : Z) : act completion :=
  let is_r_type := negb (Z.land instr TEST_REG_REG_MASK =? 0) in
  let operand_2 := if is_r_type then rs2 else sign_extend (ITypeOpcode.imm instr) 12 in
  let funct3 := RTypeOpcode.funct3 instr in
  let funct7 := RTypeOpcode.funct7 instr in
  if is_r_type && (funct7 =? 1) then
    let! ret_val := or_illegal (mul_div_value C funct3 rs1 operand_2) in
    ret (rd, ret_val, pc)
  else
    let! ret_val := or_illegal (op_value C is_r_type instr funct3 rs1 operand_2) in
    if negb (valid_encoding is_r_type funct3 funct7) then trap_with IllegalInstruction
    else ret (rd, ret_val, pc).

Definition nd_source_read : act Z := fun s =>
  let '(v, nd) := nd_read (non_determinism_source (core s)) in Ok v (with_core (with_nd nd) s).
Definition nd_source_write (value : Z) : act unit :=
  modify (with_core (fun c => with_nd (nd_write_with_memory_access (non_determinism_source c)
                                         (memory_source c) value) c)).

(** The three CSRs that do not depend on [SUPPORT_STANDARD_CSRS]: read and
    write halves. *)
Definition csr_read_custom (csr_number rd rs1 rs1_as_imm : Z) : act Z :=
  if csr_number =? NON_DETERMINISM_CSR then
    let! ret_val := (if SHOULD_MOCK_READS_BEFORE_WRITES (ND:=ND) (M:=M) && (rd =? 0)
                     then ret 0 else nd_source_read) in
    trace (trace_non_determinism_read ret_val) ;;! ret ret_val
  else if csr_number =? MARKER_CSR then ret 0
  else
    assert_or_panic (allows_csr C csr_number) "Machine is not configured to support CSR number" ;;!
    on_deleg (process_read csr_number rs1 rs1_as_imm).

Definition csr_write_custom (csr_number rs1 rs1_as_imm write_val : Z) : act unit :=
  if csr_number =? NON_DETERMINISM_CSR then
    (if SHOULD_IGNORE_WRITES_AFTER_READS (ND:=ND) (M:=M) && (rs1_as_imm =? 0)
     then ret tt else nd_source_write write_val)
  else if csr_number =? MARKER_CSR then add_marker
  else
    assert_or_panic (allows_csr C csr_number) "Machine is not configured to support CSR number" ;;!
    add_delegation csr_number ;;!
    on_deleg (process_write csr_number rs1 rs1_as_imm).

Definition trap_data {A} (f : ModeStatusAndTrapRegisters -> A) : act A :=
  gets (fun s => f (machine_mode_trap_data s)).

Definition csr_read_standard (mode : Mode) (csr_number rd rs1 rs1_as_imm : Z) : act Z :=
  if csr_number =? 0x180 then let! unit_ := gets mmu in trapping (read_sapt unit_ mode)
  else if csr_number =? 0x300 then trap_data (fun r => status (state r))
  else if csr_number =? 0x304 then trap_data (fun r => ie (state r))
  else if csr_number =? 0x305 then trap_data (fun r => tvec (setup r))
  else if csr_number =? 0x340 then trap_data (fun r => scratch (handling r))
  else if csr_number =? 0x341 then trap_data (fun r => epc (handling r))
  else if csr_number =? 0x342 then trap_data (fun r => cause (handling r))
  else if csr_number =? 0x343 then trap_data (fun r => tval (handling r))
  else if csr_number =? 0x344 then trap_data (fun r => ip (state r))
  else csr_read_custom csr_number rd rs1 rs1_as_imm.

Definition csr_write_standard (mode : Mode) (csr_number rs1 rs1_as_imm write_val : Z) : act unit :=
  if csr_number =? 0x180 then
    let! unit_ := gets mmu in
    let! unit_' := trapping (write_sapt unit_ write_val mode) in
    modify (with_mmu unit_')
  else if csr_number =? 0x300 then modify (with_trap_data (set_status write_val))
  else if csr_number =? 0x304 then modify (with_trap_data (set_ie write_val))
  else if csr_number =? 0x305 then modify (with_trap_data (set_tvec write_val))
  else if csr_number =? 0x340 then modify (with_trap_data (set_scratch write_val))
  else if csr_number =? 0x341 then modify (with_trap_data (set_epc write_val))
  else if csr_number =? 0x342 then modify (with_trap_data (set_cause write_val))
  else if csr_number =? 0x343 then modify (with_trap_data (set_tval write_val))
  else if csr_number =? 0x344 then modify (with_trap_data (set_ip write_val))
  else csr_write_custom csr_number rs1 rs1_as_imm write_val.

Definition exec_csr (mode : Mode) (instr rd funct3 csr_number rs1 : Z) : act Z :=
  let! csr_privilege_mode :=
    or_ub (Mode_from_proper_bit_value (get_bits_and_align_right csr_number 8 2)) in
  if Mode_as_register_value mode <? Mode_as_register_value csr_privilege_mode
  then trap_with IllegalInstruction
  else
    let rs1_as_imm := ITypeOpcode.rs1 instr in
    if negb (SUPPORT_STANDARD_CSRS C) then
      let! ret_val := csr_read_custom csr_number rd rs1 rs1_as_imm in
      let! write_val := or_illegal (csr_write_val C funct3 ret_val rs1 rs1_as_imm) in
      csr_write_custom csr_number rs1 rs1_as_imm write_val ;;!
      ret ret_val
    else
      let! ret_val := csr_read_standard mode csr_number rd rs1 rs1_as_imm in
      let! write_val := or_illegal (csr_write_val C funct3 ret_val rs1 rs1_as_imm) in
      csr_write_standard mode csr_number rs1 rs1_as_imm write_val ;;!
      ret ret_val.

Definition exec_system (mode : Mode) (instr pc rd rs1 rs2 : Z) : act completion :=
  let funct3 := ITypeOpcode.funct3 instr in
  let csr_number := ITypeOpcode.imm instr in
  if negb (Z.land funct3 3 =? 0) then
    let! ret_val := exec_csr mode instr rd funct3 csr_number rs1 in ret (rd, ret_val, pc)
  else if funct3 =? 0 then trap_with IllegalInstruction
  else if Z.land funct3 4 =? 4 then
    let! ret_val := or_illegal (mop_value C (RTypeOpcode.funct7 instr) rs1 rs2) in
    ret (rd, ret_val, pc)
  else trap_with IllegalInstruction.

(** [match instr & LOWEST_7_BITS_MASK { .. }] *)
Definition execute (mode : Mode) (instr pc rd rs1 rs2 : Z) : act completion :=
  let op := Z.land instr 0x7f in
  if op =? 0x37 then exec_lui instr pc rd
  else if op =? 0x17 then exec_auipc instr pc rd
  else if op =? 0x6f then exec_jal instr pc rd
  else if op =? 0x67 then exec_jalr instr pc rd rs1
  else if op =? 0x63 then exec_branch instr pc rs1 rs2
  else if op =? 0x03 then exec_load mode instr pc rd rs1
  else if op =? 0x23 then exec_store mode instr pc rs1 rs2
  else if (op =? 0x13) || (op =? 0x33) then exec_op instr pc rd rs1 rs2
  else if op =? 0x73 then exec_system mode instr pc rd rs1 rs2
  else trap_with IllegalInstruction.

(** What [mem_read] returns for a fetch that faults. *)
Definition faulted_instr (m : M) (phys_address : Z) : Z :=
  if legal_access C (Z.land phys_address 3) 4 then
    match ms_get m (aligned_address phys_address) Instruction with Faulted _ v => v | _ => 0 end
  else 0.

(** A trap of the block carries [instr] as it was. *)
Definition fetch (mode : Mode) (pc : Z) : comp (TrapReason * Z) St Z :=
  let! instruction_phys_address := map_trap (fun t => (t, 0)) (translate pc mode Instruction) in
  let! m := gets (fun s => memory_source (core s)) in
  map_trap (fun t => (t, faulted_instr m instruction_phys_address))
    (on_memtrace (Trapping.mem_read C instruction_phys_address 4 Instruction)).

(** Everything after the fetch, up to the end of the block; returns [pc]. *)
Definition decode_and_execute (mode : Mode) (pc instr : Z) : act Z :=
  let rd := get_rd instr in
  let! rs1 := get_first_register (get_formal_rs1 instr) in
  let! rs2 := get_second_register (get_formal_rs2 instr) in
  let! (rd, ret_val, pc) := execute mode instr pc rd rs1 rs2 in
  set_register rd ret_val ;;!
  ret (wadd pc 4).

Definition cycle_block (mode : Mode) (pc : Z) : comp (TrapReason * Z) St Z :=
  let! instr := fetch mode pc in
  map_trap (fun t => (t, instr)) (decode_and_execute mode pc instr).

(** The trap handler; returns [pc]. *)
Definition handle_trap (pc : Z) (trap_instr : TrapReason * Z) : comp Empty_set St Z :=
  let '(trap, instr) := trap_instr in
  if negb (HANDLE_EXCEPTIONS C) then panic "Simulator encountered an exception"
  else
    let trap := TrapReason_as_register_value trap in
    let! pc := (if negb (Z.land trap INTERRUPT_MASK =? 0) then
                  modify (with_trap_data (fun r => set_tval 0 (set_cause trap r))) ;;!
                  ret (wadd pc 4)
                else
                  modify (with_trap_data (fun r => set_tval instr (set_cause trap r))) ;;!
                  ret pc) in
    modify (with_trap_data (set_epc pc)) ;;!
    modify (with_trap_data (fun r =>
      let mie := MStatusRegister.mie_aligned_bit (status (state r)) in
      set_status (MStatusRegister.set_mpie_to_value (status (state r)) mie) r)) ;;!
    let! pc := gets (fun s => tvec (setup (machine_mode_trap_data s))) in
    modify (with_extra_flags (fun f => ExtraFlags.set_mode f Machine)) ;;!
    ret pc.

Definition cycle_ext : comp Empty_set St unit :=
  let! start := gets (fun s => observable (core s)) in
  trace (at_cycle_start start) ;;!
  let! flags := gets extra_flags in
  if negb (ExtraFlags.get_wait_for_interrupt flags =? 0) then trace (at_cycle_end start)
  else
    let! mode := or_ub (ExtraFlags.get_current_mode flags) in
    let! pc' := recover (cycle_block mode (pc start)) (handle_trap (pc start)) in
    modify (with_core (with_pc pc')) ;;!
    let! unit_ := gets mmu in
    let! sapt' := noexcept (read_sapt unit_ mode) in
    modify (with_sapt sapt') ;;!
    count_new_cycle_for_markers ;;!
    let! final := gets (fun s => observable (core s)) in
    trace (at_cycle_end final).
End Cycle.

(** [RiscV32State::cycle], with the default [delegation] feature. *)
Definition cycle {M ND MMU} `{MemorySource M} `{NonDeterminismCSRSource ND M}
    `{MMUImplementation MMU M} `{U256Ops} (C : MachineConfig)
    : comp Empty_set (RiscV32State M ND MMU) unit :=
  cycle_ext (CSR := DelegationsCSRProcessor) C.
End V1.
