(* ===== verification/Invariants.v ===== *)
(** * Well-formedness of the simulated machine

    The interfaces a machine relies on ([LawfulSource] for the non-determinism
    source, [LawfulProcessor] for the delegation processor), their instances,
    and the ranges of the values the opcode arms compute. *)
From stdpp Require Import base list gmap strings.
From Stdlib Require Import ZArith Lia.
From S2P Require Import Prelude MachineInt Decoder Field Config Memory NonDeterminism Blake2s.
From S2P Require Import Delegations DelegationSpec Cycle StateNew State.

(** ** Ranges of the computed values *)

(** The decoder never reaches [unreachable_unchecked] and what it computes
    satisfies [P]. *)
Definition decodes {A} (P : A -> Prop) (d : decoded A) : Prop :=
  match d with Decoded a => P a | Unknown => True | Unreachable => False end.

Lemma decodes_when {A} (P : A -> Prop) b d : decodes P d -> decodes P (when b d).
Proof. destruct b; cbn; auto. Qed.

Lemma funct3_cases f : 0 <= f < 8 ->
  f = 0 \/ f = 1 \/ f = 2 \/ f = 3 \/ f = 4 \/ f = 5 \/ f = 6 \/ f = 7.
Proof. lia. Qed.

(** Split on the funct3 of the goal, known to be below eight. *)
Ltac split_funct3 H :=
  apply funct3_cases in H;
  destruct H as [-> | [-> | [-> | [-> | [-> | [-> | [-> | ->]]]]]]].

Lemma land_31_nonneg x : 0 <= Z.land x 31.
Proof. apply Z.land_nonneg. lia. Qed.

Lemma land_u32_both a b : is_u32 a -> is_u32 b -> is_u32 (Z.land a b).
Proof. intros Ha [Hb _]. apply land_u32; auto. Qed.

Lemma div_u32 a b : is_u32 a -> is_u32 b -> b <> 0 -> is_u32 (a / b).
Proof.
  unfold is_u32. intros Ha Hb Hz. split; [apply Z.div_pos; lia|].
  apply Z.le_lt_trans with a; [apply Z.div_le_upper_bound; nia | lia].
Qed.

Lemma mod_u32 a b : is_u32 a -> is_u32 b -> b <> 0 -> is_u32 (a mod b).
Proof. unfold is_u32. intros Ha Hb Hz. pose proof (Z.mod_pos_bound a b). lia. Qed.

Lemma canonical_u32 x : repr x -> is_u32 (to_reduced_u32 x).
Proof.
  intros Hx. rewrite to_reduced_spec by auto. unfold is_u32, ORDER.
  pose proof (Z.mod_pos_bound x (2 ^ 31 - 1)). lia.
Qed.

Lemma from_nonreduced_repr x : is_u32 x -> repr (from_nonreduced_u32 x).
Proof.
  intros Hx. rewrite from_nonreduced_spec by auto. unfold repr, ORDER.
  pose proof (Z.mod_pos_bound x (2 ^ 31 - 1)). lia.
Qed.

#[export] Hint Resolve decodes_when land_31_nonneg land_u32_both shr32_range canonical_u32
  from_nonreduced_repr : airbender.

Ltac decode_range :=
  intros;
  match goal with H : 0 <= _ < 8 |- _ => split_funct3 H end;
  cbn -[Z.land Z.lor Z.lxor Z.shiftr Z.eqb Z.ltb u32 u64 Z.mul Z.modulo Z.div Z.pow];
  repeat case_if; try apply decodes_when; cbn; try apply shr32_range;
  auto with airbender; bool_hyps; auto using div_u32, mod_u32;
  try (repeat case_if; bool_hyps; auto using div_u32, mod_u32 with airbender; unfold is_u32; lia).

Lemma op_imm_value_range C f3 f7 a b : 0 <= f3 < 8 -> is_u32 a -> is_u32 b ->
  decodes is_u32 (V2.op_imm_value C f3 f7 a b).
Proof. decode_range. Qed.

Lemma op_value_range C f3 f7 a b : 0 <= f3 < 8 -> is_u32 a -> is_u32 b ->
  decodes is_u32 (V2.op_value C f3 f7 a b).
Proof. decode_range. Qed.

Lemma mul_div_value_range C f3 a b : 0 <= f3 < 8 -> is_u32 a -> is_u32 b ->
  decodes is_u32 (V2.mul_div_value C f3 a b).
Proof. decode_range. Qed.

Lemma v1_op_value_range C r instr f3 a b : 0 <= f3 < 8 -> is_u32 a -> is_u32 b ->
  decodes is_u32 (V1.op_value C r instr f3 a b).
Proof. decode_range. Qed.

Lemma mop_results_range n a b : is_u32 a -> is_u32 b ->
  decodes is_u32
    (let operand_1 := from_nonreduced_u32 a in
     let operand_2 := from_nonreduced_u32 b in
     match n with
     | 0 => Decoded (to_reduced_u32 (add_mod operand_1 operand_2))
     | 1 => Decoded (to_reduced_u32 (sub_mod operand_1 operand_2))
     | 2 => Decoded (to_reduced_u32 (mul_mod operand_1 operand_2))
     | _ => Unknown
     end).
Proof.
  intros Ha Hb. apply from_nonreduced_repr in Ha, Hb.
  destruct n as [|[p|[p|p|]|]|p]; cbn -[add_mod sub_mod mul_mod]; auto;
    apply canonical_u32; apply mul_mod_ok || apply add_mod_ok || apply sub_mod_ok; auto.
Qed.

Lemma mop_value_range f7 a b : is_u32 a -> is_u32 b -> decodes is_u32 (V2.mop_value f7 a b).
Proof. apply mop_results_range. Qed.

Lemma v1_mop_value_range C f7 a b : is_u32 a -> is_u32 b -> decodes is_u32 (V1.mop_value C f7 a b).
Proof.
  intros Ha Hb. unfold V1.mop_value. case_if; cbn; auto.
  apply decodes_when. apply mop_results_range; auto.
Qed.

Lemma sign_extend_16_range x : is_u32 (sign_extend_16 x).
Proof.
  apply sign_extend_range; [lia|]. rewrite (land_mask_mod _ 16) by (lia || reflexivity).
  apply mod_range; lia.
Qed.

Lemma sign_extend_8_range x : is_u32 (sign_extend_8 x).
Proof.
  apply sign_extend_range; [lia|]. rewrite (land_mask_mod _ 8) by (lia || reflexivity).
  apply mod_range; lia.
Qed.

Lemma extended_load_range C f3 v : is_u32 v -> V2.load_size f3 <> Unknown ->
  decodes is_u32 (V2.extended_load C f3 v).
Proof.
  intros Hv Hs. unfold V2.extended_load, zero_extend_8, zero_extend_16, V2.load_size in *.
  destruct f3 as [|[[p|p|]|[p|[p|p|]|]|]|p]; cbn -[Z.land] in *; try congruence;
    try (destruct p; cbn -[Z.land] in *; try congruence);
    case_if; cbn -[Z.land]; auto using sign_extend_8_range, sign_extend_16_range;
    apply land_u32; auto; lia.
Qed.

Lemma v1_extended_load_agrees C f3 v : V1.extended_load C f3 v = V2.extended_load C f3 v.
Proof.
  unfold V1.extended_load, V2.extended_load. destruct (SUPPORT_SIGNED_LOAD C); reflexivity.
Qed.

Lemma load_size_legal f3 n : V2.load_size f3 = Decoded n -> n = 1 \/ n = 2 \/ n = 4.
Proof.
  unfold V2.load_size. destruct f3 as [|[[p|p|]|[p|[p|p|]|]|]|p]; cbn; try discriminate;
    try (destruct p; cbn; try discriminate); intros E; inversion E; auto.
Qed.

Lemma store_size_legal f3 n : V2.store_size f3 = Decoded n -> n = 1 \/ n = 2 \/ n = 4.
Proof.
  unfold V2.store_size. destruct f3 as [|[p|[p|p|]|]|p]; cbn; try discriminate;
    intros E; inversion E; auto.
Qed.

(** ** Interfaces *)

Section Interfaces.
Context (M : Type) `{LawfulMemory M}.

(** A non-determinism source that hands out words. *)
Class LawfulSource (ND : Type) `{NonDeterminismCSRSource ND M} : Type := {
  nd_wf : ND -> Prop;
  nd_read_wf nd : nd_wf nd -> is_u32 (fst (nd_read nd)) /\ nd_wf (snd (nd_read nd));
  nd_write_wf nd m v : nd_wf nd -> is_u32 v -> nd_wf (nd_write_with_memory_access nd m v);
}.

Definition deleg_wf (d : Deleg M) : Prop := regs_wf (dg_regs d) /\ words_u32 (dg_mem d).

(** Delegations keep registers and memory well formed. *)
Class LawfulProcessor `{V2.DelegationCSRProcessor M} : Prop := {
  process_write_wf csr :
    triple deleg_wf (V2.process_write csr) (fun _ => deleg_wf) (fun _ _ => True);
}.
End Interfaces.
Arguments nd_wf {M ND _ _}.
Arguments nd_read_wf {M ND _ _}.
Arguments nd_write_wf {M ND _ _}.
Arguments deleg_wf {M _ _}.

#[export] Instance ZeroedSource_lawful M : LawfulSource M ZeroedSource.
Proof. refine {| nd_wf _ := True |}; cbn; auto. intros _ _. split; auto. unfold is_u32. lia. Defined.

#[export] Instance QuasiUARTSource_lawful M : LawfulSource M QuasiUARTSource.
Proof.
  refine {| nd_wf s := Forall is_u32 (oracle s) |}; cbn.
  - intros s Hs. unfold QuasiUARTSource_read. destruct (oracle s) as [|w ws] eqn:Es; cbn.
    + rewrite Es. split; auto. unfold is_u32. lia.
    + inversion Hs; subst. auto.
  - intros s _ v Hs _. unfold QuasiUARTSource_write.
    destruct (process_write (write_state s) v). exact Hs.
Defined.

(** ** Delegations *)

Lemma get_u32 l i : Forall is_u32 l -> is_u32 (get l i).
Proof. intros Hl. unfold get. apply Forall_nth_default; auto. unfold is_u32. lia. Qed.

(** Step into [let v := e in k] with the words of [e] in range. *)
Ltac words_let :=
  lazymatch goal with
  | |- Forall _ (let v := ?e in @?k v) =>
      cut (forall y, Forall is_u32 y -> Forall is_u32 (k y));
      [ let H := fresh in intros H; apply (H e); clear H;
        auto 8 using Forall_insert_list, get_u32 with airbender
      | let y := fresh "y" in intros y ?; cbn beta ]
  end.

Lemma g_function_words v a b c d x y :
  Forall is_u32 v -> is_u32 x -> is_u32 y -> Forall is_u32 (g_function v a b c d x y).
Proof.
  intros Hv Hx Hy. cbv beta delta [g_function]. repeat words_let. auto.
Qed.

Lemma mixing_words v m s : Forall is_u32 v -> Forall is_u32 m -> Forall is_u32 (mixing_function v m s).
Proof.
  intros Hv Hm. assert (forall i, is_u32 (nthZ m i)) by (intros; apply get_u32; auto).
  unfold mixing_function. cbv zeta. repeat (apply g_function_words; auto).
Qed.

Lemma IV_words : Forall is_u32 IV.
Proof. repeat constructor; lia. Qed.

Lemma CONFIGURED_IV_words : Forall is_u32 CONFIGURED_IV.
Proof. apply Forall_insert_list; [apply IV_words|]. cbv. split; congruence. Qed.

Lemma fold_inserts (f : nat -> Z) (h : nat -> nat) idx : forall e,
  (forall i, is_u32 (f i)) -> Forall is_u32 e ->
  Forall is_u32 (fold_left (fun e i => <[h i := f i]> e) idx e).
Proof. induction idx; cbn; auto using Forall_insert_list. Qed.

Lemma overwrite_words st ext : Forall is_u32 st -> Forall is_u32 ext ->
  Forall is_u32 (overwrite_normal st ext) /\ Forall is_u32 (overwrite_compression ext).
Proof.
  intros Hs He. pose proof IV_words. pose proof CONFIGURED_IV_words.
  assert (is_u32 0xffffffff /\ is_u32 BLAKE2S_BLOCK_SIZE_BYTES) as [? ?] by (split; cbv; split; congruence).
  split.
  - cbv beta delta [overwrite_normal]. words_let; [apply fold_inserts with (h := id); auto using get_u32|].
    repeat words_let. auto.
  - cbv beta delta [overwrite_compression]. words_let.
    + cbn [fold_left seq]. repeat apply Forall_insert_list; auto using get_u32.
    + repeat words_let. auto.
Qed.

Lemma delegated_round_words st ext input mask control st' ext' :
  Forall is_u32 st -> Forall is_u32 ext -> Forall is_u32 input ->
  delegated_round st ext input mask control = Some (st', ext') ->
  Forall is_u32 st' /\ Forall is_u32 ext'.
Proof.
  intros Hs He Hi. unfold delegated_round. case_if; [|discriminate].
  destruct (SIGMAS !! _) as [sigma|]; [|discriminate]. intros E. apply Some_inj in E.
  apply pair_equal_spec in E. destruct E as [Es Ee].
  destruct (overwrite_words st ext Hs He). pose proof CONFIGURED_IV_words.
  assert (Hx : Forall is_u32 ext').
  { rewrite <- Ee. repeat case_if; apply mixing_words; auto;
      unfold node_buffer; case_if; apply Forall_app; auto using Forall_take. }
  split; [|exact Hx]. rewrite Ee in Es. rewrite <- Es. case_if; [|exact Hs].
  apply Forall_map, Forall_true. intros i. case_if; auto 6 using get_u32 with airbender.
Qed.

Section Delegations.
Context {M E : Type} `{LawfulMemory M}.

Definition getter_safe (get1 : Z -> comp E M Z) : Prop :=
  forall a, a mod 4 = 0 -> 0 <= a ->
    triple words_u32 (get1 a) (fun v m => is_u32 v /\ words_u32 m) (fun _ _ => False).
Definition setter_safe (set1 : Z -> Z -> comp E M unit) : Prop :=
  forall a v, a mod 4 = 0 -> 0 <= a -> is_u32 v ->
    triple words_u32 (set1 a v) (fun _ => words_u32) (fun _ _ => False).

Lemma words_u32_update m m' a v : words_u32 m -> a mod 4 = 0 -> 0 <= a -> is_u32 v ->
  ms_word m' a = Some v ->
  (forall b, b mod 4 = 0 -> 0 <= b -> b <> a -> ms_word m' b = ms_word m b) -> words_u32 m'.
Proof.
  intros Hm Ha Hp Hv Hs Ho b w Hb Hbp Hw. destruct (Z.eq_dec b a) as [-> | Hne].
  - congruence.
  - rewrite Ho in Hw by auto. eapply Hm; eauto.
Qed.

Lemma get_noexcept_safe : getter_safe get_noexcept.
Proof.
  intros a Ha Hp m Hm. unfold get_noexcept. destruct (ms_word m a) as [w|] eqn:Hw.
  - rewrite (ms_get_backed m a MemLoad w) by (unfold reading; auto). cbn. eauto.
  - destruct (ms_get_unbacked m a MemLoad) as (t & v & -> & Hv); auto. cbn. auto.
Qed.

Lemma checked_get_safe : getter_safe checked_get.
Proof.
  intros a Ha Hp m Hm. unfold checked_get. destruct (ms_word m a) as [w|] eqn:Hw.
  - rewrite (ms_get_backed m a RegWrite w) by (unfold reading; auto). eauto.
  - pose proof (ms_get_unbacked_reg m a Ha Hw) as Hr.
    destruct (ms_get m a RegWrite); [destruct Hr | discriminate | exact Hr].
Qed.

Lemma set_noexcept_safe : setter_safe set_noexcept.
Proof.
  intros a v Ha Hp Hv m Hm. unfold set_noexcept, bind. destruct (ms_word m a) as [w|] eqn:Hw.
  - destruct (ms_set_backed m a v MemStore w) as (m' & -> & _ & Hs & Ho); unfold writing; auto.
    cbn. eapply words_u32_update; eauto.
  - destruct (ms_set_unbacked m a v) as (t & ->); auto.
Qed.

Lemma checked_set_safe : setter_safe checked_set.
Proof.
  intros a v Ha Hp Hv m Hm. unfold checked_set. destruct (ms_word m a) as [w|] eqn:Hw.
  - destruct (ms_set_backed m a v RegWrite w) as (m' & -> & _ & Hs & Ho); unfold writing; auto.
    eapply words_u32_update; eauto.
  - pose proof (ms_set_unbacked_reg m a v Ha Hw) as Hr.
    destruct (ms_set m a v RegWrite); [destruct Hr | discriminate | exact Hr].
Qed.

Definition reader_safe (read : nat -> Z -> comp E M (list Z)) : Prop :=
  forall n a, a mod 4 = 0 -> 0 <= a ->
    triple words_u32 (read n a) (fun ws m => (length ws = n /\ Forall is_u32 ws) /\ words_u32 m)
      (fun _ _ => False).
Definition writer_safe (write : Z -> list Z -> comp E M unit) : Prop :=
  forall a ws, a mod 4 = 0 -> 0 <= a -> Forall is_u32 ws ->
    triple words_u32 (write a ws) (fun _ => words_u32) (fun _ _ => False).

Lemma get_words_safe get1 : getter_safe get1 -> reader_safe (get_words get1).
Proof.
  intros Hg. unfold reader_safe. induction n as [|n IH]; intros a Ha Hp; cbn [get_words].
  - apply triple_ret. auto.
  - eapply triple_bind; [apply Hg; auto|]. intros v. apply triple_pure. intros Hv.
    eapply triple_bind; [apply IH; [Z.div_mod_to_equations; lia | lia]|].
    intros ws. apply triple_ret. intros m [[<- Hws] Hm]. cbn. auto.
Qed.

Lemma set_words_safe set1 : setter_safe set1 -> writer_safe (fun a ws => set_words set1 ws a).
Proof.
  intros Hg a ws. revert a.
  induction ws as [|w ws IH]; intros a Ha Hp Hws; cbn [set_words].
  - apply triple_ret. auto.
  - inversion Hws; subst. apply triple_seq; [apply Hg; auto|]. intros _.
    apply IH; auto; [Z.div_mod_to_equations; lia | lia].
Qed.

(** Lift a memory computation to the delegation state. *)
Lemma on_mem_safe {A} (c : comp E M A) (Q : A -> Prop) :
  triple words_u32 c (fun a m => Q a /\ words_u32 m) (fun _ _ => False) ->
  triple deleg_wf (on_mem c) (fun a d => Q a /\ deleg_wf d) (fun _ _ => False).
Proof.
  intros Hc. eapply triple_zoom; [exact Hc | | |]; unfold deleg_wf; cbn; tauto.
Qed.

Lemma on_mem_keeps {A} (c : comp E M A) :
  triple words_u32 c (fun _ => words_u32) (fun _ _ => False) ->
  triple deleg_wf (on_mem c) (fun _ => deleg_wf) (fun _ _ => False).
Proof.
  intros Hc. eapply triple_zoom; [exact Hc | | |]; unfold deleg_wf; cbn; tauto.
Qed.

Lemma words_of_u256_range x : Forall is_u32 (words_of_u256 x).
Proof.
  unfold words_of_u256. induction (as_limbs 4 x); cbn; auto using u32_range.
Qed.

Lemma regs_wf_set_12 regs (b : bool) : regs_wf regs -> regs_wf (<[12%nat := b2z b]> regs).
Proof. intros Hr. apply (regs_wf_insert regs 12 (b2z b)); auto using b2z_range. lia. Qed.

Lemma deleg_wf_report ev : triple deleg_wf (report ev) (fun _ => deleg_wf (M:=M)) (fun _ (_ : Deleg M) => False : Prop)
  (E:=E).
Proof. apply triple_modify. auto. Qed.

Lemma u256_body_safe `{U256Ops} read read_rw write x10 x11 x12 :
  reader_safe read -> reader_safe read_rw -> writer_safe write ->
  x10 mod 4 = 0 -> x11 mod 4 = 0 -> 0 <= x10 -> 0 <= x11 ->
  triple deleg_wf (u256_body (M:=M) (E:=E) read read_rw write x10 x11 x12)
    (fun _ => deleg_wf) (fun _ _ => False).
Proof.
  intros Hr Hrw Hw H10 H11 P10 P11. unfold u256_body.
  eapply triple_bind; [apply on_mem_safe, Hrw; auto|]. intros aw. apply triple_pure. intros _.
  eapply triple_bind; [apply on_mem_safe, Hr; auto|]. intros bw. apply triple_pure. intros _.
  do 2 (apply triple_assert_then; [discriminate | intros _]).
  destruct (u256_op x12 (make_u256 aw) (make_u256 bw)) as [[r f]|]; [|apply triple_panic; discriminate].
  apply triple_seq; [apply on_mem_keeps, Hw; auto using words_of_u256_range | intros _].
  apply triple_seq; [|intros _; apply deleg_wf_report].
  apply triple_modify. unfold deleg_wf. cbn. intros s [Hs Hm]. auto using regs_wf_set_12.
Qed.

Lemma blake2_body_safe read read_rw write x10 x11 x12 x13 :
  reader_safe read -> reader_safe read_rw -> writer_safe write ->
  x10 mod 4 = 0 -> x11 mod 4 = 0 -> 0 <= x10 -> 0 <= x11 ->
  triple deleg_wf (blake2_body (M:=M) (E:=E) read read_rw write x10 x11 x12 x13)
    (fun _ => deleg_wf) (fun _ _ => False).
Proof.
  intros Hr Hrw Hw H10 H11 P10 P11. unfold blake2_body.
  eapply triple_bind; [apply on_mem_safe, Hrw; auto|]. intros sw. apply triple_pure. intros [_ Hsw].
  eapply triple_bind; [apply on_mem_safe, Hr; auto|]. intros iw. apply triple_pure. intros [_ Hiw].
  destruct (delegated_round _ _ _ _ _) as [[st ext]|] eqn:Ed; [|apply triple_panic; discriminate].
  apply delegated_round_words in Ed; [|auto using Forall_take, Forall_drop..].
  apply triple_seq; [apply on_mem_keeps, Hw; auto; apply Forall_app; tauto|].
  intros _. apply deleg_wf_report.
Qed.

(** The pointer checks make both operand pointers word aligned. *)
Lemma aligned_checks (b1 b2 b3 b4 b5 : bool) m1 m2 m3 m4 m5 (P : Deleg M -> Prop) (k : comp E (Deleg M) unit) Q R :
  m1 <> UB -> m2 <> UB -> m3 <> UB -> m4 <> UB -> m5 <> UB ->
  (b1 = true -> b2 = true -> b3 = true -> b4 = true -> triple P k Q R) ->
  triple P ((assert_or_panic b1 m1 ;;! assert_or_panic b2 m2 ;;! assert_or_panic b3 m3 ;;!
             assert_or_panic b4 m4 ;;! assert_or_panic b5 m5) ;;! k) Q R.
Proof.
  intros U1 U2 U3 U4 U5 Hk s Hs. unfold bind, assert_or_panic.
  destruct b1; cbn; auto. destruct b2; cbn; auto. destruct b3; cbn; auto. destruct b4; cbn; auto.
  destruct b5; cbn; auto. apply Hk; auto.
Qed.

Lemma pointer_aligned x k : x mod (4 * k) = 0 -> 0 < k -> x mod 4 = 0.
Proof.
  intros Hx Hk. apply Z.mod_divide in Hx; [|lia]. destruct Hx as [q ->].
  apply Z.mod_divide; [lia|]. exists (q * k). lia.
Qed.

(** A delegation that starts by reading registers. *)
Lemma deleg_reg {A} i (k : Z -> comp E (Deleg M) A) Q R :
  (forall v, triple deleg_wf (k v) Q R) -> triple deleg_wf (bind (reg i) k) Q R.
Proof.
  intros Hk. apply triple_gets_then. intros v s [_ Hs]. apply Hk. exact Hs.
Qed.

Definition accessors_safe read read_rw write : Prop :=
  reader_safe read /\ reader_safe read_rw /\ writer_safe write.

Lemma noexcept_accessors_safe :
  accessors_safe register_indirect_read_continuous_noexcept
    register_indirect_read_write_continuous_noexcept write_indirect_accesses_noexcept.
Proof.
  split_and!; [apply get_words_safe.. | apply (set_words_safe set_noexcept)];
    auto using get_noexcept_safe, set_noexcept_safe.
Qed.

Lemma checked_accessors_safe :
  accessors_safe register_indirect_read_continuous
    register_indirect_read_write_continuous write_indirect_accesses.
Proof.
  split_and!; [apply get_words_safe.. | apply (set_words_safe checked_set)];
    auto using checked_get_safe, checked_set_safe.
Qed.

Lemma u256_checked_body_safe `{U256Ops} read read_rw write x10 x11 x12 :
  accessors_safe read read_rw write ->
  triple deleg_wf (u256_pointer_checks x10 x11 ;;! u256_body (M:=M) (E:=E) read read_rw write x10 x11 x12)
    (fun _ => deleg_wf) (fun _ _ => False).
Proof.
  intros (Hr & Hrw & Hw). apply aligned_checks; try discriminate. intros B1 B2 B3 B4. bool_hyps.
  apply u256_body_safe; auto; try lia; apply (pointer_aligned _ 8); auto; lia.
Qed.

Lemma blake2_checked_body_safe read read_rw write x10 x11 x12 x13 :
  accessors_safe read read_rw write ->
  triple deleg_wf (blake2_pointer_checks x10 x11 ;;! blake2_body (M:=M) (E:=E) read read_rw write x10 x11 x12 x13)
    (fun _ => deleg_wf) (fun _ _ => False).
Proof.
  intros (Hr & Hrw & Hw). apply aligned_checks; try discriminate. intros B1 B2 B3 B4. bool_hyps.
  apply blake2_body_safe; auto; try lia. apply (pointer_aligned _ 32); auto; lia.
Qed.
End Delegations.

#[export] Instance DelegationsCSRProcessor_lawful {M} `{LawfulMemory M} `{U256Ops} :
  LawfulProcessor M (H1 := V2.DelegationsCSRProcessor).
Proof.
  constructor. intros csr. cbn. unfold V2.DelegationsCSRProcessor_process_write.
  repeat case_if.
  - do 4 (apply deleg_reg; intros ?). eapply triple_conseq;
      [apply blake2_checked_body_safe, noexcept_accessors_safe | auto..].
  - do 3 (apply deleg_reg; intros ?). eapply triple_conseq;
      [apply u256_checked_body_safe, noexcept_accessors_safe | auto..].
  - apply triple_panic. discriminate.
Qed.

Lemma NoExtraCSRs_lawful {M} `{LawfulMemory M} : LawfulProcessor M (H1 := V2.NoExtraCSRs_processor M).
Proof. constructor. intros csr. apply triple_panic. discriminate. Qed.
