(* ===== verification/SafetyNew.v ===== *)
(** * Safety of the unrolled simulator

    A cycle of [V2.cycle] started from a well-formed machine keeps it well
    formed (32 word registers, [x0] zero, an aligned pc, word memory) and never
    reaches one of the [unreachable_unchecked] hints; so does [run_cycles].
    The theorems hold for every lawful memory, non-determinism source and
    delegation processor. *)
From stdpp Require Import base list gmap strings.
From Stdlib Require Import ZArith Lia.
From S2P Require Import Prelude MachineInt Decoder Config Memory NonDeterminism Delegations.
From S2P Require Import DelegationSpec Cycle StateNew Invariants.

Section Safety.
Context {M ND : Type} `{LawfulMemory M} `{NonDeterminismCSRSource ND M} {LS : LawfulSource M ND}
  {CSR : V2.DelegationCSRProcessor M} {LP : LawfulProcessor M} (C : MachineConfig).

Definition core_wf (c : Core M ND) : Prop :=
  observable_wf (observable c) /\ words_u32 (memory_source c) /\ nd_wf (non_determinism_source c).

Notation keeps m := (triple (E:=Empty_set) core_wf m (fun _ => core_wf) (fun _ _ => True)) (only parsing).
Notation yields m P := (triple (E:=Empty_set) core_wf m (fun a c => P a /\ core_wf c) (fun _ _ => True)) (only parsing).

Lemma trace_wf ev : keeps (V2.trace ev).
Proof. apply triple_modify. auto. Qed.

Lemma marker_wf f : keeps (modify (with_marker f)).
Proof. apply triple_modify. auto. Qed.

Lemma with_register_wf i v c : 0 <= i -> is_u32 v -> core_wf c ->
  core_wf (with_register i (if i =? 0 then 0 else v) c).
Proof.
  intros Hi Hv ([Hr Hp] & Hm). split; [|exact Hm]. split; [|exact Hp]. apply regs_wf_insert; auto.
Qed.

Lemma with_pc_wf v c : is_u32 v -> v mod 4 = 0 -> core_wf c -> core_wf (with_pc v c).
Proof. intros Hv Ha ([Hr Hp] & Hm). split; [|exact Hm]. split; auto. Qed.

Lemma register_of_wf i c : core_wf c -> is_u32 (register_of i c).
Proof. intros ([Hr _] & _). apply regs_wf_nth. exact Hr. Qed.

Lemma get_register_wf i : yields (V2.get_register i) is_u32.
Proof. apply triple_gets. auto using register_of_wf. Qed.

Lemma write_rd_wf rd v : 0 <= rd -> is_u32 v -> keeps (V2.write_rd rd v).
Proof.
  intros Hrd Hv. unfold V2.write_rd, V2.set_register.
  apply triple_seq; [|intros; apply trace_wf].
  apply triple_seq; [apply triple_gets; auto | intros].
  apply triple_seq; [apply triple_modify; auto using with_register_wf | intros].
  apply triple_ret; auto.
Qed.

Lemma or_panic_wf {A} (P : A -> Prop) d : decodes P d -> yields (V2.or_panic d) P.
Proof.
  destruct d; cbn; intros; [apply triple_ret; auto | apply triple_panic; discriminate | easy].
Qed.

Lemma jump_wf a : is_u32 a -> keeps (V2.jump a).
Proof.
  intros Ha. unfold V2.jump. rewrite land_3. case_if; bool_hyps.
  - apply triple_panic. discriminate.
  - apply triple_modify. auto using with_pc_wf.
Qed.

Lemma on_memory_wf {A} (c : comp Empty_set M A) (P : A -> Prop) :
  triple words_u32 c (fun a m => P a /\ words_u32 m) (fun _ _ => True) ->
  yields (V2.on_memory c) P.
Proof.
  intros Hc. eapply triple_zoom; [exact Hc | unfold core_wf; tauto | |auto].
  unfold core_wf. cbn. tauto.
Qed.

Lemma link_wf {B} (k : Z -> comp Empty_set (Core M ND) B) Q :
  (forall v, is_u32 v -> triple core_wf (k v) Q (fun _ _ => True)) ->
  triple core_wf (bind (gets (fun c => pc (observable c))) k) Q (fun _ _ => True).
Proof. intros Hk s Hs. apply Hk; [apply Hs | exact Hs]. Qed.

Lemma opcode_read_safe a : a mod 4 = 0 -> 0 <= a ->
  triple words_u32 (Panicking.opcode_read (M:=M) a) (fun v m => is_u32 v /\ words_u32 m) (fun _ _ => True).
Proof.
  intros Ha Hp m Hm. unfold Panicking.opcode_read, get_opcode_noexcept.
  destruct (ms_word m a) as [w|] eqn:Hw.
  - rewrite (ms_get_backed m a Instruction w) by (unfold reading; auto). cbn. eauto.
  - destruct (ms_get_unbacked m a Instruction) as (t & v & -> & Hv); auto. cbn. auto.
Qed.

Lemma decoder_step_wf : yields V2.decoder_step is_u32.
Proof.
  intros c Hc. pose proof Hc as ([_ [[Hp _] Ha]] & _). unfold V2.decoder_step, bind, gets.
  exact (on_memory_wf _ is_u32 (opcode_read_safe _ Ha Hp) c Hc).
Qed.

Lemma mem_read_safe a n : is_u32 a ->
  triple words_u32 (Panicking.mem_read (M:=M) C a n)
    (fun v m => (is_u32 (fst v) /\ is_u32 (snd v)) /\ words_u32 m) (fun _ _ => True).
Proof.
  intros Ha. unfold Panicking.mem_read. rewrite u8_unalignment, aligned_address_spec by auto using u32_is_u64.
  assert (Hnn : 0 <= a - a mod 4) by apply aligned_nonneg, Ha.
  eapply triple_bind; [apply triple_no_trap, get_noexcept_safe; auto using aligned_mod|].
  intros w. apply triple_pure. intros Hw. case_if; [|apply triple_panic; discriminate].
  destruct (loaded_value_bytes C w (a mod 4) n) as (r & -> & Hr & _); auto.
  apply triple_ret. auto.
Qed.

Lemma mem_write_safe a v n : is_u32 a -> is_u32 v ->
  triple words_u32 (Panicking.mem_write (M:=M) C a v n)
    (fun _ m => True /\ words_u32 m) (fun _ _ => True).
Proof.
  intros Ha Hv. unfold Panicking.mem_write. rewrite u8_unalignment, aligned_address_spec by auto using u32_is_u64.
  assert (Hnn : 0 <= a - a mod 4) by apply aligned_nonneg, Ha.
  eapply triple_bind; [apply triple_no_trap, get_noexcept_safe; auto using aligned_mod|].
  intros w. apply triple_pure. intros Hw. case_if; [|apply triple_panic; discriminate].
  destruct (stored_value_bytes C w v (a mod 4) n) as (r & -> & Hr & _); auto. cbn [or_ub].
  eapply triple_bind; [apply triple_ret with (Q := fun x m => x = r /\ words_u32 m); auto|].
  intros x. apply triple_pure. intros ->.
  apply triple_seq; [apply triple_no_trap, set_noexcept_safe; auto using aligned_mod|].
  intros _. apply triple_ret. auto.
Qed.

(** ** The opcode arms *)

Lemma uimm_range w : is_u32 (UTypeOpcode.imm w).
Proof.
  rewrite UTypeOpcode_imm_spec. pose proof (mod_range (w / 2 ^ 12) 20). unfold is_u32. lia.
Qed.

Lemma iimm_range w : is_u32 (sign_extend (ITypeOpcode.imm w) 12).
Proof. apply sign_extend_range; [lia|]. rewrite ITypeOpcode_imm_spec. apply mod_range. lia. Qed.

#[local] Hint Resolve uimm_range iimm_range : airbender.

Context (opcode rd funct3 funct7 rs1_value rs2_value : Z).
Hypothesis Hrd : 0 <= rd.
Hypothesis Hf3 : 0 <= funct3 < 8.
Hypothesis Hrs1 : is_u32 rs1_value.
Hypothesis Hrs2 : is_u32 rs2_value.

Lemma exec_op_imm_wf : keeps (V2.exec_op_imm C opcode rd funct3 funct7 rs1_value).
Proof.
  eapply triple_bind; [apply or_panic_wf, op_imm_value_range; auto with airbender|].
  intros v. apply triple_pure. intros Hv. apply write_rd_wf; auto.
Qed.

Lemma exec_op_wf : keeps (V2.exec_op C rd funct3 funct7 rs1_value rs2_value).
Proof.
  eapply triple_bind; [apply (or_panic_wf is_u32)|].
  - case_if; [apply mul_div_value_range | apply op_value_range]; auto.
  - intros v. apply triple_pure. intros Hv. apply write_rd_wf; auto.
Qed.

Lemma exec_jal_wf pc_ : keeps (V2.exec_jal opcode pc_ rd).
Proof.
  apply link_wf. intros v Hv. apply triple_seq; [apply jump_wf; auto with airbender|].
  intros _. apply write_rd_wf; auto.
Qed.

Lemma exec_jalr_wf : keeps (V2.exec_jalr opcode rd rs1_value).
Proof.
  apply link_wf. intros v Hv. apply triple_seq.
  - apply jump_wf, land_u32; [auto with airbender | vm_compute; congruence].
  - intros _. apply write_rd_wf; auto.
Qed.

Lemma exec_branch_wf pc_ : keeps (V2.exec_branch opcode pc_ funct3 rs1_value rs2_value).
Proof.
  eapply triple_bind; [apply (or_panic_wf (fun _ => True))|].
  - split_funct3 Hf3; exact I.
  - intros b. apply triple_pure. intros _.
    apply triple_seq; [destruct b; [apply jump_wf; auto with airbender | apply triple_ret; auto]|].
    intros _. apply triple_seq; [apply triple_gets; auto | intros]. apply trace_wf.
Qed.

Lemma exec_load_wf : keeps (V2.exec_load C opcode rd funct3 rs1_value).
Proof.
  unfold V2.exec_load.
  eapply triple_bind; [apply (or_panic_wf (fun n => V2.load_size funct3 = Decoded n))|].
  - split_funct3 Hf3; reflexivity || exact I.
  - intros n. apply triple_pure. intros Hn.
    eapply triple_bind; [apply on_memory_wf, mem_read_safe; auto with airbender|].
    intros [aligned v]. cbn [fst snd]. apply triple_pure. intros [_ Hv].
    apply triple_seq; [apply trace_wf | intros _].
    pose proof (extended_load_range C funct3 v Hv ltac:(congruence)) as He.
    destruct (V2.extended_load C funct3 v) as [r| |]; [|apply triple_panic; discriminate|easy].
    apply (triple_bind _ (fun r c => is_u32 r /\ core_wf c)); [apply triple_ret; auto|].
    intros x. apply triple_pure. intros Hx. apply write_rd_wf; auto.
Qed.

Lemma exec_store_wf : keeps (V2.exec_store C opcode funct3 rs1_value rs2_value).
Proof.
  unfold V2.exec_store.
  eapply triple_bind; [apply (or_panic_wf (fun n => True))|].
  - split_funct3 Hf3; exact I.
  - intros n. apply triple_pure. intros _.
    eapply triple_bind; [apply on_memory_wf, mem_write_safe; auto with airbender|].
    intros [o w]. apply triple_pure. intros _. apply trace_wf.
Qed.

(** ** CSR and MOP arms *)

Lemma exec_mop_wf : keeps (V2.exec_mop C rd funct7 rs1_value rs2_value).
Proof.
  unfold V2.exec_mop. case_if; [|apply triple_ret; auto].
  eapply triple_bind; [apply or_panic_wf, mop_value_range; auto|].
  intros v. apply triple_pure. intros Hv. apply write_rd_wf; auto.
Qed.

Lemma nd_source_read_wf : yields V2.nd_source_read is_u32.
Proof.
  intros c (Ho & Hm & Hn). unfold V2.nd_source_read. destruct (nd_read_wf _ Hn) as [Hv Hn'].
  destruct (nd_read (non_determinism_source c)) as [v nd]. split; [exact Hv|]. split_and!; auto; apply Ho.
Qed.

Lemma nd_source_write_wf v : is_u32 v -> keeps (V2.nd_source_write v).
Proof.
  intros Hv. apply triple_modify. intros c (Ho & Hm & Hn). split; [exact Ho|]. split; [exact Hm|].
  apply nd_write_wf; auto.
Qed.

Lemma csr_read_wf csr : yields (V2.csr_read csr rd) is_u32.
Proof.
  assert (Hz : yields (ret 0) is_u32) by (apply triple_ret; intros; split; auto; unfold is_u32; lia).
  unfold V2.csr_read. case_if; [|exact Hz].
  eapply triple_bind; [case_if; [exact Hz | apply nd_source_read_wf]|].
  intros v. apply triple_pure. intros Hv. apply triple_seq; [apply trace_wf|].
  intros _. apply triple_ret; auto.
Qed.

Lemma process_write_core_wf csr : keeps (zoom as_deleg put_deleg (V2.process_write csr)).
Proof.
  eapply triple_zoom; [exact (process_write_wf M csr) | | |auto].
  - intros c ([Hr _] & Hm & _). split; auto.
  - intros c u d ([_ Hp] & _ & Hn) [Hr Hm]. split; [split; [exact Hr | exact Hp] | split; [exact Hm | exact Hn]].
Qed.

Lemma csr_write_wf csr formal_rs1 : keeps (V2.csr_write csr formal_rs1 rs1_value).
Proof.
  unfold V2.csr_write. repeat case_if.
  1, 2: apply triple_seq; [first [apply nd_source_write_wf; auto | apply triple_ret; auto]|];
    intros _; apply triple_seq; [apply trace_wf | intros _; apply triple_ret; auto].
  - apply triple_seq; [apply marker_wf | intros _; apply triple_ret; auto].
  - apply triple_seq; [apply marker_wf | intros _].
    apply triple_seq; [apply process_write_core_wf | intros _; apply triple_ret; auto].
Qed.

Lemma exec_csr_wf formal_rs1 : keeps (V2.exec_csr C opcode rd funct3 formal_rs1 rs1_value).
Proof.
  unfold V2.exec_csr. do 2 (apply triple_assert_then; [discriminate | intros _]).
  eapply triple_bind; [apply csr_read_wf|]. intros v. apply triple_pure. intros Hv.
  case_if; [apply triple_panic; discriminate|].
  apply triple_seq; [apply csr_write_wf | intros dt].
  apply triple_assert_then; [discriminate | intros _]. apply write_rd_wf; auto.
Qed.

Lemma exec_system_wf formal_rs1 :
  keeps (V2.exec_system C opcode rd funct3 funct7 formal_rs1 rs1_value rs2_value).
Proof.
  unfold V2.exec_system. repeat case_if;
    [apply exec_mop_wf | apply exec_csr_wf | apply triple_panic; discriminate].
Qed.
End Safety.

(** ** The cycle *)
Section Cycle.
Context {M ND : Type} `{LawfulMemory M} `{NonDeterminismCSRSource ND M} {LS : LawfulSource M ND}
  {CSR : V2.DelegationCSRProcessor M} {LP : LawfulProcessor M} (C : MachineConfig).
Notation core_wf := (core_wf (M:=M) (ND:=ND)).
Notation keeps m := (triple (E:=Empty_set) core_wf m (fun _ => core_wf) (fun _ _ => True)) (only parsing).

Lemma execute_wf opcode pc_ rs1_value rs2_value :
  is_u32 rs1_value -> is_u32 rs2_value -> keeps (V2.execute C opcode pc_ rs1_value rs2_value).
Proof.
  intros H1' H2'. unfold V2.execute.
  assert (Hrd : 0 <= get_rd_bits opcode) by apply get_rd_bits_range.
  assert (Hf3 : 0 <= funct3_bits opcode < 8) by apply funct3_bits_range.
  case_if; [apply write_rd_wf; auto using uimm_range|].
  case_if; [apply write_rd_wf; auto with airbender|].
  case_if; [apply exec_jal_wf; auto|].
  case_if; [apply exec_jalr_wf; auto|].
  case_if; [apply exec_branch_wf; auto|].
  case_if; [apply exec_op_imm_wf; auto|].
  case_if; [apply exec_op_wf; auto|].
  case_if; [apply exec_load_wf; auto|].
  case_if; [apply exec_store_wf; auto|].
  case_if; [apply exec_system_wf; auto | apply triple_panic; discriminate].
Qed.

Lemma next_pc_aligned p : is_u32 p -> p mod 4 = 0 -> wadd p 4 mod 4 = 0.
Proof. unfold is_u32, wadd, u32. intros. Z.div_mod_to_equations. lia. Qed.

Lemma cycle_wf : keeps (V2.cycle C).
Proof.
  unfold V2.cycle. apply triple_gets_then. intros start. 
  apply (triple_pre (fun c : Core M ND => (is_u32 (pc start) /\ pc start mod 4 = 0) /\ core_wf c));
    [intros c [<- Hc]; split; [apply Hc | exact Hc]|].
  apply triple_pure. intros [Hp Ha].
  apply triple_seq; [apply trace_wf | intros _].
  eapply triple_bind; [apply decoder_step_wf|]. intros opcode. apply triple_pure. intros _.
  apply triple_seq; [apply triple_modify; auto using with_pc_wf, next_pc_aligned with airbender | intros _].
  eapply triple_bind; [apply get_register_wf|]. intros v1. apply triple_pure. intros Hv1.
  apply triple_seq; [apply trace_wf | intros _].
  eapply triple_bind.
  { instantiate (1 := fun v c => is_u32 v /\ core_wf c). case_if; [|apply triple_ret; intros; split; auto; unfold is_u32; lia].
    eapply triple_bind; [apply get_register_wf|]. intros v2. apply triple_pure. intros Hv2.
    apply triple_seq; [apply trace_wf | intros _]. apply triple_ret; auto. }
  intros v2. apply triple_pure. intros Hv2.
  apply triple_seq; [apply execute_wf; auto | intros _].
  apply triple_seq; [apply marker_wf | intros _].
  apply triple_seq; [apply triple_gets; auto | intros final].
  apply triple_seq; [apply trace_wf | intros _]. apply triple_ret; auto.
Qed.

Lemma run_cycles_wf n : forall fin, keeps (V2.run_cycles C n fin).
Proof.
  induction n as [|n IH]; intros fin; cbn [V2.run_cycles]; [apply triple_ret; auto|].
  apply triple_seq; [apply cycle_wf | intros b; apply IH].
Qed.
End Cycle.

(** ** Main theorem *)
Section Main.
Context {M ND : Type} `{LawfulMemory M} `{NonDeterminismCSRSource ND M} {LS : LawfulSource M ND}
  {CSR : V2.DelegationCSRProcessor M} {LP : LawfulProcessor M} (C : MachineConfig).

(** C2: Any number of cycles from a well-formed machine, on any memory contents,
    ends in a well-formed machine (32 word registers with x0 zero, an aligned
    pc, word memory, a sound oracle) or stops with one of the panics of the
    source; no [unreachable_unchecked] hint is ever executed. *)
Theorem unrolled_run_safe n fin (c : Core M ND) : core_wf c ->
  match V2.run_cycles C n fin c with
  | Ok _ c' => core_wf c'
  | Trapped _ _ => False
  | Panic msg => msg <> UB
  end.
Proof.
  intros Hc. pose proof (run_cycles_wf C n fin c Hc) as Hr.
  destruct (V2.run_cycles C n fin c) as [b c'|[]|msg]; exact Hr.
Qed.
End Main.

(** A program for the examples: it squares 12, stores and reloads the square
    and loops on its last instruction. *)
Definition sample_program : list Z :=
  [ Encode.i_type 0x13 1 0 0 5;        (* addi x1, x0, 5 *)
    Encode.i_type 0x13 2 0 0 7;        (* addi x2, x0, 7 *)
    Encode.r_type 0x33 3 0 1 2 0;      (* add  x3, x1, x2 *)
    Encode.r_type 0x33 4 0 3 3 1;      (* mul  x4, x3, x3 *)
    Encode.s_type 0x23 2 0 4 32;       (* sw   x4, 32(x0) *)
    Encode.i_type 0x03 5 2 0 32;       (* lw   x5, 32(x0) *)
    Encode.j_type 0x6f 0 0;            (* jal  x0, 0 *)
    0; 0 ].

Definition sample_core : Core VectorMemoryImpl ZeroedSource :=
  {| observable := V2.initial 0; memory_source := {| inner := sample_program |};
     non_determinism_source := MkZeroedSource; tracer := []; cycle_marker := CycleMarker_new |}.

Lemma VectorMemoryImpl_words_u32 ws : Forall is_u32 ws -> words_u32 {| inner := ws |}.
Proof.
  intros Hws a w Ha Hp. cbn. unfold VectorMemoryImpl_word. cbn [inner]. case_if; [|discriminate].
  intros E. apply Some_inj in E. subst w. bool_hyps. unfold nthZ.
  eapply Forall_forall; [exact Hws|]. apply list_elem_of_In, nth_In. Z.div_mod_to_equations. lia.
Qed.

Lemma sample_core_wf : core_wf sample_core.
Proof.
  split; [|split; [|exact I]].
  - apply initial_observable_wf; [unfold is_u32; lia | reflexivity].
  - apply VectorMemoryImpl_words_u32. repeat constructor; vm_compute; congruence.
Qed.

Lemma unrolled_run_safe_witness :
  match V2.run_cycles (CSR := V2.NoExtraCSRs_processor _) IMStandardIsaConfig 9 false sample_core with
  | Ok _ c' => core_wf c' /\ register_of 5 c' = 144
  | Trapped _ _ => False
  | Panic msg => msg <> UB
  end.
Proof.
  assert (LP : LawfulProcessor VectorMemoryImpl (H1 := V2.NoExtraCSRs_processor _)) by apply NoExtraCSRs_lawful.
  pose proof (unrolled_run_safe (CSR := V2.NoExtraCSRs_processor _) IMStandardIsaConfig 9 false sample_core
                sample_core_wf) as Hs.
  destruct (V2.run_cycles _ 9 false sample_core) as [b c'|e|msg] eqn:E; [|exact Hs|exact Hs].
  split; [exact Hs|]. revert E. vm_compute. intros E. inversion E. reflexivity.
Defined.
