(* ===== verification/Isa.v ===== *)
(** * RV32IM, as the unprivileged manual defines it

    The instructions, their encodings and their meaning on an abstract machine:
    registers as a function, memory as bytes, arithmetic on the mathematical
    integers the words stand for.  Nothing here comes from the simulators; it
    is what [IsaRefinement.v] proves the unrolled simulator to implement.
    FENCE, ECALL and EBREAK, which the simulators refuse, are left out. *)
From stdpp Require Import base list.
From Stdlib Require Import ZArith Lia.
From S2P Require Import Prelude Decoder Config.

Module Isa.

Inductive branch_op : Type := BEQ | BNE | BLT | BGE | BLTU | BGEU.
Inductive load_op : Type := LB | LH | LW | LBU | LHU.
Inductive store_op : Type := SB | SH | SW.
Inductive imm_op : Type := ADDI | SLTI | SLTIU | XORI | ORI | ANDI.
Inductive shift_op : Type := SLLI | SRLI | SRAI.
Inductive reg_op : Type := ADD | SUB | SLL | SLT | SLTU | XOR | SRL | SRA | OR | AND.
Inductive m_op : Type := MUL | MULH | MULHSU | MULHU | DIV | DIVU | REM | REMU.

Inductive instruction : Type :=
| LUI (rd imm : Z)
| AUIPC (rd imm : Z)
| JAL (rd offset : Z)
| JALR (rd rs1 imm : Z)
| Branch (op : branch_op) (rs1 rs2 offset : Z)
| Load (op : load_op) (rd rs1 imm : Z)
| Store (op : store_op) (rs1 rs2 imm : Z)
| OpImm (op : imm_op) (rd rs1 imm : Z)
| ShiftImm (op : shift_op) (rd rs1 shamt : Z)
| Op (op : reg_op) (rd rs1 rs2 : Z)
| MulDiv (op : m_op) (rd rs1 rs2 : Z).

(** ** Encoding *)

Definition branch_funct3 (op : branch_op) : Z :=
  match op with BEQ => 0 | BNE => 1 | BLT => 4 | BGE => 5 | BLTU => 6 | BGEU => 7 end.
Definition load_funct3 (op : load_op) : Z :=
  match op with LB => 0 | LH => 1 | LW => 2 | LBU => 4 | LHU => 5 end.
Definition store_funct3 (op : store_op) : Z := match op with SB => 0 | SH => 1 | SW => 2 end.
Definition imm_funct3 (op : imm_op) : Z :=
  match op with ADDI => 0 | SLTI => 2 | SLTIU => 3 | XORI => 4 | ORI => 6 | ANDI => 7 end.
Definition shift_funct3 (op : shift_op) : Z := match op with SLLI => 1 | SRLI | SRAI => 5 end.
Definition shift_funct7 (op : shift_op) : Z := match op with SRAI => 32 | _ => 0 end.
Definition reg_funct3 (op : reg_op) : Z :=
  match op with
  | ADD | SUB => 0 | SLL => 1 | SLT => 2 | SLTU => 3 | XOR => 4 | SRL | SRA => 5 | OR => 6 | AND => 7
  end.
Definition reg_funct7 (op : reg_op) : Z := match op with SUB | SRA => 32 | _ => 0 end.
Definition m_funct3 (op : m_op) : Z :=
  match op with
  | MUL => 0 | MULH => 1 | MULHSU => 2 | MULHU => 3 | DIV => 4 | DIVU => 5 | REM => 6 | REMU => 7
  end.

Definition encode (i : instruction) : Z :=
  match i with
  | LUI rd imm => Encode.u_type 0x37 rd imm
  | AUIPC rd imm => Encode.u_type 0x17 rd imm
  | JAL rd offset => Encode.j_type 0x6f rd offset
  | JALR rd rs1 imm => Encode.i_type 0x67 rd 0 rs1 imm
  | Branch op rs1 rs2 offset => Encode.b_type 0x63 (branch_funct3 op) rs1 rs2 offset
  | Load op rd rs1 imm => Encode.i_type 0x03 rd (load_funct3 op) rs1 imm
  | Store op rs1 rs2 imm => Encode.s_type 0x23 (store_funct3 op) rs1 rs2 imm
  | OpImm op rd rs1 imm => Encode.i_type 0x13 rd (imm_funct3 op) rs1 imm
  | ShiftImm op rd rs1 shamt => Encode.r_type 0x13 rd (shift_funct3 op) rs1 shamt (shift_funct7 op)
  | Op op rd rs1 rs2 => Encode.r_type 0x33 rd (reg_funct3 op) rs1 rs2 (reg_funct7 op)
  | MulDiv op rd rs1 rs2 => Encode.r_type 0x33 rd (m_funct3 op) rs1 rs2 1
  end.

(** Fields that have an encoding. *)
Definition is_reg (r : Z) : Prop := 0 <= r < 32.
Definition valid (i : instruction) : Prop :=
  match i with
  | LUI rd imm | AUIPC rd imm => is_reg rd /\ 0 <= imm < 2 ^ 32 /\ imm mod 2 ^ 12 = 0
  | JAL rd offset => is_reg rd /\ - 2 ^ 20 <= offset < 2 ^ 20 /\ offset mod 2 = 0
  | JALR rd rs1 imm | Load _ rd rs1 imm | OpImm _ rd rs1 imm =>
      is_reg rd /\ is_reg rs1 /\ - 2 ^ 11 <= imm < 2 ^ 11
  | Branch _ rs1 rs2 offset =>
      is_reg rs1 /\ is_reg rs2 /\ - 2 ^ 12 <= offset < 2 ^ 12 /\ offset mod 2 = 0
  | Store _ rs1 rs2 imm => is_reg rs1 /\ is_reg rs2 /\ - 2 ^ 11 <= imm < 2 ^ 11
  | ShiftImm _ rd rs1 shamt => is_reg rd /\ is_reg rs1 /\ is_reg shamt
  | Op _ rd rs1 rs2 | MulDiv _ rd rs1 rs2 => is_reg rd /\ is_reg rs1 /\ is_reg rs2
  end.

(** The instructions a machine configuration supports. *)
Definition supported (C : MachineConfig) (i : instruction) : bool :=
  match i with
  | Load (LB | LH) _ _ _ => SUPPORT_SIGNED_LOAD C && SUPPORT_LOAD_LESS_THAN_WORD C
  | Load (LBU | LHU) _ _ _ => SUPPORT_LOAD_LESS_THAN_WORD C
  | Store (SB | SH) _ _ _ => SUPPORT_LOAD_LESS_THAN_WORD C
  | ShiftImm SRAI _ _ _ | Op SRA _ _ _ => SUPPORT_SRA C
  | MulDiv (MUL | MULHU) _ _ _ => SUPPORT_MUL C
  | MulDiv (MULH | MULHSU) _ _ _ => SUPPORT_MUL C && SUPPORT_SIGNED_MUL C
  | MulDiv (DIVU | REMU) _ _ _ => SUPPORT_DIV C
  | MulDiv (DIV | REM) _ _ _ => SUPPORT_DIV C && SUPPORT_SIGNED_DIV C
  | _ => true
  end.

(** ** Meaning *)

Definition W : Z := 2 ^ 32.

(** The signed number an [n]-bit word stands for. *)
Definition signed (n w : Z) : Z := if w <? 2 ^ (n - 1) then w else w - 2 ^ n.
Definition s32 (w : Z) : Z := signed 32 w.

Definition alu (op : reg_op) (a b : Z) : Z :=
  match op with
  | ADD => (a + b) mod W
  | SUB => (a - b) mod W
  | SLL => (a * 2 ^ (b mod 32)) mod W
  | SLT => if s32 a <? s32 b then 1 else 0
  | SLTU => if a <? b then 1 else 0
  | XOR => Z.lxor a b
  | SRL => a / 2 ^ (b mod 32)
  | SRA => (s32 a / 2 ^ (b mod 32)) mod W
  | OR => Z.lor a b
  | AND => Z.land a b
  end.

Definition imm_alu (op : imm_op) : reg_op :=
  match op with
  | ADDI => ADD | SLTI => SLT | SLTIU => SLTU | XORI => XOR | ORI => OR | ANDI => AND
  end.
Definition shift_alu (op : shift_op) : reg_op :=
  match op with SLLI => SLL | SRLI => SRL | SRAI => SRA end.

(** Division by zero gives all ones (quotient) or the dividend (remainder);
    the overflowing signed quotient wraps. *)
Definition muldiv (op : m_op) (a b : Z) : Z :=
  match op with
  | MUL => (a * b) mod W
  | MULH => (s32 a * s32 b / W) mod W
  | MULHSU => (s32 a * b / W) mod W
  | MULHU => a * b / W
  | DIV => if b =? 0 then W - 1 else Z.quot (s32 a) (s32 b) mod W
  | DIVU => if b =? 0 then W - 1 else a / b
  | REM => if b =? 0 then a else Z.rem (s32 a) (s32 b) mod W
  | REMU => if b =? 0 then a else a mod b
  end.

Definition taken (op : branch_op) (a b : Z) : bool :=
  match op with
  | BEQ => a =? b
  | BNE => negb (a =? b)
  | BLT => s32 a <? s32 b
  | BGE => s32 b <=? s32 a
  | BLTU => a <? b
  | BGEU => b <=? a
  end.

Record state : Type := { x : Z -> Z; at_pc : Z; mem : Z -> option Z }.

Definition set_x (rd v : Z) (s : state) : state :=
  {| x := fun i => if (i =? rd) && negb (rd =? 0) then v else x s i;
     at_pc := at_pc s; mem := mem s |}.
Definition set_pc (p : Z) (s : state) : state := {| x := x s; at_pc := p; mem := mem s |}.
Definition next (s : state) : state := set_pc ((at_pc s + 4) mod W) s.

(** [n] bytes from [a], little endian. *)
Fixpoint load (m : Z -> option Z) (a : Z) (n : nat) : option Z :=
  match n with
  | O => Some 0
  | S n => match m a, load m (a + 1) n with
           | Some b, Some r => Some (b + 256 * r)
           | _, _ => None
           end
  end.

Definition store (s : state) (a v : Z) (n : nat) : state :=
  {| x := x s; at_pc := at_pc s;
     mem := fun b => if (a <=? b) && (b <? a + Z.of_nat n)
                     then Some (v / 2 ^ (8 * (b - a)) mod 256) else mem s b |}.

Definition load_width (op : load_op) : nat :=
  match op with LB | LBU => 1 | LH | LHU => 2 | LW => 4 end.
Definition store_width (op : store_op) : nat := match op with SB => 1 | SH => 2 | SW => 4 end.
Definition extend (op : load_op) (v : Z) : Z :=
  match op with LB => signed 8 v mod W | LH => signed 16 v mod W | _ => v end.

Inductive result : Type := Next (s : state) | Misaligned | AccessFault.

Definition jump_to (target : Z) (s : state) : result :=
  if target mod 4 =? 0 then Next (set_pc target s) else Misaligned.

Definition step (i : instruction) (s : state) : result :=
  match i with
  | LUI rd imm => Next (set_x rd imm (next s))
  | AUIPC rd imm => Next (set_x rd ((at_pc s + imm) mod W) (next s))
  | JAL rd offset => jump_to ((at_pc s + offset) mod W) (set_x rd ((at_pc s + 4) mod W) s)
  | JALR rd rs1 imm =>
      let target := (x s rs1 + imm) mod W in
      jump_to (target - target mod 2) (set_x rd ((at_pc s + 4) mod W) s)
  | Branch op rs1 rs2 offset =>
      if taken op (x s rs1) (x s rs2) then jump_to ((at_pc s + offset) mod W) s else Next (next s)
  | Load op rd rs1 imm =>
      let a := (x s rs1 + imm) mod W in
      let n := load_width op in
      if negb (a mod Z.of_nat n =? 0) then Misaligned
      else match load (mem s) a n with
           | Some v => Next (set_x rd (extend op v) (next s))
           | None => AccessFault
           end
  | Store op rs1 rs2 imm =>
      let a := (x s rs1 + imm) mod W in
      let n := store_width op in
      if negb (a mod Z.of_nat n =? 0) then Misaligned
      else match load (mem s) a n with
           | Some _ => Next (store (next s) a (x s rs2) n)
           | None => AccessFault
           end
  | OpImm op rd rs1 imm => Next (set_x rd (alu (imm_alu op) (x s rs1) (imm mod W)) (next s))
  | ShiftImm op rd rs1 shamt => Next (set_x rd (alu (shift_alu op) (x s rs1) shamt) (next s))
  | Op op rd rs1 rs2 => Next (set_x rd (alu op (x s rs1) (x s rs2)) (next s))
  | MulDiv op rd rs1 rs2 => Next (set_x rd (muldiv op (x s rs1) (x s rs2)) (next s))
  end.
End Isa.
