(* ===== verification/IsaRefinement.v ===== *)
(** * The unrolled simulator implements RV32IM

    Every valid, supported instruction stored at the pc is executed by one
    [V2.cycle] exactly as [Isa.step] says: same registers, pc and memory
    bytes; a misaligned access or jump panics.  The first part relates the
    values, the second the state, the third the instructions. *)
From stdpp Require Import base list gmap strings.
From Stdlib Require Import ZArith Lia.
From S2P Require Import Prelude MachineInt Decoder Config Memory NonDeterminism Delegations.
From S2P Require Import DelegationSpec Cycle StateNew Invariants SafetyNew Isa.

(** ** Values *)

Lemma s32_to_i32 w : Isa.s32 w = to_i32 w.
Proof. reflexivity. Qed.

Lemma land_31 b : Z.land b 31 = b mod 32.
Proof. exact (land_ones_mod b 5 ltac:(lia)). Qed.

Lemma mod_32_nonneg b : 0 <= b mod 32.
Proof. apply Z.mod_pos_bound. lia. Qed.

Lemma alu_op_value C op a b :
  (op = Isa.SRA -> SUPPORT_SRA C = true) ->
  V2.op_value C (Isa.reg_funct3 op) (Isa.reg_funct7 op) a b = Decoded (Isa.alu op a b).
Proof.
  intros HC. pose proof (mod_32_nonneg b).
  destruct op; cbn -[Z.land Z.lor Z.lxor Z.modulo Z.pow Z.div u32]; rewrite ?land_31;
    try reflexivity; try rewrite (HC eq_refl); unfold shl32, shr32; cbn [when];
    rewrite ?Z.shiftl_mul_pow2, ?Z.shiftr_div_pow2 by auto; reflexivity.
Qed.

Lemma alu_op_imm_value C op f7 a b :
  V2.op_imm_value C (Isa.imm_funct3 op) f7 a b = Decoded (Isa.alu (Isa.imm_alu op) a b).
Proof. destruct op; reflexivity. Qed.

Lemma alu_shift_value C op a b :
  (op = Isa.SRAI -> SUPPORT_SRA C = true) ->
  V2.op_imm_value C (Isa.shift_funct3 op) (Isa.shift_funct7 op) a b =
    Decoded (Isa.alu (Isa.shift_alu op) a b).
Proof.
  intros HC. pose proof (mod_32_nonneg b).
  destruct op; cbn -[Z.land Z.modulo Z.pow Z.div u32]; rewrite ?land_31;
    try rewrite (HC eq_refl); unfold shl32, shr32; cbn [when];
    rewrite ?Z.shiftl_mul_pow2, ?Z.shiftr_div_pow2 by auto; reflexivity.
Qed.

(** A product of a signed word and a word fits a 64-bit integer. *)
Lemma signed_product p : - 2 ^ 63 <= p < 2 ^ 63 -> to_i64 (u64 p) = p.
Proof.
  intros Hp. unfold to_i64, u64. destruct (Z.lt_ge_cases p 0).
  - replace (p mod 2 ^ 64) with (p + 2 ^ 64)
      by (apply Z.mod_unique with (-1); lia).
    case_if; bool_hyps; lia.
  - rewrite Z.mod_small by lia. case_if; bool_hyps; lia.
Qed.

Lemma i32_cong a : is_u32 a -> exists k, to_i32 a = a + k * 2 ^ 32.
Proof.
  intros Ha. unfold to_i32. case_if; [exists 0 | exists (-1)]; lia.
Qed.

Lemma mul_low a b : is_u32 a -> is_u32 b -> u32 (to_i32 a * to_i32 b) = (a * b) mod 2 ^ 32.
Proof.
  intros Ha Hb. destruct (i32_cong a Ha) as [k ->], (i32_cong b Hb) as [l ->]. unfold u32.
  replace ((a + k * 2 ^ 32) * (b + l * 2 ^ 32))
    with (a * b + (a * l + k * b + k * l * 2 ^ 32) * 2 ^ 32) by ring.
  apply Z.mod_add. lia.
Qed.

Lemma div_overflow a b : is_u32 a -> is_u32 b ->
  (if (to_i32 a =? - 2 ^ 31) && (to_i32 b =? -1) then a else u32 (Z.quot (to_i32 a) (to_i32 b)))
  = Z.quot (to_i32 a) (to_i32 b) mod 2 ^ 32.
Proof.
  intros Ha Hb. case_if; [|reflexivity]. bool_hyps.
  rewrite <- (u32_to_i32 a) at 1 by auto. rewrite H, H0. reflexivity.
Qed.

Lemma rem_overflow a b : is_u32 a -> is_u32 b ->
  (if (to_i32 a =? - 2 ^ 31) && (to_i32 b =? -1) then 0 else u32 (Z.rem (to_i32 a) (to_i32 b)))
  = Z.rem (to_i32 a) (to_i32 b) mod 2 ^ 32.
Proof.
  intros Ha Hb. case_if; [|reflexivity]. bool_hyps. rewrite H, H0. reflexivity.
Qed.

Lemma mulhu_value a b : is_u32 a -> is_u32 b -> u32 (Z.shiftr (u64 (a * b)) 32) = a * b / 2 ^ 32.
Proof.
  unfold is_u32. intros Ha Hb. rewrite Z.shiftr_div_pow2 by lia.
  rewrite u64_small by (unfold is_u64; nia). apply u32_small. unfold is_u32.
  assert (0 <= a * b < 2 ^ 32 * 2 ^ 32) by nia. Z.div_mod_to_equations. lia.
Qed.

Lemma muldiv_value C op a b : is_u32 a -> is_u32 b ->
  Isa.supported C (Isa.MulDiv op 0 0 0) = true ->
  V2.mul_div_value C (Isa.m_funct3 op) a b = Decoded (Isa.muldiv op a b).
Proof.
  intros Ha Hb HC. pose proof (to_i32_range a Ha). pose proof (to_i32_range b Hb).
  unfold V2.mul_div_value, Isa.muldiv, Isa.W. destruct op; cbn [Isa.m_funct3]; cbn in HC;
    rewrite HC; cbn [when]; rewrite ?s32_to_i32; f_equal; try reflexivity.
  - apply mul_low; auto.
  - rewrite signed_product, Z.shiftr_div_pow2 by nia. reflexivity.
  - unfold is_u32 in Hb. rewrite signed_product, Z.shiftr_div_pow2 by nia. reflexivity.
  - apply mulhu_value; auto.
  - case_if; [reflexivity | apply div_overflow; auto].
  - case_if; [reflexivity | apply rem_overflow; auto].
Qed.

Lemma taken_branch op a b :
  V2.branch_condition (Isa.branch_funct3 op) a b = Decoded (Isa.taken op a b).
Proof. destruct op; reflexivity. Qed.

(** ** Memory accesses *)

Lemma natural_alignment C a n :
  n = 1%nat \/ n = 2%nat \/ n = 4%nat -> SUPPORT_LOAD_LESS_THAN_WORD C = true \/ n = 4%nat ->
  legal_access C (a mod 4) (Z.of_nat n) = (a mod Z.of_nat n =? 0).
Proof.
  intros Hn HC. unfold legal_access.
  assert (Hr : a mod 4 = 0 \/ a mod 4 = 1 \/ a mod 4 = 2 \/ a mod 4 = 3)
    by (pose proof (Z.mod_pos_bound a 4); lia).
  assert (H2 : a mod 2 = (a mod 4) mod 2) by (Z.div_mod_to_equations; lia).
  destruct Hn as [-> | [-> | ->]];
    [change (Z.of_nat 1) with 1 | change (Z.of_nat 2) with 2 | change (Z.of_nat 4) with 4];
    rewrite ?Z.mod_1_r, ?H2; destruct Hr as [-> | [-> | [-> | ->]]];
    destruct HC as [-> | HC]; try discriminate HC;
    destruct (SUPPORT_LOAD_LESS_THAN_WORD C); reflexivity.
Qed.

Lemma load_bytes_word r m a n v :
  n = 1%nat \/ n = 2%nat \/ n = 4%nat -> is_u32 r ->
  (forall i, 0 <= i < 4 -> Some (byte r i) = if i <? Z.of_nat n then m (a + i) else Some 0) ->
  Isa.load m a n = Some v -> v = r.
Proof.
  intros Hn Hr Hb Hl.
  assert (Hsum : r = byte r 0 + byte r 1 * 2 ^ 8 + byte r 2 * 2 ^ 16 + byte r 3 * 2 ^ 24).
  { unfold byte. rewrite !(land_mask_mod _ 8), !Z.shiftr_div_pow2 by (lia || reflexivity).
    unfold is_u32 in Hr. cbn [Z.mul Pos.mul]. Z.div_mod_to_equations. lia. }
  pose proof (Hb 0 ltac:(lia)) as B0. pose proof (Hb 1 ltac:(lia)) as B1.
  pose proof (Hb 2 ltac:(lia)) as B2. pose proof (Hb 3 ltac:(lia)) as B3. clear Hb.
  rewrite Z.add_0_r in B0. rewrite Hsum.
  destruct Hn as [-> | [-> | ->]]; cbn [Isa.load] in Hl;
    repeat match goal with
    | H : context [?i <? Z.of_nat ?n] |- _ =>
        let b := eval vm_compute in (i <? Z.of_nat n) in
        change (i <? Z.of_nat n) with b in H; cbv iota in H
    end;
    rewrite <- ?Z.add_assoc in Hl; change (1 + 1) with 2 in Hl; change (1 + 2) with 3 in Hl;
    rewrite <- ?B0, <- ?B1, <- ?B2, <- ?B3 in Hl;
    repeat match goal with H : Some _ = Some _ |- _ => apply Some_inj in H end; lia.
Qed.

(** ** State *)
Section Refinement.
Context {M ND : Type} `{LawfulMemory M} `{NonDeterminismCSRSource ND M} {LS : LawfulSource M ND}
  {CSR : V2.DelegationCSRProcessor M} {LP : LawfulProcessor M} (C : MachineConfig).
Implicit Types (c : Core M ND) (st : Isa.state).

Definition abstracts c st : Prop :=
  (forall i, 0 <= i < 32 -> Isa.x st i = register_of i c) /\
  Isa.at_pc st = pc (observable c) /\
  (forall a, 0 <= a < 2 ^ 32 -> Isa.mem st a = mem_byte (memory_source c) a).

Lemma same_abstracts c c' st : same_but_trace c c' -> abstracts c' st -> abstracts c st.
Proof. intros (Ho & Hm & _ & _). unfold abstracts, register_of. rewrite Ho, Hm. auto. Qed.

Lemma same_wf c c' : same_but_trace c c' -> core_wf c' -> core_wf c.
Proof. intros (Ho & Hm & Hn & _). unfold core_wf. rewrite Ho, Hm, Hn. auto. Qed.

(** What follows the opcode match. *)
Definition epilogue (pc_ : Z) (u : unit) : comp Empty_set (Core M ND) bool :=
  V2.count_new_cycle_for_markers ;;!
  let! final := gets observable in
  V2.trace (at_cycle_end final) ;;!
  ret (pc final =? pc_).

Definition rs2_operand (w : Z) c : Z :=
  if get_opcode_bits w =? OPCODE_LOAD then 0 else register_of (get_formal_rs2_bits w) c.

(** Fetch and operand reads. *)
Lemma cycle_steps c w : core_wf c -> ms_word (memory_source c) (pc (observable c)) = Some w ->
  exists c1, same_but_trace c1 (with_pc (wadd (pc (observable c)) 4) c) /\
    V2.cycle C c =
      bind (V2.execute C w (pc (observable c)) (register_of (get_formal_rs1_bits w) c) (rs2_operand w c))
        (epilogue (pc (observable c))) c1.
Proof.
  intros ([_ [_ Ha]] & _) Hw. unfold V2.cycle, rs2_operand.
  unfold bind at 1, gets at 1. unfold bind at 1, V2.trace at 1, modify at 1.
  unfold bind at 1, V2.decoder_step, bind at 1, gets at 1, V2.on_memory, zoom. cbn [memory_source with_events observable].
  unfold Panicking.opcode_read. rewrite (get_opcode_noexcept_backed _ _ w) by auto.
  unfold bind at 1, modify at 1. unfold bind at 1, V2.get_register at 1, gets at 1.
  unfold bind at 1, V2.trace at 1, modify at 1. unfold bind at 1.
  destruct (get_opcode_bits w =? OPCODE_LOAD); cbn [negb].
  - eexists. split; [|reflexivity]. repeat split.
  - eexists. split; [|reflexivity]. repeat split.
Qed.

Lemma epilogue_ok p c : exists c', epilogue p tt c = Ok (pc (observable c) =? p) c' /\
  observable c' = observable c /\ memory_source c' = memory_source c /\
  non_determinism_source c' = non_determinism_source c /\
  cycle_marker c' = incr_cycle_counter (cycle_marker c).
Proof. eexists. split; [reflexivity|]. repeat split. Qed.

Lemma write_rd_abstracts rd v c st : Isa.is_reg rd -> core_wf c -> abstracts c st ->
  exists c', V2.write_rd rd v c = Ok tt c' /\ abstracts c' (Isa.set_x rd v st) /\
    non_determinism_source c' = non_determinism_source c /\ cycle_marker c' = cycle_marker c.
Proof.
  intros Hrd ([(Hl & _ & Hz) _] & _) (Hx & Hp & Hm). eexists. split; [reflexivity|].
  split; [|split; reflexivity]. split; [|split; [exact Hp | exact Hm]].
  intros i Hi. unfold Isa.is_reg in Hrd. unfold register_of in *. cbn. unfold nthZ in *.
  destruct (Z.eqb_spec i rd) as [-> | Hne]; cbn [andb].
  - rewrite nth_insert_eq by (rewrite Hl; unfold NUM_REGISTERS; lia).
    destruct (Z.eqb_spec rd 0) as [-> | Hnz]; cbn [negb]; [|reflexivity].
    rewrite Hx by lia. exact Hz.
  - rewrite nth_insert_ne by lia. apply Hx. lia.
Qed.

Lemma jump_abstracts t c st : t mod 4 = 0 -> abstracts c st ->
  V2.jump t c = Ok tt (with_pc t c) /\ abstracts (with_pc t c) (Isa.set_pc t st).
Proof.
  intros Ht (Hx & Hp & Hm). unfold V2.jump. rewrite land_3, Ht. split; [reflexivity|].
  split; [exact Hx | split; [reflexivity | exact Hm]].
Qed.

Lemma jump_misaligned t c : t mod 4 <> 0 -> V2.jump t c = Panic "Unaligned jump address".
Proof. intros Ht. unfold V2.jump. rewrite land_3. destruct (Z.eqb_spec (t mod 4) 0); [lia | reflexivity]. Qed.

(** ** Instructions *)

(** The outcome of the opcode match for a step of the manual. *)
Definition implements (r : Isa.result) c (o : outcome Empty_set (Core M ND) unit) : Prop :=
  match r with
  | Isa.Next st' =>
      exists c', o = Ok tt c' /\ abstracts c' st' /\
        non_determinism_source c' = non_determinism_source c /\ cycle_marker c' = cycle_marker c
  | Isa.Misaligned => exists msg, o = Panic msg
  | Isa.AccessFault => True
  end.

Context (c : Core M ND) (st : Isa.state).
Hypothesis Hwf : core_wf c.
Hypothesis Habs : abstracts c (Isa.next st).

Lemma reg_value i : Isa.is_reg i -> Isa.x st i = register_of i c.
Proof. intros Hi. destruct Habs as (Hx & _). apply Hx. exact Hi. Qed.

Lemma reg_u32 i : Isa.is_reg i -> is_u32 (Isa.x st i).
Proof. intros Hi. rewrite reg_value by auto. apply register_of_wf. exact Hwf. Qed.

Lemma link_value : pc (observable c) = (Isa.at_pc st + 4) mod Isa.W.
Proof. destruct Habs as (_ & Hp & _). symmetry. exact Hp. Qed.

Lemma write_implements rd v : Isa.is_reg rd ->
  implements (Isa.Next (Isa.set_x rd v (Isa.next st))) c (V2.write_rd rd v c).
Proof. intros Hrd. apply write_rd_abstracts; auto. Qed.

Lemma arith_implements rd d v : Isa.is_reg rd -> d = Decoded v ->
  implements (Isa.Next (Isa.set_x rd v (Isa.next st))) c
    ((let! r := V2.or_panic d in V2.write_rd rd r) c).
Proof. intros Hrd ->. apply write_implements. exact Hrd. Qed.

(** A jump, then the link register. *)
Lemma jump_implements rd target : Isa.is_reg rd -> is_u32 target ->
  implements (Isa.jump_to target (Isa.set_x rd ((Isa.at_pc st + 4) mod Isa.W) st)) c
    ((let! link := gets (fun c => pc (observable c)) in V2.jump target ;;! V2.write_rd rd link) c).
Proof.
  intros Hrd Ht. unfold Isa.jump_to. unfold bind at 1, gets. rewrite link_value.
  destruct (Z.eqb_spec (target mod 4) 0) as [Ha | Ha]; cbn [implements].
  - destruct (jump_abstracts target c (Isa.next st) Ha Habs) as [Hj Hjabs].
    unfold bind. rewrite Hj.
    destruct (write_rd_abstracts rd ((Isa.at_pc st + 4) mod Isa.W) (with_pc target c) _ Hrd
                (with_pc_wf _ _ Ht Ha Hwf) Hjabs) as (c' & Hw & Hc' & Hn & Hmk).
    exists c'. rewrite Hw. auto.
  - unfold bind. rewrite jump_misaligned by auto. eauto.
Qed.

Lemma branch_implements w op p a b offset :
  sign_extend (BTypeOpcode.imm w) 13 = u32 offset -> p = Isa.at_pc st ->
  implements (if Isa.taken op a b then Isa.jump_to ((p + offset) mod Isa.W) st else Isa.Next (Isa.next st))
    c (V2.exec_branch w p (Isa.branch_funct3 op) a b c).
Proof.
  intros Himm ->. unfold V2.exec_branch. rewrite Himm, taken_branch.
  change (wadd (Isa.at_pc st) (u32 offset)) with (u32 (Isa.at_pc st + u32 offset)). rewrite u32_add_r.
  change (u32 (Isa.at_pc st + offset)) with ((Isa.at_pc st + offset) mod Isa.W).
  unfold bind at 1. cbn [V2.or_panic ret].
  destruct (Isa.taken op a b).
  - unfold Isa.jump_to. destruct (Z.eqb_spec ((Isa.at_pc st + offset) mod Isa.W mod 4) 0) as [Ha | Ha];
      cbn [implements].
    + destruct (jump_abstracts _ c (Isa.next st) Ha Habs) as [Hj Hjabs].
      unfold bind at 1. rewrite Hj. eexists. split; [reflexivity|]. split; [exact Hjabs|].
      split; reflexivity.
    + unfold bind at 1. rewrite jump_misaligned by exact Ha. eauto.
  - eexists. split; [reflexivity|]. split; [exact Habs|]. split; reflexivity.
Qed.

Lemma mem_read_illegal a n m : is_u64 a -> legal_access C (a mod 4) n = false ->
  exists msg, Panicking.mem_read (M:=M) C a n m = Panic msg.
Proof.
  intros Ha Hl. unfold Panicking.mem_read.
  rewrite u8_unalignment, aligned_address_spec, Hl by auto. unfold bind, get_noexcept.
  destruct (ms_word m (a - a mod 4)) as [w|] eqn:Hw.
  - rewrite (ms_get_backed _ _ MemLoad w) by (unfold reading; auto using aligned_mod). cbn. eauto.
  - destruct (ms_get_unbacked m (a - a mod 4) MemLoad) as (t & v & -> & _); auto using aligned_mod.
    cbn. eauto.
Qed.

Lemma mem_write_illegal a v n m : is_u64 a -> legal_access C (a mod 4) n = false ->
  exists msg, Panicking.mem_write (M:=M) C a v n m = Panic msg.
Proof.
  intros Ha Hl. unfold Panicking.mem_write.
  rewrite u8_unalignment, aligned_address_spec, Hl by auto. unfold bind, get_noexcept.
  destruct (ms_word m (a - a mod 4)) as [w|] eqn:Hw.
  - rewrite (ms_get_backed _ _ MemLoad w) by (unfold reading; auto using aligned_mod). cbn. eauto.
  - destruct (ms_get_unbacked m (a - a mod 4) MemLoad) as (t & v' & -> & _); auto using aligned_mod.
    cbn. eauto.
Qed.

(** A load the manual allows is from a backed word. *)
Lemma load_backed a n v : (0 < n)%nat -> is_u32 a -> Isa.load (Isa.mem st) a n = Some v ->
  exists w, ms_word (memory_source c) (a - a mod 4) = Some w.
Proof.
  intros Hn Ha Hl. destruct n as [|n]; [lia|]. cbn in Hl.
  destruct (Isa.mem st a) as [b|] eqn:Eb; [|discriminate].
  destruct Habs as (_ & _ & Hm).
  change (Isa.mem st a) with (Isa.mem (Isa.next st) a) in Eb. rewrite Hm in Eb by exact Ha.
  unfold mem_byte in Eb. destruct (ms_word _ _); [eauto | discriminate].
Qed.

(** The extension of a loaded value. *)
Lemma extended_value op v : is_u32 v -> 0 <= v < 2 ^ (8 * Z.of_nat (Isa.load_width op)) ->
  Isa.supported C (Isa.Load op 0 0 0) = true ->
  V2.extended_load C (Isa.load_funct3 op) v = Decoded (Isa.extend op v).
Proof.
  intros Hu Hv HC.
  assert (E8 : Isa.load_width op = 1%nat -> Z.land v 255 = v).
  { intros E. rewrite E in Hv. rewrite (land_mask_mod v 8) by (lia || reflexivity).
    apply Z.mod_small. exact Hv. }
  assert (E16 : Isa.load_width op = 2%nat -> Z.land v 65535 = v).
  { intros E. rewrite E in Hv. rewrite (land_mask_mod v 16) by (lia || reflexivity).
    apply Z.mod_small. exact Hv. }
  unfold V2.extended_load, Isa.extend, sign_extend_8, sign_extend_16, zero_extend_8, zero_extend_16.
  destruct op; cbn [Isa.load_funct3 Isa.load_width] in *; cbn in HC; bool_hyps;
    rewrite ?E8, ?E16 by reflexivity; try (case_if; reflexivity);
    match goal with HS : SUPPORT_SIGNED_LOAD C = true |- _ => rewrite HS end;
    rewrite sign_extend_spec by (exact Hv || lia); reflexivity.
Qed.

Lemma byte_bound r n : is_u32 r -> n = 1%nat \/ n = 2%nat \/ n = 4%nat ->
  (forall i, Z.of_nat n <= i < 4 -> byte r i = 0) -> 0 <= r < 2 ^ (8 * Z.of_nat n).
Proof.
  intros Hr Hn Hb.
  assert (Hsum : r = byte r 0 + byte r 1 * 2 ^ 8 + byte r 2 * 2 ^ 16 + byte r 3 * 2 ^ 24).
  { unfold byte. rewrite !(land_mask_mod _ 8), !Z.shiftr_div_pow2 by (lia || reflexivity).
    unfold is_u32 in Hr. cbn [Z.mul Pos.mul]. Z.div_mod_to_equations. lia. }
  pose proof (byte_range r 0). pose proof (byte_range r 1).
  destruct Hn as [-> | [-> | ->]].
  - pose proof (Hb 1 ltac:(lia)). pose proof (Hb 2 ltac:(lia)). pose proof (Hb 3 ltac:(lia)). lia.
  - pose proof (Hb 2 ltac:(lia)). pose proof (Hb 3 ltac:(lia)). lia.
  - exact Hr.
Qed.

Lemma load_implements w op rd rs1 imm :
  Isa.is_reg rd -> Isa.is_reg rs1 -> sign_extend (ITypeOpcode.imm w) 12 = u32 imm ->
  Isa.supported C (Isa.Load op rd rs1 imm) = true ->
  implements (Isa.step (Isa.Load op rd rs1 imm) st) c
    (V2.exec_load C w rd (Isa.load_funct3 op) (Isa.x st rs1) c).
Proof.
  intros Hrd Hrs1 Himm HC. cbn [Isa.step]. unfold V2.exec_load. rewrite Himm.
  change (wadd (Isa.x st rs1) (u32 imm)) with (u32 (Isa.x st rs1 + u32 imm)). rewrite u32_add_r.
  change ((Isa.x st rs1 + imm) mod Isa.W) with (u32 (Isa.x st rs1 + imm)).
  pose proof (u32_range (Isa.x st rs1 + imm)) as Ha. set (a := u32 (Isa.x st rs1 + imm)) in *. clearbody a.
  assert (Hn : Isa.load_width op = 1%nat \/ Isa.load_width op = 2%nat \/ Isa.load_width op = 4%nat)
    by (destruct op; cbn; auto).
  assert (HL : SUPPORT_LOAD_LESS_THAN_WORD C = true \/ Isa.load_width op = 4%nat)
    by (destruct op; cbn in *; bool_hyps; auto).
  assert (Hsz : V2.load_size (Isa.load_funct3 op) = Decoded (Z.of_nat (Isa.load_width op)))
    by (destruct op; reflexivity).
  rewrite Hsz. unfold bind at 1. cbn [V2.or_panic ret]. unfold bind at 1, V2.on_memory, zoom.
  pose proof (natural_alignment C a _ Hn HL) as Hleg.
  destruct (Z.eqb_spec (a mod Z.of_nat (Isa.load_width op)) 0) as [Hal | Hal]; cbn [negb].
  - destruct (Isa.load (Isa.mem st) a (Isa.load_width op)) as [v|] eqn:Hv; [|exact I].
    destruct (load_backed a (Isa.load_width op) v) as [word Hword]; auto; [destruct op; cbn; lia|].
    destruct (mem_read_bytes C a (Z.of_nat (Isa.load_width op)) (memory_source c) word)
      as (r & Hr & Hru & Hbytes); auto using u32_is_u64; [apply Hwf|].
    rewrite Hr. cbn [put_memory].
    assert (Hvr : v = r).
    { eapply load_bytes_word; [exact Hn | exact Hru | | exact Hv].
      intros i Hi. rewrite Hbytes by exact Hi. destruct (Z.ltb_spec i (Z.of_nat (Isa.load_width op))); [|reflexivity].
      destruct Habs as (_ & _ & Hm). symmetry. apply Hm. unfold is_u32 in Ha.
      destruct Hn as [E | [E | E]]; rewrite E in *; Z.div_mod_to_equations; lia. }
    subst v.
    assert (Hrb : 0 <= r < 2 ^ (8 * Z.of_nat (Isa.load_width op))).
    { apply byte_bound; auto. intros i Hi. pose proof (Hbytes i ltac:(lia)) as Hb.
      destruct (Z.ltb_spec i (Z.of_nat (Isa.load_width op))); [lia|]. congruence. }
    unfold bind at 1, V2.trace at 1, modify at 1.
    rewrite (extended_value op r Hru Hrb HC). unfold bind at 1. cbn [V2.or_panic ret].
    destruct (write_rd_abstracts rd (Isa.extend op r)
      (with_events [trace_ram_read (Z.land a (not32 3)) word] (put_memory (memory_source c) c))
      (Isa.next st)) as (c' & Hc'); auto.
    exists c'. exact Hc'.
  - destruct (mem_read_illegal a (Z.of_nat (Isa.load_width op)) (memory_source c)) as [msg ->];
      auto using u32_is_u64. cbn. eauto.
Qed.

Lemma byte_div v i : 0 <= i -> byte v i = v / 2 ^ (8 * i) mod 256.
Proof.
  intros Hi. unfold byte. rewrite (land_mask_mod _ 8), Z.shiftr_div_pow2 by (lia || reflexivity).
  reflexivity.
Qed.

Lemma store_implements w op rs1 rs2 imm :
  Isa.is_reg rs1 -> Isa.is_reg rs2 -> sign_extend (STypeOpcode.imm w) 12 = u32 imm ->
  Isa.supported C (Isa.Store op rs1 rs2 imm) = true ->
  implements (Isa.step (Isa.Store op rs1 rs2 imm) st) c
    (V2.exec_store C w (Isa.store_funct3 op) (Isa.x st rs1) (Isa.x st rs2) c).
Proof.
  intros Hrs1 Hrs2 Himm HC. cbn [Isa.step]. unfold V2.exec_store. rewrite Himm.
  change (wadd (Isa.x st rs1) (u32 imm)) with (u32 (Isa.x st rs1 + u32 imm)). rewrite u32_add_r.
  change ((Isa.x st rs1 + imm) mod Isa.W) with (u32 (Isa.x st rs1 + imm)).
  pose proof (u32_range (Isa.x st rs1 + imm)) as Ha. set (a := u32 (Isa.x st rs1 + imm)) in *. clearbody a.
  assert (Hn : Isa.store_width op = 1%nat \/ Isa.store_width op = 2%nat \/ Isa.store_width op = 4%nat)
    by (destruct op; cbn; auto).
  assert (HL : SUPPORT_LOAD_LESS_THAN_WORD C = true \/ Isa.store_width op = 4%nat)
    by (destruct op; cbn in *; bool_hyps; auto).
  assert (Hsz : V2.store_size (Isa.store_funct3 op) = Decoded (Z.of_nat (Isa.store_width op)))
    by (destruct op; reflexivity).
  rewrite Hsz. unfold bind at 1. cbn [V2.or_panic ret]. unfold bind at 1, V2.on_memory, zoom.
  pose proof (natural_alignment C a _ Hn HL) as Hleg.
  destruct (Z.eqb_spec (a mod Z.of_nat (Isa.store_width op)) 0) as [Hal | Hal]; cbn [negb].
  - destruct (Isa.load (Isa.mem st) a (Isa.store_width op)) as [v|] eqn:Hv; [|exact I].
    destruct (load_backed a (Isa.store_width op) v) as [word Hword]; auto; [destruct op; cbn; lia|].
    destruct (mem_write_bytes C a (Isa.x st rs2) (Z.of_nat (Isa.store_width op)) (memory_source c) word)
      as (new & m' & Hr & Hbytes); auto using u32_is_u64, reg_u32; [apply Hwf|].
    rewrite Hr. eexists. split; [reflexivity|]. split; [|split; reflexivity].
    destruct Habs as (Hx & Hp & Hm). split; [exact Hx | split; [exact Hp|]].
    intros b Hb. cbn. rewrite Hbytes by lia. case_if; bool_hyps.
    + rewrite byte_div by lia. reflexivity.
    + apply Hm. exact Hb.
  - destruct (mem_write_illegal a (Isa.x st rs2) (Z.of_nat (Isa.store_width op)) (memory_source c))
      as [msg ->]; auto using u32_is_u64. cbn. eauto.
Qed.

(** ** The opcode match on an encoded instruction *)

Lemma shift_amount rd f3 rs1 shamt f7 :
  0 <= rd < 32 -> 0 <= f3 < 8 -> Isa.is_reg rs1 -> Isa.is_reg shamt -> f7 = 0 \/ f7 = 32 ->
  sign_extend (ITypeOpcode.imm (Encode.r_type 0x13 rd f3 rs1 shamt f7)) 12 mod 32 = shamt.
Proof.
  unfold Isa.is_reg. intros Hrd Hf3 Hrs1 Hs Hf7.
  assert (E : ITypeOpcode.imm (Encode.r_type 0x13 rd f3 rs1 shamt f7) = shamt + f7 * 32).
  { rewrite ITypeOpcode_imm_spec. unfold Encode.r_type.
    destruct Hf7 as [-> | ->]; Z.div_mod_to_equations; lia. }
  rewrite E, sign_extend_spec by (destruct Hf7; subst; lia).
  destruct (Z.ltb_spec (shamt + f7 * 32) (2 ^ (12 - 1))); [|destruct Hf7; subst; lia].
  rewrite u32_small by (destruct Hf7; subst; unfold is_u32; lia).
  destruct Hf7 as [-> | ->]; Z.div_mod_to_equations; lia.
Qed.

Lemma shift_alu_mod op a b b' : b mod 32 = b' mod 32 ->
  Isa.alu (Isa.shift_alu op) a b = Isa.alu (Isa.shift_alu op) a b'.
Proof. intros E. destruct op; cbn; rewrite E; reflexivity. Qed.

Lemma wadd_u32_r a b : wadd a (u32 b) = u32 (a + b).
Proof. apply u32_add_r. Qed.

Lemma align_even t : is_u32 t -> Z.land t (not32 1) = t - t mod 2.
Proof.
  intros Ht. change (not32 1) with (Z.shiftl (Z.ones 31) 1).
  replace (Z.land t (Z.shiftl (Z.ones 31) 1)) with (Z.shiftl (Z.shiftr t 1) 1).
  - rewrite Z.shiftl_mul_pow2, Z.shiftr_div_pow2 by lia. Z.div_mod_to_equations. lia.
  - apply Z.bits_inj'. intros i Hi. rewrite Z.land_spec, !Z.shiftl_spec by lia.
    destruct (Z.lt_ge_cases i 1).
    + rewrite !(Z.testbit_neg_r _ (i - 1)) by lia. rewrite andb_false_r. reflexivity.
    + rewrite Z.shiftr_spec by lia. replace (i - 1 + 1) with i by lia.
      destruct (Z.lt_ge_cases i 32).
      * rewrite Z.ones_spec_low, andb_true_r by lia. reflexivity.
      * rewrite (testbit_high 32 t i) by (auto; lia). reflexivity.
Qed.

Ltac opcode_is Hop :=
  unfold V2.execute; rewrite Hop;
  repeat match goal with
  | |- context [?a =? ?b] =>
      let r := eval vm_compute in (a =? b) in
      lazymatch r with true => idtac | false => idtac end;
      change (a =? b) with r; cbv iota
  end.

(** The word is executed with the registers it names as operands. *)
Definition executes i : Prop :=
  implements (Isa.step i st) c
    (V2.execute C (Isa.encode i) (Isa.at_pc st)
       (register_of (get_formal_rs1_bits (Isa.encode i)) c) (rs2_operand (Isa.encode i) c) c).

Lemma execute_lui rd imm : Isa.valid (Isa.LUI rd imm) -> executes (Isa.LUI rd imm).
Proof.
  intros (Hrd & Hi & He). unfold executes. cbn [Isa.encode Isa.step].
  destruct (u_type_fields 0x37 rd imm) as (Fo & Frd); [lia | exact Hrd|].
  opcode_is Fo. rewrite Frd. unfold V2.exec_lui. rewrite u_type_imm by (auto; lia).
  apply write_implements. exact Hrd.
Qed.

Lemma execute_auipc rd imm : Isa.valid (Isa.AUIPC rd imm) -> executes (Isa.AUIPC rd imm).
Proof.
  intros (Hrd & Hi & He). unfold executes. cbn [Isa.encode Isa.step].
  destruct (u_type_fields 0x17 rd imm) as (Fo & Frd); [lia | exact Hrd|].
  opcode_is Fo. rewrite Frd. unfold V2.exec_auipc. rewrite u_type_imm by (auto; lia).
  apply write_implements. exact Hrd.
Qed.

Lemma execute_jal rd offset : Isa.valid (Isa.JAL rd offset) -> executes (Isa.JAL rd offset).
Proof.
  intros (Hrd & Hi & He). unfold executes. cbn [Isa.encode Isa.step].
  destruct (j_type_fields 0x6f rd offset) as (Fo & Frd); [lia | exact Hrd|].
  opcode_is Fo. rewrite Frd. unfold V2.exec_jal. rewrite j_type_imm by (auto; lia).
  rewrite wadd_u32_r. apply jump_implements; auto using u32_range.
Qed.

Lemma execute_jalr rd rs1 imm : Isa.valid (Isa.JALR rd rs1 imm) -> executes (Isa.JALR rd rs1 imm).
Proof.
  intros (Hrd & Hrs1 & Hi). unfold executes. cbn [Isa.encode Isa.step].
  destruct (i_type_fields 0x67 rd 0 rs1 imm) as (Fo & Frd & _ & Frs); [lia | exact Hrd | lia | exact Hrs1 |].
  opcode_is Fo. rewrite Frd, Frs, <- (reg_value rs1) by auto.
  unfold V2.exec_jalr. rewrite i_type_imm by (auto; lia).
  rewrite wadd_u32_r, align_even by apply u32_range. apply jump_implements; auto.
  pose proof (u32_range (Isa.x st rs1 + imm)) as Hu. unfold u32, is_u32 in *.
  fold Isa.W in *. Z.div_mod_to_equations. lia.
Qed.

Lemma execute_branch op rs1 rs2 offset :
  Isa.valid (Isa.Branch op rs1 rs2 offset) -> executes (Isa.Branch op rs1 rs2 offset).
Proof.
  intros (Hrs1 & Hrs2 & Hi & He). unfold executes. cbn [Isa.encode Isa.step].
  assert (Hf : 0 <= Isa.branch_funct3 op < 8) by (destruct op; cbn; lia).
  destruct (b_type_fields 0x63 (Isa.branch_funct3 op) rs1 rs2 offset) as (Fo & Ff & Fr1 & Fr2); auto; [lia|].
  unfold rs2_operand. opcode_is Fo. rewrite Ff, Fr1, Fr2, <- (reg_value rs1), <- (reg_value rs2) by auto.
  apply branch_implements; auto. apply b_type_imm; auto; lia.
Qed.

Lemma execute_load op rd rs1 imm : Isa.valid (Isa.Load op rd rs1 imm) ->
  Isa.supported C (Isa.Load op rd rs1 imm) = true -> executes (Isa.Load op rd rs1 imm).
Proof.
  intros (Hrd & Hrs1 & Hi) HC. unfold executes. cbn [Isa.encode].
  assert (Hf : 0 <= Isa.load_funct3 op < 8) by (destruct op; cbn; lia).
  destruct (i_type_fields 0x03 rd (Isa.load_funct3 op) rs1 imm) as (Fo & Frd & Ff & Frs); auto; [lia|].
  opcode_is Fo. rewrite Frd, Ff, Frs, <- (reg_value rs1) by auto.
  apply load_implements; auto. apply i_type_imm; auto; lia.
Qed.

Lemma execute_store op rs1 rs2 imm : Isa.valid (Isa.Store op rs1 rs2 imm) ->
  Isa.supported C (Isa.Store op rs1 rs2 imm) = true -> executes (Isa.Store op rs1 rs2 imm).
Proof.
  intros (Hrs1 & Hrs2 & Hi) HC. unfold executes. cbn [Isa.encode].
  assert (Hf : 0 <= Isa.store_funct3 op < 8) by (destruct op; cbn; lia).
  destruct (s_type_fields 0x23 (Isa.store_funct3 op) rs1 rs2 imm) as (Fo & Ff & Fr1 & Fr2); auto; [lia|].
  unfold rs2_operand. opcode_is Fo. rewrite Ff, Fr1, Fr2, <- (reg_value rs1), <- (reg_value rs2) by auto.
  apply store_implements; auto. apply s_type_imm; auto; lia.
Qed.

Lemma execute_op_imm op rd rs1 imm :
  Isa.valid (Isa.OpImm op rd rs1 imm) -> executes (Isa.OpImm op rd rs1 imm).
Proof.
  intros (Hrd & Hrs1 & Hi). unfold executes. cbn [Isa.encode Isa.step].
  assert (Hf : 0 <= Isa.imm_funct3 op < 8) by (destruct op; cbn; lia).
  destruct (i_type_fields 0x13 rd (Isa.imm_funct3 op) rs1 imm) as (Fo & Frd & Ff & Frs); auto; [lia|].
  opcode_is Fo. rewrite Frd, Ff, Frs, <- (reg_value rs1) by auto.
  apply arith_implements; auto. rewrite i_type_imm by (auto; lia). apply alu_op_imm_value.
Qed.

Lemma execute_shift op rd rs1 shamt : Isa.valid (Isa.ShiftImm op rd rs1 shamt) ->
  Isa.supported C (Isa.ShiftImm op rd rs1 shamt) = true -> executes (Isa.ShiftImm op rd rs1 shamt).
Proof.
  intros (Hrd & Hrs1 & Hs) HC. unfold executes. cbn [Isa.encode Isa.step].
  assert (Hf : 0 <= Isa.shift_funct3 op < 8) by (destruct op; cbn; lia).
  assert (Hf7 : Isa.shift_funct7 op = 0 \/ Isa.shift_funct7 op = 32) by (destruct op; auto).
  destruct (r_type_fields 0x13 rd (Isa.shift_funct3 op) rs1 shamt (Isa.shift_funct7 op))
    as (Fo & Frd & Ff & Frs & _ & F7); auto; try lia.
  opcode_is Fo. rewrite Frd, Ff, Frs, F7, <- (reg_value rs1) by auto.
  apply arith_implements; auto. rewrite alu_shift_value by (intros ->; exact HC). f_equal.
  apply shift_alu_mod. rewrite shift_amount by auto. symmetry. apply Z.mod_small. exact Hs.
Qed.

Lemma execute_op op rd rs1 rs2 : Isa.valid (Isa.Op op rd rs1 rs2) ->
  Isa.supported C (Isa.Op op rd rs1 rs2) = true -> executes (Isa.Op op rd rs1 rs2).
Proof.
  intros (Hrd & Hrs1 & Hrs2) HC. unfold executes. cbn [Isa.encode Isa.step].
  assert (Hf : 0 <= Isa.reg_funct3 op < 8) by (destruct op; cbn; lia).
  assert (Hf7 : 0 <= Isa.reg_funct7 op < 128) by (destruct op; cbn; lia).
  destruct (r_type_fields 0x33 rd (Isa.reg_funct3 op) rs1 rs2 (Isa.reg_funct7 op))
    as (Fo & Frd & Ff & Fr1 & Fr2 & F7); auto; [lia|].
  unfold rs2_operand. opcode_is Fo.
  rewrite Frd, Ff, Fr1, Fr2, F7, <- (reg_value rs1), <- (reg_value rs2) by auto.
  apply arith_implements; auto.
  replace (Isa.reg_funct7 op =? M_EXT_FUNCT7) with false by (destruct op; reflexivity).
  apply alu_op_value. intros ->. exact HC.
Qed.

Lemma execute_muldiv op rd rs1 rs2 : Isa.valid (Isa.MulDiv op rd rs1 rs2) ->
  Isa.supported C (Isa.MulDiv op rd rs1 rs2) = true -> executes (Isa.MulDiv op rd rs1 rs2).
Proof.
  intros (Hrd & Hrs1 & Hrs2) HC. unfold executes. cbn [Isa.encode Isa.step].
  assert (Hf : 0 <= Isa.m_funct3 op < 8) by (destruct op; cbn; lia).
  destruct (r_type_fields 0x33 rd (Isa.m_funct3 op) rs1 rs2 1)
    as (Fo & Frd & Ff & Fr1 & Fr2 & F7); auto; try lia.
  unfold rs2_operand. opcode_is Fo.
  rewrite Frd, Ff, Fr1, Fr2, F7, <- (reg_value rs1), <- (reg_value rs2) by auto.
  apply arith_implements; auto. apply muldiv_value; auto using reg_u32.
Qed.

Lemma execute_implements i : Isa.valid i -> Isa.supported C i = true -> executes i.
Proof.
  destruct i; auto using execute_lui, execute_auipc, execute_jal, execute_jalr, execute_branch,
    execute_load, execute_store, execute_op_imm, execute_shift, execute_op, execute_muldiv.
Qed.
End Refinement.

(** ** Cycles and runs *)
Section Runs.
Context {M ND : Type} `{LawfulMemory M} `{NonDeterminismCSRSource ND M} {LS : LawfulSource M ND}
  {CSR : V2.DelegationCSRProcessor M} {LP : LawfulProcessor M} (C : MachineConfig).
Implicit Types (c : Core M ND) (st : Isa.state) (i : Isa.instruction).

(** The abstract machine a simulator state stands for. *)
Definition abstraction c : Isa.state :=
  {| Isa.x := fun r => register_of r c; Isa.at_pc := pc (observable c);
     Isa.mem := mem_byte (memory_source c) |}.

Lemma abstraction_abstracts c : abstracts c (abstraction c).
Proof. repeat split. Qed.

Lemma next_abstracts c st : abstracts c st ->
  abstracts (with_pc (wadd (pc (observable c)) 4) c) (Isa.next st).
Proof.
  intros (Hx & Hp & Hm). split; [exact Hx|]. split; [|exact Hm].
  cbn. rewrite Hp. reflexivity.
Qed.

(** What one cycle does with the instruction [i] at the pc. *)
Definition cycle_result i c st : Prop :=
  match Isa.step i st with
  | Isa.Next st' =>
      exists c', V2.cycle C c = Ok (Isa.at_pc st' =? Isa.at_pc st) c' /\ abstracts c' st' /\ core_wf c' /\
        non_determinism_source c' = non_determinism_source c /\
        cycle_marker c' = incr_cycle_counter (cycle_marker c)
  | Isa.Misaligned => exists msg, V2.cycle C c = Panic msg
  | Isa.AccessFault => True
  end.

Lemma cycle_implements i c st :
  core_wf c -> abstracts c st -> Isa.valid i -> Isa.supported C i = true ->
  ms_word (memory_source c) (pc (observable c)) = Some (Isa.encode i) -> cycle_result i c st.
Proof.
  intros Hc Hst Hv HC Hw. pose proof Hst as (Hx & Hp & _).
  destruct (cycle_steps C c _ Hc Hw) as (c1 & Hsame & Hcyc).
  assert (Hc1 : core_wf c1).
  { eapply same_wf; [exact Hsame|]. pose proof Hc as ([_ [Hu Ha]] & _).
    apply with_pc_wf; [apply wadd_range | apply next_pc_aligned; auto | exact Hc]. }
  assert (Hst1 : abstracts c1 (Isa.next st)) by (eapply same_abstracts; [exact Hsame | apply next_abstracts; auto]).
  pose proof (execute_implements C c1 st Hc1 Hst1 i Hv HC) as Hex. unfold executes in Hex.
  assert (Hreg : forall r, register_of r c1 = register_of r c)
    by (intros r; unfold register_of; destruct Hsame as [-> _]; reflexivity).
  unfold rs2_operand in Hex, Hcyc. rewrite !Hreg, Hp in Hex.
  unfold cycle_result. rewrite Hcyc. unfold implements in Hex. unfold bind.
  destruct (Isa.step i st) as [st'| |]; [|destruct Hex as [msg ->]; eauto | exact I].
  destruct Hex as (c2 & He & Habs2 & Hn & Hmk). rewrite He.
  destruct (epilogue_ok (pc (observable c)) c2) as (c' & Hep & Ho & Hm' & Hn' & Hmk'). rewrite Hep.
  assert (Hpc : pc (observable c2) = Isa.at_pc st') by (symmetry; apply Habs2).
  exists c'. rewrite Hpc, <- Hp. split; [reflexivity|]. split.
  { unfold abstracts, register_of in *. rewrite Ho, Hm'. exact Habs2. }
  split.
  { pose proof (cycle_wf C c Hc) as Hwf. rewrite Hcyc in Hwf. unfold bind in Hwf. rewrite He, Hep in Hwf. exact Hwf. }
  destruct Hsame as (_ & _ & Hsn & Hsm). rewrite Hn', Hn, Hsn, Hmk', Hmk, Hsm. split; reflexivity.
Qed.

(** Fetching through the byte view of memory. *)
Lemma fetch_word c st w : core_wf c -> abstracts c st ->
  Isa.load (Isa.mem st) (Isa.at_pc st) 4 = Some w ->
  ms_word (memory_source c) (pc (observable c)) = Some w.
Proof.
  intros ([_ [Hu Ha]] & Hm & _) (_ & Hp & Hmem) Hl. rewrite Hp in Hl.
  set (p := pc (observable c)) in *.
  assert (Hb : forall j, 0 <= j < 4 -> Isa.mem st (p + j) =
                 option_map (fun w => byte w j) (ms_word (memory_source c) p)).
  { intros j Hj. unfold is_u32 in Hu. rewrite Hmem by (Z.div_mod_to_equations; lia). unfold mem_byte.
    replace ((p + j) mod 4) with j by (Z.div_mod_to_equations; lia).
    replace (p + j - j) with p by lia. reflexivity. }
  destruct (ms_word (memory_source c) p) as [w0|] eqn:E; cbn [option_map] in Hb.
  - f_equal. symmetry. apply (load_bytes_word w0 (Isa.mem st) p 4); auto.
    + eapply Hm; [exact Ha | apply Hu | exact E].
    + intros j Hj. rewrite Hb by lia. destruct (Z.ltb_spec j (Z.of_nat 4)); [reflexivity | lia].
  - cbn [Isa.load] in Hl. rewrite <- (Z.add_0_r p) in Hl at 1. rewrite Hb in Hl by lia. discriminate.
Qed.

(** [n] steps of the manual, each fetching the instruction at the pc. *)
Inductive isa_runs : nat -> Isa.state -> Isa.state -> Prop :=
| runs_nil st : isa_runs 0 st st
| runs_cons n i st st1 st2 :
    Isa.valid i -> Isa.supported C i = true ->
    Isa.load (Isa.mem st) (Isa.at_pc st) 4 = Some (Isa.encode i) ->
    Isa.step i st = Isa.Next st1 -> isa_runs n st1 st2 -> isa_runs (S n) st st2.

Lemma run_implements n st st' : isa_runs n st st' -> forall c fin,
  core_wf c -> abstracts c st ->
  exists fin' c', V2.run_cycles C n fin c = Ok fin' c' /\ abstracts c' st' /\ core_wf c' /\
    non_determinism_source c' = non_determinism_source c.
Proof.
  induction 1 as [st | n i st st1 st2 Hv HC Hl Hs Hr IH]; intros c fin Hc Hst.
  - exists fin, c. auto.
  - pose proof (cycle_implements i c st Hc Hst Hv HC (fetch_word c st _ Hc Hst Hl)) as Hcyc.
    unfold cycle_result in Hcyc. rewrite Hs in Hcyc. destruct Hcyc as (c1 & Hc1 & Hst1 & Hwf1 & Hn1 & _).
    destruct (IH c1 (if Isa.at_pc st1 =? Isa.at_pc st then true else fin) Hwf1 Hst1)
      as (fin' & c' & Hrun & Hst2 & Hwf2 & Hn2).
    exists fin', c'. cbn [V2.run_cycles]. unfold bind. rewrite Hc1, Hrun. split_and!; auto. congruence.
Qed.

(** The self-loop is a fixed point of the step. *)
Lemma self_loop_step c : core_wf c -> exists st',
  Isa.step (Isa.JAL 0 0) (abstraction c) = Isa.Next st' /\ Isa.at_pc st' = pc (observable c) /\
  (forall r, Isa.x st' r = register_of r c) /\ Isa.mem st' = mem_byte (memory_source c).
Proof.
  intros ([_ [Hu Ha]] & _). eexists. split.
  - cbn [Isa.step abstraction Isa.at_pc]. unfold Isa.jump_to, Isa.W. rewrite Z.add_0_r.
    rewrite (Z.mod_small (pc (observable c))), Ha by exact Hu. reflexivity.
  - cbn. split_and!; auto. intros r. rewrite andb_false_r. reflexivity.
Qed.

Lemma self_loop_stays n : forall c fin, core_wf c ->
  Isa.load (mem_byte (memory_source c)) (pc (observable c)) 4 = Some (Isa.encode (Isa.JAL 0 0)) ->
  exists c', V2.run_cycles C n fin c = Ok (match n with O => fin | _ => true end) c' /\
    abstracts c' (abstraction c) /\ non_determinism_source c' = non_determinism_source c.
Proof.
  induction n as [|n IH]; intros c fin Hc Hl; [exists c; auto using abstraction_abstracts|].
  destruct (self_loop_step c Hc) as (st1 & Hs & Hp & Hx & Hmem).
  pose proof (cycle_implements (Isa.JAL 0 0) c (abstraction c) Hc (abstraction_abstracts c)) as Hcyc.
  unfold cycle_result in Hcyc. rewrite Hs in Hcyc. destruct Hcyc as (c1 & Hc1 & (Ax & Ap & Am) & Hwf1 & Hn1 & _).
  { unfold Isa.valid, Isa.is_reg. split_and!; (lia || reflexivity). }
  { reflexivity. }
  { eapply fetch_word; eauto using abstraction_abstracts. }
  assert (Hp1 : pc (observable c1) = pc (observable c)) by congruence.
  assert (Hmem1 : forall a, 0 <= a < 2 ^ 32 -> mem_byte (memory_source c1) a = mem_byte (memory_source c) a).
  { intros a Ha. rewrite <- Am, Hmem by exact Ha. reflexivity. }
  destruct (IH c1 true Hwf1) as (c' & Hr & (Bx & Bp & Bm) & Hn').
  { rewrite Hp1, <- Hl. destruct Hc as ([_ [Hu Hal]] & _). unfold is_u32 in Hu.
    assert (pc (observable c) <= 2 ^ 32 - 4) by (Z.div_mod_to_equations; lia).
    cbn [Isa.load]. rewrite !Hmem1 by lia. reflexivity. }
  exists c'. cbn [V2.run_cycles]. unfold bind. rewrite Hc1. cbn [abstraction Isa.at_pc].
  rewrite Hp, Z.eqb_refl. rewrite Hr. split; [destruct n; reflexivity|]. split; [|congruence].
  split; [|split].
  - intros r Hr'. rewrite <- Bx by exact Hr'. change (register_of r c = register_of r c1).
    rewrite <- Ax, Hx by exact Hr'. reflexivity.
  - cbn in *. congruence.
  - intros a Ha. cbn in *. rewrite <- Bm, Hmem1 by exact Ha. reflexivity.
Qed.
End Runs.

(** ** Main theorems *)
Section Main.
Context {M ND : Type} `{LawfulMemory M} `{NonDeterminismCSRSource ND M} {LS : LawfulSource M ND}
  {CSR : V2.DelegationCSRProcessor M} {LP : LawfulProcessor M} (C : MachineConfig).

(** C1: One cycle of the unrolled simulator executes the RV32IM instruction
    encoded at the pc, if the configuration supports it, as the manual defines
    it (FENCE, ECALL and EBREAK are not in [Isa]): whenever the abstract step
    succeeds the cycle completes in a state with the same registers, pc and
    memory bytes, reports whether the pc stood still, leaves the oracle alone
    and counts the cycle; a misaligned access or jump panics. *)
Theorem unrolled_cycle_is_isa_step i (c : Core M ND) :
  core_wf c -> Isa.valid i -> Isa.supported C i = true ->
  ms_word (memory_source c) (pc (observable c)) = Some (Isa.encode i) ->
  match Isa.step i (abstraction c) with
  | Isa.Next st' =>
      exists c', V2.cycle C c = Ok (Isa.at_pc st' =? pc (observable c)) c' /\ abstracts c' st' /\
        core_wf c' /\ non_determinism_source c' = non_determinism_source c /\
        cycle_marker c' = incr_cycle_counter (cycle_marker c)
  | Isa.Misaligned => exists msg, V2.cycle C c = Panic msg
  | Isa.AccessFault => True
  end.
Proof. intros Hc Hv HC Hw. exact (cycle_implements C i c _ Hc (abstraction_abstracts c) Hv HC Hw). Qed.

(** C11: A run of [n] RV32IM steps, each fetching an instruction that the
    configuration supports from memory (which the run itself may have written), is computed by [run_cycles n]. *)
Theorem unrolled_run_is_isa_run n (c : Core M ND) st' fin :
  core_wf c -> isa_runs C n (abstraction c) st' ->
  exists fin' c', V2.run_cycles C n fin c = Ok fin' c' /\ abstracts c' st' /\ core_wf c'.
Proof.
  intros Hc Hr. destruct (run_implements C n _ _ Hr c fin Hc (abstraction_abstracts c))
    as (fin' & c' & Hrun & Habs & Hwf & _). eauto.
Qed.

(** C35: A machine that reaches the self-loop [jal x0, 0] has finished: however
    many further cycles run, the registers, the pc, every byte of memory and
    the oracle stay as they are, and the run reports the end of execution. *)
Theorem self_loop_is_final n (c : Core M ND) fin :
  core_wf c ->
  Isa.load (mem_byte (memory_source c)) (pc (observable c)) 4 = Some (Isa.encode (Isa.JAL 0 0)) ->
  exists c', V2.run_cycles C (S n) fin c = Ok true c' /\ abstracts c' (abstraction c) /\
    non_determinism_source c' = non_determinism_source c.
Proof. intros Hc Hl. exact (self_loop_stays C (S n) c fin Hc Hl). Qed.
End Main.

(** The sample machine at its last instruction. *)
Definition sample_halted : Core VectorMemoryImpl ZeroedSource := with_pc 24 sample_core.

Lemma self_loop_is_final_witness :
  exists c', V2.run_cycles (CSR := V2.NoExtraCSRs_processor _) IMStandardIsaConfig 1000 false sample_halted
             = Ok true c' /\ abstracts c' (abstraction sample_halted).
Proof.
  assert (LP : LawfulProcessor VectorMemoryImpl (H1 := V2.NoExtraCSRs_processor _)) by apply NoExtraCSRs_lawful.
  destruct (self_loop_is_final (CSR := V2.NoExtraCSRs_processor _) IMStandardIsaConfig 999 sample_halted false)
    as (c' & Hr & Ha & _).
  - apply with_pc_wf; [unfold is_u32; lia | reflexivity | apply sample_core_wf].
  - vm_compute. reflexivity.
  - exists c'. auto.
Defined.

Lemma unrolled_cycle_is_isa_step_witness :
  exists c', V2.cycle (CSR := V2.NoExtraCSRs_processor _) IMStandardIsaConfig sample_core = Ok false c' /\
    core_wf c' /\ register_of 1 c' = 5.
Proof.
  assert (LP : LawfulProcessor VectorMemoryImpl (H1 := V2.NoExtraCSRs_processor _)) by apply NoExtraCSRs_lawful.
  destruct (unrolled_cycle_is_isa_step (CSR := V2.NoExtraCSRs_processor _) IMStandardIsaConfig
              (Isa.OpImm Isa.ADDI 1 0 5) sample_core) as (c' & Hc & Ha & Hw & _).
  - apply sample_core_wf.
  - unfold Isa.valid, Isa.is_reg. lia.
  - reflexivity.
  - reflexivity.
  - exists c'. split; [exact Hc|]. split; [exact Hw|].
    destruct Ha as (Hx & _). rewrite <- Hx by lia. reflexivity.
Defined.

(** The abstract state after the first two instructions of the sample. *)
Definition sample_after_two : Isa.state :=
  match Isa.step (Isa.OpImm Isa.ADDI 1 0 5) (abstraction sample_core) with
  | Isa.Next s1 => match Isa.step (Isa.OpImm Isa.ADDI 2 0 7) s1 with Isa.Next s2 => s2 | _ => s1 end
  | _ => abstraction sample_core
  end.

Lemma unrolled_run_is_isa_run_witness :
  exists fin' c', V2.run_cycles (CSR := V2.NoExtraCSRs_processor _) IMStandardIsaConfig 2 false sample_core
                  = Ok fin' c' /\
    register_of 1 c' = 5 /\ register_of 2 c' = 7.
Proof.
  assert (LP : LawfulProcessor VectorMemoryImpl (H1 := V2.NoExtraCSRs_processor _)) by apply NoExtraCSRs_lawful.
  destruct (unrolled_run_is_isa_run (CSR := V2.NoExtraCSRs_processor _) IMStandardIsaConfig 2 sample_core
              sample_after_two false) as (fin' & c' & Hr & (Hx & _) & _).
  - apply sample_core_wf.
  - eapply (runs_cons _ _ (Isa.OpImm Isa.ADDI 1 0 5)); [unfold Isa.valid, Isa.is_reg; lia | reflexivity | vm_compute; reflexivity | reflexivity |].
    eapply (runs_cons _ _ (Isa.OpImm Isa.ADDI 2 0 7)); [unfold Isa.valid, Isa.is_reg; lia | reflexivity | vm_compute; reflexivity | reflexivity |].
    apply runs_nil.
  - exists fin', c'. split; [exact Hr|]. rewrite <- !Hx by lia. split; vm_compute; reflexivity.
Defined.
