(* ===== verification/Equivalence.v ===== *)
(** * The two simulators agree

    The first simulator ([V1], with traps, modes and an MMU) and the unrolled
    one ([V2], which panics instead) are meant to compute the same machine in
    the configurations the provers use: machine mode, no address translation,
    no exception handling, custom CSRs only.  Whenever a cycle of [V1]
    completes there, the cycle of [V2] completes with the same registers, pc,
    memory, non-determinism source and cycle markers. *)
From stdpp Require Import base list gmap strings.
From Stdlib Require Import ZArith Lia Btauto.
From S2P Require Import Prelude MachineInt Decoder Field StatusRegisters Config Memory.
From S2P Require Import NonDeterminism Mmu Delegations DelegationSpec Cycle StateNew State.
From S2P Require Import Invariants SafetyNew Isa IsaRefinement.

(** ** Memory accesses *)
Section Accesses.
Context {M : Type} `{LawfulMemory M} (C : MachineConfig).

Lemma trapping_read_ok a n (mt : MemTrace M) v mt' : is_u64 a ->
  Trapping.mem_read C a n MemLoad mt = Ok v mt' ->
  mt_mem mt' = mt_mem mt /\ exists w, Panicking.mem_read C a n (mt_mem mt) = Ok (w, v) (mt_mem mt).
Proof.
  intros Ha Hr. unfold Trapping.mem_read in Hr. unfold bind at 1 in Hr. cbn [assert_or_panic] in Hr.
  change (bool_decide (MemLoad = Instruction) || bool_decide (MemLoad = MemLoad)) with true in Hr.
  cbn [ret assert_or_panic] in Hr. rewrite land_3, aligned_address_spec in Hr by auto.
  unfold Panicking.mem_read. rewrite u8_unalignment, aligned_address_spec by auto.
  destruct (legal_access C (a mod 4) n) eqn:El; [|discriminate].
  unfold bind in Hr. unfold Trapping.traced_get in Hr.
  destruct (ms_get (mt_mem mt) (a - a mod 4) MemLoad) as [w|t w|] eqn:Eg; try discriminate.
  unfold bind, get_noexcept. rewrite Eg. cbn in Hr |- *.
  destruct (loaded_value C w (a mod 4) n) as [r|]; [|discriminate].
  inversion Hr; subst. cbn. eauto.
Qed.

Lemma trapping_write_ok a v n (mt : MemTrace M) u mt' : is_u64 a ->
  Trapping.mem_write C a v n mt = Ok u mt' ->
  exists r, Panicking.mem_write C a v n (mt_mem mt) = Ok r (mt_mem mt').
Proof.
  intros Ha Hr. unfold Trapping.mem_write in Hr. rewrite land_3, aligned_address_spec in Hr by auto.
  unfold Panicking.mem_write. rewrite u8_unalignment, aligned_address_spec by auto.
  destruct (legal_access C (a mod 4) n) eqn:El; [|discriminate].
  unfold bind in Hr. unfold bind, get_noexcept, set_noexcept.
  destruct (ms_get (mt_mem mt) (a - a mod 4) MemLoad) as [w|t w|]; try discriminate. cbn in Hr |- *.
  destruct (stored_value C w v (a mod 4) n) as [new|]; [|discriminate]. cbn in Hr |- *.
  destruct (ms_set (mt_mem mt) (a - a mod 4) new MemStore) as [m'|t m'|]; try discriminate.
  inversion Hr; subst. cbn. eauto.
Qed.

Lemma loaded_word w r : is_u32 w -> loaded_value C w 0 4 = Some r -> r = w.
Proof.
  intros Hw. unfold loaded_value. case_if; cbn [option_map value_mask Z.eqb Pos.eqb]; [|congruence].
  change (0 * 8) with 0. rewrite Z.shiftr_0_r. intros E. apply Some_inj in E.
  rewrite (land_mask_mod w 32) in E by (lia || reflexivity). rewrite <- E. apply u32_small. exact Hw.
Qed.

Lemma trapping_fetch_ok a (mt : MemTrace M) v mt' :
  a mod 4 = 0 -> is_u32 a -> words_u32 (mt_mem mt) ->
  Trapping.mem_read C a 4 Instruction mt = Ok v mt' ->
  mt_mem mt' = mt_mem mt /\ ms_word (mt_mem mt) a = Some v.
Proof.
  intros Hal Ha Hm Hr. unfold Trapping.mem_read in Hr. unfold bind at 1 in Hr.
  change (bool_decide (Instruction = Instruction) || bool_decide (Instruction = MemLoad)) with true in Hr.
  cbn [ret assert_or_panic] in Hr.
  rewrite land_3, aligned_address_spec, Hal, Z.sub_0_r in Hr by auto using u32_is_u64.
  destruct (legal_access C 0 4) eqn:El; [|discriminate].
  unfold bind, Trapping.traced_get in Hr.
  destruct (ms_word (mt_mem mt) a) as [w|] eqn:Hw.
  - rewrite (ms_get_backed _ _ Instruction w) in Hr by (unfold reading; auto). cbn in Hr.
    assert (Hwu : is_u32 w) by (eapply Hm; [exact Hal | apply Ha | exact Hw]).
    destruct (loaded_value C w 0 4) as [r|] eqn:El'; [|discriminate].
    apply loaded_word in El'; auto. inversion Hr; subst. auto.
  - destruct (ms_get_unbacked (mt_mem mt) a Instruction) as (t & v' & Hf & _); auto.
    rewrite Hf in Hr. discriminate.
Qed.
End Accesses.

(** ** Arithmetic arms *)

Lemma land_funct7 instr m : 0 <= m < 128 ->
  Z.land instr (m * 2 ^ 25) = Z.land (funct7_bits instr) m * 2 ^ 25.
Proof.
  intros Hm. rewrite funct7_bits_spec, <- !Z.shiftl_mul_pow2, <- Z.shiftr_div_pow2, <- Z.land_ones by lia.
  apply Z.bits_inj'. intros i Hi. rewrite Z.land_spec, !Z.shiftl_spec, !Z.land_spec by lia.
  destruct (Z.lt_ge_cases i 25).
  - rewrite !(Z.testbit_neg_r _ (i - 25)) by lia. btauto.
  - rewrite Z.shiftr_spec by lia. replace (i - 25 + 25) with i by lia.
    destruct (Z.lt_ge_cases (i - 25) 7).
    + rewrite Z.ones_spec_low by lia. btauto.
    + rewrite (testbit_high 7 m (i - 25)) by (auto; lia). btauto.
Qed.

Lemma rotate_bits instr : Z.land instr V1.ROTATE_MASK = Z.land (funct7_bits instr) 48 * 2 ^ 25.
Proof. apply (land_funct7 instr 48). lia. Qed.
Lemma arithmetic_bit instr : Z.land instr V1.SUB_TEST_MASK = Z.land (funct7_bits instr) 32 * 2 ^ 25.
Proof. apply (land_funct7 instr 32). lia. Qed.

(** With the rotations off, what [V1] computes and validates [V2] computes. *)
Lemma op_value_agrees C instr f3 a b v :
  0 <= f3 < 8 -> SUPPORT_ROT C = false -> funct7_bits instr <> 1 ->
  V1.op_value C true instr f3 a b = Decoded v -> V1.valid_encoding true f3 (funct7_bits instr) = true ->
  V2.op_value C f3 (funct7_bits instr) a b = Decoded v.
Proof.
  intros Hf Hrot _ Hv He.
  assert (Hf7 : funct7_bits instr = 0 \/ (funct7_bits instr = 32 /\ (f3 = 0 \/ f3 = 5))).
  { split_funct3 Hf; cbn in He; rewrite ?orb_true_iff, ?Z.eqb_eq in He; tauto. }
  unfold V1.op_value in Hv. change V1.ARITHMETIC_SHIFT_RIGHT_TEST_MASK with V1.SUB_TEST_MASK in Hv.
  rewrite rotate_bits, arithmetic_bit, Hrot in Hv. unfold V2.op_value.
  destruct Hf7 as [E | [E [-> | ->]]]; rewrite E in Hv |- *;
    [split_funct3 Hf; exact Hv | exact Hv | exact Hv].
Qed.

Lemma op_imm_value_agrees C instr f3 a b v :
  0 <= f3 < 8 -> SUPPORT_ROT C = false ->
  V1.op_value C false instr f3 a b = Decoded v -> V1.valid_encoding false f3 (funct7_bits instr) = true ->
  V2.op_imm_value C f3 (funct7_bits instr) a b = Decoded v.
Proof.
  intros Hf Hrot Hv He.
  unfold V1.op_value in Hv. change V1.ARITHMETIC_SHIFT_RIGHT_TEST_MASK with V1.SUB_TEST_MASK in Hv.
  rewrite rotate_bits, arithmetic_bit, Hrot in Hv. unfold V2.op_imm_value.
  split_funct3 Hf; cbn [V1.valid_encoding negb] in He; try exact Hv.
  - apply orb_prop in He. destruct He as [He | He]; apply Z.eqb_eq in He; rewrite He in Hv |- *;
      [exact Hv | discriminate Hv].
  - apply orb_prop in He. destruct He as [He | He]; [apply orb_prop in He; destruct He as [He | He]|];
      apply Z.eqb_eq in He; rewrite He in Hv |- *; [exact Hv | exact Hv | discriminate Hv].
Qed.

(** ** The simulation *)

(** The processors behind the two simulators compute the same delegations. *)
Class ProcessorsAgree (M : Type) {CSR1 : V1.CustomCSRProcessor M} {CSR2 : V2.DelegationCSRProcessor M}
    : Prop := {
  process_read_agrees csr rs1 zimm d v d' :
    V1.process_read csr rs1 zimm d = Ok v d' -> v = 0 /\ d' = d;
  process_write_agrees csr rs1 zimm d u d' : 0 <= csr < 4096 ->
    V1.process_write csr rs1 zimm d = Ok u d' -> V2.process_write (u16 csr) d = Ok tt d';
}.

Lemma DelegationsCSRProcessor_agree {M} `{LawfulMemory M} `{U256Ops} :
  ProcessorsAgree M (CSR1 := V1.DelegationsCSRProcessor) (CSR2 := V2.DelegationsCSRProcessor).
Proof.
  constructor; cbn.
  - intros csr rs1 zimm d v d'. unfold V1.DelegationsCSRProcessor_process_read.
    repeat case_if; intros E; inversion E; auto.
  - intros csr rs1 zimm d [] d' Hc. unfold V1.DelegationsCSRProcessor_process_write,
      V2.DelegationsCSRProcessor_process_write.
    replace (u16 csr) with csr by (symmetry; apply Z.mod_small; lia).
    repeat case_if; [apply blake2_impl_completes | apply u256_impl_completes | discriminate].
Qed.

Section Simulation.
Context {M ND : Type} `{LawfulMemory M} `{NonDeterminismCSRSource ND M} {LS : LawfulSource M ND}
  {CSR1 : V1.CustomCSRProcessor M} {CSR2 : V2.DelegationCSRProcessor M}
  {PA : ProcessorsAgree M} (C : MachineConfig).
Hypothesis Hcsrs : SUPPORT_STANDARD_CSRS C = false.
Hypothesis Hcsrrw : SUPPORT_ONLY_CSRRW C = true.
Hypothesis Hrot : SUPPORT_ROT C = false.

Notation St := (V1.RiscV32State M ND NoMMU).
Implicit Types (s : St) (c : Core M ND).

(** [c] is the core of [s], apart from the trace, with its pc at [p]. *)
Definition agree (p : Z) s c : Prop :=
  registers (observable c) = registers (observable (V1.core s)) /\ pc (observable c) = p /\
  memory_source c = memory_source (V1.core s) /\
  non_determinism_source c = non_determinism_source (V1.core s) /\
  cycle_marker c = cycle_marker (V1.core s).

(** The part of the state only [V1] has. *)
Definition same_ext s s' : Prop :=
  V1.extra_flags s' = V1.extra_flags s /\ V1.mmu s' = V1.mmu s /\
  V1.machine_mode_trap_data s' = V1.machine_mode_trap_data s.

Definition write_back (rd v : Z) s : St :=
  V1.with_core (with_register rd (if rd =? 0 then 0 else v)) s.

(** If the arm of [V1] completes, so does that of [V2], with the same effect
    once [V1] has written back its result and moved its pc on. *)
Definition simulated s (o1 : outcome TrapReason St (Z * Z * Z)) (o2 : outcome Empty_set (Core M ND) unit) : Prop :=
  forall rd v p s1, o1 = Ok (rd, v, p) s1 ->
    same_ext s s1 /\ exists c', o2 = Ok tt c' /\ agree (wadd p 4) (write_back rd v s1) c'.

Lemma agree_register p s c i : agree p s c -> register_of i c = register_of i (V1.core s).
Proof. intros (Hr & _). unfold register_of. rewrite Hr. reflexivity. Qed.

Lemma agree_write_rd p s c rd v : agree p s c ->
  exists c', V2.write_rd rd v c = Ok tt c' /\ agree p (write_back rd v s) c'.
Proof.
  intros (Hr & Hp & Hm & Hn & Hk). eexists. split; [reflexivity|].
  unfold agree, write_back. cbn. rewrite Hr. auto.
Qed.

(** Writing zero to [x0] is no write. *)
Lemma agree_no_rd p s c : regs_wf (registers (observable c)) -> agree p s c ->
  agree p (write_back 0 0 s) c.
Proof.
  intros (Hl & _ & Hz) (Hr & Hp & Hm & Hn & Hk). unfold agree, write_back. cbn. split_and!; auto.
  rewrite <- Hr. destruct (registers (observable c)) as [|r regs]; [discriminate Hl|].
  unfold nthZ in Hz. change (Z.to_nat 0) with 0%nat in *. cbn in Hz |- *. rewrite Hz. reflexivity.
Qed.

Lemma simulated_value s c rd v p : agree (wadd p 4) s c ->
  simulated s (ret (rd, v, p) s) (V2.write_rd rd v c).
Proof.
  intros Ha rd' v' p' s1 E. inversion E; subst. split; [repeat split|]. apply agree_write_rd. exact Ha.
Qed.

Lemma simulated_decoded s c rd d p : agree (wadd p 4) s c ->
  simulated s ((let! r := V1.or_illegal d in ret (rd, r, p)) s)
    ((let! r := V2.or_panic d in V2.write_rd rd r) c).
Proof.
  intros Ha. destruct d as [v| |]; [apply simulated_value; exact Ha | |]; intros ? ? ? ? E; discriminate E.
Qed.

Lemma jump_step t : is_u32 t -> t mod 4 = 0 -> is_u32 (wadd t 4) /\ wadd t 4 mod 4 = 0.
Proof. intros Ht Ha. split; [apply wadd_range | apply next_pc_aligned; auto]. Qed.

Lemma agree_jump p s c t : wadd t 4 mod 4 = 0 -> agree p s c ->
  exists c', V2.jump (wadd t 4) c = Ok tt c' /\ agree (wadd t 4) s c'.
Proof.
  intros Ht (Hr & Hp & Hm & Hn & Hk). unfold V2.jump. rewrite land_3, Ht. eexists.
  split; [reflexivity|]. unfold agree. cbn. auto.
Qed.

(** JAL and JALR: [t] is the target minus four. *)
Lemma simulated_jump s c p rd t target : is_u32 t -> target = wadd t 4 -> agree (wadd p 4) s c ->
  simulated s ((let! t' := V1.jump_target t in ret (rd, wadd p 4, t')) s)
    ((let! link := gets (fun c => pc (observable c)) in V2.jump target ;;! V2.write_rd rd link) c).
Proof.
  intros Ht -> Ha rd' v' p' s1 E. unfold V1.jump_target in E. rewrite land_3 in E.
  unfold bind in E. case_if; [discriminate E|]. inversion E; subst. clear E.
  assert (Ht4 : p' mod 4 = 0) by (bool_hyps; assumption).
  split; [repeat split|]. destruct (agree_jump _ _ _ p' (proj2 (jump_step p' Ht Ht4)) Ha) as (c1 & Hj & Ha1).
  assert (Hlink : pc (observable c) = wadd p 4) by apply Ha.
  unfold bind, gets. rewrite Hj, Hlink. apply agree_write_rd. exact Ha1.
Qed.

Lemma agree_trace p s c ev : agree p s c -> agree p s (with_events [ev] c).
Proof. auto. Qed.

Lemma simulated_branch s c p instr a b : regs_wf (registers (observable c)) ->
  agree (wadd p 4) s c ->
  simulated s (V1.exec_branch instr p a b s) (V2.exec_branch instr p (funct3_bits instr) a b c).
Proof.
  intros Hwf Ha rd v p' s1 E. unfold V1.exec_branch in E. unfold V2.exec_branch.
  change (BTypeOpcode.funct3 instr) with (RTypeOpcode.funct3 instr) in E. rewrite funct3_agree in E.
  change (V1.branch_condition (funct3_bits instr) a b) with (V2.branch_condition (funct3_bits instr) a b) in E.
  unfold bind at 1 in E. unfold bind at 1.
  destruct (V2.branch_condition (funct3_bits instr) a b) as [[]| |]; cbn [V1.or_illegal V2.or_panic ret] in E |- *;
    try discriminate E.
  - unfold V1.jump_target in E. rewrite land_3 in E. unfold bind in E. case_if; [discriminate E|].
    inversion E; subst. clear E. split; [repeat split|].
    set (dst := wsub (wadd p (sign_extend (BTypeOpcode.imm instr) 13)) 4) in *.
    assert (Hd : wadd p (sign_extend (BTypeOpcode.imm instr) 13) = wadd dst 4)
      by (symmetry; apply wadd_wsub_cancel, wadd_range).
    assert (Hal : dst mod 4 = 0) by (bool_hyps; assumption).
    destruct (agree_jump _ _ _ dst (proj2 (jump_step dst (wsub_range _ _) Hal)) Ha) as (c1 & Hj & Ha1).
    rewrite Hd. unfold bind at 1. rewrite Hj. eexists. split; [reflexivity|].
    apply agree_trace, agree_no_rd; [|exact Ha1]. destruct Ha as [Hr _], Ha1 as [Hr1 _].
    rewrite Hr1, <- Hr. exact Hwf.
  - inversion E; subst. split; [repeat split|]. eexists. split; [reflexivity|].
    apply agree_trace, agree_no_rd; auto.
Qed.

(** [s2] is [s] with events added to the trace. *)
Definition quiet s s2 : Prop :=
  same_ext s s2 /\ observable (V1.core s2) = observable (V1.core s) /\
  memory_source (V1.core s2) = memory_source (V1.core s) /\
  non_determinism_source (V1.core s2) = non_determinism_source (V1.core s) /\
  cycle_marker (V1.core s2) = cycle_marker (V1.core s).

Lemma quiet_agree p s s2 c : quiet s s2 -> agree p s c -> agree p s2 c.
Proof. intros (_ & Ho & Hm & Hn & Hk). unfold agree. rewrite Ho, Hm, Hn, Hk. auto. Qed.

Lemma translate_nommu virt mode t s v s2 :
  V1.translate virt mode t s = Ok v s2 -> v = virt /\ quiet s s2.
Proof. intros E. inversion E; subst. repeat split. Qed.

Lemma on_memtrace_ok {A} (k : comp TrapReason (MemTrace M) A) s a s' :
  V1.on_memtrace k s = Ok a s' -> exists mt,
    k (as_memtrace (V1.core s)) = Ok a mt /\ s' = V1.with_core (fun _ => put_memtrace mt (V1.core s)) s.
Proof.
  unfold V1.on_memtrace, V1.on_core. intros E. apply zoom_ok in E. destruct E as (k' & E & ->).
  apply zoom_ok in E. destruct E as (mt & E & ->). eauto.
Qed.

Lemma simulated_load s c p mode instr rd a : is_u32 a ->
  agree (wadd p 4) s c ->
  simulated s (V1.exec_load C mode instr p rd a s) (V2.exec_load C instr rd (funct3_bits instr) a c).
Proof.
  intros Hu Ha rd' v' p' s1 E. unfold V1.exec_load in E. unfold V2.exec_load.
  change (ITypeOpcode.funct3 instr) with (RTypeOpcode.funct3 instr) in E. rewrite funct3_agree in E.
  apply bind_ok in E. destruct E as (pa & s2 & Ht & E). apply translate_nommu in Ht. destruct Ht as [-> Hq].
  apply (quiet_agree _ _ _ _ Hq) in Ha.
  set (addr := wadd a (sign_extend (ITypeOpcode.imm instr) 12)) in *.
  change (V1.load_size (funct3_bits instr)) with (V2.load_size (funct3_bits instr)) in E.
  destruct (V2.load_size (funct3_bits instr)) as [n| |]; try discriminate E.
  unfold bind at 1 in E. cbn [V1.or_illegal ret] in E. unfold bind at 1. cbn [V2.or_panic ret].
  apply bind_ok in E. destruct E as (r & s3 & Hr & E). apply on_memtrace_ok in Hr.
  destruct Hr as (mt & Hr & ->). apply trapping_read_ok in Hr; [|apply u32_is_u64, wadd_range].
  destruct Hr as (Hmt & w & Hr). cbn [as_memtrace mt_mem] in Hmt, Hr.
  assert (Hmem : memory_source c = memory_source (V1.core s2)) by apply Ha.
  unfold bind at 1, V2.on_memory, zoom. rewrite Hmem, Hr.
  rewrite v1_extended_load_agrees in E. unfold bind at 1, V2.trace at 1, modify at 1.
  destruct (V2.extended_load C (funct3_bits instr) r) as [x| |]; try discriminate E.
  inversion E; subst. split.
  { destruct Hq as (He & _). exact He. }
  apply (agree_write_rd (wadd p' 4)). destruct Ha as (H1' & H2' & H3' & H4' & H5').
  unfold agree. cbn. rewrite Hmt. split_and!; auto.
Qed.

Lemma simulated_store s c p mode instr a b : is_u32 a -> regs_wf (registers (observable c)) ->
  agree (wadd p 4) s c ->
  simulated s (V1.exec_store C mode instr p a b s) (V2.exec_store C instr (funct3_bits instr) a b c).
Proof.
  intros Hu Hwf Ha rd' v' p' s1 E. unfold V1.exec_store in E. unfold V2.exec_store.
  change (STypeOpcode.funct3 instr) with (RTypeOpcode.funct3 instr) in E. rewrite funct3_agree in E.
  apply bind_ok in E. destruct E as (pa & s2 & Ht & E). apply translate_nommu in Ht. destruct Ht as [-> Hq].
  apply (quiet_agree _ _ _ _ Hq) in Ha. rewrite wadd_comm in E.
  set (addr := wadd a (sign_extend (STypeOpcode.imm instr) 12)) in *.
  change (V1.store_size (funct3_bits instr)) with (V2.store_size (funct3_bits instr)) in E.
  destruct (V2.store_size (funct3_bits instr)) as [n| |]; try discriminate E.
  unfold bind at 1 in E. cbn [V1.or_illegal ret] in E. unfold bind at 1. cbn [V2.or_panic ret].
  apply bind_ok in E. destruct E as (r & s3 & Hr & E). apply on_memtrace_ok in Hr.
  destruct Hr as (mt & Hr & ->). apply trapping_write_ok in Hr; [|apply u32_is_u64, wadd_range].
  destruct Hr as ([o w] & Hr). cbn [as_memtrace mt_mem] in Hr.
  assert (Hmem : memory_source c = memory_source (V1.core s2)) by apply Ha.
  unfold bind at 1, V2.on_memory, zoom. rewrite Hmem, Hr.
  inversion E; subst. split; [destruct Hq as (He & _); exact He|].
  eexists. split; [reflexivity|]. apply agree_no_rd; [exact Hwf|].
  destruct Ha as (H1' & H2' & H3' & H4' & H5'). unfold agree. cbn. split_and!; auto.
Qed.

Lemma reg_reg_bit instr : get_opcode_bits instr = 0x13 \/ get_opcode_bits instr = 0x33 ->
  negb (Z.land instr V1.TEST_REG_REG_MASK =? 0) = (get_opcode_bits instr =? 0x33).
Proof.
  intros Hop.
  assert (E : Z.land instr V1.TEST_REG_REG_MASK = Z.land (get_opcode_bits instr) 0x20).
  { rewrite <- opcode_agree. rewrite <- Z.land_assoc. reflexivity. }
  rewrite E. destruct Hop as [-> | ->]; reflexivity.
Qed.

Lemma simulated_op s c p instr rd a b : get_opcode_bits instr = OP_SUBMASK ->
  agree (wadd p 4) s c ->
  simulated s (V1.exec_op C instr p rd a b s)
    (V2.exec_op C rd (funct3_bits instr) (funct7_bits instr) a b c).
Proof.
  intros Hop Ha. unfold V1.exec_op, V2.exec_op.
  rewrite reg_reg_bit, Hop, funct3_agree, funct7_agree by auto. cbn [andb].
  change (OP_SUBMASK =? 51) with true. cbv iota. change M_EXT_FUNCT7 with 1. cbn [andb].
  destruct (funct7_bits instr =? 1) eqn:E7; [apply (simulated_decoded _ _ _ _ _ Ha)|]. bool_hyps.
  intros rd' v' p' s1 E. destruct (V1.op_value C true instr (funct3_bits instr) a b) as [v| |] eqn:Ev;
    try discriminate E. unfold bind in E. cbn [V1.or_illegal ret] in E.
  case_if; [discriminate E|]. bool_hyps.
  rewrite (op_value_agrees _ _ _ _ _ v (funct3_bits_range instr)) by auto.
  apply (simulated_value _ _ rd v p Ha). exact E.
Qed.

Lemma simulated_op_imm s c p instr rd a b : get_opcode_bits instr = OP_IMM_SUBMASK ->
  agree (wadd p 4) s c ->
  simulated s (V1.exec_op C instr p rd a b s)
    (V2.exec_op_imm C instr rd (funct3_bits instr) (funct7_bits instr) a c).
Proof.
  intros Hop Ha. unfold V1.exec_op, V2.exec_op_imm.
  rewrite reg_reg_bit, Hop, funct3_agree, funct7_agree by auto.
  change (OP_IMM_SUBMASK =? 51) with false. cbv iota. cbn [andb].
  intros rd' v' p' s1 E.
  set (imm := sign_extend (ITypeOpcode.imm instr) 12) in *.
  destruct (V1.op_value C false instr (funct3_bits instr) a imm) as [v| |] eqn:Ev;
    try discriminate E. unfold bind in E. cbn [V1.or_illegal ret] in E.
  case_if; [discriminate E|]. bool_hyps.
  rewrite (op_imm_value_agrees _ _ _ _ _ v (funct3_bits_range instr)) by auto.
  apply (simulated_value _ _ rd v p Ha). exact E.
Qed.

(** ** CSR arms *)

Lemma nd_read_agrees p s c v s' : agree p s c -> V1.nd_source_read s = Ok v s' ->
  same_ext s s' /\ exists c', V2.nd_source_read c = Ok v c' /\ agree p s' c'.
Proof.
  intros (H1' & H2' & H3' & H4' & H5') E. unfold V1.nd_source_read in E. unfold V2.nd_source_read.
  rewrite H4'. destruct (nd_read (non_determinism_source (V1.core s))) as [w nd].
  inversion E; subst. split; [repeat split|]. eexists. split; [reflexivity|]. repeat split; auto.
Qed.

Lemma csr_read_agrees p s c csr rd rs1 z v s' : agree p s c ->
  V1.csr_read_custom C csr rd rs1 z s = Ok v s' ->
  same_ext s s' /\ (csr <> NON_DETERMINISM_CSR -> v = 0) /\
  exists c', V2.csr_read csr rd c = Ok v c' /\ agree p s' c'.
Proof.
  intros Ha E. unfold V1.csr_read_custom in E. unfold V2.csr_read.
  destruct (Z.eqb_spec csr NON_DETERMINISM_CSR) as [Heq | Hne].
  - apply bind_ok in E. destruct E as (w & s2 & Er & E).
    assert (Hmid : same_ext s s2 /\ exists c2,
      (if SHOULD_MOCK_READS_BEFORE_WRITES (ND:=ND) (M:=M) && (rd =? 0) then ret 0 else V2.nd_source_read) c
        = Ok w c2 /\ agree p s2 c2).
    { case_if; [|eapply nd_read_agrees; eauto]. inversion Er; subst. split; [repeat split|]. eexists. split; [reflexivity|exact Ha]. }
    destruct Hmid as (Hext & c2 & Hc2 & Ha2). inversion E; subst.
    split; [exact Hext|]. split; [tauto|]. unfold bind at 1. rewrite Hc2. eexists. split; [reflexivity|].
    exact Ha2.
  - destruct (Z.eqb_spec csr MARKER_CSR).
    + inversion E; subst. split; [repeat split|]. split; [auto|]. eexists. split; [reflexivity|exact Ha].
    + apply bind_ok in E. destruct E as (u & s2 & Ea & E). apply assert_ok in Ea. destruct Ea as [_ ->].
      unfold V1.on_deleg, V1.on_core in E. apply zoom_ok in E. destruct E as (k & E & ->).
      apply zoom_ok in E. destruct E as (d & E & ->). apply process_read_agrees in E. destruct E as [-> ->].
      split; [repeat split|]. split; [auto|]. eexists. split; [reflexivity|]. exact Ha.
Qed.

Lemma csr_write_agrees p s c csr rs1 z u s' : agree p s c -> 0 <= csr < 4096 ->
  V1.csr_write_custom C csr rs1 z rs1 s = Ok u s' ->
  same_ext s s' /\ exists dt c', V2.csr_write csr z rs1 c = Ok dt c' /\ agree p s' c' /\
    (csr = NON_DETERMINISM_CSR -> dt = u16 NON_DETERMINISM_CSR).
Proof.
  intros Ha Hcsr E. pose proof Ha as (H1' & H2' & H3' & H4' & H5').
  unfold V1.csr_write_custom in E. unfold V2.csr_write.
  destruct (Z.eqb_spec csr NON_DETERMINISM_CSR) as [-> | Hne].
  - case_if; inversion E; subst; (split; [repeat split|]); do 2 eexists; (split; [reflexivity|]);
      (split; [|auto]); [exact Ha|]. unfold agree. cbn. rewrite H3', H4'. auto.
  - destruct (Z.eqb_spec csr MARKER_CSR).
    + inversion E; subst. split; [repeat split|]. do 2 eexists. split; [reflexivity|].
      split; [|tauto]. unfold agree. cbn. rewrite H5'. auto.
    + apply bind_ok in E. destruct E as (? & s2 & Ea & E). apply assert_ok in Ea. destruct Ea as [_ ->].
      apply bind_ok in E. destruct E as (? & s2 & Ed & E). inversion Ed; subst. clear Ed.
      unfold V1.on_deleg, V1.on_core in E. apply zoom_ok in E. destruct E as (k & E & ->).
      apply zoom_ok in E. destruct E as (d & E & ->). apply process_write_agrees in E; [|exact Hcsr].
      split; [repeat split|]. unfold bind, V2.add_delegation, modify, zoom.
      replace (as_deleg (with_marker (CycleMarker_add_delegation csr) c))
        with (as_deleg (with_marker (CycleMarker_add_delegation csr) (V1.core s)))
        by (unfold as_deleg; cbn; rewrite H1', H3'; reflexivity).
      cbn in E. rewrite E. do 2 eexists. split; [reflexivity|]. split; [|tauto].
      unfold agree. cbn. rewrite H5'. split_and!; auto.
Qed.

Lemma csr_number_range instr : 0 <= ITypeOpcode.imm instr < 4096.
Proof. rewrite ITypeOpcode_imm_spec. apply (mod_range (instr / 2 ^ 20) 12). lia. Qed.

Lemma simulated_csr s c p instr rd a : agree (wadd p 4) s c ->
  simulated s
    ((let! ret_val := V1.exec_csr C Machine instr rd (funct3_bits instr) (ITypeOpcode.imm instr) a in
      ret (rd, ret_val, p)) s)
    (V2.exec_csr C instr rd (funct3_bits instr) (get_formal_rs1_bits instr) a c).
Proof.
  intros Ha rd' v' p' s1 E. apply bind_ok in E. destruct E as (v & s2 & E & Eret).
  inversion Eret; subst. clear Eret. unfold V1.exec_csr in E. unfold V2.exec_csr.
  change (ITypeOpcode.rs1 instr) with (get_formal_rs1 instr) in E. rewrite rs1_agree in E.
  destruct (csr_privilege_total (ITypeOpcode.imm instr)) as [m Hm]. rewrite Hm in E.
  unfold bind at 1 in E. cbn [or_ub ret] in E.
  replace (Mode_as_register_value Machine <? Mode_as_register_value m) with false in E
    by (destruct m; reflexivity).
  rewrite Hcsrs in E |- *. cbn [negb] in E. unfold V1.csr_write_val in E. rewrite Hcsrrw in E |- *.
  cbn [negb assert_or_panic] in E |- *. unfold bind at 1 2. cbn [ret].
  apply bind_ok in E. destruct E as (v0 & s3 & Er & E).
  destruct (csr_read_agrees _ _ _ _ _ _ _ _ _ Ha Er) as (Hext1 & Hzero & c1 & Hc1 & Ha1).
  unfold bind at 1. rewrite Hc1.
  assert (Hf : funct3_bits instr = 1 \/ funct3_bits instr <> 1) by lia.
  destruct Hf as [Hf | Hf].
  2: { pose proof (funct3_bits_range instr) as Hr. revert Hr Hf E. generalize (funct3_bits instr).
       intros f Hr Hf. split_funct3 Hr; try (intros E; discriminate E). congruence. }
  rewrite Hf in E |- *. change (negb (1 =? 1)) with false. cbv iota.
  unfold bind at 1 in E. cbn [V1.or_illegal ret] in E.
  apply bind_ok in E. destruct E as (u & s4 & Ew & Eret). inversion Eret; subst. clear Eret.
  destruct (csr_write_agrees _ _ _ _ _ _ _ _ Ha1 (csr_number_range instr) Ew)
    as (Hext2 & dt & c2 & Hc2 & Ha2 & Hdt).
  split; [unfold same_ext in *; intuition congruence|].
  unfold bind at 1. rewrite Hc2.
  match goal with |- context [assert_or_panic ?b _] => replace b with true end.
  - apply agree_write_rd. exact Ha2.
  - destruct (Z.eq_dec (ITypeOpcode.imm instr) NON_DETERMINISM_CSR) as [Eq | Ne].
    + rewrite (Hdt Eq). reflexivity.
    + rewrite (Hzero Ne). rewrite orb_true_r. reflexivity.
Qed.

Lemma simulated_mop s c p instr rd a b : agree (wadd p 4) s c ->
  simulated s
    ((let! ret_val := V1.or_illegal (V1.mop_value C (funct7_bits instr) a b) in ret (rd, ret_val, p)) s)
    (V2.exec_mop C rd (funct7_bits instr) a b c).
Proof.
  intros Ha rd' v' p' s1 E. unfold V1.mop_value in E. unfold V2.exec_mop.
  change V1.MOP_FUNCT7_TEST with V2.MOP_FUNCT7_TEST in E.
  destruct (Z.land (funct7_bits instr) V2.MOP_FUNCT7_TEST =? V2.MOP_FUNCT7_TEST); [|discriminate E].
  destruct (SUPPORT_MOPS C); [|discriminate E]. cbn [andb].
  revert rd' v' p' s1 E. apply (simulated_decoded s c rd (V2.mop_value (funct7_bits instr) a b) p Ha).
Qed.

Lemma simulated_system s c p instr rd a b : agree (wadd p 4) s c ->
  simulated s (V1.exec_system C Machine instr p rd a b s)
    (V2.exec_system C instr rd (funct3_bits instr) (funct7_bits instr) (get_formal_rs1_bits instr) a b c).
Proof.
  intros Ha. unfold V1.exec_system, V2.exec_system.
  change (ITypeOpcode.funct3 instr) with (RTypeOpcode.funct3 instr).
  rewrite funct3_agree, funct7_agree. pose proof (simulated_csr s c p instr rd a Ha) as Hcsr.
  pose proof (simulated_mop s c p instr rd a b Ha) as Hmop.
  pose proof (funct3_bits_range instr) as Hf. revert Hf Hcsr. generalize (funct3_bits instr). intros f Hf.
  split_funct3 Hf; intros Hcsr; try exact Hcsr; try exact Hmop; intros ? ? ? ? E; discriminate E.
Qed.

(** ** The opcode match *)
Lemma simulated_execute s c p instr a b : regs_wf (registers (observable c)) -> is_u32 p -> is_u32 a ->
  agree (wadd p 4) s c ->
  simulated s (V1.execute C Machine instr p (get_rd instr) a b s)
    (V2.execute C instr p a (if get_opcode_bits instr =? OPCODE_LOAD then 0 else b) c).
Proof.
  intros Hwf Hp Hu Ha. unfold V1.execute, V2.execute. rewrite opcode_agree, rd_agree.
  change 55 with OPCODE_LUI. change 23 with OPCODE_AUIPC. change 111 with OPCODE_JAL.
  change 103 with OPCODE_JALR. change 99 with OPCODE_BRANCH. change 3 with OPCODE_LOAD.
  change 35 with OPCODE_STORE. change 19 with OP_IMM_SUBMASK. change 51 with OP_SUBMASK.
  change 115 with OPCODE_SYSTEM.
  destruct (Z.eqb_spec (get_opcode_bits instr) OPCODE_LUI); [apply simulated_value; exact Ha|].
  destruct (Z.eqb_spec (get_opcode_bits instr) OPCODE_AUIPC); [apply simulated_value; exact Ha|].
  destruct (Z.eqb_spec (get_opcode_bits instr) OPCODE_JAL).
  { apply simulated_jump; auto using wadd_range. rewrite wadd_wsub_swap, wadd_wsub_cancel by apply wadd_range.
    reflexivity. }
  destruct (Z.eqb_spec (get_opcode_bits instr) OPCODE_JALR).
  { apply simulated_jump; auto using wsub_range. rewrite wadd_wsub_cancel; [reflexivity|].
    apply land_u32; [apply wadd_range | vm_compute; congruence]. }
  destruct (Z.eqb_spec (get_opcode_bits instr) OPCODE_BRANCH) as [-> | _].
  { apply simulated_branch; auto. }
  destruct (Z.eqb_spec (get_opcode_bits instr) OPCODE_LOAD) as [-> | _].
  { apply simulated_load; auto. }
  destruct (Z.eqb_spec (get_opcode_bits instr) OPCODE_STORE) as [-> | _].
  { apply simulated_store; auto. }
  destruct (Z.eqb_spec (get_opcode_bits instr) OP_IMM_SUBMASK) as [E | _].
  { cbn [orb]. apply simulated_op_imm; auto. }
  destruct (Z.eqb_spec (get_opcode_bits instr) OP_SUBMASK) as [E | _].
  { cbn [orb]. apply simulated_op; auto. }
  cbn [orb]. destruct (Z.eqb_spec (get_opcode_bits instr) OPCODE_SYSTEM).
  { apply simulated_system; auto. }
  intros ? ? ? ? E; discriminate E.
Qed.

(** ** The cycle *)

(** Machine mode, not waiting for an interrupt. *)
Definition machine_ready s : Prop :=
  ExtraFlags.get_wait_for_interrupt (V1.extra_flags s) = 0 /\
  ExtraFlags.get_current_mode (V1.extra_flags s) = Some Machine.

Lemma map_trap_ok {E E' S A} (f : E -> E') (k : comp E S A) st a st' :
  V1.map_trap f k st = Ok a st' -> k st = Ok a st'.
Proof. unfold V1.map_trap, V1.recover. destruct (k st); intros E0; inversion E0; auto. Qed.

Lemma fetch_agrees s p instr s' : core_wf (V1.core s) -> p = pc (observable (V1.core s)) ->
  V1.fetch C Machine p s = Ok instr s' ->
  quiet s s' /\ ms_word (memory_source (V1.core s)) p = Some instr.
Proof.
  intros ([_ [Hu Hal]] & Hm & _) -> E. unfold V1.fetch in E.
  apply bind_ok in E. destruct E as (pa & s2 & Ht & E).
  apply map_trap_ok, translate_nommu in Ht. destruct Ht as [-> Hq].
  unfold bind at 1, gets in E. apply map_trap_ok, on_memtrace_ok in E. destruct E as (mt & E & ->).
  destruct Hq as (He & Ho & Hmem & Hn & Hk).
  apply trapping_fetch_ok in E; auto; cbn [as_memtrace mt_mem] in *; [|rewrite Hmem; exact Hm].
  destruct E as [Hmt Hw]. rewrite Hmem in Hw. split; [|exact Hw].
  split; [exact He|]. cbn. rewrite Hmt. auto.
Qed.

Lemma quiet_core s s' : quiet s s' -> same_but_trace (V1.core s') (V1.core s).
Proof. intros (_ & Ho & Hm & Hn & Hk). repeat split; auto. Qed.

Lemma core_agree s c p : same_but_trace c (with_pc p (V1.core s)) -> agree p s c.
Proof. intros (Ho & Hm & Hn & Hk). unfold agree. rewrite Ho, Hm, Hn, Hk. repeat split. Qed.

Lemma quiet_trans s1 s2 s3 : quiet s1 s2 -> quiet s2 s3 -> quiet s1 s3.
Proof. unfold quiet, same_ext. intuition congruence. Qed.

Lemma read_quiet s i (ev : Z -> TraceEvent) a s' :
  (let! res := gets (fun s => register_of i (V1.core s)) in V1.trace (E:=TrapReason) (ev res) ;;! ret res) s = Ok a s' ->
  quiet s s' /\ a = register_of i (V1.core s).
Proof. intros E. inversion E; subst. repeat split. Qed.

(** A completed block of [V1] is a completed opcode match of [V2], started
    from the same core. *)
Lemma block_simulated s c0 p' s' : core_wf c0 -> same_but_trace c0 (V1.core s) ->
  V1.cycle_block C Machine (pc (observable c0)) s = Ok p' s' ->
  same_ext s s' /\ exists c2, agree p' s' c2 /\
    V2.cycle C c0 = epilogue (pc (observable c0)) tt c2.
Proof.
  intros Hwf0 Hc0 E. set (p := pc (observable c0)) in *. pose proof Hc0 as (Ho0 & Hm0 & Hn0 & Hk0).
  assert (Hwf : core_wf (V1.core s)) by (unfold core_wf in *; rewrite <- Ho0, <- Hm0, <- Hn0; exact Hwf0).
  unfold V1.cycle_block in E.
  apply bind_ok in E. destruct E as (instr & s1 & Hf & E). apply map_trap_ok in E.
  destruct (fetch_agrees s p instr s1 Hwf) as [Hq1 Hw]; [unfold p; rewrite Ho0; reflexivity | exact Hf |].
  rewrite <- Hm0 in Hw.
  destruct (cycle_steps C c0 instr Hwf0 Hw) as (c1 & Hsame & Hcyc). fold p in Hsame, Hcyc.
  unfold V1.decode_and_execute in E.
  apply bind_ok in E. destruct E as (a & s2 & Ea & E). apply read_quiet in Ea. destruct Ea as [Hq2 ->].
  apply bind_ok in E. destruct E as (b & s3 & Eb & E). apply read_quiet in Eb. destruct Eb as [Hq3 ->].
  pose proof (quiet_trans _ _ _ Hq1 Hq2) as Hq12. pose proof (quiet_trans _ _ _ Hq12 Hq3) as Hq.
  assert (Hregs : forall i sx, quiet s sx -> register_of i (V1.core sx) = register_of i c0).
  { intros i sx (_ & Ho & _). unfold register_of. rewrite Ho, Ho0. reflexivity. }
  rewrite (Hregs _ s1 Hq1), (Hregs _ s2 Hq12), rs1_agree, rs2_agree in E.
  apply bind_ok in E. destruct E as ([[rd v] p1] & s4 & Ex & E).
  apply (simulated_execute s3 c1 p instr) in Ex.
  - destruct Ex as (Hext & c2 & Hx & Ha2). inversion E; subst. split.
    { destruct Hq as [Hq _]. unfold same_ext in *. cbn. intuition congruence. }
    exists c2. split; [exact Ha2|]. rewrite Hcyc. unfold rs2_operand, bind. rewrite Hx. reflexivity.
  - destruct Hsame as [-> _]. apply Hwf0.
  - apply Hwf0.
  - apply register_of_wf. exact Hwf0.
  - apply (quiet_agree _ s); [exact Hq|]. apply core_agree.
    destruct Hsame as (H1' & H2' & H3' & H4'). unfold same_but_trace. cbn in *.
    rewrite H1', H2', H3', H4', Ho0. auto.
Qed.

Lemma cycle_simulated s u s' c0 : HANDLE_EXCEPTIONS C = false ->
  core_wf c0 -> same_but_trace c0 (V1.core s) -> machine_ready s -> V1.cycle_ext C s = Ok u s' ->
  machine_ready s' /\ exists c',
    V2.cycle C c0 = Ok (pc (observable (V1.core s')) =? pc (observable (V1.core s))) c' /\
    same_but_trace c' (V1.core s').
Proof.
  intros Hexc Hwf Hc0 [Hwait Hmode] E. unfold V1.cycle_ext in E.
  unfold bind at 1, gets at 1 in E. unfold bind at 1, V1.trace at 1, modify at 1 in E.
  unfold bind at 1, gets at 1 in E. cbn [V1.with_core V1.extra_flags] in E.
  rewrite Hwait in E. change (negb (0 =? 0)) with false in E. cbv iota in E.
  unfold bind at 1 in E. rewrite Hmode in E. cbn [or_ub ret] in E.
  apply bind_ok in E. destruct E as (p' & s2 & Eb & E). unfold V1.recover in Eb.
  set (s0 := V1.with_core _ s) in Eb. pose proof Hc0 as (Ho0 & _). rewrite <- Ho0 in Eb.
  destruct (V1.cycle_block C Machine (pc (observable c0)) s0) as [q s3|[t i] s3|] eqn:Ec;
    [| unfold V1.handle_trap in Eb; rewrite Hexc in Eb; discriminate Eb | discriminate Eb].
  inversion Eb; subst q s3. clear Eb.
  destruct (block_simulated s0 c0 p' s2) as (Hext & c2 & (H1' & H2' & H3' & H4' & H5') & Hcyc);
    [exact Hwf | exact Hc0 | exact Ec |].
  inversion E; subst. split.
  { destruct Hext as (Hfl & _). unfold machine_ready. cbn. rewrite Hfl. auto. }
  destruct (epilogue_ok (pc (observable c0)) c2) as (c' & Hep & Ho & Hm & Hn & Hk).
  exists c'. rewrite Hcyc, Hep, <- Ho0. split; [reflexivity|].
  unfold same_but_trace. cbn. rewrite Ho, Hm, Hn, Hk, H3', H4', H5'. split_and!; auto.
  destruct (observable c2) as [rs q]. cbn in *. rewrite H1'. reflexivity.
Qed.
End Simulation.

(** ** Main theorem *)
Section Main.
Context {M ND : Type} `{LawfulMemory M} `{NonDeterminismCSRSource ND M} {LS : LawfulSource M ND}
  {CSR1 : V1.CustomCSRProcessor M} {CSR2 : V2.DelegationCSRProcessor M}
  {PA : ProcessorsAgree M} {LP : LawfulProcessor M} (C : MachineConfig).

(** C12: In the configurations the provers use, whenever the first simulator
    completes a cycle in machine mode without translation, the unrolled
    simulator started from the same registers, pc, memory, oracle and markers
    completes it too, with the same ones, and reports whether the pc moved. *)
Theorem simulators_agree_on_cycle (s : V1.RiscV32State M ND NoMMU) u s' c :
  SUPPORT_STANDARD_CSRS C = false -> SUPPORT_ONLY_CSRRW C = true -> SUPPORT_ROT C = false ->
  HANDLE_EXCEPTIONS C = false ->
  core_wf c -> same_but_trace c (V1.core s) -> machine_ready s -> V1.cycle_ext C s = Ok u s' ->
  machine_ready s' /\ exists c',
    V2.cycle C c = Ok (pc (observable (V1.core s')) =? pc (observable (V1.core s))) c' /\
    same_but_trace c' (V1.core s').
Proof. intros Hcsr Hrw Hrot Hexc. exact (cycle_simulated C Hcsr Hrw Hrot s u s' c Hexc). Qed.
End Main.

(** The first simulator on the sample program. *)
Definition sample_v1 : V1.RiscV32State VectorMemoryImpl ZeroedSource NoMMU :=
  V1.initial 0 {| inner := sample_program |} MkZeroedSource {| NoMMU_sapt := 0 |}.

Definition sample_v1_next : V1.RiscV32State VectorMemoryImpl ZeroedSource NoMMU :=
  match V1.cycle_ext (CSR := V1.DelegationsCSRProcessor) IMStandardIsaConfig sample_v1 with
  | Ok _ s' => s' | _ => sample_v1
  end.

Lemma simulators_agree_on_cycle_witness :
  exists c', V2.cycle (CSR := V2.DelegationsCSRProcessor) IMStandardIsaConfig sample_core = Ok false c' /\
    same_but_trace c' (V1.core sample_v1_next) /\ register_of 1 c' = 5.
Proof.
  pose proof (DelegationsCSRProcessor_agree (M := VectorMemoryImpl)) as PA.
  destruct (simulators_agree_on_cycle (CSR1 := V1.DelegationsCSRProcessor)
              (CSR2 := V2.DelegationsCSRProcessor) IMStandardIsaConfig sample_v1 tt sample_v1_next sample_core)
    as (_ & c' & Hc & Hs).
  - reflexivity.
  - reflexivity.
  - reflexivity.
  - reflexivity.
  - apply sample_core_wf.
  - repeat split.
  - split; reflexivity.
  - vm_compute. reflexivity.
  - exists c'. split; [exact Hc|]. split; [exact Hs|]. destruct Hs as [Ho _]. unfold register_of.
    rewrite Ho. vm_compute. reflexivity.
Defined.
