(* ===== verification/Traps.v ===== *)
(** * Exceptions of the first simulator

    A cycle of [V1] that leaves its block with a trap has not written any
    register or memory word, and the handler enters the trap vector with the
    cause, the faulting instruction and pc, and the previous interrupt-enable
    bit recorded.  Proved for every lawful memory, MMU and CSR processor. *)
From stdpp Require Import base list gmap strings.
From Stdlib Require Import ZArith Lia Btauto.
From S2P Require Import Prelude MachineInt Decoder Field StatusRegisters Config Memory.
From S2P Require Import NonDeterminism Mmu Delegations DelegationSpec Cycle StateNew State.
From S2P Require Import Invariants SafetyNew Equivalence.

(** ** What an MMU and a processor promise *)

Class LawfulMMU (MMU M : Type) `{MMUImplementation MMU M} : Prop := {
  map_keeps_memory mmu virt mode t mt : is_u32 virt ->
    match map_virtual_to_physical mmu virt mode t mt with
    | Ok a mt' => is_u64 a /\ mt_mem mt' = mt_mem mt
    | Trapped _ mt' => mt_mem mt' = mt_mem mt
    | Panic _ => True
    end;
  read_sapt_returns mmu mode : match read_sapt mmu mode with AccessPanic _ => False | _ => True end;
}.

#[export] Instance NoMMU_lawful M : LawfulMMU NoMMU M.
Proof. constructor; cbn; auto using u32_is_u64. Qed.

(** A custom CSR read changes nothing; a write that traps changed nothing. *)
Class PreciseProcessor (M : Type) `{LawfulMemory M} `{V1.CustomCSRProcessor M} : Prop := {
  process_read_keeps csr rs1 zimm d :
    match V1.process_read csr rs1 zimm d with
    | Ok _ d' | Trapped _ d' => dg_regs d' = dg_regs d /\ dg_mem d' = dg_mem d
    | Panic _ => True
    end;
  process_write_precise csr rs1 zimm d : deleg_wf d ->
    match V1.process_write csr rs1 zimm d with
    | Trapped _ d' => dg_regs d' = dg_regs d /\ dg_mem d' = dg_mem d
    | _ => True
    end;
}.

Lemma assert_first {E S A} (P : S -> Prop) b msg (k : comp E S A) Q R :
  triple P k Q R -> msg <> UB -> triple P (assert_or_panic b msg ;;! k) Q R.
Proof. intros Hk Hm. apply triple_assert_then; auto. Qed.

Lemma u256_impl_safe {M} `{LawfulMemory M} `{U256Ops} rs1_value :
  triple (E:=TrapReason) deleg_wf (u256_ops_with_control_impl (M:=M) rs1_value)
    (fun _ => deleg_wf) (fun _ _ => False).
Proof.
  apply assert_first; [|discriminate]. do 3 (apply deleg_reg; intros ?).
  apply u256_checked_body_safe, checked_accessors_safe.
Qed.

Lemma blake2_impl_safe {M} `{LawfulMemory M} rs1_value :
  triple (E:=TrapReason) deleg_wf (blake2_round_function_with_extended_control (M:=M) rs1_value)
    (fun _ => deleg_wf) (fun _ _ => False).
Proof.
  apply assert_first; [|discriminate]. do 4 (apply deleg_reg; intros ?).
  apply blake2_checked_body_safe, checked_accessors_safe.
Qed.

#[export] Instance DelegationsCSRProcessor_precise {M} `{LawfulMemory M} `{U256Ops} :
  PreciseProcessor M (H1 := V1.DelegationsCSRProcessor).
Proof.
  constructor; cbn.
  - intros csr rs1 zimm d. unfold V1.DelegationsCSRProcessor_process_read. repeat case_if; cbn; auto.
  - intros csr rs1 zimm d Hd. unfold V1.DelegationsCSRProcessor_process_write. repeat case_if.
    + pose proof (blake2_impl_safe rs1 d Hd) as Hs.
      destruct (blake2_round_function_with_extended_control rs1 d); auto. destruct Hs.
    + pose proof (u256_impl_safe rs1 d Hd) as Hs.
      destruct (u256_ops_with_control_impl rs1 d); auto. destruct Hs.
    + cbn. auto.
Qed.

(** ** Precise traps *)
Section Precise.
Context {M ND MMU : Type} `{LawfulMemory M} `{NonDeterminismCSRSource ND M}
  `{LawfulMMU MMU M} {CSR : V1.CustomCSRProcessor M} {PP : PreciseProcessor M} (C : MachineConfig).
Notation St := (V1.RiscV32State M ND MMU).
Implicit Types (s : St).

(** The architectural state: everything but the trace, the oracle, the
    markers and the MMU. *)
Definition same_arch s s' : Prop :=
  observable (V1.core s') = observable (V1.core s) /\
  memory_source (V1.core s') = memory_source (V1.core s) /\
  V1.machine_mode_trap_data s' = V1.machine_mode_trap_data s /\
  V1.extra_flags s' = V1.extra_flags s.

Definition arch_wf s : Prop :=
  regs_wf (registers (observable (V1.core s))) /\ words_u32 (memory_source (V1.core s)).

(** [precise]: a trap leaves the architectural state alone; [pure]: so does
    completion. *)
Definition precise {E A} (c : comp E St A) : Prop :=
  forall s, arch_wf s -> match c s with Trapped _ s' => same_arch s s' | _ => True end.
Definition pure {E A} (c : comp E St A) : Prop :=
  forall s, arch_wf s -> match c s with Ok _ s' | Trapped _ s' => same_arch s s' | Panic _ => True end.

Lemma same_arch_refl s : same_arch s s.
Proof. repeat split. Qed.

Lemma same_arch_trans s1 s2 s3 : same_arch s1 s2 -> same_arch s2 s3 -> same_arch s1 s3.
Proof. unfold same_arch. intuition congruence. Qed.

Lemma same_arch_wf s s' : same_arch s s' -> arch_wf s -> arch_wf s'.
Proof. intros (Ho & Hm & _). unfold arch_wf. rewrite Ho, Hm. auto. Qed.

Lemma pure_precise {E A} (c : comp E St A) : pure c -> precise c.
Proof. intros Hc s Hs. specialize (Hc s Hs). destruct (c s); auto. Qed.

Lemma pure_bind {E A B} (c : comp E St A) (k : A -> comp E St B) :
  pure c -> (forall a, pure (k a)) -> pure (bind c k).
Proof.
  intros Hc Hk s Hs. specialize (Hc s Hs). unfold bind. destruct (c s) as [a s1| |]; auto.
  specialize (Hk a s1 (same_arch_wf _ _ Hc Hs)).
  destruct (k a s1); auto; eapply same_arch_trans; eauto.
Qed.

Lemma precise_bind {E A B} (c : comp E St A) (k : A -> comp E St B) :
  pure c -> (forall a, precise (k a)) -> precise (bind c k).
Proof.
  intros Hc Hk s Hs. specialize (Hc s Hs). unfold bind. destruct (c s) as [a s1| |]; auto.
  specialize (Hk a s1 (same_arch_wf _ _ Hc Hs)).
  destruct (k a s1); auto. eapply same_arch_trans; eauto.
Qed.

(** A last step that cannot trap. *)
Lemma precise_then {E A B} (c : comp E St A) (k : A -> comp E St B) :
  precise c -> (forall a s, match k a s with Trapped _ _ => False | _ => True end) -> precise (bind c k).
Proof.
  intros Hc Hk s Hs. specialize (Hc s Hs). unfold bind. destruct (c s) as [a s1| |]; auto.
  specialize (Hk a s1). destruct (k a s1); auto. destruct Hk.
Qed.

Lemma pure_ret {E A} (a : A) : pure (E:=E) (ret a).
Proof. intros s _. apply same_arch_refl. Qed.
Lemma pure_gets {E A} (f : St -> A) : pure (E:=E) (gets f).
Proof. intros s _. apply same_arch_refl. Qed.
Lemma pure_trap {E A} (e : E) : pure (A:=A) (trap_with e).
Proof. intros s _. apply same_arch_refl. Qed.
Lemma pure_panic {E A} msg : pure (E:=E) (A:=A) (panic msg).
Proof. intros s _. exact I. Qed.
Lemma pure_trace {E} ev : pure (E:=E) (V1.trace ev).
Proof. intros s _. repeat split. Qed.
Lemma pure_illegal {A} (d : decoded A) : pure (V1.or_illegal d).
Proof. destruct d; [apply pure_ret | apply pure_trap | apply pure_panic]. Qed.
Lemma pure_assert {E} b msg : pure (E:=E) (assert_or_panic b msg).
Proof. destruct b; [apply pure_ret | apply pure_panic]. Qed.

Lemma pure_memtrace {A} (k : comp TrapReason (MemTrace M) A) :
  (forall mt, words_u32 (mt_mem mt) -> match k mt with Ok _ mt' | Trapped _ mt' => mt_mem mt' = mt_mem mt | Panic _ => True end) ->
  pure (V1.on_memtrace k).
Proof.
  intros Hk s [_ Hm]. specialize (Hk (as_memtrace (V1.core s)) Hm). unfold V1.on_memtrace, V1.on_core, zoom.
  destruct (k (as_memtrace (V1.core s))); auto; unfold same_arch; cbn; rewrite Hk; repeat split.
Qed.

Lemma mem_read_keeps a n t (mt : MemTrace M) :
  match Trapping.mem_read C a n t mt with
  | Ok _ mt' | Trapped _ mt' => mt_mem mt' = mt_mem mt
  | Panic _ => True
  end.
Proof.
  unfold Trapping.mem_read, bind at 1, assert_or_panic.
  destruct (bool_decide (t = Instruction) || bool_decide (t = MemLoad)); cbn; auto.
  case_if; cbn; auto. unfold bind, Trapping.traced_get.
  destruct (ms_get (mt_mem mt) (aligned_address a) t); cbn; auto.
  destruct (loaded_value C _ _ _); cbn; auto.
Qed.

(** A store that traps has written nothing. *)
Lemma mem_write_precise a v n (mt : MemTrace M) : is_u64 a ->
  match Trapping.mem_write C a v n mt with Trapped _ mt' => mt_mem mt' = mt_mem mt | _ => True end.
Proof.
  intros Ha. unfold Trapping.mem_write. rewrite aligned_address_spec by auto. case_if; cbn; auto. unfold bind.
  destruct (ms_word (mt_mem mt) (a - a mod 4)) as [w|] eqn:Hw.
  - rewrite (ms_get_backed _ _ MemLoad w) by (unfold reading; auto using aligned_mod).
    destruct (stored_value C w v (Z.land a 3) n) as [new|]; cbn; auto.
    destruct (ms_set_backed (mt_mem mt) (a - a mod 4) new MemStore w) as (m' & -> & _);
      unfold writing; auto using aligned_mod, aligned_nonneg. destruct Ha. apply aligned_nonneg. lia.
  - destruct (ms_get_unbacked (mt_mem mt) (a - a mod 4) MemLoad) as (t & v' & -> & _); auto using aligned_mod.
Qed.

Lemma precise_memtrace {A} (k : comp TrapReason (MemTrace M) A) :
  (forall mt, match k mt with Trapped _ mt' => mt_mem mt' = mt_mem mt | _ => True end) ->
  precise (V1.on_memtrace k).
Proof.
  intros Hk s _. specialize (Hk (as_memtrace (V1.core s))). unfold V1.on_memtrace, V1.on_core, zoom.
  destruct (k (as_memtrace (V1.core s))); auto; unfold same_arch; cbn; rewrite Hk; repeat split.
Qed.

Lemma pure_translate virt mode t : is_u32 virt -> pure (V1.translate virt mode t).
Proof.
  intros Hv. apply pure_bind; [apply pure_gets|]. intros u. apply pure_memtrace. intros mt _.
  pose proof (map_keeps_memory u virt mode t mt Hv) as Hm. destruct (map_virtual_to_physical _ _ _ _ _); tauto.
Qed.

(** ** The opcode arms *)

Ltac solve_pure :=
  repeat first
    [ apply pure_ret | apply pure_trap | apply pure_panic | apply pure_illegal | apply pure_gets
    | apply pure_trace | apply pure_assert | apply pure_translate; auto with airbender
    | apply pure_memtrace; intros; apply mem_read_keeps
    | apply pure_bind; [|intros ?] | case_if ].

Lemma load_precise mode instr pc_ rd a : precise (V1.exec_load C mode instr pc_ rd a).
Proof. apply pure_precise. unfold V1.exec_load. solve_pure. Qed.

Lemma store_precise mode instr pc_ a b : precise (V1.exec_store C mode instr pc_ a b).
Proof.
  intros s Hs. unfold V1.exec_store. set (virt := wadd _ _). assert (Hv : is_u32 virt) by apply wadd_range.
  clearbody virt. unfold V1.translate. unfold bind at 2, gets.
  pose proof (map_keeps_memory (V1.mmu s) virt mode MemStore (as_memtrace (V1.core s)) Hv) as Hmap.
  unfold bind at 1, V1.on_memtrace at 1, V1.on_core at 1, zoom at 1 2.
  destruct (map_virtual_to_physical (V1.mmu s) virt mode MemStore (as_memtrace (V1.core s))) as [pa mt|t mt|]; auto.
  - destruct Hmap as [Hpa Hm]. match goal with |- match ?c ?s1 with _ => _ end => set (s2 := s1) end.
    assert (Hsa : same_arch s s2) by (subst s2; unfold same_arch; cbn; rewrite Hm; repeat split).
    match goal with |- match ?c s2 with _ => _ end => assert (Hc : precise c) end.
    { apply precise_bind; [apply pure_illegal|]. intros n. apply precise_then; [|cbn; auto].
      apply precise_memtrace. intros mt'. apply mem_write_precise. exact Hpa. }
    specialize (Hc s2 (same_arch_wf _ _ Hsa Hs)).
    match goal with |- match ?o with _ => _ end => destruct o end; auto. eapply same_arch_trans; eauto.
  - unfold same_arch. cbn in *. rewrite Hmap. repeat split.
Qed.

Lemma custom_read_pure csr rd rs1 z : pure (V1.csr_read_custom C csr rd rs1 z).
Proof.
  unfold V1.csr_read_custom. case_if; [|case_if; [apply pure_ret|]].
  - apply pure_bind; [|intros v; solve_pure]. case_if; [apply pure_ret|]. intros s _.
    unfold V1.nd_source_read. destruct (nd_read _). repeat split.
  - apply pure_bind; [apply pure_assert|]. intros _ s _.
    pose proof (process_read_keeps csr rs1 z (as_deleg (V1.core s))) as Hk.
    unfold V1.on_deleg, V1.on_core, zoom. destruct (V1.process_read csr rs1 z _); auto;
      destruct Hk as [Hr Hm]; unfold same_arch; cbn in *; rewrite Hr, Hm;
      (destruct (observable (V1.core s)); repeat split).
Qed.

Lemma custom_write_precise csr rs1 z v : precise (V1.csr_write_custom C csr rs1 z v).
Proof.
  unfold V1.csr_write_custom. case_if; [case_if; intros s _; exact I|]. case_if; [intros s _; exact I|].
  apply precise_bind; [apply pure_assert|]. intros _. apply precise_bind; [intros s _; repeat split|].
  intros _ s Hs. pose proof (process_write_precise csr rs1 z (as_deleg (V1.core s)) Hs) as Hk.
  unfold V1.on_deleg, V1.on_core, zoom. destruct (V1.process_write csr rs1 z _); auto.
  destruct Hk as [Hr Hm]. unfold same_arch. cbn in *. rewrite Hr, Hm.
  destruct (observable (V1.core s)); repeat split.
Qed.

Lemma pure_trapping {A} (a : access A) : pure (V1.trapping a).
Proof. destruct a; [apply pure_ret | apply pure_trap | apply pure_panic]. Qed.

Lemma standard_read_pure mode csr rd rs1 z : pure (V1.csr_read_standard C mode csr rd rs1 z).
Proof.
  unfold V1.csr_read_standard. repeat (case_if; [first [apply pure_gets | apply pure_bind; [apply pure_gets | intros u; apply pure_trapping]]|]).
  apply custom_read_pure.
Qed.

Lemma standard_write_precise mode csr rs1 z v : precise (V1.csr_write_standard C mode csr rs1 z v).
Proof.
  unfold V1.csr_write_standard. case_if.
  - apply precise_bind; [apply pure_gets|]. intros u. apply precise_bind; [apply pure_trapping|].
    intros u' s _. exact I.
  - repeat (case_if; [intros s _; exact I|]). apply custom_write_precise.
Qed.

Lemma csr_precise mode instr rd f3 csr a : precise (V1.exec_csr C mode instr rd f3 csr a).
Proof.
  unfold V1.exec_csr. apply precise_bind.
  { destruct (Mode_from_proper_bit_value _); [apply pure_ret | apply pure_panic]. }
  intros m. case_if; [apply pure_precise, pure_trap|].
  case_if; (apply precise_bind; [first [apply custom_read_pure | apply standard_read_pure]|]);
    intros v; (apply precise_bind; [apply pure_illegal|]); intros w;
    (apply precise_then; [first [apply custom_write_precise | apply standard_write_precise] | cbn; auto]).
Qed.

Lemma execute_precise mode instr pc_ rd a b : precise (V1.execute C mode instr pc_ rd a b).
Proof.
  unfold V1.execute, V1.exec_lui, V1.exec_auipc, V1.exec_jal, V1.exec_jalr, V1.exec_branch, V1.jump_target, V1.exec_op.
  do 4 (case_if; [apply pure_precise; solve_pure|]).
  case_if; [apply pure_precise; solve_pure; destruct a0; solve_pure|].
  case_if; [apply load_precise|]. case_if; [apply store_precise|].
  case_if; [apply pure_precise; solve_pure|].
  case_if; [|apply pure_precise, pure_trap]. unfold V1.exec_system. case_if.
  - apply precise_then; [apply csr_precise | cbn; auto].
  - apply pure_precise. solve_pure.
Qed.

Lemma precise_map_trap {E E' A} (f : E -> E') (k : comp E St A) : precise k -> precise (V1.map_trap f k).
Proof. intros Hk s Hs. specialize (Hk s Hs). unfold V1.map_trap, V1.recover. destruct (k s); auto. Qed.

Lemma pure_map_trap {E E' A} (f : E -> E') (k : comp E St A) : pure k -> pure (V1.map_trap f k).
Proof. intros Hk s Hs. specialize (Hk s Hs). unfold V1.map_trap, V1.recover. destruct (k s); auto. Qed.

Lemma block_precise mode p : is_u32 p -> precise (V1.cycle_block C mode p).
Proof.
  intros Hp. unfold V1.cycle_block. apply precise_bind.
  - unfold V1.fetch. apply pure_bind; [apply pure_map_trap, pure_translate; exact Hp|]. intros pa.
    apply pure_bind; [apply pure_gets|]. intros m. apply pure_map_trap, pure_memtrace.
    intros mt _. apply mem_read_keeps.
  - intros instr. apply precise_map_trap. unfold V1.decode_and_execute.
    apply precise_bind; [unfold V1.get_first_register; solve_pure|]. intros a.
    apply precise_bind; [unfold V1.get_second_register; solve_pure|]. intros b.
    apply precise_then; [apply execute_precise|]. intros [[rd v] q] s. exact I.
Qed.

(** ** The handler *)

(** The interrupt-enable bit moves to the previous-enable bit. *)
Lemma mpie_from_mie status : is_u32 status ->
  forall i, 0 <= i < 32 ->
    Z.testbit (MStatusRegister.set_mpie_to_value status (MStatusRegister.mie_aligned_bit status)) i
    = Z.testbit status (if i =? 7 then 3 else i).
Proof.
  intros Hs i Hi. unfold MStatusRegister.set_mpie_to_value, MStatusRegister.mie_aligned_bit,
    MStatusRegister.clear_mpie, set_bits_to_value, clear_bit.
  rewrite get_bits_and_align_right_spec by lia. unfold shl32.
  rewrite Z.lor_spec, Z.land_spec, !testbit_u32 by lia. unfold not32. rewrite testbit_u32 by lia.
  destruct (Z.ltb_spec i 32); [|lia]. rewrite Z.lnot_spec, testbit_u32, !Z.shiftl_spec by lia.
  destruct (Z.ltb_spec i 32); [|lia]. change (2 ^ 1) with 2. rewrite <- Z.bit0_mod, Z.div_pow2_bits by lia.
  destruct (Z.eqb_spec i 7) as [-> | Hne].
  - change (7 - 7) with 0. change (0 + 3) with 3. change (Z.testbit 1 0) with true.
    destruct (Z.testbit status 3); cbn; btauto.
  - destruct (Z.lt_ge_cases i 7).
    + rewrite !(Z.testbit_neg_r _ (i - 7)) by lia. cbn. btauto.
    + rewrite (Z.bits_above_log2 1 (i - 7)) by (cbn; lia). cbn [negb].
      replace (Z.testbit (Z.b2z (Z.testbit status (0 + 3))) (i - 7)) with false; [btauto|].
      symmetry. destruct (Z.testbit status (0 + 3)); [apply Z.bits_above_log2; cbn; lia | apply Z.bits_0].
Qed.

(** What a handled exception leaves behind. *)
Definition trap_entered (t : TrapReason) (instr : Z) s s' : Prop :=
  let old := V1.machine_mode_trap_data s in
  let new := V1.machine_mode_trap_data s' in
  registers (observable (V1.core s')) = registers (observable (V1.core s)) /\
  memory_source (V1.core s') = memory_source (V1.core s) /\
  pc (observable (V1.core s')) = V1.tvec (V1.setup old) /\
  V1.handling new = {| V1.scratch := V1.scratch (V1.handling old);
                       V1.epc := pc (observable (V1.core s));
                       V1.cause := TrapReason_as_register_value t; V1.tval := instr |} /\
  V1.setup new = V1.setup old /\
  V1.ie (V1.state new) = V1.ie (V1.state old) /\ V1.ip (V1.state new) = V1.ip (V1.state old) /\
  (forall i, 0 <= i < 32 -> Z.testbit (V1.status (V1.state new)) i
                            = Z.testbit (V1.status (V1.state old)) (if i =? 7 then 3 else i)) /\
  ExtraFlags.get_current_mode (V1.extra_flags s') = Some Machine /\
  V1.extra_flags s' / 4 = V1.extra_flags s / 4.

Lemma handle_trap_enters s s1 t instr :
  HANDLE_EXCEPTIONS C = true -> is_u32 (V1.extra_flags s) ->
  is_u32 (V1.status (V1.state (V1.machine_mode_trap_data s))) -> same_arch s s1 ->
  let vector := V1.tvec (V1.setup (V1.machine_mode_trap_data s)) in
  exists s2, V1.handle_trap C (pc (observable (V1.core s))) (t, instr) s1 = Ok vector s2 /\
    trap_entered t instr s (V1.with_core (with_pc vector) s2).
Proof.
  intros Hexc Hfl Hst (Ho & Hm & Ht & Hf) vector.
  unfold V1.handle_trap. rewrite Hexc. cbn [negb]. rewrite trap_is_not_interrupt.
  change (negb (0 =? 0)) with false. cbv iota. eexists. split.
  - unfold bind, modify, gets, ret. cbn. rewrite Ht. reflexivity.
  - unfold trap_entered. cbn. rewrite Ho, Hm, Ht, Hf.
    destruct (set_mode_get (V1.extra_flags s) Machine Hfl) as [Hg Hd].
    split_and!; auto. apply mpie_from_mie. exact Hst.
Qed.

(** The machine when the block starts: the start of the cycle was traced. *)
Definition started s : St :=
  V1.with_core (with_events [at_cycle_start (observable (V1.core s))]) s.

(** Runs a cycle up to the handler of the trap that its block ends with. *)
Ltac at_handler Hwait Hmode Hblock :=
  unfold V1.cycle_ext; unfold bind at 1, gets at 1; unfold bind at 1, V1.trace at 1, modify at 1;
  unfold bind at 1, gets at 1; cbn [V1.with_core V1.extra_flags]; rewrite Hwait, Hmode;
  change (negb (0 =? 0)) with false; cbv iota; unfold bind at 1; cbn [or_ub ret];
  unfold bind at 1, V1.recover; match type of Hblock with V1.cycle_block _ _ _ (started ?s) = _ => fold (started s) end; rewrite Hblock.

(** C13: a cycle whose block is left with trap [t].  In a configuration that
    handles exceptions it completes: no register and no memory word has changed,
    the pc is the trap vector, the machine-mode registers record the cause, the
    instruction and the pc, of the status only MPIE changes, to the old MIE, and
    the mode is Machine.  In a configuration that does not, as all five of the
    program, the simulator panics. *)
Theorem exception_enters_handler s mode t instr s1 :
  arch_wf s -> is_u32 (pc (observable (V1.core s))) ->
  is_u32 (V1.extra_flags s) -> is_u32 (V1.status (V1.state (V1.machine_mode_trap_data s))) ->
  ExtraFlags.get_wait_for_interrupt (V1.extra_flags s) = 0 ->
  ExtraFlags.get_current_mode (V1.extra_flags s) = Some mode ->
  V1.cycle_block C mode (pc (observable (V1.core s))) (started s) = Trapped (t, instr) s1 ->
  if HANDLE_EXCEPTIONS C then exists s', V1.cycle_ext C s = Ok tt s' /\ trap_entered t instr s s'
  else V1.cycle_ext C s = Panic "Simulator encountered an exception".
Proof.
  intros Hwf Hpc Hfl Hst Hwait Hmode E.
  assert (Hs0 : same_arch s (started s)) by repeat split.
  pose proof (block_precise mode _ Hpc (started s) (same_arch_wf _ _ Hs0 Hwf)) as Hp. rewrite E in Hp.
  destruct (HANDLE_EXCEPTIONS C) eqn:Hexc; at_handler Hwait Hmode E; [|unfold V1.handle_trap; rewrite Hexc; reflexivity].
  destruct (handle_trap_enters s s1 t instr Hexc Hfl Hst (same_arch_trans _ _ _ Hs0 Hp)) as (s2 & Hh & He). rewrite Hh.
  unfold bind at 1, modify at 1. unfold bind at 1, gets at 1. unfold bind at 1.
  match goal with |- context [noexcept (read_sapt ?u mode)] =>
    pose proof (read_sapt_returns u mode) as Hr; destruct (read_sapt u mode) as [v|f v|]; [| |destruct Hr] end;
    (eexists; split; [reflexivity | exact He]).
Qed.
End Precise.

(** A load from an address the memory does not back, in user mode. *)
Definition trap_config : MachineConfig := {|
  SUPPORT_MUL := true; SUPPORT_DIV := true; SUPPORT_SIGNED_MUL := true; SUPPORT_SIGNED_DIV := true;
  SUPPORT_SIGNED_LOAD := true; SUPPORT_LOAD_LESS_THAN_WORD := true; SUPPORT_SRA := true;
  SUPPORT_ROT := false; SUPPORT_MOPS := false; HANDLE_EXCEPTIONS := true;
  SUPPORT_STANDARD_CSRS := true; SUPPORT_ONLY_CSRRW := false; ALLOWED_DELEGATION_CSRS := [] |}.

Definition trap_sample : V1.RiscV32State VectorMemoryImpl ZeroedSource NoMMU :=
  V1.with_trap_data (fun r => V1.set_tvec 0x100 (V1.set_status 8 r))
    (V1.with_extra_flags (fun _ => 0)
       (V1.initial 0 {| inner := [Encode.i_type 0x03 1 2 0 64] |} MkZeroedSource {| NoMMU_sapt := 0 |})).

Lemma trap_sample_wf : arch_wf trap_sample.
Proof.
  split; [apply (initial_observable_wf 0); [unfold is_u32; lia | reflexivity]|].
  intros a w Ha Hp. cbn. unfold VectorMemoryImpl_word, nthZ. cbn [inner length].
  case_if; [|discriminate]. intros E. bool_hyps. replace (a / 4) with 0 in E by (Z.div_mod_to_equations; lia).
  apply Some_inj in E. subst w. vm_compute. split; congruence.
Qed.

(** The state in which the block of the sample's first cycle traps *)
Definition trap_sample_end (C : MachineConfig) : V1.RiscV32State VectorMemoryImpl ZeroedSource NoMMU :=
  match V1.cycle_block (CSR := V1.NoExtraCSRs_processor _) C User 0 (started trap_sample) with
  | Trapped _ s1 => s1 | _ => trap_sample end.

Lemma exception_enters_handler_witness :
  (exists s', V1.cycle_ext (CSR := V1.NoExtraCSRs_processor _) trap_config trap_sample = Ok tt s' /\
    pc (observable (V1.core s')) = 0x100 /\ V1.cause (V1.handling (V1.machine_mode_trap_data s')) = 5 /\
    V1.status (V1.state (V1.machine_mode_trap_data s')) = 8 + 2 ^ 7 /\
    ExtraFlags.get_current_mode (V1.extra_flags s') = Some Machine) /\
  V1.cycle_ext (CSR := V1.NoExtraCSRs_processor _) IMStandardIsaConfig trap_sample =
    Panic "Simulator encountered an exception".
Proof.
  assert (PP : PreciseProcessor VectorMemoryImpl (H1 := V1.NoExtraCSRs_processor _))
    by (constructor; cbn; auto).
  assert (Trap : forall C, V1.cycle_block (CSR := V1.NoExtraCSRs_processor _) C User 0 (started trap_sample) =
      Trapped (LoadAccessFault, Encode.i_type 0x03 1 2 0 64) (trap_sample_end C) -> _)
    by (intros C; refine (exception_enters_handler (CSR := V1.NoExtraCSRs_processor _) C trap_sample User LoadAccessFault
          (Encode.i_type 0x03 1 2 0 64) (trap_sample_end C) trap_sample_wf _ _ _ eq_refl eq_refl); unfold is_u32; cbn; lia).
  split; [|exact (Trap IMStandardIsaConfig ltac:(vm_compute; reflexivity))].
  destruct (Trap trap_config ltac:(vm_compute; reflexivity)) as (s' & Hc & He).
  exists s'. split; [exact Hc|]. clear He. revert Hc. vm_compute. intros Hc. inversion Hc. auto.
Defined.
