(* ===== verification/Simulator.v ===== *)
(** * The run loop

    [src/risc_v_simulator/src/sim/mod.rs]: the [RiscV32Machine] trait,
    [Simulator::run] and its result, and the setups of [lib.rs] and
    [cycle/state.rs] ([with_nd], [BaselineWithND], [ProverUnrolled]) that build
    a machine.  The profiler only observes the machine and the two callbacks
    are the empty ones of [runner/mod.rs]; neither is modelled.  The run loop
    is written once over the trait; the theorems transfer a run from the first
    simulator to the unrolled one. *)
From stdpp Require Import base list gmap strings.
From Stdlib Require Import ZArith Lia.
From S2P Require Import Prelude MachineInt Decoder StatusRegisters Config Memory.
From S2P Require Import NonDeterminism Mmu Delegations DelegationSpec Cycle StateNew State.
From S2P Require Import Invariants SafetyNew Equivalence.

(** ** The trait and its two implementations *)

Class RiscV32Machine (Mach : Type) : Type := {
  machine_cycle : comp Empty_set Mach unit;
  machine_state : Mach -> RiscV32ObservableState;
}.

Definition RiscV32MachineV1 {M ND MMU} `{MemorySource M} `{NonDeterminismCSRSource ND M}
    `{MMUImplementation MMU M} {CSR : V1.CustomCSRProcessor M} (C : MachineConfig)
    : RiscV32Machine (V1.RiscV32State M ND MMU) :=
  {| machine_cycle := V1.cycle_ext C; machine_state s := observable (V1.core s) |}.

Definition Riscv32MachineProverUnrolled {M ND} `{MemorySource M} `{NonDeterminismCSRSource ND M}
    {CSR : V2.DelegationCSRProcessor M} (C : MachineConfig) : RiscV32Machine (Core M ND) :=
  {| machine_cycle := V2.cycle C ;;! ret tt; machine_state c := observable c |}.

(** ** The loop *)
Section Run.
Context {Mach : Type} `{RiscV32Machine Mach}.

Record Simulator : Type := { machine : Mach; sim_cycles : nat; reached_end : bool }.
Record RunResult : Type := { state : RiscV32ObservableState; exec_cycles : Z; result_reached_end : bool }.

(** [for cycle in 0..self.cycles]: whether the end was reached, and in which
    cycle. *)
Fixpoint run_loop (n : nat) (cycle previous_pc : Z) : comp Empty_set Mach (bool * Z) :=
  match n with
  | O => ret (false, 0)
  | S n =>
      machine_cycle ;;!
      let! current := gets (fun m => pc (machine_state m)) in
      if current =? previous_pc then ret (true, cycle)
      else run_loop n (cycle + 1) current
  end.

Definition run : comp Empty_set Simulator RunResult := fun sim =>
  if reached_end sim then Panic "Already reached end of execution."
  else
    match run_loop (sim_cycles sim) 0 (pc (machine_state (machine sim))) (machine sim) with
    | Ok (ended, cycles) m =>
        Ok {| state := machine_state m; exec_cycles := cycles; result_reached_end := ended |}
           {| machine := m; sim_cycles := sim_cycles sim; reached_end := ended |}
    | Trapped e m => Trapped e {| machine := m; sim_cycles := sim_cycles sim; reached_end := false |}
    | Panic msg => Panic msg
    end.

(** [k] cycles, collecting the pc after each. *)
Fixpoint iterate (k : nat) : comp Empty_set Mach (list Z) :=
  match k with
  | O => ret []
  | S k =>
      machine_cycle ;;!
      let! current := gets (fun m => pc (machine_state m)) in
      let! rest := iterate k in ret (current :: rest)
  end.

(** No cycle leaves the pc where it was. *)
Fixpoint moving (p : Z) (pcs : list Z) : Prop :=
  match pcs with [] => True | q :: rest => q <> p /\ moving q rest end.

(** The loop stops after the first cycle that does not move the pc. *)
Lemma run_loop_first n : forall k p m ended cycles m',
  run_loop n k p m = Ok (ended, cycles) m' ->
  if ended : bool then
    exists pcs q, iterate (S (length pcs)) m = Ok (pcs ++ [q]) m' /\ moving p pcs /\
      q = List.last (p :: pcs) 0 /\ (length pcs < n)%nat /\ cycles = k + Z.of_nat (length pcs)
  else exists pcs, iterate n m = Ok pcs m' /\ length pcs = n /\ moving p pcs /\ cycles = 0.
Proof.
  induction n as [|n IH]; intros k p m ended cycles m' E; cbn [run_loop] in E.
  - inversion E; subst. exists []. cbn. auto.
  - apply bind_ok in E. destruct E as ([] & m1 & Hc & E). unfold bind at 1, gets in E.
    destruct (Z.eqb_spec (pc (machine_state m1)) p) as [Hp | Hp].
    + inversion E; subst. exists [], (pc (machine_state m')). cbn [length iterate app List.last].
      unfold bind. rewrite Hc. cbn. split_and!; auto; lia.
    + apply IH in E. destruct ended.
      * destruct E as (pcs & q & Hi & Hm & Hq & Hl & Hcy).
        exists (pc (machine_state m1) :: pcs), q. cbn [length iterate app moving] in *.
        unfold bind at 1. rewrite Hc. unfold bind at 1, gets at 1. unfold bind at 1. rewrite Hi.
        rewrite Hq. split_and!; auto; try lia; destruct pcs; reflexivity.
      * destruct E as (pcs & Hi & Hl & Hm & Hcy). exists (pc (machine_state m1) :: pcs).
        cbn [iterate]. unfold bind at 1. rewrite Hc. unfold bind at 1, gets at 1. unfold bind at 1. rewrite Hi.
        cbn [length moving]. split_and!; auto.
Qed.
End Run.
Arguments Simulator : clear implicits.

(** ** Transfer of a run *)
Section Transfer.
Context {A B : Type} {MA : RiscV32Machine A} {MB : RiscV32Machine B} (R : A -> B -> Prop).

(** A cycle that completes on [A] completes on [B], and related machines show
    the same registers and pc. *)
Definition cycle_transfers : Prop :=
  (forall a b, R a b -> machine_state a = machine_state b) /\
  (forall a b u a', R a b -> machine_cycle a = Ok u a' ->
     exists b', machine_cycle b = Ok tt b' /\ R a' b').

Lemma run_loop_transfers n : cycle_transfers -> forall k p a b r a', R a b ->
  run_loop n k p a = Ok r a' -> exists b', run_loop n k p b = Ok r b' /\ R a' b'.
Proof.
  intros [Hs Hc]. induction n as [|n IH]; intros k p a b r a' HR E; cbn [run_loop] in *.
  - inversion E; subst. exists b. auto.
  - apply bind_ok in E. destruct E as ([] & a1 & E1 & E).
    destruct (Hc _ _ _ _ HR E1) as (b1 & Hb1 & HR1). unfold bind at 1. rewrite Hb1.
    unfold bind at 1, gets in E. unfold bind at 1, gets. rewrite <- (Hs _ _ HR1).
    destruct (pc (machine_state a1) =? p); [inversion E; subst; eauto|]. eapply IH; eauto.
Qed.

Lemma run_transfers a b n res sim' : cycle_transfers -> R a b ->
  run {| machine := a; sim_cycles := n; reached_end := false |} = Ok res sim' ->
  exists simb, run {| machine := b; sim_cycles := n; reached_end := false |} = Ok res simb /\
    R (machine sim') (machine simb).
Proof.
  intros Ht HR E. unfold run in *. cbn [reached_end machine sim_cycles] in *.
  destruct (run_loop n 0 (pc (machine_state a)) a) as [[ended k] a'|e a'|] eqn:El; try discriminate E.
  destruct (run_loop_transfers n Ht _ _ _ _ _ _ HR El) as (b' & Hb & HR').
  rewrite <- (proj1 Ht _ _ HR), Hb. inversion E; subst. cbn. rewrite (proj1 Ht _ _ HR').
  eexists. split; [reflexivity | exact HR'].
Qed.
End Transfer.

(** ** The two simulators *)
Section Agreement.
Context {M ND : Type} `{LawfulMemory M} `{NonDeterminismCSRSource ND M} {LS : LawfulSource M ND}
  {CSR1 : V1.CustomCSRProcessor M} {CSR2 : V2.DelegationCSRProcessor M}
  {PA : ProcessorsAgree M} {LP : LawfulProcessor M} (C : MachineConfig).

(** The configurations the provers run. *)
Definition prover_config : Prop :=
  HANDLE_EXCEPTIONS C = false /\ SUPPORT_STANDARD_CSRS C = false /\ SUPPORT_ONLY_CSRRW C = true /\
  SUPPORT_ROT C = false.

(** The machines of the two simulators in the same state. *)
Definition linked (s : V1.RiscV32State M ND NoMMU) (c : Core M ND) : Prop :=
  core_wf c /\ same_but_trace c (V1.core s) /\ machine_ready s.

Lemma linked_transfers : prover_config ->
  cycle_transfers (MA := RiscV32MachineV1 C) (MB := Riscv32MachineProverUnrolled C) linked.
Proof.
  intros (Hexc & Hcsrs & Hrw & Hrot). split.
  - intros s c (_ & (Ho & _) & _). symmetry. exact Ho.
  - intros s c u s' (Hwf & Hsame & Hready) E.
    destruct (cycle_simulated C Hcsrs Hrw Hrot s u s' c Hexc Hwf Hsame Hready E) as (Hr' & c' & Hc' & Hs').
    exists c'. split; [cbn; unfold bind; rewrite Hc'; reflexivity|].
    split; [|split; assumption]. pose proof (cycle_wf C c Hwf) as Hw. rewrite Hc' in Hw. exact Hw.
Qed.
End Agreement.

(** ** Main theorems *)
Section Main.
Context {Mach : Type} `{RiscV32Machine Mach}.

(** C34: [Simulator::run] iterates the machine until the first cycle that leaves
    the pc where it was, reports that cycle's index, and marks the end as
    reached; without such a cycle it runs exactly [cycles] cycles and reports
    no end. *)
Theorem run_stops_at_first_fixed_pc m n res sim' :
  run {| machine := m; sim_cycles := n; reached_end := false |} = Ok res sim' ->
  let p := pc (machine_state m) in
  reached_end sim' = result_reached_end res /\ state res = machine_state (machine sim') /\
  if result_reached_end res then
    exists pcs q, iterate (S (length pcs)) m = Ok (pcs ++ [q]) (machine sim') /\ moving p pcs /\
      q = List.last (p :: pcs) 0 /\ (length pcs < n)%nat /\ exec_cycles res = Z.of_nat (length pcs)
  else exists pcs, iterate n m = Ok pcs (machine sim') /\ moving p pcs.
Proof.
  intros E. unfold run in E. cbn [reached_end sim_cycles machine] in E.
  destruct (run_loop n 0 (pc (machine_state m)) m) as [[ended k] m'|e m'|] eqn:El; try discriminate E.
  inversion E; subst. cbn. split; [reflexivity|]. split; [reflexivity|].
  apply run_loop_first in El. destruct ended; [exact El|].
  destruct El as (pcs & Hi & _ & Hm & _). eauto.
Qed.
End Main.

Section MainAgreement.
Context {M ND : Type} `{LawfulMemory M} `{NonDeterminismCSRSource ND M} {LS : LawfulSource M ND}
  {CSR1 : V1.CustomCSRProcessor M} {CSR2 : V2.DelegationCSRProcessor M}
  {PA : ProcessorsAgree M} {LP : LawfulProcessor M} (C : MachineConfig).

(** C9: A run of the first simulator that completes is reproduced by the
    unrolled simulator: the same final registers and pc, number of cycles and
    end flag, and the same memory, oracle and markers. *)
Theorem simulator_runs_agree (s : V1.RiscV32State M ND NoMMU) c n res sim' :
  prover_config C -> linked s c ->
  run (H := RiscV32MachineV1 C) {| machine := s; sim_cycles := n; reached_end := false |} = Ok res sim' ->
  exists sim2, run (H := Riscv32MachineProverUnrolled C)
                 {| machine := c; sim_cycles := n; reached_end := false |} = Ok res sim2 /\
    same_but_trace (machine sim2) (V1.core (machine sim')).
Proof.
  intros HC HR E.
  destruct (run_transfers linked s c n res sim' (linked_transfers C HC) HR E) as (sim2 & Hr & _ & Hs & _).
  eauto.
Qed.
End MainAgreement.

Definition sample_run : outcome Empty_set (Simulator (V1.RiscV32State VectorMemoryImpl ZeroedSource NoMMU)) RunResult :=
  run (H := RiscV32MachineV1 (CSR := V1.DelegationsCSRProcessor) IMStandardIsaConfig)
    {| machine := sample_v1; sim_cycles := 20; reached_end := false |}.

Definition sample_result : RunResult :=
  match sample_run with
  | Ok r _ => r
  | _ => {| state := V2.initial 0; exec_cycles := 0; result_reached_end := false |}
  end.
Definition sample_final : Simulator (V1.RiscV32State VectorMemoryImpl ZeroedSource NoMMU) :=
  match sample_run with
  | Ok _ s => s
  | _ => {| machine := sample_v1; sim_cycles := 20; reached_end := false |}
  end.

Lemma sample_run_ok :
  run (H := RiscV32MachineV1 (CSR := V1.DelegationsCSRProcessor) IMStandardIsaConfig)
    {| machine := sample_v1; sim_cycles := 20; reached_end := false |} = Ok sample_result sample_final.
Proof. vm_compute. reflexivity. Qed.

Lemma sample_result_facts :
  result_reached_end sample_result = true /\ exec_cycles sample_result = 6 /\
  nth 5 (registers (state sample_result)) 0 = 144.
Proof. vm_compute. auto. Qed.

Lemma run_stops_at_first_fixed_pc_witness :
  exists pcs q,
    iterate (H := RiscV32MachineV1 (CSR := V1.DelegationsCSRProcessor) IMStandardIsaConfig)
      (S (length pcs)) sample_v1 = Ok (pcs ++ [q]) (machine sample_final) /\
    moving 0 pcs /\ q = List.last (0 :: pcs) 0 /\ length pcs = 6%nat.
Proof.
  change 0 with (pc (machine_state (RiscV32Machine := RiscV32MachineV1 (CSR := V1.DelegationsCSRProcessor) IMStandardIsaConfig) sample_v1)) at 1 2.
  pose proof (run_stops_at_first_fixed_pc (H := RiscV32MachineV1 (CSR := V1.DelegationsCSRProcessor) IMStandardIsaConfig)
                sample_v1 20 sample_result sample_final sample_run_ok) as (_ & _ & Hr).
  destruct sample_result_facts as (Hend & Hcyc & _). rewrite Hend in Hr.
  destruct Hr as (pcs & q & Hi & Hm & Hq & _ & Hl). exists pcs, q. split; [exact Hi|]. split; [exact Hm|].
  split; [exact Hq|]. rewrite Hcyc in Hl. apply Nat2Z.inj. rewrite <- Hl. reflexivity.
Defined.

Lemma simulator_runs_agree_witness :
  exists sim2, run (H := Riscv32MachineProverUnrolled (CSR := V2.DelegationsCSRProcessor) IMStandardIsaConfig)
                 {| machine := sample_core; sim_cycles := 20; reached_end := false |} = Ok sample_result sim2 /\
    exec_cycles sample_result = 6 /\ nth 5 (registers (state sample_result)) 0 = 144.
Proof.
  pose proof (DelegationsCSRProcessor_agree (M := VectorMemoryImpl)) as PA.
  destruct (simulator_runs_agree (CSR1 := V1.DelegationsCSRProcessor) (CSR2 := V2.DelegationsCSRProcessor)
              IMStandardIsaConfig sample_v1 sample_core 20 sample_result sample_final) as (sim2 & Hr & _).
  - repeat split.
  - split; [apply sample_core_wf|]. repeat split.
  - exact sample_run_ok.
  - exists sim2. split; [exact Hr|]. apply sample_result_facts.
Defined.

(** ** Setups *)

(** [RiscV32MachineV1::with_nd]: one gigabyte of memory. *)
Definition with_nd {ND} (entry_point : Z) (nd : ND) : option (V1.RiscV32State VectorMemoryImpl ND NoMMU) :=
  option_map (fun memory => V1.initial entry_point memory nd {| NoMMU_sapt := 0 |})
    (new_for_byte_size (2 ^ 30)).

(** [BaselineWithND::instantiate] *)
Definition baseline_instantiate {ND} (entry_point : Z) (bin : list Z) (nd : ND)
    : option (V1.RiscV32State VectorMemoryImpl ND NoMMU) :=
  match with_nd entry_point nd with
  | None => None
  | Some s =>
      option_map (fun m => V1.with_core (put_memory m) s)
        (load_image (memory_source (V1.core s)) entry_point bin)
  end.

(** [ProverUnrolled::instantiate] *)
Definition unrolled_instantiate {M ND} (entry_point : Z) (m : M) (nd : ND) : Core M ND :=
  {| observable := V2.initial entry_point; memory_source := m; non_determinism_source := nd;
     tracer := []; cycle_marker := CycleMarker_new |}.
